(* ===== verification/_CoqProject ===== *)
-Q . S2P
Prelude.v
Errors.v
Coding.v
Checksum.v
Keys.v
Record.v
GoIO.v
RecordIO.v
GoSort.v
Crashhook.v
Fs.v
Dirs.v
Wal.v
Batch.v
Memtable.v
SkipList.v
RefModel.v
Block.v
Footer.v
Index.v
SstWriter.v
SstReader.v
Edit.v
Version.v
Current.v
Manifest.v
Replay.v
FileNames.v
Engine.v
EngineRun.v
Disk.v
DiskRun.v
Live.v
Recovery.v
Robust.v
Dump.v
Boot.v
Reopen.v
Opening.v
History.v
Wakeups.v
Flags.v
Protocol.v
Oracle.v
Config.v
Artifact.v
Controller.v
Workload.v
Commands.v
Scenarios.v
HarnessRuns.v
