(* ===== verification/Prelude.v ===== *)
(** * BeachDB: a verification development

    BeachDB (src/, in Go) is an embedded key-value store: a log-structured merge tree
    with a write-ahead log, one memory table in use and at most one frozen, sorted
    table files (SSTables), and a MANIFEST that records which tables are live.  This
    library translates its code into Rocq, operation by operation and branch by
    branch, and proves what the operations promise, up to the durability of a
    database through crashes and restarts.  Definitions carry the names of the
    source; helpers the source does not have (the body of a loop, a reference
    definition, an invariant) are in lower case with underscores.

    ** How the program's parts interact

    [Write] encodes a batch (Batch), appends it to the WAL as one record (Record, Wal),
    syncs the log, gives each operation the next sequence number and puts it into
    the memtable (Memtable, SkipList) under an internal key (Keys).  When the memtable
    is full, or [Flush] is called, it is frozen, written to an SSTable (SstWriter over
    Block, Index and Footer), and published: a version edit (Edit) is appended to the MANIFEST
    (Manifest) and folded into the version (Version).  CURRENT (Current) names the live
    MANIFEST.  [Get] asks the memtables and then the SSTables from the newest to the
    oldest (SstReader).  [Open] (Recovery) sets up a new directory, or replays the MANIFEST
    (Replay), opens its tables, removes the others (FileNames), and replays the WAL, of
    which a crash may have cut the last record.

    ** The files

    Foundations.
    - Prelude: bytes and their order, the type [res] of results (value, error, panic)
      with its monad, machine-width integers, lemmas and tactics of general use.
    - Errors: internal/*/errors.go, engine/errors.go; Go's [error] with [errors.Is].
    - GoIO, GoSort: what is used of [os.File], [bufio], [io], [sort] and [slices].
      Lists of faults decide which system calls fail; [Slices] with [SlicesLaws] is a sort and a
      map order of which only the documented behaviour is used.
    - Crashhook: internal/crashhook.
    - Fs: a flat directory (names, inodes, what of each is on the disk), the monad [io]
      over it, its crashes, and the triples ([triple]) with which code over it is
      verified; [SyncDir] and [MaybeFault].
    - Dirs: [MkdirAllAndSync] of internal/fs, on a tree of directories.  Its outcome
      is the argument [mkdir] of [Recovery.Open].

    Codecs: Coding (internal/util/coding), Checksum (internal/util/checksum),
    Keys (internal/keys), Record (internal/record), Batch (engine/batch.go), Block,
    Footer, Index (internal/sstable), Edit (internal/manifest/edit.go), FileNames
    (the names in engine/db.go).

    Structures and logs: RecordIO (the reader that internal/wal and internal/manifest
    share), Wal (internal/wal), Memtable (the interface of internal/memtable as a type class
    with laws), SkipList (its implementation, on a heap of nodes), RefModel
    (internal/testutil/model.go), SstWriter and SstReader (internal/sstable), Version,
    Current and Manifest (internal/manifest).

    The engine (engine/db.go).
    - Engine: the state [DB], [Get], [Write], [Flush], [Close] and the background flusher.
      A handler is a sequence of segments: one critical section under [db.mu], or one
      piece of I/O outside it.  A parked goroutine is a [thread].
    - EngineRun: [sys_step], all interleavings of these segments, and the invariants
      of the memory.
    - Replay, Recovery: the replay of the MANIFEST, and [Open].
    - Disk, DiskRun, Live: which states of the disk a database can be reopened from, and
      that no segment, with whatever failures, leaves them on its way.
    - Robust: [Open] on any directory at all, with any failures; nothing is assumed of its history.
    - Boot, Reopen, Opening: [Open] on every such state.
    - History: [hstep], the life of a directory through any number of processes and crashes.
    - Wakeups: who sleeps on [db.cond] and whom [Signal] and [Broadcast] wake ([run_step]), and the
      protocol behind it ([seg]), to which the segments are reduced.
    - Scenarios: concrete runs, as witnesses and as counterexamples.

    Tools and harness.
    - Dump: cmd/wal_dump, cmd/manifest_dump, cmd/sst_dump, as the lines they print.
    - Protocol, Oracle, Config, Artifact, Controller, Workload: cmd/crash, which starts a worker on
      a database, kills it, reopens the database and compares it with an oracle.
      [Controller.sys_step] interleaves the controller, the worker and their pipes.
    - Flags: what the programs use of Go's packages flag and strconv.
    - Commands: the command lines of cmd/crash (main.go, runCommand, replayCommand, workerCommand) and
      of the dump tools, with what the process prints and exits with.
    - HarnessRuns: concrete runs of the harness.

    ** What the theorems show

    - Durability: History.durable_linearizable and recovery_succeeds, over all histories; write_is_atomic and engine_refines_map of EngineRun, over all
      interleavings, refine an open database to a map.
    - Robustness: [Open] does not panic on any directory, whatever fails (Robust.open_never_panics).
    - Progress: no handler and no goroutine panics, but in the one race between [Close] and a flush
      (History.handlers_never_panic); nobody sleeps without a reason and without somebody awake
      to end it (Wakeups.no_lost_wakeup); once no more calls are made every call returns, after
      a number of steps that [Wakeups.work] bounds (Wakeups.calls_return).
    - Crash safety of each durable structure: Wal.wal_crash_recovery, Current.write_current_atomic,
      Replay.manifest_replay_recovers, Dirs.mkdir_all_and_sync_durable, RecordIO.reader_recovers_prefix
      and reader_rejects_burst.
    - Refinement: skip list and SSTables (lookups and iterators) to sorted lists of entries, memtables
      to the reference model of the tests, versions to sets of live files; what wal_dump and manifest_dump print, read back, to what recovery
      replays (Dump.wal_dump_matches_recovery, manifest_dump_matches_recovery).
    - Round trips and totality of the codecs, for every input, errors included.
    - The harness: its workloads are well formed, its wire format is faithful, and on a database that
      keeps its promises it reports no failure (Controller.controller_no_false_alarm).  A worker gets
      the directory of its run (Commands.worker_gets_dbdir), and every setting can be given on
      the command line (Commands.run_flags_roundtrip).
    - What the code does not guarantee, as theorems on concrete runs or exact statements of the
      boundary: concurrent flushes, [Close] during [Flush], a failed write that comes back, an older
      value that comes back without fsync, a failed set-up, a retried [MkdirAllAndSync], device errors taken for a torn
      record, the lengths and keys that encode but do not decode, and the harness' verifier and
      fault points.

    ** Bounds and fuel

    Integers are in [Z] with their wrap-around ([u32], [u64]) written where the code's types
    wrap.  A loop that is not structural takes fuel, and the fuel used is proved enough
    (a run that has too little is [Panic], which the theorems exclude): [drain_fuel] for a
    record stream is more than the number of its records, as each takes a byte at least; the decoders
    take the length of the input.  Iterators are read with one step more than there are entries.  The
    theorems on histories assume that the number of calls to [Open] times the bytes of all batches
    written is below 2 GiB and that [Open] is called less than 2^63 times: this keeps block offsets, record
    lengths and the counters of files and sequence numbers within their widths.

    ** Assumptions

    Each is a hypothesis, a class or part of a model where it is used, and witnesses instantiate it.
    - [GoodDevice] and [Streams], in the theorems on histories and on open databases: files that are open
      for reading do not fail while they are read.  Without it durability is false:
      RecordIO.reader_hides_device_error shows what becomes of a log.  Every other call may fail
      anywhere; Robust and the readers' own theorems do without.
    - [o_syncOnWrite]: histories open with fsync per write, the default.
    - [batch_ok], in the theorems on histories: every part of a batch fits its length field, and user
      keys have at most 65527 bytes.  [Write] checks neither.  Without the second recovery fails: a table
      with a longer first or last key leaves an edit in the MANIFEST that cannot be decoded
      (Edit.edit_large_key_unreadable).
    - Crashes.  Bytes of a file survive up to the last fsync at least; the entries of a directory go back
      to one of the states they went through since its last fsync, in order; what is found after
      a crash is on the disk; [os.Truncate] is on the disk when it returns.  A failing call changes nothing, but a
      write may fail after any part of it, and an fsync that fails makes nothing durable.
    - Memory does not run out.  Only slices whose size the user of the crash harness sets are checked against the address
      space ([Workload.make_slice]); what the storage code allocates is bounded by fields of 32 bits.
    - A segment that panics ends the process and is no step of a run; open_never_panics and
      handlers_never_panic show that none does, but the one of close_during_flush_panics.
    - [sync.Cond]: [Wait] goes on only when it is woken, [Signal] wakes one of those who wait,
      whichever, [Broadcast] all.  Theorems outside Wakeups let waiting goroutines go on at any time.
    - [RngLaws] (random numbers are in their range), [MapOrderLaws] and [SlicesLaws].

    ** Not modelled

    - encoding/json: the harness' messages are modelled up to the framing, its artifact up to the encoding.
    - Process control, logging, signals, clocks and timers of cmd/: that a worker starts, dies or is
      killed is a step of [Controller.sys_step].  What package flag prints.
    - [fmt.Printf]'s rendering in the dump tools: a line is its format and its arguments.
    - Contexts beyond the checks the code makes of them; the data race detector's view of memory:
      segments are atomic, as [db.mu] makes them.
    - examples/: programs that show the API and add nothing to it. *)
From Stdlib Require Export ZArith Lia.
From Stdlib.Strings Require Export Byte.
From Stdlib.Sorting Require Export Sorted.
From stdpp Require Export base list gmap strings.

Declare Scope beach_scope.
Delimit Scope beach_scope with beach.
Open Scope beach_scope.

Create HintDb beach.
Create Rewrite HintDb beach.

(** ** Bytes

    A Go [byte] is one of the 256 constructors of the Standard Library's
    [Byte.byte], so byte slices carry no range side conditions. *)
Abbreviation byte := Byte.byte.
Abbreviation bytes := (list Byte.byte).

#[export] Instance byte_eq_dec : EqDecision byte := Byte.byte_eq_dec.

#[export] Instance byte_countable : Countable byte.
Proof.
  refine (inj_countable Byte.to_N Byte.of_N _).
  intros b. apply Byte.of_to_N.
Defined.

#[export] Instance byte_inhabited : Inhabited byte := populate x00.

(** The numeric value of a byte, and the Go conversion [byte(z)]. *)
Definition byte_to_Z (b : byte) : Z := Z.of_N (Byte.to_N b).

Definition Z_to_byte (z : Z) : byte :=
  default x00 (Byte.of_N (Z.to_N (z mod 256))).

Lemma byte_to_Z_range b : (0 <= byte_to_Z b < 256)%Z.
Proof. unfold byte_to_Z. pose proof (Byte.to_N_bounded b). lia. Qed.

Lemma byte_to_Z_of_Z z : byte_to_Z (Z_to_byte z) = (z mod 256)%Z.
Proof.
  unfold byte_to_Z, Z_to_byte.
  pose proof (Z.mod_pos_bound z 256 ltac:(lia)) as Hb.
  destruct (Byte.of_N (Z.to_N (z mod 256))) as [b|] eqn:E; simpl.
  - apply Byte.to_of_N in E. rewrite E. lia.
  - apply Byte.of_N_None_iff in E. lia.
Qed.

Lemma byte_to_Z_inj a b : byte_to_Z a = byte_to_Z b -> a = b.
Proof.
  unfold byte_to_Z. intros E%N2Z.inj.
  pose proof (Byte.of_to_N a) as Ha. pose proof (Byte.of_to_N b) as Hb.
  rewrite E in Ha. congruence.
Qed.

Lemma Z_to_byte_to_Z b : Z_to_byte (byte_to_Z b) = b.
Proof.
  apply byte_to_Z_inj. rewrite byte_to_Z_of_Z.
  pose proof (byte_to_Z_range b). apply Z.mod_small. lia.
Qed.

#[export] Hint Resolve byte_to_Z_range : beach.
#[export] Hint Rewrite byte_to_Z_of_Z Z_to_byte_to_Z : beach.

(** [bytes_of_string s] is Go's [[]byte(s)]. *)
Definition bytes_of_string (s : string) : bytes := String.list_byte_of_string s.

(** ** Results

    A Go function that returns [(T, error)] has three outcomes: a value, an
    error, or a run-time panic (an index or slice expression out of range). *)
Inductive result (E A : Type) : Type :=
  | Ok (a : A)
  | Err (e : E)
  | Panic.
Arguments Ok {E A} a.
Arguments Err {E A} e.
Arguments Panic {E A}.

#[export] Instance result_eq_dec {E A} `{EqDecision E, EqDecision A} : EqDecision (result E A).
Proof. solve_decision. Defined.

#[export] Instance result_ret {E} : MRet (result E) := fun A a => Ok a.

#[export] Instance result_bind {E} : MBind (result E) :=
  fun A B f m => match m with Ok a => f a | Err e => Err e | Panic => Panic end.

#[export] Instance result_fmap {E} : FMap (result E) :=
  fun A B f m => match m with Ok a => Ok (f a) | Err e => Err e | Panic => Panic end.

(** [if err != nil { return nil, e' }]: every error of [m] becomes [e']. *)
Definition map_err {E E' A} (f : E -> E') (m : result E A) : result E' A :=
  match m with Ok a => Ok a | Err e => Err (f e) | Panic => Panic end.

Definition is_Ok {E A} (m : result E A) : Prop := exists a, m = Ok a.

Lemma bind_Ok {E A B} (m : result E A) (f : A -> result E B) b :
  mbind f m = Ok b <-> exists a, m = Ok a /\ f a = Ok b.
Proof.
  split.
  - destruct m; cbn; intros; simplify_eq; eauto.
  - intros (a & -> & Hf); done.
Qed.

Lemma bind_Err {E A B} (m : result E A) (f : A -> result E B) e :
  mbind f m = Err e <-> m = Err e \/ exists a, m = Ok a /\ f a = Err e.
Proof.
  split.
  - destruct m; cbn; intros; simplify_eq; eauto.
  - intros [->|(a & -> & Hf)]; done.
Qed.

Lemma bind_ret_l {E A B} (a : A) (f : A -> result E B) : mbind f (Ok a) = f a.
Proof. reflexivity. Qed.

Lemma bind_assoc {E A B C} (m : result E A) (f : A -> result E B) (g : B -> result E C) :
  mbind g (mbind f m) = mbind (fun a => mbind g (f a)) m.
Proof. by destruct m. Qed.

Lemma bind_ext {E A B} (m : result E A) (f g : A -> result E B) :
  (forall a, m = Ok a -> f a = g a) -> mbind f m = mbind g m.
Proof. destruct m; cbn; auto. Qed.

Lemma map_err_Ok {E E' A} (f : E -> E') (m : result E A) a :
  map_err f m = Ok a <-> m = Ok a.
Proof. destruct m; cbn; split; congruence. Qed.

#[export] Hint Rewrite @bind_ret_l : beach.

(** [safe P m]: the computation does not panic, and its errors satisfy [P]. *)
Definition safe {E A} (P : E -> Prop) (m : result E A) : Prop :=
  is_Ok m \/ exists e, m = Err e /\ P e.

Lemma safe_Ok {E A} (P : E -> Prop) (a : A) : safe P (Ok a).
Proof. left. by eexists. Qed.

Lemma safe_err {E A} (P : E -> Prop) (e : E) : P e -> safe P (@Err E A e).
Proof. right. by eexists. Qed.

Lemma safe_bind {E A B} (P : E -> Prop) (m : result E A) (k : A -> result E B) :
  safe P m -> (forall a, m = Ok a -> safe P (k a)) -> safe P (mbind k m).
Proof.
  intros [[a ->]|(e & -> & He)] Hk; [by apply Hk|]. right. by exists e.
Qed.

Lemma safe_map_err {E E' A} (P : E' -> Prop) (m : result E A) (e' : E') :
  P e' -> (exists e, m = Err e) \/ is_Ok m -> safe P (map_err (fun _ => e') m).
Proof. intros He [[e ->]|[a ->]]; [right; by eexists|apply safe_Ok]. Qed.

Lemma safe_mono {E A} (P Q : E -> Prop) (m : result E A) :
  (forall e, P e -> Q e) -> safe P m -> safe Q m.
Proof. intros H [?|(e & ? & ?)]; [by left|right; eauto]. Qed.

#[export] Hint Resolve safe_Ok safe_err : beach.

(** ** Tactics *)

(** Case analysis on the matches and binds of a hypothesis [... = Ok _]. *)
Ltac simplify_res :=
  repeat match goal with
  | H : mbind _ _ = Ok _ |- _ =>
      apply bind_Ok in H; let a := fresh "r" in let E := fresh "E" in
      destruct H as (a & E & H)
  | H : map_err _ _ = Ok _ |- _ => apply map_err_Ok in H
  | H : (if ?c then _ else _) = Ok _ |- _ => let E := fresh "E" in destruct c eqn:E
  | H : match ?c with _ => _ end = Ok _ |- _ => let E := fresh "E" in destruct c eqn:E
  | H : Err _ = Ok _ |- _ => discriminate H
  | H : Panic = Ok _ |- _ => discriminate H
  | H : Ok _ = Ok _ |- _ => injection H as H; simplify_eq
  | H : mret _ = Ok _ |- _ => injection H as H; simplify_eq
  end.

(** Reduce a decidable boolean comparison in the goal or a hypothesis. *)
Ltac zb :=
  repeat match goal with
  | H : (_ <? _)%Z = true |- _ => apply Z.ltb_lt in H
  | H : (_ <? _)%Z = false |- _ => apply Z.ltb_ge in H
  | H : (_ <=? _)%Z = true |- _ => apply Z.leb_le in H
  | H : (_ <=? _)%Z = false |- _ => apply Z.leb_gt in H
  | H : (_ =? _)%Z = true |- _ => apply Z.eqb_eq in H
  | H : (_ =? _)%Z = false |- _ => apply Z.eqb_neq in H
  | H : (_ <? _)%nat = true |- _ => apply Nat.ltb_lt in H
  | H : (_ <? _)%nat = false |- _ => apply Nat.ltb_ge in H
  | H : (_ <=? _)%nat = true |- _ => apply Nat.leb_le in H
  | H : (_ <=? _)%nat = false |- _ => apply Nat.leb_gt in H
  | H : (_ =? _)%nat = true |- _ => apply Nat.eqb_eq in H
  | H : (_ =? _)%nat = false |- _ => apply Nat.eqb_neq in H
  end.



(** List lengths, solved by arithmetic. *)
Ltac len :=
  repeat (rewrite ?length_app, ?length_replicate, ?length_take, ?length_drop,
    ?length_cons, ?length_nil in *); cbn [length] in *; lia.

(** Make the zero paddings and the offsets of two buffer states agree. *)
Ltac same_fill :=
  match goal with
  | |- _ = ?rhs => match rhs with context [replicate ?b x00] =>
      repeat match goal with
      | |- context [replicate ?a x00] => tryif constr_eq a b then fail else replace a with b by lia
      end end
  end;
  match goal with
  | |- Ok (?a, ?m) = Ok (?b, ?n) => replace m with n by lia
  | _ => idtac
  end;
  rewrite <-?app_assoc; reflexivity.

(** ** Fixed-width unsigned integers *)
Definition u32 (z : Z) : Z := (z mod 2 ^ 32)%Z.
Definition u64 (z : Z) : Z := (z mod 2 ^ 64)%Z.
Definition is_u32 (z : Z) : Prop := (0 <= z < 2 ^ 32)%Z.
Definition is_u64 (z : Z) : Prop := (0 <= z < 2 ^ 64)%Z.

(** Go's [int], of 64 bits. *)
Definition int64 (z : Z) : Z := (z + 2 ^ 63) mod 2 ^ 64 - 2 ^ 63.

Lemma int64_id z : (- 2 ^ 63 <= z < 2 ^ 63)%Z -> int64 z = z.
Proof. intros H. unfold int64. rewrite Z.mod_small; lia. Qed.

#[export] Instance is_u32_dec z : Decision (is_u32 z).
Proof. unfold is_u32. apply _. Defined.
#[export] Instance is_u64_dec z : Decision (is_u64 z).
Proof. unfold is_u64. apply _. Defined.

Lemma u32_id z : is_u32 z -> u32 z = z.
Proof. unfold is_u32, u32. apply Z.mod_small. Qed.
Lemma u64_id z : is_u64 z -> u64 z = z.
Proof. unfold is_u64, u64. apply Z.mod_small. Qed.
Lemma u32_range z : is_u32 (u32 z).
Proof. apply Z.mod_pos_bound. lia. Qed.
Lemma u64_range z : is_u64 (u64 z).
Proof. apply Z.mod_pos_bound. lia. Qed.
#[export] Hint Resolve u32_range u64_range : beach.

(** Go's [len], as an integer. *)
Definition zlen {A} (l : list A) : Z := Z.of_nat (length l).

(** ** Slices

    [slice a b l] is [l[a:b]]; it panics when the bounds are out of order or
    past the end. *)
Definition slice {E A} (a b : nat) (l : list A) : result E (list A) :=
  if (a <=? b)%nat && (b <=? length l)%nat then Ok (take (b - a) (drop a l)) else Panic.

(** [index i l] is [l[i]]. *)
Definition index {E A} (i : nat) (l : list A) : result E A :=
  match l !! i with Some x => Ok x | None => Panic end.

(** [store i x l] is the assignment [l[i] = x]. *)
Definition store {E A} (i : nat) (x : A) (l : list A) : result E (list A) :=
  if (i <? length l)%nat then Ok (<[i := x]> l) else Panic.

(** [overwrite off src l] replaces [l[off:off+len(src)]]. *)
Definition overwrite {A} (off : nat) (src l : list A) : list A :=
  take off l ++ src ++ drop (off + length src) l.

(** [copy(l[off:], src)]: copies as much of [src] as fits; [l[off:]] panics
    when [off > len(l)]. *)
Definition copy_at {E A} (off : nat) (src l : list A) : result E (list A) :=
  if (off <=? length l)%nat
  then Ok (overwrite off (take (length l - off) src) l) else Panic.

Lemma slice_app {E A} (l1 l2 l3 : list A) a b :
  a = length l1 -> b = (length l1 + length l2)%nat ->
  slice a b (l1 ++ l2 ++ l3) = @Ok E _ l2.
Proof.
  intros -> ->. unfold slice.
  replace (length l1 <=? length l1 + length l2)%nat with true
    by (symmetry; apply Nat.leb_le; lia).
  replace (length l1 + length l2 <=? length (l1 ++ l2 ++ l3))%nat with true
    by (symmetry; apply Nat.leb_le; len).
  cbn. f_equal. rewrite drop_app_length.
  replace (length l1 + length l2 - length l1)%nat with (length l2) by lia.
  apply take_app_length.
Qed.

Lemma slice_Ok {E A} (l : list A) a b r :
  slice a b l = @Ok E _ r -> (a <= b <= length l)%nat /\ r = take (b - a) (drop a l).
Proof.
  unfold slice. destruct (_ && _) eqn:H; [|done].
  apply andb_true_iff in H as [H1 H2]. zb. intros [= <-]. done.
Qed.

Lemma slice_in {E A} (l : list A) a b :
  (a <= b <= length l)%nat -> slice a b l = @Ok E _ (take (b - a) (drop a l)).
Proof.
  intros H. unfold slice.
  rewrite (proj2 (Nat.leb_le a b)), (proj2 (Nat.leb_le b (length l))) by lia. done.
Qed.

Lemma copy_at_fits {E A} off (src l : list A) :
  (off + length src <= length l)%nat -> copy_at off src l = @Ok E _ (overwrite off src l).
Proof.
  intros H. unfold copy_at. rewrite (proj2 (Nat.leb_le _ _)) by lia.
  by rewrite take_ge by lia.
Qed.

(** Filling a freshly allocated buffer front to back: the part already written
    is [done], the rest is still zero. *)
Lemma overwrite_fill {A} (pre src rest : list A) off :
  off = length pre -> (length src <= length rest)%nat ->
  overwrite off src (pre ++ rest) = (pre ++ src) ++ drop (length src) rest.
Proof.
  intros -> H. unfold overwrite.
  rewrite take_app_length, drop_app_ge by lia.
  replace (length pre + length src - length pre)%nat with (length src) by lia.
  by rewrite <-app_assoc.
Qed.

Lemma drop_zeros n k : drop n (replicate k x00) = replicate (k - n) x00.
Proof. apply drop_replicate. Qed.

Lemma zlen_app {A} (l1 l2 : list A) : zlen (l1 ++ l2) = (zlen l1 + zlen l2)%Z.
Proof. unfold zlen. rewrite length_app. lia. Qed.

Lemma zlen_nonneg {A} (l : list A) : (0 <= zlen l)%Z.
Proof. unfold zlen. lia. Qed.

(** ** Prefixes of concatenations *)
Lemma prefix_app_short {A} (l a b : list A) :
  l `prefix_of` a ++ b -> (length l <= length a)%nat -> l `prefix_of` a.
Proof.
  intros [k E] Hl. exists (take (length a - length l) k).
  apply (f_equal (take (length a))) in E.
  by rewrite take_app_length, take_app_ge in E by done.
Qed.

Lemma prefix_app_long {A} (l a b : list A) :
  l `prefix_of` a ++ b -> (length a <= length l)%nat -> a `prefix_of` l.
Proof.
  intros [k E] Hl. apply (prefix_app_short a l k); [by exists b|done].
Qed.

(** ** Filters *)
Lemma filter_none {A} (P : A -> Prop) `{!forall x, Decision (P x)} (l : list A) :
  (forall x, x ∈ l -> ~ P x) -> filter P l = [].
Proof.
  induction l as [|x l IH]; intros Hl; [done|].
  rewrite filter_cons_False by (apply Hl, elem_of_cons; auto).
  apply IH. intros y Hy. apply Hl, elem_of_cons; auto.
Qed.

Lemma filter_all {A} (P : A -> Prop) `{!forall x, Decision (P x)} (l : list A) :
  (forall x, x ∈ l -> P x) -> filter P l = l.
Proof.
  induction l as [|x l IH]; intros Hl; [done|].
  rewrite filter_cons_True by (apply Hl, elem_of_cons; auto).
  f_equal. apply IH. intros y Hy. apply Hl, elem_of_cons; auto.
Qed.

Lemma filter_ext {A} (P Q : A -> Prop) `{!forall x, Decision (P x)} `{!forall x, Decision (Q x)}
    (l : list A) :
  (forall x, x ∈ l -> P x <-> Q x) -> filter P l = filter Q l.
Proof.
  induction l as [|x l IH]; intros Hl; [done|].
  assert (P x <-> Q x) as Hx by (apply Hl, elem_of_cons; auto).
  assert (filter P l = filter Q l) as Hpq by (apply IH; intros; apply Hl, elem_of_cons; auto).
  destruct (decide (P x)).
  - rewrite !filter_cons_True by tauto. by f_equal.
  - rewrite !filter_cons_False by tauto. done.
Qed.

Lemma NoDup_fmap_filter {A B} (f : A -> B) (P : A -> Prop) `{!forall x, Decision (P x)} (l : list A) :
  NoDup (f <$> l) -> NoDup (f <$> filter P l).
Proof.
  induction l as [|x l IH]; cbn; [done|]. intros [Hn Hnd]%NoDup_cons.
  destruct (decide (P x)); [|by apply IH]. cbn. apply NoDup_cons. split; [|by apply IH].
  intros (y & E & Hy)%list_elem_of_fmap. apply list_elem_of_filter in Hy as [_ Hy].
  apply Hn. rewrite E. by apply list_elem_of_fmap_2.
Qed.
