(* ===== verification/Errors.v ===== *)
(** * Error values

    The sentinel errors of every package, one enumeration per [errors.go], and
    Go's [error] interface as the type of all of them, closed under the
    wrapping done by [fmt.Errorf] with [%w].  [errors.Is] looks through the
    wrapping, as the engine's recovery code does. *)
From S2P Require Import Prelude.

(** Sentinels of the Go packages [io] and [os] that the code tests for. *)
Module io.
Inductive error := EOF | ErrUnexpectedEOF.
End io.

Module keys.
Inductive error := ErrCorruptInternalKey.
End keys.

Module record.
Inductive error :=
  | ErrCorruptRecord | ErrBadHeader | ErrChecksum | ErrTruncated | ErrBadMagic
  | ErrUnsupportedVersion | ErrUnsupportedRecordType | ErrRecordTooLarge.
End record.

Module wal.
Inductive error := ErrWriterClosed | ErrReaderClosed.
End wal.

Module manifest.
Inductive error :=
  | ErrUnknownTag | ErrTruncatedEdit | ErrEditFieldTooLarge | ErrWriterClosed
  | ErrReaderClosed | ErrNoCurrentFile | ErrInvalidManifestName.
End manifest.

Module sstable.
Inductive error :=
  | ErrWriterClosed | ErrReaderClosed | ErrIteratorClosed | ErrOutOfOrderKey
  | ErrInvalidBlockSize | ErrNilFile | ErrFileTooSmall | ErrReadingFile
  | ErrReaderClosingFile | ErrBadMagic | ErrUnsupportedVersion | ErrCorruptFooter
  | ErrCorruptIndex | ErrCorruptBlock | ErrIndexChecksumMismatch
  | ErrBlockChecksumMismatch | ErrKeyNotFound | ErrKeyDeleted.
End sstable.

Module engine.
Inductive error :=
  | ErrCorruptBatch | ErrBadVersion | ErrUnknownOpType | ErrTruncatedBatch
  | ErrDBClosed | ErrKeyNotFound | ErrCreatingSSTFile
  | ErrInvalidMemtableFlushSize | ErrInvalidSSTBlockSize | ErrFlushEmptyMemtable.
End engine.

Module crashhook.
Inductive error := ErrInjectedWALSync | ErrInjectedSSTPublish | ErrInjectedSSTWrite.
End crashhook.

(** The [error] interface.  [OsError] is an error of the operating system
    (failed write, sync, open...); [Errorf] is [fmt.Errorf("msg: %w", e)];
    [ErrorText] an error with no sentinel behind it. *)
Inductive error :=
  | io_error (e : io.error)
  | keys_error (e : keys.error)
  | record_error (e : record.error)
  | wal_error (e : wal.error)
  | manifest_error (e : manifest.error)
  | sstable_error (e : sstable.error)
  | engine_error (e : engine.error)
  | crashhook_error (e : crashhook.error)
  | OsError (what : string)
  | ErrorText (msg : string)
  | Errorf (msg : string) (e : error).

Coercion io_error : io.error >-> error.
Coercion keys_error : keys.error >-> error.
Coercion record_error : record.error >-> error.
Coercion wal_error : wal.error >-> error.
Coercion manifest_error : manifest.error >-> error.
Coercion sstable_error : sstable.error >-> error.
Coercion engine_error : engine.error >-> error.
Coercion crashhook_error : crashhook.error >-> error.

#[export] Instance error_eq_dec : EqDecision error.
Proof. unfold EqDecision, Decision. repeat decide equality. Defined.

(** [errors.Is(e, target)]. *)
Fixpoint errors_Is (e target : error) : bool :=
  bool_decide (e = target) ||
  match e with Errorf _ e' => errors_Is e' target | _ => false end.

(** A Go function returning [(A, error)]. *)
Abbreviation res := (result error).

(** [return ..., e]. *)
Abbreviation throw e := (@Err error _ e).
