(* ===== verification/Coding.v ===== *)
(** * Binary coding (internal/util/coding)

    Big-endian integers and the bounds-checked [ByteReader].  The reader is a
    state-passing function: a method returns its value with the advanced
    reader, or the error, after which no caller uses the reader again. *)
From S2P Require Import Prelude.
From S2P Require Import Errors.

Local Open Scope Z_scope.

(** ** Big-endian integers

    [be_bytes n v] are the [n] low bytes of [v], most significant first, as
    [encoding/binary] writes them; [be_value] reads them back. *)
Fixpoint be_bytes (n : nat) (v : Z) : bytes :=
  match n with
  | O => []
  | S m => Z_to_byte (Z.shiftr v (8 * Z.of_nat m)) :: be_bytes m v
  end.

Definition be_value (src : bytes) : Z :=
  fold_left (fun acc b => Z.lor (Z.shiftl acc 8) (byte_to_Z b)) src 0.

(** [PutUintN(dst[off:], v)]: [dst[off:]] must hold at least the integer's
    width, otherwise the program panics. *)
Definition put_be (n : nat) (dst : bytes) (off : nat) (v : Z) : res bytes :=
  if (off + n <=? length dst)%nat then Ok (overwrite off (be_bytes n v) dst) else Panic.

Definition PutUint16 := put_be 2.
Definition PutUint32 := put_be 4.
Definition PutUint64 := put_be 8.

(** [UintN(src)]: reads the first bytes of [src], panics when it is too short. *)
Definition get_be (n : nat) (src : bytes) : res Z :=
  if (n <=? length src)%nat then Ok (be_value (take n src)) else Panic.

Definition Uint16 := get_be 2.
Definition Uint32 := get_be 4.
Definition Uint64 := get_be 8.

(** ** ByteReader *)
Record ByteReader := mkByteReader { br_data : bytes; br_offset : nat }.

Definition NewByteReader (data : bytes) : ByteReader := mkByteReader data 0.

Definition Remaining (r : ByteReader) : Z := zlen (br_data r) - Z.of_nat (br_offset r).

(** [r.offset += n]. *)
Definition advance (n : nat) (r : ByteReader) : ByteReader :=
  mkByteReader (br_data r) (br_offset r + n).

Definition ReadByte (r : ByteReader) : res (byte * ByteReader) :=
  if (length (br_data r) <=? br_offset r)%nat then throw io.ErrUnexpectedEOF
  else b ← index (br_offset r) (br_data r); Ok (b, advance 1 r).

Definition ReadUint32 (r : ByteReader) : res (Z * ByteReader) :=
  if (length (br_data r) <? br_offset r + 4)%nat then throw io.ErrUnexpectedEOF
  else v ← Uint32 (drop (br_offset r) (br_data r)); Ok (v, advance 4 r).

Definition ReadUint64 (r : ByteReader) : res (Z * ByteReader) :=
  if (length (br_data r) <? br_offset r + 8)%nat then throw io.ErrUnexpectedEOF
  else v ← Uint64 (drop (br_offset r) (br_data r)); Ok (v, advance 8 r).

(** The bound is tested on integers, so a huge [n] is refused before any
    allocation. *)
Definition ReadBytes (n : Z) (r : ByteReader) : res (bytes * ByteReader) :=
  if zlen (br_data r) <? Z.of_nat (br_offset r) + n then throw io.ErrUnexpectedEOF
  else b ← slice (br_offset r) (br_offset r + Z.to_nat n) (br_data r);
       Ok (b, advance (Z.to_nat n) r).

(** ** Round trip of the integers *)
Lemma length_be_bytes n v : length (be_bytes n v) = n.
Proof. induction n; cbn; congruence. Qed.

Lemma lor_shift_byte acc b : Z.lor (Z.shiftl acc 8) (byte_to_Z b) = acc * 256 + byte_to_Z b.
Proof.
  pose proof (byte_to_Z_range b) as Hb.
  rewrite Z.shiftl_mul_pow2 by lia.
  pose proof (Z.add_lor_land (acc * 2 ^ 8) (byte_to_Z b)) as Hsum.
  enough (Z.land (acc * 2 ^ 8) (byte_to_Z b) = 0) by lia.
  clear Hsum.
  apply Z.bits_inj'. intros i Hi. rewrite Z.land_spec, Z.bits_0.
  destruct (Z.ltb_spec i 8).
  - rewrite Z.mul_pow2_bits_low by lia. done.
  - rewrite (Z.bits_above_log2 (byte_to_Z b)), andb_false_r; [done|lia|].
    destruct (Z.eq_dec (byte_to_Z b) 0) as [->|]; [cbn; lia|].
    apply Z.log2_lt_pow2; [lia|]. apply Z.lt_le_trans with (2 ^ 8); [lia|].
    apply Z.pow_le_mono_r; lia.
Qed.

Lemma be_value_acc src acc :
  fold_left (fun acc b => Z.lor (Z.shiftl acc 8) (byte_to_Z b)) src acc =
  acc * 256 ^ Z.of_nat (length src) + be_value src.
Proof.
  unfold be_value. revert acc. induction src as [|b src IH]; intros acc; cbn [fold_left length].
  { rewrite Z.pow_0_r. lia. }
  rewrite IH, (IH (Z.lor (Z.shiftl 0 8) (byte_to_Z b))), !lor_shift_byte.
  rewrite Nat2Z.inj_succ, Z.pow_succ_r by lia. lia.
Qed.

Lemma be_value_cons b src :
  be_value (b :: src) = byte_to_Z b * 256 ^ Z.of_nat (length src) + be_value src.
Proof.
  unfold be_value at 1. cbn [fold_left]. rewrite be_value_acc, lor_shift_byte. lia.
Qed.

Lemma be_value_range src : 0 <= be_value src < 256 ^ Z.of_nat (length src).
Proof.
  induction src as [|b src IH]; [cbn; lia|].
  rewrite be_value_cons. cbn [length]. rewrite Nat2Z.inj_succ, Z.pow_succ_r by lia.
  pose proof (byte_to_Z_range b). nia.
Qed.

Lemma be_value_be_bytes n v : be_value (be_bytes n v) = v mod 256 ^ Z.of_nat n.
Proof.
  induction n as [|n IH]; [rewrite Z.mod_1_r; done|].
  cbn [be_bytes]. rewrite be_value_cons, length_be_bytes, IH, byte_to_Z_of_Z.
  rewrite Z.shiftr_div_pow2, Nat2Z.inj_succ, Z.pow_succ_r by lia.
  rewrite Z.pow_mul_r by lia. change (2 ^ 8) with 256.
  rewrite (Z.mul_comm 256), Z.rem_mul_r by lia. lia.
Qed.

(** Multiples of [256 ^ m] do not reach the [m] low bytes. *)
Lemma be_bytes_add_multiple m k c v :
  be_bytes m (c * 256 ^ (Z.of_nat m + Z.of_nat k) + v) = be_bytes m v.
Proof.
  revert k. induction m as [|m IHm]; intros k; [done|]. cbn [be_bytes]. f_equal.
  - apply byte_to_Z_inj. rewrite !byte_to_Z_of_Z, !Z.shiftr_div_pow2, Z.pow_mul_r by lia.
    change (2 ^ 8) with 256.
    replace (Z.of_nat (S m) + Z.of_nat k) with (Z.of_nat k + 1 + Z.of_nat m) by lia.
    rewrite Z.pow_add_r, Z.mul_assoc, Z.div_add_l by lia.
    rewrite Z.pow_add_r, Z.pow_1_r, Z.mul_assoc, Z.add_comm by lia.
    by rewrite Z.mod_add by lia.
  - rewrite <-(IHm (S k)). do 4 f_equal. lia.
Qed.

Lemma be_bytes_be_value src n : length src = n -> be_bytes n (be_value src) = src.
Proof.
  intros <-. induction src as [|b src IH]; [done|].
  cbn [length be_bytes]. f_equal.
  - rewrite be_value_cons, Z.shiftr_div_pow2, Z.pow_mul_r by lia.
    change (2 ^ 8) with 256. pose proof (be_value_range src).
    rewrite Z.div_add_l, Z.div_small, Z.add_0_r by lia. apply Z_to_byte_to_Z.
  - rewrite <-IH at 3. rewrite be_value_cons.
    rewrite <-(Z.add_0_r (Z.of_nat (length src))). apply (be_bytes_add_multiple _ 0).
Qed.

Lemma be_bytes_inj n v w :
  0 <= v < 256 ^ Z.of_nat n -> 0 <= w < 256 ^ Z.of_nat n ->
  be_bytes n v = be_bytes n w -> v = w.
Proof.
  intros Hv Hw E%(f_equal be_value). rewrite !be_value_be_bytes, !Z.mod_small in E by lia. done.
Qed.

Lemma be32_value v : is_u32 v -> be_value (be_bytes 4 v) = v.
Proof. intros H. rewrite be_value_be_bytes. apply Z.mod_small, H. Qed.
Lemma be64_value v : is_u64 v -> be_value (be_bytes 8 v) = v.
Proof. intros H. rewrite be_value_be_bytes. apply Z.mod_small, H. Qed.
Lemma be_value_u32 src : length src = 4%nat -> is_u32 (be_value src).
Proof. intros H. pose proof (be_value_range src) as Hr. by rewrite H in Hr. Qed.
Lemma be_value_u64 src : length src = 8%nat -> is_u64 (be_value src).
Proof. intros H. pose proof (be_value_range src) as Hr. by rewrite H in Hr. Qed.

#[export] Hint Rewrite length_be_bytes : beach.
#[export] Hint Resolve be_value_u32 be_value_u64 : beach.

(** ** Reading *)
#[global] Arguments be_bytes : simpl never.
#[global] Arguments be_value : simpl never.

(** The bytes a reader has not consumed yet, and the invariant that its
    position is inside the data. *)
Definition rest (r : ByteReader) : bytes := drop (br_offset r) (br_data r).
Definition wf_reader (r : ByteReader) : Prop := (br_offset r <= length (br_data r))%nat.

Lemma rest_new data : rest (NewByteReader data) = data.
Proof. reflexivity. Qed.

Lemma wf_new data : wf_reader (NewByteReader data).
Proof. unfold wf_reader. cbn. lia. Qed.

Lemma rest_advance n r : rest (advance n r) = drop n (rest r).
Proof. unfold rest. cbn. by rewrite drop_drop. Qed.

Lemma rest_advance_app n r a t : rest r = a ++ t -> length a = n -> rest (advance n r) = t.
Proof. intros H <-. by rewrite rest_advance, H, drop_app_length. Qed.

Lemma length_rest r : length (rest r) = (length (br_data r) - br_offset r)%nat.
Proof. apply length_drop. Qed.

Lemma wf_advance n r : wf_reader r -> (n <= length (rest r))%nat -> wf_reader (advance n r).
Proof. unfold wf_reader. rewrite length_rest. cbn. lia. Qed.

Lemma Remaining_rest r : wf_reader r -> Remaining r = zlen (rest r).
Proof. unfold Remaining, zlen, wf_reader. rewrite length_rest. lia. Qed.

Lemma get_be_app n a t : length a = n -> get_be n (a ++ t) = Ok (be_value a).
Proof.
  intros <-. unfold get_be. rewrite take_app_length.
  by rewrite (proj2 (Nat.leb_le _ _)) by len.
Qed.

Lemma get_be_exact n a : length a = n -> get_be n a = Ok (be_value a).
Proof. intros H. rewrite <-(app_nil_r a) at 1. by apply get_be_app. Qed.

(** A reader that has the encoding in front of it returns the value. *)
Lemma ReadByte_app r b t : rest r = b :: t -> ReadByte r = Ok (b, advance 1 r).
Proof.
  intros H. unfold ReadByte, index.
  pose proof (length_rest r) as Hl. rewrite H in Hl. cbn in Hl.
  rewrite (proj2 (Nat.leb_gt _ _)) by lia.
  assert (br_data r !! br_offset r = Some b) as ->; [|done].
  rewrite <-(Nat.add_0_r (br_offset r)), <-lookup_drop. unfold rest in H. by rewrite H.
Qed.

Lemma ReadUint32_app r v t :
  is_u32 v -> rest r = be_bytes 4 v ++ t -> ReadUint32 r = Ok (v, advance 4 r).
Proof.
  intros Hv H. unfold ReadUint32.
  pose proof (length_rest r) as Hl. rewrite H, length_app, length_be_bytes in Hl.
  rewrite (proj2 (Nat.ltb_ge _ _)) by lia. unfold rest in H. rewrite H.
  unfold Uint32. rewrite get_be_app by apply length_be_bytes.
  cbn. by rewrite be32_value.
Qed.

Lemma ReadUint64_app r v t :
  is_u64 v -> rest r = be_bytes 8 v ++ t -> ReadUint64 r = Ok (v, advance 8 r).
Proof.
  intros Hv H. unfold ReadUint64.
  pose proof (length_rest r) as Hl. rewrite H, length_app, length_be_bytes in Hl.
  rewrite (proj2 (Nat.ltb_ge _ _)) by lia. unfold rest in H. rewrite H.
  unfold Uint64. rewrite get_be_app by apply length_be_bytes.
  cbn. by rewrite be64_value.
Qed.

Lemma ReadBytes_app r a t n :
  wf_reader r -> rest r = a ++ t -> n = zlen a ->
  ReadBytes n r = Ok (a, advance (length a) r).
Proof.
  intros Hwf H ->. unfold ReadBytes, zlen.
  pose proof (length_rest r) as Hl. rewrite H, length_app in Hl. unfold wf_reader in Hwf.
  rewrite (proj2 (Z.ltb_ge _ _)) by lia. rewrite Nat2Z.id, slice_in by lia. cbn.
  unfold rest in H. rewrite H. by replace (_ - _)%nat with (length a) by lia;
    rewrite take_app_length.
Qed.

(** Conversely, a successful read consumed exactly the encoding of its value. *)
Record consumed (r : ByteReader) (enc : bytes) (r' : ByteReader) : Prop := {
  consumed_data : br_data r' = br_data r;
  consumed_rest : rest r = enc ++ rest r';
  consumed_wf : wf_reader r -> wf_reader r'
}.

Lemma consumed_advance r n :
  (n <= length (rest r))%nat -> consumed r (take n (rest r)) (advance n r).
Proof.
  intros H. split; [done| |].
  - by rewrite rest_advance, take_drop.
  - intros. by apply wf_advance.
Qed.

Lemma consumed_trans r1 e1 r2 e2 r3 :
  consumed r1 e1 r2 -> consumed r2 e2 r3 -> consumed r1 (e1 ++ e2) r3.
Proof.
  intros [D1 R1 W1] [D2 R2 W2]. split; [congruence| |by auto].
  by rewrite R1, R2, app_assoc.
Qed.

Lemma ReadByte_consumed r b r' : ReadByte r = Ok (b, r') -> consumed r [b] r'.
Proof.
  unfold ReadByte, index. intros H.
  destruct (_ <=? _)%nat eqn:Hb; [done|]. zb.
  destruct (br_data r !! br_offset r) as [b'|] eqn:E; [|done]. cbn in H. simplify_eq.
  replace [b] with (take 1 (rest r)); [apply consumed_advance; rewrite length_rest; lia|].
  unfold rest. by rewrite (drop_S _ b _ E).
Qed.

Lemma get_be_drop n r :
  (br_offset r + n <= length (br_data r))%nat ->
  get_be n (drop (br_offset r) (br_data r)) = Ok (be_value (take n (rest r))).
Proof.
  intros H. unfold get_be. by rewrite (proj2 (Nat.leb_le _ _)) by len.
Qed.

Lemma length_take_rest n r :
  (br_offset r + n <= length (br_data r))%nat -> length (take n (rest r)) = n.
Proof. intros H. rewrite length_take, length_rest. lia. Qed.

Lemma ReadUint32_consumed r v r' :
  ReadUint32 r = Ok (v, r') -> consumed r (be_bytes 4 v) r' /\ is_u32 v.
Proof.
  unfold ReadUint32. intros H. destruct (_ <? _)%nat eqn:Hb; [done|]. zb.
  unfold Uint32 in H. rewrite get_be_drop in H by lia. cbn in H. simplify_eq.
  rewrite be_bytes_be_value by (by apply length_take_rest). split.
  - apply consumed_advance. rewrite length_rest. lia.
  - apply be_value_u32, length_take_rest. lia.
Qed.

Lemma ReadUint64_consumed r v r' :
  ReadUint64 r = Ok (v, r') -> consumed r (be_bytes 8 v) r' /\ is_u64 v.
Proof.
  unfold ReadUint64. intros H. destruct (_ <? _)%nat eqn:Hb; [done|]. zb.
  unfold Uint64 in H. rewrite get_be_drop in H by lia. cbn in H. simplify_eq.
  rewrite be_bytes_be_value by (by apply length_take_rest). split.
  - apply consumed_advance. rewrite length_rest. lia.
  - apply be_value_u64, length_take_rest. lia.
Qed.

Lemma ReadBytes_consumed n r b r' :
  0 <= n -> ReadBytes n r = Ok (b, r') -> consumed r b r' /\ zlen b = n.
Proof.
  unfold ReadBytes, zlen. intros Hn H. destruct (_ <? _) eqn:Hb; [done|]. zb.
  apply bind_Ok in H as (b' & E & H). injection H as <- <-.
  apply slice_Ok in E as [E ->].
  replace (br_offset r + Z.to_nat n - br_offset r)%nat with (Z.to_nat n) by lia.
  fold (rest r). split.
  - apply consumed_advance. rewrite length_rest. lia.
  - rewrite length_take, length_rest. lia.
Qed.

(** ** No read panics, and a refused read is [ErrUnexpectedEOF] *)
Lemma ReadByte_total r : ReadByte r = throw io.ErrUnexpectedEOF \/ is_Ok (ReadByte r).
Proof.
  unfold ReadByte, index. destruct (_ <=? _)%nat eqn:Hb; [by left|right]. zb.
  destruct (lookup_lt_is_Some_2 (br_data r) (br_offset r)) as [b ->]; [done|].
  by eexists.
Qed.

Lemma ReadUint32_total r : ReadUint32 r = throw io.ErrUnexpectedEOF \/ is_Ok (ReadUint32 r).
Proof.
  unfold ReadUint32. destruct (_ <? _)%nat eqn:Hb; [by left|right]. zb.
  unfold Uint32. rewrite get_be_drop by lia. by eexists.
Qed.

Lemma ReadUint64_total r : ReadUint64 r = throw io.ErrUnexpectedEOF \/ is_Ok (ReadUint64 r).
Proof.
  unfold ReadUint64. destruct (_ <? _)%nat eqn:Hb; [by left|right]. zb.
  unfold Uint64. rewrite get_be_drop by lia. by eexists.
Qed.

Lemma ReadBytes_total n r :
  0 <= n -> ReadBytes n r = throw io.ErrUnexpectedEOF \/ is_Ok (ReadBytes n r).
Proof.
  intros Hn. unfold ReadBytes, zlen. destruct (_ <? _) eqn:Hb; [by left|right]. zb.
  rewrite slice_in by lia. by eexists.
Qed.

Lemma advance_advance a b r : advance a (advance b r) = advance (b + a) r.
Proof. unfold advance. cbn. f_equal. lia. Qed.

Lemma wf_advance_app n r a t : wf_reader r -> rest r = a ++ t -> length a = n -> wf_reader (advance n r).
Proof. intros Hwf H <-. apply wf_advance; [done|]. rewrite H, length_app. lia. Qed.

#[export] Hint Resolve wf_new : beach.

(** Make the positions of two readers over the same data agree. *)
Ltac same_reader :=
  match goal with
  | |- Ok (?x, advance ?a ?r) = Ok (?y, advance ?b ?r) =>
      replace b with a by lia; reflexivity
  end.

Lemma consumed_cons r1 b e r2 r3 : consumed r1 [b] r2 -> consumed r2 e r3 -> consumed r1 (b :: e) r3.
Proof. apply (consumed_trans _ [b]). Qed.

#[export] Hint Resolve consumed_trans consumed_cons : beach.

(** ** Reads never panic

    In the shape [safe_map_err] asks for, with a tactic that walks through a
    sequence of reads whose errors are all replaced by the caller's own. *)
Lemma read_any {A} (m : res A) :
  m = throw io.ErrUnexpectedEOF \/ is_Ok m -> (exists e, m = Err e) \/ is_Ok m.
Proof. intros [->|?]; eauto. Qed.

Ltac u32_nonneg :=
  first [ lia
        | match goal with H : ReadUint32 _ = Ok _ |- _ =>
            apply ReadUint32_consumed in H as [_ [? _]]; lia end ].

Ltac read_total :=
  apply read_any;
  first [ apply ReadByte_total | apply ReadUint32_total | apply ReadUint64_total
        | apply ReadBytes_total; u32_nonneg ].

Ltac safe_read :=
  apply safe_bind;
  [ apply safe_map_err; [eauto with beach|read_total]
  | let a := fresh "a" in let r := fresh "r" in let E := fresh "E" in
    intros [a r] E%map_err_Ok ].

Lemma consumed_length r e r' : consumed r e r' -> length (rest r) = (length e + length (rest r'))%nat.
Proof. intros [_ -> _]. apply length_app. Qed.

(** ** Decoding until the cursor is exhausted

    [for br.Remaining() > 0 { ... }]: block entries, index entries.  An element
    takes at least one byte, so the data's length bounds the rounds. *)
Section DecodeAll.
Context {A : Type} (step : ByteReader -> res (A * ByteReader)).
Context (wire : A -> bytes) (wf : A -> Prop) (P : error -> Prop).

Fixpoint decode_all (fuel : nat) (acc : list A) (r : ByteReader) : res (list A) :=
  if Remaining r <=? 0 then Ok acc
  else match fuel with
  | O => Panic
  | S fuel => '(a, r) ← step r; decode_all fuel (acc ++ [a]) r
  end.

Hypothesis step_wire : forall a r t,
  wf a -> wf_reader r -> rest r = wire a ++ t -> step r = Ok (a, advance (length (wire a)) r).
Hypothesis step_sound : forall r a r', step r = Ok (a, r') -> wf a /\ consumed r (wire a) r'.
Hypothesis wire_pos : forall a, (0 < length (wire a))%nat.
Hypothesis step_safe : forall r, safe P (step r).

Lemma length_wires l : (length l <= length (mjoin (wire <$> l)))%nat.
Proof using wire_pos.
  clear -wire_pos. induction l as [|a l IH]; [cbn; lia|].
  change (mjoin (wire <$> a :: l)) with (wire a ++ mjoin (wire <$> l)).
  rewrite length_app. cbn [length]. pose proof (wire_pos a). lia.
Qed.

Lemma Remaining_pos r : wf_reader r -> (Remaining r <=? 0) = bool_decide (rest r = []).
Proof using.
  intros Hw. rewrite Remaining_rest by done. unfold zlen. case_bool_decide as H; [by rewrite H|].
  apply Z.leb_gt. destruct (rest r); [done|cbn; lia].
Qed.

Lemma decode_all_wire l fuel acc r :
  Forall wf l -> wf_reader r -> rest r = mjoin (wire <$> l) -> (length l < fuel)%nat ->
  decode_all fuel acc r = Ok (acc ++ l).
Proof using step_wire wire_pos.
  revert fuel acc r. induction l as [|a l IH]; intros fuel acc r Hl Hw Hr Hf;
    (destruct fuel as [|fuel]; [cbn in Hf; lia|]); cbn [decode_all]; rewrite Remaining_pos by done.
  - rewrite bool_decide_true by done. by rewrite app_nil_r.
  - rewrite bool_decide_false.
    + change (mjoin (wire <$> a :: l)) with (wire a ++ mjoin (wire <$> l)) in Hr.
      apply Forall_cons in Hl as [Ha Hl]. rewrite (step_wire a r _ Ha Hw Hr). cbn [mbind result_bind].
      rewrite IH; [by rewrite <-app_assoc|done|by eapply wf_advance_app|
        by eapply rest_advance_app|cbn in Hf; lia].
    + rewrite Hr. intros [E _]%app_eq_nil.
      pose proof (wire_pos a) as Hpos. rewrite E in Hpos. cbn in Hpos. lia.
Qed.

Lemma decode_all_sound fuel acc r out :
  wf_reader r -> decode_all fuel acc r = Ok out ->
  exists l, out = acc ++ l /\ Forall wf l /\ rest r = mjoin (wire <$> l).
Proof using step_sound.
  revert acc r. induction fuel as [|fuel IH]; intros acc r Hw; cbn [decode_all];
    rewrite Remaining_pos by done; case_bool_decide as Hr; intros H; simplify_eq.
  1, 2: exists []; rewrite app_nil_r; done.
  apply bind_Ok in H as ([a r1] & E & H). apply step_sound in E as [Ha [_ Hc Hw1]].
  apply IH in H as (l & -> & Hl & Hr1); [|auto].
  exists (a :: l). rewrite <-app_assoc. split_and!; [done|by constructor|]. cbn. by rewrite Hc, Hr1.
Qed.

Lemma decode_all_safe fuel acc r :
  (length (rest r) < fuel)%nat -> wf_reader r -> safe P (decode_all fuel acc r).
Proof using step_safe step_sound wire_pos.
  revert acc r. induction fuel as [|fuel IH]; intros acc r Hl Hw; [lia|].
  cbn [decode_all]. destruct (_ <=? 0); [apply safe_Ok|].
  apply safe_bind; [apply step_safe|]. intros [a r'] E.
  apply step_sound in E as [_ Hc]. apply IH; [|by apply Hc].
  apply consumed_length in Hc. pose proof (wire_pos a). lia.
Qed.
End DecodeAll.

(** ** Properties *)

(** The cursor never reads past its data.  From any cursor inside
    the data, [ReadUint32], [ReadUint64] and [ReadBytes] either consume exactly
    the bytes they return, leaving the rest, or report [io.ErrUnexpectedEOF]
    because fewer bytes remain; they never panic, however large the requested
    length is. *)
Theorem byte_reader_reads_exactly (r : ByteReader) (n : Z) :
  wf_reader r -> 0 <= n ->
  (match ReadBytes n r with
   | Ok (b, r') => rest r = b ++ rest r' /\ zlen b = n /\ wf_reader r'
   | Err e => e = io.ErrUnexpectedEOF /\ zlen (rest r) < n
   | Panic => False
   end) /\
  (match ReadUint32 r with
   | Ok (v, r') => rest r = be_bytes 4 v ++ rest r' /\ is_u32 v /\ wf_reader r'
   | Err e => e = io.ErrUnexpectedEOF /\ zlen (rest r) < 4
   | Panic => False
   end) /\
  (match ReadUint64 r with
   | Ok (v, r') => rest r = be_bytes 8 v ++ rest r' /\ is_u64 v /\ wf_reader r'
   | Err e => e = io.ErrUnexpectedEOF /\ zlen (rest r) < 8
   | Panic => False
   end).
Proof.
  intros Hwf Hn. unfold wf_reader in Hwf. split_and!.
  - destruct (ReadBytes_total n r Hn) as [H|[[b r'] H]]; rewrite H.
    + split; [done|]. unfold ReadBytes in H. destruct (_ <? _) eqn:Hb; zb.
      * unfold zlen in *. rewrite length_rest. lia.
      * unfold zlen in *. rewrite slice_in in H by lia. done.
    + apply ReadBytes_consumed in H as [[_ ? Hw] ?]; auto.
  - destruct (ReadUint32_total r) as [H|[[b r'] H]]; rewrite H.
    + split; [done|]. unfold ReadUint32 in H. destruct (_ <? _)%nat eqn:Hb; zb.
      * unfold zlen. rewrite length_rest. lia.
      * unfold Uint32 in H. by rewrite get_be_drop in H by lia.
    + apply ReadUint32_consumed in H as [[_ ? Hw] ?]; auto.
  - destruct (ReadUint64_total r) as [H|[[b r'] H]]; rewrite H.
    + split; [done|]. unfold ReadUint64 in H. destruct (_ <? _)%nat eqn:Hb; zb.
      * unfold zlen. rewrite length_rest. lia.
      * unfold Uint64 in H. by rewrite get_be_drop in H by lia.
    + apply ReadUint64_consumed in H as [[_ ? Hw] ?]; auto.
Qed.

Lemma byte_reader_reads_exactly_witness :
  match ReadBytes 2 (NewByteReader [x01; x02; x03]) with
  | Ok (b, r') => b = [x01; x02] /\ rest r' = [x03]
  | _ => False
  end.
Proof.
  destruct (byte_reader_reads_exactly (NewByteReader [x01; x02; x03]) 2) as [H _].
  - unfold wf_reader. cbn. lia.
  - lia.
  - vm_compute. split; reflexivity.
Defined.
