(* ===== verification/Checksum.v ===== *)
(** * CRC32C (internal/util/checksum)

    [hash/crc32] with the Castagnoli table: the reflected CRC-32 with
    polynomial 0x82F63B78, all-ones initial value and final complement,
    written bit by bit. *)
From S2P Require Import Prelude.

Local Open Scope Z_scope.

Definition castagnoli : Z := 0x82F63B78.

(** One bit of the reflected shift register. *)
Definition crc_bit (c : Z) : Z :=
  if Z.odd c then Z.lxor (Z.shiftr c 1) castagnoli else Z.shiftr c 1.

(** One byte: what one lookup in [crc32Table] computes. *)
Definition crc_byte (c : Z) (b : byte) : Z := Nat.iter 8 crc_bit (Z.lxor c (byte_to_Z b)).

Definition crc_update (c : Z) (data : bytes) : Z := fold_left crc_byte data c.

Definition CRC32C (data : bytes) : Z :=
  Z.lxor (crc_update 0xFFFFFFFF data) 0xFFFFFFFF.

Example CRC32C_check_value : CRC32C (bytes_of_string "123456789") = 0xE3069283.
Proof. vm_compute. reflexivity. Qed.

Example CRC32C_empty : CRC32C [] = 0.
Proof. reflexivity. Qed.

(** ** Range *)
Definition is_crc (c : Z) : Prop := 0 <= c < 2 ^ 32.

Lemma lxor_range n a b :
  0 <= n -> 0 <= a < 2 ^ n -> 0 <= b < 2 ^ n -> 0 <= Z.lxor a b < 2 ^ n.
Proof.
  intros Hn Ha Hb.
  assert (0 <= Z.lxor a b) as H0 by (apply Z.lxor_nonneg; lia).
  split; [done|].
  destruct (Z.eq_dec (Z.lxor a b) 0) as [->|Hne]; [lia|].
  apply Z.log2_lt_pow2; [lia|].
  apply Z.le_lt_trans with (Z.max (Z.log2 a) (Z.log2 b)); [by apply Z.log2_lxor; lia|].
  destruct (Z.eq_dec n 0) as [->|].
  { assert (a = 0) as -> by lia. assert (b = 0) as -> by lia. done. }
  apply Z.max_lub_lt.
  - destruct (Z.eq_dec a 0) as [->|]; [cbn; lia|apply Z.log2_lt_pow2; lia].
  - destruct (Z.eq_dec b 0) as [->|]; [cbn; lia|apply Z.log2_lt_pow2; lia].
Qed.

Lemma is_crc_lxor a b : is_crc a -> is_crc b -> is_crc (Z.lxor a b).
Proof. apply lxor_range. lia. Qed.

Lemma is_crc_byte b : is_crc (byte_to_Z b).
Proof. unfold is_crc. pose proof (byte_to_Z_range b). lia. Qed.

Lemma crc_bit_range c : is_crc c -> is_crc (crc_bit c).
Proof.
  intros H. unfold crc_bit, is_crc in *.
  assert (0 <= Z.shiftr c 1 < 2 ^ 32) by (rewrite Z.shiftr_div_pow2 by lia;
    pose proof (Z.div_pos c (2 ^ 1)); pose proof (Z.div_le_upper_bound c (2 ^ 1) c); lia).
  destruct (Z.odd c); [|lia]. apply lxor_range; [lia..|]. unfold castagnoli. lia.
Qed.

Lemma crc_iter_range n c : is_crc c -> is_crc (Nat.iter n crc_bit c).
Proof. intros H. induction n; [done|]. rewrite Nat.iter_succ. auto using crc_bit_range. Qed.

Lemma crc_byte_range c b : is_crc c -> is_crc (crc_byte c b).
Proof. intros H. apply crc_iter_range, is_crc_lxor; auto using is_crc_byte. Qed.

Lemma crc_update_range data c : is_crc c -> is_crc (crc_update c data).
Proof.
  revert c. induction data as [|b data IH]; intros c H; cbn; [done|].
  apply IH, crc_byte_range, H.
Qed.

Lemma CRC32C_range data : is_u32 (CRC32C data).
Proof. apply is_crc_lxor; [apply crc_update_range|]; unfold is_crc; lia. Qed.

#[export] Hint Resolve CRC32C_range is_crc_byte crc_bit_range : beach.

(** ** The register is a linear map *)
Lemma crc_bit_lxor a b : crc_bit (Z.lxor a b) = Z.lxor (crc_bit a) (crc_bit b).
Proof.
  unfold crc_bit. rewrite Z.shiftr_lxor, <-!Z.bit0_odd, Z.lxor_spec.
  destruct (Z.testbit a 0), (Z.testbit b 0); cbn [xorb];
    apply Z.bits_inj'; intros i _; rewrite !Z.lxor_spec;
    destruct (Z.testbit _ _), (Z.testbit _ _), (Z.testbit castagnoli i); done.
Qed.

Lemma crc_iter_lxor n a b :
  Nat.iter n crc_bit (Z.lxor a b) = Z.lxor (Nat.iter n crc_bit a) (Nat.iter n crc_bit b).
Proof. induction n as [|n IH]; [done|]. by rewrite !Nat.iter_succ, IH, crc_bit_lxor. Qed.

(** The top bit of the register tells which branch a step took, so a step
    whose result is below [2^31] was a plain shift. *)
Lemma crc_bit_small c r : is_crc c -> crc_bit c = r -> r < 2 ^ 31 -> c = 2 * r.
Proof.
  unfold is_crc, crc_bit. intros Hc Hr Hlt.
  assert (0 <= c / 2 < 2 ^ 31) as Hd
    by (split; [apply Z.div_pos; lia|apply Z.div_lt_upper_bound; lia]).
  rewrite Z.shiftr_div_pow2 in Hr by lia. change (2 ^ 1) with 2 in Hr.
  destruct (Z.odd c) eqn:Hodd.
  - exfalso. assert (Z.testbit r 31 = true) as Ht.
    { subst r. rewrite Z.lxor_spec.
      assert (Z.testbit (c / 2) 31 = false) as ->; [|reflexivity].
      rewrite <-(Z.mod_small (c / 2) (2 ^ 31)) by lia. apply Z.mod_pow2_bits_high. lia. }
    assert (0 <= r) by (subst r; apply Z.lxor_nonneg; unfold castagnoli; lia).
    rewrite <-(Z.mod_small r (2 ^ 31)), Z.mod_pow2_bits_high in Ht by lia. done.
  - rewrite Zodd_mod in Hodd. pose proof (Z.div_mod c 2 ltac:(lia)).
    pose proof (Z.mod_pos_bound c 2 ltac:(lia)).
    destruct (Z.eqb_spec (c mod 2) 1); [done|]. lia.
Qed.

Lemma crc_iter_small n c r :
  is_crc c -> Nat.iter n crc_bit c = r -> r * 2 ^ Z.of_nat n < 2 ^ 32 -> c = r * 2 ^ Z.of_nat n.
Proof.
  revert r. induction n as [|n IH]; intros r Hc Hr Hlt; [cbn in *; lia|].
  rewrite Nat.iter_succ in Hr. pose proof (crc_iter_range n c Hc) as Hn.
  rewrite Nat2Z.inj_succ, Z.pow_succ_r in * by lia.
  assert (0 <= r) by (rewrite <-Hr; apply crc_bit_range; done).
  assert (0 < 2 ^ Z.of_nat n) by (apply Z.pow_pos_nonneg; lia).
  apply crc_bit_small in Hr; [|done|nia].
  rewrite (IH (2 * r)); [lia|done|done|nia].
Qed.

(** ** Error detection *)

(** The difference of two registers fed with equal-length data is the
    register fed with the bytewise differences. *)
Fixpoint crc_diff (d : Z) (w1 w2 : bytes) : Z :=
  match w1, w2 with
  | b1 :: w1', b2 :: w2' =>
      crc_diff (Nat.iter 8 crc_bit (Z.lxor d (Z.lxor (byte_to_Z b1) (byte_to_Z b2)))) w1' w2'
  | _, _ => d
  end.

Lemma lxor_swap a b c d : Z.lxor (Z.lxor a b) (Z.lxor c d) = Z.lxor (Z.lxor a c) (Z.lxor b d).
Proof.
  apply Z.bits_inj'. intros i _. rewrite !Z.lxor_spec.
  destruct (Z.testbit a i), (Z.testbit b i), (Z.testbit c i), (Z.testbit d i); done.
Qed.

Lemma crc_update_diff w1 w2 c1 c2 :
  length w1 = length w2 ->
  Z.lxor (crc_update c1 w1) (crc_update c2 w2) = crc_diff (Z.lxor c1 c2) w1 w2.
Proof.
  revert w2 c1 c2. induction w1 as [|b1 w1 IH]; intros [|b2 w2] c1 c2 Hl; try discriminate Hl; [done|].
  apply Nat.succ_inj in Hl.
  unfold crc_update in *. cbn [fold_left crc_diff]. rewrite IH by done. unfold crc_byte.
  by rewrite <-crc_iter_lxor, lxor_swap.
Qed.

Lemma lxor_0_eq a b : Z.lxor a b = 0 -> a = b.
Proof. apply Z.lxor_eq. Qed.

(** A difference that vanishes at the end of a window was confined, at each
    point of the window, to the bits the remaining bytes can still cancel. *)
Lemma crc_diff_window w1 w2 d :
  length w1 = length w2 -> (length w1 <= 4)%nat -> is_crc d ->
  crc_diff d w1 w2 = 0 -> d < 2 ^ (8 * Z.of_nat (length w1)).
Proof.
  revert w2 d. induction w1 as [|b1 w1 IH]; intros [|b2 w2] d Hl Hn Hd H; try discriminate Hl.
  { cbn [crc_diff] in H. subst d. done. }
  cbn [crc_diff length] in *. apply Nat.succ_inj in Hl.
  set (x := Z.lxor (byte_to_Z b1) (byte_to_Z b2)) in *.
  assert (0 <= x < 2 ^ 8) as Hx by (apply lxor_range; [lia|apply byte_to_Z_range..]).
  assert (is_crc x) as Hxc by (unfold is_crc; lia).
  pose proof (is_crc_lxor d x Hd Hxc) as Hdx.
  pose proof (crc_iter_range 8 _ Hdx) as Hit.
  apply IH in H; [|done|lia|done].
  set (m := 8 * Z.of_nat (length w1)) in *.
  pose proof (crc_iter_small 8 _ _ Hdx eq_refl) as Hs.
  change (Z.of_nat 8) with 8 in Hs.
  assert (2 ^ m * 2 ^ 8 = 2 ^ (m + 8)) as Hp by (symmetry; apply Z.pow_add_r; lia).
  assert (2 ^ (m + 8) <= 2 ^ 32) by (apply Z.pow_le_mono_r; lia).
  specialize (Hs ltac:(nia)).
  replace (8 * Z.of_nat (S (length w1))) with (m + 8) by lia.
  assert (2 ^ 8 <= 2 ^ (m + 8)) by (apply Z.pow_le_mono_r; lia).
  replace d with (Z.lxor (Z.lxor d x) x) by (rewrite Z.lxor_assoc, Z.lxor_nilpotent; apply Z.lxor_0_r).
  apply lxor_range; [lia| |lia]. split; [apply Hdx|nia].
Qed.

Lemma crc_diff_zero w1 w2 :
  length w1 = length w2 -> (length w1 <= 4)%nat -> crc_diff 0 w1 w2 = 0 -> w1 = w2.
Proof.
  revert w2. induction w1 as [|b1 w1 IH]; intros [|b2 w2] Hl Hn H; try discriminate Hl; [done|].
  cbn [crc_diff length] in *. apply Nat.succ_inj in Hl. rewrite Z.lxor_0_l in H.
  set (x := Z.lxor (byte_to_Z b1) (byte_to_Z b2)) in *.
  assert (0 <= x < 2 ^ 8) as Hx by (apply lxor_range; [lia|apply byte_to_Z_range..]).
  assert (is_crc x) as Hxc by (unfold is_crc; lia).
  pose proof (crc_iter_range 8 _ Hxc) as Hit.
  pose proof (crc_diff_window _ _ _ Hl ltac:(lia) Hit H) as Hw.
  assert (2 ^ (8 * Z.of_nat (length w1)) <= 2 ^ 24) by (apply Z.pow_le_mono_r; lia).
  pose proof (crc_iter_small 8 _ _ Hxc eq_refl) as Hs.
  change (Z.of_nat 8) with 8 in Hs. specialize (Hs ltac:(lia)).
  assert (x = 0) as Hx0 by (unfold is_crc in Hit; lia).
  rewrite Hx0 in H. change (Nat.iter 8 crc_bit 0) with 0 in H.
  apply Z.lxor_eq, byte_to_Z_inj in Hx0 as ->. f_equal. apply IH; [done|lia|done].
Qed.

Lemma crc_update_app c a b : crc_update c (a ++ b) = crc_update (crc_update c a) b.
Proof. apply fold_left_app. Qed.

Lemma crc_byte_inj c1 c2 b : is_crc c1 -> is_crc c2 -> crc_byte c1 b = crc_byte c2 b -> c1 = c2.
Proof.
  intros H1 H2 H. apply Z.lxor_eq.
  assert (is_crc (Z.lxor c1 c2)) as Hc by (by apply is_crc_lxor).
  pose proof (crc_iter_small 8 (Z.lxor c1 c2) 0 Hc) as Hs. cbn [Z.mul] in Hs. apply Hs; [|done].
  unfold crc_byte in H. rewrite !crc_iter_lxor in H. rewrite crc_iter_lxor.
  rewrite Z.lxor_eq_0_iff. revert H. generalize (Nat.iter 8 crc_bit (byte_to_Z b)) as k.
  intros k E%(f_equal (fun z => Z.lxor z k)).
  by rewrite !Z.lxor_assoc, !Z.lxor_nilpotent, !Z.lxor_0_r in E.
Qed.

Lemma crc_update_inj c1 c2 data :
  is_crc c1 -> is_crc c2 -> crc_update c1 data = crc_update c2 data -> c1 = c2.
Proof.
  revert c1 c2. induction data as [|b data IH]; intros c1 c2 H1 H2 H; [done|].
  cbn in H. apply IH in H; [|by apply crc_byte_range..]. by apply crc_byte_inj in H.
Qed.

Lemma crc_burst (pre w1 w2 post : bytes) :
  length w1 = length w2 -> (length w1 <= 4)%nat -> w1 <> w2 ->
  CRC32C (pre ++ w1 ++ post) <> CRC32C (pre ++ w2 ++ post).
Proof.
  intros Hl Hn Hne H. apply Hne, crc_diff_zero; [done..|].
  unfold CRC32C in H. apply (f_equal (fun z => Z.lxor z 0xFFFFFFFF)) in H.
  rewrite !Z.lxor_assoc, !Z.lxor_nilpotent, !Z.lxor_0_r, !crc_update_app in H.
  assert (is_crc (crc_update 0xFFFFFFFF pre)) as Hp
    by (apply crc_update_range; unfold is_crc; lia).
  apply (crc_update_inj _ _ post) in H; [|apply crc_update_range; exact Hp..].
  rewrite <-(Z.lxor_nilpotent (crc_update 0xFFFFFFFF pre)), <-crc_update_diff by done.
  by rewrite H, !Z.lxor_nilpotent.
Qed.

(** ** Properties *)

(** Burst detection.  Two byte strings of one length that differ
    only inside a window of at most four bytes have different CRC32C values. *)
Theorem CRC32C_detects_burst (pre w1 w2 post : bytes) :
  length w1 = length w2 -> (length w1 <= 4)%nat -> w1 <> w2 ->
  CRC32C (pre ++ w1 ++ post) <> CRC32C (pre ++ w2 ++ post).
Proof. apply crc_burst. Qed.

Lemma CRC32C_detects_burst_witness :
  CRC32C ([x01] ++ [x02; x03] ++ [x04]) <> CRC32C ([x01] ++ [x02; x07] ++ [x04]).
Proof.
  apply (CRC32C_detects_burst [x01] [x02; x03] [x02; x07] [x04]);
    [reflexivity|cbn; lia|discriminate].
Defined.
