(* ===== verification/Keys.v ===== *)
(** * Internal keys (internal/keys)

    The internal key of the engine: user key, sequence number and kind; its
    order (user key ascending, sequence number descending) and its encoding
    [[userKey][seqno:8][kind:1]]. *)
From S2P Require Import Prelude.
From S2P Require Import Errors.
From S2P Require Import Coding.

Local Open Scope Z_scope.

Definition InternalKeyKindPut : byte := x01.
Definition InternalKeyKindDelete : byte := x02.

Record InternalKey := mkInternalKey { UserKey : bytes; Seqno : Z; Kind : byte }.

#[export] Instance InternalKey_eq_dec : EqDecision InternalKey.
Proof. solve_decision. Defined.

(** The zero value [InternalKey{}]. *)
Definition zeroKey : InternalKey := mkInternalKey [] 0 x00.

Definition isValidInternalKeyKind (kind : byte) : bool :=
  bool_decide (kind = InternalKeyKindPut) || bool_decide (kind = InternalKeyKindDelete).

(** Go's [bytes.Compare]: lexicographic, a proper prefix is smaller. *)
Fixpoint bytes_Compare (a b : bytes) : Z :=
  match a, b with
  | [], [] => 0
  | [], _ :: _ => -1
  | _ :: _, [] => 1
  | x :: a', y :: b' =>
      if byte_to_Z x <? byte_to_Z y then -1
      else if byte_to_Z y <? byte_to_Z x then 1
      else bytes_Compare a' b'
  end.

Definition bytes_Equal (a b : bytes) : bool := bool_decide (a = b).

Definition Compare (k other : InternalKey) : Z :=
  let cmp := bytes_Compare (UserKey k) (UserKey other) in
  if negb (cmp =? 0) then cmp
  else if Seqno other <? Seqno k then -1
  else if Seqno k <? Seqno other then 1
  else 0.

(** The buffer is allocated zeroed and filled field by field; every store is
    bounds-checked. *)
Definition Encode (k : InternalKey) : res bytes :=
  let keySize := length (UserKey k) in
  let totalSize := (keySize + 8 + 1)%nat in
  let buffer := replicate totalSize x00 in
  buffer ← copy_at 0 (UserKey k) buffer;
  buffer ← PutUint64 buffer keySize (Seqno k);
  store (keySize + 8) (Kind k) buffer.

Definition DecodeInternalKey (data : bytes) : res InternalKey :=
  if (length data <? 9)%nat then throw keys.ErrCorruptInternalKey
  else
    let n := length data in
    kind ← index (n - 1) data;
    if negb (isValidInternalKeyKind kind) then throw keys.ErrCorruptInternalKey
    else
      userKey ← slice 0 (n - 9) data;
      field ← slice (n - 9) (n - 1) data;
      seqno ← Uint64 field;
      Ok (mkInternalKey userKey seqno kind).

(** ** The order *)

Lemma bytes_Compare_refl a : bytes_Compare a a = 0.
Proof. induction a as [|x a IH]; cbn; [done|]. by rewrite Z.ltb_irrefl. Qed.

Lemma bytes_Compare_eq a b : bytes_Compare a b = 0 <-> a = b.
Proof.
  split; [|intros ->; apply bytes_Compare_refl].
  revert b. induction a as [|x a IH]; intros [|y b]; cbn; try done.
  destruct (Z.ltb_spec (byte_to_Z x) (byte_to_Z y)); [done|].
  destruct (Z.ltb_spec (byte_to_Z y) (byte_to_Z x)); [done|].
  intros E. f_equal; [apply byte_to_Z_inj; lia|auto].
Qed.

Lemma bytes_Compare_antisym a b : bytes_Compare b a = - bytes_Compare a b.
Proof.
  revert b. induction a as [|x a IH]; intros [|y b]; cbn; try done.
  destruct (Z.ltb_spec (byte_to_Z x) (byte_to_Z y)),
    (Z.ltb_spec (byte_to_Z y) (byte_to_Z x)); try lia; auto.
Qed.

Lemma bytes_Compare_trans a b c :
  bytes_Compare a b < 0 -> bytes_Compare b c < 0 -> bytes_Compare a c < 0.
Proof.
  revert b c. induction a as [|x a IH]; intros [|y b] [|z c]; cbn; try lia.
  destruct (Z.ltb_spec (byte_to_Z x) (byte_to_Z y)),
    (Z.ltb_spec (byte_to_Z y) (byte_to_Z z)),
    (Z.ltb_spec (byte_to_Z x) (byte_to_Z z)),
    (Z.ltb_spec (byte_to_Z y) (byte_to_Z x)),
    (Z.ltb_spec (byte_to_Z z) (byte_to_Z y)),
    (Z.ltb_spec (byte_to_Z z) (byte_to_Z x)); try lia. apply IH.
Qed.

Lemma bytes_Compare_range a b : -1 <= bytes_Compare a b <= 1.
Proof.
  revert b. induction a as [|x a IH]; intros [|y b]; cbn; try lia.
  destruct (_ <? _); [lia|]. destruct (_ <? _); [lia|auto].
Qed.

(** [klt a b] is [a.Compare(b) < 0], the order every sorted structure of the
    engine uses; it is strict and total up to the kind. *)
Definition klt (a b : InternalKey) : Prop := Compare a b < 0.
Definition kle (a b : InternalKey) : Prop := Compare a b <= 0.

#[export] Instance klt_dec : RelDecision klt.
Proof. intros a b. unfold klt. apply _. Defined.
#[export] Instance kle_dec : RelDecision kle.
Proof. intros a b. unfold kle. apply _. Defined.

(** The part of a key the order looks at. *)
Definition key_pos (k : InternalKey) : bytes * Z := (UserKey k, Seqno k).

Lemma Compare_eq a b : Compare a b = 0 <-> key_pos a = key_pos b.
Proof.
  unfold Compare, key_pos. pose proof (bytes_Compare_eq (UserKey a) (UserKey b)) as He.
  destruct (bytes_Compare (UserKey a) (UserKey b) =? 0) eqn:E; cbn; zb.
  - apply He in E as Eu. rewrite Eu.
    destruct (Z.ltb_spec (Seqno b) (Seqno a)), (Z.ltb_spec (Seqno a) (Seqno b));
      split; intros ?; simplify_eq; try lia. f_equal. lia.
  - split; [done|]. intros [= Eu Es]. by apply He in Eu.
Qed.

Lemma Compare_antisym a b : Compare b a = - Compare a b.
Proof.
  unfold Compare. rewrite (bytes_Compare_antisym (UserKey a)).
  generalize (bytes_Compare (UserKey a) (UserKey b)) as c. intros c.
  destruct (Z.eqb_spec c 0), (Z.eqb_spec (- c) 0); cbn; try lia.
  destruct (Z.ltb_spec (Seqno b) (Seqno a)), (Z.ltb_spec (Seqno a) (Seqno b)); lia.
Qed.

Lemma klt_spec a b :
  klt a b <-> bytes_Compare (UserKey a) (UserKey b) < 0 \/
             (UserKey a = UserKey b /\ Seqno b < Seqno a).
Proof.
  unfold klt, Compare. rewrite <-bytes_Compare_eq.
  generalize (bytes_Compare (UserKey a) (UserKey b)) as c. intros c.
  destruct (Z.eqb_spec c 0) as [->|]; cbn; [|lia].
  destruct (Z.ltb_spec (Seqno b) (Seqno a)), (Z.ltb_spec (Seqno a) (Seqno b)); lia.
Qed.

#[export] Instance klt_trans : Transitive klt.
Proof.
  intros a b c. rewrite !klt_spec. intros [H1|[E1 H1]] [H2|[E2 H2]].
  - left. by eapply bytes_Compare_trans.
  - left. by rewrite <-E2.
  - left. by rewrite E1.
  - right. split; [congruence|lia].
Qed.

#[export] Instance klt_irrefl : Irreflexive klt.
Proof. intros a. unfold complement, klt. rewrite (proj2 (Compare_eq a a)); done. Qed.

Lemma kle_not_klt a b : kle a b <-> ~ klt b a.
Proof. unfold kle, klt. rewrite (Compare_antisym a b). lia. Qed.

Lemma klt_kle a b : klt a b -> kle a b.
Proof. unfold klt, kle. lia. Qed.

Lemma kle_klt_trans a b c : kle a b -> klt b c -> klt a c.
Proof.
  rewrite kle_not_klt. intros Hab Hbc. destruct (decide (klt a b)) as [|Hn]; [by etrans|].
  assert (Compare a b = 0) as E%Compare_eq by (unfold klt in *; rewrite (Compare_antisym a b) in *; lia).
  unfold key_pos in E. simplify_eq. rewrite klt_spec in *. naive_solver congruence.
Qed.

Lemma klt_kle_trans a b c : klt a b -> kle b c -> klt a c.
Proof.
  rewrite kle_not_klt. intros Hab Hbc. destruct (decide (klt b c)) as [|Hn]; [by etrans|].
  assert (Compare b c = 0) as E%Compare_eq by (unfold klt in *; rewrite (Compare_antisym b c) in *; lia).
  unfold key_pos in E. simplify_eq. rewrite klt_spec in *. naive_solver congruence.
Qed.

(** Keys below the first position of a user key: those of smaller user keys. *)
Lemma klt_first_position k t kd :
  is_u64 (Seqno k) ->
  klt k (mkInternalKey t (2 ^ 64 - 1) kd) <-> bytes_Compare (UserKey k) t < 0.
Proof.
  intros [_ H]. rewrite klt_spec. cbn [UserKey Seqno]. split; [|by left].
  intros [?|[_ ?]]; [done|lia].
Qed.

Lemma kle_UserKey a b t : kle a b -> bytes_Compare (UserKey b) t < 0 -> bytes_Compare (UserKey a) t < 0.
Proof.
  intros H%kle_not_klt Hb. rewrite klt_spec in H.
  destruct (Z.lt_trichotomy (bytes_Compare (UserKey b) (UserKey a)) 0) as [?|[E|Hab]].
  - destruct H. by left.
  - apply bytes_Compare_eq in E. by rewrite <-E.
  - rewrite (bytes_Compare_antisym (UserKey a)) in Hab. eapply bytes_Compare_trans; [|done]. lia.
Qed.

(** ** The encoding *)

(** The wire format, as a specification. *)
Definition key_wire (k : InternalKey) : bytes := UserKey k ++ be_bytes 8 (Seqno k) ++ [Kind k].

Definition wf_key (k : InternalKey) : Prop :=
  is_u64 (Seqno k) /\ isValidInternalKeyKind (Kind k) = true.

#[export] Instance wf_key_dec k : Decision (wf_key k).
Proof. unfold wf_key. apply _. Defined.

Lemma length_key_wire k : length (key_wire k) = (length (UserKey k) + 9)%nat.
Proof. unfold key_wire. rewrite !length_app, length_be_bytes. cbn. lia. Qed.

Lemma store_fill {E} (pre rst : bytes) i b :
  i = length pre -> (0 < length rst)%nat ->
  store i b (pre ++ rst) = @Ok E _ ((pre ++ [b]) ++ drop 1 rst).
Proof.
  intros -> H. unfold store. rewrite (proj2 (Nat.ltb_lt _ _)) by len.
  destruct rst as [|x rst]; [cbn in H; lia|].
  rewrite insert_app_r_alt, Nat.sub_diag by lia. cbn. by rewrite <-app_assoc.
Qed.

Lemma put_be_fill n pre rst off v :
  off = length pre -> (n <= length rst)%nat ->
  put_be n (pre ++ rst) off v = Ok ((pre ++ be_bytes n v) ++ drop n rst).
Proof.
  intros -> H. unfold put_be. rewrite (proj2 (Nat.leb_le _ _)) by len.
  rewrite overwrite_fill by (rewrite ?length_be_bytes; done). by rewrite length_be_bytes.
Qed.

Lemma copy_at_fill {E} (pre src rst : bytes) off :
  off = length pre -> (length src <= length rst)%nat ->
  copy_at off src (pre ++ rst) = @Ok E _ ((pre ++ src) ++ drop (length src) rst).
Proof.
  intros -> H. rewrite copy_at_fits by len. by rewrite overwrite_fill.
Qed.

Lemma Encode_wire k : Encode k = Ok (key_wire k).
Proof.
  unfold Encode. set (n := length (UserKey k)).
  rewrite <-(app_nil_l (replicate _ x00)).
  rewrite copy_at_fill by (rewrite ?length_replicate; cbn; lia). cbn [app mbind result_bind].
  rewrite drop_zeros. unfold PutUint64.
  rewrite put_be_fill by (rewrite ?length_replicate; lia). cbn [mbind result_bind].
  rewrite drop_zeros. rewrite store_fill
    by (rewrite ?length_app, ?length_be_bytes, ?length_replicate; lia).
  rewrite drop_zeros. replace (_ - 1)%nat with 0%nat by lia.
  cbn [replicate]. by rewrite app_nil_r, <-app_assoc.
Qed.

Lemma DecodeInternalKey_wire k : wf_key k -> DecodeInternalKey (key_wire k) = Ok k.
Proof.
  intros [Hs Hk]. unfold DecodeInternalKey. rewrite length_key_wire.
  rewrite (proj2 (Nat.ltb_ge _ _)) by lia.
  replace (length (UserKey k) + 9 - 1)%nat with (length (UserKey k) + 8)%nat by lia.
  replace (length (UserKey k) + 9 - 9)%nat with (length (UserKey k)) by lia.
  assert (index (length (UserKey k) + 8) (key_wire k) = @Ok error _ (Kind k)) as ->.
  { unfold index, key_wire. rewrite app_assoc, lookup_app_r by (rewrite length_app, length_be_bytes; lia).
    rewrite length_app, length_be_bytes, Nat.sub_diag. done. }
  cbn [mbind result_bind]. rewrite Hk. cbn [negb].
  assert (slice 0 (length (UserKey k)) (key_wire k) = @Ok error _ (UserKey k)) as ->.
  { unfold key_wire. apply (slice_app []); cbn; lia. }
  cbn [mbind result_bind]. unfold key_wire.
  rewrite (slice_app (UserKey k) (be_bytes 8 (Seqno k)) [Kind k])
    by (rewrite ?length_be_bytes; lia).
  cbn [mbind result_bind]. unfold Uint64. rewrite get_be_exact by apply length_be_bytes.
  cbn. rewrite be64_value by done. by destruct k.
Qed.

Lemma DecodeInternalKey_sound data k :
  DecodeInternalKey data = Ok k -> wf_key k /\ data = key_wire k.
Proof.
  unfold DecodeInternalKey. intros H. simplify_res. zb.
  unfold index in E0. destruct (data !! _) as [kd|] eqn:Hi; [|done]. simplify_eq.
  apply slice_Ok in E2 as [_ ->]. apply slice_Ok in E3 as [_ ->].
  unfold Uint64 in E4. replace (length data - 1 - (length data - 9))%nat with 8%nat in E4 by lia.
  rewrite get_be_exact in E4 by (rewrite length_take, length_drop; lia). simplify_eq.
  assert (length (take 8 (drop (length data - 9) data)) = 8%nat) as Hl
    by (rewrite length_take, length_drop; lia).
  split; [split; cbn; [by apply be_value_u64|by apply negb_false_iff in E1]|].
  unfold key_wire. cbn. rewrite be_bytes_be_value by done.
  rewrite Nat.sub_0_r, <-(take_drop (length data - 9) data) at 1. f_equal.
  rewrite <-(take_drop 8 (drop (length data - 9) data)) at 1. f_equal.
  rewrite drop_drop. replace (length data - 9 + 8)%nat with (length data - 1)%nat by lia.
  rewrite (drop_S _ _ _ Hi). f_equal. apply drop_ge. lia.
Qed.

Lemma DecodeInternalKey_total data :
  DecodeInternalKey data = throw keys.ErrCorruptInternalKey \/ is_Ok (DecodeInternalKey data).
Proof.
  unfold DecodeInternalKey. destruct (_ <? _)%nat eqn:Hl; [by left|]. zb.
  unfold index. destruct (lookup_lt_is_Some_2 data (length data - 1)) as [kd ->]; [lia|].
  cbn [mbind result_bind]. destruct (isValidInternalKeyKind kd); [|by left].
  right. cbn [negb]. rewrite !slice_in by lia. cbn [mbind result_bind]. unfold Uint64.
  rewrite get_be_exact by (rewrite length_take, length_drop; lia). by eexists.
Qed.

Lemma key_wire_inj k1 k2 : wf_key k1 -> wf_key k2 -> key_wire k1 = key_wire k2 -> k1 = k2.
Proof.
  intros H1%DecodeInternalKey_wire H2%DecodeInternalKey_wire E. rewrite E in H1. congruence.
Qed.

#[export] Hint Rewrite length_key_wire : beach.
#[export] Hint Resolve klt_kle : beach.

(** ** Properties *)

(** C38: [InternalKey.Compare] is the strict weak order every sorted
    structure relies on: irreflexive, transitive, total up to (user key, seqno),
    antisymmetric in its two arguments; user keys ascend bytewise and, within
    one user key, larger sequence numbers come first. *)
Theorem internal_key_order (a b c : InternalKey) :
  Compare a a = 0 /\ Compare b a = - Compare a b /\
  (Compare a b < 0 -> Compare b c < 0 -> Compare a c < 0) /\
  (Compare a b = 0 <-> UserKey a = UserKey b /\ Seqno a = Seqno b) /\
  (UserKey a = UserKey b -> (Compare a b < 0 <-> Seqno b < Seqno a)) /\
  (UserKey a <> UserKey b -> Compare a b = bytes_Compare (UserKey a) (UserKey b)).
Proof.
  split_and!.
  - by apply Compare_eq.
  - apply Compare_antisym.
  - fold (klt a b) (klt b c) (klt a c). intros; by etrans.
  - rewrite Compare_eq. unfold key_pos. split; [intros [= ? ?]; auto|by intros [-> ->]].
  - intros E. fold (klt a b). rewrite klt_spec, E, bytes_Compare_refl.
    split; [intros [?|[_ ?]]; lia|auto].
  - intros Hne. unfold Compare. rewrite <-bytes_Compare_eq in Hne.
    by rewrite (proj2 (Z.eqb_neq _ _)).
Qed.

(** The encoding of internal keys is exact.  Every byte string
    either decodes to a key with a 64-bit sequence number and a known kind whose
    encoding is that very string, or is refused with [ErrCorruptInternalKey], and
    then it is the encoding of no such key. *)
Theorem internal_key_codec (data : bytes) :
  (exists k, DecodeInternalKey data = Ok k /\ wf_key k /\ Encode k = Ok data) \/
  (DecodeInternalKey data = throw keys.ErrCorruptInternalKey /\
   forall k, wf_key k -> Encode k <> Ok data).
Proof.
  destruct (DecodeInternalKey_total data) as [H|[k H]].
  - right. split; [done|]. intros k Hk E. rewrite Encode_wire in E. simplify_eq.
    by rewrite DecodeInternalKey_wire in H.
  - left. exists k. apply DecodeInternalKey_sound in H as Hs. destruct Hs as [Hk ->].
    by rewrite Encode_wire.
Qed.
