(* ===== verification/Record.v ===== *)
(** * Record framing (internal/record)

    The physical envelope shared by the WAL and the MANIFEST:
    [magic(8) version(1) type(1) length(4) checksum(4) payload]. *)
From S2P Require Import Prelude.
From S2P Require Import Errors.
From S2P Require Import Coding.
From S2P Require Import Checksum.
From S2P Require Import Keys.

Local Open Scope Z_scope.

Definition TypeFull : byte := x01.
Definition TypeFirst : byte := x02.
Definition TypeMiddle : byte := x03.
Definition TypeLast : byte := x04.

Definition Version : byte := x01.
Definition DefaultMaxPayloadSize : Z := 64 * 2 ^ 20.

Definition magicSize : nat := 8.
Definition versionSize : nat := 1.
Definition typeSize : nat := 1.
Definition lengthSize : nat := 4.
Definition checksumSize : nat := 4.
Definition magicOffset : nat := 0.
Definition versionOffset : nat := magicOffset + magicSize.
Definition typeOffset : nat := versionOffset + versionSize.
Definition lengthOffset : nat := typeOffset + typeSize.
Definition checksumOffset : nat := lengthOffset + lengthSize.
Definition HeaderSize : nat := checksumOffset + checksumSize.

(** [Magic] is an array of eight bytes: its length is part of its Go type. *)
Record Format := mkFormat {
  Magic : bytes;
  MaxPayloadSize : Z;
  Magic_length : length Magic = magicSize
}.

(** [var magicBytes [8]byte; copy(magicBytes[:], magic)]. *)
Definition magic_array (magic : string) : bytes :=
  overwrite 0 (take magicSize (bytes_of_string magic)) (replicate magicSize x00).

Lemma magic_array_length magic : length (magic_array magic) = magicSize.
Proof.
  unfold magic_array, overwrite. rewrite !length_app, length_drop, !length_take,
    length_replicate. unfold magicSize. lia.
Qed.

Definition NewFormat (magic : string) (maxPayloadSize : Z) : res Format :=
  if negb (String.length magic =? magicSize)%nat
  then throw (ErrorText "beachdb/record: magic must be exactly 8 bytes")
  else
    let maxPayloadSize :=
      if maxPayloadSize =? 0 then DefaultMaxPayloadSize else maxPayloadSize in
    Ok (mkFormat (magic_array magic) maxPayloadSize (magic_array_length magic)).

Record Header := mkHeader { Type_ : byte; Length : Z; Checksum : Z }.

Definition Encode (f : Format) (payload : bytes) : res bytes :=
  let payloadLen := u32 (zlen payload) in
  if MaxPayloadSize f <? payloadLen then throw record.ErrRecordTooLarge
  else
    let totalSize := (HeaderSize + length payload)%nat in
    let buffer := replicate totalSize x00 in
    let crc := CRC32C payload in
    buffer ← copy_at magicOffset (Magic f) buffer;
    buffer ← store versionOffset Version buffer;
    buffer ← store typeOffset TypeFull buffer;
    buffer ← PutUint32 buffer lengthOffset payloadLen;
    buffer ← PutUint32 buffer checksumOffset crc;
    copy_at HeaderSize payload buffer.

Definition DecodeHeader (f : Format) (data : bytes) : res Header :=
  if (length data <? HeaderSize)%nat then throw record.ErrTruncated
  else if (HeaderSize <? length data)%nat then throw record.ErrBadHeader
  else
    magic ← slice magicOffset (magicOffset + magicSize) data;
    if negb (bool_decide (magic = Magic f)) then throw record.ErrBadMagic
    else
      ver ← index versionOffset data;
      if negb (bool_decide (ver = Version)) then throw record.ErrUnsupportedVersion
      else
        recordType ← index typeOffset data;
        if negb (bool_decide (recordType = TypeFull))
        then throw record.ErrUnsupportedRecordType
        else
          lenField ← slice lengthOffset (lengthOffset + lengthSize) data;
          payloadLen ← Uint32 lenField;
          if MaxPayloadSize f <? payloadLen then throw record.ErrRecordTooLarge
          else
            crcField ← slice checksumOffset (checksumOffset + checksumSize) data;
            crc ← Uint32 crcField;
            Ok (mkHeader recordType payloadLen crc).

Definition ValidatePayload (payload : bytes) (expectedChecksum : Z) : res unit :=
  let gotChecksum := CRC32C payload in
  if negb (gotChecksum =? expectedChecksum) then throw record.ErrChecksum else Ok ().

(** ** The wire format *)
Definition header_wire (f : Format) (len crc : Z) : bytes :=
  Magic f ++ [Version] ++ [TypeFull] ++ be_bytes 4 len ++ be_bytes 4 crc.

(** What [Encode] writes, the declared length being [len(payload)] modulo 2^32. *)
Definition record_wire (f : Format) (payload : bytes) : bytes :=
  header_wire f (u32 (zlen payload)) (CRC32C payload) ++ payload.

Lemma length_header_wire f len crc : length (header_wire f len crc) = HeaderSize.
Proof.
  unfold header_wire. rewrite !length_app, !length_be_bytes, Magic_length. done.
Qed.

Lemma length_record_wire f payload :
  length (record_wire f payload) = (HeaderSize + length payload)%nat.
Proof. unfold record_wire. by rewrite length_app, length_header_wire. Qed.

#[export] Hint Rewrite length_header_wire length_record_wire : beach.

Ltac sizes :=
  rewrite ?length_app, ?length_be_bytes, ?length_replicate, ?Magic_length;
  unfold HeaderSize, checksumOffset, lengthOffset, typeOffset, versionOffset, magicOffset,
    magicSize, versionSize, typeSize, lengthSize, checksumSize; cbn [length]; lia.

Ltac fill_step :=
  first [ rewrite copy_at_fill | rewrite store_fill
        | unfold PutUint32; rewrite put_be_fill | unfold PutUint64; rewrite put_be_fill ];
  [ cbn [mbind result_bind]; rewrite drop_zeros
  | sizes .. ].

Lemma Encode_fits f payload :
  u32 (zlen payload) <= MaxPayloadSize f -> Encode f payload = Ok (record_wire f payload).
Proof.
  intros H. unfold Encode. rewrite (proj2 (Z.ltb_ge _ _)) by done.
  rewrite <-(app_nil_l (replicate _ x00)).
  fill_step. cbn [app]. fill_step. fill_step. fill_step. fill_step.
  rewrite copy_at_fill by sizes.
  rewrite drop_zeros.
  match goal with |- context [replicate ?n _] => replace n with 0%nat by sizes end.
  unfold record_wire, header_wire. by rewrite app_nil_r, <-!app_assoc.
Qed.

Lemma Encode_too_large f payload :
  MaxPayloadSize f < u32 (zlen payload) -> Encode f payload = throw record.ErrRecordTooLarge.
Proof. intros H. unfold Encode. by rewrite (proj2 (Z.ltb_lt _ _)). Qed.

(** ** Decoding a header *)

(** [DecodeHeader] on a header split into its five fields: the checks in the
    order the code makes them. *)
Lemma DecodeHeader_fields f m v t l c :
  length m = 8%nat -> length l = 4%nat -> length c = 4%nat ->
  DecodeHeader f (m ++ [v] ++ [t] ++ l ++ c) =
    if decide (m = Magic f) then
      if decide (v = Version) then
        if decide (t = TypeFull) then
          if MaxPayloadSize f <? be_value l then throw record.ErrRecordTooLarge
          else Ok (mkHeader t (be_value l) (be_value c))
        else throw record.ErrUnsupportedRecordType
      else throw record.ErrUnsupportedVersion
    else throw record.ErrBadMagic.
Proof.
  intros Hm Hl Hc. unfold DecodeHeader.
  set (data := m ++ [v] ++ [t] ++ l ++ c).
  assert (length data = HeaderSize) as -> by
    (unfold data; rewrite !length_app, Hm, Hl, Hc; done).
  rewrite Nat.ltb_irrefl.
  assert (slice magicOffset (magicOffset + magicSize) data = @Ok error _ m) as ->
    by (apply (slice_app []); [done|cbn; by rewrite Hm]).
  assert (index versionOffset data = @Ok error _ v) as ->
    by (unfold index, data; rewrite lookup_app_r by (rewrite Hm; apply Nat.leb_le; done); by rewrite Hm).
  assert (index typeOffset data = @Ok error _ t) as ->
    by (unfold index, data; rewrite lookup_app_r by (rewrite Hm; apply Nat.leb_le; done); by rewrite Hm).
  assert (slice lengthOffset (lengthOffset + lengthSize) data = @Ok error _ l) as ->
    by (change data with (m ++ [v; t] ++ l ++ c); rewrite app_assoc;
        apply slice_app; rewrite length_app, Hm, ?Hl; done).
  assert (slice checksumOffset (checksumOffset + checksumSize) data = @Ok error _ c) as ->
    by (replace data with ((m ++ [v; t] ++ l) ++ c ++ [])
          by (unfold data; by rewrite app_nil_r, <-!app_assoc);
        apply slice_app; rewrite !length_app, Hm, Hl, ?Hc; done).
  cbn [mbind result_bind]. unfold Uint32.
  rewrite !get_be_exact by done. cbn [mbind result_bind].
  repeat case_decide; repeat case_bool_decide; done.
Qed.

Lemma split_header (data : bytes) :
  length data = HeaderSize ->
  exists m v t l c, data = m ++ [v] ++ [t] ++ l ++ c /\
    length m = 8%nat /\ length l = 4%nat /\ length c = 4%nat.
Proof.
  intros H. change HeaderSize with 18%nat in H.
  exists (take 8 data). pose proof (take_drop 8 data) as E.
  remember (drop 8 data) as d eqn:Hd.
  assert (length d = 10%nat) as Hld by (subst d; rewrite length_drop; lia).
  destruct d as [|v [|t d]]; cbn in Hld; [lia..|].
  exists v, t, (take 4 d), (drop 4 d). rewrite take_drop, length_take, length_take, length_drop.
  split; [by rewrite <-E at 1|lia].
Qed.

Lemma DecodeHeader_wire f len crc :
  is_u32 len -> is_u32 crc -> len <= MaxPayloadSize f ->
  DecodeHeader f (header_wire f len crc) = Ok (mkHeader TypeFull len crc).
Proof.
  intros Hl Hc Hle. unfold header_wire.
  rewrite DecodeHeader_fields by (rewrite ?length_be_bytes, ?Magic_length; done).
  rewrite !decide_True by done. rewrite !be32_value by done.
  by rewrite (proj2 (Z.ltb_ge _ _)).
Qed.

(** A decoded header determines the eighteen bytes it came from. *)
Lemma DecodeHeader_sound f data h :
  DecodeHeader f data = Ok h ->
  data = header_wire f (Length h) (Checksum h) /\ Type_ h = TypeFull /\
  is_u32 (Length h) /\ is_u32 (Checksum h) /\ Length h <= MaxPayloadSize f.
Proof.
  intros H. assert (length data = HeaderSize) as Hlen.
  { unfold DecodeHeader in H. simplify_res. zb. lia. }
  apply split_header in Hlen as (m & v & t & l & c & -> & Hm & Hl & Hc).
  rewrite DecodeHeader_fields in H by done. repeat case_decide; simplify_res. zb. cbn.
  unfold header_wire. rewrite !be_bytes_be_value by done.
  split_and!; auto using be_value_u32.
Qed.

(** Every outcome of [DecodeHeader] is a header or one of six errors. *)
Lemma DecodeHeader_total f data :
  is_Ok (DecodeHeader f data) \/
  exists e : record.error, DecodeHeader f data = throw e /\
    e ∈ [record.ErrTruncated; record.ErrBadHeader; record.ErrBadMagic;
         record.ErrUnsupportedVersion; record.ErrUnsupportedRecordType;
         record.ErrRecordTooLarge].
Proof.
  destruct (decide (length data = HeaderSize)) as [Hlen|Hlen].
  - apply split_header in Hlen as (m & v & t & l & c & -> & Hm & Hl & Hc).
    rewrite DecodeHeader_fields by done.
    repeat (case_decide || case_match); [right|left; by eexists|right..];
      eexists; (split; [reflexivity|]); set_solver.
  - right. unfold DecodeHeader.
    destruct (Nat.ltb_spec (length data) HeaderSize);
      [|rewrite (proj2 (Nat.ltb_lt _ _)) by lia];
      eexists; (split; [reflexivity|]); set_solver.
Qed.

Lemma ValidatePayload_ok payload crc :
  ValidatePayload payload crc = Ok () <-> CRC32C payload = crc.
Proof. unfold ValidatePayload. destruct (Z.eqb_spec (CRC32C payload) crc); naive_solver. Qed.

Lemma ValidatePayload_bad payload crc :
  CRC32C payload <> crc -> ValidatePayload payload crc = throw record.ErrChecksum.
Proof. intros H. unfold ValidatePayload. by rewrite (proj2 (Z.eqb_neq _ _)). Qed.

(** ** Properties *)

(** Framing round trip.  A payload within the format's limit is
    encoded as an 18-byte header followed by the payload itself; decoding that
    header gives back type FULL, the payload's length and its checksum, and the
    payload validates against it. *)
Theorem record_roundtrip (f : Format) (payload : bytes) :
  zlen payload <= MaxPayloadSize f -> is_u32 (zlen payload) ->
  exists header, Encode f payload = Ok (header ++ payload) /\ length header = HeaderSize /\
    DecodeHeader f header = Ok (mkHeader TypeFull (zlen payload) (CRC32C payload)) /\
    ValidatePayload payload (CRC32C payload) = Ok ().
Proof.
  intros Hmax Hu. exists (header_wire f (zlen payload) (CRC32C payload)).
  rewrite Encode_fits by (by rewrite u32_id). unfold record_wire. rewrite u32_id by done.
  split_and!; [done|apply length_header_wire| |by apply ValidatePayload_ok].
  apply DecodeHeader_wire; auto with beach.
Qed.

Definition small_format : Format :=
  mkFormat (magic_array "BEACHWAL") 16 (magic_array_length "BEACHWAL").

Lemma record_roundtrip_witness :
  zlen [x41; x42] <= 16 /\
  exists header, Encode small_format [x41; x42] = Ok (header ++ [x41; x42]) /\
    length header = HeaderSize /\
    DecodeHeader small_format header = Ok (mkHeader TypeFull 2 (CRC32C [x41; x42])) /\
    ValidatePayload [x41; x42] (CRC32C [x41; x42]) = Ok ().
Proof.
  split; [vm_compute; discriminate|].
  apply (record_roundtrip small_format [x41; x42]); [vm_compute; discriminate|].
  unfold is_u32, zlen. cbn. lia.
Defined.

(** [DecodeHeader] is total and exact: it accepts precisely the
    18-byte strings that are the header of some length within the limit and
    some 32-bit checksum, and answers everything else with one of six errors. *)
Theorem record_header_exact (f : Format) (data : bytes) :
  (exists h, DecodeHeader f data = Ok h /\ data = header_wire f (Length h) (Checksum h) /\
     Type_ h = TypeFull /\ is_u32 (Length h) /\ is_u32 (Checksum h) /\ Length h <= MaxPayloadSize f) \/
  (exists e : record.error, DecodeHeader f data = throw e /\
     e ∈ [record.ErrTruncated; record.ErrBadHeader; record.ErrBadMagic;
          record.ErrUnsupportedVersion; record.ErrUnsupportedRecordType; record.ErrRecordTooLarge] /\
     forall len crc, is_u32 len -> is_u32 crc -> len <= MaxPayloadSize f -> data <> header_wire f len crc).
Proof.
  destruct (DecodeHeader_total f data) as [[h H]|(e & H & He)].
  - left. exists h. split; [done|]. by apply DecodeHeader_sound.
  - right. exists e. split_and!; [done..|]. intros len crc Hl Hc Hle ->.
    by rewrite DecodeHeader_wire in H.
Qed.

(** C40: the size check looks at the length after it was cut to 32
    bits.  A payload of 2^32 bytes or more is accepted whenever its length
    modulo 2^32 is within the limit, and the header then announces that
    remainder instead of the payload's length. *)
Theorem record_length_wraps (f : Format) (payload : bytes) :
  2 ^ 32 <= zlen payload -> zlen payload mod 2 ^ 32 <= MaxPayloadSize f ->
  exists header, Encode f payload = Ok (header ++ payload) /\
    DecodeHeader f header = Ok (mkHeader TypeFull (zlen payload mod 2 ^ 32) (CRC32C payload)) /\
    zlen payload mod 2 ^ 32 <> zlen payload.
Proof.
  intros Hbig Hmod. exists (header_wire f (zlen payload mod 2 ^ 32) (CRC32C payload)).
  rewrite Encode_fits by done. unfold record_wire. split; [done|].
  pose proof (u32_range (zlen payload)) as Hr.
  split; [apply DecodeHeader_wire; auto with beach|]. unfold is_u32, u32 in *. lia.
Qed.

Lemma zlen_replicate {A} (n : Z) (x : A) : 0 <= n -> zlen (replicate (Z.to_nat n) x) = n.
Proof. intros H. unfold zlen. rewrite length_replicate. lia. Qed.

Lemma record_length_wraps_witness :
  exists header, Encode small_format (replicate (Z.to_nat (2 ^ 32 + 7)) x00) =
      Ok (header ++ replicate (Z.to_nat (2 ^ 32 + 7)) x00) /\
    DecodeHeader small_format header =
      Ok (mkHeader TypeFull (zlen (replicate (Z.to_nat (2 ^ 32 + 7)) x00) mod 2 ^ 32)
            (CRC32C (replicate (Z.to_nat (2 ^ 32 + 7)) x00))) /\
    zlen (replicate (Z.to_nat (2 ^ 32 + 7)) x00) mod 2 ^ 32 <>
      zlen (replicate (Z.to_nat (2 ^ 32 + 7)) x00).
Proof.
  apply (record_length_wraps small_format (replicate (Z.to_nat (2 ^ 32 + 7)) x00)).
  - rewrite zlen_replicate by lia. lia.
  - rewrite zlen_replicate by lia. vm_compute. discriminate.
Defined.
