(* ===== verification/GoIO.v ===== *)
(** * Files and buffered I/O

    The part of Go's [os], [bufio] and [io] that the WAL, the MANIFEST and the
    SSTable code calls.  A file is its content as the operating system sees
    it, together with the length of the prefix known to be on stable storage.
    Every system call consumes one entry of [f_faults], so a failure can be
    placed at any call; an exhausted list means success. *)
From S2P Require Import Prelude.
From S2P Require Import Errors.

(** [Fail n]: the call fails; a write has stored [n] bytes before failing. *)
Inductive fault := NoFault | Fail (n : nat).

#[export] Instance fault_eq_dec : EqDecision fault.
Proof. solve_decision. Defined.

Record File := mkFile { f_content : bytes; f_synced : nat; f_faults : list fault }.

Definition next_fault (f : File) : fault * File :=
  match f_faults f with
  | [] => (NoFault, f)
  | x :: xs => (x, mkFile (f_content f) (f_synced f) xs)
  end.

(** [f.Write(p)] on a file opened with [O_APPEND]: bytes written and error. *)
Definition file_Write (p : bytes) (f : File) : File * nat * option error :=
  let '(x, f) := next_fault f in
  match x with
  | NoFault => (mkFile (f_content f ++ p) (f_synced f) (f_faults f), length p, None)
  | Fail n =>
      let n := Nat.min n (length p) in
      (mkFile (f_content f ++ take n p) (f_synced f) (f_faults f), n, Some (OsError "write"))
  end.

Definition file_Sync (f : File) : File * option error :=
  let '(x, f) := next_fault f in
  match x with
  | NoFault => (mkFile (f_content f) (length (f_content f)) (f_faults f), None)
  | Fail _ => (f, Some (OsError "fsync"))
  end.

Definition file_Close (f : File) : File * option error :=
  let '(x, f) := next_fault f in
  match x with NoFault => (f, None) | Fail _ => (f, Some (OsError "close")) end.

(** [os.Truncate(path, n)] for [n] at most the file's size. *)
Definition file_Truncate (n : nat) (f : File) : File * option error :=
  let '(x, f) := next_fault f in
  match x with
  | NoFault => (mkFile (take n (f_content f)) (Nat.min n (f_synced f)) (f_faults f), None)
  | Fail _ => (f, Some (OsError "truncate"))
  end.

(** What a crash may leave of an append-only file: a prefix of what was
    written that contains everything synced. *)
Definition crash_image (f : File) (img : bytes) : Prop :=
  img `prefix_of` f_content f /\ (f_synced f <= length img)%nat.

(** A file no call on which fails. *)
Definition faultless (f : File) : Prop := Forall (fun x => x = NoFault) (f_faults f).

(** ** bufio.Writer *)
Definition bufio_size : nat := 4096.

Record BufWriter := mkBufWriter { bw_buf : bytes; bw_err : option error }.

Definition bufio_NewWriter : BufWriter := mkBufWriter [] None.

(** [b.Flush()]: the error is sticky; after a short write the unwritten part
    stays in the buffer. *)
Definition bufio_Flush (b : BufWriter) (f : File) : BufWriter * File * option error :=
  match bw_err b with
  | Some e => (b, f, Some e)
  | None =>
      if (length (bw_buf b) =? 0)%nat then (b, f, None)
      else
        let '(f, n, err) := file_Write (bw_buf b) f in
        match err with
        | Some e => (mkBufWriter (drop n (bw_buf b)) (Some e), f, Some e)
        | None => (mkBufWriter [] None, f, None)
        end
  end.

(** The loop of [b.Write(p)]: while [p] does not fit, either write it straight
    through (empty buffer) or top the buffer up and flush it.  Two rounds are
    always enough, see [bufio_loop_fuel]. *)
Fixpoint bufio_loop (fuel : nat) (p : bytes) (b : BufWriter) (f : File)
  : bytes * BufWriter * File :=
  match fuel with
  | O => (p, b, f)
  | S fuel =>
      let avail := (bufio_size - length (bw_buf b))%nat in
      if (avail <? length p)%nat && bool_decide (bw_err b = None) then
        if (length (bw_buf b) =? 0)%nat then
          let '(f, n, err) := file_Write p f in
          bufio_loop fuel (drop n p) (mkBufWriter (bw_buf b) err) f
        else
          let b := mkBufWriter (bw_buf b ++ take avail p) (bw_err b) in
          let '(b, f, _) := bufio_Flush b f in
          bufio_loop fuel (drop avail p) b f
      else (p, b, f)
  end.

Definition bufio_Write (p : bytes) (b : BufWriter) (f : File)
  : BufWriter * File * option error :=
  let '(p, b, f) := bufio_loop 3 p b f in
  match bw_err b with
  | Some e => (b, f, Some e)
  | None => (mkBufWriter (bw_buf b ++ p) None, f, None)
  end.

(** ** io.ReadFull over a buffered file

    A source is the bytes still to be read and, when the device is going to
    fail, the number of bytes it delivers first. *)
Record Source := mkSource { src_bytes : bytes; src_fail : option nat }.

(** [io.ReadFull(r, buf)] with [len(buf) = n]: the bytes read, and [io.EOF] when
    there were none, [io.ErrUnexpectedEOF] after a partial read at the end of
    the file, the device error when the device failed first. *)
Definition ReadFull (n : nat) (s : Source) : bytes * option error * Source :=
  let avail := match src_fail s with
               | Some k => Nat.min k (length (src_bytes s))
               | None => length (src_bytes s)
               end in
  let m := Nat.min n avail in
  let s' := mkSource (drop m (src_bytes s)) (option_map (fun k => k - m)%nat (src_fail s)) in
  let err : option error :=
    if (n <=? avail)%nat then None
    else match src_fail s with
         | Some k => if (k <=? length (src_bytes s))%nat then Some (OsError "read")
                     else Some (io_error (if (avail =? 0)%nat then io.EOF else io.ErrUnexpectedEOF))
         | None => Some (io_error (if (avail =? 0)%nat then io.EOF else io.ErrUnexpectedEOF))
         end in
  (take m (src_bytes s), err, s').

(** [errors.Is(err, target)] on a possibly nil error. *)
Definition is_err (err : option error) (target : error) : bool :=
  match err with Some e => errors_Is e target | None => false end.

(** ** What the writer guarantees

    The bytes handed to a buffered writer are, in order, what the file holds
    followed by what is still buffered; a failing call loses none of them and
    reorders none of them. *)
Definition stream (b : BufWriter) (f : File) : bytes := f_content f ++ bw_buf b.

Definition wf_buf (b : BufWriter) : Prop := (length (bw_buf b) <= bufio_size)%nat.

Lemma next_fault_content f x f' :
  next_fault f = (x, f') -> f_content f' = f_content f /\ f_synced f' = f_synced f.
Proof. unfold next_fault. destruct (f_faults f); intros [= <- <-]; done. Qed.

Lemma next_fault_faultless f x f' :
  faultless f -> next_fault f = (x, f') -> x = NoFault /\ faultless f'.
Proof.
  unfold next_fault, faultless. destruct (f_faults f) eqn:E; intros Hf [= <- <-].
  - by rewrite E.
  - by apply Forall_cons in Hf.
Qed.

Lemma file_Write_spec p f f' n err :
  file_Write p f = (f', n, err) ->
  f_content f' = f_content f ++ take n p /\ f_synced f' = f_synced f /\
  (err = None -> n = length p) /\ (faultless f -> err = None /\ faultless f').
Proof.
  unfold file_Write. destruct (next_fault f) as [x g] eqn:E.
  apply next_fault_content in E as Hc. destruct Hc as [Hc Hs].
  destruct x as [|k]; intros [= <- <- <-]; cbn; rewrite Hc, Hs.
  - rewrite take_ge by lia. split_and!; try done.
    intros Hf. by apply (next_fault_faultless _ _ _ Hf) in E as [_ Hg].
  - split_and!; try done. intros Hf. by apply (next_fault_faultless _ _ _ Hf) in E as [? _].
Qed.

Lemma file_Sync_spec f f' err :
  file_Sync f = (f', err) ->
  f_content f' = f_content f /\
  (err = None -> f_synced f' = length (f_content f)) /\
  (err <> None -> f_synced f' = f_synced f) /\ (faultless f -> err = None /\ faultless f').
Proof.
  unfold file_Sync. destruct (next_fault f) as [x g] eqn:E.
  apply next_fault_content in E as Hc. destruct Hc as [Hc Hs].
  destruct x as [|k]; intros [= <- <-]; cbn; rewrite ?Hc, ?Hs; split_and!; try done;
    intros Hf; by apply (next_fault_faultless _ _ _ Hf) in E as [? ?].
Qed.

Lemma file_Close_spec f f' err :
  file_Close f = (f', err) ->
  f_content f' = f_content f /\ f_synced f' = f_synced f /\ (faultless f -> err = None).
Proof.
  unfold file_Close. destruct (next_fault f) as [x g] eqn:E.
  apply next_fault_content in E as Hc. destruct Hc as [Hc Hs].
  destruct x as [|k]; intros [= <- <-]; rewrite ?Hc, ?Hs; split_and!; try done;
    intros Hf; by apply (next_fault_faultless _ _ _ Hf) in E as [? ?].
Qed.

(** Writing, syncing and closing only ever add to a file. *)
Record file_grows (f f' : File) : Prop := {
  fg_content : f_content f `prefix_of` f_content f';
  fg_synced : (f_synced f <= length (f_content f) -> f_synced f <= f_synced f' <= length (f_content f'))%nat
}.

#[export] Instance file_grows_preorder : PreOrder file_grows.
Proof.
  split; [by split; [done|lia]|]. intros f1 f2 f3 [P1 S1] [P2 S2]. split; [by etrans|lia].
Qed.

Lemma file_Write_grows p f : file_grows f (file_Write p f).1.1.
Proof.
  destruct (file_Write p f) as [[f' n] err] eqn:E. apply file_Write_spec in E as (Hc & Hs & _).
  cbn. split; rewrite Hc, ?Hs; [by eexists|rewrite length_app; lia].
Qed.

Lemma file_Sync_grows f : file_grows f (file_Sync f).1.
Proof.
  destruct (file_Sync f) as [f' err] eqn:E. apply file_Sync_spec in E as (Hc & Hs & Hn & _).
  cbn. split; rewrite Hc; [done|]. destruct err; [rewrite Hn by done|rewrite Hs by done]; lia.
Qed.

Lemma file_Close_grows f : file_grows f (file_Close f).1.
Proof.
  destruct (file_Close f) as [f' err] eqn:E. apply file_Close_spec in E as (Hc & Hs & _).
  cbn. split; rewrite Hc, ?Hs; [done|lia].
Qed.

Lemma bufio_Flush_spec b f b' f' err :
  bufio_Flush b f = (b', f', err) ->
  stream b' f' = stream b f /\ bw_err b' = err /\ f_content f `prefix_of` f_content f' /\
  f_synced f' = f_synced f /\ (err = None -> bw_buf b' = [] /\ bw_err b = None) /\
  (length (bw_buf b') <= length (bw_buf b))%nat /\
  (faultless f -> bw_err b = None -> err = None /\ faultless f').
Proof.
  unfold bufio_Flush, stream. destruct (bw_err b) as [e|] eqn:Eb.
  { intros [= <- <- <-]. split_and!; done. }
  destruct (Nat.eqb_spec (length (bw_buf b)) 0) as [E0|E0].
  { intros [= <- <- <-]. apply nil_length_inv in E0. split_and!; done. }
  destruct (file_Write (bw_buf b) f) as [[g n] err'] eqn:Ew.
  apply file_Write_spec in Ew as (Hc & Hs & Hn & Hf).
  destruct err' as [e|]; intros [= <- <- <-]; cbn [bw_buf bw_err]; rewrite Hc.
  - rewrite <-app_assoc, take_drop. split_and!; try done; [by eexists|rewrite length_drop; lia|].
    intros Hfl _. by apply Hf in Hfl as [? ?].
  - rewrite (Hn eq_refl), take_ge, app_nil_r by lia. split_and!; try done; [by eexists|cbn; lia|].
    intros Hfl _. by apply Hf in Hfl as [? ?].
Qed.

Lemma bufio_loop_spec fuel p b f p' b' f' :
  bufio_loop fuel p b f = (p', b', f') -> wf_buf b ->
  stream b' f' ++ p' = stream b f ++ p /\ wf_buf b' /\
  f_content f `prefix_of` f_content f' /\ f_synced f' = f_synced f /\
  (faultless f -> bw_err b = None -> bw_err b' = None /\ faultless f') /\
  (bw_err b' = None -> bw_err b = None).
Proof.
  revert p b f. induction fuel as [|fuel IH]; intros p b f; cbn [bufio_loop].
  { intros [= <- <- <-] Hwf. by split_and!. }
  destruct (_ && _) eqn:Hc; [|intros [= <- <- <-] Hwf; by split_and!].
  apply andb_true_iff in Hc as [Hlt He]. zb. apply bool_decide_eq_true in He.
  destruct (Nat.eqb_spec (length (bw_buf b)) 0) as [E0|E0].
  - destruct (file_Write p f) as [[g n] err] eqn:Ew.
    apply file_Write_spec in Ew as (Hcg & Hs & Hn & Hf). intros H Hwf.
    apply IH in H as (S1 & W1 & P1 & Y1 & F1 & N1); [|done].
    apply nil_length_inv in E0. unfold stream in *. cbn [bw_buf bw_err] in *.
    rewrite S1, Hcg, E0, !app_nil_r, <-app_assoc, take_drop. rewrite Hcg in P1.
    split_and!; [done..|by etrans; [|exact P1]; eexists|congruence| |done].
    intros Hfl _. apply Hf in Hfl as [-> Hg]. by apply F1.
  - destruct (bufio_Flush _ f) as [[b1 g] err] eqn:Ef.
    apply bufio_Flush_spec in Ef as (S0 & E1 & P0 & Y0 & N0 & L0 & F0). intros H Hwf.
    assert (wf_buf b1) as Hw1.
    { unfold wf_buf in *. cbn [bw_buf] in L0. rewrite length_app, length_take in L0. lia. }
    apply IH in H as (S1 & W1 & P1 & Y1 & F1 & N1); [|done].
    unfold stream in *. cbn [bw_buf bw_err] in *. rewrite S1, S0.
    rewrite <-!app_assoc, take_drop.
    split_and!; [done..|by etrans|congruence| |done].
    intros Hfl _. destruct F0 as [-> Hg]; [done..|]. by apply F1.
Qed.

(** Three rounds of the loop are enough: it stops because the rest fits the
    buffer or because the writer failed. *)
Lemma bufio_loop_fuel p b f p' b' f' :
  bufio_loop 3 p b f = (p', b', f') -> wf_buf b ->
  bw_err b' <> None \/ (length (bw_buf b') + length p' <= bufio_size)%nat.
Proof.
  assert (forall fuel p b f p' b' f', bufio_loop (S (S fuel)) p b f = (p', b', f') ->
    bw_buf b = [] -> bw_err b' <> None \/ (length (bw_buf b') + length p' <= bufio_size)%nat) as Hempty.
  { clear. intros fuel p b f p' b' f' H Hb. cbn [bufio_loop] in H. rewrite Hb in H. cbn [length] in H.
    rewrite Nat.sub_0_r, Nat.eqb_refl in H.
    destruct (_ && _) eqn:Hc.
    - destruct (file_Write p f) as [[g n] err] eqn:Ew.
      apply file_Write_spec in Ew as (_ & _ & Hn & _). cbn [bw_buf bw_err length] in H.
      destruct err as [e|]; cbn in H.
      + rewrite andb_false_r in H. injection H as <- <- <-. by left.
      + rewrite (Hn eq_refl), drop_all in H. cbn in H. injection H as <- <- <-. right. cbn. lia.
    - injection H as <- <- <-. apply andb_false_iff in Hc as [Hc|Hc].
      + zb. right. rewrite Hb. cbn. lia.
      + left. by apply bool_decide_eq_false in Hc. }
  intros H Hwf. cbn [bufio_loop] in H.
  destruct (Nat.eqb_spec (length (bw_buf b)) 0) as [E0|E0].
  - apply nil_length_inv in E0. eapply (Hempty 1%nat p b f); [|done].
    cbn [bufio_loop]. rewrite E0 in *. cbn [length] in *. rewrite Nat.eqb_refl in *. exact H.
  - destruct (_ && _) eqn:Hc.
    + destruct (bufio_Flush _ f) as [[b1 g] err] eqn:Ef.
      apply bufio_Flush_spec in Ef as (_ & E1 & _ & _ & N0 & _ & _).
      destruct err as [e|].
      * rewrite E1 in H. rewrite (bool_decide_eq_false_2 (Some e = None)), andb_false_r in H by done.
        injection H as <- <- <-. left. by rewrite E1.
      * destruct (N0 eq_refl) as [Hb1 _]. eapply (Hempty 0%nat _ b1 g); [|done]. exact H.
    + injection H as <- <- <-. apply andb_false_iff in Hc as [Hc|Hc].
      * zb. right. unfold wf_buf in Hwf. lia.
      * left. by apply bool_decide_eq_false in Hc.
Qed.

Lemma bufio_Write_spec p b f b' f' err :
  bufio_Write p b f = (b', f', err) -> wf_buf b ->
  wf_buf b' /\ bw_err b' = err /\ f_content f `prefix_of` f_content f' /\
  f_synced f' = f_synced f /\ stream b' f' `prefix_of` stream b f ++ p /\
  (err = None -> bw_err b = None /\ stream b' f' = stream b f ++ p) /\
  (faultless f -> bw_err b = None -> err = None /\ faultless f').
Proof.
  unfold bufio_Write. destruct (bufio_loop 3 p b f) as [[p1 b1] f1] eqn:El. intros H Hwf.
  pose proof (bufio_loop_fuel _ _ _ _ _ _ El Hwf) as Hfuel.
  apply bufio_loop_spec in El as (S1 & W1 & P1 & Y1 & F1 & N1); [|done].
  destruct (bw_err b1) as [e|] eqn:E1; injection H as <- <- <-.
  - split_and!; try done.
    all: first [rewrite <-S1; by eexists | intros Hf Hb; destruct (F1 Hf Hb); congruence].
  - unfold stream in *. cbn [bw_buf bw_err] in *.
    assert (f_content f1 ++ bw_buf b1 ++ p1 = (f_content f ++ bw_buf b) ++ p) as Hs
      by (by rewrite <-S1, app_assoc).
    split_and!; try done.
    all: first [ by rewrite Hs | by auto | by (intros; split; auto) | idtac ].
    destruct Hfuel as [?|Hfit]; [done|]. unfold wf_buf. cbn. rewrite length_app. lia.
Qed.

Lemma ReadFull_ok n s :
  src_fail s = None -> (n <= length (src_bytes s))%nat ->
  ReadFull n s = (take n (src_bytes s), None, mkSource (drop n (src_bytes s)) None).
Proof.
  intros Hf Hn. unfold ReadFull. rewrite Hf. cbn.
  rewrite (proj2 (Nat.leb_le _ _)) by done. by rewrite Nat.min_l by done.
Qed.

Lemma ReadFull_short n s :
  src_fail s = None -> (length (src_bytes s) < n)%nat ->
  ReadFull n s = (src_bytes s,
    Some (io_error (if (length (src_bytes s) =? 0)%nat then io.EOF else io.ErrUnexpectedEOF)),
    mkSource [] None).
Proof.
  intros Hf Hn. unfold ReadFull. rewrite Hf. cbn.
  rewrite (proj2 (Nat.leb_gt _ _)) by done. rewrite Nat.min_r by lia.
  by rewrite take_ge, drop_ge by lia.
Qed.

(** A device that fails before the [n] bytes are delivered. *)
Lemma ReadFull_fault n s k :
  src_fail s = Some k -> (k < n)%nat -> (k <= length (src_bytes s))%nat ->
  ReadFull n s = (take k (src_bytes s), Some (OsError "read"),
    mkSource (drop k (src_bytes s)) (Some 0%nat)).
Proof.
  intros Hf Hk Hl. unfold ReadFull. rewrite Hf. cbn.
  rewrite (Nat.min_l k) by done. rewrite (proj2 (Nat.leb_gt _ _)) by done.
  rewrite (proj2 (Nat.leb_le _ _)) by done. by rewrite Nat.min_r, Nat.sub_diag by lia.
Qed.

(** A failed writer stays failed and writes nothing more. *)
Lemma bufio_Write_failed p b f e : bw_err b = Some e -> bufio_Write p b f = (b, f, Some e).
Proof.
  intros E. unfold bufio_Write. cbn [bufio_loop].
  rewrite E, (bool_decide_eq_false_2 (Some e = None)), andb_false_r by done.
  by rewrite E.
Qed.

Lemma bufio_Flush_failed b f e : bw_err b = Some e -> bufio_Flush b f = (b, f, Some e).
Proof. intros E. unfold bufio_Flush. by rewrite E. Qed.
