(* ===== verification/RecordIO.v ===== *)
(** * Reading a record stream

    [wal.Reader] and [manifest.Reader] are the same reader over two formats:
    the text of their [Next], [ValidOffset] and [Close] is identical up to the
    package's errors.  This file holds that reader, parameterised by the format
    and the package's [ErrReaderClosed], and what it reads from the image of a
    file that a crash may have cut short. *)
From S2P Require Import Prelude.
From S2P Require Import Errors.
From S2P Require Import Coding.
From S2P Require Import Checksum.
From S2P Require Import Keys.
From S2P Require Import GoIO.
From S2P Require Import Record.

(** [r_file] says whether the file handle is non-nil. *)
Record Reader := mkReader { r_file : bool; r_src : Source; r_pos : nat }.

Definition open_reader (src : Source) : Reader := mkReader true src 0.

Section ReaderOps.
Context (f : Format) (ErrReaderClosed : error).

(** [Next]: on an error the position is left at the last valid boundary. *)
Definition read_next (r : Reader) : res bytes * Reader :=
  if negb (r_file r) then (throw ErrReaderClosed, r)
  else
    let '(header, err, src) := ReadFull HeaderSize (r_src r) in
    let n := length header in
    let r1 := mkReader true src (r_pos r) in
    if is_err err io.EOF then (throw io.EOF, r1)
    else if is_err err io.ErrUnexpectedEOF || (n <? HeaderSize)%nat
    then (throw record.ErrTruncated, r1)
    else match err with
    | Some e => (throw (Errorf "failed to read header" e), r1)
    | None =>
      match DecodeHeader f header with
      | Panic => (Panic, r1)
      | Err e => (throw e, r1)
      | Ok hdr =>
        let payloadLen := Z.to_nat (Length hdr) in
        let '(payload, err, src) := ReadFull payloadLen src in
        let n := length payload in
        let r2 := mkReader true src (r_pos r) in
        if is_err err io.ErrUnexpectedEOF || (n <? payloadLen)%nat
        then (throw record.ErrTruncated, r2)
        else match err with
        | Some e => (throw (Errorf "failed to read payload" e), r2)
        | None =>
          match ValidatePayload payload (Checksum hdr) with
          | Panic => (Panic, r2)
          | Err e => (throw e, r2)
          | Ok _ => (Ok payload, mkReader true src (r_pos r + HeaderSize + payloadLen))
          end
        end
      end
    end.

Definition valid_offset (r : Reader) : nat := r_pos r.

(** [Close], with the outcome of closing the file. *)
Definition close_reader (close_err : option error) (r : Reader) : option error * Reader :=
  if negb (r_file r) then (Some ErrReaderClosed, r)
  else (Errorf "failed to close file" <$> close_err, mkReader false (mkSource [] None) (r_pos r)).

(** Calling [Next] until it fails, as every replay loop does: the payloads,
    the error that ended the loop, and the reader. *)
Fixpoint read_all (fuel : nat) (r : Reader) : list bytes * res bytes * Reader :=
  match fuel with
  | O => ([], Panic, r)
  | S fuel =>
      match read_next r with
      | (Ok p, r') => let '(ps, e, r'') := read_all fuel r' in (p :: ps, e, r'')
      | (e, r') => ([], e, r')
      end
  end.
End ReaderOps.

(** Enough fuel to drain a source: a record is at least a header long. *)
Definition drain_fuel (r : Reader) : nat := S (length (src_bytes (r_src r))).

(** A payload both sides accept without the length wrapping around. *)
Definition fits (f : Format) (p : bytes) : Prop :=
  (zlen p <= MaxPayloadSize f)%Z /\ is_u32 (zlen p).

#[export] Instance fits_dec f p : Decision (fits f p).
Proof. unfold fits. apply _. Defined.

(** The bytes of a file holding the records of [ps]. *)
Definition log_image (f : Format) (ps : list bytes) : bytes := mjoin (record_wire f <$> ps).

Lemma log_image_cons f p ps : log_image f (p :: ps) = record_wire f p ++ log_image f ps.
Proof. reflexivity. Qed.

Lemma log_image_app f ps qs : log_image f (ps ++ qs) = log_image f ps ++ log_image f qs.
Proof. unfold log_image. by rewrite fmap_app, join_app. Qed.

Lemma log_image_snoc f ps p : log_image f (ps ++ [p]) = log_image f ps ++ record_wire f p.
Proof. rewrite log_image_app. unfold log_image at 2. cbn. by rewrite app_nil_r. Qed.

Section ReaderFacts.
Context (f : Format) (closed : error).
Local Abbreviation next := (read_next f closed).

Lemma record_wire_u32 p : is_u32 (zlen p) ->
  record_wire f p = header_wire f (zlen p) (CRC32C p) ++ p.
Proof. intros H. unfold record_wire. by rewrite u32_id. Qed.

(** A whole record in front of the reader is returned, and the position
    moves past it. *)
Lemma read_next_record p rst pos :
  fits f p ->
  next (mkReader true (mkSource (record_wire f p ++ rst) None) pos) =
    (Ok p, mkReader true (mkSource rst None) (pos + length (record_wire f p))).
Proof.
  intros [Hmax Hu]. unfold read_next. cbn [r_file negb r_src r_pos].
  rewrite record_wire_u32, <-app_assoc by done.
  rewrite ReadFull_ok by (cbn [src_bytes src_fail]; rewrite ?length_app, ?length_header_wire; lia || done).
  cbn [src_bytes]. rewrite take_app_length', drop_app_length' by (by rewrite length_header_wire).
  cbn [is_err orb].
  rewrite length_header_wire, Nat.ltb_irrefl.
  rewrite DecodeHeader_wire by auto with beach. cbn [Length Checksum].
  unfold zlen. rewrite Nat2Z.id.
  rewrite ReadFull_ok by (cbn [src_bytes src_fail]; rewrite ?length_app; lia || done).
  cbn [src_bytes]. rewrite take_app_length, drop_app_length. cbn [is_err orb].
  rewrite Nat.ltb_irrefl. rewrite (proj2 (ValidatePayload_ok _ _)) by done.
  f_equal. f_equal. rewrite length_app, length_header_wire. lia.
Qed.

(** At the end of the file the reader reports [io.EOF] and does not move. *)
Lemma read_next_eof pos :
  next (mkReader true (mkSource [] None) pos) = (throw io.EOF, mkReader true (mkSource [] None) pos).
Proof. reflexivity. Qed.

(** A strict, non-empty prefix of a record is a truncated record. *)
Lemma read_next_torn p tail pos :
  fits f p -> tail `prefix_of` record_wire f p -> tail <> [] ->
  (length tail < length (record_wire f p))%nat ->
  exists src, next (mkReader true (mkSource tail None) pos) =
    (throw record.ErrTruncated, mkReader true src pos).
Proof.
  intros [Hmax Hu] Hpre Hne Hlt. unfold read_next. cbn [r_file negb r_src r_pos].
  rewrite record_wire_u32 in Hpre, Hlt by done.
  rewrite length_app, length_header_wire in Hlt.
  destruct (decide (length tail < HeaderSize)) as [Hh|Hh].
  - rewrite ReadFull_short by done. cbn [src_bytes].
    destruct (Nat.eqb_spec (length tail) 0) as [E|_]; [by apply nil_length_inv in E|].
    eexists. reflexivity.
  - assert (exists body, tail = header_wire f (zlen p) (CRC32C p) ++ body) as [body ->].
    { destruct Hpre as [more Hmore]. exists (drop HeaderSize tail).
      rewrite <-(take_drop HeaderSize tail) at 1. f_equal.
      apply (f_equal (take HeaderSize)) in Hmore.
      rewrite take_app_length' in Hmore by (by rewrite length_header_wire).
      rewrite take_app_le in Hmore by lia. done. }
    rewrite length_app, length_header_wire in Hlt.
    rewrite ReadFull_ok by (cbn [src_bytes src_fail]; rewrite ?length_app, ?length_header_wire; lia || done).
    cbn [src_bytes]. rewrite take_app_length', drop_app_length' by (by rewrite length_header_wire).
    cbn [is_err orb]. rewrite length_header_wire, Nat.ltb_irrefl.
    rewrite DecodeHeader_wire by auto with beach. cbn [Length].
    unfold zlen. rewrite Nat2Z.id.
    rewrite ReadFull_short by (cbn [src_bytes src_fail]; lia || done).
    cbn [src_bytes is_err]. rewrite (proj2 (Nat.ltb_lt _ _)) by lia. rewrite orb_true_r.
    eexists. reflexivity.
Qed.

(** What a replay reads from a file cut at any byte: every record that is
    complete, in order, then a clean end of file or a truncated record, with
    the valid offset at the end of the last complete record. *)
Lemma read_all_prefix ps img pos fuel :
  Forall (fits f) ps -> img `prefix_of` log_image f ps -> (length img < fuel)%nat ->
  exists qs (e : error) src,
    read_all f closed fuel (mkReader true (mkSource img None) pos) =
      (qs, throw e, mkReader true src (pos + length (log_image f qs))) /\
    qs `prefix_of` ps /\ log_image f qs `prefix_of` img /\
    ((e = io.EOF /\ img = log_image f qs) \/
     (e = record.ErrTruncated /\ (length (log_image f qs) < length img)%nat)) /\
    (forall rs, rs `prefix_of` ps -> log_image f rs `prefix_of` img -> rs `prefix_of` qs).
Proof.
  revert img pos fuel. induction ps as [|p ps IH]; intros img pos fuel Hps Hpre Hfuel.
  { apply prefix_nil_inv in Hpre as ->. destruct fuel as [|fuel]; [lia|].
    exists [], io.EOF, (mkSource [] None). cbn. rewrite Nat.add_0_r.
    split_and!; [done|done|done|by left|]. intros rs Hrs _. by apply prefix_nil_inv in Hrs as ->. }
  apply Forall_cons in Hps as [Hp Hps]. rewrite log_image_cons in Hpre.
  destruct fuel as [|fuel]; [lia|]. cbn [read_all].
  destruct (decide (length img < length (record_wire f p))%nat) as [Hlt|Hge].
  - (* the file ends inside the first record *)
    assert (img `prefix_of` record_wire f p) as Himg
      by (eapply prefix_app_short; [done|lia]).
    assert (forall rs, rs `prefix_of` p :: ps -> log_image f rs `prefix_of` img -> rs `prefix_of` []) as Hmax.
    { intros [|r rs] Hrs Hl; [done|]. apply prefix_cons_inv_1 in Hrs as ->.
      apply prefix_length in Hl. rewrite log_image_cons, length_app in Hl. lia. }
    destruct (decide (img = [])) as [->|Hne].
    + exists [], io.EOF, (mkSource [] None). rewrite read_next_eof, Nat.add_0_r.
      split_and!; try done; [apply prefix_nil|by left].
    + destruct (read_next_torn p img pos Hp Himg Hne Hlt) as [src ->].
      exists [], record.ErrTruncated, src. cbn [log_image]. rewrite Nat.add_0_r.
      split_and!; try done; [apply prefix_nil|apply prefix_nil|right; split; [done|]].
      destruct img; [done|cbn; lia].
  - (* the first record is complete *)
    assert (record_wire f p `prefix_of` img) as [rst ->]
      by (eapply prefix_app_long; [done|lia]).
    rewrite read_next_record by done.
    apply prefix_app_inv in Hpre. rewrite length_app in Hfuel.
    destruct (IH rst (pos + length (record_wire f p))%nat fuel) as (qs & e & src & -> & Hq & Hl & Hcase & Hmax);
      [done|done|rewrite length_record_wire in Hfuel; assert (HeaderSize = 18%nat) by done; lia|].
    exists (p :: qs), e, src. rewrite log_image_cons, length_app, Nat.add_assoc.
    split_and!; [done|by apply prefix_cons|by apply prefix_app| |].
    + destruct Hcase as [[-> ->]|[-> Hlt]]; [by left|right]. split; [done|]. rewrite length_app. lia.
    + intros [|r rs] Hrs Hrl; [apply prefix_nil|].
      pose proof (prefix_cons_inv_1 _ _ _ _ Hrs) as ->. apply prefix_cons_inv_2 in Hrs.
      rewrite log_image_cons in Hrl. apply prefix_app_inv in Hrl.
      by apply prefix_cons, Hmax.
Qed.

(** ** Device errors

    [io.ReadFull] returns fewer bytes than asked whenever it returns an error,
    so the length tests of [Next] claim every device error first. *)
Lemma ReadFull_err_short n s p err s' :
  ReadFull n s = (p, err, s') -> err <> None -> (length p < n)%nat.
Proof.
  unfold ReadFull. intros [= <- <- <-] Herr. rewrite length_take.
  destruct (Nat.leb_spec n (match src_fail s with Some k => Nat.min k (length (src_bytes s)) | None => length (src_bytes s) end));
    [done|]. destruct (src_fail s); lia.
Qed.

Lemma read_next_device_fault bs k pos :
  (k <= length bs)%nat -> (k < HeaderSize)%nat ->
  exists src, next (mkReader true (mkSource bs (Some k)) pos) =
    (throw record.ErrTruncated, mkReader true src pos).
Proof.
  intros Hk Hh. unfold read_next. cbn [r_file negb r_src r_pos].
  rewrite (ReadFull_fault _ _ k) by done. cbn [src_bytes].
  replace (is_err (Some (OsError "read")) io.EOF) with false by done.
  rewrite length_take, (proj2 (Nat.ltb_lt _ _)) by lia. rewrite orb_true_r. by eexists.
Qed.

Lemma read_next_no_device_error r e msg :
  (read_next f closed r).1 = throw (Errorf msg e) -> closed = Errorf msg e.
Proof.
  unfold read_next. destruct (r_file r); cbn [negb fst]; [|by intros [= ->]].
  destruct (ReadFull HeaderSize (r_src r)) as [[h err] src] eqn:E1.
  destruct (is_err err io.EOF); [done|]. destruct err as [e1|].
  { apply ReadFull_err_short in E1; [|done].
    rewrite (proj2 (Nat.ltb_lt _ _)), orb_true_r by done. done. }
  cbn [is_err orb]. destruct (_ <? _)%nat; [done|].
  destruct (DecodeHeader_total f h) as [[hdr ->]|(e' & -> & _)]; [|done].
  destruct (ReadFull _ src) as [[p err2] src2] eqn:E2. destruct err2 as [e2|].
  { apply ReadFull_err_short in E2; [|done].
    rewrite (proj2 (Nat.ltb_lt _ _)), orb_true_r by done. done. }
  cbn [is_err orb]. destruct (_ <? _)%nat; [done|].
  unfold ValidatePayload. by destruct (negb _).
Qed.
End ReaderFacts.

(** ** Corruption *)

(** A whole record whose payload differs from what was written, the length
    being unchanged, in a way the checksum sees. *)
Lemma read_next_corrupt f closed p q rst pos :
  fits f p -> length q = length p -> CRC32C q <> CRC32C p ->
  exists src,
    read_next f closed (mkReader true (mkSource (header_wire f (zlen p) (CRC32C p) ++ q ++ rst) None) pos) =
      (throw record.ErrChecksum, mkReader true src pos).
Proof.
  intros [Hmax Hu] Hl Hne. unfold read_next. cbn [r_file negb r_src r_pos].
  rewrite ReadFull_ok by (cbn [src_bytes src_fail]; rewrite ?length_app, ?length_header_wire; lia || done).
  cbn [src_bytes]. rewrite take_app_length', drop_app_length' by (by rewrite length_header_wire).
  cbn [is_err orb]. rewrite length_header_wire, Nat.ltb_irrefl.
  rewrite DecodeHeader_wire by auto with beach. cbn [Length Checksum].
  unfold zlen. rewrite Nat2Z.id, <-Hl.
  rewrite ReadFull_ok by (cbn [src_bytes src_fail]; rewrite ?length_app; lia || done).
  cbn [src_bytes]. rewrite take_app_length. cbn [is_err orb]. rewrite Nat.ltb_irrefl.
  rewrite ValidatePayload_bad by done. by eexists.
Qed.

(** ** Properties *)

(** C22: replay of a torn file.  From any prefix, cut at any byte, of
    a file that holds the records of [ps], the reader returns exactly the
    records that are complete, in order, then [io.EOF] when the cut is at a
    record boundary and [ErrTruncated] otherwise; the valid offset is the end of
    the last complete record. *)
Theorem reader_recovers_prefix (f : Format) (closed : error) (ps : list bytes) (img : bytes) :
  Forall (fits f) ps -> img `prefix_of` log_image f ps ->
  exists qs (e : error) r,
    read_all f closed (S (length img)) (open_reader (mkSource img None)) = (qs, throw e, r) /\
    qs `prefix_of` ps /\ valid_offset r = length (log_image f qs) /\
    log_image f qs `prefix_of` img /\
    (forall rs, rs `prefix_of` ps -> log_image f rs `prefix_of` img -> rs `prefix_of` qs) /\
    (if decide (img = log_image f qs) then e = io.EOF else e = record.ErrTruncated).
Proof.
  intros Hps Hpre.
  destruct (read_all_prefix f closed ps img 0 (S (length img)) Hps Hpre) as (qs & e & src & E & H1 & H2 & H3 & H4);
    [lia|].
  exists qs, e, (mkReader true src (0 + length (log_image f qs))). split_and!; try done.
  destruct H3 as [[-> Himg]|[-> Hlt]].
  - by rewrite decide_True.
  - rewrite decide_False; [done|]. intros ->. lia.
Qed.

Definition tiny_format : Format :=
  mkFormat (magic_array "BEACHWAL") 16 (magic_array_length "BEACHWAL").

Lemma reader_recovers_prefix_witness :
  exists qs (e : error) r,
    read_all tiny_format wal.ErrReaderClosed 21 (open_reader (mkSource
      (log_image tiny_format [[x41]] ++ [x42]) None)) = (qs, throw e, r) /\
    valid_offset r = length (log_image tiny_format qs).
Proof.
  destruct (reader_recovers_prefix tiny_format wal.ErrReaderClosed [[x41]; [x43]]
    (log_image tiny_format [[x41]] ++ [x42])) as (qs & e & r & E & _ & Hv & _).
  - repeat constructor; vm_compute; (reflexivity || discriminate).
  - change [[x41]; [x43]] with ([[x41]] ++ [[x43]]). rewrite log_image_app. apply prefix_app.
    by exists (drop 1 (log_image tiny_format [[x43]])).
  - exists qs, e, r. split; [exact E|exact Hv].
Defined.

(** C23: a payload damaged on the way is not returned.  If up to four
    consecutive bytes of a record's payload are replaced by different ones,
    [Next] reports [ErrChecksum] and the valid offset stays in front of the
    record. *)
Theorem reader_rejects_burst (f : Format) (closed : error) (pre w1 w2 post rst : bytes) (pos : nat) :
  fits f (pre ++ w1 ++ post) -> length w1 = length w2 -> (length w1 <= 4)%nat -> w1 <> w2 ->
  exists src,
    read_next f closed (mkReader true (mkSource
      (header_wire f (zlen (pre ++ w1 ++ post)) (CRC32C (pre ++ w1 ++ post)) ++
        (pre ++ w2 ++ post) ++ rst) None) pos) =
      (throw record.ErrChecksum, mkReader true src pos).
Proof.
  intros Hfit Hl H4 Hne. apply read_next_corrupt; [done|len|].
  intros E. by apply (crc_burst pre w1 w2 post).
Qed.

Lemma reader_rejects_burst_witness :
  exists src,
    read_next tiny_format wal.ErrReaderClosed (mkReader true (mkSource
      (header_wire tiny_format (zlen ([x01] ++ [x02] ++ [x03])) (CRC32C ([x01] ++ [x02] ++ [x03])) ++
        ([x01] ++ [xff] ++ [x03]) ++ [x00]) None) 0) =
      (throw record.ErrChecksum, mkReader true src 0).
Proof.
  apply (reader_rejects_burst tiny_format wal.ErrReaderClosed [x01] [x02] [xff] [x03] [x00] 0).
  - vm_compute. repeat split; discriminate.
  - reflexivity.
  - cbn. lia.
  - discriminate.
Defined.

(** C39: a failing device looks like the end of the log.  When the
    device fails before the header is complete, [Next] reports [ErrTruncated];
    and from no state can it return the wrapped I/O error its last branches
    prepare, since a short read always claims the case first. *)
Theorem reader_hides_device_error (f : Format) (bs : bytes) (k pos : nat) :
  (k <= length bs)%nat -> (k < HeaderSize)%nat ->
  (exists src, read_next f wal.ErrReaderClosed (mkReader true (mkSource bs (Some k)) pos) =
     (throw record.ErrTruncated, mkReader true src pos)) /\
  (forall r msg e, (read_next f wal.ErrReaderClosed r).1 <> throw (Errorf msg e)).
Proof.
  intros Hk Hh. split; [by apply read_next_device_fault|].
  intros r msg e H. by apply read_next_no_device_error in H.
Qed.

Lemma reader_hides_device_error_witness :
  exists src, read_next tiny_format wal.ErrReaderClosed
      (mkReader true (mkSource (log_image tiny_format [[x41]]) (Some 5)) 0) =
    (throw record.ErrTruncated, mkReader true src 0).
Proof.
  apply (reader_hides_device_error tiny_format (log_image tiny_format [[x41]]) 5 0).
  - vm_compute. lia.
  - vm_compute. lia.
Defined.
