(* ===== verification/GoSort.v ===== *)
(** * Searching and sorting

    The binary search of Go's [sort] package, whose callback may panic, and
    what it returns for a predicate that is false and then true; sorting and map
    iteration as an interface with the laws their documentation states, and an
    implementation of it. *)
From S2P Require Import Prelude.

(** [for i < j { h := int(uint(i+j) >> 1); if !f(h) { i = h+1 } else { j = h } }]. *)
Fixpoint search_loop {E} (fuel : nat) (f : nat -> result E bool) (i j : nat) : result E nat :=
  if (i <? j)%nat then
    match fuel with
    | O => Panic
    | S fuel =>
        let h := ((i + j) / 2)%nat in
        f h ≫= fun b : bool => if b then search_loop fuel f i h else search_loop fuel f (S h) j
    end
  else Ok i.

Definition sort_Search {E} (n : nat) (f : nat -> result E bool) : result E nat := search_loop n f 0 n.

Section Search.
Context {E : Type} (f : nat -> result E bool) (p : nat -> bool) (n : nat).
Hypothesis f_ok : forall i, (i < n)%nat -> f i = Ok (p i).
Hypothesis p_mono : forall i j, (i <= j)%nat -> (j < n)%nat -> p i = true -> p j = true.

Lemma search_loop_spec fuel i j :
  (i <= j <= n)%nat -> (j - i <= fuel)%nat ->
  (forall a, (a < i)%nat -> p a = false) -> (forall b, (j <= b)%nat -> (b < n)%nat -> p b = true) ->
  exists k, search_loop fuel f i j = Ok k /\ (k <= n)%nat /\
    (forall a, (a < k)%nat -> p a = false) /\ (forall b, (k <= b)%nat -> (b < n)%nat -> p b = true).
Proof using f_ok p_mono.
  revert i j. induction fuel as [|fuel IH]; intros i j Hij Hf Hlo Hhi; cbn [search_loop];
    destruct (Nat.ltb_spec i j) as [Hlt|Hge]; try lia;
    try (exists i; split_and!; [done|lia|done|intros; apply Hhi; lia]).
  assert (i <= (i + j) / 2 < j)%nat as Hh
    by (split; [apply Nat.div_le_lower_bound; lia|apply Nat.div_lt_upper_bound; lia]).
  rewrite f_ok by lia. cbn [mbind result_bind]. destruct (p ((i + j) / 2)) eqn:Hp.
  - apply IH; [lia|lia|done|]. intros b Hb1 Hb2. by apply (p_mono ((i + j) / 2)).
  - apply IH; [lia|lia| |done]. intros a Ha. destruct (p a) eqn:Hpa; [|done].
    rewrite <-Hp. symmetry. apply (p_mono a); [lia|lia|done].
Qed.

(** The first index at which the predicate holds, [n] when there is none. *)
Lemma sort_Search_spec :
  exists k, sort_Search n f = Ok k /\ (k <= n)%nat /\
    (forall a, (a < k)%nat -> p a = false) /\ (forall b, (k <= b)%nat -> (b < n)%nat -> p b = true).
Proof using f_ok p_mono. apply search_loop_spec; lia. Qed.
End Search.

Local Open Scope Z_scope.

(** ** The standard library's sort and map iteration

    [slices.SortFunc(x, cmp)] sorts in ascending order for a [cmp] that is a
    strict weak ordering; it is not guaranteed to be stable. *)
Definition weak_order {A} (cmp : A -> A -> Z) : Prop :=
  (forall a b, cmp a b <= 0 \/ cmp b a <= 0) /\
  (forall a b c, cmp a b <= 0 -> cmp b c <= 0 -> cmp a c <= 0).

Class Slices := {
  SortFunc {A} : list A -> (A -> A -> Z) -> list A;
  range_map : gset Z -> list Z
}.

Class SlicesLaws {slices : Slices} : Prop := {
  SortFunc_perm {A} (l : list A) cmp : SortFunc l cmp ≡ₚ l;
  SortFunc_sorted {A} (l : list A) cmp :
    weak_order cmp -> StronglySorted (fun a b => cmp a b <= 0) (SortFunc l cmp);
  range_map_perm m : range_map m ≡ₚ elements m
}.

Lemma range_map_empty `{SlicesLaws} : range_map ∅ = [].
Proof. apply Permutation_nil_r. by rewrite range_map_perm, elements_empty. Qed.

Lemma range_map_singleton `{SlicesLaws} x : range_map {[x]} = [x].
Proof. apply Permutation_singleton_r. by rewrite range_map_perm, elements_singleton. Qed.

(** ** An implementation of the standard library's part

    An insertion sort, which [slices.SortFunc] itself uses for short slices. *)
Fixpoint insert_sorted {A} (cmp : A -> A -> Z) (x : A) (l : list A) : list A :=
  match l with
  | [] => [x]
  | y :: l' => if cmp x y <=? 0 then x :: l else y :: insert_sorted cmp x l'
  end.

Definition insertion_sort {A} (l : list A) (cmp : A -> A -> Z) : list A := foldr (insert_sorted cmp) [] l.

Lemma insert_sorted_perm {A} cmp (x : A) l : insert_sorted cmp x l ≡ₚ x :: l.
Proof.
  induction l as [|y l IH]; cbn; [done|]. destruct (cmp x y <=? 0); [done|].
  rewrite IH. apply Permutation_swap.
Qed.

Lemma insert_sorted_sorted {A} cmp (x : A) l :
  weak_order cmp -> StronglySorted (fun a b => cmp a b <= 0) l ->
  StronglySorted (fun a b => cmp a b <= 0) (insert_sorted cmp x l).
Proof.
  intros [Htot Htr]. induction 1 as [|y l Hs IH Hle]; cbn; [repeat constructor|].
  destruct (Z.leb_spec (cmp x y) 0) as [Hxy|Hxy].
  - constructor; [by constructor|]. constructor; [done|].
    eapply Forall_impl; [done|]. cbn. intros z Hz. by eapply Htr.
  - constructor; [done|]. rewrite insert_sorted_perm. constructor; [|done].
    destruct (Htot x y); [lia|done].
Qed.

Lemma insertion_sort_perm {A} (l : list A) cmp : insertion_sort l cmp ≡ₚ l.
Proof. unfold insertion_sort. induction l as [|x l IH]; cbn; [done|]. by rewrite insert_sorted_perm, IH. Qed.

#[export] Instance insertion_Slices : Slices := {
  SortFunc A l cmp := insertion_sort l cmp;
  range_map m := elements m
}.

#[export] Instance insertion_SlicesLaws : SlicesLaws.
Proof.
  split; cbn; [| |done].
  - intros A l cmp. apply insertion_sort_perm.
  - intros A l cmp H. unfold insertion_sort. induction l as [|x l IH]; cbn; [constructor|].
    by apply insert_sorted_sorted.
Qed.
