(* ===== verification/Crashhook.v ===== *)
(** * Crash and fault points (internal/crashhook/crashhook.go)

    The names of the points at which the crash harness can end the process or make
    a call fail.  The fault hook is [MaybeFault] in Fs.v; the crash hook ends the
    process at a point where the crashes of History.v may end it too. *)
From S2P Require Import Prelude.
From S2P Require Import Errors.

Local Open Scope string_scope.

Definition EnvCrashPoint : string := "BEACHDB_CRASH_POINT".
Definition EnvFaultPoint : string := "BEACHDB_FAULT_POINT".

Definition PointWALAfterAppend : string := "wal_after_append".
Definition PointWALAfterSync : string := "wal_after_sync".
Definition PointFlushAfterFileSync : string := "flush_after_file_sync".
Definition PointFlushAfterPublish : string := "flush_after_publish".
Definition PointManifestAfterSSTSync : string := "manifest_after_sst_sync".
Definition PointManifestAfterAppend : string := "manifest_after_append".

Definition FaultWALSyncError : string := "wal_sync_error".
Definition FaultSSTPublishError : string := "sst_publish_error".
Definition FaultSSTWriteError : string := "sst_write_error".

Definition IsCrashPoint (point : string) : bool :=
  bool_decide (point ∈ [""; PointWALAfterAppend; PointWALAfterSync; PointFlushAfterFileSync; PointFlushAfterPublish;
    PointManifestAfterSSTSync; PointManifestAfterAppend]).

Definition IsFaultPoint (point : string) : bool :=
  bool_decide (point ∈ [""; FaultWALSyncError; FaultSSTPublishError; FaultSSTWriteError]).

Definition CrashExitCode : Z := 86.

(** [CrashIfArmed(point)] where [armed] is the value of the environment variable:
    the exit code if the process ends here, and [crashConsumed]. *)
Definition CrashIfArmed (armed point : string) (crashConsumed : bool) : option Z * bool :=
  if bool_decide (point = "") || negb (bool_decide (armed = point)) then (None, crashConsumed)
  else if crashConsumed then (None, true)
  else (Some CrashExitCode, true).

(** The error a fault point injects; none for a name that is not one. *)
Definition injected_error (point : string) : option error :=
  if bool_decide (point = FaultWALSyncError) then Some (crashhook_error crashhook.ErrInjectedWALSync)
  else if bool_decide (point = FaultSSTPublishError) then Some (crashhook_error crashhook.ErrInjectedSSTPublish)
  else if bool_decide (point = FaultSSTWriteError) then Some (crashhook_error crashhook.ErrInjectedSSTWrite)
  else None.

(** The points [IsFaultPoint] accepts are the empty one and those that inject. *)
Lemma fault_points point : IsFaultPoint point = true <-> point = "" \/ is_Some (injected_error point).
Proof.
  unfold IsFaultPoint, injected_error. rewrite bool_decide_eq_true, !elem_of_cons, elem_of_nil.
  repeat case_bool_decide; subst; split; intros; naive_solver.
Qed.
