(* ===== verification/Fs.v ===== *)
(** * The database directory

    The operating-system calls the storage code makes on one flat directory
    ([os.OpenFile], [Create], [Open], [ReadFile], [Rename], [Remove],
    [Truncate], [ReadDir]) and [SyncDir] of internal/fs/fs.go, as a state with
    crashes, and the monad in which the code over it is written.

    Directory entries and file contents are separate, as in POSIX: a file is an
    inode (see GoIO.v for its content and durable prefix); names point to
    inodes.  Until the directory is synced, a crash may bring back any of the
    states its entries went through since the last sync, in the order in which
    they were made (metadata journaling).  Every call may fail; a failing call
    changes nothing. *)
From S2P Require Import Prelude.
From S2P Require Import Errors.
From S2P Require Import Keys.
From S2P Require Import GoSort.
From S2P Require Import GoIO.
From S2P Require Import Crashhook.

(** A directory state: names to inodes. *)
Abbreviation dirents := (gmap bytes nat).

Record Fs := mkFs {
  inodes : gmap nat File;
  live : dirents;             (* what the running process sees *)
  unsynced : list dirents;    (* earlier states a crash may bring back, newest first *)
  next_ino : nat;
  call_faults : list fault;   (* outcomes of the calls on the directory *)
  new_faults : nat -> list fault  (* outcomes of the calls on the files still to be created *)
}.

(** [w_trace] is every state the disk has gone through, newest first;
    [w_fault] the fault point armed in the process (internal/crashhook), until it
    has fired. *)
Record World := mkWorld { w_fs : Fs; w_trace : list Fs; w_fault : option string }.

(** ** The monad

    A program reads and changes the world; [None] is a run-time panic. *)
Definition io (A : Type) : Type := World -> option (A * World).

#[export] Instance io_ret : MRet io := fun A a w => Some (a, w).
#[export] Instance io_bind : MBind io :=
  fun A B k m w => match m w with Some (a, w) => k a w | None => None end.

Definition panic {A} : io A := fun _ => None.

(** A pure Go call: panics are panics, [(value, error)] becomes a result. *)
Definition call {A} (m : res A) : io (res A) :=
  match m with Panic => panic | Ok a => mret (Ok a) | Err e => mret (Err e) end.

(** A pure Go call without an error result. *)
Definition pure {A} (m : res A) : io A :=
  match m with Ok a => mret a | _ => panic end.

Definition set_fs (s : Fs) (w : World) : World := mkWorld s (s :: w_trace w) (w_fault w).

(** ** System calls *)
Definition os_ErrNotExist : error := OsError "file does not exist".

Definition with_faults (fl : list fault) (s : Fs) : Fs :=
  mkFs (inodes s) (live s) (unsynced s) (next_ino s) fl (new_faults s).

(** The outcome of the next call on the directory. *)
Definition next_call : io fault := fun w =>
  match call_faults (w_fs w) with
  | [] => Some (NoFault, w)
  | x :: xs => Some (x, mkWorld (with_faults xs (w_fs w)) (w_trace w) (w_fault w))
  end.

Definition change {A} (step : Fs -> A * Fs) : io A :=
  fun w => let '(a, s) := step (w_fs w) in Some (a, set_fs s w).

(** Run a call that fails with [what], or applies [step]. *)
Definition syscall {A} (what : string) (step : Fs -> res A * Fs) : io (res A) :=
  x ← next_call;
  match x with
  | Fail _ => mret (throw (OsError what))
  | NoFault => change step
  end.

Definition set_live (d : dirents) (s : Fs) : Fs :=
  mkFs (inodes s) d (live s :: unsynced s) (next_ino s) (call_faults s) (new_faults s).

Definition set_inode (i : nat) (f : File) (s : Fs) : Fs :=
  mkFs (<[i := f]> (inodes s)) (live s) (unsynced s) (next_ino s) (call_faults s) (new_faults s).

(** A new empty file under [name]. *)
Definition create (name : bytes) (s : Fs) : nat * Fs :=
  let i := next_ino s in
  let s := set_live (<[name := i]> (live s)) (set_inode i (mkFile [] 0 (new_faults s i)) s) in
  (i, mkFs (inodes s) (live s) (unsynced s) (S i) (call_faults s) (new_faults s)).

(** [os.OpenFile(name, O_CREATE|O_WRONLY|O_APPEND)]. *)
Definition os_OpenAppend (name : bytes) : io (res nat) :=
  syscall "open" (fun s =>
    match live s !! name with
    | Some i => (Ok i, s)
    | None => let '(i, s) := create name s in (Ok i, s)
    end).

(** [os.Create(name)], and [os.OpenFile] with [O_CREATE|O_TRUNC].  Truncating an
    existing file is modelled as putting a new empty one in its place: after a
    crash the old content may be back. *)
Definition os_Create (name : bytes) : io (res nat) :=
  syscall "open" (fun s => let '(i, s) := create name s in (Ok i, s)).

(** [os.Open(name)]. *)
Definition os_Open (name : bytes) : io (res nat) :=
  syscall "open" (fun s =>
    match live s !! name with Some i => (Ok i, s) | None => (throw os_ErrNotExist, s) end).

(** [os.ReadFile(name)]. *)
Definition os_ReadFile (name : bytes) : io (res bytes) :=
  syscall "read" (fun s =>
    match live s !! name ≫= fun i => inodes s !! i with
    | Some f => (Ok (f_content f), s)
    | None => (throw os_ErrNotExist, s)
    end).

(** [os.Stat(name)], of which the code only tests the error. *)
Definition os_Stat (name : bytes) : io (res unit) :=
  syscall "stat" (fun s => (if live s !! name then Ok tt else throw os_ErrNotExist, s)).

(** [os.Rename(from, to)]. *)
Definition os_Rename (from to : bytes) : io (res unit) :=
  syscall "rename" (fun s =>
    match live s !! from with
    | Some i => (Ok tt, set_live (<[to := i]> (delete from (live s))) s)
    | None => (throw os_ErrNotExist, s)
    end).

(** [os.Remove(name)]. *)
Definition os_Remove (name : bytes) : io (res unit) :=
  syscall "remove" (fun s =>
    match live s !! name with
    | Some _ => (Ok tt, set_live (delete name (live s)) s)
    | None => (throw os_ErrNotExist, s)
    end).

(** [os.ReadDir(dir)]: the names, sorted. *)
Definition os_ReadDir : io (res (list bytes)) :=
  syscall "readdir" (fun s => (Ok (insertion_sort (elements (dom (live s))) bytes_Compare), s)).

(** The directory as it is after a sync. *)
Definition sync_dirs (s : Fs) : Fs := mkFs (inodes s) (live s) [] (next_ino s) (call_faults s) (new_faults s).

(** [fs.SyncDir(dir)], whose [os.Open] and [Sync] may both fail. *)
Definition SyncDir : io (res unit) :=
  dir ← syscall "open" (fun s => (Ok tt, s));
  match dir with
  | Err e => mret (throw (Errorf "beachdb/fs: failed to open directory for sync" e))
  | Panic => panic
  | Ok _ =>
      r ← syscall "fsync" (fun s => (Ok tt, sync_dirs s));
      mret (map_err (Errorf "beachdb/fs: failed to sync directory") r)
  end.

(** A method of an open file, which may panic. *)
Definition on_file_res {A} (i : nat) (g : File -> res (A * File)) : io A := fun w =>
  match inodes (w_fs w) !! i with
  | Some f => match g f with
              | Ok (a, f) => Some (a, set_fs (set_inode i f (w_fs w)) w)
              | _ => None
              end
  | None => None
  end.

(** A method of an open file. *)
Definition on_file {A} (i : nat) (g : File -> A * File) : io A := fun w =>
  match inodes (w_fs w) !! i with
  | Some f => let '(a, f) := g f in Some (a, set_fs (set_inode i f (w_fs w)) w)
  | None => None
  end.

Definition f_write (i : nat) (p : bytes) : io (option error) :=
  on_file i (fun f => let '(f, _, err) := file_Write p f in (err, f)).
Definition f_sync (i : nat) : io (option error) :=
  on_file i (fun f => let '(f, err) := file_Sync f in (err, f)).
Definition f_close (i : nat) : io (option error) :=
  on_file i (fun f => let '(f, err) := file_Close f in (err, f)).

(** [os.Truncate(name, n)]. *)
Definition os_Truncate (name : bytes) (n : nat) : io (option error) :=
  r ← os_Open name;
  match r with
  | Err e => mret (Some e)
  | Panic => panic
  | Ok i => on_file i (fun f => let '(f, err) := file_Truncate n f in (err, f))
  end.

(** ** Reading files

    Where, if at all, the device fails when the file of inode [i] is read from
    the start ([stream_fails]) or at an offset ([bad_read]), and whether its size
    can be asked for. *)
Class Device := {
  stream_fails : nat -> option nat;
  stat_fails : nat -> bool;
  bad_read : nat -> Z -> Z -> bool
}.

Definition open_source `{!Device} (i : nat) : io Source :=
  on_file i (fun f => (mkSource (f_content f) (stream_fails i), f)).

(** ** Fault points (internal/crashhook/crashhook.go)

    [MaybeFault(point)]: the injected error, once, when the point is armed in the
    environment.  [CrashIfArmed] ends the process; the states it can leave behind are
    those of the trace. *)
Definition MaybeFault (point : string) : io (option error) := fun w =>
  if bool_decide (point = EmptyString) then Some (None, w)
  else if bool_decide (w_fault w = Some point)
  then Some (injected_error point, mkWorld (w_fs w) (w_trace w) None)
  else Some (None, w).

(** ** Crashes

    The entries of some state since the last sync of the directory; of every
    file, a prefix that contains what was synced; what is found after the crash
    is on the disk. *)
Record crash (s s' : Fs) : Prop := {
  crash_live : live s' ∈ live s :: unsynced s;
  crash_unsynced : unsynced s' = [];
  crash_next : next_ino s' = next_ino s;
  crash_dom i : inodes s !! i = None -> inodes s' !! i = None;
  crash_inode i f : inodes s !! i = Some f ->
    exists f', inodes s' !! i = Some f' /\ crash_image f (f_content f') /\ f_synced f' = length (f_content f')
}.

(** Names and inodes in order: nothing refers to an inode still to come. *)
Record wf_fs (s : Fs) : Prop := {
  wf_dirs d name i : d ∈ live s :: unsynced s -> d !! name = Some i -> is_Some (inodes s !! i);
  wf_next i : is_Some (inodes s !! i) -> (i < next_ino s)%nat;
  wf_synced i f : inodes s !! i = Some f -> (f_synced f <= length (f_content f))%nat
}.

Definition world (s : Fs) : World := mkWorld s [s] None.

(** The directory with nothing in it, on a disk with the given faults. *)
Definition empty_fs (faults : list fault) (nf : nat -> list fault) : Fs := mkFs ∅ ∅ [] 0 faults nf.

Lemma wf_empty faults nf : wf_fs (empty_fs faults nf).
Proof.
  split; cbn.
  - intros d name i Hd Hl. apply list_elem_of_singleton in Hd as ->. by rewrite lookup_empty in Hl.
  - intros i [f Hf]. by rewrite lookup_empty in Hf.
  - intros i f Hf. by rewrite lookup_empty in Hf.
Qed.

(** ** Reasoning about programs

    A disk on which nothing will fail. *)
Record calm (s : Fs) : Prop := {
  calm_calls : call_faults s = [];
  calm_files i f : inodes s !! i = Some f -> f_faults f = [];
  calm_new i : new_faults s i = []
}.

(** What a proof assumes of the calls of a program and shows of its panics: no
    call fails and none panics; calls may fail and none panics; anything goes. *)
Inductive mode := Calm | Faulty | Loose.

(** [triple md P m Q I]: from a disk satisfying [P] (and calm, in mode [Calm]) the
    program does not panic (except in mode [Loose]), ends with a result and a disk
    satisfying [Q], and every state the disk goes through satisfies [I]. *)
Definition triple {A} (md : mode) (P : Fs -> Prop) (m : io A) (Q : A -> Fs -> Prop) (I : Fs -> Prop) : Prop :=
  forall w, (md = Calm -> calm (w_fs w) /\ w_fault w = None) -> P (w_fs w) -> Forall I (w_trace w) ->
    match m w with
    | Some (a, w') =>
        (md = Calm -> calm (w_fs w') /\ w_fault w' = None) /\ Q a (w_fs w') /\ Forall I (w_trace w')
    | None => md = Loose
    end.

Section Triples.
Context (md : mode).

Lemma triple_run {A} (m : io A) P Q I s :
  md <> Loose -> (md = Calm -> calm s) -> triple md P m Q I -> P s -> I s ->
  exists a w, m (world s) = Some (a, w) /\ Q a (w_fs w) /\ Forall I (w_trace w).
Proof.
  intros Hmd Hc H HP HI. specialize (H (world s)). destruct (m (world s)) as [[a w]|].
  - destruct H as (_ & HQ & HT); [by auto|done|by apply Forall_singleton|]. by exists a, w.
  - exfalso. apply Hmd, H; [by auto|done|by apply Forall_singleton].
Qed.

Lemma triple_ret {A} (a : A) (P : Fs -> Prop) (Q : A -> Fs -> Prop) I :
  (forall s, P s -> Q a s) -> triple md P (mret a) Q I.
Proof. intros H w Hc HP HI. cbn. auto. Qed.

Lemma triple_bind {A B} (m : io A) (k : A -> io B) P (Q : A -> Fs -> Prop) (R : B -> Fs -> Prop) I :
  triple md P m Q I -> (forall a, triple md (Q a) (k a) R I) -> triple md P (mbind k m) R I.
Proof.
  intros Hm Hk w Hc HP HI. specialize (Hm w Hc HP HI). unfold mbind, io_bind.
  destruct (m w) as [[a w1]|]; [|done]. destruct Hm as (Hc1 & HQ & HI1). by apply Hk.
Qed.

Lemma triple_conseq {A} (m : io A) (P P' : Fs -> Prop) (Q Q' : A -> Fs -> Prop) I :
  (forall s, P s -> P' s) -> (forall a s, Q' a s -> Q a s) -> triple md P' m Q' I -> triple md P m Q I.
Proof.
  intros HP HQ Hm w Hc HPw HI. specialize (Hm w Hc (HP _ HPw) HI).
  destruct (m w) as [[a w']|]; [|done]. destruct Hm as (? & ? & ?). auto.
Qed.

Lemma triple_pre {A} (m : io A) (P P' : Fs -> Prop) (Q : A -> Fs -> Prop) I :
  (forall s, P s -> P' s) -> triple md P' m Q I -> triple md P m Q I.
Proof. intros HP. by apply triple_conseq. Qed.

Lemma triple_post {A} (m : io A) (P : Fs -> Prop) (Q Q' : A -> Fs -> Prop) I :
  (forall a s, Q' a s -> Q a s) -> triple md P m Q' I -> triple md P m Q I.
Proof. intros HQ. by apply triple_conseq. Qed.

(** Facts that do not mention the disk come out of a precondition. *)
Lemma triple_pure {A} (m : io A) (X : Prop) (P : Fs -> Prop) (Q : A -> Fs -> Prop) I :
  (X -> triple md P m Q I) -> triple md (fun s => X /\ P s) m Q I.
Proof. intros H w Hc [HX HP] HI. by apply H. Qed.

Lemma triple_exists {A B} (m : io A) (P : B -> Fs -> Prop) (Q : A -> Fs -> Prop) I :
  (forall b, triple md (P b) m Q I) -> triple md (fun s => exists b, P b s) m Q I.
Proof. intros H w Hc [b HP] HI. by apply (H b). Qed.

Lemma triple_false {A} (m : io A) (P : Fs -> Prop) (Q : A -> Fs -> Prop) I :
  (forall s, ~ P s) -> triple md P m Q I.
Proof. intros H w _ HP. by destruct (H _ HP). Qed.

(** A panic ends a program of which nothing is asked. *)
Lemma triple_panic {A} P (Q : A -> Fs -> Prop) I : md = Loose -> triple md P panic Q I.
Proof. by intros Hmd w _ _ _. Qed.

Lemma triple_change {A} (step : Fs -> A * Fs) P (Q : A -> Fs -> Prop) I :
  (forall s, P s -> let '(a, s') := step s in Q a s' /\ I s' /\ (md = Calm -> calm s -> calm s')) -> triple md P (change step) Q I.
Proof.
  intros H w Hc HP HI. specialize (H _ HP). unfold change.
  destruct (step (w_fs w)) as [a s']. destruct H as (HQ & HI' & Hc'). split_and!; [|done|by apply Forall_cons].
  intros Hmd. destruct (Hc Hmd). cbn. auto.
Qed.

(** Predicates that do not look at the faults to come. *)
Definition fault_blind (P : Fs -> Prop) : Prop := forall fl s, P s -> P (with_faults fl s).

(** A system call either fails and changes nothing, or takes its step. *)
Lemma triple_syscall {A} what (step : Fs -> res A * Fs) P (Q : res A -> Fs -> Prop) I :
  fault_blind P -> (md <> Calm -> forall s, P s -> Q (throw (OsError what)) s) ->
  (forall s, P s -> let '(a, s') := step s in Q a s' /\ I s' /\ (md = Calm -> calm s -> calm s')) ->
  triple md P (syscall what step) Q I.
Proof.
  intros Hb Herr Hstep. unfold syscall.
  eapply (triple_bind _ _ _ (fun x s => P s /\ (md = Calm -> x = NoFault))).
  - intros w Hc HP HI. unfold next_call. destruct (call_faults (w_fs w)) as [|x xs] eqn:E.
    + by split_and!.
    + split_and!; [|by apply Hb| |done]; intros Hmd; destruct (Hc Hmd) as [[? _ _] _]; congruence.
  - intros [|n]; [apply triple_change; intros s [HP _]; by apply Hstep|].
    apply triple_ret. intros s [HP Hx]. apply Herr; [|done]. intros Hmd. by specialize (Hx Hmd).
Qed.

Lemma triple_on_file {A} i (g : File -> A * File) P (Q : A -> Fs -> Prop) I :
  (forall s, P s -> exists f, inodes s !! i = Some f /\
     ((md = Calm -> f_faults f = []) -> let '(a, f') := g f in
       Q a (set_inode i f' s) /\ I (set_inode i f' s) /\ (md = Calm -> f_faults f' = []))) ->
  triple md P (on_file i g) Q I.
Proof.
  intros H w Hc HP HI. destruct (H _ HP) as (f & Hf & Hg). unfold on_file. rewrite Hf.
  assert (md = Calm -> f_faults f = []) as Hff by (intros Hmd; destruct (Hc Hmd) as [[_ Hfs _] _]; by eapply Hfs).
  specialize (Hg Hff). destruct (g f) as [a f']. destruct Hg as (HQ & HI' & Hf').
  split_and!; [|done|by apply Forall_cons].
  intros Hmd. destruct (Hc Hmd) as [[Hc1 Hc2 Hc3] Hc4]. split; [|done]. split; [done| |done].
  cbn. intros j g' Hj. destruct (decide (i = j)) as [->|].
  - rewrite lookup_insert_eq in Hj. simplify_eq. auto.
  - rewrite lookup_insert_ne in Hj by done. by eapply Hc2.
Qed.

(** A method of an open file that may panic, when it does not. *)
Lemma triple_on_file_res {A} i (g : File -> res (A * File)) P (Q : A -> Fs -> Prop) I :
  (forall s, P s -> exists f, inodes s !! i = Some f /\
     ((md = Calm -> f_faults f = []) -> match g f with
      | Ok (a, f') => Q a (set_inode i f' s) /\ I (set_inode i f' s) /\ (md = Calm -> f_faults f' = [])
      | _ => md = Loose
      end)) ->
  triple md P (on_file_res i g) Q I.
Proof.
  intros H w Hc HP HI. destruct (H _ HP) as (f & Hf & Hg). unfold on_file_res. rewrite Hf.
  assert (md = Calm -> f_faults f = []) as Hff by (intros Hmd; destruct (Hc Hmd) as [[_ Hfs _] _]; by eapply Hfs).
  specialize (Hg Hff). destruct (g f) as [[a f']| |]; [|done|done]. destruct Hg as (HQ & HI' & Hf').
  split_and!; [|done|by apply Forall_cons].
  intros Hmd. destruct (Hc Hmd) as [[Hc1 Hc2 Hc3] Hc4]. split; [|done]. split; [done| |done].
  cbn. intros j g' Hj. destruct (decide (i = j)) as [->|].
  - rewrite lookup_insert_eq in Hj. simplify_eq. auto.
  - rewrite lookup_insert_ne in Hj by done. by eapply Hc2.
Qed.

Lemma triple_call {A} (m : res A) P (Q : res A -> Fs -> Prop) I :
  (forall s, P s -> match m with Panic => md = Loose | _ => Q m s end) -> triple md P (call m) Q I.
Proof.
  intros H w Hc HP HI. specialize (H _ HP). destruct m; cbn; auto.
Qed.

Lemma triple_pure_call {A} (m : res A) P (Q : A -> Fs -> Prop) I :
  (forall s, P s -> match m with Ok a => Q a s | _ => md = Loose end) -> triple md P (pure m) Q I.
Proof.
  intros H w Hc HP HI. specialize (H _ HP). destruct m; cbn; auto.
Qed.

Lemma triple_MaybeFault point (P : Fs -> Prop) I :
  triple md P (MaybeFault point) (fun x s => P s /\ (md = Calm -> x = None)) I.
Proof.
  intros w Hc HP HI. unfold MaybeFault. case_bool_decide; [|case_bool_decide as E]; split_and!; cbn; try done;
    intros Hmd; destruct (Hc Hmd); congruence.
Qed.

(** *** Calls that change nothing *)
Lemma triple_os_Open name P (Q : res nat -> Fs -> Prop) (I : Fs -> Prop) :
  fault_blind P -> (forall s, P s -> I s) ->
  (md <> Calm -> forall s, P s -> Q (throw (OsError "open")) s) ->
  (forall s, P s -> Q (match live s !! name with Some i => Ok i | None => throw os_ErrNotExist end) s) ->
  triple md P (os_Open name) Q I.
Proof.
  intros Hb HI He Hq. apply triple_syscall; [done|done|]. intros s HP. specialize (Hq s HP). specialize (HI s HP).
  destruct (live s !! name); auto.
Qed.
End Triples.

(** What does not panic may be used where panics are allowed. *)
Lemma triple_faulty {A} md (m : io A) P Q I : md <> Calm -> triple Faulty P m Q I -> triple md P m Q I.
Proof.
  intros Hmd H w _ HP HI. specialize (H w). destruct (m w) as [[a w']|]; [|by discriminate H].
  destruct H as (_ & HQ & HT); [done|done|done|]. by split_and!.
Qed.

Lemma calm_set_live d s : calm s -> calm (set_live d s).
Proof. by intros []. Qed.

Lemma calm_create name s i s' : create name s = (i, s') -> calm s -> calm s'.
Proof.
  intros [= <- <-] [Hc Hf Hn]. split; [done| |done]. cbn. intros j f Hj. destruct (decide (next_ino s = j)) as [<-|].
  - rewrite lookup_insert_eq in Hj. injection Hj as <-. apply Hn.
  - rewrite lookup_insert_ne in Hj by done. by eapply Hf.
Qed.

Lemma file_Write_calm p f : f_faults f = [] -> (file_Write p f).2 = None /\ f_faults (file_Write p f).1.1 = [].
Proof. intros H. unfold file_Write, next_fault. by rewrite H. Qed.

Lemma file_Sync_calm f : f_faults f = [] -> (file_Sync f).2 = None /\ f_faults (file_Sync f).1 = [].
Proof. intros H. unfold file_Sync, next_fault. by rewrite H. Qed.

Lemma file_Close_calm f : f_faults f = [] -> (file_Close f).2 = None /\ f_faults (file_Close f).1 = [].
Proof. intros H. unfold file_Close, next_fault. by rewrite H. Qed.

Lemma file_Truncate_calm n f : f_faults f = [] -> (file_Truncate n f).2 = None /\ f_faults (file_Truncate n f).1 = [].
Proof. intros H. unfold file_Truncate, next_fault. by rewrite H. Qed.

(** ** What a crash can leave under a name *)
Definition content_of (name : bytes) (s : Fs) : option bytes :=
  i ← live s !! name; f_content <$> inodes s !! i.

(** Whatever state of the directory a crash may bring back: the file under
    [name] satisfies [F], or there is none and [N]. *)
Definition named (name : bytes) (N : Prop) (F : File -> Prop) (s : Fs) : Prop :=
  forall d, d ∈ live s :: unsynced s ->
    match d !! name with
    | None => N
    | Some i => exists f, inodes s !! i = Some f /\ F f
    end.

(** [name] is fully synced (or absent), and [P] of its content. *)
Definition synced_with (P : option bytes -> Prop) (f : File) : Prop :=
  f_synced f = length (f_content f) /\ P (Some (f_content f)).

Definition holds (name : bytes) (P : option bytes -> Prop) : Fs -> Prop :=
  named name (P None) (synced_with P).

(** No state of the directory has [name] point to [i]. *)
Definition unref (name : bytes) (i : nat) (s : Fs) : Prop :=
  forall d, d ∈ live s :: unsynced s -> d !! name <> Some i.

(** What a crash makes of a file that satisfies [F]. *)
Definition after_crash (F : File -> Prop) (f' : File) : Prop :=
  exists f, F f /\ crash_image f (f_content f') /\ f_synced f' = length (f_content f').

Lemma named_crash name N F s s' : named name N F s -> crash s s' -> named name N (after_crash F) s'.
Proof.
  intros H [Hl Hu _ _ Hi] d Hd. rewrite Hu in Hd. apply list_elem_of_singleton in Hd as ->.
  specialize (H _ Hl). destruct (live s' !! name) as [i|]; [|done].
  destruct H as (f & E & HF). destruct (Hi i f E) as (f' & E' & Himg & Hs').
  exists f'. split; [done|]. by exists f.
Qed.

Lemma named_mono name (N N' : Prop) (F F' : File -> Prop) s :
  (N -> N') -> (forall f, F f -> F' f) -> named name N F s -> named name N' F' s.
Proof.
  intros HN HF H d Hd. specialize (H d Hd). destruct (d !! name); [|auto].
  destruct H as (f & ? & ?); eauto.
Qed.

Lemma synced_crash P f' : after_crash (synced_with P) f' -> synced_with P f'.
Proof.
  intros (f & [Hs HP] & [Hpre Hlen] & Hs'). rewrite Hs in Hlen.
  apply prefix_length in Hpre as Hl'. apply prefix_length_eq in Hpre; [|lia].
  split; [done|]. by rewrite Hpre.
Qed.

Lemma holds_crash name P s s' : holds name P s -> crash s s' -> holds name P s'.
Proof. intros H Hc. eapply named_mono; [done|apply synced_crash|by eapply named_crash]. Qed.

Lemma holds_content name P s : holds name P s -> P (content_of name s).
Proof.
  intros H. specialize (H (live s) ltac:(by left)). unfold content_of.
  destruct (live s !! name) as [i|]; [|done]. destruct H as (f & E & _ & HP). cbn. by rewrite E.
Qed.

Lemma holds_mono name (P Q : option bytes -> Prop) s : (forall c, P c -> Q c) -> holds name P s -> holds name Q s.
Proof. intros HPQ. apply named_mono; [apply HPQ|]. intros f [? ?]. by split; [|apply HPQ]. Qed.

(** Steps that keep it: changes of the entries that leave the name alone, and
    changes of files the name never points to. *)
Lemma named_set_live name N F d s :
  d !! name = live s !! name -> named name N F s -> named name N F (set_live d s).
Proof.
  intros Hd H d' Hd'. cbn in Hd'. apply elem_of_cons in Hd' as [->|Hd']; [|by apply H].
  rewrite Hd. apply H. by left.
Qed.

Lemma named_set_inode name N F i f s : unref name i s -> named name N F s -> named name N F (set_inode i f s).
Proof.
  intros Hu H d Hd. specialize (H d Hd). specialize (Hu d Hd). destruct (d !! name) as [j|]; [|done].
  destruct H as (g & E & ?). exists g. split; [|done]. cbn. rewrite lookup_insert_ne by congruence. done.
Qed.

Lemma unref_set_live name i d s :
  d !! name <> Some i -> unref name i s -> unref name i (set_live d s).
Proof. intros Hd H d' Hd'. cbn in Hd'. apply elem_of_cons in Hd' as [->|Hd']; [done|by apply H]. Qed.

(** [name] is made to point to a file. *)
Lemma named_link name N (F : File -> Prop) d i f s :
  d !! name = Some i -> inodes s !! i = Some f -> F f -> named name N F s -> named name N F (set_live d s).
Proof.
  intros Hd Hi Hf H d' Hd'. cbn in Hd'. apply elem_of_cons in Hd' as [->|Hd'].
  - rewrite Hd. by exists f.
  - by apply H.
Qed.

Lemma fault_blind_named name N F : fault_blind (named name N F).
Proof. intros fl s H. exact H. Qed.

(** ** Well-formedness is kept *)
Lemma wf_blind : fault_blind wf_fs.
Proof. intros fl s [? ? ?]. by split. Qed.

Lemma wf_set_live d s :
  wf_fs s -> (forall name i, d !! name = Some i -> is_Some (inodes s !! i)) -> wf_fs (set_live d s).
Proof.
  intros [Hd Hn Hs] H. split; [|done|done]. cbn. intros d' name i Hd' E.
  apply elem_of_cons in Hd' as [->|Hd']; eauto.
Qed.

Lemma wf_set_inode i f s :
  wf_fs s -> is_Some (inodes s !! i) -> (f_synced f <= length (f_content f))%nat -> wf_fs (set_inode i f s).
Proof.
  intros [Hd Hn Hs] Hi Hf. split; cbn.
  - intros d name j Hd' E. destruct (decide (i = j)) as [->|];
      [rewrite lookup_insert_eq|rewrite lookup_insert_ne by done]; eauto.
  - intros j Hj. apply Hn. destruct (decide (i = j)) as [->|]; [done|]. by rewrite lookup_insert_ne in Hj by done.
  - intros j g Hj. destruct (decide (i = j)) as [->|].
    + rewrite lookup_insert_eq in Hj. by simplify_eq.
    + rewrite lookup_insert_ne in Hj by done. eauto.
Qed.

Lemma wf_create name s i s' : wf_fs s -> create name s = (i, s') -> wf_fs s'.
Proof.
  intros [Hd Hn Hs] [= <- <-]. split; cbn.
  - intros d nm j Hin E. assert (d = <[name := next_ino s]> (live s) \/ d ∈ live s :: unsynced s) as [->|Hin'].
    { apply elem_of_cons in Hin as [?|?]; auto. }
    + destruct (decide (name = nm)) as [->|].
      * rewrite lookup_insert_eq in E. simplify_eq. by rewrite lookup_insert_eq.
      * rewrite lookup_insert_ne in E by done. destruct (decide (next_ino s = j)) as [<-|];
          [by rewrite lookup_insert_eq|rewrite lookup_insert_ne by done]. eapply Hd; [by left|done].
    + destruct (decide (next_ino s = j)) as [<-|];
        [by rewrite lookup_insert_eq|rewrite lookup_insert_ne by done]. by eapply Hd.
  - intros j Hj. destruct (decide (next_ino s = j)) as [<-|]; [lia|].
    rewrite lookup_insert_ne in Hj by done. specialize (Hn j Hj). lia.
  - intros j g Hj. destruct (decide (next_ino s = j)) as [<-|].
    + rewrite lookup_insert_eq in Hj. by simplify_eq.
    + rewrite lookup_insert_ne in Hj by done. eauto.
Qed.

Lemma create_fresh name nm s i s' :
  wf_fs s -> create name s = (i, s') -> nm <> name -> unref nm i s'.
Proof.
  intros Hwf [= <- <-] Hne d Hd E. cbn in Hd.
  assert (d !! nm = Some (next_ino s) -> d ∈ live s :: unsynced s -> False) as Hno.
  { intros E' Hin. pose proof (wf_dirs s Hwf d nm _ Hin E') as Hi. apply (wf_next s Hwf) in Hi. lia. }
  apply elem_of_cons in Hd as [->|Hd]; [|by apply Hno].
  rewrite lookup_insert_ne in E by done. apply (wf_dirs s Hwf _ _ _ ltac:(by left)) in E.
  apply (wf_next s Hwf) in E. lia.
Qed.

Lemma named_create name nm N F s i s' :
  wf_fs s -> create name s = (i, s') -> nm <> name -> named nm N F s -> named nm N F s'.
Proof.
  intros Hwf Hc Hne H. pose proof (create_fresh _ _ _ _ _ Hwf Hc Hne) as Hu. injection Hc as <- <-.
  intros d Hd. specialize (Hu d Hd). cbn in Hd.
  assert (match d !! nm with None => N | Some i => exists f, inodes s !! i = Some f /\ F f end) as Hdd.
  { apply elem_of_cons in Hd as [->|Hd]; [|by apply H]. rewrite lookup_insert_ne by done. apply H. by left. }
  destruct (d !! nm) as [j|]; [|done]. destruct Hdd as (f & E & ?). exists f. split; [|done].
  cbn. by rewrite lookup_insert_ne by congruence.
Qed.

Lemma wf_crash s s' : wf_fs s -> crash s s' -> wf_fs s'.
Proof.
  intros [Hd Hn Hs] [Hl Hu Hx Hno Hi].
  assert (forall i, is_Some (inodes s' !! i) -> is_Some (inodes s !! i)) as Hback.
  { intros i Hsome. destruct (inodes s !! i) eqn:E; [by eexists|]. rewrite Hno in Hsome by done. done. }
  split.
  - intros d name i Hin E. rewrite Hu in Hin. apply list_elem_of_singleton in Hin as ->.
    destruct (Hd _ _ _ Hl E) as [f Hf]. destruct (Hi i f Hf) as (f' & ? & _). by eexists.
  - intros i Hsome. rewrite Hx. auto.
  - intros i f' E. destruct (Hback i ltac:(by eexists)) as [f Hf].
    destruct (Hi i f Hf) as (g & E' & _ & Hg). simplify_eq. lia.
Qed.
