(* ===== verification/Dirs.v ===== *)
(** * Creating directories durably (internal/fs/fs.go)

    [MkdirAllAndSync] on a tree of directories of which a crash keeps only what was
    synced.  A path is the list of its names, the deepest first; [[]] is the
    directory the cleaned path starts from, which is its own parent and is there.
    Every call may fail. *)
From S2P Require Import Prelude.
From S2P Require Import Errors.
From S2P Require Import Fs.

Definition Path : Type := list bytes.

(** [filepath.Dir] of a cleaned path. *)
Definition filepath_Dir (path : Path) : Path := match path with [] => [] | _ :: parent => parent end.

(** The directories, the other files, the directories whose entry in the parent and
    those whose own inode are on the disk, and the calls that will fail. *)
Record Tree := mkTree {
  t_dirs : gset Path;
  t_files : gset Path;
  t_entries : gset Path;
  t_nodes : gset Path;
  t_failing : list bool
}.

(** ** Calls *)
Definition with_failing (l : list bool) (t : Tree) : Tree := mkTree (t_dirs t) (t_files t) (t_entries t) (t_nodes t) l.

Definition attempt {A} (what : string) (step : Tree -> res A * Tree) (t : Tree) : res A * Tree :=
  match t_failing t with
  | true :: l => (throw (OsError what), with_failing l t)
  | false :: l => step (with_failing l t)
  | [] => step t
  end.

(** Some strict ancestor is not a directory. *)
Fixpoint below_file (t : Tree) (path : Path) : bool :=
  match path with [] => false | _ :: parent => bool_decide (parent ∈ t_files t) || below_file t parent end.

(** [os.Stat]: whether it is a directory. *)
Definition os_StatDir (path : Path) : Tree -> res bool * Tree :=
  attempt "stat" (fun t =>
    (if bool_decide (path ∈ t_dirs t) then Ok true
     else if bool_decide (path ∈ t_files t) then Ok false
     else if below_file t path then throw (OsError "not a directory")
     else throw os_ErrNotExist, t)).

Definition os_Mkdir (path : Path) : Tree -> res unit * Tree :=
  attempt "mkdir" (fun t =>
    if bool_decide (path ∈ t_dirs t) || bool_decide (path ∈ t_files t) then (throw (OsError "file exists"), t)
    else if negb (bool_decide (filepath_Dir path ∈ t_dirs t)) then (throw os_ErrNotExist, t)
    else (Ok tt, mkTree ({[path]} ∪ t_dirs t) (t_files t) (t_entries t) (t_nodes t) (t_failing t))).

(** The last steps of [os.MkdirAll]: the call, and the look at what is there if it
    fails. *)
Definition mkdir_or_there (path : Path) (t : Tree) : res unit * Tree :=
  let '(made, t) := os_Mkdir path t in
  match made with
  | Ok _ => (Ok tt, t)
  | failed => match os_StatDir path t with (Ok true, t) => (Ok tt, t) | (_, t) => (failed, t) end
  end.

(** [os.MkdirAll] of the standard library. *)
Fixpoint os_MkdirAll (path : Path) (t : Tree) : res unit * Tree :=
  let '(info, t) := os_StatDir path t in
  match info with
  | Ok true => (Ok tt, t)
  | Ok false => (throw (OsError "not a directory"), t)
  | _ =>
      let '(above, t) := match path with [] => (Ok tt, t) | _ :: parent => os_MkdirAll parent t end in
      match above with
      | Ok _ => mkdir_or_there path t
      | failed => (failed, t)
      end
  end.

(** [fsync] of a directory: the entries in it, and its own inode. *)
Definition fsync_dir (path : Path) (t : Tree) : Tree :=
  mkTree (t_dirs t) (t_files t) (filter (fun q => q <> [] /\ filepath_Dir q = path) (t_dirs t) ∪ t_entries t) ({[path]} ∪ t_nodes t)
    (t_failing t).

(** ** internal/fs/fs.go *)
Definition SyncDir (path : Path) (t : Tree) : res unit * Tree :=
  let '(dir, t) := attempt "open" (fun t => (if bool_decide (path ∈ t_dirs t) then Ok tt else throw os_ErrNotExist, t)) t in
  match dir with
  | Ok _ =>
      let '(r, t) := attempt "fsync" (fun t => (Ok tt, fsync_dir path t)) t in
      (map_err (Errorf "beachdb/fs: failed to sync directory") r, t)
  | failed => (map_err (Errorf "beachdb/fs: failed to open directory for sync") failed, t)
  end.

(** The loop of [missingDirs], before the reversal.  The path is clean, so it is not
    empty as a string. *)
Fixpoint missing_loop (current : Path) (created : list Path) (t : Tree) : res (list Path) * Tree :=
  let '(info, t) := os_StatDir current t in
  match info with
  | Ok true => (Ok created, t)
  | Ok false => (throw (ErrorText "beachdb/fs: path exists but is not a directory"), t)
  | Err err =>
      if negb (errors_Is err os_ErrNotExist) then (throw (Errorf "beachdb/fs: failed to stat directory" err), t)
      else
        let created := created ++ [current] in
        match current with [] => (Ok created, t) | _ :: parent => missing_loop parent created t end
  | Panic => (Panic, t)
  end.

Definition missingDirs (path : Path) (t : Tree) : res (list Path) * Tree :=
  let '(created, t) := missing_loop path [] t in
  (created ← created; Ok (reverse created), t).

Fixpoint sync_created (created : list Path) (t : Tree) : res unit * Tree :=
  match created with
  | [] => (Ok tt, t)
  | dir :: created =>
      let '(r, t) := SyncDir (filepath_Dir dir) t in
      match map_err (Errorf "beachdb/fs: failed to sync parent directory") r with
      | Ok _ =>
          let '(r, t) := SyncDir dir t in
          match map_err (Errorf "beachdb/fs: failed to sync created directory") r with
          | Ok _ => sync_created created t
          | failed => (failed, t)
          end
      | failed => (failed, t)
      end
  end.

Definition MkdirAllAndSync (path : Path) (t : Tree) : res unit * Tree :=
  let '(created, t) := missingDirs path t in
  match created with
  | Err err => (throw err, t)
  | Panic => (Panic, t)
  | Ok created =>
      let '(made, t) := os_MkdirAll path t in
      match map_err (Errorf "beachdb/fs: failed to create directory") made with
      | Ok _ => if (length created =? 0)%nat then (Ok tt, t) else sync_created created t
      | failed => (failed, t)
      end
  end.

(** ** Crashes

    [keep] may be what is left: a directory survives in a surviving parent if both
    its entry and its inode are on the disk, and may survive otherwise. *)
Record crash (t : Tree) (keep : gset Path) : Prop := {
  crash_root : [] ∈ keep;
  crash_old : keep ⊆ t_dirs t;
  crash_above n p : n :: p ∈ keep -> p ∈ keep;
  crash_synced n p : p ∈ keep -> n :: p ∈ t_dirs t -> n :: p ∈ t_entries t -> n :: p ∈ t_nodes t -> n :: p ∈ keep
}.

(** Directories are in directories. *)
Record tree_ok (t : Tree) : Prop := {
  to_root : [] ∈ t_dirs t;
  to_above n p : n :: p ∈ t_dirs t -> p ∈ t_dirs t
}.

(** Of the directories that lead to [path], those that exist are on the disk. *)
Definition base_durable (path : Path) (t : Tree) : Prop :=
  forall q, q `suffix_of` path -> q <> [] -> q ∈ t_dirs t -> q ∈ t_entries t /\ q ∈ t_nodes t.

(** ** What is created *)
Lemma above_all t p q : tree_ok t -> p ∈ t_dirs t -> q `suffix_of` p -> q ∈ t_dirs t.
Proof.
  intros Ht Hp [l ->]. induction l as [|n l IH]; [done|]. apply IH. by eapply to_above.
Qed.

(** A call that only looks. *)
Definition same_tree (t t' : Tree) : Prop := exists l, t' = with_failing l t.

(** The tree has grown, and nothing synced is forgotten. *)
Definition grown (t t' : Tree) : Prop :=
  t_dirs t ⊆ t_dirs t' /\ t_entries t ⊆ t_entries t' /\ t_nodes t ⊆ t_nodes t'.

#[export] Instance grown_preorder : PreOrder grown.
Proof. split; [by intros t|]. intros t1 t2 t3 (?&?&?) (?&?&?). split_and!; by etrans. Qed.

Lemma attempt_inv {A} what (step : Tree -> res A * Tree) t r t' :
  attempt what step t = (r, t') ->
  (exists l, r = throw (OsError what) /\ t' = with_failing l t) \/ (exists l, step (with_failing l t) = (r, t')).
Proof.
  unfold attempt. destruct (t_failing t) as [|[] l] eqn:E; [right; exists []|intros [= <- <-]; left; by eexists|intros H; right; by eexists].
  destruct t. cbn in *. by subst.
Qed.

Lemma StatDir_result path t r t' :
  os_StatDir path t = (r, t') -> same_tree t t' /\
    match r with Ok b => b = true -> path ∈ t_dirs t | Err e => errors_Is e os_ErrNotExist = true -> path ∉ t_dirs t | Panic => False end.
Proof.
  unfold os_StatDir. intros [(l & -> & ->)|[l [= <- <-]]]%attempt_inv.
  - split; [by exists l|done].
  - split; [by exists l|]. change (t_dirs (with_failing l t)) with (t_dirs t).
    case_bool_decide; [done|]. case_bool_decide; [done|]. by destruct (below_file _ _).
Qed.

Lemma suffix_cons_cases (n : bytes) path q : q `suffix_of` n :: path -> q = n :: path \/ q `suffix_of` path.
Proof. destruct q as [|x q]; [right; apply suffix_nil|apply suffix_cons_inv]. Qed.

Lemma missing_loop_ok path created t l t' :
  tree_ok t -> missing_loop path created t = (Ok l, t') -> same_tree t t' /\
    (forall q, q ∈ l <-> q ∈ created \/ (q `suffix_of` path /\ q ∈ l /\ q ∉ t_dirs t)) /\
    (forall q, q `suffix_of` path -> q ∈ t_dirs t \/ q ∈ l) /\ (forall q, q ∈ created -> q ∈ l).
Proof.
  intros Ht. revert created t Ht. induction path as [|n path IH]; intros created t Ht; cbn [missing_loop];
    destruct (os_StatDir _ t) as [info t1] eqn:Es; apply StatDir_result in Es as [[fl ->] Hinfo].
  - destruct info as [[]|err|]; [|done| |done].
    + intros [= <- <-]. split; [by exists fl|]. split_and!; [naive_solver| |done].
      intros q Hq. left. apply suffix_nil_inv in Hq as ->. apply Ht.
    + destruct (errors_Is err os_ErrNotExist); [|done]. exfalso. apply Hinfo; [done|]. apply Ht.
  - destruct info as [[]|err|]; [|done| |done].
    + intros [= <- <-]. split; [by exists fl|]. split_and!; [naive_solver| |done].
      intros q Hq. left. eapply above_all; [done| |done]. by apply Hinfo.
    + destruct (errors_Is err os_ErrNotExist) eqn:Ee; cbn [negb]; [|done]. intros H.
      assert (tree_ok (with_failing fl t)) as Ht1 by (by destruct Ht).
      apply IH in H as ([fl2 ->] & H1 & H2 & H3); [|done]. split; [by exists fl2|]. split_and!.
      * intros q. split; [|intros [Hq|(_ & Hq & _)]; [apply H3, elem_of_app; by left|done]].
        intros Hq. pose proof (proj1 (H1 q) Hq) as [[Hc|Hc%list_elem_of_singleton]%elem_of_app|(Hs & _ & Hn)]; [by left| |].
        -- subst. right. split_and!; [done|done|by apply Hinfo].
        -- right. split_and!; [by apply suffix_cons_r|done|done].
      * intros q Hq. apply suffix_cons_cases in Hq as [->|Hq].
        -- right. apply H3, elem_of_app. right. by apply list_elem_of_singleton.
        -- by apply H2.
      * intros q Hq. apply H3, elem_of_app. by left.
Qed.

Lemma Mkdir_result path t r t' :
  tree_ok t -> os_Mkdir path t = (r, t') -> tree_ok t' /\ grown t t' /\ (r = Ok tt -> path ∈ t_dirs t').
Proof.
  intros Ht. unfold os_Mkdir. intros [(l & -> & ->)|[l H]]%attempt_inv.
  - split_and!; [by destruct Ht|done|done].
  - change (t_dirs (with_failing l t)) with (t_dirs t) in H. change (t_files (with_failing l t)) with (t_files t) in H.
    destruct (_ || _); [|destruct (bool_decide (filepath_Dir path ∈ t_dirs t)) eqn:Ed]; injection H as <- <-;
      [split_and!; [by destruct Ht|done|done]| |split_and!; [by destruct Ht|done|done]].
    apply bool_decide_eq_true in Ed. split_and!; [|split_and!; cbn; set_solver|cbn; set_solver].
    destruct Ht as [Hr Ha]. split; cbn; [set_solver|]. intros n p [Hp|Hp]%elem_of_union; [|apply elem_of_union; right; by eapply Ha].
    apply elem_of_singleton in Hp as <-. apply elem_of_union. by right.
Qed.

Lemma StatDir_keeps path t r t' : tree_ok t -> os_StatDir path t = (r, t') -> tree_ok t' /\ grown t t' /\ (r = Ok true -> path ∈ t_dirs t').
Proof.
  intros Ht H. apply StatDir_result in H as [[l ->] H]. split_and!; [by destruct Ht|done|]. intros ->. by apply H.
Qed.

Lemma mkdir_or_there_result path t r t' :
  tree_ok t -> mkdir_or_there path t = (r, t') -> tree_ok t' /\ grown t t' /\ (r = Ok tt -> path ∈ t_dirs t').
Proof.
  intros Ht. unfold mkdir_or_there. destruct (os_Mkdir path t) as [made t1] eqn:Em.
  destruct (Mkdir_result _ _ _ _ Ht Em) as (Ht1 & G1 & H1). destruct (os_StatDir path t1) as [info t2] eqn:Es.
  destruct (StatDir_keeps _ _ _ _ Ht1 Es) as (Ht2 & G2 & H2). destruct made as [[]|e|]; [intros [= <- <-]; split_and!; auto|..];
    destruct info as [[]|e'|]; intros [= <- <-]; split_and!; auto; by etrans.
Qed.

Lemma MkdirAll_result path t r t' :
  tree_ok t -> os_MkdirAll path t = (r, t') -> tree_ok t' /\ grown t t' /\ (r = Ok tt -> path ∈ t_dirs t').
Proof.
  assert (forall path t t1 r t', tree_ok t1 -> grown t t1 -> mkdir_or_there path t1 = (r, t') ->
    tree_ok t' /\ grown t t' /\ (r = Ok tt -> path ∈ t_dirs t')) as Hlast.
  { clear. intros path t t1 r t' Ht G H. destruct (mkdir_or_there_result _ _ _ _ Ht H) as (? & ? & ?). split_and!; [done|by etrans|done]. }
  revert t r t'. induction path as [|n path IH]; intros t r t' Ht; cbn [os_MkdirAll];
    destruct (os_StatDir _ t) as [info t1] eqn:Es; apply StatDir_keeps in Es as (Ht1 & G1 & Hi); try done.
  - destruct info as [[]|e|]; [intros [= <- <-]; split_and!; auto|intros [= <- <-]; by split_and!|by apply Hlast|by apply Hlast].
  - destruct (os_MkdirAll path t1) as [above t2] eqn:Ea. destruct (IH _ _ _ Ht1 Ea) as (Ht2 & G2 & _).
    assert (grown t t2) as G by by etrans.
    destruct info as [[]|e|]; [intros [= <- <-]; split_and!; auto|intros [= <- <-]; by split_and!|..];
      destruct above as [[]|e'|]; try (by apply Hlast); intros [= <- <-]; by split_and!.
Qed.

Lemma SyncDir_result path t r t' :
  SyncDir path t = (r, t') -> t_dirs t' = t_dirs t /\ grown t t' /\
    (r = Ok tt -> path ∈ t_nodes t' /\ forall q, q ∈ t_dirs t -> q <> [] -> filepath_Dir q = path -> q ∈ t_entries t').
Proof.
  unfold SyncDir. destruct (attempt "open" _ t) as [r1 t1] eqn:E1. apply attempt_inv in E1 as [(l & -> & ->)|[l [= <- <-]]];
    [by intros [= <- <-]|]. case_bool_decide; [|by intros [= <- <-]].
  destruct (attempt "fsync" _ _) as [r2 t2] eqn:E2. apply attempt_inv in E2 as [(l2 & -> & ->)|[l2 [= <- <-]]]; intros [= <- <-]; [done|].
  split; [done|]. split; [split_and!; cbn; set_solver|]. intros _. cbn. split; [set_solver|]. intros q Hq Hne Hd.
  apply elem_of_union. left. by apply elem_of_filter.
Qed.

Lemma sync_created_ok created t t' :
  sync_created created t = (Ok tt, t') -> t_dirs t' = t_dirs t /\ grown t t' /\
    forall q, q ∈ created -> q ∈ t_dirs t -> q <> [] -> q ∈ t_entries t' /\ q ∈ t_nodes t'.
Proof.
  revert t. induction created as [|dir created IH]; intros t; cbn [sync_created].
  { intros [= <-]. split_and!; [done|done|]. intros q Hq. by apply not_elem_of_nil in Hq. }
  destruct (SyncDir (filepath_Dir dir) t) as [r1 t1] eqn:E1. apply SyncDir_result in E1 as (D1 & G1 & S1).
  destruct r1 as [[]|e|]; cbn [map_err]; [|done..].
  destruct (SyncDir dir t1) as [r2 t2] eqn:E2. apply SyncDir_result in E2 as (D2 & G2 & S2).
  destruct r2 as [[]|e|]; cbn [map_err]; [|done..]. intros H. apply IH in H as (D3 & G3 & S3).
  split; [by rewrite D3, D2|]. split; [by do 2 (etrans; [done|])|]. intros q [->|Hq]%elem_of_cons Hd Hne.
  - destruct (S1 eq_refl) as [_ He], (S2 eq_refl) as [Hn _]. destruct G2 as (_ & G2 & _), G3 as (_ & G3 & G3').
    split; [by apply G3, G2, He|by apply G3'].
  - apply S3; [done|by rewrite D2, D1|done].
Qed.

(** C13: directories are created durably.  When [MkdirAllAndSync] returns
    nil, and the directories that led to the path before are on the disk, then the
    path and all directories that lead to it survive every crash, whatever was
    missing before. *)
Theorem mkdir_all_and_sync_durable path t t' :
  tree_ok t -> base_durable path t -> MkdirAllAndSync path t = (Ok tt, t') ->
  forall keep, crash t' keep -> forall q, q `suffix_of` path -> q ∈ keep.
Proof.
  intros Ht Hb H keep Hk. unfold MkdirAllAndSync, missingDirs in H.
  destruct (missing_loop path [] t) as [[l|e|] t1] eqn:Em; cbn in H; [|done..].
  apply missing_loop_ok in Em as ([fl ->] & _ & Hall & _); [|done].
  destruct (os_MkdirAll path (with_failing fl t)) as [[[]|e|] t2] eqn:Ek; cbn in H; [|done..].
  apply MkdirAll_result in Ek as (Ht2 & G2 & Hp); [|by destruct Ht]. specialize (Hp eq_refl).
  assert (t_dirs t' = t_dirs t2 /\ grown t2 t' /\ forall q, q ∈ l -> q ∈ t_dirs t2 -> q <> [] -> q ∈ t_entries t' /\ q ∈ t_nodes t')
    as (D3 & G3 & S3).
  { destruct (length (reverse l) =? 0)%nat eqn:El.
    - injection H as <-. split_and!; [done|done|]. apply Nat.eqb_eq in El. rewrite length_reverse in El.
      apply nil_length_inv in El as ->. intros q Hq. by apply not_elem_of_nil in Hq.
    - apply sync_created_ok in H as (D & G & S). split_and!; [done|done|]. intros q Hq. apply S. by apply elem_of_reverse. }
  intros q. induction q as [|n q IH]; intros Hq; [apply Hk|].
  assert (q `suffix_of` path) as Hq' by (by eapply suffix_cons_l).
  assert (n :: q ∈ t_dirs t2) as Hin by (by eapply above_all).
  assert (n :: q ∈ t_entries t' /\ n :: q ∈ t_nodes t') as [He Hn].
  { destruct (Hall _ Hq) as [Hold|Hnew]; [|by apply S3]. destruct (Hb _ Hq) as [He Hn]; [done|done|].
    destruct G2 as (_ & G2 & G2'), G3 as (_ & G3 & G3'). split; [by apply G3, G2|by apply G3', G2']. }
  apply (crash_synced _ _ Hk); [by apply IH|by rewrite D3|done|done].
Qed.

(** ** Two runs *)

(** Nothing but the start, which is on the disk; [failing] are the outcomes. *)
Definition bare_tree (failing : list bool) : Tree := mkTree {[ [] ]} ∅ {[ [] ]} {[ [] ]} failing.

Lemma bare_tree_ok failing : tree_ok (bare_tree failing).
Proof. split; cbn; [set_solver|]. intros n p Hp%elem_of_singleton. discriminate. Qed.

Lemma bare_tree_durable path failing : base_durable path (bare_tree failing).
Proof. intros q _ Hne Hq. cbn in Hq. apply elem_of_singleton in Hq. done. Qed.

Lemma mkdir_all_and_sync_durable_witness :
  exists t', MkdirAllAndSync [[x62]; [x61]] (bare_tree []) = (Ok tt, t') /\
    forall keep, crash t' keep -> [[x62]; [x61]] ∈ keep /\ [[x61]] ∈ keep.
Proof.
  assert ((MkdirAllAndSync [[x62]; [x61]] (bare_tree [])).1 = Ok tt) as E1 by (vm_compute; reflexivity).
  destruct (MkdirAllAndSync [[x62]; [x61]] (bare_tree [])) as [r t'] eqn:E. cbn [fst] in E1. rewrite E1 in E.
  exists t'. split; [by rewrite E1|]. intros keep Hk.
  pose proof (mkdir_all_and_sync_durable [[x62]; [x61]] (bare_tree []) t' (bare_tree_ok []) (bare_tree_durable _ []) E keep Hk) as H.
  split; apply H; [done|]. by apply suffix_cons_r.
Defined.

(** A failed call is not made up for.  When the fsync of the parent
    fails, [MkdirAllAndSync] returns the error, but the directory is there; called
    again it finds nothing missing, syncs nothing and returns nil, and a crash may
    take the directory away. *)
Theorem mkdir_retry_not_durable :
  exists path t t1 t2 keep, tree_ok t /\ base_durable path t /\
    (exists e, MkdirAllAndSync path t = (throw e, t1)) /\ MkdirAllAndSync path t1 = (Ok tt, t2) /\
    crash t2 keep /\ path ∉ keep.
Proof.
  set (t := bare_tree [false; false; false; false; false; false; true]).
  set (t1 := (MkdirAllAndSync [[x61]] t).2). set (t2 := (MkdirAllAndSync [[x61]] t1).2).
  exists [[x61]], t, t1, t2, {[ [] ]}. split; [apply bare_tree_ok|]. split; [apply bare_tree_durable|].
  assert ((MkdirAllAndSync [[x61]] t1).1 = Ok tt) as E2 by (vm_compute; reflexivity).
  assert (bool_decide ([] ∈ t_dirs t2) && bool_decide (t_entries t2 = {[ [] ]}) = true) as H by (vm_compute; reflexivity).
  rewrite andb_true_iff, !bool_decide_eq_true in H. destruct H as [Hd He].
  split; [|split; [by rewrite <-E2; apply surjective_pairing|split; [|set_solver]]].
  - exists (Errorf "beachdb/fs: failed to sync parent directory" (Errorf "beachdb/fs: failed to sync directory" (OsError "fsync"))).
    match goal with |- _ = (throw ?e, _) => assert ((MkdirAllAndSync [[x61]] t).1 = throw e) as E1 by (vm_compute; reflexivity) end.
    rewrite <-E1. apply surjective_pairing.
  - split; [set_solver|set_solver| |].
    + intros n p Hp%elem_of_singleton. discriminate.
    + intros n p _ _ Hin _. rewrite He in Hin. apply elem_of_singleton in Hin. discriminate.
Qed.
