(* ===== verification/Wal.v ===== *)
(** * Write-ahead log (internal/wal)

    The WAL writer (a buffered, append-only file of framed records), its
    reader, and the crash guarantee the two give together. *)
From S2P Require Import Prelude.
From S2P Require Import Errors.
From S2P Require Import Coding.
From S2P Require Import Checksum.
From S2P Require Import Keys.
From S2P Require Import GoIO.
From S2P Require Import Record.
From S2P Require Import RecordIO.
From S2P Require Import Fs.

(** ** Format *)
Definition walMagic : string := "BEACHWAL".

(** [mustNewWALFormat] panics when [NewFormat] fails; [walRecordFormat] is the
    value the package variable gets. *)
Definition mustNewWALFormat : res Format :=
  match NewFormat walMagic DefaultMaxPayloadSize with Ok f => Ok f | _ => Panic end.

Definition walRecordFormat : Format :=
  mkFormat (magic_array walMagic) DefaultMaxPayloadSize (magic_array_length walMagic).

Lemma mustNewWALFormat_ok : mustNewWALFormat = Ok walRecordFormat.
Proof. reflexivity. Qed.

Definition EncodeRecord (payload : bytes) : res bytes := Record.Encode walRecordFormat payload.

Definition DecodeRecordHeader (header : bytes) : res (Z * Z) :=
  hdr ← DecodeHeader walRecordFormat header; Ok (Length hdr, Checksum hdr).

Definition ValidateRecord (payload : bytes) (expectedChecksum : Z) : res unit :=
  ValidatePayload payload expectedChecksum.

(** ** Writer *)

(** [w_file] says whether the handle is non-nil; the file itself is passed
    along, since it outlives the writer. *)
Record Writer := mkWriter { w_file : bool; w_buf : BufWriter }.

(** [NewWriter]: the writer and the inode of its file. *)
Definition NewWriter (path : bytes) : io (res (Writer * nat)) :=
  file ← os_OpenAppend path;
  match file with
  | Panic => panic
  | Err err => mret (throw (Errorf "wal: failed to open file" err))
  | Ok file =>
  r ← SyncDir;
  match r with
  | Panic => panic
  | Err err => _ ← f_close file; mret (throw (Errorf "wal: failed to sync parent dir" err))
  | Ok _ => mret (Ok (mkWriter true bufio_NewWriter, file))
  end end.

(** A writer method: the new writer and file, and the returned error. *)
Definition Append (payload : bytes) (w : Writer) (f : File) : res (Writer * File * option error) :=
  match EncodeRecord payload with
  | Panic => Panic
  | Err e => Ok (w, f, Some e)
  | Ok rec =>
      if negb (w_file w) then Ok (w, f, Some (wal_error wal.ErrWriterClosed))
      else
        let '(b, f, err) := bufio_Write rec (w_buf w) f in
        Ok (mkWriter true b, f, Errorf "wal: failed to write record" <$> err)
  end.

Definition Sync (w : Writer) (f : File) : Writer * File * option error :=
  if negb (w_file w) then (w, f, Some (wal_error wal.ErrWriterClosed))
  else
    let '(b, f, err) := bufio_Flush (w_buf w) f in
    let w := mkWriter true b in
    match err with
    | Some e => (w, f, Some (Errorf "wal: failed to flush buffer" e))
    | None =>
        let '(f, err) := file_Sync f in
        (w, f, Errorf "wal: failed to sync file" <$> err)
    end.

(** [Close] runs every step and returns the first error. *)
Definition first_err (a b : option error) : option error :=
  match a with Some _ => a | None => b end.

Definition Close (w : Writer) (f : File) : Writer * File * option error :=
  if negb (w_file w) then (w, f, Some (wal_error wal.ErrWriterClosed))
  else
    let '(b, f, e1) := bufio_Flush (w_buf w) f in
    let '(f, e2) := file_Sync f in
    let '(f, e3) := file_Close f in
    (mkWriter false b, f,
     first_err (Errorf "wal: flush buffer failed during close" <$> e1)
       (first_err (Errorf "wal: sync file failed during close" <$> e2)
                  (Errorf "wal: close file failed" <$> e3))).

(** ** Reader *)
Definition NewReader `{!Device} (path : bytes) : io (res Reader) :=
  file ← os_Open path;
  match file with
  | Panic => panic
  | Err err => mret (throw (Errorf "wal: failed to open file" err))
  | Ok file => src ← open_source file; mret (Ok (open_reader src))
  end.

Definition Next : Reader -> res bytes * Reader :=
  read_next walRecordFormat wal.ErrReaderClosed.

Definition ValidOffset (r : option Reader) : nat :=
  match r with None => 0%nat | Some r => valid_offset r end.

Definition CloseReader (close_err : option error) (r : option Reader) : option error * option Reader :=
  match r with
  | None => (Some (wal_error wal.ErrReaderClosed), None)
  | Some r => let '(e, r) := close_reader wal.ErrReaderClosed close_err r in (e, Some r)
  end.

(** ** Runs of a writer

    A run is a sequence of calls on one writer; the ghost fields record the
    payloads handed to [Append] in order and, at the last [Sync] or [Close]
    that succeeded, how many of them there were. *)
Record Log := mkLog { l_w : Writer; l_f : File; l_appended : list bytes; l_durable : list bytes }.

Definition new_log (faults : list fault) : Log :=
  mkLog (mkWriter true bufio_NewWriter) (mkFile [] 0 faults) [] [].

Inductive wal_step : Log -> Log -> Prop :=
  | step_append l payload w f err :
      is_u32 (zlen payload) ->
      Append payload (l_w l) (l_f l) = Ok (w, f, err) ->
      wal_step l (mkLog w f
        (if w_file (l_w l) && bool_decide (fits walRecordFormat payload)
         then l_appended l ++ [payload] else l_appended l) (l_durable l))
  | step_sync l w f err :
      Sync (l_w l) (l_f l) = (w, f, err) ->
      wal_step l (mkLog w f (l_appended l)
        (if decide (err = None) then l_appended l else l_durable l))
  | step_close l w f err :
      Close (l_w l) (l_f l) = (w, f, err) ->
      wal_step l (mkLog w f (l_appended l)
        (if decide (err = None) then l_appended l else l_durable l)).

Local Abbreviation image := (log_image walRecordFormat).

Record log_inv (l : Log) : Prop := {
  inv_buf : wf_buf (w_buf (l_w l));
  inv_fits : Forall (fits walRecordFormat) (l_appended l);
  inv_content : f_content (l_f l) `prefix_of` image (l_appended l);
  inv_stream : w_file (l_w l) = true -> bw_err (w_buf (l_w l)) = None ->
    stream (w_buf (l_w l)) (l_f l) = image (l_appended l);
  inv_durable : l_durable l `prefix_of` l_appended l;
  inv_synced : (length (image (l_durable l)) <= f_synced (l_f l))%nat;
  inv_size : (f_synced (l_f l) <= length (f_content (l_f l)))%nat
}.

#[local] Opaque log_image record_wire bufio_Write magic_array.

Lemma EncodeRecord_fits p :
  is_u32 (zlen p) ->
  EncodeRecord p = if decide (fits walRecordFormat p) then Ok (record_wire walRecordFormat p)
                   else throw record.ErrRecordTooLarge.
Proof.
  intros Hu. unfold EncodeRecord. case_decide as Hf.
  - apply Encode_fits. rewrite u32_id by done. apply Hf.
  - apply Encode_too_large. rewrite u32_id by done.
    destruct (Z.lt_ge_cases (MaxPayloadSize walRecordFormat) (zlen p)); [done|].
    by destruct Hf.
Qed.

Lemma Append_total p w f : is_u32 (zlen p) -> exists r, Append p w f = Ok r.
Proof.
  intros Hu. unfold Append. rewrite EncodeRecord_fits by done. case_decide; [|by eexists].
  destruct (negb (w_file w)); [by eexists|]. destruct (bufio_Write _ _ _) as [[b g] e]. by eexists.
Qed.

Lemma log_inv_new faults : log_inv (new_log faults).
Proof.
  split; cbn; try done; unfold wf_buf; cbn; lia.
Qed.

Lemma image_prefix ps qs : ps `prefix_of` qs -> image ps `prefix_of` image qs.
Proof. intros [k ->]. rewrite log_image_app. by eexists. Qed.

Lemma content_stream b f : f_content f `prefix_of` stream b f.
Proof. by eexists. Qed.

Lemma log_inv_append l payload w f err :
  log_inv l -> is_u32 (zlen payload) -> Append payload (l_w l) (l_f l) = Ok (w, f, err) ->
  log_inv (mkLog w f
    (if w_file (l_w l) && bool_decide (fits walRecordFormat payload)
     then l_appended l ++ [payload] else l_appended l) (l_durable l)).
Proof.
  intros [Hb Hfit Hc Hs Hd Hy Hz] Hu H. unfold Append in H.
  rewrite EncodeRecord_fits in H by done. case_decide as Hf; cycle 1.
  { rewrite bool_decide_eq_false_2, andb_false_r by done. injection H as <- <- <-. by split. }
  rewrite bool_decide_eq_true_2, andb_true_r by done.
  destruct (w_file (l_w l)) eqn:Ew; cbn [negb] in H; cycle 1.
  { injection H as <- <- <-. split; cbn; try done. by rewrite Ew. }
  destruct (bw_err (w_buf (l_w l))) as [e0|] eqn:E0.
  { rewrite (bufio_Write_failed _ _ _ _ E0) in H. injection H as <- <- <-.
    split; cbn [l_w l_f l_appended l_durable w_file w_buf]; try done.
    - apply Forall_app; split; [done|by apply Forall_singleton].
    - etrans; [done|by apply image_prefix, prefix_app_r].
    - intros _. by rewrite E0.
    - by apply prefix_app_r. }
  destruct (bufio_Write _ _ _) as [[b g] e] eqn:Eb. injection H as <- <- <-.
  apply bufio_Write_spec in Eb as (Wb & Eb & Pb & Yb & Sb & Ob & _); [|done].
  rewrite (Hs eq_refl eq_refl) in Sb, Ob. rewrite <-log_image_snoc in Sb, Ob.
  split; cbn [l_w l_f l_appended l_durable w_file w_buf]; try done.
  - apply Forall_app; split; [done|by apply Forall_singleton].
  - etrans; [apply (content_stream b)|exact Sb].
  - intros _ E1. apply Ob. congruence.
  - by apply prefix_app_r.
  - by rewrite Yb.
  - rewrite Yb. apply prefix_length in Pb. lia.
Qed.

(** [Sync] and [Close] first drain the buffer, then sync the file; they differ
    in what is left of the writer. *)
Lemma log_inv_drain l b g e1 g2 e2 keep :
  log_inv l -> w_file (l_w l) = true ->
  bufio_Flush (w_buf (l_w l)) (l_f l) = (b, g, e1) -> file_Sync g = (g2, e2) ->
  log_inv (mkLog (mkWriter keep b) g (l_appended l) (l_durable l)) /\
  log_inv (mkLog (mkWriter keep b) g2 (l_appended l) (l_durable l)) /\
  (e1 = None -> e2 = None -> log_inv (mkLog (mkWriter keep b) g2 (l_appended l) (l_appended l))).
Proof.
  intros [Hb Hfit Hc Hs Hd Hy Hz] Ew Ef Es.
  pose proof (bufio_Flush_spec _ _ _ _ _ Ef) as (Sf & Eb & Pf & Yf & Nf & Lf & _).
  apply file_Sync_spec in Es as (Cs & Os & Ns & _).
  assert (f_content g `prefix_of` image (l_appended l)) as Hcg.
  { destruct (bw_err (w_buf (l_w l))) as [e0|] eqn:E0.
    - rewrite (bufio_Flush_failed _ _ _ E0) in Ef. by injection Ef as <- <- <-.
    - rewrite <-(Hs Ew eq_refl), <-Sf. apply content_stream. }
  assert (e1 = None -> f_content g = image (l_appended l)) as Hall.
  { intros He. destruct (Nf He) as [Hb0 E0]. rewrite <-(Hs Ew E0), <-Sf.
    unfold stream. by rewrite Hb0, app_nil_r. }
  assert (bw_err b = None -> stream b g = image (l_appended l)) as Hstr.
  { intros He. rewrite Sf. apply Hs; [done|]. apply Nf. congruence. }
  assert (wf_buf b) as Hwb by (unfold wf_buf in *; lia).
  assert (f_synced g <= length (f_content g))%nat as Hsg
    by (rewrite Yf; apply prefix_length in Pf; lia).
  assert (f_synced g <= f_synced g2 <= length (f_content g2))%nat as Hs2.
  { rewrite Cs. destruct e2; [rewrite Ns by done|rewrite Os by done]; lia. }
  assert (stream b g2 = stream b g) as Hst2 by (unfold stream; by rewrite Cs).
  split_and!; [split..|intros He1 He2; split]; cbn [l_w l_f l_appended l_durable w_file w_buf];
    rewrite ?Hst2, ?Cs; auto; try lia.
  - rewrite <-Cs. lia.
  - rewrite (Os He2), (Hall He1). done.
  - rewrite <-Cs. lia.
Qed.

Lemma log_inv_sync l w f err :
  log_inv l -> Sync (l_w l) (l_f l) = (w, f, err) ->
  log_inv (mkLog w f (l_appended l) (if decide (err = None) then l_appended l else l_durable l)).
Proof.
  intros Hinv H. unfold Sync in H. destruct (w_file (l_w l)) eqn:Ew; cbn [negb] in H.
  - destruct (bufio_Flush _ _) as [[b g] e1] eqn:Ef.
    destruct (file_Sync g) as [g2 e2] eqn:Es.
    destruct (log_inv_drain l b g e1 g2 e2 true Hinv Ew Ef Es) as (I1 & I2 & I3).
    destruct e1 as [e1|]; [|destruct e2 as [e2|]]; injection H as <- <- <-; cbn; auto.
  - injection H as <- <- <-. rewrite decide_False by done. by destruct l.
Qed.

Lemma log_inv_close l w f err :
  log_inv l -> Close (l_w l) (l_f l) = (w, f, err) ->
  log_inv (mkLog w f (l_appended l) (if decide (err = None) then l_appended l else l_durable l)).
Proof.
  intros Hinv H. unfold Close in H. destruct (w_file (l_w l)) eqn:Ew; cbn [negb] in H.
  - destruct (bufio_Flush _ _) as [[b g] e1] eqn:Ef.
    destruct (file_Sync g) as [g2 e2] eqn:Es.
    destruct (file_Close g2) as [g3 e3] eqn:Ec. injection H as <- <- <-.
    destruct (log_inv_drain l b g e1 g2 e2 false Hinv Ew Ef Es) as (_ & I2 & I3).
    apply file_Close_spec in Ec as (Cc & Yc & _).
    assert (forall d, log_inv (mkLog (mkWriter false b) g2 (l_appended l) d) ->
      log_inv (mkLog (mkWriter false b) g3 (l_appended l) d)) as Hmove.
    { intros d [? ? ? ? ? ? ?]. split; cbn in *; rewrite ?Cc, ?Yc; done. }
    apply Hmove. destruct e1, e2, e3; cbn; auto.
  - injection H as <- <- <-. rewrite decide_False by done. by destruct l.
Qed.

Lemma wal_step_inv l l' : log_inv l -> wal_step l l' -> log_inv l'.
Proof.
  intros Hinv Hstep. destruct Hstep;
    [by eapply log_inv_append|by apply log_inv_sync|by apply log_inv_close].
Qed.

Lemma wal_steps_inv l l' : log_inv l -> rtc wal_step l l' -> log_inv l'.
Proof. intros H. induction 1; eauto using wal_step_inv. Qed.


#[local] Transparent log_image record_wire bufio_Write magic_array.

(** One record appended and synced, a second appended and still buffered, and
    a third sync that fails. *)
Definition sample_log : Log :=
  match Append [x41] (l_w (new_log [NoFault; NoFault; Fail 3])) (l_f (new_log [NoFault; NoFault; Fail 3])) with
  | Ok (w, f, _) =>
      let '(w, f, _) := Sync w f in
      match Append [x42; x43] w f with
      | Ok (w, f, _) => let '(w, f, _) := Sync w f in mkLog w f [[x41]; [x42; x43]] [[x41]]
      | _ => new_log []
      end
  | _ => new_log []
  end.

Lemma sample_log_reachable : rtc wal_step (new_log [NoFault; NoFault; Fail 3]) sample_log.
Proof.
  eapply rtc_l; [eapply (step_append _ [x41]); [|reflexivity]|].
  { unfold is_u32, zlen. cbn. lia. }
  eapply rtc_l; [eapply step_sync; reflexivity|].
  eapply rtc_l; [eapply (step_append _ [x42; x43]); [|reflexivity]|].
  { unfold is_u32, zlen. cbn. lia. }
  eapply rtc_l; [eapply step_sync; reflexivity|].
  vm_compute. apply rtc_refl.
Qed.

