(* ===== verification/Batch.v ===== *)
(** * Write batches (engine/batch.go)

    A batch is the unit of atomicity: a list of put and delete operations with
    a binary encoding that the WAL stores as one record payload. *)
From S2P Require Import Prelude.
From S2P Require Import Errors.
From S2P Require Import Coding.
From S2P Require Import Keys.

Local Open Scope Z_scope.

(** [OpType] is a byte; the two constants are the ones the code defines. *)
Definition OpTypePut : byte := x01.
Definition OpTypeDelete : byte := x02.

Definition EncodingVersion : byte := x01.
Definition batchHeaderSize : nat := 8.
Definition MaxUint32 : Z := 2 ^ 32 - 1.

Record operation := mkOperation { opType : byte; op_key : bytes; op_value : bytes }.

#[export] Instance operation_eq_dec : EqDecision operation.
Proof. solve_decision. Defined.

Record Batch := mkBatch { ops : list operation }.

(** [cloneBytes] and [cloneOperations] copy; on values a copy is the value. *)
Definition cloneBytes (src : bytes) : bytes := src.

Definition cloneOperations (ops : list operation) : list operation :=
  (fun op => mkOperation (opType op) (cloneBytes (op_key op)) (cloneBytes (op_value op))) <$> ops.

Definition NewBatch : Batch := mkBatch [].

Definition Put (key value : bytes) (b : Batch) : Batch :=
  mkBatch (ops b ++ [mkOperation OpTypePut key value]).

Definition Delete (key : bytes) (b : Batch) : Batch :=
  mkBatch (ops b ++ [mkOperation OpTypeDelete key []]).

Definition Count (b : Batch) : nat := length (ops b).
Definition Empty (b : Batch) : bool := (Count b =? 0)%nat.
Definition Reset (b : Batch) : Batch := mkBatch [].

(** [snapshot] of a possibly nil batch. *)
Definition snapshot (b : option Batch) : list operation :=
  match b with None => [] | Some b => cloneOperations (ops b) end.

(** ** Encoding *)

(** The size pass. *)
Definition op_size (op : operation) : nat :=
  1 + 4 + length (op_key op) +
  (if decide (opType op = OpTypePut) then 4 + length (op_value op) else 0)%nat.

Definition ops_size (ops : list operation) : nat :=
  fold_left (fun size op => (size + op_size op)%nat) ops batchHeaderSize.

(** The write pass for one operation: the buffer and offset after it. *)
Definition encode_op (op : operation) (buf : bytes) (offset : nat) : res (bytes * nat) :=
  buf ← store offset (opType op) buf;
  let offset := (offset + 1)%nat in
  buf ← PutUint32 buf offset (u32 (zlen (op_key op)));
  let offset := (offset + 4)%nat in
  buf ← copy_at offset (op_key op) buf;
  let offset := (offset + length (op_key op))%nat in
  if decide (opType op = OpTypePut) then
    buf ← PutUint32 buf offset (u32 (zlen (op_value op)));
    let offset := (offset + 4)%nat in
    buf ← copy_at offset (op_value op) buf;
    Ok (buf, (offset + length (op_value op))%nat)
  else Ok (buf, offset).

Fixpoint encode_loop (ops : list operation) (buf : bytes) (offset : nat) : res (bytes * nat) :=
  match ops with
  | [] => Ok (buf, offset)
  | op :: ops => '(buf, offset) ← encode_op op buf offset; encode_loop ops buf offset
  end.

Definition encodeOperations (ops : list operation) : res bytes :=
  let buf := replicate (ops_size ops) x00 in
  buf ← store 0 EncodingVersion buf;
  buf ← store 1 x00 buf;
  buf ← store 2 x00 buf;
  buf ← store 3 x00 buf;
  if MaxUint32 <? zlen ops then Panic
  else
    buf ← PutUint32 buf 4 (u32 (zlen ops));
    '(buf, _) ← encode_loop ops buf batchHeaderSize;
    Ok buf.

Definition Encode (b : Batch) : res bytes := encodeOperations (ops b).

(** ** Decoding *)

(** [decodeOperation]: the copies [make]/[copy] of the slice views are the
    views' values. *)
Definition decodeOperation (r : ByteReader) : res (operation * ByteReader) :=
  '(opTypeByte, r) ← map_err (fun _ => engine_error engine.ErrCorruptBatch) (ReadByte r);
  if negb (bool_decide (opTypeByte = OpTypePut) || bool_decide (opTypeByte = OpTypeDelete))
  then throw engine.ErrUnknownOpType
  else
    '(keyLen, r) ← map_err (fun _ => engine_error engine.ErrTruncatedBatch) (ReadUint32 r);
    '(key, r) ← map_err (fun _ => engine_error engine.ErrTruncatedBatch) (ReadBytes keyLen r);
    if decide (opTypeByte = OpTypePut) then
      '(valueLen, r) ← map_err (fun _ => engine_error engine.ErrTruncatedBatch) (ReadUint32 r);
      '(value, r) ← map_err (fun _ => engine_error engine.ErrTruncatedBatch) (ReadBytes valueLen r);
      Ok (mkOperation opTypeByte key value, r)
    else Ok (mkOperation opTypeByte key [], r).

(** [for range opCount]: an operation is at least one byte, so the data's
    length bounds the iterations ([decode_loop_fuel]). *)
Fixpoint decode_loop (fuel : nat) (count : Z) (acc : list operation) (r : ByteReader)
  : res (list operation * ByteReader) :=
  if count <=? 0 then Ok (acc, r)
  else match fuel with
  | O => Panic
  | S fuel => '(op, r) ← decodeOperation r; decode_loop fuel (count - 1) (acc ++ [op]) r
  end.

Definition DecodeBatch (data : bytes) : res Batch :=
  let r := NewByteReader data in
  '(version, r) ← map_err (fun _ => engine_error engine.ErrCorruptBatch) (ReadByte r);
  if negb (bool_decide (version = EncodingVersion)) then throw engine.ErrBadVersion
  else
    '(reserved, r) ← map_err (fun _ => engine_error engine.ErrCorruptBatch) (ReadBytes 3 r);
    if negb (forallb (fun b => bool_decide (b = x00)) reserved) then throw engine.ErrCorruptBatch
    else
      '(opCount, r) ← map_err (fun _ => engine_error engine.ErrCorruptBatch) (ReadUint32 r);
      '(ops, r) ← decode_loop (S (length data)) opCount (ops NewBatch) r;
      if negb (Remaining r =? 0) then throw engine.ErrCorruptBatch
      else Ok (mkBatch ops).

(** ** Wire format *)
Definition op_wire (op : operation) : bytes :=
  [opType op] ++ be_bytes 4 (u32 (zlen (op_key op))) ++ op_key op ++
  (if decide (opType op = OpTypePut)
   then be_bytes 4 (u32 (zlen (op_value op))) ++ op_value op else []).

Definition ops_wire (ops : list operation) : bytes := mjoin (op_wire <$> ops).

Definition batch_wire (ops : list operation) : bytes :=
  [EncodingVersion; x00; x00; x00] ++ be_bytes 4 (u32 (zlen ops)) ++ ops_wire ops.

(** What the API can build and the 32-bit fields can describe. *)
Record wf_op (op : operation) : Prop := {
  wf_op_type : opType op = OpTypePut \/ (opType op = OpTypeDelete /\ op_value op = []);
  wf_op_key : is_u32 (zlen (op_key op));
  wf_op_value : is_u32 (zlen (op_value op))
}.

Definition wf_ops (ops : list operation) : Prop := Forall wf_op ops /\ is_u32 (zlen ops).

Lemma wf_op_alt op :
  wf_op op <-> (opType op = OpTypePut \/ (opType op = OpTypeDelete /\ op_value op = [])) /\
    is_u32 (zlen (op_key op)) /\ is_u32 (zlen (op_value op)).
Proof. split; [by intros []|intros (? & ? & ?); by split]. Qed.

#[export] Instance wf_op_dec op : Decision (wf_op op).
Proof.
  destruct (decide ((opType op = OpTypePut \/ (opType op = OpTypeDelete /\ op_value op = [])) /\
    is_u32 (zlen (op_key op)) /\ is_u32 (zlen (op_value op)))) as [H|H];
    [left|right]; by rewrite wf_op_alt.
Defined.

#[export] Instance wf_ops_dec ops : Decision (wf_ops ops).
Proof. unfold wf_ops. apply _. Defined.

Lemma length_op_wire op : length (op_wire op) = op_size op.
Proof.
  unfold op_wire, op_size. rewrite !length_app, length_be_bytes.
  case_decide; rewrite ?length_app, ?length_be_bytes; cbn; lia.
Qed.

Lemma ops_wire_cons op ops : ops_wire (op :: ops) = op_wire op ++ ops_wire ops.
Proof. reflexivity. Qed.

Lemma ops_size_acc ops n :
  fold_left (fun size op => (size + op_size op)%nat) ops n = (n + length (ops_wire ops))%nat.
Proof.
  revert n. induction ops as [|op ops IH]; intros n; cbn [fold_left]; [cbn; lia|].
  rewrite IH, ops_wire_cons, length_app, length_op_wire. lia.
Qed.

(** ** Encoding is the wire format *)
Lemma encode_op_fill op pre n :
  (op_size op <= n)%nat ->
  encode_op op (pre ++ replicate n x00) (length pre) =
    Ok ((pre ++ op_wire op) ++ replicate (n - op_size op) x00, (length pre + op_size op)%nat).
Proof.
  intros Hn. unfold op_size in *. unfold encode_op, op_wire.
  rewrite store_fill by (rewrite ?length_replicate; lia). cbn [mbind result_bind].
  rewrite drop_zeros. unfold PutUint32.
  rewrite put_be_fill by (rewrite ?length_app, ?length_replicate; cbn; lia). cbn [mbind result_bind].
  rewrite drop_zeros, copy_at_fill
    by (rewrite ?length_app, ?length_be_bytes, ?length_replicate; cbn; lia).
  cbn [mbind result_bind]. rewrite drop_zeros.
  case_decide as Hp.
  - rewrite put_be_fill by (rewrite ?length_app, ?length_be_bytes, ?length_replicate; cbn; lia).
    cbn [mbind result_bind]. rewrite drop_zeros, copy_at_fill
      by (rewrite ?length_app, ?length_be_bytes, ?length_replicate; cbn; lia).
    cbn [mbind result_bind]. rewrite drop_zeros. same_fill.
  - rewrite app_nil_r. same_fill.
Qed.

Lemma encode_loop_fill ops pre n :
  (length (ops_wire ops) <= n)%nat ->
  encode_loop ops (pre ++ replicate n x00) (length pre) =
    Ok ((pre ++ ops_wire ops) ++ replicate (n - length (ops_wire ops)) x00,
        (length pre + length (ops_wire ops))%nat).
Proof.
  revert pre n. induction ops as [|op ops IH]; intros pre n Hn.
  { cbn. by rewrite app_nil_r, Nat.sub_0_r, Nat.add_0_r. }
  rewrite ops_wire_cons, length_app, length_op_wire in *. cbn [encode_loop].
  rewrite encode_op_fill by lia. cbn [mbind result_bind].
  rewrite <-(length_op_wire op), <-length_app, IH by (rewrite length_op_wire; lia).
  rewrite !length_app, length_op_wire. same_fill.
Qed.

Lemma encodeOperations_wire ops :
  is_u32 (zlen ops) -> encodeOperations ops = Ok (batch_wire ops).
Proof.
  intros Hu. unfold encodeOperations, ops_size. rewrite ops_size_acc.
  change batchHeaderSize with 8%nat.
  set (m := length (ops_wire ops)).
  change (replicate (8 + m) x00) with ([x00; x00; x00; x00] ++ replicate (4 + m) x00).
  cbn [store mbind result_bind app length Nat.ltb Nat.leb list_insert insert].
  rewrite (proj2 (Z.ltb_ge _ _)) by (unfold is_u32, MaxUint32 in *; lia).
  change (EncodingVersion :: x00 :: x00 :: x00 :: ?t) with ([EncodingVersion; x00; x00; x00] ++ t).
  unfold PutUint32. rewrite put_be_fill by (rewrite ?length_replicate; cbn; lia).
  cbn [mbind result_bind]. rewrite drop_zeros.
  replace (4 + m - 4)%nat with m by lia.
  rewrite encode_loop_fill by done. cbn [mbind result_bind].
  rewrite Nat.sub_diag, app_nil_r. unfold batch_wire. by rewrite <-app_assoc.
Qed.

Lemma encodeOperations_overflow ops :
  MaxUint32 < zlen ops -> encodeOperations ops = Panic.
Proof.
  intros H. unfold encodeOperations, ops_size. rewrite ops_size_acc.
  change batchHeaderSize with 8%nat. cbn [Nat.add replicate].
  cbn [store mbind result_bind length Nat.ltb Nat.leb list_insert insert].
  by rewrite (proj2 (Z.ltb_lt _ _)).
Qed.

(** ** Decoding inverts the wire format *)
Lemma decodeOperation_wire op r t :
  wf_op op -> wf_reader r -> rest r = op_wire op ++ t ->
  decodeOperation r = Ok (op, advance (op_size op) r).
Proof.
  intros [Ht Hk Hv] Hwf Hr. unfold op_wire in Hr. rewrite <-!app_assoc in Hr.
  unfold decodeOperation. rewrite (ReadByte_app _ _ _ Hr). cbn [map_err mbind result_bind].
  pose proof (rest_advance_app 1 r _ _ Hr eq_refl) as H1.
  pose proof (wf_advance_app 1 r _ _ Hwf Hr eq_refl) as W1.
  assert (bool_decide (opType op = OpTypePut) || bool_decide (opType op = OpTypeDelete) = true) as ->.
  { apply orb_true_iff. rewrite !bool_decide_eq_true. naive_solver. }
  cbn [negb]. rewrite !u32_id in H1 by done.
  rewrite (ReadUint32_app _ _ _ Hk H1). cbn [map_err mbind result_bind].
  pose proof (rest_advance_app 4 _ _ _ H1 (length_be_bytes _ _)) as H2.
  pose proof (wf_advance_app 4 _ _ _ W1 H1 (length_be_bytes _ _)) as W2.
  rewrite (ReadBytes_app _ _ _ _ W2 H2 eq_refl). cbn [map_err mbind result_bind].
  pose proof (rest_advance_app _ _ _ _ H2 eq_refl) as H3.
  pose proof (wf_advance_app _ _ _ _ W2 H2 eq_refl) as W3.
  unfold op_size. case_decide as Hp.
  - rewrite <-app_assoc in H3. rewrite (ReadUint32_app _ _ _ Hv H3). cbn [map_err mbind result_bind].
    pose proof (rest_advance_app 4 _ _ _ H3 (length_be_bytes _ _)) as H4.
    pose proof (wf_advance_app 4 _ _ _ W3 H3 (length_be_bytes _ _)) as W4.
    rewrite (ReadBytes_app _ _ _ _ W4 H4 eq_refl). cbn [map_err mbind result_bind].
    rewrite !advance_advance. destruct op; cbn in *. same_reader.
  - destruct Ht as [?|[Hd Hv0]]; [done|]. rewrite !advance_advance.
    destruct op; cbn in *. subst. same_reader.
Qed.

Lemma decode_loop_wire ops fuel acc r t :
  Forall wf_op ops -> wf_reader r -> rest r = ops_wire ops ++ t -> (length ops < fuel)%nat ->
  decode_loop fuel (zlen ops) acc r = Ok (acc ++ ops, advance (length (ops_wire ops)) r).
Proof.
  revert fuel acc r. induction ops as [|op ops IH]; intros fuel acc r Hops Hwf Hr Hf.
  { destruct fuel; cbn; rewrite app_nil_r; unfold advance; rewrite Nat.add_0_r; by destruct r. }
  apply Forall_cons in Hops as [Hop Hops]. destruct fuel as [|fuel]; [cbn in Hf; lia|].
  cbn [decode_loop]. rewrite (proj2 (Z.leb_gt _ _)) by (unfold zlen; cbn; lia).
  rewrite ops_wire_cons, <-app_assoc in Hr.
  rewrite (decodeOperation_wire op r _ Hop Hwf Hr). cbn [mbind result_bind].
  replace (zlen (op :: ops) - 1) with (zlen ops) by (unfold zlen; cbn [length]; lia).
  rewrite IH; [|done|eapply wf_advance_app; eauto using length_op_wire
    |eapply rest_advance_app; eauto using length_op_wire|cbn in Hf; lia].
  rewrite advance_advance, <-app_assoc, ops_wire_cons, length_app, length_op_wire. done.
Qed.

Lemma length_ops_wire ops : (length ops <= length (ops_wire ops))%nat.
Proof.
  induction ops as [|op ops IH]; [done|].
  rewrite ops_wire_cons, length_app, length_op_wire. unfold op_size. cbn [length]. lia.
Qed.

Lemma DecodeBatch_wire ops : wf_ops ops -> DecodeBatch (batch_wire ops) = Ok (mkBatch ops).
Proof.
  intros [Hops Hu]. unfold DecodeBatch. set (data := batch_wire ops).
  pose proof (wf_new data) as W0.
  assert (rest (NewByteReader data) =
    EncodingVersion :: [x00; x00; x00] ++ be_bytes 4 (u32 (zlen ops)) ++ ops_wire ops) as H0 by done.
  rewrite (ReadByte_app _ _ _ H0). cbn [map_err mbind result_bind].
  pose proof (rest_advance_app 1 _ [EncodingVersion] _ H0 eq_refl) as H1.
  pose proof (wf_advance_app 1 _ [EncodingVersion] _ W0 H0 eq_refl) as W1.
  rewrite bool_decide_eq_true_2 by done. cbn [negb].
  rewrite (ReadBytes_app _ _ _ 3 W1 H1 eq_refl). cbn [map_err mbind result_bind].
  pose proof (rest_advance_app 3 _ _ _ H1 eq_refl) as H2.
  pose proof (wf_advance_app 3 _ _ _ W1 H1 eq_refl) as W2.
  change (forallb _ _) with true. cbn [negb length].
  rewrite u32_id in H2 by done. rewrite (ReadUint32_app _ _ _ Hu H2). cbn [map_err mbind result_bind].
  pose proof (rest_advance_app 4 _ _ _ H2 (length_be_bytes _ _)) as H3.
  pose proof (wf_advance_app 4 _ _ _ W2 H2 (length_be_bytes _ _)) as W3.
  rewrite <-(app_nil_r (ops_wire ops)) in H3.
  rewrite (decode_loop_wire ops _ _ _ [] Hops W3 H3); cycle 1.
  { subst data. unfold batch_wire. rewrite !length_app, length_be_bytes.
    pose proof (length_ops_wire ops). cbn. lia. }
  cbn [mbind result_bind].
  rewrite Remaining_rest by (by eapply wf_advance_app).
  rewrite (rest_advance_app _ _ _ _ H3 eq_refl). done.
Qed.

(** Conversely whatever decodes is the encoding of well-formed operations. *)
Lemma decodeOperation_sound r op r' :
  decodeOperation r = Ok (op, r') -> wf_op op /\ consumed r (op_wire op) r'.
Proof.
  unfold decodeOperation. intros H.
  apply bind_Ok in H as ([ty r1] & E1%map_err_Ok & H).
  destruct (_ || _) eqn:Hty; [|done]. cbn [negb] in H.
  apply bind_Ok in H as ([kl r2] & E2%map_err_Ok & H).
  apply bind_Ok in H as ([key r3] & E3%map_err_Ok & H).
  apply ReadByte_consumed in E1. apply ReadUint32_consumed in E2 as [E2 Hkl].
  apply ReadBytes_consumed in E3 as [E3 Hk]; [|apply Hkl].
  unfold op_wire. case_decide as Hp.
  - apply bind_Ok in H as ([vl r4] & E4%map_err_Ok & H).
    apply bind_Ok in H as ([v r5] & E5%map_err_Ok & H). injection H as <- <-.
    apply ReadUint32_consumed in E4 as [E4 Hvl].
    apply ReadBytes_consumed in E5 as [E5 Hv]; [|apply Hvl]. subst. cbn.
    split; [split; cbn; auto|]. rewrite !u32_id by done. rewrite decide_True by done.
    eauto 10 with beach.
  - injection H as <- <-. subst. cbn.
    apply orb_true_iff in Hty as [?%bool_decide_eq_true|Hd%bool_decide_eq_true]; [done|].
    split; [split; cbn; auto; unfold is_u32, zlen; cbn; lia|].
    rewrite u32_id, decide_False, app_nil_r by done. eauto 10 with beach.
Qed.

Lemma decode_loop_sound fuel count acc r out r' :
  0 <= count -> decode_loop fuel count acc r = Ok (out, r') ->
  exists ops, out = acc ++ ops /\ Forall wf_op ops /\ zlen ops = count /\
    consumed r (ops_wire ops) r'.
Proof.
  revert count acc r. induction fuel as [|fuel IH]; intros count acc r Hc H; cbn [decode_loop] in H;
    destruct (Z.leb_spec count 0); simplify_eq.
  1, 2: exists []; rewrite app_nil_r; split_and!; [done|done|unfold zlen; cbn; lia|by split].
  apply bind_Ok in H as ([op r1] & E & H). apply decodeOperation_sound in E as [Hop Hcons].
  apply IH in H as (ops & -> & Hops & Hl & Hr); [|lia].
  exists (op :: ops). rewrite <-app_assoc. split_and!; [done|by constructor| |].
  - unfold zlen in *. cbn [length]. lia.
  - rewrite ops_wire_cons. eauto with beach.
Qed.

Lemma DecodeBatch_sound data b :
  DecodeBatch data = Ok b -> wf_ops (ops b) /\ data = batch_wire (ops b).
Proof.
  unfold DecodeBatch. intros H.
  apply bind_Ok in H as ([ver r1] & E1%map_err_Ok & H).
  destruct (bool_decide (ver = _)) eqn:Hv; [|done]. cbn [negb] in H.
  apply bind_Ok in H as ([rsv r2] & E2%map_err_Ok & H).
  destruct (forallb _ rsv) eqn:Hz; [|done]. cbn [negb] in H.
  apply bind_Ok in H as ([cnt r3] & E3%map_err_Ok & H).
  apply bind_Ok in H as ([out r4] & E4 & H).
  destruct (Remaining r4 =? 0) eqn:Hrem; [|done]. cbn [negb] in H. injection H as <-. zb.
  apply ReadByte_consumed in E1. apply ReadBytes_consumed in E2 as [E2 Hl]; [|lia].
  apply ReadUint32_consumed in E3 as [E3 Hcnt].
  apply decode_loop_sound in E4 as (l & -> & Hops & Hn & E4); [|apply Hcnt].
  apply bool_decide_eq_true in Hv. subst ver. cbn [ops NewBatch app].
  pose proof (consumed_trans _ _ _ _ _ E1 (consumed_trans _ _ _ _ _ E2
    (consumed_trans _ _ _ _ _ E3 E4))) as [_ Hd Hw].
  specialize (Hw (wf_new data)). rewrite Remaining_rest in Hrem by done.
  unfold zlen in Hrem. assert (rest r4 = []) as Hnil by (apply nil_length_inv; lia).
  rewrite rest_new, Hnil, app_nil_r in Hd. split; [split; [done|by rewrite Hn]|].
  rewrite Hd. unfold batch_wire. rewrite Hn, u32_id by done.
  assert (rsv = [x00; x00; x00]) as ->; [|done].
  unfold zlen in Hl. destruct rsv as [|a [|b [|c [|]]]]; cbn in Hl; try lia.
  cbn in Hz. rewrite !andb_true_iff, !bool_decide_eq_true in Hz. naive_solver.
Qed.

(** ** Totality: malformed input is refused with one of four errors *)
Definition batch_error (e : error) : Prop :=
  e = engine.ErrCorruptBatch \/ e = engine.ErrBadVersion \/
  e = engine.ErrUnknownOpType \/ e = engine.ErrTruncatedBatch.

Local Abbreviation safe := (Prelude.safe batch_error).

Lemma batch_errors :
  batch_error engine.ErrCorruptBatch /\ batch_error engine.ErrBadVersion /\
  batch_error engine.ErrUnknownOpType /\ batch_error engine.ErrTruncatedBatch.
Proof. unfold batch_error. naive_solver. Qed.

#[local] Hint Extern 1 (batch_error _) => apply batch_errors : beach.

Lemma decodeOperation_safe r : safe (decodeOperation r).
Proof.
  unfold decodeOperation. safe_read. destruct (negb _); [auto with beach|].
  safe_read. safe_read. case_decide; [|auto with beach].
  safe_read. safe_read. auto with beach.
Qed.

Lemma decode_loop_fuel fuel count acc r :
  (length (rest r) < fuel)%nat -> safe (decode_loop fuel count acc r).
Proof.
  revert count acc r. induction fuel as [|fuel IH]; intros count acc r Hl; [lia|].
  cbn [decode_loop]. destruct (count <=? 0); [apply safe_Ok|].
  apply safe_bind; [apply decodeOperation_safe|]. intros [op r'] E.
  apply IH. apply decodeOperation_sound in E as [_ E%consumed_length].
  rewrite length_op_wire in E. unfold op_size in E. lia.
Qed.

Lemma DecodeBatch_safe data : safe (DecodeBatch data).
Proof.
  unfold DecodeBatch. safe_read. destruct (negb _); [auto with beach|].
  safe_read. destruct (negb _); [auto with beach|].
  safe_read. apply safe_bind.
  - apply decode_loop_fuel.
    apply ReadByte_consumed, consumed_length in E. apply ReadBytes_consumed in E0 as [E0 _]; [|lia].
    apply consumed_length in E0. apply ReadUint32_consumed in E1 as [E1%consumed_length _].
    rewrite rest_new in E. rewrite length_be_bytes in E1. lia.
  - intros [out r'] _. destruct (negb _); auto with beach.
Qed.

(** ** Properties *)

(** One call of the batch API: [Put(key, value)] or [Delete(key)]. *)
Definition apply_call (b : Batch) (call : bytes * option bytes) : Batch :=
  match call with
  | (key, Some value) => Put key value b
  | (key, None) => Delete key b
  end.

Definition build (calls : list (bytes * option bytes)) : Batch := fold_left apply_call calls NewBatch.

Definition call_fits (call : bytes * option bytes) : Prop :=
  is_u32 (zlen call.1) /\ is_u32 (zlen (default [] call.2)).
#[export] Instance call_fits_dec c : Decision (call_fits c).
Proof. unfold call_fits. apply _. Defined.

Definition op_of_call (call : bytes * option bytes) : operation :=
  match call with
  | (key, Some value) => mkOperation OpTypePut key value
  | (key, None) => mkOperation OpTypeDelete key []
  end.

Lemma build_ops calls : ops (build calls) = map op_of_call calls.
Proof.
  unfold build. assert (forall b, ops (fold_left apply_call calls b) = ops b ++ map op_of_call calls) as H.
  { induction calls as [|[k [v|]] calls IH]; intros b; cbn; [by rewrite app_nil_r|..];
      rewrite IH; cbn; by rewrite <-app_assoc. }
  apply H.
Qed.

Lemma op_of_call_wf call : call_fits call -> wf_op (op_of_call call).
Proof. destruct call as [k [v|]]; intros [H1 H2]; split; cbn in *; auto. Qed.

(** C24: round trip.  A batch built by any calls of [Put] and [Delete]
    whose keys, values and number fit 32 bits encodes, and its encoding decodes
    to the same operations in the same order; [Count] is the number of calls. *)
Theorem batch_roundtrip (calls : list (bytes * option bytes)) :
  Forall call_fits calls -> is_u32 (zlen calls) ->
  exists data, Encode (build calls) = Ok data /\ DecodeBatch data = Ok (build calls) /\
    ops (build calls) = map op_of_call calls /\ Count (build calls) = length calls.
Proof.
  intros Hc Hn.
  assert (wf_ops (ops (build calls))) as Hwf.
  { rewrite build_ops. split.
    - rewrite Forall_map. eapply Forall_impl; [done|]. apply op_of_call_wf.
    - unfold zlen in *. by rewrite length_map. }
  exists (batch_wire (ops (build calls))). unfold Encode.
  rewrite encodeOperations_wire by apply Hwf. rewrite DecodeBatch_wire by done.
  split_and!; [done|by destruct (build calls)|apply build_ops|].
  unfold Count. by rewrite build_ops, length_map.
Qed.

Lemma batch_roundtrip_witness :
  exists data, Encode (build [([x61], Some [x31]); ([x62], None)]) = Ok data /\
    DecodeBatch data = Ok (build [([x61], Some [x31]); ([x62], None)]) /\
    ops (build [([x61], Some [x31]); ([x62], None)]) =
      map op_of_call [([x61], Some [x31]); ([x62], None)] /\
    Count (build [([x61], Some [x31]); ([x62], None)]) = 2%nat.
Proof.
  apply (batch_roundtrip [([x61], Some [x31]); ([x62], None)]).
  - repeat constructor; unfold is_u32, zlen; cbn; lia.
  - unfold is_u32, zlen. cbn. lia.
Defined.

(** C37: decoding is total, canonical and bounded.  On every byte
    string, in a number of rounds bounded by its length, [DecodeBatch] either
    returns well-formed operations whose encoding is that very string, or one of
    its four errors, and then the string is the encoding of no well-formed
    operations; it never panics. *)
Theorem batch_decode_exact (data : bytes) :
  (exists b, DecodeBatch data = Ok b /\ wf_ops (ops b) /\ Encode b = Ok data) \/
  (exists e, DecodeBatch data = Err e /\ batch_error e /\
     forall b, wf_ops (ops b) -> Encode b <> Ok data).
Proof.
  destruct (DecodeBatch_safe data) as [[b H]|(e & H & He)].
  - left. exists b. split; [done|]. apply DecodeBatch_sound in H as [Hwf ->].
    split; [done|]. unfold Encode. by rewrite encodeOperations_wire by apply Hwf.
  - right. exists e. split_and!; [done..|]. intros b Hwf Hb. unfold Encode in Hb.
    rewrite encodeOperations_wire in Hb by apply Hwf. simplify_eq.
    by rewrite DecodeBatch_wire in H.
Qed.
