(* ===== verification/Memtable.v ===== *)
(** * The memtable interface (internal/memtable/memtable.go, iterator.go)

    What a memtable promises to the engine, stated over the list of its
    entries in internal-key order, and the type class an implementation
    instantiates.  [mem_new] takes the stream of random numbers the new
    memtable will draw, [mem_scan] is a complete pass of the iterator
    (open, seek to the first entry, read to the end, close).  The same entry lists specify SSTables. *)
From Stdlib Require Import QArith_base.
From S2P Require Import Prelude.
From S2P Require Import Errors.
From S2P Require Import Keys.

Local Open Scope Z_scope.

(** An entry: internal key and value. *)
Abbreviation entry := (InternalKey * bytes)%type.

Definition entry_lt (k : InternalKey) (e : entry) : Prop := klt e.1 k.
#[export] Instance entry_lt_dec k e : Decision (entry_lt k e).
Proof. unfold entry_lt. apply _. Defined.

(** Entries in internal-key order; versions of one user key newest first. *)
Definition sorted_entries (es : list entry) : Prop := StronglySorted (fun a b => kle a.1 b.1) es.

(** Strictly: no two entries share user key and sequence number. *)
Definition strict_entries (es : list entry) : Prop := StronglySorted (fun a b => klt a.1 b.1) es.

(** Where a new entry goes: in front of the first entry that is not smaller. *)
Fixpoint insert_entry (e : entry) (es : list entry) : list entry :=
  match es with
  | [] => [e]
  | x :: es' => if decide (entry_lt e.1 x) then x :: insert_entry e es' else e :: es
  end.

(** The versions of [userKey] a reader at [seqno] may see, newest first. *)
Definition visible (userKey : bytes) (seqno : Z) (e : entry) : Prop :=
  UserKey e.1 = userKey /\ Seqno e.1 <= seqno.
#[export] Instance visible_dec u s e : Decision (visible u s e).
Proof. unfold visible. apply _. Defined.

Definition newest_visible (userKey : bytes) (seqno : Z) (es : list entry) : option entry :=
  head (filter (visible userKey seqno) es).

(** [Get]'s results [(value, found)]: absent, deleted, or the value. *)
Definition get_entry (o : option entry) : option bytes * bool :=
  match o with
  | None => (None, false)
  | Some e => if decide (Kind e.1 = InternalKeyKindDelete) then (None, true) else (Some e.2, true)
  end.

(** The reference lookup. *)
Definition entries_get (userKey : bytes) (seqno : Z) (es : list entry) : option bytes * bool :=
  get_entry (newest_visible userKey seqno es).

(** The search key of a lookup. *)
Definition search_key (userKey : bytes) (seqno : Z) : InternalKey := mkInternalKey userKey seqno x00.

(** The first entry not below a key. *)
Definition first_ge (k : InternalKey) (es : list entry) : option entry :=
  head (filter (fun e => ~ entry_lt k e) es).

(** ** The interface

    [Mem] is the implementation's state; [entries] its abstraction, defined on
    the states satisfying [mem_inv].  Each law is the functional behaviour of
    one method. *)
Class Memtable (Mem : Type) := {
  mem_new : (nat -> Q) -> Mem;
  mem_put : InternalKey -> bytes -> Mem -> res Mem;
  mem_get : bytes -> Z -> Mem -> res (option bytes * bool);
  mem_scan : Mem -> res (list entry * Mem);
  mem_len : Mem -> nat;
  mem_size : Mem -> Z;
  mem_empty : Mem -> bool;
  mem_inv : Mem -> Prop;
  entries : Mem -> list entry
}.

Class MemtableLaws (Mem : Type) `{!Memtable Mem} : Prop := {
  mem_new_spec r : mem_inv (mem_new r) /\ entries (mem_new r) = [];
  mem_sorted m : mem_inv m -> sorted_entries (entries m);
  mem_put_spec k v m : mem_inv m ->
    exists m', mem_put k v m = Ok m' /\ mem_inv m' /\
      entries m' = insert_entry (k, v) (entries m) /\
      (mem_size m + zlen (UserKey k) + zlen v < mem_size m')%Z;
  mem_get_spec u s m : mem_inv m -> mem_get u s m = Ok (entries_get u s (entries m));
  mem_scan_spec m : mem_inv m -> mem_scan m = Ok (entries m, m);
  mem_len_spec m : mem_inv m -> mem_len m = length (entries m);
  mem_empty_spec m : mem_inv m -> (mem_empty m = true <-> entries m = [])
}.

(** ** Facts about entry lists *)
Lemma entry_lt_mono k e1 e2 : kle e1.1 e2.1 -> entry_lt k e2 -> entry_lt k e1.
Proof. unfold entry_lt. apply kle_klt_trans. Qed.

(** In a sorted list the entries below a key are a prefix. *)
Lemma sorted_split k es :
  sorted_entries es ->
  es = filter (entry_lt k) es ++ filter (fun e => ~ entry_lt k e) es.
Proof.
  induction 1 as [|e es Hs IH Hle]; [done|].
  destruct (decide (entry_lt k e)) as [Hlt|Hge].
  - rewrite filter_cons_True, (filter_cons_False (fun e => ~ _)) by tauto. cbn. by f_equal.
  - rewrite filter_cons_False, (filter_cons_True (fun e => ~ _)) by tauto.
    assert (filter (entry_lt k) es = []) as Hnil.
    { apply filter_none. intros x Hx Hxk. apply Hge.
      rewrite Forall_forall in Hle. by eapply entry_lt_mono, Hxk; apply Hle. }
    rewrite Hnil in *. cbn. by f_equal.
Qed.

Lemma insert_entry_split e es :
  sorted_entries es ->
  insert_entry e es = filter (entry_lt e.1) es ++ e :: filter (fun x => ~ entry_lt e.1 x) es.
Proof.
  induction 1 as [|x es Hs IH Hle]; [done|]. cbn [insert_entry].
  case_decide as Hlt.
  - rewrite filter_cons_True, (filter_cons_False (fun e => ~ _)) by tauto. cbn. by f_equal.
  - assert (sorted_entries (x :: es)) as Hsx by (by constructor).
    pose proof (sorted_split e.1 _ Hsx) as E.
    assert (filter (entry_lt e.1) (x :: es) = []) as Hnil; [|by rewrite Hnil in *; cbn in E |- *; rewrite <-E].
    apply filter_none. intros y Hy Hye. apply Hlt. apply elem_of_cons in Hy as [->|Hy]; [done|].
    rewrite Forall_forall in Hle. by eapply entry_lt_mono, Hye; apply Hle.
Qed.

Lemma insert_entry_elem e x es : x ∈ insert_entry e es <-> x = e \/ x ∈ es.
Proof.
  induction es as [|y es IH]; cbn; [set_solver|]. case_decide; set_solver.
Qed.

Lemma insert_entry_sorted e es : sorted_entries es -> sorted_entries (insert_entry e es).
Proof.
  unfold sorted_entries. induction 1 as [|x es Hs IH Hle]; cbn.
  { repeat constructor. }
  case_decide as Hlt.
  - constructor; [done|]. rewrite Forall_forall in *. intros y [->|Hy]%insert_entry_elem; [|by apply Hle].
    apply klt_kle, Hlt.
  - assert (kle e.1 x.1) as Hx by (by apply kle_not_klt).
    constructor; [by constructor|]. constructor; [done|].
    rewrite Forall_forall in *. intros y Hy. specialize (Hle y Hy).
    apply kle_not_klt. intros Hye. apply Hlt. by eapply entry_lt_mono, Hye.
Qed.

Lemma insert_entry_length e es : length (insert_entry e es) = S (length es).
Proof. induction es as [|x es IH]; cbn; [done|]. case_decide; cbn; lia. Qed.

(** Strictness is kept when the position is new. *)
Lemma insert_entry_strict e es :
  strict_entries es -> Forall (fun x => key_pos x.1 <> key_pos e.1) es ->
  strict_entries (insert_entry e es).
Proof.
  unfold strict_entries. induction 1 as [|x es Hs IH Hle]; cbn; intros Hne.
  { repeat constructor. }
  apply Forall_cons in Hne as [Hx Hne]. case_decide as Hlt.
  - constructor; [by apply IH|]. rewrite Forall_forall in *.
    intros y [->|Hy]%insert_entry_elem; [done|by apply Hle].
  - assert (klt e.1 x.1) as Hex.
    { unfold entry_lt, klt in *. rewrite <-Compare_eq in Hx. rewrite (Compare_antisym x.1 e.1). lia. }
    constructor; [by constructor|]. constructor; [done|].
    rewrite Forall_forall in *. intros y Hy. by etrans; [|by apply Hle].
Qed.

Lemma strict_sorted es : strict_entries es -> sorted_entries es.
Proof.
  induction 1 as [|x es Hs IH Hle]; constructor; [done|].
  eapply Forall_impl; [done|]. intros; by apply klt_kle.
Qed.

(** The reference lookup is one step from the search position: the entry a
    sorted structure finds first at or after [(userKey, seqno)]. *)
Lemma newest_visible_first_ge u s es :
  sorted_entries es ->
  newest_visible u s es =
    match first_ge (search_key u s) es with
    | Some e => if decide (UserKey e.1 = u) then Some e else None
    | None => None
    end.
Proof.
  intros Hs. unfold newest_visible, first_ge.
  induction Hs as [|e es Hs IH Hle]; [done|].
  destruct (decide (entry_lt (search_key u s) e)) as [Hlt|Hge].
  - rewrite (filter_cons_False (fun e => ~ _)) by tauto. rewrite filter_cons_False; [done|].
    unfold entry_lt in Hlt. rewrite klt_spec in Hlt. cbn in Hlt. intros [Hu Hq].
    destruct Hlt as [Hc|[_ ?]]; [|lia]. rewrite Hu, bytes_Compare_refl in Hc. lia.
  - rewrite (filter_cons_True (fun e => ~ _)) by tauto. cbn [head].
    unfold entry_lt in Hge. rewrite klt_spec in Hge. cbn in Hge.
    case_decide as Hu.
    + rewrite filter_cons_True; [done|]. split; [done|].
      assert (~ s < Seqno e.1) by tauto. lia.
    + assert (bytes_Compare u (UserKey e.1) < 0) as Hlt.
      { rewrite bytes_Compare_antisym. assert (bytes_Compare (UserKey e.1) u <> 0) by
          (by rewrite bytes_Compare_eq). assert (~ bytes_Compare (UserKey e.1) u < 0) by tauto. lia. }
      assert (filter (visible u s) (e :: es) = []) as ->; [|done].
      apply filter_none. intros x Hx [Hxu _]. apply elem_of_cons in Hx as [->|Hx]; [done|].
      rewrite Forall_forall in Hle. specialize (Hle x Hx). apply kle_not_klt in Hle. apply Hle.
      rewrite klt_spec. left. by rewrite Hxu.
Qed.

(** The insertion point, given as a split. *)
Lemma insert_entry_app e es1 es2 :
  Forall (entry_lt e.1) es1 -> Forall (fun x => ~ entry_lt e.1 x) es2 ->
  insert_entry e (es1 ++ es2) = es1 ++ e :: es2.
Proof.
  intros H1 H2. induction H1 as [|x es1 Hx H1 IH]; cbn.
  - destruct H2 as [|x es2 Hx H2]; cbn; [done|]. by rewrite decide_False.
  - rewrite decide_True by done. by f_equal.
Qed.

Lemma first_ge_app k es1 es2 :
  Forall (entry_lt k) es1 -> Forall (fun x => ~ entry_lt k x) es2 ->
  first_ge k (es1 ++ es2) = head es2.
Proof.
  intros H1 H2. unfold first_ge. rewrite filter_app.
  rewrite filter_none by (rewrite Forall_forall in H1; intros x Hx Hn; by apply Hn, H1).
  rewrite filter_all by (by rewrite <-Forall_forall). done.
Qed.

(** ** A log of writes

    What a memtable holds after the writes of [l], oldest first. *)
Definition insert_all (l es : list entry) : list entry :=
  foldl (fun es kv => insert_entry kv es) es l.

Lemma insert_all_length l es : length (insert_all l es) = (length l + length es)%nat.
Proof.
  unfold insert_all. revert es; induction l as [|kv l IH]; intros es; cbn; [done|].
  rewrite IH, insert_entry_length. lia.
Qed.

Lemma insert_all_snoc l e es : insert_all (l ++ [e]) es = insert_entry e (insert_all l es).
Proof. unfold insert_all. by rewrite foldl_app. Qed.

Lemma insert_all_elem l es x : x ∈ insert_all l es <-> x ∈ l \/ x ∈ es.
Proof.
  induction l as [|e l IH] using rev_ind; [cbn; set_solver|].
  rewrite insert_all_snoc, insert_entry_elem, IH. set_solver.
Qed.

Lemma insert_all_sorted l es : sorted_entries es -> sorted_entries (insert_all l es).
Proof.
  intros Hs. induction l as [|e l IH] using rev_ind; [done|].
  rewrite insert_all_snoc. by apply insert_entry_sorted.
Qed.

(** Writes in sequence-number order. *)
Definition log_ordered (l : list entry) : Prop := StronglySorted (fun a b => Seqno a.1 < Seqno b.1) l.

Lemma log_ordered_app l1 l2 :
  log_ordered (l1 ++ l2) <->
    log_ordered l1 /\ log_ordered l2 /\ forall a b, a ∈ l1 -> b ∈ l2 -> Seqno a.1 < Seqno b.1.
Proof.
  unfold log_ordered. induction l1 as [|x l1 IH]; cbn.
  - split; [|tauto]. intros H. split_and!; [constructor|done|]. intros a b Ha. by apply not_elem_of_nil in Ha.
  - split.
    + intros H. apply StronglySorted_inv in H as [H Hx]. apply IH in H as (H1 & H2 & H12).
      apply Forall_app in Hx as [Hx1 Hx2]. split_and!; [by constructor|done|].
      rewrite Forall_forall in Hx2. intros a b [->|Ha]%elem_of_cons Hb; auto.
    + intros (H1 & H2 & H12). apply StronglySorted_inv in H1 as [H1 Hx]. constructor.
      * apply IH. split_and!; [done|done|]. intros a b Ha Hb. apply H12; [by right|done].
      * apply Forall_app. split; [done|]. apply Forall_forall. intros b Hb. apply H12; [by left|done].
Qed.

Lemma log_ordered_last l e : log_ordered (l ++ [e]) -> log_ordered l /\ forall a, a ∈ l -> Seqno a.1 < Seqno e.1.
Proof.
  intros (H1 & _ & H)%log_ordered_app. split; [done|]. intros a Ha. apply H; [done|by apply list_elem_of_singleton].
Qed.

Lemma insert_all_strict l : log_ordered l -> strict_entries (insert_all l []).
Proof.
  induction l as [|e l IH] using rev_ind; intros H; [constructor|].
  apply log_ordered_last in H as [Hl He]. rewrite insert_all_snoc.
  apply insert_entry_strict; [by apply IH|]. apply Forall_forall. intros x Hx [= _ E].
  apply insert_all_elem in Hx as [Hx|Hx]; [|by apply not_elem_of_nil in Hx]. specialize (He x Hx). lia.
Qed.

Definition of_user (u : bytes) (e : entry) : Prop := UserKey e.1 = u.
#[export] Instance of_user_dec u e : Decision (of_user u e).
Proof. unfold of_user. apply _. Defined.

(** The last write to a user key. *)
Definition last_write (u : bytes) (l : list entry) : option entry := last (filter (of_user u) l).

Lemma last_write_snoc u l e :
  last_write u (l ++ [e]) = if decide (of_user u e) then Some e else last_write u l.
Proof.
  unfold last_write. rewrite filter_app. case_decide as H.
  - rewrite filter_cons_True by done. apply last_snoc.
  - rewrite filter_cons_False by done. by rewrite app_nil_r.
Qed.

Lemma last_write_app u l1 l2 :
  last_write u (l1 ++ l2) = match last_write u l2 with Some e => Some e | None => last_write u l1 end.
Proof. unfold last_write. rewrite filter_app, last_app. by destruct (last _). Qed.

(** An entry newer than all others hides the older versions of its key. *)
Lemma newest_visible_insert u s e es :
  sorted_entries es -> Seqno e.1 <= s -> (forall x, x ∈ es -> Seqno x.1 < Seqno e.1) ->
  newest_visible u s (insert_entry e es) =
    if decide (of_user u e) then Some e else newest_visible u s es.
Proof.
  intros Hs He Hnew. rewrite insert_entry_split by done. unfold newest_visible. rewrite filter_app.
  case_decide as Hu.
  - rewrite (filter_cons_True _ e) by done. rewrite filter_none; [done|].
    intros x (Hlt & Hx)%list_elem_of_filter [Hxu _]. specialize (Hnew x Hx).
    unfold entry_lt in Hlt. rewrite klt_spec, Hxu, Hu, bytes_Compare_refl in Hlt. lia.
  - rewrite (filter_cons_False _ e) by (intros [? _]; done). rewrite <-filter_app.
    by rewrite <-sorted_split.
Qed.

(** Looking up in a memtable is looking for the last write. *)
Lemma newest_visible_log u s l :
  log_ordered l -> Forall (fun e => Seqno e.1 <= s) l -> newest_visible u s (insert_all l []) = last_write u l.
Proof.
  induction l as [|e l IH] using rev_ind; intros Ho Hs; [done|].
  apply log_ordered_last in Ho as [Hl He]. apply Forall_app in Hs as [Hs1 [Hs2 _]%Forall_cons].
  rewrite insert_all_snoc, last_write_snoc, newest_visible_insert.
  - by rewrite IH.
  - apply insert_all_sorted. constructor.
  - exact Hs2.
  - intros x [Hx|Hx]%insert_all_elem; [by apply He|by apply not_elem_of_nil in Hx].
Qed.

(** ** The map a log describes *)
Definition apply_write (m : gmap bytes bytes) (e : entry) : gmap bytes bytes :=
  if decide (Kind e.1 = InternalKeyKindDelete) then delete (UserKey e.1) m else <[UserKey e.1 := e.2]> m.

Definition log_map (l : list entry) : gmap bytes bytes := foldl apply_write ∅ l.

Lemma log_map_lookup l u :
  log_map l !! u =
    match last_write u l with
    | None => None
    | Some e => if decide (Kind e.1 = InternalKeyKindDelete) then None else Some e.2
    end.
Proof.
  induction l as [|e l IH] using rev_ind; [apply lookup_empty|].
  unfold log_map. rewrite foldl_app, last_write_snoc. cbn [foldl]. fold (log_map l). unfold apply_write, of_user.
  destruct (decide (UserKey e.1 = u)) as [<-|Hu]; destruct (decide (Kind e.1 = InternalKeyKindDelete));
    rewrite ?lookup_delete_eq, ?lookup_insert_eq, ?lookup_delete_ne, ?lookup_insert_ne by done; try exact IH; done.
Qed.
