(* ===== verification/SkipList.v ===== *)
(** * The skip list (internal/memtable/skiplist.go)

    The skip list as the code has it: nodes on a heap, linked level by level
    through their [next] slices.  A node pointer is an address; [nil] is
    [None]; dereferencing or indexing out of range panics.  The random source
    is the stream of the numbers [rng.Float64()] will return. *)
From Stdlib Require Import QArith.
From S2P Require Import Prelude.
From S2P Require Import Errors.
From S2P Require Import Keys.
From S2P Require Import Memtable.

Local Close Scope Q_scope.
Local Open Scope nat_scope.

Abbreviation ptr := nat.

Record skipNode := mkNode { n_key : InternalKey; n_value : bytes; n_next : list (option ptr) }.

(** [memSize]: key, value, seqno and kind, the pointer slice, and overhead. *)
Definition memSize (n : skipNode) : Z :=
  Z.of_nat (length (UserKey (n_key n)) + length (n_value n) + (8 + 1) +
    length (n_next n) * 8 + 24).

(** [sl_readers] counts the read locks held on [mu] by open iterators. *)
Record SkipList := mkSkipList {
  sl_heap : gmap ptr skipNode;
  sl_fresh : ptr;
  sl_rng : nat -> Q;
  sl_head : ptr;
  sl_maxLevel : nat;
  sl_level : nat;
  sl_length : nat;
  sl_size : Z;
  sl_readers : nat
}.

Definition maxLevel : nat := 12.

Definition NewSkipList (rng : nat -> Q) : SkipList :=
  mkSkipList {[ 0 := mkNode zeroKey [] (replicate maxLevel None) ]} 1 rng 0 maxLevel 1 0 0 0.

(** ** Heap access *)
Definition deref (h : gmap ptr skipNode) (p : ptr) : res skipNode :=
  match h !! p with Some n => Ok n | None => Panic end.

(** [p.next[i]]. *)
Definition get_next (h : gmap ptr skipNode) (p : ptr) (i : nat) : res (option ptr) :=
  n ← deref h p; index i (n_next n).

(** [p.next[i] = q]. *)
Definition set_next (h : gmap ptr skipNode) (p : ptr) (i : nat) (q : option ptr)
  : res (gmap ptr skipNode) :=
  n ← deref h p; nx ← store i q (n_next n); Ok (<[p := mkNode (n_key n) (n_value n) nx]> h).

(** ** Levels *)
Definition Float64 (rng : nat -> Q) : Q * (nat -> Q) := (rng 0, fun n => rng (S n)).

(** [for level < sl.maxLevel { if Float64() >= 0.25 { break }; level++ }]. *)
Fixpoint level_loop (fuel level : nat) (rng : nat -> Q) : nat * (nat -> Q) :=
  match fuel with
  | O => (level, rng)
  | S fuel =>
      let '(x, rng) := Float64 rng in
      if Qle_bool (1 # 4) x then (level, rng) else level_loop fuel (S level) rng
  end.

Definition randomLevel (sl : SkipList) : nat * (nat -> Q) :=
  level_loop (sl_maxLevel sl - 1) 1 (sl_rng sl).

(** ** Search *)

(** The inner loop of [findPredecessors] at one level.  Each round moves to a
    later node, so the number of nodes bounds the rounds. *)
Fixpoint advance_right (fuel : nat) (h : gmap ptr skipNode) (key : InternalKey)
    (level : nat) (current : ptr) : res ptr :=
  match fuel with
  | O => Panic
  | S fuel =>
      nx ← get_next h current level;
      match nx with
      | None => Ok current
      | Some q =>
          n ← deref h q;
          if (Compare (n_key n) key <? 0)%Z then advance_right fuel h key level q else Ok current
      end
  end.

(** The outer loop: levels from the top down, [current] carried along. *)
Fixpoint find_loop (levels : nat) (fuel : nat) (h : gmap ptr skipNode) (key : InternalKey)
    (current : ptr) (preds : list ptr) : res (list ptr) :=
  match levels with
  | O => Ok preds
  | S level =>
      current ← advance_right fuel h key level current;
      preds ← store level current preds;
      find_loop level fuel h key current preds
  end.

Definition findPredecessors (sl : SkipList) (key : InternalKey) : res (list ptr) :=
  find_loop (sl_maxLevel sl) (S (size (sl_heap sl))) (sl_heap sl) key (sl_head sl)
    (replicate (sl_maxLevel sl) (sl_head sl)).

(** [preds[0].next[0]]. *)
Definition first_after (sl : SkipList) (preds : list ptr) : res (option ptr) :=
  p0 ← index 0 preds; get_next (sl_heap sl) p0 0.

(** ** Put *)

(** [for i := sl.level; i < nodeLevel; i++ { preds[i] = sl.head }]. *)
Fixpoint reset_preds (count i : nat) (head : ptr) (preds : list ptr) : res (list ptr) :=
  match count with
  | O => Ok preds
  | S count => preds ← store i head preds; reset_preds count (S i) head preds
  end.

(** [for i := range nodeLevel]: splice the new node in after [preds[i]]. *)
Fixpoint wire_loop (count i : nat) (new : ptr) (preds : list ptr) (h : gmap ptr skipNode)
  : res (gmap ptr skipNode) :=
  match count with
  | O => Ok h
  | S count =>
      p ← index i preds;
      nx ← get_next h p i;
      h ← set_next h new i nx;
      h ← set_next h p i (Some new);
      wire_loop count (S i) new preds h
  end.

Definition Put (key : InternalKey) (value : bytes) (sl : SkipList) : res SkipList :=
  preds ← findPredecessors sl key;
  let '(nodeLevel, rng) := randomLevel sl in
  preds ← (if sl_level sl <? nodeLevel
           then reset_preds (nodeLevel - sl_level sl) (sl_level sl) (sl_head sl) preds
           else Ok preds);
  let level := if sl_level sl <? nodeLevel then nodeLevel else sl_level sl in
  let new := sl_fresh sl in
  let newNode := mkNode key value (replicate nodeLevel None) in
  h ← wire_loop nodeLevel 0 new preds (<[new := newNode]> (sl_heap sl));
  Ok (mkSkipList h (S new) rng (sl_head sl) (sl_maxLevel sl) level
        (S (sl_length sl)) (sl_size sl + memSize newNode)%Z (sl_readers sl)).

(** ** Get *)
Definition Get (userKey : bytes) (seqno : Z) (sl : SkipList) : res (option bytes * bool) :=
  preds ← findPredecessors sl (mkInternalKey userKey seqno x00);
  node ← first_after sl preds;
  match node with
  | None => Ok (None, false)
  | Some p =>
      n ← deref (sl_heap sl) p;
      if negb (bytes_Equal (UserKey (n_key n)) userKey) then Ok (None, false)
      else if (seqno <? Seqno (n_key n))%Z then Ok (None, false)
      else if bool_decide (Kind (n_key n) = InternalKeyKindDelete) then Ok (None, true)
      else Ok (Some (n_value n), true)
  end.

Definition Len (sl : SkipList) : nat := sl_length sl.
Definition Size (sl : SkipList) : Z := sl_size sl.
Definition Empty (sl : SkipList) : bool := (sl_length sl =? 0).

(** ** Iterator

    [it_list] is nil after [Close]; [it_locked] says whether the iterator holds
    a read lock on the list. *)
Record SkipListIterator := mkIterator { it_list : bool; it_node : option ptr; it_locked : bool }.

Definition NewSkipListIterator : SkipListIterator := mkIterator true None false.

Definition set_readers (n : nat) (sl : SkipList) : SkipList :=
  mkSkipList (sl_heap sl) (sl_fresh sl) (sl_rng sl) (sl_head sl) (sl_maxLevel sl)
    (sl_level sl) (sl_length sl) (sl_size sl) n.

(** [acquireLock]; [it.list] must not be nil when the lock is taken. *)
Definition acquireLock (it : SkipListIterator) (sl : SkipList) : res (SkipListIterator * SkipList) :=
  if it_locked it then Ok (it, sl)
  else if it_list it
  then Ok (mkIterator true (it_node it) true, set_readers (S (sl_readers sl)) sl)
  else Panic.

Definition SeekToFirst (it : SkipListIterator) (sl : SkipList) : res (SkipListIterator * SkipList) :=
  '(it, sl) ← acquireLock it sl;
  node ← get_next (sl_heap sl) (sl_head sl) 0;
  Ok (mkIterator (it_list it) node (it_locked it), sl).

Definition maxSeqno : Z := (2 ^ 64 - 1)%Z.

Definition Seek (target : bytes) (it : SkipListIterator) (sl : SkipList)
  : res (SkipListIterator * SkipList) :=
  '(it, sl) ← acquireLock it sl;
  preds ← findPredecessors sl (mkInternalKey target maxSeqno InternalKeyKindPut);
  node ← first_after sl preds;
  Ok (mkIterator (it_list it) node (it_locked it), sl).

Definition Valid (it : SkipListIterator) : bool := bool_decide (it_node it <> None).

Definition Next (it : SkipListIterator) (sl : SkipList) : res SkipListIterator :=
  match it_node it with
  | None => Ok it
  | Some p => node ← get_next (sl_heap sl) p 0; Ok (mkIterator (it_list it) node (it_locked it))
  end.

Definition Key (it : SkipListIterator) (sl : SkipList) : res InternalKey :=
  match it_node it with None => Ok zeroKey | Some p => n ← deref (sl_heap sl) p; Ok (n_key n) end.

Definition Value (it : SkipListIterator) (sl : SkipList) : res (option bytes) :=
  match it_node it with None => Ok None | Some p => n ← deref (sl_heap sl) p; Ok (Some (n_value n)) end.

Definition Close (it : SkipListIterator) (sl : SkipList) : SkipListIterator * SkipList :=
  (mkIterator false None false,
   if it_locked it then set_readers (sl_readers sl - 1) sl else sl).

(** The loop of the iterator's clients: position first, then read and advance
    until the iterator is no longer valid, and close. *)
Fixpoint scan_loop (fuel : nat) (it : SkipListIterator) (sl : SkipList) (acc : list entry)
  : res (list entry * SkipListIterator) :=
  match fuel with
  | O => Panic
  | S fuel =>
      if Valid it then
        k ← Key it sl;
        v ← Value it sl;
        it ← Next it sl;
        scan_loop fuel it sl (acc ++ [(k, default [] v)])
      else Ok (acc, it)
  end.

Definition scan (sl : SkipList) : res (list entry * SkipList) :=
  '(it, sl) ← SeekToFirst NewSkipListIterator sl;
  '(es, it) ← scan_loop (S (size (sl_heap sl))) it sl [];
  Ok (es, (Close it sl).2).

(** ** Levels *)
Lemma level_loop_range fuel level rng :
  level <= (level_loop fuel level rng).1 <= level + fuel.
Proof.
  revert level rng; induction fuel as [|fuel IH]; intros level rng; cbn; [lia|].
  destruct (Qle_bool _ _); cbn; [lia|].
  pose proof (IH (S level) (fun n => rng (S n))). lia.
Qed.

Lemma randomLevel_range sl :
  1 <= sl_maxLevel sl -> 1 <= (randomLevel sl).1 <= sl_maxLevel sl.
Proof. intros H. pose proof (level_loop_range (sl_maxLevel sl - 1) 1 (sl_rng sl)). unfold randomLevel. lia. Qed.

(** ** Links and paths

    [link h i p] is [p.next[i]]; [path h i p l] says that following the level-[i]
    pointers from [p] visits exactly the nodes [l] and ends in [nil]. *)
Definition link (h : gmap ptr skipNode) (i : nat) (p : ptr) : option (option ptr) :=
  h !! p ≫= fun n => n_next n !! i.

Fixpoint path (h : gmap ptr skipNode) (i : nat) (p : ptr) (l : list ptr) : Prop :=
  match l with
  | [] => link h i p = Some None
  | q :: l => link h i p = Some (Some q) /\ path h i q l
  end.

Lemma get_next_link h p i x : link h i p = Some x -> get_next h p i = Ok x.
Proof.
  unfold link, get_next, deref, index. destruct (h !! p) as [n|]; [|done]. cbn.
  intros H. by rewrite H.
Qed.

Lemma path_ext h h' i p l :
  (forall q, link h i q = link h' i q) -> path h i p l -> path h' i p l.
Proof.
  intros E. revert p; induction l as [|q l IH]; intros p; cbn; rewrite E; [done|].
  intros [? ?]; auto.
Qed.

Lemma path_app h i p l1 q l2 : path h i p (l1 ++ q :: l2) -> path h i q l2.
Proof.
  revert p; induction l1 as [|x l1 IH]; intros p; cbn; [by intros [_ ?]|].
  intros [_ H]. by eapply IH.
Qed.

(** The node before the rest of a path. *)
Definition last_of (p : ptr) (l : list ptr) : ptr := default p (last l).

Lemma last_of_cons p q l : last_of p (q :: l) = last_of q l.
Proof. unfold last_of. rewrite last_cons. by destruct (last l). Qed.

Lemma last_of_app p l1 l2 : last_of p (l1 ++ l2) = last_of (last_of p l1) l2.
Proof. revert p; induction l1 as [|x l1 IH]; intros p; [done|]. cbn [app]. by rewrite !last_of_cons, IH. Qed.

Lemma last_of_elem p l : last_of p l ∈ p :: l.
Proof.
  revert p; induction l as [|x l IH]; intros p; [set_solver|].
  rewrite last_of_cons. specialize (IH x). set_solver.
Qed.

Lemma path_last h i p l1 l2 : path h i p (l1 ++ l2) -> path h i (last_of p l1) l2.
Proof.
  revert p; induction l1 as [|x l1 IH]; intros p; [done|]. cbn [app path].
  intros [_ H]. rewrite last_of_cons. auto.
Qed.

(** Splicing a node into a path after the prefix [l1]. *)
Lemma path_insert h h' i p l1 l2 new :
  NoDup (p :: l1 ++ l2) -> new ∉ p :: l1 ++ l2 ->
  link h' i new = link h i (last_of p l1) ->
  link h' i (last_of p l1) = Some (Some new) ->
  (forall q, q <> new -> q <> last_of p l1 -> link h' i q = link h i q) ->
  path h i p (l1 ++ l2) -> path h' i p (l1 ++ new :: l2).
Proof.
  revert p; induction l1 as [|x l1 IH]; intros p Hnd Hnew E1 E2 E3; cbn [app] in *.
  - unfold last_of in *; cbn in *. intros Hp. split; [done|].
    assert (forall q, q ∈ l2 -> link h' i q = link h i q) as E.
    { intros q Hq. apply E3; [set_solver|]. apply NoDup_cons in Hnd as [Hp2 _]. set_solver. }
    clear E3 E2 Hnew Hnd. destruct l2 as [|y l2]; cbn in *; [by rewrite E1|].
    destruct Hp as [Hp1 Hp2]. rewrite E1. split; [done|]. clear E1 Hp1.
    revert y Hp2 E; induction l2 as [|z l2 IH]; intros y Hp2 E; cbn in *.
    + rewrite E; [done|set_solver].
    + destruct Hp2. rewrite E by set_solver. split; [done|]. apply IH; [done|]. set_solver.
  - rewrite last_of_cons in *. cbn [path]. intros [Hp1 Hp2]. apply NoDup_cons in Hnd as [Hp Hnd].
    pose proof (last_of_elem x l1) as Hlast.
    split; [|apply IH; try done; set_solver].
    rewrite E3; [done|set_solver|]. intros ->. apply Hp.
    rewrite app_comm_cons. apply elem_of_app. by left.
Qed.

(** ** Cells

    The logical content of a node: its address, key, value and height. *)
Record cell := mkCell { c_ptr : ptr; c_key : InternalKey; c_value : bytes; c_height : nat }.

Definition c_entry (c : cell) : entry := (c_key c, c_value c).
Definition ptrs (cs : list cell) : list ptr := map c_ptr cs.

Definition cell_ok (h : gmap ptr skipNode) (c : cell) : Prop :=
  exists nx, h !! c_ptr c = Some (mkNode (c_key c) (c_value c) nx) /\ length nx = c_height c.

Lemma ptrs_app cs1 cs2 : ptrs (cs1 ++ cs2) = ptrs cs1 ++ ptrs cs2.
Proof. apply map_app. Qed.

(** The cells whose towers reach level [i]. *)
Definition at_level (i : nat) (cs : list cell) : list cell := filter (fun c => i < c_height c) cs.

Lemma at_level_app i cs1 cs2 : at_level i (cs1 ++ cs2) = at_level i cs1 ++ at_level i cs2.
Proof. apply filter_app. Qed.

Lemma at_level_sublist i cs : ptrs (at_level i cs) `sublist_of` ptrs cs.
Proof.
  unfold at_level, ptrs. induction cs as [|c cs IH]; [done|].
  destruct (decide (i < c_height c)).
  - rewrite filter_cons_True by done. by apply sublist_skip.
  - rewrite filter_cons_False by done. by apply sublist_cons.
Qed.

Lemma at_level_0 cs : Forall (fun c => 1 <= c_height c) cs -> at_level 0 cs = cs.
Proof. intros H. apply filter_all. intros c Hc. rewrite Forall_forall in H. by apply H. Qed.

Lemma at_level_S i cs : at_level (S i) cs = at_level (S i) (at_level i cs).
Proof.
  unfold at_level. rewrite list_filter_filter. apply filter_ext. intros; lia.
Qed.

(** ** The representation invariant

    [repr sl cs]: the list stores the cells [cs], in internal-key order; every
    level [i] links, in this order, exactly the nodes whose tower reaches [i]. *)
Record repr (sl : SkipList) (cs : list cell) : Prop := {
  repr_max : 1 <= sl_maxLevel sl;
  repr_level : 1 <= sl_level sl <= sl_maxLevel sl;
  repr_head : cell_ok (sl_heap sl) (mkCell (sl_head sl) zeroKey [] (sl_maxLevel sl));
  repr_cells : Forall (cell_ok (sl_heap sl)) cs;
  repr_heights : Forall (fun c => 1 <= c_height c <= sl_level sl) cs;
  repr_nodup : NoDup (sl_head sl :: ptrs cs);
  repr_dom : dom (sl_heap sl) = list_to_set (sl_head sl :: ptrs cs);
  repr_fresh : Forall (fun p => p < sl_fresh sl) (sl_head sl :: ptrs cs);
  repr_paths i : i < sl_maxLevel sl -> path (sl_heap sl) i (sl_head sl) (ptrs (at_level i cs));
  repr_sorted : sorted_entries (map c_entry cs);
  repr_length : sl_length sl = length cs;
  repr_size : sl_size sl = foldr (fun c => Z.add (memSize
    (mkNode (c_key c) (c_value c) (replicate (c_height c) None)))) 0%Z cs
}.

Definition cell_lt (k : InternalKey) (c : cell) : Prop := klt (c_key c) k.
#[export] Instance cell_lt_dec k c : Decision (cell_lt k c).
Proof. unfold cell_lt. apply _. Defined.

Lemma cells_split k cs :
  sorted_entries (map c_entry cs) ->
  exists A B, cs = A ++ B /\ Forall (cell_lt k) A /\ Forall (fun c => ~ cell_lt k c) B.
Proof.
  induction cs as [|c cs IH]; cbn; intros Hs.
  - by exists [], [].
  - apply StronglySorted_inv in Hs as [Hs Hle]. destruct (decide (cell_lt k c)) as [Hc|Hc].
    + destruct (IH Hs) as (A & B & -> & HA & HB). exists (c :: A), B. auto.
    + exists [], (c :: cs). split_and!; [done..|]. constructor; [done|].
      rewrite Forall_map in Hle. eapply Forall_impl; [done|]. cbn.
      intros x Hx Hlt. apply Hc. unfold cell_lt in *. by eapply kle_klt_trans.
Qed.

(** ** Search *)
Lemma deref_cell h c : cell_ok h c -> exists nx, deref h (c_ptr c) = Ok (mkNode (c_key c) (c_value c) nx).
Proof. intros (nx & E & _). exists nx. unfold deref. by rewrite E. Qed.

(** One level of the search stops after the last smaller cell. *)
Lemma advance_right_spec h k i A B fuel p :
  Forall (cell_ok h) (A ++ B) -> Forall (cell_lt k) A -> Forall (fun c => ~ cell_lt k c) B ->
  path h i p (ptrs A ++ ptrs B) -> length A < fuel ->
  advance_right fuel h k i p = Ok (last_of p (ptrs A)).
Proof.
  intros Hok HA HB. revert p fuel. induction HA as [|c A Hc HA IH]; intros p fuel Hp Hf;
    (destruct fuel as [|fuel]; [cbn in Hf; lia|]); cbn in Hp; cbn [advance_right].
  - destruct B as [|b B]; cbn in Hp.
    + by rewrite (get_next_link _ _ _ _ Hp).
    + destruct Hp as [Hp _]. rewrite (get_next_link _ _ _ _ Hp). cbn.
      apply Forall_cons in Hok as [Hb _]. destruct (deref_cell _ _ Hb) as [nx ->]. cbn.
      apply Forall_cons in HB as [Hge _]. unfold cell_lt, klt in Hge.
      by rewrite (proj2 (Z.ltb_ge _ _)) by lia.
  - destruct Hp as [Hp Hr]. apply Forall_cons in Hok as [Hcc Hok].
    rewrite (get_next_link _ _ _ _ Hp). cbn. destruct (deref_cell _ _ Hcc) as [nx ->]. cbn.
    unfold cell_lt, klt in Hc. rewrite (proj2 (Z.ltb_lt _ _)) by lia.
    rewrite IH by (done || cbn in Hf; lia). cbn. by rewrite last_of_cons.
Qed.

(** The predecessor at level [i], given the cells [A] below the key. *)
Definition pred_at (head : ptr) (A : list cell) (i : nat) : ptr := last_of head (ptrs (at_level i A)).

(** The search may resume at any node of the level found on the level above. *)
Lemma advance_right_resume h k i A B fuel head p :
  Forall (cell_ok h) (A ++ B) -> Forall (cell_lt k) A -> Forall (fun c => ~ cell_lt k c) B ->
  path h i head (ptrs (at_level i (A ++ B))) -> length A < fuel ->
  p ∈ head :: ptrs (at_level i A) ->
  advance_right fuel h k i p = Ok (pred_at head A i).
Proof.
  intros Hok HA HB Hp Hf Hin. rewrite at_level_app, ptrs_app in Hp.
  apply list_elem_of_split in Hin as (l1 & l2 & E).
  assert (exists A1 A2, at_level i A = A1 ++ A2 /\ ptrs A2 = l2 /\ last_of head (ptrs A1) = p) as (A1 & A2 & EA & E2 & E1).
  { destruct l1 as [|x l1]; injection E as <- E.
    - by exists [], (at_level i A).
    - apply map_eq_app in E as (A1 & A2 & -> & <- & E). apply map_eq_cons in E as (a & A3 & -> & <- & <-).
      exists (A1 ++ [a]), A3. split_and!; [by rewrite <-app_assoc|done|].
      by rewrite ptrs_app, last_of_app. }
  assert (Forall (cell_ok h) (A2 ++ at_level i B) /\ Forall (cell_lt k) A2 /\
    Forall (fun c => ~ cell_lt k c) (at_level i B) /\ length A2 <= length A) as (Hok' & HA' & HB' & Hlen).
  { assert (forall x, x ∈ A2 -> x ∈ A) as HinA.
    { intros x Hx. assert (x ∈ at_level i A) as Hx' by (rewrite EA; set_solver).
      by apply list_elem_of_filter in Hx' as [_ ?]. }
    rewrite !Forall_forall in *. split_and!.
    - intros x [Hx|Hx]%elem_of_app; apply Hok, elem_of_app; [left; auto|].
      right. by apply list_elem_of_filter in Hx as [_ ?].
    - intros x Hx. auto.
    - intros x [_ Hx]%list_elem_of_filter. auto.
    - apply (f_equal length) in EA. pose proof (length_filter (fun c => i < c_height c) A) as HL.
      unfold at_level in EA. rewrite length_app in EA. lia. }
  unfold pred_at. rewrite EA, ptrs_app, last_of_app, E1. eapply advance_right_spec; try done; [|lia].
  rewrite EA, ptrs_app, <-app_assoc in Hp. apply path_last in Hp. by rewrite <-E1.
Qed.

Lemma find_loop_spec h k A B head fuel maxl levels current preds :
  Forall (cell_ok h) (A ++ B) -> Forall (cell_lt k) A -> Forall (fun c => ~ cell_lt k c) B ->
  (forall i, i < maxl -> path h i head (ptrs (at_level i (A ++ B)))) ->
  length A < fuel -> levels <= maxl -> length preds = maxl ->
  current ∈ head :: ptrs (at_level (pred levels) A) ->
  find_loop levels fuel h k current preds =
    Ok (map (pred_at head A) (seq 0 levels) ++ drop levels preds).
Proof.
  intros Hok HA HB Hp Hf. revert current preds.
  induction levels as [|i IH]; intros current preds Hl Hlen Hcur; [done|]. cbn [find_loop].
  rewrite (advance_right_resume h k i A B fuel head current) by (done || apply Hp; lia).
  cbn [mbind result_bind]. unfold store. rewrite (proj2 (Nat.ltb_lt _ _)) by lia. cbn [mbind result_bind].
  rewrite IH; [|lia|by rewrite length_insert|].
  - rewrite seq_S, map_app. cbn. rewrite <-app_assoc. do 2 f_equal. cbn.
    rewrite drop_insert_ge, Nat.sub_diag by lia.
    destruct (lookup_lt_is_Some_2 preds i) as [x Hx]; [lia|].
    rewrite (drop_S preds x i Hx). done.
  - pose proof (last_of_elem head (ptrs (at_level i A))) as Hin. fold (pred_at head A i) in Hin.
    destruct i as [|i]; [done|]. cbn [pred]. revert Hin. rewrite !elem_of_cons. intros [?|Hin]; [auto|right].
    rewrite at_level_S in Hin. eapply sublist_subseteq; [|done]. apply at_level_sublist.
Qed.

(** ** What the invariant gives *)
Section Repr.
Context (sl : SkipList) (cs : list cell).
Hypothesis R : repr sl cs.

Lemma repr_size_heap : size (sl_heap sl) = S (length cs).
Proof.
  rewrite <-size_dom, (repr_dom _ _ R), size_list_to_set by apply (repr_nodup _ _ R).
  cbn. unfold ptrs. by rewrite length_map.
Qed.

Lemma repr_level0 : at_level 0 cs = cs.
Proof.
  apply at_level_0. eapply Forall_impl; [apply (repr_heights _ _ R)|]. cbn; lia.
Qed.

Lemma repr_path0 : path (sl_heap sl) 0 (sl_head sl) (ptrs cs).
Proof. rewrite <-repr_level0. apply (repr_paths _ _ R). pose proof (repr_max _ _ R). lia. Qed.

Lemma repr_tall i : sl_level sl <= i -> at_level i cs = [].
Proof.
  intros Hi. apply filter_none. intros c Hc. pose proof (repr_heights _ _ R) as H.
  rewrite Forall_forall in H. specialize (H c Hc). cbn in H. lia.
Qed.

Context (A B : list cell).
Hypothesis (EAB : cs = A ++ B).

(** The node after the level-0 predecessor is the first one not below the key. *)
Lemma first_after_spec :
  first_after sl (map (pred_at (sl_head sl) A) (seq 0 (sl_maxLevel sl))) = Ok (head (ptrs B)).
Proof.
  unfold first_after, index.
  rewrite list_lookup_fmap, lookup_seq_lt by (pose proof (repr_max _ _ R); lia). cbn.
  pose proof repr_path0 as Hp. rewrite EAB, ptrs_app in Hp.
  apply path_last in Hp. unfold pred_at.
  assert (at_level 0 A = A) as ->.
  { apply at_level_0. pose proof (repr_heights _ _ R) as H. rewrite EAB in H.
    apply Forall_app in H as [H _]. eapply Forall_impl; [apply H|]. cbn; lia. }
  destruct B as [|b B']; cbn in Hp |- *.
  - by rewrite (get_next_link _ _ _ _ Hp).
  - destruct Hp as [Hp _]. by rewrite (get_next_link _ _ _ _ Hp).
Qed.
Context (k : InternalKey).
Hypothesis (HA : Forall (cell_lt k) A) (HB : Forall (fun c => ~ cell_lt k c) B).

(** [findPredecessors] returns, for every level, the last node below the key. *)
Lemma findPredecessors_spec :
  findPredecessors sl k = Ok (map (pred_at (sl_head sl) A) (seq 0 (sl_maxLevel sl))).
Proof.
  unfold findPredecessors.
  erewrite (find_loop_spec _ _ A B (sl_head sl) _ (sl_maxLevel sl)); try done.
  - rewrite drop_ge by len. by rewrite app_nil_r.
  - rewrite <-EAB. apply (repr_cells _ _ R).
  - rewrite <-EAB. apply (repr_paths _ _ R).
  - rewrite repr_size_heap, EAB, length_app. lia.
  - apply length_replicate.
  - set_solver.
Qed.
End Repr.

(** ** Heap updates *)
Lemma set_next_spec h p i x n :
  h !! p = Some n -> i < length (n_next n) ->
  exists h', set_next h p i x = Ok h' /\
    (forall j q, link h' j q = if decide (q = p /\ j = i) then Some x else link h j q) /\
    (forall c, cell_ok h c -> cell_ok h' c) /\ dom h' = dom h.
Proof.
  intros Hn Hi. unfold set_next, deref. rewrite Hn. cbn. unfold store.
  rewrite (proj2 (Nat.ltb_lt _ _)) by done. cbn. eexists; split; [done|].
  assert (p ∈ dom h) as Hd by (apply elem_of_dom; eauto).
  split_and!.
  - intros j q. unfold link. destruct (decide (q = p)) as [->|Hq].
    + rewrite lookup_insert_eq, Hn. cbn. destruct (decide (j = i)) as [->|Hj].
      * rewrite decide_True by done. by rewrite list_lookup_insert_eq.
      * rewrite decide_False by tauto. by rewrite list_lookup_insert_ne.
    + rewrite lookup_insert_ne by done. by rewrite decide_False by tauto.
  - intros c (nx & Hc & Hl). unfold cell_ok. destruct (decide (c_ptr c = p)) as [Hp|Hq].
    + rewrite Hp in *. rewrite lookup_insert_eq. rewrite Hn in Hc. simplify_eq. cbn in *.
      eexists; split; [done|]. by rewrite length_insert.
    + rewrite lookup_insert_ne by done. eauto.
  - rewrite dom_insert_L. set_solver.
Qed.

(** The level list after the insertion, for the levels already wired. *)
Definition level_after (new : cell) (A B : list cell) (j : nat) : list ptr :=
  ptrs (at_level j A) ++ c_ptr new :: ptrs (at_level j B).
Definition level_before (A B : list cell) (j : nat) : list ptr :=
  ptrs (at_level j A) ++ ptrs (at_level j B).

(** The new node is spliced in level by level; the other levels keep their links. *)
Lemma wire_loop_spec head maxl new A B preds count i h :
  cell_ok h (mkCell head zeroKey [] maxl) -> cell_ok h new -> Forall (cell_ok h) (A ++ B) ->
  NoDup (head :: ptrs A ++ ptrs B) -> c_ptr new ∉ head :: ptrs A ++ ptrs B ->
  i + count <= c_height new -> c_height new <= maxl ->
  (forall j, j < c_height new -> preds !! j = Some (pred_at head A j)) ->
  (forall j, j < i -> path h j head (level_after new A B j)) ->
  (forall j, i <= j -> j < maxl -> path h j head (level_before A B j)) ->
  exists h', wire_loop count i (c_ptr new) preds h = Ok h' /\
    (forall c, cell_ok h c -> cell_ok h' c) /\ dom h' = dom h /\
    (forall j, j < i + count -> path h' j head (level_after new A B j)) /\
    (forall j, i + count <= j -> j < maxl -> path h' j head (level_before A B j)).
Proof.
  revert i h; induction count as [|count IH]; intros i h Hhd Hnew Hcs Hnd Hfr Hi Hmax Hpr Hdone Htodo.
  { cbn. exists h. rewrite Nat.add_0_r. auto. }
  cbn [wire_loop]. unfold index at 1. rewrite (Hpr i) by lia. cbn [mbind result_bind].
  set (p := pred_at head A i).
  assert (p ∈ head :: ptrs A) as Hp.
  { pose proof (last_of_elem head (ptrs (at_level i A))) as Hin. fold (pred_at head A i) p in Hin.
    revert Hin. rewrite !elem_of_cons. intros [?|Hin]; [auto|right].
    eapply elem_of_sublist, at_level_sublist. done. }
  assert (exists x, link h i p = Some x) as [x Hx].
  { pose proof (path_last _ _ _ _ _ (Htodo i ltac:(lia) ltac:(lia))) as Hl. fold (pred_at head A i) p in Hl.
    destruct (ptrs (at_level i B)); cbn in Hl; [eauto|destruct Hl; eauto]. }
  rewrite (get_next_link _ _ _ _ Hx). cbn [mbind result_bind].
  destruct Hnew as (nx & Hnx & Hnl). cbn in Hnl.
  assert (cell_ok h new) as Hnew by (exists nx; done).
  destruct (set_next_spec h (c_ptr new) i x _ Hnx) as (h1 & -> & L1 & C1 & D1); [cbn; lia|].
  cbn [mbind result_bind].
  assert (exists n1, h1 !! p = Some n1 /\ i < length (n_next n1)) as (n1 & Hn1 & Hi1).
  { assert (p <> c_ptr new) as Hne by (intros ->; apply Hfr; set_solver).
    pose proof (L1 i p) as E. rewrite decide_False, Hx in E by tauto. unfold link in E.
    destruct (h1 !! p) as [n1|]; [|done]. exists n1. split; [done|]. cbn in E. by apply lookup_lt_Some in E. }
  destruct (set_next_spec h1 p i (Some (c_ptr new)) _ Hn1 Hi1) as (h2 & -> & L2 & C2 & D2).
  cbn [mbind result_bind].
  assert (p <> c_ptr new) as Hne by (intros E; apply Hfr; rewrite <-E; set_solver).
  assert (forall j q, j <> i -> link h j q = link h2 j q) as Hother.
  { intros j q Hj. rewrite L2, L1, !decide_False by tauto. done. }
  destruct (IH (S i) h2) as (h' & E & C & D & P1 & P2); auto; try lia.
  - eapply Forall_impl; [apply Hcs|]. auto.
  - intros j Hj. destruct (decide (j = i)) as [->|Hji].
    + unfold level_after. eapply path_insert; [..|apply (Htodo i); lia].
      * eapply sublist_NoDup; [apply Hnd|]. apply sublist_skip, sublist_app; apply at_level_sublist.
      * intros Hin. apply Hfr. eapply elem_of_sublist; [apply Hin|].
        apply sublist_skip, sublist_app; apply at_level_sublist.
      * fold (pred_at head A i) p. rewrite L2, decide_False, L1, decide_True by naive_solver. done.
      * fold (pred_at head A i) p. by rewrite L2, decide_True.
      * fold (pred_at head A i) p. intros q H1 H2. rewrite L2, L1, !decide_False by tauto. done.
    + eapply path_ext; [by intros; apply Hother|]. apply Hdone. lia.
  - intros j Hj1 Hj2. eapply path_ext; [intros; apply Hother; lia|]. apply Htodo; lia.
  - exists h'. split_and!; [done|by auto|congruence|..].
    + intros j Hj. apply P1. lia.
    + intros j Hj. apply P2. lia.
Qed.

(** ** The operations on the representation *)
Lemma NewSkipList_repr rng : repr (NewSkipList rng) [].
Proof.
  unfold NewSkipList.
  constructor; cbn [sl_heap sl_fresh sl_head sl_maxLevel sl_level sl_length sl_size]; try (unfold maxLevel; lia); try done.
  - exists (replicate maxLevel None). by rewrite lookup_singleton_eq, length_replicate.
  - apply NoDup_singleton.
  - repeat constructor.
  - intros i Hi. change (link {[0 := mkNode zeroKey [] (replicate maxLevel None)]} i 0 = Some None). unfold link. rewrite lookup_singleton_eq. cbn -[maxLevel].
    by rewrite lookup_replicate_2.
  - constructor.
Qed.

(** The levels above the current height already have the head as predecessor. *)
Lemma reset_preds_noop head A count i n :
  (forall j, i <= j -> at_level j A = []) -> i + count <= n ->
  reset_preds count i head (map (pred_at head A) (seq 0 n)) = Ok (map (pred_at head A) (seq 0 n)).
Proof.
  intros Htall. revert i Htall. induction count as [|count IH]; intros i Htall Hn; [done|].
  cbn [reset_preds]. unfold store. rewrite (proj2 (Nat.ltb_lt _ _)) by (rewrite length_map, length_seq; lia).
  cbn [mbind result_bind]. rewrite list_insert_id.
  - apply IH; [|lia]. intros; apply Htall; lia.
  - rewrite list_lookup_fmap, lookup_seq_lt by lia. cbn. unfold pred_at. by rewrite Htall.
Qed.

Ltac sl_cbn := cbn [sl_heap sl_fresh sl_rng sl_head sl_maxLevel sl_level sl_length sl_size sl_readers].

Lemma repr_fresh_new sl cs : repr sl cs -> sl_fresh sl ∉ sl_head sl :: ptrs cs.
Proof.
  intros R Hin. pose proof (repr_fresh _ _ R) as Hfr. rewrite Forall_forall in Hfr.
  specialize (Hfr _ Hin). lia.
Qed.

(** Allocating a node leaves cells and paths as they are. *)
Lemma path_alloc h new n j p l :
  new ∉ p :: l -> path h j p l -> path (<[new := n]> h) j p l.
Proof.
  assert (forall q, q <> new -> link h j q = link (<[new := n]> h) j q) as Hl.
  { intros q Hq. unfold link. by rewrite lookup_insert_ne. }
  revert p; induction l as [|x l IH]; intros p Hp; cbn; rewrite <-Hl by set_solver; [done|].
  intros [? ?]. split; [done|]. apply IH; set_solver.
Qed.

Lemma cell_alloc h new n c :
  c_ptr c <> new -> cell_ok h c -> cell_ok (<[new := n]> h) c.
Proof. intros Hc (nx & E & Hl). exists nx. split; [|done]. by rewrite lookup_insert_ne. Qed.

Lemma cells_alloc h new n cs :
  new ∉ ptrs cs -> Forall (cell_ok h) cs -> Forall (cell_ok (<[new := n]> h)) cs.
Proof.
  intros Hnew H. rewrite Forall_forall in *. intros c Hc. apply cell_alloc; [|by apply H].
  intros <-. apply Hnew. by apply (list_elem_of_fmap_2 c_ptr).
Qed.

Section Splice.
Context (sl : SkipList) (A B : list cell) (k : InternalKey) (v : bytes) (nl : nat).
Hypotheses (R : repr sl (A ++ B)) (HA : Forall (cell_lt k) A)
  (HB : Forall (fun c => ~ cell_lt k c) B) (Hnl : 1 <= nl <= sl_maxLevel sl).

Let new := mkCell (sl_fresh sl) k v nl.
Let node := mkNode k v (replicate nl None).
Let preds := map (pred_at (sl_head sl) A) (seq 0 (sl_maxLevel sl)).

Lemma new_fresh : sl_fresh sl ∉ sl_head sl :: ptrs A ++ ptrs B.
Proof. rewrite <-ptrs_app. by apply repr_fresh_new. Qed.

(** Allocate the node and wire it at all its levels. *)
Lemma alloc_and_wire :
  exists h', wire_loop nl 0 (sl_fresh sl) preds (<[sl_fresh sl := node]> (sl_heap sl)) = Ok h' /\
    cell_ok h' (mkCell (sl_head sl) zeroKey [] (sl_maxLevel sl)) /\
    Forall (cell_ok h') (A ++ new :: B) /\
    dom h' = {[sl_fresh sl]} ∪ dom (sl_heap sl) /\
    (forall j, j < nl -> path h' j (sl_head sl) (level_after new A B j)) /\
    (forall j, nl <= j -> j < sl_maxLevel sl -> path h' j (sl_head sl) (level_before A B j)).
Proof.
  pose proof new_fresh as Hnew.
  assert (cell_ok (<[sl_fresh sl := node]> (sl_heap sl)) new) as Hn0.
  { exists (replicate nl None). cbn. by rewrite lookup_insert_eq, length_replicate. }
  assert (cell_ok (<[sl_fresh sl := node]> (sl_heap sl)) (mkCell (sl_head sl) zeroKey [] (sl_maxLevel sl))) as Hh0.
  { apply cell_alloc; [cbn; set_solver|apply (repr_head _ _ R)]. }
  assert (Forall (cell_ok (<[sl_fresh sl := node]> (sl_heap sl))) (A ++ B)) as Hc0.
  { apply cells_alloc; [rewrite ptrs_app; set_solver|apply (repr_cells _ _ R)]. }
  destruct (wire_loop_spec (sl_head sl) (sl_maxLevel sl) new A B preds nl 0 _ Hh0 Hn0 Hc0)
    as (h' & E & C & D & P1 & P2); cbn [c_height c_ptr new]; try done; try lia.
  - rewrite <-ptrs_app. apply (repr_nodup _ _ R).
  - intros j Hj. unfold preds. rewrite list_lookup_fmap, lookup_seq_lt by lia. done.
  - intros j _ Hj. pose proof (repr_paths _ _ R j Hj) as Hp.
    unfold level_before. rewrite at_level_app, ptrs_app in Hp. apply path_alloc; [|done].
    intros Hin. apply Hnew. eapply elem_of_sublist; [done|].
    apply sublist_skip, sublist_app; apply at_level_sublist.
  - exists h'. split_and!; [done|by apply C|..|by rewrite D, dom_insert_L|done|done].
    apply Forall_app in Hc0 as [H1 H2].
    apply Forall_app; split; [|constructor; [by apply C|]]; eapply Forall_impl; eauto.
Qed.

Lemma sorted_splice : sorted_entries (map c_entry (A ++ new :: B)).
Proof using R HA HB.
  assert (map c_entry (A ++ new :: B) = insert_entry (k, v) (map c_entry (A ++ B))) as ->.
  { rewrite !map_app. cbn. symmetry. apply insert_entry_app; rewrite Forall_map; done. }
  apply insert_entry_sorted, R.
Qed.

Definition level_of : nat := if sl_level sl <? nl then nl else sl_level sl.

Lemma heights_splice : Forall (fun c => 1 <= c_height c <= level_of) (A ++ new :: B).
Proof using R Hnl.
  pose proof (repr_heights _ _ R) as Hh.
  assert (sl_level sl <= level_of /\ nl <= level_of) as [H1 H2].
  { unfold level_of. destruct (sl_level sl <? nl) eqn:El; zb; lia. }
  apply Forall_app in Hh as [HhA HhB].
  apply Forall_app; split; [|constructor; [cbn; lia|]];
    (eapply Forall_impl; [eassumption|]; cbn; lia).
Qed.

(** The spliced list satisfies the invariant. *)
Lemma repr_splice h' rng rd :
  cell_ok h' (mkCell (sl_head sl) zeroKey [] (sl_maxLevel sl)) ->
  Forall (cell_ok h') (A ++ new :: B) ->
  dom h' = {[sl_fresh sl]} ∪ dom (sl_heap sl) ->
  (forall j, j < nl -> path h' j (sl_head sl) (level_after new A B j)) ->
  (forall j, nl <= j -> j < sl_maxLevel sl -> path h' j (sl_head sl) (level_before A B j)) ->
  repr (mkSkipList h' (S (sl_fresh sl)) rng (sl_head sl) (sl_maxLevel sl) level_of
          (S (sl_length sl)) (sl_size sl + memSize node)%Z rd) (A ++ new :: B).
Proof.
  intros Hh Hcs D P1 P2. pose proof new_fresh as Hnew.
  constructor; sl_cbn; try done; try apply R.
  - pose proof (repr_level _ _ R). unfold level_of. destruct (sl_level sl <? nl) eqn:El; zb; lia.
  - apply heights_splice.
  - rewrite ptrs_app. cbn [ptrs map]. rewrite <-Permutation_middle, Permutation_swap.
    constructor; [done|]. rewrite <-ptrs_app. apply (repr_nodup _ _ R).
  - rewrite D, (repr_dom _ _ R), !ptrs_app. cbn. rewrite !list_to_set_app_L. cbn. set_solver.
  - apply Forall_forall. intros q Hq. pose proof (repr_fresh _ _ R) as Hfr. rewrite Forall_forall in Hfr.
    rewrite ptrs_app in Hq. cbn in Hq.
    assert (q = sl_fresh sl \/ q ∈ sl_head sl :: ptrs (A ++ B)) as [->|Hq'] by (rewrite ptrs_app; set_solver); [lia|].
    specialize (Hfr _ Hq'). lia.
  - intros j Hj. rewrite at_level_app, ptrs_app. unfold at_level at 2. destruct (decide (j < nl)) as [Hjn|Hjn].
    + rewrite filter_cons_True by done. by apply P1.
    + rewrite filter_cons_False by done. apply P2; [lia|done].
  - apply sorted_splice.
  - rewrite (repr_length _ _ R), !length_app. cbn. lia.
  - rewrite (repr_size _ _ R), !foldr_app. cbn [foldr]. clear.
    induction A as [|a A' IH]; cbn [foldr]; [|lia]. unfold node. cbn [c_key c_value c_height new]. lia.
Qed.
End Splice.

Lemma Put_repr sl A B k v :
  repr sl (A ++ B) -> Forall (cell_lt k) A -> Forall (fun c => ~ cell_lt k c) B ->
  let nl := (randomLevel sl).1 in
  exists sl', Put k v sl = Ok sl' /\ repr sl' (A ++ mkCell (sl_fresh sl) k v nl :: B) /\
    sl_size sl' = (sl_size sl + memSize (mkNode k v (replicate nl None)))%Z /\
    sl_readers sl' = sl_readers sl.
Proof.
  intros R HA HB nl. unfold Put.
  rewrite (findPredecessors_spec sl _ R A B eq_refl k HA HB). cbn [mbind result_bind].
  pose proof (randomLevel_range sl (repr_max _ _ R)) as Hr. unfold nl; clear nl.
  destruct (randomLevel sl) as [nl rng'] eqn:Erl. cbn [fst] in *.
  assert ((if sl_level sl <? nl then reset_preds (nl - sl_level sl) (sl_level sl) (sl_head sl)
      (map (pred_at (sl_head sl) A) (seq 0 (sl_maxLevel sl)))
    else Ok (map (pred_at (sl_head sl) A) (seq 0 (sl_maxLevel sl)))) =
    Ok (map (pred_at (sl_head sl) A) (seq 0 (sl_maxLevel sl)))) as ->.
  { pose proof (repr_level _ _ R). destruct (sl_level sl <? nl) eqn:E; [|done]. zb.
    apply reset_preds_noop; [|lia]. intros j Hj. pose proof (repr_tall _ _ R j Hj) as E'.
    rewrite at_level_app in E'. by apply app_eq_nil in E' as [? _]. }
  cbn [mbind result_bind].
  destruct (alloc_and_wire sl A B k v nl ltac:(eassumption) ltac:(eassumption) ltac:(eassumption) Hr) as (h' & -> & H1 & H2 & H3 & H4 & H5).
  cbn [mbind result_bind]. eexists; split; [done|].
  split; [|done]. by apply repr_splice.
Qed.

(** ** Reading *)
Lemma Get_repr sl cs u s :
  repr sl cs -> Get u s sl = Ok (entries_get u s (map c_entry cs)).
Proof.
  intros R. pose proof (repr_sorted _ _ R) as Hs.
  destruct (cells_split (search_key u s) cs Hs) as (A & B & -> & HA & HB).
  unfold Get. fold (search_key u s).
  rewrite (findPredecessors_spec sl _ R A B eq_refl _ HA HB). cbn [mbind result_bind].
  rewrite (first_after_spec sl _ R A B eq_refl). cbn [mbind result_bind].
  unfold entries_get. rewrite newest_visible_first_ge by done.
  rewrite map_app, first_ge_app by (by rewrite Forall_map).
  destruct B as [|b B]; [done|]. cbn [ptrs map head].
  pose proof (repr_cells _ _ R) as Hok. apply Forall_app in Hok as [_ Hok].
  apply Forall_cons in Hok as [Hb _]. destruct (deref_cell _ _ Hb) as [nx ->]. cbn [mbind result_bind n_key n_value].
  apply Forall_cons in HB as [Hge _]. unfold cell_lt in Hge. rewrite klt_spec in Hge. cbn in Hge.
  unfold bytes_Equal, get_entry. cbn [c_entry fst snd].
  destruct (decide (UserKey (c_key b) = u)) as [Hu|Hu].
  - rewrite bool_decide_true by done. cbn [negb].
    rewrite (proj2 (Z.ltb_ge _ _)); [by case_bool_decide; case_decide|].
    assert (~ (s < Seqno (c_key b))%Z) by tauto. lia.
  - by rewrite bool_decide_false.
Qed.

(** An iterator standing in front of the cells [B]. *)
Definition it_at (it : SkipListIterator) (B : list cell) : Prop := it_node it = head (ptrs B).

Lemma scan_loop_repr sl cs A B it fuel acc :
  repr sl cs -> cs = A ++ B -> it_at it B -> length B < fuel ->
  scan_loop fuel it sl acc = Ok (acc ++ map c_entry B, mkIterator (it_list it) None (it_locked it)).
Proof.
  intros R. revert A it fuel acc. induction B as [|b B IH]; intros A it fuel acc E Hit Hf;
    (destruct fuel as [|fuel]; [cbn in Hf; lia|]); cbn [scan_loop]; unfold it_at in Hit; cbn in Hit.
  - unfold Valid. rewrite Hit. cbn. rewrite app_nil_r. destruct it; cbn in *; by subst.
  - unfold Valid. rewrite Hit. cbn [bool_decide decide]. rewrite bool_decide_true by done.
    pose proof (repr_cells _ _ R) as Hok. rewrite E in Hok. apply Forall_app in Hok as [_ Hok].
    apply Forall_cons in Hok as [Hb _]. destruct (deref_cell _ _ Hb) as [nx Hd].
    unfold Key, Value, Next. rewrite Hit, Hd. cbn [mbind result_bind n_key n_value default].
    pose proof (repr_path0 _ _ R) as Hp. rewrite E, ptrs_app in Hp. cbn [ptrs map] in Hp.
    apply path_app in Hp.
    assert (link (sl_heap sl) 0 (c_ptr b) = Some (head (ptrs B))) as Hl.
    { destruct B; cbn in Hp |- *; [done|by destruct Hp]. }
    rewrite (get_next_link _ _ _ _ Hl). cbn [mbind result_bind].
    rewrite (IH (A ++ [b])) by first [done | by rewrite <-app_assoc | cbn in Hf; lia].
    by rewrite <-app_assoc.
Qed.

Lemma set_readers_id sl : set_readers (S (sl_readers sl) - 1) sl = sl.
Proof. unfold set_readers. replace (S (sl_readers sl) - 1) with (sl_readers sl) by lia. by destruct sl. Qed.

Lemma repr_set_readers n sl cs : repr sl cs -> repr (set_readers n sl) cs.
Proof. intros []; by constructor. Qed.

(** Positioning takes the read lock. *)
Lemma SeekToFirst_repr sl cs :
  repr sl cs ->
  exists it, SeekToFirst NewSkipListIterator sl = Ok (it, set_readers (S (sl_readers sl)) sl) /\
    it_at it cs /\ it_locked it = true.
Proof.
  intros R. unfold SeekToFirst. cbn [acquireLock NewSkipListIterator it_locked it_list mbind result_bind].
  pose proof (repr_path0 _ _ R) as Hp.
  assert (link (sl_heap sl) 0 (sl_head sl) = Some (head (ptrs cs))) as Hl.
  { destruct cs; cbn in Hp |- *; [done|by destruct Hp]. }
  cbn [sl_heap sl_head set_readers]. rewrite (get_next_link _ _ _ _ Hl). cbn. by eexists.
Qed.

Lemma Seek_repr sl A B t :
  repr sl (A ++ B) -> Forall (cell_lt (mkInternalKey t maxSeqno InternalKeyKindPut)) A ->
  Forall (fun c => ~ cell_lt (mkInternalKey t maxSeqno InternalKeyKindPut) c) B ->
  exists it, Seek t NewSkipListIterator sl = Ok (it, set_readers (S (sl_readers sl)) sl) /\
    it_at it B /\ it_locked it = true.
Proof.
  intros R HA HB. unfold Seek. cbn [acquireLock NewSkipListIterator it_locked it_list mbind result_bind].
  pose proof (repr_set_readers (S (sl_readers sl)) _ _ R) as R'.
  rewrite (findPredecessors_spec _ _ R' A B eq_refl _ HA HB). cbn [mbind result_bind].
  rewrite (first_after_spec _ _ R' A B eq_refl). cbn. by eexists.
Qed.

Lemma scan_repr sl cs : repr sl cs -> scan sl = Ok (map c_entry cs, sl).
Proof.
  intros R. unfold scan. destruct (SeekToFirst_repr _ _ R) as (it & -> & Hit & Hlk).
  cbn [mbind result_bind].
  pose proof (repr_set_readers (S (sl_readers sl)) _ _ R) as R'.
  pose proof (repr_size_heap _ _ R') as Hsz.
  rewrite (scan_loop_repr _ cs [] cs it _ [] R') by first [done | rewrite Hsz; lia].
  cbn [mbind result_bind app snd Close it_locked]. rewrite Hlk.
  pose proof (set_readers_id sl) as E. unfold set_readers in *. cbn in *.
  by rewrite E.
Qed.

(** ** The implementation of the interface

    The entries of a list are what its level-0 chain holds. *)
Fixpoint chain (fuel : nat) (h : gmap ptr skipNode) (p : ptr) : list entry :=
  match fuel with
  | O => []
  | S fuel =>
      match link h 0 p with
      | Some (Some q) =>
          match h !! q with Some n => (n_key n, n_value n) :: chain fuel h q | None => [] end
      | _ => []
      end
  end.

Definition sl_entries (sl : SkipList) : list entry := chain (size (sl_heap sl)) (sl_heap sl) (sl_head sl).

Lemma chain_cells h p cs fuel :
  path h 0 p (ptrs cs) -> Forall (cell_ok h) cs -> length cs < fuel -> chain fuel h p = map c_entry cs.
Proof.
  revert p fuel; induction cs as [|c cs IH]; intros p [|fuel] Hp Hok Hf; cbn in Hf; try lia; cbn in Hp |- *.
  - by rewrite Hp.
  - destruct Hp as [-> Hp]. apply Forall_cons in Hok as [(nx & -> & _) Hok]. cbn.
    unfold c_entry at 1. f_equal. by apply IH; [..|lia].
Qed.

Lemma sl_entries_repr sl cs : repr sl cs -> sl_entries sl = map c_entry cs.
Proof.
  intros R. apply chain_cells; [by apply repr_path0|apply (repr_cells _ _ R)|].
  rewrite (repr_size_heap _ _ R). lia.
Qed.

Definition sl_inv (sl : SkipList) : Prop := exists cs, repr sl cs.

#[export] Instance SkipList_Memtable : Memtable SkipList := {
  mem_new := NewSkipList;
  mem_put := Put;
  mem_get := Get;
  mem_scan := scan;
  mem_len := Len;
  mem_size := Size;
  mem_empty := Empty;
  mem_inv := sl_inv;
  entries := sl_entries
}.

(** [Put] on the abstraction: one entry inserted, at its place. *)
Lemma Put_entries sl k v :
  sl_inv sl -> exists sl', Put k v sl = Ok sl' /\ sl_inv sl' /\
    sl_entries sl' = insert_entry (k, v) (sl_entries sl) /\
    (sl_size sl + zlen (UserKey k) + zlen v < sl_size sl')%Z /\ sl_readers sl' = sl_readers sl.
Proof.
  intros [cs R]. destruct (cells_split k cs (repr_sorted _ _ R)) as (A & B & -> & HA & HB).
  destruct (Put_repr sl A B k v R HA HB) as (sl' & E & R' & Hsz & Hrd).
  exists sl'. split_and!; [done|by eexists| |rewrite Hsz; unfold memSize, zlen; cbn; lia|done].
  rewrite (sl_entries_repr _ _ R), (sl_entries_repr _ _ R'), !map_app. cbn. symmetry.
  apply insert_entry_app; by rewrite Forall_map.
Qed.

#[export] Instance SkipList_MemtableLaws : MemtableLaws SkipList.
Proof.
  constructor; cbn [mem_new mem_put mem_get mem_scan mem_len mem_size mem_empty mem_inv entries SkipList_Memtable].
  - intros r. pose proof (NewSkipList_repr r) as R. split; [by eexists|]. by rewrite (sl_entries_repr _ _ R).
  - intros m [cs R]. rewrite (sl_entries_repr _ _ R). apply R.
  - intros k v m Hm. destruct (Put_entries m k v Hm) as (m' & ? & ? & ? & ? & _). by exists m'.
  - intros u s m [cs R]. rewrite (sl_entries_repr _ _ R). by apply Get_repr.
  - intros m [cs R]. rewrite (sl_entries_repr _ _ R). by apply scan_repr.
  - intros m [cs R]. rewrite (sl_entries_repr _ _ R), length_map. apply R.
  - intros m [cs R]. rewrite (sl_entries_repr _ _ R). unfold Empty. rewrite (repr_length _ _ R).
    destruct cs; cbn; split; congruence.
Qed.

(** ** Properties *)

(** A sequence of [Put]s. *)
Fixpoint puts (kvs : list entry) (sl : SkipList) : res SkipList :=
  match kvs with
  | [] => Ok sl
  | (k, v) :: kvs => sl ← Put k v sl; puts kvs sl
  end.

Lemma puts_entries kvs sl :
  sl_inv sl -> exists sl', puts kvs sl = Ok sl' /\ sl_inv sl' /\
    sl_entries sl' = insert_all kvs (sl_entries sl).
Proof.
  revert sl; induction kvs as [|[k v] kvs IH]; intros sl Hsl; cbn; [eauto|].
  destruct (Put_entries sl k v Hsl) as (sl1 & -> & H1 & E1 & _). cbn.
  destruct (IH sl1 H1) as (sl2 & -> & H2 & E2). exists sl2. by rewrite E2, E1.
Qed.

(** C15: the skip list implements the sorted list of entries.  Whatever
    numbers the random source returns, any sequence of [Put]s on a new list
    succeeds, without a nil dereference or an index out of range; a complete
    iterator pass then returns exactly the entries put, in internal-key order,
    and leaves the list (its read-lock count included) unchanged; [Get] is the
    reference lookup of the newest visible version; [Len] and [Empty] agree. *)
Theorem skiplist_refines_sorted_entries (rng : nat -> Q) (kvs : list entry) :
  exists sl, puts kvs (NewSkipList rng) = Ok sl /\
    sorted_entries (insert_all kvs []) /\
    scan sl = Ok (insert_all kvs [], sl) /\
    (forall u s, Get u s sl = Ok (entries_get u s (insert_all kvs []))) /\
    Len sl = length kvs /\ (Empty sl = true <-> kvs = []).
Proof.
  destruct (puts_entries kvs (NewSkipList rng)) as (sl & E & [cs R] & Hes).
  { eexists. apply NewSkipList_repr. }
  rewrite (sl_entries_repr _ _ R), (sl_entries_repr _ _ (NewSkipList_repr rng)) in Hes. cbn [map] in Hes.
  assert (length kvs = length cs) as Hlen.
  { rewrite <-(length_map c_entry cs), Hes, insert_all_length. cbn. lia. }
  exists sl. rewrite <-Hes. split_and!; [done|apply R|by apply scan_repr|intros; by apply Get_repr|..].
  - unfold Len. by rewrite (repr_length _ _ R).
  - unfold Empty. rewrite (repr_length _ _ R), <-Hlen. destruct kvs; cbn; split; congruence.
Qed.

(** The first position of a user key is in front of all of its versions. *)
Lemma seek_key_lt t c :
  is_u64 (Seqno (c_key c)) ->
  cell_lt (mkInternalKey t maxSeqno InternalKeyKindPut) c <-> (bytes_Compare (UserKey (c_key c)) t < 0)%Z.
Proof. apply klt_first_position. Qed.

(** [Seek target] followed by reading to the end returns exactly
    the entries whose user key is at least [target], in order; [Close] then gives
    the read lock back and makes the iterator invalid. *)
Theorem skiplist_seek_reads_suffix (t : bytes) (sl : SkipList) :
  sl_inv sl -> Forall (fun e => is_u64 (Seqno e.1)) (sl_entries sl) ->
  exists it sl1 it1, Seek t NewSkipListIterator sl = Ok (it, sl1) /\
    scan_loop (S (size (sl_heap sl1))) it sl1 [] =
      Ok (filter (fun e => ~ (bytes_Compare (UserKey e.1) t < 0)%Z) (sl_entries sl), it1) /\
    Close it1 sl1 = (mkIterator false None false, sl).
Proof.
  intros [cs R] Hu. rewrite (sl_entries_repr _ _ R), Forall_map in *. 
  destruct (cells_split (mkInternalKey t maxSeqno InternalKeyKindPut) cs (repr_sorted _ _ R))
    as (A & B & -> & HA & HB).
  destruct (Seek_repr sl A B t R HA HB) as (it & E & Hit & Hlk).
  pose proof (repr_set_readers (S (sl_readers sl)) _ _ R) as R'.
  do 3 eexists. split; [done|]. split.
  - rewrite (scan_loop_repr _ _ A B it _ [] R' eq_refl Hit).
    + cbn [app]. f_equal. f_equal. rewrite map_app, filter_app.
      apply Forall_app in Hu as [HuA HuB]. rewrite Forall_forall in HuA, HuB, HA, HB.
      rewrite filter_none, filter_all; [done|..].
      * intros e (c & -> & Hc)%list_elem_of_fmap. cbn. rewrite <-seek_key_lt by (by apply HuB). by apply HB.
      * intros e (c & -> & Hc)%list_elem_of_fmap Hn. apply Hn. apply seek_key_lt; [by apply HuA|by apply HA].
    + rewrite (repr_size_heap _ _ R'), length_app. lia.
  - unfold Close. cbn [it_locked]. rewrite Hlk. f_equal. 
    pose proof (set_readers_id sl) as E1. unfold set_readers in *. cbn in *. by rewrite E1.
Qed.

(** A list with three versions of two keys. *)
Definition sample_keys : list entry :=
  [ (mkInternalKey [x62] 1 InternalKeyKindPut, [x01]);
    (mkInternalKey [x61] 2 InternalKeyKindPut, [x02]);
    (mkInternalKey [x62] 3 InternalKeyKindDelete, []) ].

Definition sample_list : SkipList :=
  match puts sample_keys (NewSkipList (fun n => if Nat.even n then 0 else 3 # 4)%Q) with
  | Ok sl => sl
  | _ => NewSkipList (fun _ => 0%Q)
  end.

Lemma sample_list_inv : sl_inv sample_list /\ sl_entries sample_list = insert_all sample_keys [].
Proof.
  destruct (puts_entries sample_keys (NewSkipList (fun n => if Nat.even n then 0 else 3 # 4)%Q))
    as (sl & E & Hsl & Hes).
  { eexists. apply NewSkipList_repr. }
  unfold sample_list. rewrite E. split; [done|]. rewrite Hes.
  by rewrite (sl_entries_repr _ _ (NewSkipList_repr _)).
Qed.

Lemma skiplist_seek_reads_suffix_witness :
  exists it sl1 it1, Seek [x62] NewSkipListIterator sample_list = Ok (it, sl1) /\
    scan_loop (S (size (sl_heap sl1))) it sl1 [] =
      Ok (filter (fun e => ~ (bytes_Compare (UserKey e.1) [x62] < 0)%Z) (sl_entries sample_list), it1) /\
    Close it1 sl1 = (mkIterator false None false, sample_list).
Proof.
  apply (skiplist_seek_reads_suffix [x62] sample_list).
  - apply sample_list_inv.
  - rewrite (proj2 sample_list_inv). repeat constructor; cbn; lia.
Defined.
