(* ===== verification/RefModel.v ===== *)
(** * The reference model of the memtable tests (internal/testutil/model.go)

    All writes in insertion order, searched from the start.  The test suites compare
    memtables with it; here every memtable that keeps the interface is proved to
    answer the same. *)
From S2P Require Import Prelude.
From S2P Require Import Errors.
From S2P Require Import Keys.
From S2P Require Import Memtable.

Local Open Scope Z_scope.

Record entry := mkEntry { e_key : bytes; e_value : option bytes; e_seqno : Z; e_isDelete : bool }.

Record Model := mkModel { entries : list entry }.

Definition NewModel : Model := mkModel [].

Definition PutAt (key value : bytes) (seqno : Z) (m : Model) : Model :=
  mkModel (entries m ++ [mkEntry key (Some value) seqno false]).

Definition DeleteAt (key : bytes) (seqno : Z) (m : Model) : Model :=
  mkModel (entries m ++ [mkEntry key None seqno true]).

(** The loop of [GetAt]: the best entry among those left, given the best so far. *)
Fixpoint best_entry (key : bytes) (seqno : Z) (es : list entry) (best : option entry) : option entry :=
  match es with
  | [] => best
  | e :: es =>
      if negb (bool_decide (e_key e = key)) then best_entry key seqno es best
      else if seqno <? e_seqno e then best_entry key seqno es best
      else match best with
      | None => best_entry key seqno es (Some e)
      | Some b => if e_seqno b <=? e_seqno e then best_entry key seqno es (Some e) else best_entry key seqno es best
      end
  end.

Definition GetAt (key : bytes) (seqno : Z) (m : Model) : option bytes * bool :=
  match best_entry key seqno (entries m) None with
  | None => (None, false)
  | Some best => if e_isDelete best then (None, true) else (Some (default [] (e_value best)), true)
  end.

Definition MaxUint64 : Z := 2 ^ 64 - 1.

Definition Put (key value : bytes) (m : Model) : Model := PutAt key value MaxUint64 m.
Definition Delete (key : bytes) (m : Model) : Model := DeleteAt key MaxUint64 m.
Definition Get (key : bytes) (m : Model) : option bytes * bool := GetAt key MaxUint64 m.

(** The loop of [Keys]. *)
Fixpoint new_keys (es : list entry) (seen : gset bytes) : list bytes :=
  match es with
  | [] => []
  | e :: es => if bool_decide (e_key e ∈ seen) then new_keys es seen else e_key e :: new_keys es ({[e_key e]} ∪ seen)
  end.

Definition Keys (m : Model) : list bytes := new_keys (entries m) ∅.

Definition Len (m : Model) : nat := length (entries m).

(** ** The same writes on both sides *)
Inductive write :=
  | WPut (key value : bytes) (seqno : Z)
  | WDelete (key : bytes) (seqno : Z).

Definition to_model (m : Model) (w : write) : Model :=
  match w with WPut key value seqno => PutAt key value seqno m | WDelete key seqno => DeleteAt key seqno m end.

(** As the tests, and the engine, write to a memtable. *)
Definition to_entry (w : write) : Memtable.entry :=
  match w with
  | WPut key value seqno => (mkInternalKey key seqno InternalKeyKindPut, value)
  | WDelete key seqno => (mkInternalKey key seqno InternalKeyKindDelete, [])
  end.

Definition of_write (w : write) : entry :=
  match w with WPut key value seqno => mkEntry key (Some value) seqno false | WDelete key seqno => mkEntry key None seqno true end.

Definition model_of (ws : list write) : Model := foldl to_model NewModel ws.

Lemma model_of_entries ws : entries (model_of ws) = of_write <$> ws.
Proof.
  unfold model_of. rewrite <-(app_nil_l (of_write <$> ws)). change [] with (entries NewModel). generalize NewModel as m.
  induction ws as [|w ws IH]; intros m; cbn; [by rewrite app_nil_r|].
  rewrite IH. destruct w; cbn; by rewrite <-app_assoc.
Qed.

(** One more entry to choose from. *)
Definition better (key : bytes) (seqno : Z) (e : entry) (best : option entry) : option entry :=
  if negb (bool_decide (e_key e = key)) || (seqno <? e_seqno e) then best
  else match best with
  | None => Some e
  | Some b => if e_seqno b <=? e_seqno e then Some e else best
  end.

Lemma best_entry_snoc key seqno es e best :
  best_entry key seqno (es ++ [e]) best = better key seqno e (best_entry key seqno es best).
Proof.
  revert best. induction es as [|x es IH]; intros best; cbn.
  - unfold better. destruct (negb _); [done|]. destruct (_ <? _); [done|]. destruct best as [b|]; [|done]. by destruct (_ <=? _).
  - destruct (negb _); [done|]. destruct (_ <? _); [done|]. destruct best as [b|]; [|done]. by destruct (_ <=? _).
Qed.

(** The entries a reader may see, after one more was inserted: the newest is the new
    one, unless an entry with a higher number is there. *)
Lemma newest_after u s (e : Memtable.entry) es :
  Memtable.sorted_entries es ->
  Memtable.newest_visible u s (Memtable.insert_entry e es) =
    if decide (Memtable.visible u s e) then
      match Memtable.newest_visible u s es with
      | Some x => if Seqno x.1 <=? Seqno e.1 then Some e else Some x
      | None => Some e
      end
    else Memtable.newest_visible u s es.
Proof.
  intros Hs. rewrite Memtable.insert_entry_split by done.
  assert (Memtable.newest_visible u s es = head (filter (Memtable.visible u s) (filter (Memtable.entry_lt e.1) es) ++
    filter (Memtable.visible u s) (filter (fun x => ~ Memtable.entry_lt e.1 x) es))) as Hn.
  { unfold Memtable.newest_visible. by rewrite <-filter_app, <-Memtable.sorted_split. }
  rewrite Hn. unfold Memtable.newest_visible. rewrite !filter_app.
  destruct (decide (Memtable.visible u s e)) as [Hv|Hv]; [|by rewrite filter_cons_False].
  rewrite filter_cons_True by done.
  destruct (filter _ (filter (Memtable.entry_lt e.1) es)) as [|x xs] eqn:E; cbn [app head].
  - destruct (filter _ (filter (fun x => ~ _) es)) as [|x xs] eqn:E2; [done|]. cbn [head].
    assert (x ∈ x :: xs) as Hx by (apply elem_of_cons; by left). rewrite <-E2 in Hx. apply list_elem_of_filter in Hx as [[Hxu _] [Hx _]%list_elem_of_filter].
    unfold Memtable.entry_lt in Hx. rewrite klt_spec, Hxu, (proj1 Hv), bytes_Compare_refl in Hx.
    destruct (Z.leb_spec (Seqno x.1) (Seqno e.1)); [done|]. exfalso. apply Hx. right. split; [done|lia].
  - assert (x ∈ x :: xs) as Hx by (apply elem_of_cons; by left). rewrite <-E in Hx. apply list_elem_of_filter in Hx as [[Hxu _] [Hx _]%list_elem_of_filter].
    unfold Memtable.entry_lt in Hx. rewrite klt_spec, Hxu, (proj1 Hv), bytes_Compare_refl in Hx.
    destruct (Z.leb_spec (Seqno x.1) (Seqno e.1)); [lia|done].
Qed.

Lemma write_visible u s w :
  negb (bool_decide (e_key (of_write w) = u)) || (s <? e_seqno (of_write w)) =
    negb (bool_decide (Memtable.visible u s (to_entry w))).
Proof.
  apply eq_true_iff_eq. rewrite orb_true_iff, !negb_true_iff, !bool_decide_eq_false, Z.ltb_lt. unfold Memtable.visible.
  destruct w as [key value seqno|key seqno]; cbn; destruct (decide (key = u)), (Z.le_gt_cases seqno s); naive_solver lia.
Qed.

(** Both keep track of the same write. *)
Lemma best_is_newest u s ws :
  exists o, best_entry u s (of_write <$> ws) None = of_write <$> o /\
    Memtable.newest_visible u s (Memtable.insert_all (to_entry <$> ws) []) = to_entry <$> o.
Proof.
  induction ws as [|w ws (o & H1 & H2)] using rev_ind; [by exists None|].
  rewrite !fmap_app. cbn [fmap list_fmap]. rewrite best_entry_snoc, Memtable.insert_all_snoc, newest_after, H1, H2
    by (apply Memtable.insert_all_sorted; constructor).
  unfold better. rewrite write_visible. destruct (decide (Memtable.visible u s (to_entry w))) as [Hv|Hv].
  - rewrite bool_decide_true by done. cbn [negb]. destruct o as [x|]; cbn [fmap option_fmap option_map]; [|by exists (Some w)].
    assert (e_seqno (of_write x) <=? e_seqno (of_write w) = (Seqno (to_entry x).1 <=? Seqno (to_entry w).1)) as -> by by destruct x, w.
    destruct (_ <=? _); [by exists (Some w)|by exists (Some x)].
  - rewrite bool_decide_false by done. by exists o.
Qed.

Section Equivalence.
Context {Mem : Type} {memtable : Memtable.Memtable Mem} {memtable_laws : Memtable.MemtableLaws Mem}.

(** The writes on a memtable. *)
Fixpoint to_memtable (ws : list write) (m : Mem) : res Mem :=
  match ws with
  | [] => Ok m
  | w :: ws => m ← Memtable.mem_put (to_entry w).1 (to_entry w).2 m; to_memtable ws m
  end.

Lemma to_memtable_ok ws m :
  Memtable.mem_inv m -> exists m', to_memtable ws m = Ok m' /\ Memtable.mem_inv m' /\
    Memtable.entries m' = Memtable.insert_all (to_entry <$> ws) (Memtable.entries m).
Proof using memtable_laws.
  revert m. induction ws as [|w ws IH]; intros m Hm; cbn; [by exists m|].
  destruct (Memtable.mem_put_spec (to_entry w).1 (to_entry w).2 m Hm) as (m1 & -> & H1 & E1 & _).
  destruct (IH m1 H1) as (m2 & E2 & H2 & E3). exists m2. split; [exact E2|]. split; [done|].
  rewrite E3, E1. by destruct (to_entry w).
Qed.

(** C16: memtables answer like the reference model of the tests.  After any
    sequence of puts and deletes, with any sequence numbers in any order, repeated
    ones included, a lookup of any key at any sequence number gives on the memtable
    exactly what it gives on the model, and both count the same entries. *)
Theorem memtable_matches_model rng ws :
  exists m, to_memtable ws (Memtable.mem_new rng) = Ok m /\ Memtable.mem_len m = Len (model_of ws) /\
    forall key seqno, Memtable.mem_get key seqno m = Ok (GetAt key seqno (model_of ws)).
Proof using memtable_laws.
  destruct (Memtable.mem_new_spec rng) as [Hi He].
  destruct (to_memtable_ok ws (Memtable.mem_new rng) Hi) as (m & E & Hm & Em). rewrite He in Em. exists m. split; [done|]. split.
  - rewrite Memtable.mem_len_spec, Em, Memtable.insert_all_length by done. unfold Len. rewrite model_of_entries, !length_fmap. cbn. lia.
  - intros key seqno. rewrite Memtable.mem_get_spec, Em by done. unfold GetAt, Memtable.entries_get. rewrite model_of_entries.
    destruct (best_is_newest key seqno ws) as (o & -> & ->). by destruct o as [[]|].
Qed.
End Equivalence.

(** The keys, each once. *)
Lemma new_keys_spec es seen :
  NoDup (new_keys es seen) /\ forall k, k ∈ new_keys es seen <-> k ∉ seen /\ exists e, e ∈ es /\ e_key e = k.
Proof.
  revert seen. induction es as [|e es IH]; intros seen; cbn [new_keys].
  { split; [constructor|]. set_solver. }
  case_bool_decide as H.
  - destruct (IH seen) as [H1 H2]. split; [done|]. intros k. rewrite H2. set_solver.
  - destruct (IH ({[e_key e]} ∪ seen)) as [H1 H2]. split.
    + constructor; [|done]. rewrite H2. set_solver.
    + intros k. rewrite elem_of_cons, H2. destruct (decide (k = e_key e)) as [->|Hne]; set_solver.
Qed.
