(* ===== verification/Block.v ===== *)
(** * SSTable data blocks (internal/sstable/block.go)

    A data block is a sequence of entries
    [[key_len:4][internal key][value_len:4][value]] and a CRC32C trailer.  The
    builder, the checksum check and the decoder, and what they promise each
    other: [block_wire]. *)
From S2P Require Import Prelude.
From S2P Require Import Errors.
From S2P Require Import Coding.
From S2P Require Import Checksum.
From S2P Require Import Keys.
From S2P Require Import Memtable.

Local Open Scope Z_scope.

Definition checksumSize : nat := 4.

(** A decoded entry, [blockEntry], is the pair of key and value. *)
Abbreviation blockEntry := entry.

(** ** Reading *)
Definition verifyBlockChecksum (raw : bytes) : res bytes :=
  let n := length raw in
  if (n <? checksumSize)%nat then throw sstable.ErrCorruptBlock
  else
    payload ← slice 0 (n - checksumSize) raw;
    trailer ← slice (n - checksumSize) n raw;
    storedChecksum ← Uint32 trailer;
    let calculatedChecksum := CRC32C payload in
    if negb (storedChecksum =? calculatedChecksum) then throw sstable.ErrBlockChecksumMismatch
    else Ok payload.

(** One round of the loop of [decodeBlockEntries]. *)
Definition decodeBlockEntry (br : ByteReader) : res (blockEntry * ByteReader) :=
  '(keyLen, br) ← map_err (fun _ => sstable_error sstable.ErrCorruptBlock) (ReadUint32 br);
  '(keyBytes, br) ← map_err (fun _ => sstable_error sstable.ErrCorruptBlock) (ReadBytes keyLen br);
  key ← map_err (fun _ => sstable_error sstable.ErrCorruptBlock) (DecodeInternalKey keyBytes);
  '(valueLen, br) ← map_err (fun _ => sstable_error sstable.ErrCorruptBlock) (ReadUint32 br);
  '(valueBytes, br) ← map_err (fun _ => sstable_error sstable.ErrCorruptBlock) (ReadBytes valueLen br);
  Ok ((key, valueBytes), br).

Definition decodeBlockEntries (payload : bytes) : res (list blockEntry) :=
  decode_all decodeBlockEntry (S (length payload)) [] (NewByteReader payload).

(** ** Building *)
Record blockBuilder := mkBlockBuilder {
  bb_buf : bytes;
  bb_entryCount : Z;
  bb_firstKey : InternalKey;
  bb_lastKey : InternalKey;
  bb_hasEntries : bool
}.

Definition newBlockBuilder : blockBuilder := mkBlockBuilder [] 0 zeroKey zeroKey false.

Definition Empty (b : blockBuilder) : bool := negb (bb_hasEntries b).
Definition Size (b : blockBuilder) : nat := length (bb_buf b).
Definition EntryCount (b : blockBuilder) : Z := bb_entryCount b.
Definition FirstKey (b : blockBuilder) : InternalKey := bb_firstKey b.
Definition LastKey (b : blockBuilder) : InternalKey := bb_lastKey b.

(** [Add]: both length prefixes go through the same four-byte array. *)
Definition Add (key : InternalKey) (value : bytes) (b : blockBuilder) : res blockBuilder :=
  encoded ← Keys.Encode key;
  lenBuf ← PutUint32 (replicate 4 x00) 0 (u32 (zlen encoded));
  let buf := bb_buf b ++ lenBuf in
  let buf := buf ++ encoded in
  lenBuf ← PutUint32 lenBuf 0 (u32 (zlen value));
  let buf := buf ++ lenBuf in
  let buf := buf ++ value in
  Ok (mkBlockBuilder buf (u32 (bb_entryCount b + 1))
        (if bb_hasEntries b then bb_firstKey b else key) key true).

(** [Finish]: the block's bytes, which stay in the builder's buffer. *)
Definition Finish (b : blockBuilder) : res (bytes * blockBuilder) :=
  let crc := CRC32C (bb_buf b) in
  let buf := bb_buf b ++ [x00; x00; x00; x00] in
  buf ← PutUint32 buf (length buf - 4) crc;
  Ok (buf, mkBlockBuilder buf (bb_entryCount b) (bb_firstKey b) (bb_lastKey b) (bb_hasEntries b)).

Definition Reset (b : blockBuilder) : blockBuilder := mkBlockBuilder [] 0 zeroKey zeroKey false.

Definition encodedEntrySize (key : InternalKey) (value : bytes) : nat :=
  4 + length (UserKey key) + 9 + 4 + length value.

(** ** Wire format *)
Definition entry_wire (e : blockEntry) : bytes :=
  be_bytes 4 (u32 (zlen (key_wire e.1))) ++ key_wire e.1 ++ be_bytes 4 (u32 (zlen e.2)) ++ e.2.

Definition entries_wire (es : list blockEntry) : bytes := mjoin (entry_wire <$> es).

Definition block_wire (es : list blockEntry) : bytes :=
  entries_wire es ++ be_bytes 4 (CRC32C (entries_wire es)).

(** What fits the 32-bit length fields. *)
Definition wf_entry (e : blockEntry) : Prop :=
  wf_key e.1 /\ is_u32 (zlen (key_wire e.1)) /\ is_u32 (zlen e.2).

#[export] Instance wf_entry_dec e : Decision (wf_entry e).
Proof. unfold wf_entry. apply _. Defined.

Lemma entries_wire_cons e es : entries_wire (e :: es) = entry_wire e ++ entries_wire es.
Proof. reflexivity. Qed.

Lemma entries_wire_snoc es e : entries_wire (es ++ [e]) = entries_wire es ++ entry_wire e.
Proof. unfold entries_wire. rewrite fmap_app, join_app. cbn. by rewrite app_nil_r. Qed.

Lemma length_entry_wire e : length (entry_wire e) = encodedEntrySize e.1 e.2.
Proof.
  unfold entry_wire, encodedEntrySize. rewrite !length_app, !length_be_bytes, length_key_wire. lia.
Qed.

Lemma length_block_wire es : length (block_wire es) = (length (entries_wire es) + 4)%nat.
Proof. unfold block_wire. by rewrite length_app, length_be_bytes. Qed.

Lemma CRC32C_u32 data : is_u32 (CRC32C data).
Proof. apply CRC32C_range. Qed.
#[export] Hint Resolve CRC32C_u32 : beach.

(** ** The checksum *)
Lemma verify_split payload trailer :
  length trailer = 4%nat ->
  verifyBlockChecksum (payload ++ trailer) =
    if decide (be_value trailer = CRC32C payload) then Ok payload
    else throw sstable.ErrBlockChecksumMismatch.
Proof.
  intros Ht. unfold verifyBlockChecksum, checksumSize. rewrite length_app, Ht.
  rewrite (proj2 (Nat.ltb_ge _ _)) by lia.
  replace (length payload + 4 - 4)%nat with (length payload) by lia.
  assert (slice 0 (length payload) (payload ++ trailer) = @Ok error _ payload) as ->
    by by apply (slice_app []).
  assert (slice (length payload) (length payload + 4) (payload ++ trailer) = @Ok error _ trailer) as ->
    by (rewrite <-(app_nil_r trailer) at 1; apply slice_app; lia).
  cbn [mbind result_bind]. unfold Uint32. rewrite get_be_exact by done. cbn [mbind result_bind].
  destruct (Z.eqb_spec (be_value trailer) (CRC32C payload)); by case_decide.
Qed.

Lemma verify_wire payload :
  verifyBlockChecksum (payload ++ be_bytes 4 (CRC32C payload)) = Ok payload.
Proof.
  rewrite verify_split by apply length_be_bytes. by rewrite be32_value, decide_True by auto with beach.
Qed.

Lemma verify_sound raw payload :
  verifyBlockChecksum raw = Ok payload -> raw = payload ++ be_bytes 4 (CRC32C payload).
Proof.
  intros H. assert (checksumSize <= length raw)%nat as Hl.
  { unfold verifyBlockChecksum in H. destruct (_ <? _)%nat eqn:E; [done|]. zb. done. }
  unfold checksumSize in Hl. rewrite <-(take_drop (length raw - 4) raw) in H |- *.
  assert (length (drop (length raw - 4) raw) = 4%nat) as Ht by (rewrite length_drop; lia).
  rewrite verify_split in H by done. case_decide as E; simplify_eq.
  rewrite <-E. by rewrite be_bytes_be_value by done.
Qed.

Lemma verify_safe raw :
  safe (fun e : error => e = sstable.ErrCorruptBlock \/ e = sstable.ErrBlockChecksumMismatch)
    (verifyBlockChecksum raw).
Proof.
  destruct (decide (length raw < 4)%nat) as [Hl|Hl].
  - unfold verifyBlockChecksum, checksumSize. rewrite (proj2 (Nat.ltb_lt _ _)) by lia. auto with beach.
  - rewrite <-(take_drop (length raw - 4) raw).
    rewrite verify_split by (rewrite length_drop; lia). case_decide; auto with beach.
Qed.

(** ** The decoder *)
Lemma decodeBlockEntry_wire e r t :
  wf_entry e -> wf_reader r -> rest r = entry_wire e ++ t ->
  decodeBlockEntry r = Ok (e, advance (length (entry_wire e)) r).
Proof.
  intros (Hk & Hkl & Hvl) Hwf Hr. unfold entry_wire in Hr. rewrite <-!app_assoc in Hr.
  unfold decodeBlockEntry. rewrite u32_id in Hr by done.
  rewrite (ReadUint32_app _ _ _ Hkl Hr). cbn [map_err mbind result_bind].
  pose proof (rest_advance_app 4 _ _ _ Hr (length_be_bytes _ _)) as H1.
  pose proof (wf_advance_app 4 _ _ _ Hwf Hr (length_be_bytes _ _)) as W1.
  rewrite (ReadBytes_app _ _ _ _ W1 H1 eq_refl). cbn [map_err mbind result_bind].
  pose proof (rest_advance_app _ _ _ _ H1 eq_refl) as H2.
  pose proof (wf_advance_app _ _ _ _ W1 H1 eq_refl) as W2.
  rewrite DecodeInternalKey_wire by done. cbn [map_err mbind result_bind].
  rewrite u32_id in H2 by done. rewrite (ReadUint32_app _ _ _ Hvl H2). cbn [map_err mbind result_bind].
  pose proof (rest_advance_app 4 _ _ _ H2 (length_be_bytes _ _)) as H3.
  pose proof (wf_advance_app 4 _ _ _ W2 H2 (length_be_bytes _ _)) as W3.
  rewrite (ReadBytes_app _ _ _ _ W3 H3 eq_refl). cbn [map_err mbind result_bind].
  rewrite !advance_advance. destruct e as [k v]. cbn [fst snd]. do 3 f_equal.
  unfold entry_wire. rewrite !length_app, !length_be_bytes. cbn [fst snd]. lia.
Qed.

Lemma decodeBlockEntry_sound r e r' :
  decodeBlockEntry r = Ok (e, r') -> wf_entry e /\ consumed r (entry_wire e) r'.
Proof.
  unfold decodeBlockEntry. intros H.
  apply bind_Ok in H as ([kl r1] & E1%map_err_Ok & H).
  apply bind_Ok in H as ([kb r2] & E2%map_err_Ok & H).
  apply bind_Ok in H as (k & E3%map_err_Ok & H).
  apply bind_Ok in H as ([vl r3] & E4%map_err_Ok & H).
  apply bind_Ok in H as ([v r4] & E5%map_err_Ok & H). injection H as <- <-.
  apply ReadUint32_consumed in E1 as [E1 Hkl]. apply ReadBytes_consumed in E2 as [E2 Hk]; [|apply Hkl].
  apply DecodeInternalKey_sound in E3 as [Hwk ->].
  apply ReadUint32_consumed in E4 as [E4 Hvl]. apply ReadBytes_consumed in E5 as [E5 Hv]; [|apply Hvl].
  subst kl vl. split; [done|]. unfold entry_wire. cbn [fst snd]. rewrite !u32_id by done.
  eauto 10 with beach.
Qed.

Definition corrupt_block (e : error) : Prop := e = sstable.ErrCorruptBlock.
#[local] Hint Extern 1 (corrupt_block _) => reflexivity : beach.

Lemma DecodeInternalKey_any data :
  (exists e, DecodeInternalKey data = Err e) \/ is_Ok (DecodeInternalKey data).
Proof. destruct (DecodeInternalKey_total data) as [->|]; eauto. Qed.

Lemma decodeBlockEntry_safe r : safe corrupt_block (decodeBlockEntry r).
Proof.
  unfold decodeBlockEntry. safe_read. safe_read.
  apply safe_bind; [apply safe_map_err; [done|apply DecodeInternalKey_any]|]. intros k _.
  safe_read. safe_read. auto with beach.
Qed.

Lemma entry_wire_pos e : (0 < length (entry_wire e))%nat.
Proof. rewrite length_entry_wire. unfold encodedEntrySize. lia. Qed.

Lemma length_entries_wire es : (length es <= length (entries_wire es))%nat.
Proof. apply length_wires, entry_wire_pos. Qed.

Lemma decodeBlockEntries_wire es : Forall wf_entry es -> decodeBlockEntries (entries_wire es) = Ok es.
Proof.
  intros H. unfold decodeBlockEntries.
  rewrite (decode_all_wire decodeBlockEntry entry_wire wf_entry decodeBlockEntry_wire entry_wire_pos es);
    [done|done|apply wf_new|apply rest_new|]. pose proof (length_entries_wire es). lia.
Qed.

Lemma decodeBlockEntries_sound payload es :
  decodeBlockEntries payload = Ok es -> Forall wf_entry es /\ payload = entries_wire es.
Proof.
  intros H. apply (decode_all_sound _ entry_wire wf_entry decodeBlockEntry_sound) in H
    as (l & -> & Hl & E); [|apply wf_new]. by rewrite rest_new in E.
Qed.

Lemma decodeBlockEntries_safe payload : safe corrupt_block (decodeBlockEntries payload).
Proof.
  apply (decode_all_safe _ entry_wire wf_entry);
    [apply decodeBlockEntry_sound|apply entry_wire_pos|apply decodeBlockEntry_safe| |apply wf_new].
  rewrite rest_new. lia.
Qed.

(** ** The builder *)

(** The builder holds the entries [es]. *)
Record block_inv (b : blockBuilder) (es : list blockEntry) : Prop := {
  bi_buf : bb_buf b = entries_wire es;
  bi_count : bb_entryCount b = u32 (zlen es);
  bi_has : bb_hasEntries b = negb (bool_decide (es = []));
  bi_first : bb_firstKey b = default zeroKey (fst <$> head es);
  bi_last : bb_lastKey b = default zeroKey (fst <$> last es)
}.

Lemma newBlockBuilder_inv : block_inv newBlockBuilder [].
Proof. by split. Qed.

Lemma Reset_inv b : block_inv (Reset b) [].
Proof. by split. Qed.

Lemma PutUint32_4 (l : bytes) v : length l = 4%nat -> PutUint32 l 0 v = Ok (be_bytes 4 v).
Proof.
  intros H. unfold PutUint32. rewrite <-(app_nil_l l), put_be_fill by (cbn; lia).
  rewrite drop_ge by lia. by rewrite app_nil_r.
Qed.

Lemma Add_inv k v b es :
  block_inv b es -> exists b', Add k v b = Ok b' /\ block_inv b' (es ++ [(k, v)]).
Proof.
  intros [Hb Hc Hh Hf Hl]. unfold Add. rewrite Encode_wire. cbn [mbind result_bind].
  rewrite PutUint32_4 by done. cbn [mbind result_bind].
  rewrite PutUint32_4 by apply length_be_bytes. cbn [mbind result_bind].
  eexists; split; [done|]. split; cbn [bb_buf bb_entryCount bb_firstKey bb_lastKey bb_hasEntries].
  - rewrite Hb, entries_wire_snoc. unfold entry_wire. cbn [fst snd]. by rewrite <-!app_assoc.
  - rewrite Hc, zlen_app. unfold u32. by rewrite Zplus_mod_idemp_l.
  - by destruct es.
  - rewrite Hh, Hf. by destruct es.
  - by rewrite last_snoc.
Qed.

Lemma Finish_inv b es :
  block_inv b es -> exists b', Finish b = Ok (block_wire es, b') /\ bb_hasEntries b' = bb_hasEntries b /\
    bb_lastKey b' = bb_lastKey b.
Proof.
  intros [Hb Hc Hh Hf Hl]. unfold Finish. rewrite Hb.
  assert (PutUint32 (entries_wire es ++ [x00; x00; x00; x00])
    (length (entries_wire es ++ [x00; x00; x00; x00]) - 4) (CRC32C (entries_wire es)) =
    Ok (block_wire es)) as ->.
  { unfold PutUint32. rewrite put_be_fill by (rewrite ?length_app; cbn; lia). cbn [drop].
    by rewrite app_nil_r. }
  cbn [mbind result_bind]. eauto.
Qed.

(** Neither panics, whatever the builder holds. *)
Lemma Add_total k v b : exists b', Add k v b = Ok b'.
Proof.
  unfold Add. rewrite Encode_wire. cbn [mbind result_bind]. rewrite PutUint32_4 by done. cbn [mbind result_bind].
  rewrite PutUint32_4 by apply length_be_bytes. by eexists.
Qed.

Lemma Finish_total b : exists r, Finish b = Ok r.
Proof.
  unfold Finish, PutUint32. rewrite put_be_fill by (rewrite ?length_app; cbn; lia). by eexists.
Qed.

(** ** Properties *)

(** Blocks round trip.  Adding any entries within the 32-bit
    length fields to a new builder and finishing it yields bytes that pass the
    checksum and decode to the same entries in the same order; every [Add] grows
    the block by exactly [encodedEntrySize]; first and last key are those of the
    first and last entry added. *)
Theorem block_roundtrip (es : list blockEntry) :
  Forall wf_entry es ->
  exists b raw b', foldl (fun m e => mbind (Add e.1 e.2) m) (Ok newBlockBuilder) es = Ok b /\
    Finish b = Ok (raw, b') /\
    (verifyBlockChecksum raw ≫= decodeBlockEntries) = Ok es /\
    Size b = foldr (fun e n => encodedEntrySize e.1 e.2 + n)%nat 0%nat es /\
    length raw = (Size b + checksumSize)%nat /\
    FirstKey b = default zeroKey (fst <$> head es) /\ LastKey b = default zeroKey (fst <$> last es).
Proof.
  intros Hwf.
  assert (exists b, foldl (fun m e => mbind (Add e.1 e.2) m) (Ok newBlockBuilder) es = Ok b /\ block_inv b es)
    as (b & E & Hb).
  { clear Hwf. induction es as [|[k v] es IH] using rev_ind; [eexists; split; [done|apply newBlockBuilder_inv]|].
    destruct IH as (b & E & Hb). rewrite foldl_app, E. cbn. by apply Add_inv. }
  destruct (Finish_inv b es Hb) as (b' & EF & _). exists b, (block_wire es), b'.
  split_and!; [done|done| | |by rewrite length_block_wire; unfold Size; rewrite (bi_buf _ _ Hb)|apply Hb..].
  - unfold block_wire. rewrite verify_wire. by apply decodeBlockEntries_wire.
  - unfold Size. rewrite (bi_buf _ _ Hb). clear. induction es as [|e es IH]; [done|].
    rewrite entries_wire_cons, length_app, length_entry_wire, IH. done.
Qed.

Definition sample_entries : list blockEntry :=
  [ (mkInternalKey [x61] 7 InternalKeyKindPut, [x01; x02]);
    (mkInternalKey [x61] 3 InternalKeyKindDelete, []) ].

Lemma block_roundtrip_witness :
  exists b raw b', foldl (fun m e => mbind (Add e.1 e.2) m) (Ok newBlockBuilder) sample_entries = Ok b /\
    Finish b = Ok (raw, b') /\
    (verifyBlockChecksum raw ≫= decodeBlockEntries) = Ok sample_entries /\
    Size b = 38%nat.
Proof.
  destruct (block_roundtrip sample_entries) as (b & raw & b' & E1 & E2 & E3 & E4 & _).
  - repeat constructor; vm_compute; (reflexivity || discriminate).
  - exists b, raw, b'. split_and!; [exact E1|exact E2|exact E3|exact E4].
Defined.

(** A block read from disk is either exact or refused.  On every
    byte string, checksum check and decoder together return entries that fit the
    length fields and whose block is that very string, or report
    [ErrCorruptBlock] or [ErrBlockChecksumMismatch]; they never panic. *)
Theorem block_decode_exact (raw : bytes) :
  (exists es, (verifyBlockChecksum raw ≫= decodeBlockEntries) = Ok es /\ Forall wf_entry es /\ raw = block_wire es) \/
  (exists e : error, (verifyBlockChecksum raw ≫= decodeBlockEntries) = Err e /\
     (e = sstable.ErrCorruptBlock \/ e = sstable.ErrBlockChecksumMismatch) /\
     forall es, Forall wf_entry es -> raw <> block_wire es).
Proof.
  destruct (verify_safe raw) as [[payload E]|(e & E & He)]; rewrite E; cbn [mbind result_bind].
  - apply verify_sound in E as ->.
    destruct (decodeBlockEntries_safe payload) as [[es E]|(e & E & ->)]; rewrite E.
    + left. exists es. apply decodeBlockEntries_sound in E as [Hwf ->]. done.
    + right. exists sstable.ErrCorruptBlock. split_and!; [done|by left|]. intros es Hwf Heq.
      unfold block_wire in Heq. apply app_inj_2 in Heq as [-> _]; [|by rewrite !length_be_bytes].
      by rewrite decodeBlockEntries_wire in E.
  - right. exists e. split_and!; [done..|]. intros es Hwf ->. unfold block_wire in E.
    by rewrite verify_wire in E.
Qed.
