(* ===== verification/Footer.v ===== *)
(** * SSTable footer (internal/sstable/footer.go)

    The fixed 40-byte record at the end of a table:
    [[magic:8][version:4][index_offset:8][index_size:4][data_block_count:4][entry_count:8][checksum:4]]. *)
From S2P Require Import Prelude.
From S2P Require Import Errors.
From S2P Require Import Coding.
From S2P Require Import Checksum.
From S2P Require Import Keys.
From S2P Require Import Memtable.
From S2P Require Import Block.

Local Open Scope Z_scope.

Definition sstMagic : string := "BEACHSST".
Definition sstVersion : Z := 1.

Definition sstMagicSize : nat := 8.
Definition sstVersionSize : nat := 4.
Definition sstIndexOffsetSize : nat := 8.
Definition sstIndexSizeSize : nat := 4.
Definition sstDataBlockCountSize : nat := 4.
Definition sstEntryCountSize : nat := 8.

Definition sstMagicOffset : nat := 0.
Definition sstVersionOffset : nat := sstMagicOffset + sstMagicSize.
Definition sstIndexOffsetOffset : nat := sstVersionOffset + sstVersionSize.
Definition sstIndexSizeOffset : nat := sstIndexOffsetOffset + sstIndexOffsetSize.
Definition sstDataBlockCountOffset : nat := sstIndexSizeOffset + sstIndexSizeSize.
Definition sstEntryCountOffset : nat := sstDataBlockCountOffset + sstDataBlockCountSize.
Definition sstChecksumOffset : nat := sstEntryCountOffset + sstEntryCountSize.
Definition sstChecksumInputSize : nat := sstChecksumOffset.
Definition footerSize : nat := sstChecksumOffset + checksumSize.

Record footer := mkFooter {
  indexOffset : Z;
  indexSize : Z;
  dataBlockCount : Z;
  entryCount : Z
}.

#[export] Instance footer_eq_dec : EqDecision footer.
Proof. solve_decision. Defined.

Definition newFooter := mkFooter.

Definition encode (f : footer) : res bytes :=
  let buf := replicate footerSize x00 in
  buf ← copy_at sstMagicOffset (bytes_of_string sstMagic) buf;
  buf ← PutUint32 buf sstVersionOffset sstVersion;
  buf ← PutUint64 buf sstIndexOffsetOffset (indexOffset f);
  buf ← PutUint32 buf sstIndexSizeOffset (indexSize f);
  buf ← PutUint32 buf sstDataBlockCountOffset (dataBlockCount f);
  buf ← PutUint64 buf sstEntryCountOffset (entryCount f);
  input ← slice 0 sstChecksumInputSize buf;
  PutUint32 buf sstChecksumOffset (CRC32C input).

Definition field (off size : nat) (data : bytes) : res bytes := slice off (off + size) data.

Definition decodeFooter (data : bytes) : res footer :=
  if negb (length data =? footerSize)%nat then throw sstable.ErrCorruptFooter
  else
    magic ← field sstMagicOffset sstMagicSize data;
    if negb (bool_decide (magic = bytes_of_string sstMagic)) then throw sstable.ErrBadMagic
    else
      version ← (field sstVersionOffset sstVersionSize data ≫= Uint32);
      if negb (version =? sstVersion) then throw sstable.ErrUnsupportedVersion
      else
        stored ← (field sstChecksumOffset checksumSize data ≫= Uint32);
        input ← slice 0 sstChecksumInputSize data;
        if negb (stored =? CRC32C input) then throw sstable.ErrCorruptFooter
        else
          indexOffset ← (field sstIndexOffsetOffset sstIndexOffsetSize data ≫= Uint64);
          indexSize ← (field sstIndexSizeOffset sstIndexSizeSize data ≫= Uint32);
          dataBlockCount ← (field sstDataBlockCountOffset sstDataBlockCountSize data ≫= Uint32);
          entryCount ← (field sstEntryCountOffset sstEntryCountSize data ≫= Uint64);
          Ok (mkFooter indexOffset indexSize dataBlockCount entryCount).

(** ** Wire format *)
Definition footer_body (f : footer) : bytes :=
  bytes_of_string sstMagic ++ be_bytes 4 sstVersion ++ be_bytes 8 (indexOffset f) ++
  be_bytes 4 (indexSize f) ++ be_bytes 4 (dataBlockCount f) ++ be_bytes 8 (entryCount f).

Definition footer_wire (f : footer) : bytes :=
  footer_body f ++ be_bytes 4 (CRC32C (footer_body f)).

Definition wf_footer (f : footer) : Prop :=
  is_u64 (indexOffset f) /\ is_u32 (indexSize f) /\ is_u32 (dataBlockCount f) /\ is_u64 (entryCount f).

#[export] Instance wf_footer_dec f : Decision (wf_footer f).
Proof. unfold wf_footer. apply _. Defined.

Ltac footer_sizes :=
  rewrite ?length_app, ?length_be_bytes, ?length_replicate;
  try change (length (bytes_of_string sstMagic)) with 8%nat;
  unfold footerSize, sstChecksumInputSize, sstChecksumOffset, sstEntryCountOffset,
    sstDataBlockCountOffset, sstIndexSizeOffset, sstIndexOffsetOffset, sstVersionOffset, sstMagicOffset,
    sstMagicSize, sstVersionSize, sstIndexOffsetSize, sstIndexSizeSize, sstDataBlockCountSize,
    sstEntryCountSize, checksumSize; cbn [length]; lia.

Lemma length_footer_body f : length (footer_body f) = sstChecksumOffset.
Proof. unfold footer_body. footer_sizes. Qed.

Lemma length_footer_wire f : length (footer_wire f) = footerSize.
Proof. unfold footer_wire. by rewrite length_app, length_footer_body, length_be_bytes. Qed.

Ltac footer_fill :=
  first [ rewrite copy_at_fill | unfold PutUint32; rewrite put_be_fill | unfold PutUint64; rewrite put_be_fill ];
  [ cbn [mbind result_bind]; rewrite drop_zeros | footer_sizes .. ].

Lemma encode_wire f : encode f = Ok (footer_wire f).
Proof.
  unfold encode. rewrite <-(app_nil_l (replicate _ x00)).
  do 6 footer_fill. cbn [app].
  assert (forall rst : bytes, slice 0 sstChecksumInputSize (footer_body f ++ rst) = @Ok error _ (footer_body f)) as Hs.
  { intros rst. apply (slice_app []); [done|]. rewrite length_footer_body. done. }
  match goal with |- context [slice 0 _ ?b] =>
    match b with context [replicate ?n _] => replace b with (footer_body f ++ replicate n x00)
      by (unfold footer_body; by rewrite <-!app_assoc) end end.
  rewrite Hs. cbn [mbind result_bind]. unfold PutUint32. rewrite put_be_fill.
  - rewrite drop_zeros. match goal with |- context [replicate ?n _] => replace n with 0%nat by footer_sizes end.
    by rewrite app_nil_r.
  - by rewrite length_footer_body.
  - footer_sizes.
Qed.

(** ** Decoding *)

(** The seven fields of a 40-byte string, and the checks in the order the code
    makes them. *)
Lemma decodeFooter_fields m v io isz bc ec c :
  length m = 8%nat -> length v = 4%nat -> length io = 8%nat -> length isz = 4%nat ->
  length bc = 4%nat -> length ec = 8%nat -> length c = 4%nat ->
  decodeFooter ((m ++ v ++ io ++ isz ++ bc ++ ec) ++ c) =
    if decide (m = bytes_of_string sstMagic) then
      if decide (be_value v = sstVersion) then
        if decide (be_value c = CRC32C (m ++ v ++ io ++ isz ++ bc ++ ec)) then
          Ok (mkFooter (be_value io) (be_value isz) (be_value bc) (be_value ec))
        else throw sstable.ErrCorruptFooter
      else throw sstable.ErrUnsupportedVersion
    else throw sstable.ErrBadMagic.
Proof.
  intros Hm Hv Hio Hisz Hbc Hec Hc. unfold decodeFooter, field.
  set (body := m ++ v ++ io ++ isz ++ bc ++ ec). set (data := body ++ c).
  assert (forall a b pre x post, data = pre ++ x ++ post -> a = length pre -> b = (length pre + length x)%nat ->
    slice a b data = @Ok error _ x) as Hsl by (intros a b pre x post -> -> ->; by apply slice_app).
  assert (length data = footerSize) as ->
    by (unfold data, body; rewrite !length_app, Hm, Hv, Hio, Hisz, Hbc, Hec, Hc; done).
  rewrite Nat.eqb_refl. cbn [negb].
  assert (length body = sstChecksumOffset) as Hbody by (unfold body; footer_sizes).
  rewrite (Hsl sstMagicOffset (sstMagicOffset + sstMagicSize)%nat [] m (v ++ io ++ isz ++ bc ++ ec ++ c)) by
    (footer_sizes || (unfold data, body; cbn [app]; by rewrite <-?app_assoc)).
  rewrite (Hsl sstVersionOffset (sstVersionOffset + sstVersionSize)%nat m v (io ++ isz ++ bc ++ ec ++ c)) by
    (footer_sizes || (unfold data, body; cbn [app]; by rewrite <-?app_assoc)).
  rewrite (Hsl sstIndexOffsetOffset (sstIndexOffsetOffset + sstIndexOffsetSize)%nat (m ++ v) io (isz ++ bc ++ ec ++ c)) by
    (footer_sizes || (unfold data, body; cbn [app]; by rewrite <-?app_assoc)).
  rewrite (Hsl sstIndexSizeOffset (sstIndexSizeOffset + sstIndexSizeSize)%nat (m ++ v ++ io) isz (bc ++ ec ++ c)) by
    (footer_sizes || (unfold data, body; cbn [app]; by rewrite <-?app_assoc)).
  rewrite (Hsl sstDataBlockCountOffset (sstDataBlockCountOffset + sstDataBlockCountSize)%nat (m ++ v ++ io ++ isz) bc (ec ++ c)) by
    (footer_sizes || (unfold data, body; cbn [app]; by rewrite <-?app_assoc)).
  rewrite (Hsl sstEntryCountOffset (sstEntryCountOffset + sstEntryCountSize)%nat (m ++ v ++ io ++ isz ++ bc) ec c) by
    (footer_sizes || (unfold data, body; cbn [app]; by rewrite <-?app_assoc)).
  rewrite (Hsl sstChecksumOffset (sstChecksumOffset + checksumSize)%nat body c []) by
    first [by unfold data; rewrite app_nil_r | rewrite ?Hbody; footer_sizes].
  rewrite (Hsl 0%nat sstChecksumInputSize [] body c) by (done || (rewrite Hbody; done)).
  cbn [mbind result_bind]. unfold Uint32, Uint64. rewrite !get_be_exact by done. cbn [mbind result_bind].
  case_bool_decide; cbn [negb]; [rewrite decide_True by done|by rewrite decide_False].
  destruct (Z.eqb_spec (be_value v) sstVersion); cbn [negb]; [rewrite decide_True by done|by rewrite decide_False].
  destruct (Z.eqb_spec (be_value c) (CRC32C body)); cbn [negb]; [by rewrite decide_True|by rewrite decide_False].
Qed.

Lemma split_take (n : nat) (l : bytes) k :
  length l = (n + k)%nat -> exists a b, l = a ++ b /\ length a = n /\ length b = k.
Proof.
  intros H. exists (take n l), (drop n l). rewrite length_take, length_drop.
  split_and!; [by rewrite take_drop|lia..].
Qed.

Lemma split_footer (data : bytes) :
  length data = footerSize ->
  exists m v io isz bc ec c, data = (m ++ v ++ io ++ isz ++ bc ++ ec) ++ c /\
    length m = 8%nat /\ length v = 4%nat /\ length io = 8%nat /\ length isz = 4%nat /\
    length bc = 4%nat /\ length ec = 8%nat /\ length c = 4%nat.
Proof.
  intros H. change footerSize with (8 + 32)%nat in H.
  apply (split_take 8 data 32) in H as (m & d & -> & Hm & H).
  apply (split_take 4 d 28) in H as (v & d1 & -> & Hv & H).
  apply (split_take 8 d1 20) in H as (io & d2 & -> & Hio & H).
  apply (split_take 4 d2 16) in H as (isz & d3 & -> & Hisz & H).
  apply (split_take 4 d3 12) in H as (bc & d4 & -> & Hbc & H).
  apply (split_take 8 d4 4) in H as (ec & c & -> & Hec & H).
  exists m, v, io, isz, bc, ec, c. by rewrite <-!app_assoc.
Qed.

Lemma decodeFooter_wire f : wf_footer f -> decodeFooter (footer_wire f) = Ok f.
Proof.
  intros (H1 & H2 & H3 & H4). unfold footer_wire, footer_body.
  rewrite decodeFooter_fields by (rewrite ?length_be_bytes; done).
  rewrite !be32_value by (auto with beach; unfold is_u32, sstVersion; lia).
  rewrite !be64_value by done. rewrite !decide_True by done. by destruct f.
Qed.

Lemma decodeFooter_sound data f :
  decodeFooter data = Ok f -> wf_footer f /\ data = footer_wire f.
Proof.
  intros H. destruct (decide (length data = footerSize)) as [Hl|Hl]; cycle 1.
  { unfold decodeFooter in H. by rewrite (proj2 (Nat.eqb_neq _ _)) in H by done. }
  apply split_footer in Hl as (m & v & io & isz & bc & ec & c & -> & Hm & Hv & Hio & Hisz & Hbc & Hec & Hc).
  rewrite decodeFooter_fields in H by done. case_decide as Em; [|done]. case_decide as Ev; [|done].
  case_decide as Ec; [|done]. injection H as <-.
  split; [split_and!; cbn; auto using be_value_u32, be_value_u64|].
  unfold footer_wire.
  assert (footer_body (mkFooter (be_value io) (be_value isz) (be_value bc) (be_value ec)) =
    m ++ v ++ io ++ isz ++ bc ++ ec) as ->.
  { unfold footer_body. cbn [indexOffset indexSize dataBlockCount entryCount].
    rewrite <-Ev, !be_bytes_be_value by done. by rewrite Em. }
  by rewrite <-Ec, be_bytes_be_value.
Qed.

Definition footer_error (e : error) : Prop :=
  e = sstable.ErrCorruptFooter \/ e = sstable.ErrBadMagic \/ e = sstable.ErrUnsupportedVersion.

Lemma decodeFooter_safe data : safe footer_error (decodeFooter data).
Proof.
  destruct (decide (length data = footerSize)) as [Hl|Hl].
  - apply split_footer in Hl as (m & v & io & isz & bc & ec & c & -> & Hm & Hv & Hio & Hisz & Hbc & Hec & Hc).
    rewrite decodeFooter_fields by done. repeat case_decide; first [apply safe_Ok|apply safe_err; unfold footer_error; auto].
  - unfold decodeFooter. rewrite (proj2 (Nat.eqb_neq _ _)) by done. apply safe_err. by left.
Qed.

(** ** Properties *)

(** The footer's encoding is exact.  Every byte string either
    decodes to a footer with fields of the declared widths whose encoding is that
    very string, or is refused with [ErrCorruptFooter], [ErrBadMagic] or
    [ErrUnsupportedVersion], and then no such footer encodes to it. *)
Theorem footer_codec (data : bytes) :
  (exists f, decodeFooter data = Ok f /\ wf_footer f /\ encode f = Ok data) \/
  (exists e, decodeFooter data = Err e /\ footer_error e /\ forall f, wf_footer f -> encode f <> Ok data).
Proof.
  destruct (decodeFooter_safe data) as [[f E]|(e & E & He)].
  - left. exists f. apply decodeFooter_sound in E as Hs. destruct Hs as [Hf ->].
    split_and!; [exact E|exact Hf|apply encode_wire].
  - right. exists e. split_and!; [exact E|exact He|]. intros f Hf Hfe. rewrite encode_wire in Hfe. injection Hfe as <-.
    rewrite decodeFooter_wire in E by exact Hf. discriminate E.
Qed.

(** A damaged footer is refused.  If up to four consecutive bytes
    in front of the checksum field of an encoded footer are changed, decoding
    fails. *)
Theorem footer_rejects_burst (f : footer) (pre w1 w2 post : bytes) :
  footer_body f = pre ++ w1 ++ post -> length w1 = length w2 -> (length w1 <= 4)%nat -> w1 <> w2 ->
  exists e, decodeFooter ((pre ++ w2 ++ post) ++ be_bytes 4 (CRC32C (footer_body f))) = Err e /\
    footer_error e.
Proof.
  intros Hb Hl H4 Hne.
  destruct (decodeFooter_safe ((pre ++ w2 ++ post) ++ be_bytes 4 (CRC32C (footer_body f))))
    as [[g E]|(e & E & He)]; [exfalso|by exists e].
  apply decodeFooter_sound in E as [_ E]. unfold footer_wire in E.
  apply app_inj_2 in E as [E1 E2]; [|by rewrite !length_be_bytes].
  apply (crc_burst pre w1 w2 post Hl H4 Hne). rewrite <-Hb, E1.
  apply (f_equal be_value) in E2. by rewrite !be32_value in E2 by auto with beach.
Qed.

Lemma footer_rejects_burst_witness :
  exists e, decodeFooter ((bytes_of_string sstMagic ++ [x00; x00; x00; x02] ++ replicate 24 x00) ++
      be_bytes 4 (CRC32C (footer_body (mkFooter 0 0 0 0)))) = Err e /\ footer_error e.
Proof.
  apply (footer_rejects_burst (mkFooter 0 0 0 0) (bytes_of_string sstMagic) [x00; x00; x00; x01]
    [x00; x00; x00; x02] (replicate 24 x00)); [reflexivity|reflexivity|cbn; lia|discriminate].
Defined.
