(* ===== verification/Index.v ===== *)
(** * SSTable index block (internal/sstable/index.go)

    One entry per data block,
    [[last_key_len:4][last internal key][block_offset:8][block_size:4]], and a
    CRC32C trailer. *)
From S2P Require Import Prelude.
From S2P Require Import Errors.
From S2P Require Import Coding.
From S2P Require Import Checksum.
From S2P Require Import Keys.
From S2P Require Import Memtable.
From S2P Require Import Block.

Local Open Scope Z_scope.

Record indexEntry := mkIndexEntry { lastKey : InternalKey; offset : Z; size : Z }.

#[export] Instance indexEntry_eq_dec : EqDecision indexEntry.
Proof. solve_decision. Defined.

(** The fixed-width fields go through one eight-byte array [tmp];
    [PutUint32(tmp[:4], v)] changes its first half only. *)
Definition put4 (tmp : bytes) (v : Z) : res bytes :=
  head ← slice 0 4 tmp; head ← PutUint32 head 0 v; copy_at 0 head tmp.

Fixpoint encode_index_loop (entries : list (indexEntry * bytes)) (tmp buf : bytes) : res (bytes * bytes) :=
  match entries with
  | [] => Ok (buf, tmp)
  | (entry, encodedKey) :: entries =>
      tmp ← put4 tmp (u32 (zlen encodedKey));
      four ← slice 0 4 tmp;
      let buf := (buf ++ four) ++ encodedKey in
      tmp ← PutUint64 tmp 0 (offset entry);
      let buf := buf ++ tmp in
      tmp ← put4 tmp (size entry);
      four ← slice 0 4 tmp;
      let buf := buf ++ four in
      encode_index_loop entries tmp buf
  end.

Definition buildIndexBlock (entries : list indexEntry) : res bytes :=
  encodedKeys ← mapM (fun entry => Keys.Encode (lastKey entry)) entries;
  '(buf, tmp) ← encode_index_loop (combine entries encodedKeys) (replicate 8 x00) [];
  let crc := CRC32C buf in
  tmp ← put4 tmp crc;
  four ← slice 0 4 tmp;
  Ok (buf ++ four).

(** One round of the loop of [decodeIndexBlock]. *)
Definition decodeIndexEntry (br : ByteReader) : res (indexEntry * ByteReader) :=
  '(keyLen, br) ← map_err (fun _ => sstable_error sstable.ErrCorruptIndex) (ReadUint32 br);
  '(keyBytes, br) ← map_err (fun _ => sstable_error sstable.ErrCorruptIndex) (ReadBytes keyLen br);
  key ← map_err (fun _ => sstable_error sstable.ErrCorruptIndex) (DecodeInternalKey keyBytes);
  '(offset, br) ← map_err (fun _ => sstable_error sstable.ErrCorruptIndex) (ReadUint64 br);
  '(size, br) ← map_err (fun _ => sstable_error sstable.ErrCorruptIndex) (ReadUint32 br);
  Ok (mkIndexEntry key offset size, br).

Definition decodeIndexBlock (payload : bytes) : res (list indexEntry) :=
  let n := length payload in
  let m := checksumSize in
  if (n <? m)%nat then throw sstable.ErrCorruptIndex
  else
    trailer ← slice (n - m) n payload;
    expectedCRC32 ← Uint32 trailer;
    body ← slice 0 (n - m) payload;
    let calculatedCRC32 := CRC32C body in
    if negb (calculatedCRC32 =? expectedCRC32) then throw sstable.ErrIndexChecksumMismatch
    else decode_all decodeIndexEntry (S (length body)) [] (NewByteReader body).

(** ** Wire format *)
Definition index_entry_wire (e : indexEntry) : bytes :=
  be_bytes 4 (u32 (zlen (key_wire (lastKey e)))) ++ key_wire (lastKey e) ++
  be_bytes 8 (offset e) ++ be_bytes 4 (size e).

Definition index_body (es : list indexEntry) : bytes := mjoin (index_entry_wire <$> es).

Definition index_wire (es : list indexEntry) : bytes :=
  index_body es ++ be_bytes 4 (CRC32C (index_body es)).

Definition wf_index_entry (e : indexEntry) : Prop :=
  wf_key (lastKey e) /\ is_u32 (zlen (key_wire (lastKey e))) /\ is_u64 (offset e) /\ is_u32 (size e).

#[export] Instance wf_index_entry_dec e : Decision (wf_index_entry e).
Proof. unfold wf_index_entry. apply _. Defined.

Lemma length_index_entry_wire e : length (index_entry_wire e) = (length (UserKey (lastKey e)) + 25)%nat.
Proof. unfold index_entry_wire. rewrite !length_app, !length_be_bytes, length_key_wire. lia. Qed.

Lemma length_index_wire es : length (index_wire es) = (length (index_body es) + 4)%nat.
Proof. unfold index_wire. by rewrite length_app, length_be_bytes. Qed.

(** ** Building *)
Lemma put4_spec tmp v :
  length tmp = 8%nat -> exists tl, put4 tmp v = Ok (be_bytes 4 v ++ tl) /\ length tl = 4%nat.
Proof.
  intros H. exists (drop 4 tmp). unfold put4. rewrite slice_in by lia. cbn [mbind result_bind drop].
  rewrite PutUint32_4 by (rewrite length_take, length_drop; lia). cbn [mbind result_bind].
  rewrite copy_at_fits by (rewrite length_be_bytes; lia). unfold overwrite.
  rewrite length_be_bytes. cbn [take app Nat.add]. rewrite length_drop. split; [done|lia].
Qed.

Lemma slice_0_4 v (tl : bytes) : slice 0 4 (be_bytes 4 v ++ tl) = @Ok error _ (be_bytes 4 v).
Proof. apply (slice_app []); by rewrite ?length_be_bytes. Qed.

Lemma encode_index_loop_wire es tmp buf :
  length tmp = 8%nat ->
  exists tmp', encode_index_loop (combine es (map (fun e => key_wire (lastKey e)) es)) tmp buf =
    Ok (buf ++ index_body es, tmp') /\ length tmp' = 8%nat.
Proof.
  revert tmp buf. induction es as [|e es IH]; intros tmp buf Ht.
  { exists tmp. cbn. by rewrite app_nil_r. }
  cbn [combine map encode_index_loop].
  destruct (put4_spec tmp (u32 (zlen (key_wire (lastKey e)))) Ht) as (t1 & -> & H1).
  cbn [mbind result_bind]. rewrite slice_0_4. cbn [mbind result_bind].
  assert (PutUint64 (be_bytes 4 (u32 (zlen (key_wire (lastKey e)))) ++ t1) 0 (offset e) = Ok (be_bytes 8 (offset e))) as ->.
  { unfold PutUint64. set (t := _ ++ t1). rewrite <-(app_nil_l t).
    rewrite put_be_fill by (done || (unfold t; rewrite length_app, length_be_bytes; lia)).
    rewrite drop_ge by (unfold t; rewrite length_app, length_be_bytes; lia). by rewrite app_nil_r. }
  cbn [mbind result_bind].
  destruct (put4_spec (be_bytes 8 (offset e)) (size e)) as (t2 & -> & H2); [apply length_be_bytes|].
  cbn [mbind result_bind]. rewrite slice_0_4. cbn [mbind result_bind].
  destruct (IH (be_bytes 4 (size e) ++ t2)
    ((((buf ++ be_bytes 4 (u32 (zlen (key_wire (lastKey e))))) ++ key_wire (lastKey e)) ++ be_bytes 8 (offset e)) ++ be_bytes 4 (size e)))
    as (tmp' & -> & H3); [rewrite length_app, length_be_bytes; lia|].
  exists tmp'. split; [|done]. f_equal. f_equal.
  change (index_body (e :: es)) with (index_entry_wire e ++ index_body es).
  unfold index_entry_wire. by rewrite <-!app_assoc.
Qed.

Lemma mapM_encode es :
  mapM (fun e => Keys.Encode (lastKey e)) es = Ok (map (fun e => key_wire (lastKey e)) es).
Proof. induction es as [|e es IH]; cbn -[Keys.Encode key_wire]; [done|]. by rewrite Encode_wire, IH. Qed.

Lemma buildIndexBlock_wire es : buildIndexBlock es = Ok (index_wire es).
Proof.
  unfold buildIndexBlock. rewrite mapM_encode. cbn [mbind result_bind].
  destruct (encode_index_loop_wire es (replicate 8 x00) []) as (tmp & -> & Ht); [done|].
  cbn [mbind result_bind app].
  destruct (put4_spec tmp (CRC32C (index_body es)) Ht) as (tl & -> & _).
  cbn [mbind result_bind]. by rewrite slice_0_4.
Qed.

(** ** Decoding *)
Lemma decodeIndexEntry_wire e r t :
  wf_index_entry e -> wf_reader r -> rest r = index_entry_wire e ++ t ->
  decodeIndexEntry r = Ok (e, advance (length (index_entry_wire e)) r).
Proof.
  intros (Hk & Hkl & Ho & Hs) Hwf Hr. unfold index_entry_wire in Hr. rewrite <-!app_assoc in Hr.
  unfold decodeIndexEntry. rewrite u32_id in Hr by done.
  rewrite (ReadUint32_app _ _ _ Hkl Hr). cbn [map_err mbind result_bind].
  pose proof (rest_advance_app 4 _ _ _ Hr (length_be_bytes _ _)) as H1.
  pose proof (wf_advance_app 4 _ _ _ Hwf Hr (length_be_bytes _ _)) as W1.
  rewrite (ReadBytes_app _ _ _ _ W1 H1 eq_refl). cbn [map_err mbind result_bind].
  pose proof (rest_advance_app _ _ _ _ H1 eq_refl) as H2.
  rewrite DecodeInternalKey_wire by done. cbn [map_err mbind result_bind].
  rewrite (ReadUint64_app _ _ _ Ho H2). cbn [map_err mbind result_bind].
  pose proof (rest_advance_app 8 _ _ _ H2 (length_be_bytes _ _)) as H3.
  rewrite (ReadUint32_app _ _ _ Hs H3). cbn [map_err mbind result_bind].
  rewrite !advance_advance. destruct e as [k o s]. cbn [lastKey offset size]. do 3 f_equal.
  rewrite length_index_entry_wire, length_key_wire. cbn [lastKey]. lia.
Qed.

Lemma decodeIndexEntry_sound r e r' :
  decodeIndexEntry r = Ok (e, r') -> wf_index_entry e /\ consumed r (index_entry_wire e) r'.
Proof.
  unfold decodeIndexEntry. intros H.
  apply bind_Ok in H as ([kl r1] & E1%map_err_Ok & H).
  apply bind_Ok in H as ([kb r2] & E2%map_err_Ok & H).
  apply bind_Ok in H as (k & E3%map_err_Ok & H).
  apply bind_Ok in H as ([o r3] & E4%map_err_Ok & H).
  apply bind_Ok in H as ([s r4] & E5%map_err_Ok & H). injection H as <- <-.
  apply ReadUint32_consumed in E1 as [E1 Hkl]. apply ReadBytes_consumed in E2 as [E2 Hk]; [|apply Hkl].
  apply DecodeInternalKey_sound in E3 as [Hwk ->].
  apply ReadUint64_consumed in E4 as [E4 Ho]. apply ReadUint32_consumed in E5 as [E5 Hs].
  subst kl. split; [done|]. unfold index_entry_wire. cbn [lastKey offset size]. rewrite u32_id by done.
  eauto 10 with beach.
Qed.

Definition corrupt_index (e : error) : Prop := e = sstable.ErrCorruptIndex.
#[local] Hint Extern 1 (corrupt_index _) => reflexivity : beach.

Lemma decodeIndexEntry_safe r : safe corrupt_index (decodeIndexEntry r).
Proof.
  unfold decodeIndexEntry. safe_read. safe_read.
  apply safe_bind; [apply safe_map_err; [done|apply DecodeInternalKey_any]|]. intros k _.
  safe_read. safe_read. auto with beach.
Qed.

Lemma index_entry_wire_pos e : (0 < length (index_entry_wire e))%nat.
Proof. rewrite length_index_entry_wire. lia. Qed.

Definition index_error (e : error) : Prop :=
  e = sstable.ErrCorruptIndex \/ e = sstable.ErrIndexChecksumMismatch.

(** The checksum test, on the block split in front of its trailer. *)
Lemma decodeIndexBlock_split body trailer :
  length trailer = 4%nat ->
  decodeIndexBlock (body ++ trailer) =
    if decide (CRC32C body = be_value trailer)
    then decode_all decodeIndexEntry (S (length body)) [] (NewByteReader body)
    else throw sstable.ErrIndexChecksumMismatch.
Proof.
  intros Ht. unfold decodeIndexBlock, checksumSize. rewrite length_app, Ht.
  rewrite (proj2 (Nat.ltb_ge _ _)) by lia.
  replace (length body + 4 - 4)%nat with (length body) by lia.
  assert (slice 0 (length body) (body ++ trailer) = @Ok error _ body) as -> by by apply (slice_app []).
  assert (slice (length body) (length body + 4) (body ++ trailer) = @Ok error _ trailer) as ->
    by (rewrite <-(app_nil_r trailer) at 1; apply slice_app; lia).
  cbn [mbind result_bind]. unfold Uint32. rewrite get_be_exact by done. cbn [mbind result_bind].
  destruct (Z.eqb_spec (CRC32C body) (be_value trailer)); cbn [negb];
    [by rewrite decide_True|by rewrite decide_False].
Qed.

Lemma decodeIndexBlock_wire es : Forall wf_index_entry es -> decodeIndexBlock (index_wire es) = Ok es.
Proof.
  intros H. unfold index_wire. rewrite decodeIndexBlock_split by apply length_be_bytes.
  rewrite be32_value, decide_True by auto with beach.
  rewrite (decode_all_wire decodeIndexEntry index_entry_wire wf_index_entry
    decodeIndexEntry_wire index_entry_wire_pos es);
    [done|done|apply wf_new|apply rest_new|].
  pose proof (length_wires index_entry_wire index_entry_wire_pos es). unfold index_body. lia.
Qed.

Lemma decodeIndexBlock_sound raw es :
  decodeIndexBlock raw = Ok es -> Forall wf_index_entry es /\ raw = index_wire es.
Proof.
  intros H. assert (4 <= length raw)%nat as Hl.
  { unfold decodeIndexBlock, checksumSize in H. destruct (_ <? _)%nat eqn:E; [done|]. zb. done. }
  rewrite <-(take_drop (length raw - 4) raw) in H |- *.
  assert (length (drop (length raw - 4) raw) = 4%nat) as Ht by (rewrite length_drop; lia).
  rewrite decodeIndexBlock_split in H by done. case_decide as E; [|done].
  apply (decode_all_sound _ index_entry_wire wf_index_entry decodeIndexEntry_sound) in H
    as (l & -> & Hwf & Hb); [|apply wf_new]. rewrite rest_new in Hb. split; [done|].
  unfold index_wire. fold (index_body l) in Hb. cbn [app].
  rewrite <-Hb, E. by rewrite be_bytes_be_value.
Qed.

Lemma decodeIndexBlock_safe raw : safe index_error (decodeIndexBlock raw).
Proof.
  destruct (decide (length raw < 4)%nat) as [Hl|Hl].
  - unfold decodeIndexBlock, checksumSize. rewrite (proj2 (Nat.ltb_lt _ _)) by lia. apply safe_err. by left.
  - rewrite <-(take_drop (length raw - 4) raw).
    rewrite decodeIndexBlock_split by (rewrite length_drop; lia).
    case_decide; [|apply safe_err; by right].
    eapply safe_mono; [|apply (decode_all_safe _ index_entry_wire wf_index_entry corrupt_index
      decodeIndexEntry_sound index_entry_wire_pos decodeIndexEntry_safe); [|apply wf_new]].
    + intros e ->. by left.
    + rewrite rest_new. lia.
Qed.

(** ** Properties *)

(** The index block's encoding is exact.  Every byte string
    either decodes to index entries with fields of the declared widths whose
    block, as [buildIndexBlock] writes it, is that very string, or is refused
    with [ErrCorruptIndex] or [ErrIndexChecksumMismatch], and then no such
    entries build it; nothing panics. *)
Theorem index_codec (raw : bytes) :
  (exists es, decodeIndexBlock raw = Ok es /\ Forall wf_index_entry es /\ buildIndexBlock es = Ok raw) \/
  (exists e, decodeIndexBlock raw = Err e /\ index_error e /\
     forall es, Forall wf_index_entry es -> buildIndexBlock es <> Ok raw).
Proof.
  destruct (decodeIndexBlock_safe raw) as [[es E]|(e & E & He)].
  - left. exists es. apply decodeIndexBlock_sound in E as Hs. destruct Hs as [Hwf ->].
    split_and!; [exact E|exact Hwf|apply buildIndexBlock_wire].
  - right. exists e. split_and!; [exact E|exact He|]. intros es Hwf Hb.
    rewrite buildIndexBlock_wire in Hb. injection Hb as <-.
    rewrite decodeIndexBlock_wire in E by exact Hwf. discriminate E.
Qed.
