(* ===== verification/SstWriter.v ===== *)
(** * SSTable writer (internal/sstable/writer.go, options.go)

    Entries are added in key order; full blocks go to the file as they fill up;
    [Close] writes the last block, the index and the footer.  [table_wire]
    describes the finished file. *)
From S2P Require Import Prelude.
From S2P Require Import Errors.
From S2P Require Import Coding.
From S2P Require Import Checksum.
From S2P Require Import Keys.
From S2P Require Import GoIO.
From S2P Require Import Memtable.
From S2P Require Import Block.
From S2P Require Import Footer.
From S2P Require Import Index.

Local Open Scope Z_scope.

(** ** Options *)
Record options := mkOptions { syncOnClose : bool; blockSize : Z }.

Definition WriterOption : Type := options -> options.
Definition WithSync (b : bool) : WriterOption := fun o => mkOptions b (blockSize o).
Definition WithBlockSize (size : Z) : WriterOption := fun o => mkOptions (syncOnClose o) size.

Definition applyOptions (opts : list WriterOption) : options :=
  fold_left (fun cfg opt => opt cfg) opts (mkOptions true 4096).

(** ** The writer

    The file is passed along with the writer. *)
Record Writer := mkWriter {
  currentBlock : blockBuilder;
  indexEntries : list indexEntry;
  w_offset : Z;
  w_entryCount : Z;
  w_dataBlockCount : Z;
  w_lastKey : InternalKey;
  hasEntries : bool;
  closed : bool;
  w_syncOnClose : bool;
  targetBlockSize : Z
}.

Definition NewWriter (file : option File) (opts : list WriterOption) : res (Writer * File) :=
  let cfg := applyOptions opts in
  match file with
  | None => throw sstable.ErrNilFile
  | Some file =>
      if blockSize cfg <=? 0 then throw sstable.ErrInvalidBlockSize
      else Ok (mkWriter newBlockBuilder [] 0 0 0 zeroKey false false (syncOnClose cfg) (blockSize cfg), file)
  end.

Definition set_block (b : blockBuilder) (w : Writer) : Writer :=
  mkWriter b (indexEntries w) (w_offset w) (w_entryCount w) (w_dataBlockCount w) (w_lastKey w)
    (hasEntries w) (closed w) (w_syncOnClose w) (targetBlockSize w).

Definition flushCurrentBlock (w : Writer) (f : File) : res (Writer * File * option error) :=
  '(blockBytes, b) ← Finish (currentBlock w);
  let w := set_block b w in
  let '(f, _, err) := file_Write blockBytes f in
  match err with
  | Some e => Ok (w, f, Some (Errorf "beachdb/sstable: writing block" e))
  | None =>
      let newIndex := mkIndexEntry (LastKey (currentBlock w)) (w_offset w) (u32 (zlen blockBytes)) in
      Ok (mkWriter (Reset (currentBlock w)) (indexEntries w ++ [newIndex])
            (u64 (w_offset w + u64 (zlen blockBytes))) (w_entryCount w) (u32 (w_dataBlockCount w + 1))
            (w_lastKey w) (hasEntries w) (closed w) (w_syncOnClose w) (targetBlockSize w),
          f, None)
  end.

(** The entry goes into the current block, once there is room. *)
Definition add_entry (key : InternalKey) (value : bytes) (w : Writer) : res Writer :=
  b ← Block.Add key value (currentBlock w);
  Ok (mkWriter b (indexEntries w) (w_offset w) (u64 (w_entryCount w + 1)) (w_dataBlockCount w) key
        true (closed w) (w_syncOnClose w) (targetBlockSize w)).

Definition Add (key : InternalKey) (value : bytes) (w : Writer) (f : File)
  : res (Writer * File * option error) :=
  if closed w then Ok (w, f, Some (sstable_error sstable.ErrWriterClosed))
  else if hasEntries w && (0 <=? Compare (w_lastKey w) key)
  then Ok (w, f, Some (sstable_error sstable.ErrOutOfOrderKey))
  else
    '(w, f, err) ←
      (if negb (Empty (currentBlock w)) &&
          (targetBlockSize w <? Z.of_nat (Size (currentBlock w) + encodedEntrySize key value))
       then flushCurrentBlock w f
       else Ok (w, f, None));
    match err with
    | Some e => Ok (w, f, Some e)
    | None => w ← add_entry key value w; Ok (w, f, None)
    end.

Definition mark_closed (w : Writer) : Writer :=
  mkWriter (currentBlock w) (indexEntries w) (w_offset w) (w_entryCount w) (w_dataBlockCount w)
    (w_lastKey w) (hasEntries w) true (w_syncOnClose w) (targetBlockSize w).

(** Index and footer, skipped after an error. *)
Definition write_index_and_footer (w : Writer) (f : File) : res (File * option error) :=
  indexBlock ← buildIndexBlock (indexEntries w);
  let indexOffset := w_offset w in
  let indexSize := u32 (zlen indexBlock) in
  let '(f, _, err) := file_Write indexBlock f in
  match err with
  | Some e => Ok (f, Some e)
  | None =>
      footer ← encode (newFooter indexOffset indexSize (w_dataBlockCount w) (w_entryCount w));
      let '(f, _, err) := file_Write footer f in
      Ok (f, err)
  end.

Definition Close (w : Writer) (f : File) : res (Writer * File * option error) :=
  if closed w then Ok (w, f, Some (sstable_error sstable.ErrWriterClosed))
  else
    '(w, f, firstErr) ←
      (if bb_hasEntries (currentBlock w) then flushCurrentBlock w f else Ok (w, f, None));
    '(f, firstErr) ←
      (match firstErr with Some e => Ok (f, Some e) | None => write_index_and_footer w f end);
    let '(f, firstErr) :=
      match firstErr with
      | None => if w_syncOnClose w then file_Sync f else (f, None)
      | Some e => (f, Some e)
      end in
    Ok (mark_closed w, f, firstErr).

(** ** A whole table

    What [buildSST] does: open a writer, add every entry, close; the first error
    ends it. *)
Fixpoint add_all (es : list entry) (w : Writer) (f : File) : res (Writer * File * option error) :=
  match es with
  | [] => Ok (w, f, None)
  | (k, v) :: es =>
      '(w, f, err) ← Add k v w f;
      match err with Some e => Ok (w, f, Some e) | None => add_all es w f end
  end.

Definition write_table (opts : list WriterOption) (es : list entry) (f : File) : res (Writer * File * option error) :=
  '(w, f) ← NewWriter (Some f) opts;
  '(w, f, err) ← add_all es w f;
  match err with Some e => Ok (w, f, Some e) | None => Close w f end.

(** ** The finished file

    Offsets and sizes are written at their width: [u64], [u32]. *)
Definition last_key (es : list entry) : InternalKey := default zeroKey (fst <$> last es).

Fixpoint index_for (off : Z) (blocks : list (list entry)) : list indexEntry :=
  match blocks with
  | [] => []
  | b :: blocks =>
      mkIndexEntry (last_key b) (u64 off) (u32 (zlen (block_wire b))) :: index_for (off + zlen (block_wire b)) blocks
  end.

Definition data_wire (blocks : list (list entry)) : bytes := mjoin (block_wire <$> blocks).

Definition table_footer (blocks : list (list entry)) : footer :=
  mkFooter (u64 (zlen (data_wire blocks))) (u32 (zlen (index_wire (index_for 0 blocks))))
    (u32 (zlen blocks)) (u64 (zlen (mjoin blocks))).

Definition table_wire (blocks : list (list entry)) : bytes :=
  data_wire blocks ++ index_wire (index_for 0 blocks) ++ footer_wire (table_footer blocks).

(** A block within the target size, unless it holds a single entry. *)
Definition block_within (target : Z) (b : list entry) : Prop :=
  b <> [] /\ (Z.of_nat (length (entries_wire b)) <= target \/ length b = 1%nat).

Lemma data_wire_snoc blocks b : data_wire (blocks ++ [b]) = data_wire blocks ++ block_wire b.
Proof. unfold data_wire. rewrite fmap_app, join_app. cbn. by rewrite app_nil_r. Qed.

Lemma index_for_snoc off blocks b :
  index_for off (blocks ++ [b]) = index_for off blocks ++
    [mkIndexEntry (last_key b) (u64 (off + zlen (data_wire blocks))) (u32 (zlen (block_wire b)))].
Proof.
  revert off; induction blocks as [|x blocks IH]; intros off; cbn [app index_for].
  - cbn. by rewrite Z.add_0_r.
  - rewrite IH. cbn [app]. do 2 f_equal.
    change (data_wire (x :: blocks)) with (block_wire x ++ data_wire blocks).
    rewrite zlen_app. by rewrite Z.add_assoc.
Qed.

Lemma mjoin_snoc {A} (ls : list (list A)) l : mjoin (ls ++ [l]) = mjoin ls ++ l.
Proof. rewrite join_app. cbn. by rewrite app_nil_r. Qed.

(** *** The file only grows, whatever fails *)
Lemma flushCurrentBlock_grows w f w' f' err : flushCurrentBlock w f = Ok (w', f', err) -> file_grows f f'.
Proof.
  unfold flushCurrentBlock. intros H. apply bind_Ok in H as ([bb b] & _ & H). pose proof (file_Write_grows bb f) as Hg.
  destruct (file_Write bb f) as [[g n] [e|]]; by simplify_res.
Qed.

Lemma Add_grows k v w f w' f' err : Add k v w f = Ok (w', f', err) -> file_grows f f'.
Proof.
  unfold Add. intros H. destruct (closed w); [by simplify_res|]. destruct (_ && _); [by simplify_res|].
  apply bind_Ok in H as ([[w1 f1] e1] & E & H). assert (file_grows f f1) as Hg.
  { destruct (_ && _); [by eapply flushCurrentBlock_grows|by simplify_res]. }
  destruct e1; [by simplify_res|]. apply bind_Ok in H as (w2 & _ & H). by simplify_res.
Qed.

Lemma write_index_and_footer_grows w f f' err : write_index_and_footer w f = Ok (f', err) -> file_grows f f'.
Proof.
  unfold write_index_and_footer. intros H. apply bind_Ok in H as (ib & _ & H). pose proof (file_Write_grows ib f) as Hg.
  destruct (file_Write ib f) as [[g n] [e|]]; cbn [fst snd] in Hg; [by simplify_res|].
  apply bind_Ok in H as (ft & _ & H). pose proof (file_Write_grows ft g) as Hg2.
  destruct (file_Write ft g) as [[g2 k] e2]. simplify_res. by etrans.
Qed.

Lemma Close_grows w f w' f' err : Close w f = Ok (w', f', err) -> file_grows f f'.
Proof.
  unfold Close. intros H. destruct (closed w); [by simplify_res|].
  apply bind_Ok in H as ([[w1 f1] e1] & E1 & H).
  assert (file_grows f f1) as H1.
  { destruct (bb_hasEntries _); [by eapply flushCurrentBlock_grows|by simplify_res]. }
  apply bind_Ok in H as ([f2 e2] & E2 & H). assert (file_grows f1 f2) as H2.
  { destruct e1; [by simplify_res|by eapply write_index_and_footer_grows]. }
  pose proof (file_Sync_grows f2) as H3.
  destruct e2 as [e|]; [injection H as _ <- _; by etrans|].
  destruct (w_syncOnClose w1); [|injection H as _ <- _; by etrans].
  destruct (file_Sync f2) as [f3 e3]. injection H as _ <- _. etrans; [done|]. by etrans.
Qed.

Lemma add_all_grows es w f w' f' err : add_all es w f = Ok (w', f', err) -> file_grows f f'.
Proof.
  revert w f. induction es as [|[k v] es IH]; intros w f H; cbn [add_all] in H; [by simplify_res|].
  apply bind_Ok in H as ([[w1 f1] e1] & E1 & H). apply Add_grows in E1.
  destruct e1; [by simplify_res|]. etrans; [done|by eapply IH].
Qed.

(** *** No call panics, whatever fails *)
Lemma flushCurrentBlock_total w f : exists r, flushCurrentBlock w f = Ok r.
Proof.
  unfold flushCurrentBlock. destruct (Finish_total (currentBlock w)) as [[bb b] ->]. cbn [mbind result_bind].
  destruct (file_Write bb f) as [[g n] [e|]]; by eexists.
Qed.

Lemma sst_Add_total k v w f : exists r, Add k v w f = Ok r.
Proof.
  unfold Add. destruct (closed w); [by eexists|]. destruct (_ && _); [by eexists|].
  destruct (flushCurrentBlock_total w f) as [r Hr]. destruct (_ && _); [rewrite Hr|]; cbn [mbind result_bind].
  - destruct r as [[w1 f1] [e|]]; [by eexists|]. unfold add_entry.
    destruct (Block.Add_total k v (currentBlock w1)) as [b ->]. by eexists.
  - unfold add_entry. destruct (Block.Add_total k v (currentBlock w)) as [b ->]. by eexists.
Qed.

Lemma Close_total w f : exists r, Close w f = Ok r.
Proof.
  unfold Close. destruct (closed w); [by eexists|].
  assert (exists r, (if bb_hasEntries (currentBlock w) then flushCurrentBlock w f else Ok (w, f, None)) = Ok r) as [[[w1 f1] e1] ->]
    by (destruct (bb_hasEntries _); [apply flushCurrentBlock_total|by eexists]).
  cbn [mbind result_bind].
  assert (exists r, (match e1 with Some e => Ok (f1, Some e) | None => write_index_and_footer w1 f1 end) = Ok r) as [[f2 e2] ->].
  { destruct e1 as [e|]; [by eexists|]. unfold write_index_and_footer. rewrite buildIndexBlock_wire. cbn [mbind result_bind].
    destruct (file_Write _ f1) as [[g n] [e|]]; [by eexists|]. rewrite encode_wire. cbn [mbind result_bind].
    destruct (file_Write _ g) as [[h m] e2]. by eexists. }
  cbn [mbind result_bind]. destruct e2 as [e|]; [by eexists|]. destruct (w_syncOnClose w1); [|by eexists].
  destruct (file_Sync f2). by eexists.
Qed.

(** ** The invariant

    [blocks] have gone to the file, [cur] is in the current block. *)
Record writer_inv (w : Writer) (f : File) (blocks : list (list entry)) (cur : list entry) : Prop := {
  wi_content : f_content f = data_wire blocks;
  wi_block : block_inv (currentBlock w) cur;
  wi_index : indexEntries w = index_for 0 blocks;
  wi_offset : w_offset w = u64 (zlen (data_wire blocks));
  wi_entries : w_entryCount w = u64 (zlen (mjoin blocks ++ cur));
  wi_blocks : w_dataBlockCount w = u32 (zlen blocks);
  wi_has : hasEntries w = negb (bool_decide (cur = []));
  wi_last : w_lastKey w = last_key cur;
  wi_within : Forall (block_within (targetBlockSize w)) blocks;
  wi_cur : cur = [] \/ block_within (targetBlockSize w) cur;
  wi_some : blocks <> [] -> cur <> [];
  wi_open : closed w = false
}.

Lemma u64_add_l a b : u64 (u64 a + b) = u64 (a + b).
Proof. unfold u64. apply Zplus_mod_idemp_l. Qed.
Lemma u64_add_r a b : u64 (a + u64 b) = u64 (a + b).
Proof. unfold u64. apply Zplus_mod_idemp_r. Qed.
Lemma u32_add_l a b : u32 (u32 a + b) = u32 (a + b).
Proof. unfold u32. apply Zplus_mod_idemp_l. Qed.

Lemma NewWriter_inv f opts :
  f_content f = [] -> 0 < blockSize (applyOptions opts) ->
  exists w, NewWriter (Some f) opts = Ok (w, f) /\ writer_inv w f [] [] /\
    targetBlockSize w = blockSize (applyOptions opts) /\ w_syncOnClose w = syncOnClose (applyOptions opts).
Proof.
  intros Hf Hb. unfold NewWriter. rewrite (proj2 (Z.leb_gt _ _)) by done.
  eexists; split; [done|]. split; [|done]. split; cbn; try done; first [apply newBlockBuilder_inv|by left].
Qed.

(** What flushing a non-empty current block does when the write succeeds. *)
Lemma flush_ok w f blocks cur :
  writer_inv w f blocks cur -> cur <> [] -> faultless f ->
  exists w' f', flushCurrentBlock w f = Ok (w', f', None) /\ faultless f' /\
    f_content f' = data_wire (blocks ++ [cur]) /\ f_synced f' = f_synced f /\
    block_inv (currentBlock w') [] /\ indexEntries w' = index_for 0 (blocks ++ [cur]) /\
    w_offset w' = u64 (zlen (data_wire (blocks ++ [cur]))) /\
    w_entryCount w' = w_entryCount w /\ w_dataBlockCount w' = u32 (zlen (blocks ++ [cur])) /\
    hasEntries w' = hasEntries w /\ w_lastKey w' = w_lastKey w /\
    closed w' = false /\ w_syncOnClose w' = w_syncOnClose w /\ targetBlockSize w' = targetBlockSize w.
Proof.
  intros [Hc Hb Hi Ho He Hn Hh Hl Hw Hcw Hs Hop] Hne Hf. unfold flushCurrentBlock.
  destruct (Finish_inv _ _ Hb) as (b' & -> & _ & Hlk). cbn [mbind result_bind].
  destruct (file_Write (block_wire cur) f) as [[g n] err] eqn:E.
  apply file_Write_spec in E as (Ec & Es & Enn & Eff). destruct (Eff Hf) as [-> Hg].
  rewrite Enn, take_ge, Hc in Ec by done. rewrite <-data_wire_snoc in Ec.
  eexists _, g. split; [done|].
  cbn [set_block currentBlock indexEntries w_offset w_entryCount w_dataBlockCount w_lastKey hasEntries closed
    w_syncOnClose targetBlockSize].
  split_and!; try done.
  - unfold LastKey. rewrite Hlk, Hi, Ho, index_for_snoc. rewrite (bi_last _ _ Hb). done.
  - rewrite Ho, u64_add_l, u64_add_r. by rewrite data_wire_snoc, zlen_app.
  - rewrite Hn, u32_add_l. by rewrite zlen_app.
Qed.

Lemma add_entry_ok k v w cur :
  block_inv (currentBlock w) cur ->
  exists w', add_entry k v w = Ok w' /\ block_inv (currentBlock w') (cur ++ [(k, v)]) /\
    indexEntries w' = indexEntries w /\ w_offset w' = w_offset w /\
    w_entryCount w' = u64 (w_entryCount w + 1) /\ w_dataBlockCount w' = w_dataBlockCount w /\
    w_lastKey w' = k /\ hasEntries w' = true /\ closed w' = closed w /\
    w_syncOnClose w' = w_syncOnClose w /\ targetBlockSize w' = targetBlockSize w.
Proof.
  intros Hb. unfold add_entry. destruct (Add_inv k v _ _ Hb) as (b' & -> & Hb'). cbn [mbind result_bind].
  eexists; split; [done|]. done.
Qed.

Lemma length_entries_wire_snoc es e :
  length (entries_wire (es ++ [e])) = (length (entries_wire es) + encodedEntrySize e.1 e.2)%nat.
Proof. by rewrite entries_wire_snoc, length_app, length_entry_wire. Qed.

Lemma negb_bool_decide_snoc {A} (l : list A) x `{!Decision (l ++ [x] = [])} :
  negb (bool_decide (l ++ [x] = [])) = true.
Proof. rewrite bool_decide_false; [done|]. by destruct l. Qed.

Lemma last_key_snoc l k v : last_key (l ++ [(k, v)]) = k.
Proof. unfold last_key. by rewrite last_snoc. Qed.

(** [Add] of a key above the last one: the entry is appended, in the current
    block or in a new one. *)
Lemma Add_ok w f blocks cur k v :
  writer_inv w f blocks cur -> faultless f -> (cur = [] \/ klt (last_key cur) k) ->
  exists w' f' blocks' cur', Add k v w f = Ok (w', f', None) /\ writer_inv w' f' blocks' cur' /\
    faultless f' /\ mjoin blocks' ++ cur' = (mjoin blocks ++ cur) ++ [(k, v)] /\ cur' <> [] /\ last_key cur' = k /\
    targetBlockSize w' = targetBlockSize w /\ w_syncOnClose w' = w_syncOnClose w.
Proof.
  intros Hinv Hf Hlt. unfold Add. rewrite (wi_open _ _ _ _ Hinv).
  assert (hasEntries w && (0 <=? Compare (w_lastKey w) k) = false) as ->.
  { rewrite (wi_has _ _ _ _ Hinv), (wi_last _ _ _ _ Hinv). destruct Hlt as [->|Hlt]; [done|].
    unfold klt in Hlt. rewrite (proj2 (Z.leb_gt _ _)) by done. by rewrite andb_false_r. }
  assert (Empty (currentBlock w) = bool_decide (cur = [])) as Hemp.
  { unfold Empty. rewrite (bi_has _ _ (wi_block _ _ _ _ Hinv)). apply negb_involutive. }
  rewrite Hemp. unfold Size. rewrite (bi_buf _ _ (wi_block _ _ _ _ Hinv)).
  destruct (negb (bool_decide (cur = [])) && _) eqn:Ecase.
  - (* the current block is full *)
    apply andb_true_iff in Ecase as [Hne _]. apply negb_true_iff, bool_decide_eq_false in Hne.
    destruct (flush_ok _ _ _ _ Hinv Hne Hf) as
      (w1 & f1 & -> & Hf1 & Hc1 & _ & Hb1 & Hi1 & Ho1 & He1 & Hn1 & Hh1 & Hl1 & Hop1 & Hsy1 & Ht1).
    cbn [mbind result_bind].
    destruct (add_entry_ok k v w1 [] Hb1) as (w2 & -> & Hb2 & Hi2 & Ho2 & He2 & Hn2 & Hl2 & Hh2 & Hop2 & Hsy2 & Ht2).
    cbn [mbind result_bind]. exists w2, f1, (blocks ++ [cur]), [(k, v)].
    rewrite mjoin_snoc. split_and!; [done| |done|done|done|done|congruence|congruence].
    split; rewrite ?Ht2, ?Ht1; try congruence; try done.
    + rewrite He2, He1, (wi_entries _ _ _ _ Hinv), u64_add_l, mjoin_snoc, <-app_assoc, !zlen_app.
      f_equal. unfold zlen. cbn. lia.
    + apply Forall_app. split; [apply Hinv|]. apply Forall_singleton.
      by destruct (wi_cur _ _ _ _ Hinv) as [?|?].
    + right. split; [done|by right].
  - cbn [mbind result_bind].
    destruct (add_entry_ok k v w cur (wi_block _ _ _ _ Hinv)) as
      (w2 & -> & Hb2 & Hi2 & Ho2 & He2 & Hn2 & Hl2 & Hh2 & Hop2 & Hsy2 & Ht2).
    cbn [mbind result_bind]. exists w2, f, blocks, (cur ++ [(k, v)]).
    rewrite app_assoc, last_key_snoc. split_and!; [done| |done|done|by destruct cur|done|done|done].
    destruct Hinv as [Hc Hb Hi Ho He Hn Hh Hl Hw Hcw Hs Hop].
    split; rewrite ?Ht2, ?last_key_snoc, ?negb_bool_decide_snoc; try congruence; try done.
    + rewrite He2, He, u64_add_l, app_assoc, (zlen_app _ [_]). done.
    + right. split; [by destruct cur|]. rewrite length_entries_wire_snoc. cbn [fst snd].
      case_bool_decide as Hcur; cbn [negb andb] in Ecase; [subst; by right|]. zb. left. lia.
    + intros _. by destruct cur.
Qed.

Lemma add_all_ok es w f blocks cur :
  writer_inv w f blocks cur -> faultless f -> strict_entries es ->
  (cur = [] \/ Forall (fun e => klt (last_key cur) e.1) es) ->
  exists w' f' blocks' cur', add_all es w f = Ok (w', f', None) /\ writer_inv w' f' blocks' cur' /\
    faultless f' /\ mjoin blocks' ++ cur' = (mjoin blocks ++ cur) ++ es /\
    targetBlockSize w' = targetBlockSize w /\ w_syncOnClose w' = w_syncOnClose w.
Proof.
  revert w f blocks cur. induction es as [|[k v] es IH]; intros w f blocks cur Hinv Hf Hs Hlt; cbn [add_all].
  { exists w, f, blocks, cur. by rewrite app_nil_r. }
  apply StronglySorted_inv in Hs as [Hs Hall].
  destruct (Add_ok w f blocks cur k v Hinv Hf) as (w1 & f1 & bl1 & cur1 & -> & Hinv1 & Hf1 & Ej1 & _ & El1 & Et1 & Es1).
  { destruct Hlt as [->|Hlt]; [by left|right]. by apply Forall_cons in Hlt as [? _]. }
  cbn [mbind result_bind].
  destruct (IH w1 f1 bl1 cur1 Hinv1 Hf1 Hs) as (w2 & f2 & bl2 & cur2 & -> & Hinv2 & Hf2 & Ej2 & Et2 & Es2).
  { right. by rewrite El1. }
  exists w2, f2, bl2, cur2. split_and!; try done; try congruence.
  rewrite Ej2, Ej1. by rewrite <-!app_assoc.
Qed.

(** What [Close] appends after the last block. *)
Lemma write_index_and_footer_ok w f blocks :
  f_content f = data_wire blocks -> indexEntries w = index_for 0 blocks ->
  w_offset w = u64 (zlen (data_wire blocks)) -> w_entryCount w = u64 (zlen (mjoin blocks)) ->
  w_dataBlockCount w = u32 (zlen blocks) -> faultless f ->
  exists f', write_index_and_footer w f = Ok (f', None) /\ f_content f' = table_wire blocks /\ faultless f'.
Proof.
  intros Hc Hi Ho He Hn Hf. unfold write_index_and_footer. rewrite Hi, buildIndexBlock_wire.
  cbn [mbind result_bind].
  destruct (file_Write (index_wire (index_for 0 blocks)) f) as [[g n] err] eqn:E.
  apply file_Write_spec in E as (Ec & _ & En & Eff). destruct (Eff Hf) as [-> Hg].
  rewrite encode_wire. cbn [mbind result_bind].
  destruct (file_Write (footer_wire _) g) as [[h m] err2] eqn:E2.
  apply file_Write_spec in E2 as (Ec2 & _ & En2 & Eff2). destruct (Eff2 Hg) as [-> Hh].
  exists h. split_and!; [done| |done]. rewrite Ec2, En2, take_ge, Ec, En, take_ge, Hc by done.
  unfold table_wire. rewrite <-app_assoc. do 3 f_equal. unfold newFooter, table_footer. by rewrite Ho, Hn, He.
Qed.

Lemma Close_ok w f blocks cur :
  writer_inv w f blocks cur -> faultless f ->
  exists w' f' blocks', Close w f = Ok (w', f', None) /\ f_content f' = table_wire blocks' /\
    mjoin blocks' = mjoin blocks ++ cur /\ Forall (block_within (targetBlockSize w)) blocks' /\
    closed w' = true /\ (w_syncOnClose w = true -> f_synced f' = length (f_content f')).
Proof.
  intros Hinv Hf. unfold Close. rewrite (wi_open _ _ _ _ Hinv), (bi_has _ _ (wi_block _ _ _ _ Hinv)).
  assert (exists w1 f1 blocks1,
    (if negb (bool_decide (cur = [])) then flushCurrentBlock w f else Ok (w, f, None)) = Ok (w1, f1, None) /\
    f_content f1 = data_wire blocks1 /\ indexEntries w1 = index_for 0 blocks1 /\
    w_offset w1 = u64 (zlen (data_wire blocks1)) /\ w_entryCount w1 = u64 (zlen (mjoin blocks1)) /\
    w_dataBlockCount w1 = u32 (zlen blocks1) /\ faultless f1 /\ w_syncOnClose w1 = w_syncOnClose w /\
    mjoin blocks1 = mjoin blocks ++ cur /\ Forall (block_within (targetBlockSize w)) blocks1)
    as (w1 & f1 & bl & -> & Hc1 & Hi1 & Ho1 & He1 & Hn1 & Hf1 & Hsy & Hj & Hwi).
  { case_bool_decide as Hcur; cbn [negb].
    - subst cur. exists w, f, blocks. destruct Hinv as [Hc Hb Hi Ho He Hn Hh Hl Hw Hcw Hs Hop].
      rewrite app_nil_r in *. done.
    - destruct (flush_ok _ _ _ _ Hinv Hcur Hf) as
        (w1 & f1 & -> & Hf1 & Hc1 & _ & Hb1 & Hi1 & Ho1 & He1 & Hn1 & Hh1 & Hl1 & Hop1 & Hsy1 & Ht1).
      exists w1, f1, (blocks ++ [cur]). rewrite mjoin_snoc.
      split_and!; try done; [rewrite He1; apply Hinv|]. apply Forall_app. split; [apply Hinv|].
      apply Forall_singleton. by destruct (wi_cur _ _ _ _ Hinv). }
  cbn [mbind result_bind].
  destruct (write_index_and_footer_ok w1 f1 bl Hc1 Hi1 Ho1 He1 Hn1 Hf1) as (f2 & -> & Hc2 & Hf2).
  cbn [mbind result_bind]. destruct (w_syncOnClose w1) eqn:Esy.
  - destruct (file_Sync f2) as [f3 err] eqn:E3. apply file_Sync_spec in E3 as (Ec3 & Esn3 & _ & Eff3).
    destruct (Eff3 Hf2) as [-> Hf3]. exists (mark_closed w1), f3, bl.
    split_and!; try done; [by rewrite Ec3|]. intros _. by rewrite Ec3, Esn3.
  - exists (mark_closed w1), f2, bl. split_and!; try done. congruence.
Qed.

(** A table written without an I/O error. *)
Lemma write_table_ok opts es f :
  f_content f = [] -> faultless f -> 0 < blockSize (applyOptions opts) -> strict_entries es ->
  exists w f' blocks, write_table opts es f = Ok (w, f', None) /\ f_content f' = table_wire blocks /\
    mjoin blocks = es /\ Forall (block_within (blockSize (applyOptions opts))) blocks /\ closed w = true /\
    (syncOnClose (applyOptions opts) = true -> f_synced f' = length (f_content f')).
Proof.
  intros Hc Hf Hb Hs. unfold write_table.
  destruct (NewWriter_inv f opts Hc Hb) as (w0 & -> & Hinv & Ht & Hsy). cbn [mbind result_bind].
  destruct (add_all_ok es w0 f [] [] Hinv Hf Hs) as (w1 & f1 & bl & cur & -> & Hinv1 & Hf1 & Ej & Et & Esy);
    [by left|].
  cbn [mbind result_bind].
  destruct (Close_ok w1 f1 bl cur Hinv1 Hf1) as (w2 & f2 & bl2 & -> & Hc2 & Ej2 & Hwi & Hcl & Hsync).
  exists w2, f2, bl2. split_and!; try done; try congruence. 
  - by rewrite Ej2, Ej.
  - intros Hso. apply Hsync. congruence.
Qed.

(** ** Success on a faulty disk

    Calls that all succeed do what they do on a disk without faults. *)
Definition calm (f : File) : File := mkFile (f_content f) (f_synced f) [].

Lemma calm_faultless f : faultless (calm f).
Proof. constructor. Qed.

Lemma calm_Write p f f' n : file_Write p f = (f', n, None) -> file_Write p (calm f) = (calm f', n, None).
Proof.
  unfold file_Write, next_fault, calm. destruct (f_faults f) as [|[|k] xs]; cbn; try done;
    by intros [= <- <-].
Qed.

Lemma calm_Sync f f' : file_Sync f = (f', None) -> file_Sync (calm f) = (calm f', None).
Proof.
  unfold file_Sync, next_fault, calm. destruct (f_faults f) as [|[|k] xs]; cbn; try done; by intros [= <-].
Qed.

Lemma calm_flush w f w' f' :
  flushCurrentBlock w f = Ok (w', f', None) -> flushCurrentBlock w (calm f) = Ok (w', calm f', None).
Proof.
  unfold flushCurrentBlock. destruct (Finish (currentBlock w)) as [[raw b]| |]; cbn [mbind result_bind]; try done.
  destruct (file_Write raw f) as [[g n] err] eqn:E. destruct err; [done|].
  rewrite (calm_Write _ _ _ _ E). by intros [= <- <-].
Qed.

Lemma calm_Add k v w f w' f' : Add k v w f = Ok (w', f', None) -> Add k v w (calm f) = Ok (w', calm f', None).
Proof.
  unfold Add. destruct (closed w); [done|]. destruct (hasEntries w && _); [done|].
  destruct (negb _ && _); cbn [mbind result_bind].
  - destruct (flushCurrentBlock w f) as [[[w1 f1] [e|]]| |] eqn:E; cbn [mbind result_bind]; try done.
    rewrite (calm_flush _ _ _ _ E). cbn [mbind result_bind].
    destruct (add_entry k v w1); cbn [mbind result_bind]; try done. by intros [= <- <-].
  - destruct (add_entry k v w); cbn [mbind result_bind]; try done. by intros [= <- <-].
Qed.

Lemma calm_add_all es w f w' f' :
  add_all es w f = Ok (w', f', None) -> add_all es w (calm f) = Ok (w', calm f', None).
Proof.
  revert w f. induction es as [|[k v] es IH]; intros w f; cbn [add_all]; [by intros [= <- <-]|].
  destruct (Add k v w f) as [[[w1 f1] [e|]]| |] eqn:E; cbn [mbind result_bind]; try done.
  rewrite (calm_Add _ _ _ _ _ _ E). cbn [mbind result_bind]. apply IH.
Qed.

Lemma calm_index_and_footer w f f' :
  write_index_and_footer w f = Ok (f', None) -> write_index_and_footer w (calm f) = Ok (calm f', None).
Proof.
  unfold write_index_and_footer. destruct (buildIndexBlock _) as [ib| |]; cbn [mbind result_bind]; try done.
  destruct (file_Write ib f) as [[g n] [e|]] eqn:E; [done|]. rewrite (calm_Write _ _ _ _ E).
  destruct (encode _) as [ft| |]; cbn [mbind result_bind]; try done.
  destruct (file_Write ft g) as [[h m] [e|]] eqn:E2; [done|]. rewrite (calm_Write _ _ _ _ E2). by intros [= <-].
Qed.

Lemma calm_Close w f w' f' : Close w f = Ok (w', f', None) -> Close w (calm f) = Ok (w', calm f', None).
Proof.
  unfold Close. destruct (closed w); [done|].
  assert (forall (w1 : Writer) (f1 : File),
    (if bb_hasEntries (currentBlock w) then flushCurrentBlock w f else Ok (w, f, None)) = Ok (w1, f1, None) ->
    (if bb_hasEntries (currentBlock w) then flushCurrentBlock w (calm f) else Ok (w, calm f, None)) = Ok (w1, calm f1, None)) as H.
  { intros w1 f1. destruct (bb_hasEntries _); [apply calm_flush|by intros [= <- <-]]. }
  destruct (if bb_hasEntries _ then flushCurrentBlock w f else _) as [[[w1 f1] [e|]]| |]; cbn [mbind result_bind]; try done.
  rewrite (H w1 f1 eq_refl). cbn [mbind result_bind].
  destruct (write_index_and_footer w1 f1) as [[f2 [e|]]| |] eqn:E; cbn [mbind result_bind]; try done.
  rewrite (calm_index_and_footer _ _ _ E). cbn [mbind result_bind].
  destruct (w_syncOnClose w1); [|by intros [= <- <-]].
  destruct (file_Sync f2) as [f3 err] eqn:E3. intros [= <- <- ->]. by rewrite (calm_Sync _ _ E3).
Qed.

(** What a table written in full holds. *)
Lemma write_all_success opts es w0 w1 w2 f0 f1 f2 :
  f_content f0 = [] -> 0 < blockSize (applyOptions opts) -> strict_entries es ->
  NewWriter (Some f0) opts = Ok (w0, f0) -> add_all es w0 f0 = Ok (w1, f1, None) ->
  Close w1 f1 = Ok (w2, f2, None) ->
  exists blocks, f_content f2 = table_wire blocks /\ mjoin blocks = es /\
    Forall (fun b => b <> []) blocks /\
    (syncOnClose (applyOptions opts) = true -> f_synced f2 = length (f_content f2)).
Proof.
  intros Hc Hb Hs Hn Ha Hcl.
  destruct (NewWriter_inv f0 opts Hc Hb) as (w & Hn' & Hinv & Ht & Hsy). rewrite Hn in Hn'. injection Hn' as <-.
  assert (writer_inv w0 (calm f0) [] []) as Hinv0 by (by destruct Hinv; split).
  destruct (add_all_ok es w0 (calm f0) [] [] Hinv0 (calm_faultless f0) Hs) as
    (w1' & f1' & bl & cur & E1 & Hinv1 & Hf1 & Ej & Et & Esy); [by left|].
  rewrite (calm_add_all _ _ _ _ _ Ha) in E1. injection E1 as <- <-.
  destruct (Close_ok w1 (calm f1) bl cur Hinv1 Hf1) as (w2' & f2' & bl2 & E2 & Hc2 & Ej2 & Hwi & Hcl2 & Hsync).
  rewrite (calm_Close _ _ _ _ Hcl) in E2. injection E2 as <- <-.
  exists bl2. split_and!; [done|by rewrite Ej2, Ej| |].
  - eapply Forall_impl; [done|]. by intros b [? _].
  - intros Hso. apply Hsync. congruence.
Qed.

(** ** Refused calls *)
Lemma Add_closed k v w f : closed w = true -> Add k v w f = Ok (w, f, Some (sstable_error sstable.ErrWriterClosed)).
Proof. intros H. unfold Add. by rewrite H. Qed.

Lemma Close_closed w f : closed w = true -> Close w f = Ok (w, f, Some (sstable_error sstable.ErrWriterClosed)).
Proof. intros H. unfold Close. by rewrite H. Qed.

Lemma Add_out_of_order k v w f blocks cur :
  writer_inv w f blocks cur -> cur <> [] -> ~ klt (last_key cur) k ->
  Add k v w f = Ok (w, f, Some (sstable_error sstable.ErrOutOfOrderKey)).
Proof.
  intros Hinv Hne Hlt. unfold Add.
  rewrite (wi_open _ _ _ _ Hinv), (wi_has _ _ _ _ Hinv), (wi_last _ _ _ _ Hinv), bool_decide_false by done.
  unfold klt in Hlt. by rewrite (proj2 (Z.leb_le _ _)) by lia.
Qed.

(** The first entry that is not above its predecessor ends the run. *)
Lemma add_all_refused es w f blocks cur :
  writer_inv w f blocks cur -> faultless f ->
  ~ (strict_entries es /\ (cur = [] \/ Forall (fun e => klt (last_key cur) e.1) es)) ->
  exists w' f', add_all es w f = Ok (w', f', Some (sstable_error sstable.ErrOutOfOrderKey)).
Proof.
  revert w f blocks cur. induction es as [|[k v] es IH]; intros w f blocks cur Hinv Hf Hn; cbn [add_all].
  { destruct Hn. split; [constructor|by right]. }
  destruct (decide (cur = [] \/ klt (last_key cur) k)) as [Hk|Hk].
  - destruct (Add_ok w f blocks cur k v Hinv Hf Hk) as (w1 & f1 & bl1 & cur1 & -> & Hinv1 & Hf1 & _ & Hne1 & El1 & _).
    cbn [mbind result_bind]. apply (IH w1 f1 bl1 cur1 Hinv1 Hf1). rewrite El1. intros [Hs Hall].
    assert (Forall (fun e => klt k e.1) es) as Hall'.
    { by destruct Hall. }
    apply Hn. split; [by constructor|]. destruct Hk as [?|Hk]; [by left|right].
    constructor; [done|]. eapply Forall_impl; [done|]. cbn. intros e He. by etrans.
  - assert (cur <> [] /\ ~ klt (last_key cur) k) as [Hne Hlt] by tauto.
    rewrite (Add_out_of_order k v w f blocks cur Hinv Hne Hlt). cbn. eauto.
Qed.

(** ** Properties *)

(** C21: the writer's contract.  On a fresh file that accepts every
    write, [write_table] succeeds exactly when the keys are strictly increasing
    (otherwise it stops with [ErrOutOfOrderKey]); the file then consists of data
    blocks that partition the entries in order, none of them above the target
    size unless it holds a single entry, followed by the index of the blocks and
    the footer; it is synced when the option says so, and the writer is closed:
    any further [Add] or [Close] answers [ErrWriterClosed] and writes nothing. *)
Theorem sst_writer_contract (opts : list WriterOption) (es : list entry) (f : File) :
  f_content f = [] -> faultless f -> 0 < blockSize (applyOptions opts) ->
  (strict_entries es ->
   exists w f' blocks, write_table opts es f = Ok (w, f', None) /\ mjoin blocks = es /\
     f_content f' = table_wire blocks /\
     Forall (block_within (blockSize (applyOptions opts))) blocks /\
     (syncOnClose (applyOptions opts) = true -> f_synced f' = length (f_content f')) /\
     Close w f' = Ok (w, f', Some (sstable_error sstable.ErrWriterClosed)) /\
     forall k v, Add k v w f' = Ok (w, f', Some (sstable_error sstable.ErrWriterClosed))) /\
  (~ strict_entries es ->
   exists w f', write_table opts es f = Ok (w, f', Some (sstable_error sstable.ErrOutOfOrderKey))).
Proof.
  intros Hc Hf Hb. split; intros Hs.
  - destruct (write_table_ok opts es f Hc Hf Hb Hs) as (w & f' & bl & E & Ec & Ej & Hw & Hcl & Hsy).
    exists w, f', bl. split_and!; try done; [by apply Close_closed|intros; by apply Add_closed].
  - destruct (NewWriter_inv f opts Hc Hb) as (w & E & Hinv & _). unfold write_table. rewrite E.
    cbn [mbind result_bind].
    destruct (add_all_refused es w f [] [] Hinv Hf) as (w' & f' & ->); [tauto|]. cbn. eauto.
Qed.

Definition ordered_pair : list entry :=
  [ (mkInternalKey [x61] 2 InternalKeyKindPut, [x01]); (mkInternalKey [x61] 1 InternalKeyKindPut, [x02]) ].

Lemma sst_writer_contract_witness :
  exists w f' blocks, write_table [] ordered_pair (mkFile [] 0 []) = Ok (w, f', None) /\
    mjoin blocks = ordered_pair /\ f_content f' = table_wire blocks.
Proof.
  destruct (sst_writer_contract [] ordered_pair (mkFile [] 0 [])) as [H _].
  - reflexivity.
  - constructor.
  - cbn. lia.
  - destruct H as (w & f' & bl & E & Ej & Ec & _); [repeat constructor; vm_compute; reflexivity|].
    exists w, f', bl. split_and!; [exact E|exact Ej|exact Ec].
Defined.
