(* ===== verification/SstReader.v ===== *)
(** * SSTable reader and iterator (internal/sstable/reader.go, iterator.go)

    Opening a table, point lookups through the index, and the two-level
    iterator.  A file being read is its bytes and the reads on which the device
    fails. *)
From S2P Require Import Prelude.
From S2P Require Import Errors.
From S2P Require Import Coding.
From S2P Require Import Checksum.
From S2P Require Import Keys.
From S2P Require Import GoIO.
From S2P Require Import GoSort.
From S2P Require Import Memtable.
From S2P Require Import Block.
From S2P Require Import Footer.
From S2P Require Import Index.
From S2P Require Import SstWriter.

Local Open Scope Z_scope.

(** ** Files opened for reading *)

(** [rf_bad off n]: the device fails a read of [n] bytes at [off]. *)
Record ReadFile := mkReadFile { rf_data : bytes; rf_stat_fails : bool; rf_bad : Z -> Z -> bool }.

Definition Stat (f : ReadFile) : res Z :=
  if rf_stat_fails f then throw (OsError "stat") else Ok (zlen (rf_data f)).

(** [f.ReadAt(b, off)] with [len(b) = n], on a possibly nil [*os.File]: the
    bytes read and the error. *)
Definition ReadAt (f : option ReadFile) (n off : Z) : bytes * option error :=
  match f with
  | None => ([], Some (OsError "invalid argument"))
  | Some f =>
      if off <? 0 then ([], Some (OsError "negative offset"))
      else if n <=? 0 then ([], None)
      else if rf_bad f off n then ([], Some (OsError "read"))
      else
        let chunk := if zlen (rf_data f) <=? off then []
                     else take (Z.to_nat (Z.min n (zlen (rf_data f)))) (drop (Z.to_nat off) (rf_data f)) in
        (chunk, if zlen chunk <? n then Some (io_error io.EOF) else None)
  end.

(** [int64(z)] of a [uint64]. *)
Definition int64 (z : Z) : Z := if z <? 2 ^ 63 then z else z - 2 ^ 64.

(** ** Reader *)
Record Reader := mkReader {
  file : option ReadFile;
  fileSize : Z;
  r_footer : footer;
  r_index : list indexEntry
}.

Definition readFooter (f : ReadFile) : res footer :=
  match Stat f with
  | Ok fileSize =>
      let offset := fileSize - Z.of_nat footerSize in
      let '(footerPayload, err) := ReadAt (Some f) (Z.of_nat footerSize) offset in
      if negb (zlen footerPayload =? Z.of_nat footerSize) || negb (bool_decide (err = None))
      then throw sstable.ErrCorruptFooter
      else decodeFooter footerPayload
  | Err e => throw (Errorf "beachdb/sstable" e)
  | Panic => Panic
  end.

Definition readIndexEntries (f : ReadFile) (decodedFooter : footer) : res (list indexEntry) :=
  let offset := int64 (indexOffset decodedFooter) in
  let '(indexPayload, err) := ReadAt (Some f) (indexSize decodedFooter) offset in
  if negb (zlen indexPayload =? indexSize decodedFooter) || negb (bool_decide (err = None))
  then throw sstable.ErrCorruptIndex
  else decodeIndexBlock indexPayload.

Definition OpenReader (f : option ReadFile) : res Reader :=
  match f with
  | None => throw sstable.ErrNilFile
  | Some f =>
      match Stat f with
      | Err _ => throw sstable.ErrReadingFile
      | Panic => Panic
      | Ok fileSize =>
          if fileSize <? Z.of_nat footerSize then throw sstable.ErrFileTooSmall
          else
            decodedFooter ← readFooter f;
            indexEntries ← readIndexEntries f decodedFooter;
            Ok (mkReader (Some f) fileSize decodedFooter indexEntries)
      end
  end.

(** [Close] of a possibly nil reader, given the outcome of closing the file. *)
Definition CloseReader (close_err : option error) (r : option Reader) : option error * option Reader :=
  match r with
  | None => (Some (sstable_error sstable.ErrReaderClosed), None)
  | Some r =>
      match file r with
      | None => (Some (sstable_error sstable.ErrReaderClosed), Some r)
      | Some _ =>
          ((fun _ => sstable_error sstable.ErrReaderClosingFile) <$> close_err,
           Some (mkReader None (fileSize r) (r_footer r) (r_index r)))
      end
  end.

Definition FileSize (r : Reader) : Z := fileSize r.
Definition EntryCount (r : Reader) : Z := entryCount (r_footer r).
Definition DataBlockCount (r : Reader) : Z := dataBlockCount (r_footer r).
Definition IndexOffset (r : Reader) : Z := indexOffset (r_footer r).
Definition IndexSize (r : Reader) : Z := indexSize (r_footer r).

Definition BlockInfo (i : nat) (r : Reader) : res (InternalKey * Z * Z) :=
  entry ← index i (r_index r); Ok (lastKey entry, offset entry, size entry).

Definition maxLookupKey (userKey : bytes) : InternalKey :=
  mkInternalKey userKey (2 ^ 64 - 1) InternalKeyKindPut.

Definition seekBlock (userKey : bytes) (r : Reader) : res nat :=
  let synthetic := maxLookupKey userKey in
  sort_Search (length (r_index r))
    (fun i => e ← index i (r_index r); Ok (0 <=? Compare (lastKey e) synthetic)).

Definition readBlock (offset size : Z) (r : Reader) : res bytes :=
  let '(blockData, err) := ReadAt (file r) size (int64 offset) in
  if negb (zlen blockData =? size) || negb (bool_decide (err = None))
  then throw sstable.ErrCorruptBlock
  else verifyBlockChecksum blockData.

Definition loadBlockEntries (blockIdx : nat) (r : Reader) : res (list blockEntry) :=
  match r_index r !! blockIdx with
  | None => throw (ErrorText "beachdb/sstable: invalid blockIdx")
  | Some index =>
      data ← readBlock (offset index) (size index) r;
      decodeBlockEntries data
  end.

(** [scanBlock]: value, whether the key was seen, error. *)
Fixpoint scanBlock_loop (entries : list blockEntry) (userKey : bytes) (seqno : Z) (found : bool)
  : option bytes * bool * option error :=
  match entries with
  | [] => (None, found, None)
  | entry :: entries =>
      if negb (bytes_Equal (UserKey entry.1) userKey) then scanBlock_loop entries userKey seqno found
      else if Seqno entry.1 <=? seqno then
        if bool_decide (Kind entry.1 = InternalKeyKindDelete)
        then (None, true, Some (sstable_error sstable.ErrKeyDeleted))
        else (Some entry.2, true, None)
      else scanBlock_loop entries userKey seqno true
  end.

Definition scanBlock (entries : list blockEntry) (userKey : bytes) (seqno : Z) :=
  scanBlock_loop entries userKey seqno false.

(** The loop of [Get] over the index entries from [blockIndex] on. *)
Fixpoint get_loop (index : list indexEntry) (userKey : bytes) (seqno : Z) (r : Reader) : res bytes :=
  match index with
  | [] => throw sstable.ErrKeyNotFound
  | e :: index =>
      blockData ← readBlock (offset e) (size e) r;
      entries ← decodeBlockEntries blockData;
      let '(val, found, err) := scanBlock entries userKey seqno in
      if negb found then throw sstable.ErrKeyNotFound
      else match err, val with
      | Some e, _ => Err e
      | None, Some v => Ok v
      | None, None => get_loop index userKey seqno r
      end
  end.

Definition Get (userKey : bytes) (seqno : Z) (r : Reader) : res bytes :=
  let n := length (r_index r) in
  if (n =? 0)%nat then throw sstable.ErrKeyNotFound
  else
    blockIndex ← seekBlock userKey r;
    if (blockIndex =? n)%nat then throw sstable.ErrKeyNotFound
    else get_loop (drop blockIndex (r_index r)) userKey seqno r.

(** ** Iterator *)
Record Iterator := mkIterator {
  reader : option Reader;
  blockIdx : nat;
  it_entries : list blockEntry;
  entryIdx : nat;
  it_valid : bool;
  it_err : option error
}.

Definition NewIterator (r : Reader) : Iterator := mkIterator (Some r) 0 [] 0 false None.

Definition Valid (it : Iterator) : bool := it_valid it.
Definition IterErr (it : Iterator) : option error := it_err it.

(** [it.valid = false; it.err = e]. *)
Definition invalidate (e : option error) (it : Iterator) : Iterator :=
  mkIterator (reader it) (blockIdx it) (it_entries it) (entryIdx it) false e.

Definition SeekToFirst (it : Iterator) : res Iterator :=
  match reader it with
  | None => Ok (invalidate (Some (sstable_error sstable.ErrIteratorClosed)) it)
  | Some r =>
      let it := mkIterator (Some r) 0 (it_entries it) (entryIdx it) (it_valid it) (it_err it) in
      if (length (r_index r) =? 0)%nat then Ok (invalidate None it)
      else match loadBlockEntries 0 r with
      | Panic => Panic
      | Err e => Ok (invalidate (Some e) it)
      | Ok entries => Ok (mkIterator (Some r) 0 entries 0 true None)
      end
  end.

(** The position of the first entry with user key at least the target. *)
Fixpoint find_entry (i : nat) (entries : list blockEntry) (target : bytes) : option nat :=
  match entries with
  | [] => None
  | entry :: entries =>
      if 0 <=? bytes_Compare (UserKey entry.1) target then Some i else find_entry (S i) entries target
  end.

(** The loop of [Seek]: [count] blocks are left. *)
Fixpoint seek_loop (count blockIdx : nat) (target : bytes) (r : Reader) (it : Iterator) : res Iterator :=
  match count with
  | O => Ok (invalidate None it)
  | S count =>
      match loadBlockEntries blockIdx r with
      | Panic => Panic
      | Err e => Ok (invalidate (Some e) it)
      | Ok entries =>
          match find_entry 0 entries target with
          | Some entryIdx => Ok (mkIterator (Some r) blockIdx entries entryIdx true None)
          | None => seek_loop count (S blockIdx) target r it
          end
      end
  end.

Definition Seek (targetUserKey : bytes) (it : Iterator) : res Iterator :=
  match reader it with
  | None => Ok (invalidate (Some (sstable_error sstable.ErrIteratorClosed)) it)
  | Some r =>
      blockIdx ← seekBlock targetUserKey r;
      let n := length (r_index r) in
      if (blockIdx =? n)%nat then Ok (invalidate None it)
      else seek_loop (n - blockIdx) blockIdx targetUserKey r it
  end.

(** A valid iterator has a reader: [reader] is dereferenced without a test. *)
Definition Next (it : Iterator) : res Iterator :=
  if negb (it_valid it) then Ok it
  else
    let entryIdx := S (entryIdx it) in
    if (entryIdx <? length (it_entries it))%nat
    then Ok (mkIterator (reader it) (blockIdx it) (it_entries it) entryIdx true (it_err it))
    else
      let blockIdx := S (blockIdx it) in
      match reader it with
      | None => Panic
      | Some r =>
          let it := mkIterator (Some r) blockIdx (it_entries it) 0 true (it_err it) in
          if (length (r_index r) <=? blockIdx)%nat
          then Ok (invalidate (it_err it) it)
          else match loadBlockEntries blockIdx r with
          | Panic => Panic
          | Err e => Ok (invalidate (Some e) it)
          | Ok entries => Ok (mkIterator (Some r) blockIdx entries 0 true (it_err it))
          end
      end.

Definition Key (it : Iterator) : res InternalKey :=
  if negb (it_valid it) then Ok zeroKey
  else e ← index (entryIdx it) (it_entries it); Ok e.1.

Definition Value (it : Iterator) : res (option bytes) :=
  if negb (it_valid it) then Ok None
  else e ← index (entryIdx it) (it_entries it); Ok (Some e.2).

Definition CloseIterator (it : option Iterator) : option error * option Iterator :=
  match it with
  | None => (Some (sstable_error sstable.ErrIteratorClosed), None)
  | Some it =>
      match reader it with
      | None => (Some (sstable_error sstable.ErrIteratorClosed), Some it)
      | Some _ => (None, Some (mkIterator None (blockIdx it) [] (entryIdx it) false
                     (Some (sstable_error sstable.ErrIteratorClosed))))
      end
  end.

(** The loop of the iterator's clients. *)
Fixpoint read_loop (fuel : nat) (it : Iterator) (acc : list entry) : res (list entry * Iterator) :=
  match fuel with
  | O => Panic
  | S fuel =>
      if Valid it then
        k ← Key it;
        v ← Value it;
        it ← Next it;
        read_loop fuel it (acc ++ [(k, default [] v)])
      else Ok (acc, it)
  end.

(** ** Reading a finished table *)

(** No read or stat on the file fails. *)
Definition good (f : ReadFile) : Prop := rf_stat_fails f = false /\ forall off n, rf_bad f off n = false.

Lemma ReadAt_in f pre x post :
  rf_data f = pre ++ x ++ post -> good f -> ReadAt (Some f) (zlen x) (zlen pre) = (x, None).
Proof.
  intros Hd [_ Hb]. unfold ReadAt. rewrite (proj2 (Z.ltb_ge _ _)) by apply zlen_nonneg.
  destruct (Z.leb_spec (zlen x) 0) as [Hx|Hx].
  { unfold zlen in Hx. destruct x; [done|cbn in Hx; lia]. }
  rewrite Hb, Hd, !zlen_app. pose proof (zlen_nonneg post).
  rewrite (proj2 (Z.leb_gt _ _)) by lia.
  rewrite Z.min_l by (pose proof (zlen_nonneg pre); lia).
  unfold zlen. rewrite !Nat2Z.id, drop_app_length, take_app_length.
  by rewrite Z.ltb_irrefl.
Qed.

(** The sizes and offsets of the table are within their fields. *)
Record table_fits (blocks : list (list entry)) : Prop := {
  tf_entries : Forall wf_entry (mjoin blocks);
  tf_blocks : Forall (fun b => is_u32 (zlen (block_wire b))) blocks;
  tf_index : is_u32 (zlen (index_wire (index_for 0 blocks)));
  tf_size : zlen (table_wire blocks) < 2 ^ 63
}.

Lemma index_for_app off bl1 bl2 :
  index_for off (bl1 ++ bl2) = index_for off bl1 ++ index_for (off + zlen (data_wire bl1)) bl2.
Proof.
  revert off; induction bl1 as [|b bl1 IH]; intros off; cbn [app index_for].
  - cbn. by rewrite Z.add_0_r.
  - rewrite IH. do 2 f_equal. change (data_wire (b :: bl1)) with (block_wire b ++ data_wire bl1).
    rewrite zlen_app. f_equal. lia.
Qed.

Lemma index_for_length off blocks : length (index_for off blocks) = length blocks.
Proof. revert off; induction blocks as [|b bl IH]; intros off; cbn; [done|]. by rewrite IH. Qed.

Lemma index_for_lookup i bl1 b bl2 off :
  i = length bl1 -> index_for off (bl1 ++ b :: bl2) !! i =
    Some (mkIndexEntry (last_key b) (u64 (off + zlen (data_wire bl1))) (u32 (zlen (block_wire b)))).
Proof.
  intros ->. rewrite index_for_app, lookup_app_r, index_for_length, Nat.sub_diag by (by rewrite index_for_length).
  done.
Qed.

Lemma data_wire_app bl1 bl2 : data_wire (bl1 ++ bl2) = data_wire bl1 ++ data_wire bl2.
Proof. unfold data_wire. by rewrite fmap_app, join_app. Qed.

Lemma data_wire_cons b bl : data_wire (b :: bl) = block_wire b ++ data_wire bl.
Proof. reflexivity. Qed.

Lemma int64_small z : 0 <= z < 2 ^ 63 -> int64 (u64 z) = z.
Proof.
  intros H. rewrite u64_id by (unfold is_u64; lia). unfold int64. by rewrite (proj2 (Z.ltb_lt _ _)) by lia.
Qed.

Lemma table_footer_wf blocks : wf_footer (table_footer blocks).
Proof. split_and!; apply u64_range || apply u32_range. Qed.

Lemma last_key_wf b : b <> [] -> Forall wf_entry b -> wf_key (last_key b) /\ is_u32 (zlen (key_wire (last_key b))).
Proof.
  intros Hne Hb. destruct b as [|e b _] using rev_ind; [done|].
  apply Forall_app in Hb as [_ Hb]. apply Forall_singleton in Hb as (Hk & Hl & _).
  unfold last_key. by rewrite last_snoc.
Qed.

Lemma index_for_wf off blocks :
  Forall (fun b => b <> []) blocks -> Forall wf_entry (mjoin blocks) ->
  Forall wf_index_entry (index_for off blocks).
Proof.
  revert off; induction blocks as [|b bl IH]; intros off Hne Hwf; cbn [index_for]; [constructor|].
  apply Forall_cons in Hne as [Hb Hne]. change (mjoin (b :: bl)) with (b ++ mjoin bl) in Hwf.
  apply Forall_app in Hwf as [Hwb Hwf]. constructor; [|by apply IH].
  destruct (last_key_wf b Hb Hwb). split_and!; cbn; auto with beach.
Qed.

Section Table.
Context (f : ReadFile) (blocks : list (list entry)).
Hypotheses (f_good : good f) (f_table : rf_data f = table_wire blocks).
Hypotheses (b_ne : Forall (fun b => b <> []) blocks) (b_fits : table_fits blocks).

(** The reader [OpenReader] returns. *)
Definition table_reader : Reader :=
  mkReader (Some f) (zlen (table_wire blocks)) (table_footer blocks) (index_for 0 blocks).

Lemma table_sizes :
  zlen (table_wire blocks) = zlen (data_wire blocks) + zlen (index_wire (index_for 0 blocks)) + Z.of_nat footerSize.
Proof using.
  unfold table_wire. rewrite !zlen_app. unfold zlen at 3. rewrite length_footer_wire. lia.
Qed.

Lemma readFooter_table : readFooter f = Ok (table_footer blocks).
Proof using f_good f_table.
  unfold readFooter, Stat. rewrite (proj1 f_good), f_table.
  assert (zlen (table_wire blocks) - Z.of_nat footerSize =
    zlen (data_wire blocks ++ index_wire (index_for 0 blocks))) as ->
    by (rewrite table_sizes, zlen_app; lia).
  assert (Z.of_nat footerSize = zlen (footer_wire (table_footer blocks))) as ->
    by (unfold zlen; by rewrite length_footer_wire).
  rewrite (ReadAt_in f _ (footer_wire (table_footer blocks)) []); [|by rewrite f_table, app_nil_r, <-app_assoc|done].
  rewrite Z.eqb_refl, bool_decide_true by done. cbn [negb orb].
  apply decodeFooter_wire, table_footer_wf.
Qed.

Lemma readIndexEntries_table : readIndexEntries f (table_footer blocks) = Ok (index_for 0 blocks).
Proof using f_good f_table b_ne b_fits.
  unfold readIndexEntries. cbn [indexOffset indexSize table_footer].
  pose proof (tf_size _ b_fits) as Hsz. rewrite table_sizes in Hsz.
  pose proof (zlen_nonneg (data_wire blocks)). pose proof (zlen_nonneg (index_wire (index_for 0 blocks))).
  rewrite int64_small by lia. rewrite u32_id by apply (tf_index _ b_fits).
  rewrite (ReadAt_in f (data_wire blocks) (index_wire (index_for 0 blocks)) (footer_wire (table_footer blocks)))
    by done.
  rewrite Z.eqb_refl, bool_decide_true by done. cbn [negb orb].
  apply decodeIndexBlock_wire, index_for_wf; [done|apply b_fits].
Qed.

Lemma OpenReader_table : OpenReader (Some f) = Ok table_reader.
Proof using f_good f_table b_ne b_fits.
  unfold OpenReader, Stat. rewrite (proj1 f_good), f_table.
  rewrite (proj2 (Z.ltb_ge _ _)) by (rewrite table_sizes; unfold zlen; lia).
  by rewrite readFooter_table, bind_ret_l, readIndexEntries_table.
Qed.

(** Every block reads back. *)
Lemma readBlock_table bl1 b bl2 :
  blocks = bl1 ++ b :: bl2 ->
  readBlock (u64 (zlen (data_wire bl1))) (u32 (zlen (block_wire b))) table_reader = Ok (entries_wire b).
Proof using f_good f_table b_fits.
  intros E. unfold readBlock. cbn [file table_reader].
  assert (data_wire blocks = data_wire bl1 ++ block_wire b ++ data_wire bl2) as Ed
    by (by rewrite E, data_wire_app, data_wire_cons).
  pose proof (tf_size _ b_fits) as Hsz. rewrite table_sizes, Ed, !zlen_app in Hsz.
  pose proof (zlen_nonneg (data_wire bl1)). pose proof (zlen_nonneg (data_wire bl2)).
  pose proof (zlen_nonneg (block_wire b)). pose proof (zlen_nonneg (index_wire (index_for 0 blocks))).
  rewrite int64_small by lia.
  assert (is_u32 (zlen (block_wire b))) as Hu.
  { pose proof (tf_blocks _ b_fits) as Hb. rewrite E in Hb. by apply Forall_app in Hb as [_ [? _]%Forall_cons]. }
  rewrite u32_id by done.
  rewrite (ReadAt_in f (data_wire bl1) (block_wire b)
    (data_wire bl2 ++ index_wire (index_for 0 blocks) ++ footer_wire (table_footer blocks)))
    by (done || (rewrite f_table; unfold table_wire; rewrite Ed; by rewrite <-!app_assoc)).
  rewrite Z.eqb_refl, bool_decide_true by done. cbn [negb orb]. apply verify_wire.
Qed.

Lemma decode_table_block bl1 b bl2 :
  blocks = bl1 ++ b :: bl2 -> decodeBlockEntries (entries_wire b) = Ok b.
Proof using b_fits.
  intros E. apply decodeBlockEntries_wire. pose proof (tf_entries _ b_fits) as H.
  rewrite E, join_app in H. apply Forall_app in H as [_ H].
  change (mjoin (b :: bl2)) with (b ++ mjoin bl2) in H. by apply Forall_app in H as [? _].
Qed.

Lemma loadBlockEntries_table bl1 b bl2 i :
  blocks = bl1 ++ b :: bl2 -> i = length bl1 -> loadBlockEntries i table_reader = Ok b.
Proof using f_good f_table b_fits.
  intros E Hi. unfold loadBlockEntries. cbn [r_index table_reader].
  rewrite E, (index_for_lookup i bl1 b bl2 0 Hi), Z.add_0_l. cbn [offset size].
  rewrite (readBlock_table bl1 b bl2 E). cbn [mbind result_bind]. by eapply decode_table_block.
Qed.
End Table.

(** ** Sorted blocks *)

(** Entries of user keys below [u]. *)
Definition below (u : bytes) (e : entry) : Prop := bytes_Compare (UserKey e.1) u < 0.
#[export] Instance below_dec u e : Decision (below u e).
Proof. unfold below. apply _. Defined.

Lemma below_not_visible u s e : below u e -> ~ visible u s e.
Proof. unfold below. intros H [E _]. rewrite E, bytes_Compare_refl in H. lia. Qed.

(** An entry of a greater user key is neither. *)
Lemma above_not_visible u s e : ~ below u e -> UserKey e.1 <> u -> forall e', kle e.1 e'.1 -> ~ visible u s e'.
Proof.
  unfold below. intros Hb Hne e' Hle [E _]. rewrite <-E in Hb, Hne.
  apply kle_not_klt in Hle. apply Hle. rewrite klt_spec. left.
  rewrite <-bytes_Compare_eq in Hne. rewrite (bytes_Compare_antisym (UserKey e.1)). lia.
Qed.

Lemma sorted_app es1 es2 :
  sorted_entries (es1 ++ es2) ->
  sorted_entries es1 /\ sorted_entries es2 /\ forall a b, a ∈ es1 -> b ∈ es2 -> kle a.1 b.1.
Proof.
  unfold sorted_entries. induction es1 as [|x es1 IH]; cbn; intros H.
  - split_and!; [constructor|done|]. intros a b Ha. by apply not_elem_of_nil in Ha.
  - apply StronglySorted_inv in H as [H Hx]. destruct (IH H) as (H1 & H2 & H12).
    rewrite Forall_app in Hx. destruct Hx as [Hx1 Hx2]. split_and!; [by constructor|done|].
    rewrite Forall_forall in Hx2. intros a b [->|Ha]%elem_of_cons Hb; auto.
Qed.

Lemma last_elem (b : list entry) : b <> [] -> exists b' e, b = b' ++ [e] /\ last_key b = e.1.
Proof.
  intros Hne. destruct b as [|e b' _] using rev_ind; [done|]. exists b', e.
  unfold last_key. by rewrite last_snoc.
Qed.

Lemma elem_snoc {A} (x : A) l : x ∈ l ++ [x].
Proof. apply elem_of_app. right. by apply list_elem_of_singleton. Qed.

Lemma block_below u b :
  sorted_entries b -> b <> [] -> bytes_Compare (UserKey (last_key b)) u < 0 -> Forall (below u) b.
Proof.
  intros Hs Hne Hl. destruct (last_elem b Hne) as (b' & e & -> & El). rewrite El in Hl.
  apply sorted_app in Hs as (_ & _ & Hle). apply Forall_app. split; [|by apply Forall_singleton].
  apply Forall_forall. intros x Hx. unfold below. eapply kle_UserKey; [|done].
  apply Hle; [done|]. by apply list_elem_of_singleton.
Qed.

(** [scanBlock] is the reference lookup within one block. *)
Lemma scanBlock_loop_spec es u s found :
  scanBlock_loop es u s found =
    match newest_visible u s es with
    | Some e => if decide (Kind e.1 = InternalKeyKindDelete)
                then (None, true, Some (sstable_error sstable.ErrKeyDeleted))
                else (Some e.2, true, None)
    | None => (None, found || bool_decide (Exists (fun e => UserKey e.1 = u) es), None)
    end.
Proof.
  revert found. unfold newest_visible. induction es as [|e es IH]; intros found; cbn [scanBlock_loop].
  { rewrite filter_nil. cbn [head]. rewrite bool_decide_false by (by inversion 1). by rewrite orb_false_r. }
  unfold bytes_Equal. destruct (decide (UserKey e.1 = u)) as [Hu|Hu];
    [rewrite (bool_decide_true (UserKey e.1 = u)) by done|rewrite (bool_decide_false (UserKey e.1 = u)) by done];
    cbn [negb]; cycle 1.
  { rewrite IH, filter_cons_False by (intros [? _]; done). case_match; [done|].
    do 3 f_equal. apply bool_decide_ext. rewrite Exists_cons. tauto. }
  destruct (Z.leb_spec (Seqno e.1) s) as [Hs|Hs].
  - rewrite filter_cons_True by done. cbn [head].
    destruct (decide (Kind e.1 = InternalKeyKindDelete));
      [by rewrite bool_decide_true|by rewrite bool_decide_false].
  - rewrite IH, filter_cons_False by (intros [_ ?]; lia). case_match; [done|].
    do 2 f_equal. cbn [orb]. symmetry. apply orb_true_iff. right. apply bool_decide_eq_true. by left.
Qed.

(** The reference lookup with the errors of the reader. *)
Definition table_get (u : bytes) (s : Z) (es : list entry) : res bytes :=
  match newest_visible u s es with
  | None => throw sstable.ErrKeyNotFound
  | Some e => if decide (Kind e.1 = InternalKeyKindDelete) then throw sstable.ErrKeyDeleted else Ok e.2
  end.

Lemma table_get_skip u s es1 es2 :
  Forall (fun e => ~ visible u s e) es1 -> table_get u s (es1 ++ es2) = table_get u s es2.
Proof.
  intros H. unfold table_get, newest_visible. rewrite filter_app, filter_none; [done|].
  by rewrite <-Forall_forall.
Qed.

Section TableReads.
Context (f : ReadFile) (blocks : list (list entry)).
Hypotheses (f_good : good f) (f_table : rf_data f = table_wire blocks).
Hypotheses (b_ne : Forall (fun b => b <> []) blocks) (b_fits : table_fits blocks).
Hypothesis (b_sorted : sorted_entries (mjoin blocks)).
Local Abbreviation r := (table_reader f blocks).

Lemma mjoin_cons {A} (l : list A) ls : mjoin (l :: ls) = l ++ mjoin ls.
Proof. reflexivity. Qed.

(** The lookup from a block on: [u] is not above the last key of any block left. *)
Lemma get_loop_table bl1 bl2 u s :
  blocks = bl1 ++ bl2 ->
  Forall (fun b => ~ bytes_Compare (UserKey (last_key b)) u < 0) bl2 ->
  get_loop (index_for (zlen (data_wire bl1)) bl2) u s r = table_get u s (mjoin bl2).
Proof using f_good f_table b_ne b_fits b_sorted.
  revert bl1. induction bl2 as [|b bl2 IH]; intros bl1 E Hlast; [done|].
  cbn [index_for get_loop offset size]. rewrite (readBlock_table f blocks f_good f_table b_fits bl1 b bl2 E).
  cbn [mbind result_bind]. rewrite (decode_table_block blocks b_fits bl1 b bl2 E). cbn [mbind result_bind].
  unfold scanBlock. rewrite scanBlock_loop_spec. rewrite mjoin_cons.
  destruct (newest_visible u s b) as [e|] eqn:En.
  { unfold table_get, newest_visible in *. rewrite filter_app, head_app, En. by case_decide. }
  assert (Forall (fun e => ~ visible u s e) b) as Hnone.
  { unfold newest_visible in En. apply head_None in En. rewrite Forall_forall. intros e He Hv.
    eapply not_elem_of_nil. rewrite <-En. by apply list_elem_of_filter. }
  rewrite table_get_skip by done. cbn [orb]. apply Forall_cons in Hlast as [Hl Hlast].
  case_bool_decide as Hfound; cbn [negb].
  - rewrite <-(IH (bl1 ++ [b])) by (done || by rewrite <-app_assoc).
    rewrite data_wire_snoc, zlen_app. done.
  - (* the key would have to be in this block *)
    rewrite E, join_app, mjoin_cons in b_sorted. apply sorted_app in b_sorted as (_ & Hs & _).
    apply sorted_app in Hs as (_ & _ & Hle).
    assert (b <> []) as Hbne by (rewrite E in b_ne; by apply Forall_app in b_ne as [_ [? _]%Forall_cons]).
    destruct (last_elem b Hbne) as (b' & e & -> & El). rewrite El in Hl.
    assert (UserKey e.1 <> u) as Hne.
    { intros Hu. apply Hfound. apply Exists_app. right. by left. }
    assert (Forall (fun e' => ~ visible u s e') (mjoin bl2)) as Hrest.
    { apply Forall_forall. intros e' He'. apply (above_not_visible u s e Hl Hne).
      apply Hle; [|done]. apply elem_of_app. right. by apply list_elem_of_singleton. }
    rewrite <-(app_nil_r (mjoin bl2)), table_get_skip by done. done.
Qed.

(** The predicate of the index search, on the blocks. *)
Definition not_below (u : bytes) (i : nat) : bool :=
  match blocks !! i with
  | Some b => negb (bool_decide (bytes_Compare (UserKey (last_key b)) u < 0))
  | None => true
  end.

Lemma split_block b : b ∈ blocks -> exists bl1 bl2,
  blocks = bl1 ++ b :: bl2 /\ b <> [] /\ Forall wf_entry b /\
  sorted_entries b /\ forall x y, x ∈ b -> y ∈ mjoin bl2 -> kle x.1 y.1.
Proof using b_ne b_fits b_sorted.
  intros Hb. apply list_elem_of_split in Hb as (l1 & l2 & E). exists l1, l2.
  pose proof (tf_entries _ b_fits) as Hwf.
  rewrite E in b_ne. rewrite E, join_app, mjoin_cons in b_sorted, Hwf.
  apply Forall_app in b_ne as [_ [Hne _]%Forall_cons]. apply Forall_app in Hwf as [_ [Hwf _]%Forall_app].
  apply sorted_app in b_sorted as (_ & Hs & _). by apply sorted_app in Hs as (Hs & _ & Hle).
Qed.

Lemma seek_predicate i u :
  (i < length blocks)%nat ->
  (e ← index i (r_index r); Ok (0 <=? Compare (lastKey e) (maxLookupKey u))) = @Ok error _ (not_below u i).
Proof using b_ne b_fits b_sorted.
  intros Hi. unfold not_below. destruct (lookup_lt_is_Some_2 blocks i Hi) as [b Hb]. rewrite Hb.
  destruct (split_block b) as (_ & _ & _ & Hne & Hwf & _); [by eapply list_elem_of_lookup_2|].
  apply list_elem_of_split_length in Hb as (l1 & l2 & El & Hl).
  cbn [r_index table_reader]. unfold index. rewrite El, (index_for_lookup i l1 b l2 0) by done.
  cbn [mbind result_bind lastKey]. f_equal.
  destruct (last_key_wf b Hne Hwf) as [[Hu _] _].
  pose proof (klt_first_position (last_key b) u InternalKeyKindPut Hu) as Hk.
  unfold klt in Hk. unfold maxLookupKey.
  destruct (Z.leb_spec 0 (Compare (last_key b) (mkInternalKey u (2 ^ 64 - 1) InternalKeyKindPut)));
    case_bool_decide; cbn; try done; exfalso; lia || tauto.
Qed.

Lemma not_below_mono u i j :
  (i <= j)%nat -> (j < length blocks)%nat -> not_below u i = true -> not_below u j = true.
Proof using b_ne b_fits b_sorted.
  intros Hij Hj. destruct (decide (i = j)) as [->|Hne]; [done|]. unfold not_below.
  destruct (lookup_lt_is_Some_2 blocks j Hj) as [bj Hbj].
  destruct (lookup_lt_is_Some_2 blocks i) as [bi Hbi]; [lia|]. rewrite Hbi, Hbj.
  rewrite !negb_true_iff, !bool_decide_eq_false. intros Hn Hn'. apply Hn.
  pose proof Hbi as Hbi'. apply list_elem_of_split_length in Hbi' as (l1 & l2 & El & Hl).
  assert (bj ∈ l2) as Hin.
  { rewrite El, lookup_app_r in Hbj by lia. rewrite lookup_cons_ne_0 in Hbj by lia.
    by eapply list_elem_of_lookup_2. }
  assert (bi <> [] /\ bj <> []) as [Hni Hnj].
  { rewrite Forall_forall in b_ne. split; apply b_ne; by eapply list_elem_of_lookup_2. }
  rewrite El, join_app, mjoin_cons in b_sorted. apply sorted_app in b_sorted as (_ & Hs & _).
  apply sorted_app in Hs as (_ & _ & Hle).
  destruct (last_elem bi Hni) as (bi' & ei & -> & Eli). destruct (last_elem bj Hnj) as (bj' & ej & -> & Elj).
  rewrite Eli. rewrite Elj in Hn'. eapply kle_UserKey; [|exact Hn']. apply Hle; [apply elem_snoc|].
  apply list_elem_of_join. exists (bj' ++ [ej]). split; [apply elem_snoc|done].
Qed.

(** The index search splits the blocks into those below the key and the rest. *)
Lemma seekBlock_table u :
  exists bl1 bl2, blocks = bl1 ++ bl2 /\ seekBlock u r = Ok (length bl1) /\
    Forall (below u) (mjoin bl1) /\
    Forall (fun b => ~ bytes_Compare (UserKey (last_key b)) u < 0) bl2.
Proof using b_ne b_fits b_sorted.
  destruct (sort_Search_spec (E := error)
    (fun i => e ← index i (r_index r); Ok (0 <=? Compare (lastKey e) (maxLookupKey u)))
    (not_below u) (length blocks)) as (k & E & Hk & Hlo & Hhi).
  - intros i. apply seek_predicate.
  - apply not_below_mono.
  - exists (take k blocks), (drop k blocks). rewrite take_drop. split_and!; [done| | |].
    + unfold seekBlock. cbn [r_index table_reader] in *. rewrite index_for_length, E.
      by rewrite length_take, Nat.min_l.
    + apply Forall_forall. intros e (b & He & Hb)%list_elem_of_join.
      apply list_elem_of_lookup in Hb as [i Hi]. apply lookup_take_Some in Hi as [Hi Hik].
      specialize (Hlo i Hik). unfold not_below in Hlo. rewrite Hi in Hlo.
      apply negb_false_iff, bool_decide_eq_true in Hlo.
      destruct (split_block b) as (_ & _ & _ & Hne & _ & Hs & _); [by eapply list_elem_of_lookup_2|].
      pose proof (block_below u b Hs Hne Hlo) as Hb. rewrite Forall_forall in Hb. by apply Hb.
    + apply Forall_forall. intros b [i Hi]%list_elem_of_lookup. rewrite lookup_drop in Hi.
      apply lookup_lt_Some in Hi as Hl. specialize (Hhi (k + i)%nat ltac:(lia) Hl).
      unfold not_below in Hhi. rewrite Hi in Hhi. by apply negb_true_iff, bool_decide_eq_false in Hhi.
Qed.

(** [Get] is the reference lookup. *)
Lemma Get_table u s : Get u s r = table_get u s (mjoin blocks).
Proof using f_good f_table b_ne b_fits b_sorted.
  destruct (seekBlock_table u) as (bl1 & bl2 & E & Hseek & Hlo & Hhi).
  unfold Get. cbn [r_index table_reader]. rewrite index_for_length.
  destruct (Nat.eqb_spec (length blocks) 0) as [H0|H0].
  { apply nil_length_inv in H0. by rewrite H0. }
  rewrite Hseek. cbn [mbind result_bind].
  assert (table_get u s (mjoin blocks) = table_get u s (mjoin bl2)) as ->.
  { rewrite E, join_app. apply table_get_skip. eapply Forall_impl; [done|]. intros; by apply below_not_visible. }
  destruct (Nat.eqb_spec (length bl1) (length blocks)) as [Hl|Hl].
  { rewrite E, length_app in Hl. assert (bl2 = []) as -> by (apply nil_length_inv; lia). done. }
  rewrite <-(get_loop_table bl1 bl2 u s E Hhi). f_equal.
  rewrite E, index_for_app, Z.add_0_l. by rewrite drop_app_length' by (by rewrite index_for_length).
Qed.
End TableReads.

(** ** The iterator *)
Section TableIterator.
Context (f : ReadFile) (blocks : list (list entry)).
Hypotheses (f_good : good f) (f_table : rf_data f = table_wire blocks).
Hypotheses (b_ne : Forall (fun b => b <> []) blocks) (b_fits : table_fits blocks).
Local Abbreviation r := (table_reader f blocks).

(** The iterator stands in front of the entries [rem]. *)
Inductive iter_at (it : Iterator) : list entry -> Prop :=
  | at_end : it_valid it = false -> it_err it = None -> iter_at it []
  | at_entry bl1 b1 e b2 bl2 :
      blocks = bl1 ++ (b1 ++ e :: b2) :: bl2 ->
      it = mkIterator (Some r) (length bl1) (b1 ++ e :: b2) (length b1) true None ->
      iter_at it (e :: b2 ++ mjoin bl2).

(** At the start of a block. *)
Lemma iter_at_block bl1 b bl2 :
  blocks = bl1 ++ b :: bl2 -> iter_at (mkIterator (Some r) (length bl1) b 0 true None) (b ++ mjoin bl2).
Proof using b_ne.
  intros E. assert (b <> []) as Hne by (rewrite E in b_ne; by apply Forall_app in b_ne as [_ [? _]%Forall_cons]).
  destruct b as [|e b]; [done|]. by apply (at_entry _ bl1 [] e b bl2).
Qed.

Lemma Next_at it e rem :
  iter_at it (e :: rem) ->
  Valid it = true /\ Key it = Ok e.1 /\ Value it = Ok (Some e.2) /\
  exists it', Next it = Ok it' /\ iter_at it' rem.
Proof using f_good f_table b_ne b_fits.
  inversion 1 as [|bl1 b1 e' b2 bl2 E Eit]; subst e' rem it.
  unfold Valid, Key, Value, index. cbn [it_valid negb entryIdx it_entries].
  rewrite lookup_app_r, Nat.sub_diag by lia. split_and!; [done|done|done|].
  unfold Next. cbn [it_valid negb entryIdx it_entries blockIdx reader it_err].
  rewrite length_app. cbn [length].
  destruct (Nat.ltb_spec (S (length b1)) (length b1 + S (length b2))) as [Hlt|Hge].
  - eexists; split; [done|]. destruct b2 as [|e2 b2]; [cbn in Hlt; lia|].
    replace (S (length b1)) with (length (b1 ++ [e])) by (rewrite length_app; cbn; lia).
    assert (b1 ++ e :: e2 :: b2 = (b1 ++ [e]) ++ e2 :: b2) as Eb by (by rewrite <-app_assoc).
    eapply (at_entry _ bl1 (b1 ++ [e]) e2 b2 bl2); rewrite <-Eb; [exact E|done].
  - assert (b2 = []) as -> by (apply nil_length_inv; lia). cbn [app].
    cbn [r_index table_reader]. rewrite index_for_length, E, length_app. cbn [length].
    destruct bl2 as [|b bl2].
    + rewrite (proj2 (Nat.leb_le _ _)) by (cbn; lia). eexists; split; [done|]. by apply at_end.
    + rewrite (proj2 (Nat.leb_gt _ _)) by (cbn; lia).
      assert (blocks = (bl1 ++ [b1 ++ [e]]) ++ b :: bl2) as E2 by (rewrite <-app_assoc; done).
      rewrite <-E. rewrite (loadBlockEntries_table f blocks f_good f_table b_fits _ b bl2 _ E2)
        by (rewrite length_app; cbn; lia).
      eexists; split; [done|].
      replace (S (length bl1)) with (length (bl1 ++ [b1 ++ [e]])) by (rewrite length_app; cbn; lia).
      rewrite mjoin_cons. by apply iter_at_block.
Qed.

Lemma read_loop_at it rem fuel acc :
  iter_at it rem -> (length rem < fuel)%nat ->
  exists it', read_loop fuel it acc = Ok (acc ++ rem, it') /\ Valid it' = false /\ IterErr it' = None.
Proof using f_good f_table b_ne b_fits.
  revert it fuel acc. induction rem as [|[k v] rem IH]; intros it fuel acc Hit Hf;
    (destruct fuel as [|fuel]; [cbn in Hf; lia|]); cbn [read_loop].
  - inversion Hit as [Hv He|]. unfold Valid. rewrite Hv. exists it. by rewrite app_nil_r.
  - destruct (Next_at it _ _ Hit) as (Hv & Hk & Hval & it' & Hn & Hit').
    rewrite Hv, Hk, Hval, Hn. cbn [mbind result_bind from_option id fst snd].
    destruct (IH it' fuel (acc ++ [(k, v)]) Hit') as (it2 & E & ?); [cbn in Hf; lia|].
    exists it2. by rewrite E, <-app_assoc.
Qed.

Lemma SeekToFirst_at : exists it, SeekToFirst (NewIterator r) = Ok it /\ iter_at it (mjoin blocks).
Proof using f_good f_table b_ne b_fits.
  unfold SeekToFirst. cbn [reader NewIterator r_index table_reader]. rewrite index_for_length.
  destruct (Nat.eqb_spec (length blocks) 0) as [H0|H0].
  { eexists; split; [done|]. apply nil_length_inv in H0. rewrite H0. by apply at_end. }
  assert (exists b bl, blocks = b :: bl) as (b & bl & E) by (destruct blocks; [done|eauto]).
  rewrite (loadBlockEntries_table f blocks f_good f_table b_fits [] b bl 0 E eq_refl).
  eexists; split; [done|].
  assert (mjoin blocks = b ++ mjoin bl) as -> by (by rewrite E). by apply (iter_at_block [] b bl).
Qed.

Lemma find_entry_app i A e B t :
  Forall (below t) A -> ~ below t e -> find_entry i (A ++ e :: B) t = Some (i + length A)%nat.
Proof.
  intros HA He. revert i. unfold below in *. induction HA as [|a A Ha HA IH]; intros i; cbn.
  - by rewrite (proj2 (Z.leb_le _ _)), Nat.add_0_r by lia.
  - rewrite (proj2 (Z.leb_gt _ _)) by done. rewrite IH. f_equal. lia.
Qed.

Lemma split_below t es :
  sorted_entries es -> exists A B, es = A ++ B /\ Forall (below t) A /\ Forall (fun e => ~ below t e) B.
Proof.
  induction 1 as [|e es Hs IH Hle]; [by exists [], []|].
  destruct (decide (below t e)) as [He|He].
  - destruct IH as (A & B & -> & HA & HB). exists (e :: A), B. auto.
  - exists [], (e :: es). split_and!; [done..|]. constructor; [done|].
    eapply Forall_impl; [done|]. cbn. intros x Hx Hb. apply He. by eapply kle_UserKey.
Qed.

Lemma filter_split (P : entry -> Prop) `{!forall x, Decision (P x)} A B :
  Forall P A -> Forall (fun e => ~ P e) B -> filter (fun e => ~ P e) (A ++ B) = B.
Proof.
  intros HA HB. rewrite Forall_forall in HA, HB. rewrite filter_app, filter_none, filter_all; [done|done|].
  intros x Hx Hn. by apply Hn, HA.
Qed.

Hypothesis (b_sorted : sorted_entries (mjoin blocks)).

(** [Seek] stands in front of the entries of user keys at least [t]. *)
Lemma Seek_at t :
  exists it, Seek t (NewIterator r) = Ok it /\ iter_at it (filter (fun e => ~ below t e) (mjoin blocks)).
Proof using f_good f_table b_ne b_fits b_sorted.
  destruct (seekBlock_table f blocks b_ne b_fits b_sorted t) as (bl1 & bl2 & E & Hseek & Hlo & Hhi).
  unfold Seek. cbn [reader NewIterator]. rewrite Hseek. cbn [mbind result_bind r_index table_reader].
  rewrite index_for_length. destruct bl2 as [|b bl2].
  { rewrite app_nil_r in E. rewrite E, Nat.eqb_refl. eexists; split; [done|].
    rewrite <-(app_nil_r (mjoin bl1)), filter_split by done. by apply at_end. }
  assert (length bl1 < length blocks)%nat as Hl by (rewrite E, length_app; cbn; lia).
  rewrite (proj2 (Nat.eqb_neq _ _)) by lia.
  assert (length blocks - length bl1 = S (length bl2))%nat as -> by (rewrite E, length_app; cbn; lia).
  cbn [seek_loop]. rewrite (loadBlockEntries_table f blocks f_good f_table b_fits bl1 b bl2 _ E eq_refl).
  assert (b ∈ blocks) as Hin by (rewrite E; apply elem_of_app; right; by left).
  destruct (split_block blocks b_ne b_fits b_sorted b Hin) as (_ & _ & _ & Hne & _ & Hsb & _).
  destruct (split_below t b Hsb) as (A & B & Eb & HA & HB).
  apply Forall_cons in Hhi as [Hlast _]. destruct (last_elem b Hne) as (b' & el & Eb' & El).
  destruct B as [|e B].
  { rewrite app_nil_r in Eb. subst A. rewrite Eb' in HA. apply Forall_app in HA as [_ HA].
    rewrite Forall_singleton in HA.
    destruct Hlast. rewrite El. exact HA. }
  pose proof HB as [He _]%Forall_cons.
  rewrite Eb, (find_entry_app 0 A e B t HA He). cbn [Nat.add].
  eexists; split; [done|].
  assert (filter (fun e => ~ below t e) (mjoin blocks) = e :: B ++ mjoin bl2) as ->.
  { rewrite E, join_app, mjoin_cons, Eb, <-app_assoc. rewrite app_assoc. apply (filter_split (below t)).
    - by apply Forall_app.
    - assert (sorted_entries (mjoin blocks)) as Hs by done. rewrite E, join_app, mjoin_cons, Eb, <-app_assoc in Hs.
      apply sorted_app in Hs as (_ & Hs & _). apply sorted_app in Hs as (_ & Hs & _).
      apply StronglySorted_inv in Hs as [_ Hs].
      constructor; [done|]. eapply Forall_impl; [done|]. cbn. intros x Hx Hb. apply He. by eapply kle_UserKey. }
  apply (at_entry _ bl1 A e B bl2); by rewrite <-Eb.
Qed.
End TableIterator.

(** ** From the writer to the reader *)
Lemma length_mjoin_elem {A} (g : A -> bytes) x l :
  x ∈ l -> (length (g x) <= length (mjoin (g <$> l)))%nat.
Proof.
  induction l as [|y l IH]; intros H; [by apply not_elem_of_nil in H|].
  change (mjoin (g <$> y :: l)) with (g y ++ mjoin (g <$> l)). rewrite length_app.
  apply elem_of_cons in H as [->|H]; [lia|]. specialize (IH H). lia.
Qed.

(** A file below 4 GiB of entries with proper keys is within all fields. *)
Lemma table_fits_small blocks :
  Forall (fun e => wf_key e.1) (mjoin blocks) -> zlen (table_wire blocks) < 2 ^ 32 -> table_fits blocks.
Proof.
  intros Hk Hsz. assert (forall z, 0 <= z < 2 ^ 32 -> is_u32 z) as Hu by done.
  assert (zlen (table_wire blocks) = zlen (data_wire blocks) + zlen (index_wire (index_for 0 blocks)) +
    Z.of_nat footerSize) as Hs by (apply table_sizes; exact (mkReadFile [] false (fun _ _ => false))).
  assert (forall b, b ∈ blocks -> zlen (block_wire b) < 2 ^ 32) as Hb.
  { intros b Hb. pose proof (length_mjoin_elem block_wire b blocks Hb) as Hl.
    fold (data_wire blocks) in Hl. unfold zlen in *. lia. }
  split.
  - rewrite Forall_forall in *. intros e He. split; [by apply Hk|].
    apply list_elem_of_join in He as (b & He & Hin). specialize (Hb b Hin).
    pose proof (length_mjoin_elem entry_wire e b He) as Hl. fold (entries_wire b) in Hl.
    unfold zlen in Hb. rewrite length_block_wire in Hb.
    rewrite length_entry_wire in Hl. unfold encodedEntrySize in Hl.
    unfold is_u32, zlen. rewrite length_key_wire. lia.
  - rewrite Forall_forall. intros b Hin. apply Hu. split; [apply zlen_nonneg|by apply Hb].
  - apply Hu. unfold zlen in *. lia.
  - lia.
Qed.

(** The size of a table, from its entries: every block has an entry of its own
    whose key the index repeats. *)
Definition entry_bytes (e : entry) : Z := 2 * zlen (UserKey e.1) + zlen e.2 + 64.

Fixpoint log_bytes (es : list entry) : Z :=
  match es with [] => 0 | e :: es => entry_bytes e + log_bytes es end.

Lemma log_bytes_app es1 es2 : log_bytes (es1 ++ es2) = log_bytes es1 + log_bytes es2.
Proof. induction es1 as [|e es1 IH]; [done|]. cbn [log_bytes app]. rewrite IH. lia. Qed.

Lemma log_bytes_nonneg es : 0 <= log_bytes es.
Proof. induction es as [|e es IH]; [done|]. cbn [log_bytes]. unfold entry_bytes, zlen. lia. Qed.

Lemma block_and_index_bytes b off :
  b <> [] ->
  zlen (block_wire b) + zlen (index_entry_wire (mkIndexEntry (last_key b) off (u32 (zlen (block_wire b))))) <= log_bytes b.
Proof.
  intros Hne. destruct b as [|[k v] b _] using rev_ind; [done|]. rewrite last_key_snoc, log_bytes_app.
  assert (forall es, zlen (entries_wire es) + 0 <= log_bytes es - 0) as Hes.
  { induction es as [|e es IH]; [done|]. change (entries_wire (e :: es)) with (entry_wire e ++ entries_wire es).
    rewrite zlen_app. cbn [log_bytes].
    assert (zlen (entry_wire e) <= entry_bytes e) as He.
    { unfold zlen. rewrite length_entry_wire. unfold encodedEntrySize, entry_bytes, zlen. lia. }
    lia. }
  specialize (Hes b). unfold zlen at 1. rewrite length_block_wire, entries_wire_snoc, length_app, length_entry_wire.
  unfold zlen at 1 in Hes. unfold index_entry_wire. cbn [lastKey offset size log_bytes].
  rewrite !zlen_app. unfold zlen. rewrite !length_be_bytes, length_key_wire.
  unfold encodedEntrySize, entry_bytes, zlen, checksumSize. cbn [fst snd]. lia.
Qed.

Lemma table_bytes blocks off :
  Forall (fun b => b <> []) blocks ->
  zlen (data_wire blocks) + zlen (index_body (index_for off blocks)) <= log_bytes (mjoin blocks).
Proof.
  revert off. induction blocks as [|b bl IH]; intros off H; [done|]. apply Forall_cons in H as [Hb Hbl].
  rewrite data_wire_cons. cbn [index_for]. change (mjoin (b :: bl)) with (b ++ mjoin bl).
  change (index_body (?x :: ?xs)) with (index_entry_wire x ++ index_body xs).
  rewrite !zlen_app, log_bytes_app.
  pose proof (block_and_index_bytes b (u64 off) Hb). specialize (IH (off + zlen (block_wire b)) Hbl). lia.
Qed.

Lemma table_wire_bytes blocks :
  Forall (fun b => b <> []) blocks -> zlen (table_wire blocks) <= log_bytes (mjoin blocks) + 64.
Proof.
  intros H. pose proof (table_bytes blocks 0 H). unfold table_wire. rewrite !zlen_app.
  unfold index_wire. rewrite !zlen_app. unfold zlen in *. rewrite length_footer_wire, ?length_be_bytes.
  assert (footerSize = 40%nat) as -> by reflexivity. lia.
Qed.

(** What [write_table] leaves can be opened, and holds the entries. *)
Lemma table_written opts es f :
  f_content f = [] -> faultless f -> 0 < blockSize (applyOptions opts) -> strict_entries es ->
  Forall (fun e => wf_key e.1) es ->
  exists w f' blocks, write_table opts es f = Ok (w, f', None) /\ mjoin blocks = es /\
    Forall (fun b => b <> []) blocks /\ f_content f' = table_wire blocks /\
    (zlen (f_content f') < 2 ^ 32 -> table_fits blocks).
Proof.
  intros Hc Hf Hb Hs Hk.
  destruct (write_table_ok opts es f Hc Hf Hb Hs) as (w & f' & bl & E & Ec & Ej & Hw & _ & _).
  exists w, f', bl. split_and!; [done|done| |done|].
  - eapply Forall_impl; [done|]. by intros b [? _].
  - rewrite Ec. apply table_fits_small. by rewrite Ej.
Qed.

(** The footer counts the entries, in any file below 4 GiB. *)
Lemma EntryCount_table rf bl : zlen (table_wire bl) < 2 ^ 32 -> EntryCount (table_reader rf bl) = zlen (mjoin bl).
Proof.
  intros Hsz. unfold EntryCount. cbn [r_footer table_reader table_footer entryCount]. apply u64_id.
  pose proof (length_wires entry_wire entry_wire_pos (mjoin bl)) as Hl.
  assert (length (mjoin bl) <= length (data_wire bl))%nat as Hl2.
  { clear. induction bl as [|b bl IH]; [done|]. rewrite data_wire_cons, mjoin_cons, !length_app, length_block_wire.
    pose proof (length_entries_wire b). lia. }
  unfold table_wire in Hsz. rewrite !zlen_app in Hsz. unfold zlen, is_u64 in *. lia.
Qed.

(** ** Properties *)

(** C14: an SSTable answers like the list of its entries.  Writing
    entries in strict internal-key order through the writer (any options with a
    positive block size) succeeds; if the file is below 4 GiB, opening it
    succeeds, [EntryCount] is the number of entries, and [Get userKey seqno]
    returns for every user key and sequence number the value of the newest
    version visible at [seqno], [ErrKeyDeleted] if that version is a tombstone
    and [ErrKeyNotFound] if there is none, however the entries are spread over
    the blocks. *)
Theorem sstable_get_refines (opts : list WriterOption) (es : list entry) (f : File) :
  f_content f = [] -> faultless f -> 0 < blockSize (applyOptions opts) ->
  strict_entries es -> Forall (fun e => wf_key e.1) es ->
  exists w f', write_table opts es f = Ok (w, f', None) /\
    forall rf, rf_data rf = f_content f' -> good rf -> zlen (f_content f') < 2 ^ 32 ->
    exists r, OpenReader (Some rf) = Ok r /\ EntryCount r = zlen es /\
      forall userKey seqno, Get userKey seqno r = table_get userKey seqno es.
Proof.
  intros Hc Hf Hb Hs Hk. destruct (table_written opts es f Hc Hf Hb Hs Hk) as (w & f' & bl & E & Ej & Hne & Ec & Hfit).
  exists w, f'. split; [done|]. intros rf Hrf Hg Hsz. specialize (Hfit Hsz). rewrite Ec in Hrf.
  exists (table_reader rf bl). split_and!.
  - by apply OpenReader_table.
  - rewrite <-Ej. apply EntryCount_table. by rewrite <-Ec.
  - intros u s. rewrite <-Ej. apply Get_table; try done. rewrite Ej. by apply strict_sorted.
Qed.

Definition read_file (bs : bytes) : ReadFile := mkReadFile bs false (fun _ _ => false).

Definition sst_entries : list entry :=
  [ (mkInternalKey [x61] 9 InternalKeyKindPut, [x01]);
    (mkInternalKey [x61] 4 InternalKeyKindDelete, []);
    (mkInternalKey [x62] 5 InternalKeyKindPut, [x02; x03]) ].

Lemma sstable_get_refines_witness :
  strict_entries sst_entries /\
  exists w f', write_table [WithBlockSize 30] sst_entries (mkFile [] 0 []) = Ok (w, f', None) /\
    forall rf, rf_data rf = f_content f' -> good rf -> zlen (f_content f') < 2 ^ 32 ->
    exists r, OpenReader (Some rf) = Ok r /\ EntryCount r = 3 /\
      forall userKey seqno, Get userKey seqno r = table_get userKey seqno sst_entries.
Proof.
  assert (strict_entries sst_entries) as Hs by (repeat constructor; vm_compute; reflexivity).
  split; [exact Hs|].
  apply (sstable_get_refines [WithBlockSize 30] sst_entries (mkFile [] 0 [])).
  - reflexivity.
  - constructor.
  - cbn. lia.
  - exact Hs.
  - repeat constructor; vm_compute; (reflexivity || discriminate).
Defined.

(** C20: an SSTable iterates like the list of its entries.  On a table
    written as above, a pass from [SeekToFirst] returns every entry once, in
    order, across block boundaries, and ends invalid with a nil [Err]; a pass
    from [Seek target] returns exactly the entries whose user key is at least
    the target. *)
Theorem sstable_iterator_refines (opts : list WriterOption) (es : list entry) (f : File) :
  f_content f = [] -> faultless f -> 0 < blockSize (applyOptions opts) ->
  strict_entries es -> Forall (fun e => wf_key e.1) es ->
  exists w f', write_table opts es f = Ok (w, f', None) /\
    forall rf, rf_data rf = f_content f' -> good rf -> zlen (f_content f') < 2 ^ 32 ->
    exists r, OpenReader (Some rf) = Ok r /\
      (exists it it', SeekToFirst (NewIterator r) = Ok it /\
         read_loop (S (length es)) it [] = Ok (es, it') /\ Valid it' = false /\ IterErr it' = None) /\
      forall target, exists it it', Seek target (NewIterator r) = Ok it /\
         read_loop (S (length es)) it [] = Ok (filter (fun e => ~ below target e) es, it') /\
         Valid it' = false /\ IterErr it' = None.
Proof.
  intros Hc Hf Hb Hs Hk. destruct (table_written opts es f Hc Hf Hb Hs Hk) as (w & f' & bl & E & Ej & Hne & Ec & Hfit).
  exists w, f'. split; [done|]. intros rf Hrf Hg Hsz. specialize (Hfit Hsz). rewrite Ec in Hrf.
  exists (table_reader rf bl). split_and!.
  - by apply OpenReader_table.
  - destruct (SeekToFirst_at rf bl Hg Hrf Hne Hfit) as (it & Eit & Hit). rewrite Ej in Hit.
    destruct (read_loop_at rf bl Hg Hrf Hne Hfit it es (S (length es)) [] Hit) as (it' & Er & ?); [lia|].
    by exists it, it'.
  - intros t. destruct (Seek_at rf bl Hg Hrf Hne Hfit) with (t := t) as (it & Eit & Hit).
    { rewrite Ej. by apply strict_sorted. }
    rewrite Ej in Hit.
    destruct (read_loop_at rf bl Hg Hrf Hne Hfit it _ (S (length es)) [] Hit) as (it' & Er & ?).
    { pose proof (length_filter (fun e => ~ below t e) es). lia. }
    by exists it, it'.
Qed.

Lemma sstable_iterator_refines_witness :
  exists w f', write_table [WithBlockSize 30; WithSync false] sst_entries (mkFile [] 0 []) = Ok (w, f', None) /\
    forall rf, rf_data rf = f_content f' -> good rf -> zlen (f_content f') < 2 ^ 32 ->
    exists r, OpenReader (Some rf) = Ok r /\
      (exists it it', SeekToFirst (NewIterator r) = Ok it /\
         read_loop 4 it [] = Ok (sst_entries, it') /\ Valid it' = false /\ IterErr it' = None) /\
      forall target, exists it it', Seek target (NewIterator r) = Ok it /\
         read_loop 4 it [] = Ok (filter (fun e => ~ below target e) sst_entries, it') /\
         Valid it' = false /\ IterErr it' = None.
Proof.
  apply (sstable_iterator_refines [WithBlockSize 30; WithSync false] sst_entries (mkFile [] 0 [])).
  - reflexivity.
  - constructor.
  - cbn. lia.
  - repeat constructor; vm_compute; reflexivity.
  - repeat constructor; vm_compute; (reflexivity || discriminate).
Defined.

(** The run of a writer whose first block write fails: the error of the second
    [Add] is ignored and the writer closed. *)
Definition failed_flush_run : res (option error * option error * res Reader) :=
  let f := mkFile [] 0 [Fail 0] in
  '(w, f) ← NewWriter (Some f) [WithBlockSize 30];
  '(w, f, _) ← Add (mkInternalKey [x61] 9 InternalKeyKindPut) [x01] w f;
  '(w, f, e1) ← Add (mkInternalKey [x62] 5 InternalKeyKindPut) [x02] w f;
  '(w, f, e2) ← Close w f;
  Ok (e1, e2, OpenReader (Some (read_file (f_content f)))).

(** The writer's errors are not sticky.  After a block write has
    failed the checksum stays behind in the block buffer; [Close] still returns
    nil, and the file it leaves opens, counts one entry, and has a first block
    that passes its checksum and cannot be decoded. *)
Theorem sst_writer_error_not_sticky :
  match failed_flush_run with
  | Ok (Some _, None, Ok r) =>
      EntryCount r = 1 /\ Get [x61] 9 r = throw sstable.ErrCorruptBlock /\
      match r_index r with
      | e :: _ => is_Ok (readBlock (offset e) (size e) r)
      | [] => False
      end
  | _ => False
  end.
Proof. vm_compute. split; [reflexivity|]. split; [reflexivity|]. eexists. reflexivity. Qed.

(** A table whose only block has no entries. *)
Definition empty_block_table : bytes :=
  let b := block_wire [] in
  let idx := index_wire [mkIndexEntry (mkInternalKey [x61] 1 InternalKeyKindPut) 0 (zlen b)] in
  b ++ idx ++ footer_wire (mkFooter (zlen b) (zlen idx) 1 0).

(** An empty block makes the iterator panic.  A file whose single
    block is four zero bytes (no entries, the checksum of nothing) passes every
    check of [OpenReader]; [SeekToFirst] declares the iterator valid without
    looking at the number of entries, and [Key] then indexes past the end. *)
Theorem sst_iterator_empty_block_panics :
  match OpenReader (Some (read_file empty_block_table)) with
  | Ok r =>
      match SeekToFirst (NewIterator r) with
      | Ok it => Valid it = true /\ IterErr it = None /\ Key it = Panic /\ Value it = Panic
      | _ => False
      end
  | _ => False
  end.
Proof. vm_compute. repeat split; reflexivity. Qed.
