(* ===== verification/Edit.v ===== *)
(** * Version edits (internal/manifest/edit.go)

    The payload of a MANIFEST record: an atomic change to the set of live
    SSTables, as a sequence of tagged fields. *)
From S2P Require Import Prelude.
From S2P Require Import Errors.
From S2P Require Import Coding.
From S2P Require Import Keys.

Local Open Scope Z_scope.

Definition tagAddFile : byte := x01.
Definition tagDeleteFile : byte := x02.
Definition tagNextFileID : byte := x03.
Definition tagLastSequence : byte := x04.
Definition tagLogNumber : byte := x05.

Definition maxLengthPrefixedField : Z := 2 ^ 16.

Record FileMetadata := mkFileMetadata {
  Level : Z;
  FileID : Z;
  Size : Z;
  SmallestKey : InternalKey;
  LargestKey : InternalKey
}.

Record DeletedFile := mkDeletedFile { d_Level : Z; d_FileID : Z }.

Record VersionEdit := mkVersionEdit {
  AddedFiles : list FileMetadata;
  DeletedFiles : list DeletedFile;
  HasNextFileID : bool;
  NextFileID : Z;
  HasLastSequence : bool;
  LastSequence : Z;
  HasLogNumber : bool;
  LogNumber : Z
}.

#[export] Instance FileMetadata_eq_dec : EqDecision FileMetadata.
Proof. solve_decision. Defined.
#[export] Instance DeletedFile_eq_dec : EqDecision DeletedFile.
Proof. solve_decision. Defined.
#[export] Instance VersionEdit_eq_dec : EqDecision VersionEdit.
Proof. solve_decision. Defined.

(** The zero value [VersionEdit{}]. *)
Definition zeroEdit : VersionEdit := mkVersionEdit [] [] false 0 false 0 false 0.

(** ** Encoding *)
Record addedFileBytes := mkAddedFileBytes { smallest : bytes; largest : bytes }.

Definition encode_keys (f : FileMetadata) : res addedFileBytes :=
  s ← Keys.Encode (SmallestKey f); l ← Keys.Encode (LargestKey f); Ok (mkAddedFileBytes s l).

Definition encodedSize (e : VersionEdit) (addedBytes : list addedFileBytes) : nat :=
  ((if HasNextFileID e then 1 + 8 else 0) +
   (if HasLastSequence e then 1 + 8 else 0) +
   (if HasLogNumber e then 1 + 8 else 0) +
   length (DeletedFiles e) * (1 + 4 + 8) +
   foldr (fun b n => (1 + 4 + 8 + 8) + (4 + length (smallest b) + 4 + length (largest b)) + n) 0 addedBytes)%nat.

Definition writeCounterTag (tag : byte) (has : bool) (value : Z) (buf : bytes) (offset : nat) : res (bytes * nat) :=
  if negb has then Ok (buf, offset)
  else
    buf ← store offset tag buf;
    let offset := (offset + 1)%nat in
    buf ← PutUint64 buf offset value;
    Ok (buf, (offset + 8)%nat).

Definition writeDeletedFile (d : DeletedFile) (buf : bytes) (offset : nat) : res (bytes * nat) :=
  buf ← store offset tagDeleteFile buf;
  let offset := (offset + 1)%nat in
  buf ← PutUint32 buf offset (d_Level d);
  let offset := (offset + 4)%nat in
  buf ← PutUint64 buf offset (d_FileID d);
  Ok (buf, (offset + 8)%nat).

Definition writeLengthPrefixedBytes (b : bytes) (buf : bytes) (offset : nat) : res (bytes * nat) :=
  buf ← PutUint32 buf offset (u32 (zlen b));
  let offset := (offset + 4)%nat in
  buf ← copy_at offset b buf;
  Ok (buf, (offset + length b)%nat).

Definition writeAddedFile (a : FileMetadata) (keys : addedFileBytes) (buf : bytes) (offset : nat) : res (bytes * nat) :=
  buf ← store offset tagAddFile buf;
  let offset := (offset + 1)%nat in
  buf ← PutUint32 buf offset (Level a);
  let offset := (offset + 4)%nat in
  buf ← PutUint64 buf offset (FileID a);
  let offset := (offset + 8)%nat in
  buf ← PutUint64 buf offset (Size a);
  let offset := (offset + 8)%nat in
  '(buf, offset) ← writeLengthPrefixedBytes (smallest keys) buf offset;
  writeLengthPrefixedBytes (largest keys) buf offset.

Fixpoint write_deleted (ds : list DeletedFile) (buf : bytes) (offset : nat) : res (bytes * nat) :=
  match ds with
  | [] => Ok (buf, offset)
  | d :: ds => '(buf, offset) ← writeDeletedFile d buf offset; write_deleted ds buf offset
  end.

Fixpoint write_added (fs : list (FileMetadata * addedFileBytes)) (buf : bytes) (offset : nat) : res (bytes * nat) :=
  match fs with
  | [] => Ok (buf, offset)
  | (a, keys) :: fs => '(buf, offset) ← writeAddedFile a keys buf offset; write_added fs buf offset
  end.

Definition Encode (e : VersionEdit) : res bytes :=
  addedBytes ← mapM encode_keys (AddedFiles e);
  let buf := replicate (encodedSize e addedBytes) x00 in
  '(buf, offset) ← writeCounterTag tagNextFileID (HasNextFileID e) (NextFileID e) buf 0;
  '(buf, offset) ← writeCounterTag tagLastSequence (HasLastSequence e) (LastSequence e) buf offset;
  '(buf, offset) ← writeCounterTag tagLogNumber (HasLogNumber e) (LogNumber e) buf offset;
  '(buf, offset) ← write_deleted (DeletedFiles e) buf offset;
  '(buf, _) ← write_added (combine (AddedFiles e) addedBytes) buf offset;
  Ok buf.

(** ** Decoding *)
Definition truncated {A} (m : res A) : res A := map_err (fun _ => manifest_error manifest.ErrTruncatedEdit) m.

Definition readLengthPrefixedBytes (r : ByteReader) : res (bytes * ByteReader) :=
  '(n, r) ← truncated (ReadUint32 r);
  if maxLengthPrefixedField <? n then throw manifest.ErrEditFieldTooLarge
  else truncated (ReadBytes n r).

Definition decodeDeletedFile (r : ByteReader) : res (DeletedFile * ByteReader) :=
  '(level, r) ← truncated (ReadUint32 r);
  '(fileID, r) ← truncated (ReadUint64 r);
  Ok (mkDeletedFile level fileID, r).

Definition decodeAddedFile (r : ByteReader) : res (FileMetadata * ByteReader) :=
  '(level, r) ← truncated (ReadUint32 r);
  '(fileID, r) ← truncated (ReadUint64 r);
  '(fileSize, r) ← truncated (ReadUint64 r);
  '(smallestBytes, r) ← readLengthPrefixedBytes r;
  '(largestBytes, r) ← readLengthPrefixedBytes r;
  smallestKey ← map_err (Errorf "beachdb/manifest: decode AddFile smallest key") (DecodeInternalKey smallestBytes);
  largestKey ← map_err (Errorf "beachdb/manifest: decode AddFile largest key") (DecodeInternalKey largestBytes);
  Ok (mkFileMetadata level fileID fileSize smallestKey largestKey, r).

Definition set_NextFileID (v : Z) (e : VersionEdit) : VersionEdit :=
  mkVersionEdit (AddedFiles e) (DeletedFiles e) true v (HasLastSequence e) (LastSequence e) (HasLogNumber e) (LogNumber e).
Definition set_LastSequence (v : Z) (e : VersionEdit) : VersionEdit :=
  mkVersionEdit (AddedFiles e) (DeletedFiles e) (HasNextFileID e) (NextFileID e) true v (HasLogNumber e) (LogNumber e).
Definition set_LogNumber (v : Z) (e : VersionEdit) : VersionEdit :=
  mkVersionEdit (AddedFiles e) (DeletedFiles e) (HasNextFileID e) (NextFileID e) (HasLastSequence e) (LastSequence e) true v.
Definition add_DeletedFile (d : DeletedFile) (e : VersionEdit) : VersionEdit :=
  mkVersionEdit (AddedFiles e) (DeletedFiles e ++ [d]) (HasNextFileID e) (NextFileID e) (HasLastSequence e)
    (LastSequence e) (HasLogNumber e) (LogNumber e).
Definition add_AddedFile (f : FileMetadata) (e : VersionEdit) : VersionEdit :=
  mkVersionEdit (AddedFiles e ++ [f]) (DeletedFiles e) (HasNextFileID e) (NextFileID e) (HasLastSequence e)
    (LastSequence e) (HasLogNumber e) (LogNumber e).

Definition decodeTag (r : ByteReader) (edit : VersionEdit) (tag : byte) : res (VersionEdit * ByteReader) :=
  if decide (tag = tagNextFileID) then
    '(v, r) ← truncated (ReadUint64 r); Ok (set_NextFileID v edit, r)
  else if decide (tag = tagLastSequence) then
    '(v, r) ← truncated (ReadUint64 r); Ok (set_LastSequence v edit, r)
  else if decide (tag = tagLogNumber) then
    '(v, r) ← truncated (ReadUint64 r); Ok (set_LogNumber v edit, r)
  else if decide (tag = tagDeleteFile) then
    '(d, r) ← decodeDeletedFile r; Ok (add_DeletedFile d edit, r)
  else if decide (tag = tagAddFile) then
    '(f, r) ← decodeAddedFile r; Ok (add_AddedFile f edit, r)
  else throw manifest.ErrUnknownTag.

(** Every round consumes a tag, so the data's length bounds the rounds. *)
Fixpoint decode_edit_loop (fuel : nat) (r : ByteReader) (edit : VersionEdit) : res VersionEdit :=
  if Remaining r <=? 0 then Ok edit
  else match fuel with
  | O => Panic
  | S fuel =>
      '(tag, r) ← truncated (ReadByte r);
      '(edit, r) ← decodeTag r edit tag;
      decode_edit_loop fuel r edit
  end.

Definition DecodeVersionEdit (data : bytes) : res VersionEdit :=
  decode_edit_loop (S (length data)) (NewByteReader data) zeroEdit.

(** ** The edit as a sequence of tagged items *)
Inductive item :=
  | INextFileID (v : Z)
  | ILastSequence (v : Z)
  | ILogNumber (v : Z)
  | IDelete (d : DeletedFile)
  | IAdd (f : FileMetadata).

Definition key_field (k : InternalKey) : bytes := be_bytes 4 (u32 (zlen (key_wire k))) ++ key_wire k.

Definition item_wire (i : item) : bytes :=
  match i with
  | INextFileID v => tagNextFileID :: be_bytes 8 v
  | ILastSequence v => tagLastSequence :: be_bytes 8 v
  | ILogNumber v => tagLogNumber :: be_bytes 8 v
  | IDelete d => tagDeleteFile :: be_bytes 4 (d_Level d) ++ be_bytes 8 (d_FileID d)
  | IAdd f => tagAddFile :: be_bytes 4 (Level f) ++ be_bytes 8 (FileID f) ++ be_bytes 8 (Size f) ++
      key_field (SmallestKey f) ++ key_field (LargestKey f)
  end.

Definition items_wire (its : list item) : bytes := mjoin (item_wire <$> its).

Definition apply_item (e : VersionEdit) (i : item) : VersionEdit :=
  match i with
  | INextFileID v => set_NextFileID v e
  | ILastSequence v => set_LastSequence v e
  | ILogNumber v => set_LogNumber v e
  | IDelete d => add_DeletedFile d e
  | IAdd f => add_AddedFile f e
  end.

(** The items [Encode] writes, in its order. *)
Definition items_of (e : VersionEdit) : list item :=
  (if HasNextFileID e then [INextFileID (NextFileID e)] else []) ++
  (if HasLastSequence e then [ILastSequence (LastSequence e)] else []) ++
  (if HasLogNumber e then [ILogNumber (LogNumber e)] else []) ++
  (IDelete <$> DeletedFiles e) ++ (IAdd <$> AddedFiles e).

Definition edit_wire (e : VersionEdit) : bytes := items_wire (items_of e).

Definition wf_edit_key (k : InternalKey) : Prop := wf_key k /\ zlen (key_wire k) <= maxLengthPrefixedField.

Definition wf_item (i : item) : Prop :=
  match i with
  | INextFileID v | ILastSequence v | ILogNumber v => is_u64 v
  | IDelete d => is_u32 (d_Level d) /\ is_u64 (d_FileID d)
  | IAdd f => is_u32 (Level f) /\ is_u64 (FileID f) /\ is_u64 (Size f) /\
      wf_edit_key (SmallestKey f) /\ wf_edit_key (LargestKey f)
  end.

#[export] Instance wf_edit_key_dec k : Decision (wf_edit_key k).
Proof. unfold wf_edit_key. apply _. Defined.
#[export] Instance wf_item_dec i : Decision (wf_item i).
Proof. destruct i; cbn; apply _. Defined.

(** Fields within their width, unset counters zero. *)
Definition wf_edit (e : VersionEdit) : Prop :=
  Forall wf_item (items_of e) /\
  (HasNextFileID e = false -> NextFileID e = 0) /\ (HasLastSequence e = false -> LastSequence e = 0) /\
  (HasLogNumber e = false -> LogNumber e = 0).

(** ** Encoding is the wire format *)

(** A writing step that fills the zeroed buffer with [wire] at the offset it is
    given, and moves the offset past it. *)
Definition fills (step : bytes -> nat -> res (bytes * nat)) (wire : bytes) : Prop :=
  forall pre n, (length wire <= n)%nat ->
    step (pre ++ replicate n x00) (length pre) =
      Ok ((pre ++ wire) ++ replicate (n - length wire) x00, (length pre + length wire)%nat).

Lemma fills_nil : fills (fun buf offset => Ok (buf, offset)) [].
Proof. intros pre n _. by rewrite app_nil_r, Nat.sub_0_r, Nat.add_0_r. Qed.

Lemma fills_bind step1 step2 w1 w2 :
  fills step1 w1 -> fills step2 w2 ->
  fills (fun buf offset => '(buf, offset) ← step1 buf offset; step2 buf offset) (w1 ++ w2).
Proof.
  intros H1 H2 pre n Hn. rewrite length_app in *. rewrite H1 by lia. cbn [mbind result_bind].
  rewrite <-length_app, H2 by lia. rewrite length_app.
  replace (n - length w1 - length w2)%nat with (n - (length w1 + length w2))%nat by lia.
  by rewrite <-!app_assoc, Nat.add_assoc.
Qed.

(** A store followed by the rest of the step, which sees the advanced offset. *)
Lemma fills_store b k w :
  fills k w ->
  fills (fun buf offset => buf ← store offset b buf; let offset := (offset + 1)%nat in k buf offset) ([b] ++ w).
Proof.
  intros Hk pre n Hn. rewrite length_app in *. cbn [length] in *.
  rewrite store_fill by (rewrite ?length_replicate; lia). cbn [mbind result_bind]. rewrite drop_zeros.
  replace (length pre + 1)%nat with (length (pre ++ [b])) by len.
  rewrite Hk by lia. rewrite length_app. cbn [length].
  replace (n - 1 - length w)%nat with (n - (1 + length w))%nat by lia. by rewrite <-!app_assoc, Nat.add_assoc.
Qed.

Lemma fills_put m v k w :
  fills k w ->
  fills (fun buf offset => buf ← put_be m buf offset v; let offset := (offset + m)%nat in k buf offset)
    (be_bytes m v ++ w).
Proof.
  intros Hk pre n Hn. rewrite length_app, length_be_bytes in *.
  rewrite put_be_fill by (rewrite ?length_replicate; lia). cbn [mbind result_bind]. rewrite drop_zeros.
  replace (length pre + m)%nat with (length (pre ++ be_bytes m v)) by (by rewrite length_app, length_be_bytes).
  rewrite Hk by lia. rewrite length_app, length_be_bytes.
  replace (n - m - length w)%nat with (n - (m + length w))%nat by lia. by rewrite <-!app_assoc, Nat.add_assoc.
Qed.

Lemma fills_put_last m v :
  fills (fun buf offset => buf ← put_be m buf offset v; Ok (buf, (offset + m)%nat)) (be_bytes m v).
Proof. rewrite <-(app_nil_r (be_bytes m v)). apply (fills_put m v _ [] fills_nil). Qed.

Lemma fills_copy src : fills (fun buf offset => buf ← copy_at offset src buf; Ok (buf, (offset + length src)%nat)) src.
Proof.
  intros pre n Hn. rewrite copy_at_fill by (rewrite ?length_replicate; lia).
  cbn [mbind result_bind]. by rewrite drop_zeros.
Qed.

Lemma writeCounterTag_fills tag has v :
  fills (writeCounterTag tag has v) (if has then tag :: be_bytes 8 v else []).
Proof.
  destruct has; [|apply fills_nil]. exact (fills_store tag _ _ (fills_put_last 8 v)).
Qed.

Lemma writeDeletedFile_fills d : fills (writeDeletedFile d) (item_wire (IDelete d)).
Proof. exact (fills_store tagDeleteFile _ _ (fills_put 4 _ _ _ (fills_put_last 8 _))). Qed.

Lemma writeLengthPrefixedBytes_fills b :
  fills (writeLengthPrefixedBytes b) (be_bytes 4 (u32 (zlen b)) ++ b).
Proof. exact (fills_put 4 _ _ _ (fills_copy b)). Qed.

Definition wire_keys (f : FileMetadata) : addedFileBytes :=
  mkAddedFileBytes (key_wire (SmallestKey f)) (key_wire (LargestKey f)).

Lemma writeAddedFile_fills f : fills (writeAddedFile f (wire_keys f)) (item_wire (IAdd f)).
Proof.
  exact (fills_store tagAddFile _ _ (fills_put 4 _ _ _ (fills_put 8 _ _ _ (fills_put 8 _ _ _
    (fills_bind _ _ _ _ (writeLengthPrefixedBytes_fills _) (writeLengthPrefixedBytes_fills _)))))).
Qed.

Lemma write_deleted_fills ds : fills (write_deleted ds) (items_wire (IDelete <$> ds)).
Proof.
  induction ds as [|d ds IH]; [apply fills_nil|].
  change (items_wire (IDelete <$> d :: ds)) with (item_wire (IDelete d) ++ items_wire (IDelete <$> ds)).
  cbn [write_deleted]. apply fills_bind; [apply writeDeletedFile_fills|done].
Qed.

Lemma write_added_fills fs : fills (write_added (combine fs (map wire_keys fs))) (items_wire (IAdd <$> fs)).
Proof.
  induction fs as [|f fs IH]; [apply fills_nil|].
  change (items_wire (IAdd <$> f :: fs)) with (item_wire (IAdd f) ++ items_wire (IAdd <$> fs)).
  cbn [write_added map combine]. apply fills_bind; [apply writeAddedFile_fills|done].
Qed.

Lemma mapM_encode_keys fs : mapM encode_keys fs = Ok (map wire_keys fs).
Proof.
  assert (forall f, encode_keys f = Ok (wire_keys f)) as E
    by (intros f; unfold encode_keys; by rewrite !Keys.Encode_wire).
  induction fs as [|f fs IH]; [done|]. cbn -[encode_keys]. by rewrite E, IH.
Qed.

Lemma items_wire_app i1 i2 : items_wire (i1 ++ i2) = items_wire i1 ++ items_wire i2.
Proof. unfold items_wire. by rewrite fmap_app, join_app. Qed.

Lemma edit_wire_alt e :
  edit_wire e =
    (if HasNextFileID e then tagNextFileID :: be_bytes 8 (NextFileID e) else []) ++
    (if HasLastSequence e then tagLastSequence :: be_bytes 8 (LastSequence e) else []) ++
    (if HasLogNumber e then tagLogNumber :: be_bytes 8 (LogNumber e) else []) ++
    items_wire (IDelete <$> DeletedFiles e) ++ items_wire (IAdd <$> AddedFiles e).
Proof.
  unfold edit_wire, items_of. rewrite !items_wire_app.
  by destruct (HasNextFileID e), (HasLastSequence e), (HasLogNumber e).
Qed.

Lemma length_deleted_wire ds : length (items_wire (IDelete <$> ds)) = (length ds * 13)%nat.
Proof.
  induction ds as [|d ds IH]; [done|].
  change (items_wire (IDelete <$> d :: ds)) with (item_wire (IDelete d) ++ items_wire (IDelete <$> ds)).
  rewrite length_app, IH. cbn [item_wire length]. rewrite length_app, !length_be_bytes. lia.
Qed.

Lemma length_key_field k : length (key_field k) = (4 + length (key_wire k))%nat.
Proof. unfold key_field. by rewrite length_app, length_be_bytes. Qed.

Lemma length_added_wire fs :
  length (items_wire (IAdd <$> fs)) =
    foldr (fun b n => (1 + 4 + 8 + 8) + (4 + length (smallest b) + 4 + length (largest b)) + n)%nat 0%nat
      (map wire_keys fs).
Proof.
  induction fs as [|f fs IH]; [done|].
  change (items_wire (IAdd <$> f :: fs)) with (item_wire (IAdd f) ++ items_wire (IAdd <$> fs)).
  rewrite length_app, IH. cbn [item_wire length map foldr smallest largest wire_keys].
  rewrite !length_app, !length_be_bytes, !length_key_field. lia.
Qed.

(** The size pass computes the length of what the write pass writes. *)
Lemma encodedSize_wire e : encodedSize e (map wire_keys (AddedFiles e)) = length (edit_wire e).
Proof.
  rewrite edit_wire_alt, !length_app, length_deleted_wire, length_added_wire. unfold encodedSize.
  destruct (HasNextFileID e), (HasLastSequence e), (HasLogNumber e); cbn [length]; rewrite ?length_be_bytes; lia.
Qed.

Lemma Encode_edit_wire e : Encode e = Ok (edit_wire e).
Proof.
  unfold Encode. rewrite mapM_encode_keys. cbn [mbind result_bind]. rewrite encodedSize_wire.
  pose proof (fills_bind _ _ _ _ (writeCounterTag_fills tagNextFileID (HasNextFileID e) (NextFileID e))
    (fills_bind _ _ _ _ (writeCounterTag_fills tagLastSequence (HasLastSequence e) (LastSequence e))
    (fills_bind _ _ _ _ (writeCounterTag_fills tagLogNumber (HasLogNumber e) (LogNumber e))
    (fills_bind _ _ _ _ (write_deleted_fills (DeletedFiles e)) (write_added_fills (AddedFiles e)))))) as H.
  specialize (H [] (length (edit_wire e))). rewrite <-edit_wire_alt in H. specialize (H ltac:(lia)).
  cbn [app length Nat.add] in H. rewrite Nat.sub_diag in H. cbn [replicate] in H. rewrite app_nil_r in H.
  revert H. generalize (replicate (length (edit_wire e)) x00) as buf. intros buf H.
  destruct (writeCounterTag tagNextFileID _ _ buf 0) as [[b1 o1]| |]; cbn [mbind result_bind] in *; try done.
  destruct (writeCounterTag tagLastSequence _ _ b1 o1) as [[b2 o2]| |]; cbn [mbind result_bind] in *; try done.
  destruct (writeCounterTag tagLogNumber _ _ b2 o2) as [[b3 o3]| |]; cbn [mbind result_bind] in *; try done.
  destruct (write_deleted _ b3 o3) as [[b4 o4]| |]; cbn [mbind result_bind] in *; try done.
  by rewrite H.
Qed.

(** ** Decoding *)
Lemma truncated_Ok {A} (m : res A) a : truncated m = Ok a -> m = Ok a.
Proof. apply map_err_Ok. Qed.

Lemma maxfield_u32 z : 0 <= z <= maxLengthPrefixedField -> is_u32 z.
Proof. unfold maxLengthPrefixedField, is_u32. lia. Qed.

Lemma readLengthPrefixedBytes_wire k r t :
  wf_edit_key k -> wf_reader r -> rest r = key_field k ++ t ->
  readLengthPrefixedBytes r = Ok (key_wire k, advance (length (key_field k)) r).
Proof.
  intros [_ Hl] Hwf Hr. unfold key_field in Hr. rewrite <-app_assoc in Hr.
  assert (is_u32 (zlen (key_wire k))) as Hu by (apply maxfield_u32; split; [apply zlen_nonneg|done]).
  unfold readLengthPrefixedBytes, truncated. rewrite u32_id in Hr by done.
  rewrite (ReadUint32_app _ _ _ Hu Hr). cbn [map_err mbind result_bind].
  rewrite (proj2 (Z.ltb_ge _ _)) by done.
  pose proof (rest_advance_app 4 _ _ _ Hr (length_be_bytes _ _)) as H1.
  pose proof (wf_advance_app 4 _ _ _ Hwf Hr (length_be_bytes _ _)) as W1.
  rewrite (ReadBytes_app _ _ _ _ W1 H1 eq_refl). cbn [map_err].
  rewrite advance_advance. by rewrite length_key_field.
Qed.

(** Read a big-endian integer that is known to be in front of the cursor. *)
Ltac read_int H W :=
  unfold truncated;
  let E := fresh "E" in
  match type of H with
  | rest _ = be_bytes 4 ?v ++ _ => pose proof (ReadUint32_app _ v _ ltac:(assumption) H) as E
  | rest _ = be_bytes 8 ?v ++ _ => pose proof (ReadUint64_app _ v _ ltac:(assumption) H) as E
  end; rewrite E; clear E;
  cbn [map_err mbind result_bind];
  eapply wf_advance_app in W; [|exact H|apply length_be_bytes];
  eapply rest_advance_app in H; [|apply length_be_bytes].

Lemma decodeTag_wire i e r t :
  wf_item i -> wf_reader r -> rest r = tail (item_wire i) ++ t ->
  decodeTag r e (default x00 (head (item_wire i))) =
    Ok (apply_item e i, advance (length (tail (item_wire i))) r).
Proof.
  destruct i as [v|v|v|[l fid]|[l fid sz sk lk]]; cbn [wf_item item_wire tail head from_option id apply_item
    d_Level d_FileID Level FileID Size SmallestKey LargestKey]; intros Hwf W H; unfold decodeTag;
    repeat (first [rewrite decide_True by done | rewrite decide_False by done]).
  1-3: read_int H W; by rewrite length_be_bytes.
  - destruct Hwf as [Hl Hi]. rewrite <-app_assoc in H. unfold decodeDeletedFile. read_int H W. read_int H W.
    by rewrite advance_advance, length_app, !length_be_bytes.
  - destruct Hwf as (Hl & Hi & Hs & Hsk & Hlk). rewrite <-!app_assoc in H. unfold decodeAddedFile.
    read_int H W. read_int H W. read_int H W.
    rewrite (readLengthPrefixedBytes_wire sk _ _ Hsk W H). cbn [mbind result_bind].
    eapply wf_advance_app in W; [|exact H|done]. eapply rest_advance_app in H; [|done].
    rewrite (readLengthPrefixedBytes_wire lk _ _ Hlk W H). cbn [mbind result_bind].
    rewrite (DecodeInternalKey_wire sk) by apply Hsk. cbn [map_err mbind result_bind].
    rewrite (DecodeInternalKey_wire lk) by apply Hlk. cbn [map_err mbind result_bind].
    rewrite !advance_advance, !length_app, !length_be_bytes. do 3 f_equal.
Qed.

Lemma item_wire_cons i : item_wire i = default x00 (head (item_wire i)) :: tail (item_wire i).
Proof. by destruct i. Qed.

Lemma item_wire_pos i : (0 < length (item_wire i))%nat.
Proof. rewrite item_wire_cons. cbn. lia. Qed.

(** The loop over a prefix of well-formed items. *)
Lemma decode_edit_loop_prefix its fuel r e t :
  Forall wf_item its -> wf_reader r -> rest r = items_wire its ++ t ->
  exists r', wf_reader r' /\ rest r' = t /\
    decode_edit_loop (length its + fuel) r e = decode_edit_loop fuel r' (foldl apply_item e its).
Proof.
  revert r e. induction its as [|i its IH]; intros r e Hits W H; [by exists r|]. cbn [length Nat.add].
  change (items_wire (i :: its)) with (item_wire i ++ items_wire its) in H. rewrite <-app_assoc in H.
  rewrite item_wire_cons in H. cbn [decode_edit_loop]. rewrite Remaining_pos by done.
  rewrite bool_decide_false by (by rewrite H).
  apply Forall_cons in Hits as [Hi Hits].
  unfold truncated. rewrite (ReadByte_app _ _ _ H). cbn [map_err mbind result_bind].
  eapply (wf_advance_app 1 _ [_]) in W; [|exact H|done].
  eapply (rest_advance_app 1 _ [_]) in H; [|done].
  rewrite (decodeTag_wire i e _ _ Hi W H). cbn [mbind result_bind foldl].
  apply IH; [done|by eapply wf_advance_app|by eapply rest_advance_app].
Qed.

Lemma decode_edit_loop_wire its fuel r e :
  Forall wf_item its -> wf_reader r -> rest r = items_wire its -> (length its < fuel)%nat ->
  decode_edit_loop fuel r e = Ok (foldl apply_item e its).
Proof.
  intros Hits W H Hf. rewrite <-(app_nil_r (items_wire its)) in H.
  destruct (decode_edit_loop_prefix its (S (fuel - length its - 1)) r e [] Hits W H) as (r' & W' & H' & E).
  replace (length its + S (fuel - length its - 1))%nat with fuel in E by lia.
  rewrite E. cbn [decode_edit_loop]. rewrite Remaining_pos by done. by rewrite bool_decide_true.
Qed.

Lemma foldl_items_of e : wf_edit e -> foldl apply_item zeroEdit (items_of e) = e.
Proof.
  intros (_ & H1 & H2 & H3). unfold items_of. rewrite !foldl_app.
  assert (forall ds a, foldl apply_item a (IDelete <$> ds) =
    mkVersionEdit (AddedFiles a) (DeletedFiles a ++ ds) (HasNextFileID a) (NextFileID a) (HasLastSequence a)
      (LastSequence a) (HasLogNumber a) (LogNumber a)) as Hd.
  { induction ds as [|d ds IH]; intros a; cbn; [rewrite app_nil_r; by destruct a|].
    rewrite IH. cbn. by rewrite <-app_assoc. }
  assert (forall fs a, foldl apply_item a (IAdd <$> fs) =
    mkVersionEdit (AddedFiles a ++ fs) (DeletedFiles a) (HasNextFileID a) (NextFileID a) (HasLastSequence a)
      (LastSequence a) (HasLogNumber a) (LogNumber a)) as Ha.
  { induction fs as [|f fs IH]; intros a; cbn; [rewrite app_nil_r; by destruct a|].
    rewrite IH. cbn. by rewrite <-app_assoc. }
  rewrite Hd, Ha. destruct e as [af df hn n hs s hl l]. cbn in *.
  destruct hn, hs, hl; cbn; rewrite ?H1, ?H2, ?H3 by done; done.
Qed.

Lemma length_items_of e : (length (items_of e) <= length (edit_wire e))%nat.
Proof. apply length_wires, item_wire_pos. Qed.

Lemma DecodeVersionEdit_wire e : wf_edit e -> DecodeVersionEdit (edit_wire e) = Ok e.
Proof.
  intros Hwf. unfold DecodeVersionEdit. rewrite (decode_edit_loop_wire (items_of e)).
  - by rewrite foldl_items_of.
  - apply Hwf.
  - apply wf_new.
  - apply rest_new.
  - pose proof (length_items_of e). lia.
Qed.

(** ** What decodes is a sequence of well-formed items *)
Lemma readLengthPrefixedBytes_sound r b r' :
  readLengthPrefixedBytes r = Ok (b, r') ->
  zlen b <= maxLengthPrefixedField /\ consumed r (be_bytes 4 (u32 (zlen b)) ++ b) r'.
Proof.
  unfold readLengthPrefixedBytes. intros H. apply bind_Ok in H as ([n r1] & E1%truncated_Ok & H).
  destruct (_ <? n) eqn:En; [done|]. zb. apply truncated_Ok in H.
  apply ReadUint32_consumed in E1 as [E1 Hn]. apply ReadBytes_consumed in H as [H <-]; [|apply Hn].
  rewrite u32_id by done. eauto with beach.
Qed.

Lemma consumed_tag r b r1 e r2 : ReadByte r = Ok (b, r1) -> consumed r1 e r2 -> consumed r (b :: e) r2.
Proof. intros H%ReadByte_consumed. by apply consumed_cons. Qed.

Lemma decodeTag_sound r e tag e' r' :
  decodeTag r e tag = Ok (e', r') ->
  exists i, wf_item i /\ e' = apply_item e i /\ item_wire i = tag :: tail (item_wire i) /\
    consumed r (tail (item_wire i)) r'.
Proof.
  unfold decodeTag. intros H.
  case_decide as Ht; [|case_decide as Ht2; [|case_decide as Ht3; [|case_decide as Ht4; [|case_decide as Ht5; [|done]]]]];
    subst tag.
  - apply bind_Ok in H as ([v r1] & E%truncated_Ok & H). injection H as <- <-.
    apply ReadUint64_consumed in E as [E Hv]. by exists (INextFileID v).
  - apply bind_Ok in H as ([v r1] & E%truncated_Ok & H). injection H as <- <-.
    apply ReadUint64_consumed in E as [E Hv]. by exists (ILastSequence v).
  - apply bind_Ok in H as ([v r1] & E%truncated_Ok & H). injection H as <- <-.
    apply ReadUint64_consumed in E as [E Hv]. by exists (ILogNumber v).
  - apply bind_Ok in H as ([d r1] & E & H). injection H as <- <-. unfold decodeDeletedFile in E.
    apply bind_Ok in E as ([l r2] & E1%truncated_Ok & E). apply bind_Ok in E as ([id r3] & E2%truncated_Ok & E).
    injection E as <- <-. apply ReadUint32_consumed in E1 as [E1 Hl]. apply ReadUint64_consumed in E2 as [E2 Hi].
    exists (IDelete (mkDeletedFile l id)). cbn. split_and!; eauto with beach.
  - apply bind_Ok in H as ([f r1] & E & H). injection H as <- <-. unfold decodeAddedFile in E.
    apply bind_Ok in E as ([l r2] & E1%truncated_Ok & E). apply bind_Ok in E as ([id r3] & E2%truncated_Ok & E).
    apply bind_Ok in E as ([sz r4] & E3%truncated_Ok & E). apply bind_Ok in E as ([sb r5] & E4 & E).
    apply bind_Ok in E as ([lb r6] & E5 & E). apply bind_Ok in E as (sk & E6%map_err_Ok & E).
    apply bind_Ok in E as (lk & E7%map_err_Ok & E). injection E as <- <-.
    apply ReadUint32_consumed in E1 as [E1 Hl]. apply ReadUint64_consumed in E2 as [E2 Hi].
    apply ReadUint64_consumed in E3 as [E3 Hs].
    apply readLengthPrefixedBytes_sound in E4 as [Hsb E4]. apply readLengthPrefixedBytes_sound in E5 as [Hlb E5].
    apply DecodeInternalKey_sound in E6 as [Hsk ->]. apply DecodeInternalKey_sound in E7 as [Hlk ->].
    exists (IAdd (mkFileMetadata l id sz sk lk)). cbn. unfold wf_edit_key.
    split_and!; try done. eauto 10 using consumed_trans.
Qed.

Lemma decode_edit_loop_sound fuel r e e' :
  wf_reader r -> decode_edit_loop fuel r e = Ok e' ->
  exists its, Forall wf_item its /\ e' = foldl apply_item e its /\ rest r = items_wire its.
Proof.
  revert r e. induction fuel as [|fuel IH]; intros r e W; cbn [decode_edit_loop];
    rewrite Remaining_pos by done; case_bool_decide as Hr; intros H; simplify_eq.
  1, 2: by exists [].
  apply bind_Ok in H as ([tag r1] & E1%truncated_Ok & H). apply bind_Ok in H as ([e1 r2] & E2 & H).
  apply decodeTag_sound in E2 as (i & Hi & -> & Ew & E2).
  pose proof (consumed_tag _ _ _ _ _ E1 E2) as [_ Hc Hw]. rewrite <-Ew in Hc.
  apply IH in H as (its & Hits & -> & Hr2); [|auto].
  exists (i :: its). split_and!; [by constructor|done|].
  change (items_wire (i :: its)) with (item_wire i ++ items_wire its). by rewrite Hc, Hr2.
Qed.

Lemma apply_item_wf e i : wf_edit e -> wf_item i -> wf_edit (apply_item e i).
Proof.
  intros (He & H1 & H2 & H3) Hi. unfold wf_edit, items_of in *. rewrite !Forall_app in *.
  destruct He as (F1 & F2 & F3 & F4 & F5).
  destruct i; cbn; rewrite ?fmap_app, ?Forall_app; cbn; rewrite ?Forall_singleton; split_and!; try done;
    by apply Forall_singleton.
Qed.

Lemma zeroEdit_wf : wf_edit zeroEdit.
Proof. split; [constructor|done]. Qed.

Lemma DecodeVersionEdit_sound data e :
  DecodeVersionEdit data = Ok e ->
  wf_edit e /\ exists its, Forall wf_item its /\ data = items_wire its /\ e = foldl apply_item zeroEdit its.
Proof.
  intros H. apply decode_edit_loop_sound in H as (its & Hits & -> & Hd); [|apply wf_new].
  rewrite rest_new in Hd. split; [|by exists its].
  clear Hd. pose proof zeroEdit_wf as Hz. revert Hz. generalize zeroEdit.
  induction Hits as [|i its Hi Hits IH]; intros e He; cbn; [done|]. apply IH. by apply apply_item_wf.
Qed.

(** ** Totality *)
Definition edit_error (e : error) : Prop :=
  e = manifest.ErrTruncatedEdit \/ e = manifest.ErrUnknownTag \/ e = manifest.ErrEditFieldTooLarge \/
  exists msg, e = Errorf msg keys.ErrCorruptInternalKey.

Lemma edit_errors :
  edit_error manifest.ErrTruncatedEdit /\ edit_error manifest.ErrUnknownTag /\
  edit_error manifest.ErrEditFieldTooLarge.
Proof. unfold edit_error. naive_solver. Qed.
#[local] Hint Extern 1 (edit_error _) => apply edit_errors : beach.

Ltac safe_field :=
  unfold truncated; safe_read.

Lemma readLengthPrefixedBytes_safe r : safe edit_error (readLengthPrefixedBytes r).
Proof.
  unfold readLengthPrefixedBytes. safe_field. destruct (_ <? _); [auto with beach|].
  apply safe_map_err; [auto with beach|read_total].
Qed.

Lemma DecodeInternalKey_edit_safe msg data :
  safe edit_error (map_err (Errorf msg) (DecodeInternalKey data)).
Proof.
  destruct (DecodeInternalKey_total data) as [->|[k ->]]; cbn [map_err]; [|auto with beach].
  apply safe_err. unfold edit_error. eauto 6.
Qed.

Lemma decodeTag_safe r e tag : safe edit_error (decodeTag r e tag).
Proof.
  unfold decodeTag, decodeDeletedFile, decodeAddedFile. repeat case_decide.
  1-3: safe_field; auto with beach.
  - apply safe_bind; [|intros [d r'] _; auto with beach]. safe_field. safe_field. auto with beach.
  - apply safe_bind; [|intros [f r'] _; auto with beach]. safe_field. safe_field. safe_field.
    apply safe_bind; [apply readLengthPrefixedBytes_safe|]. intros [sb r4] _.
    apply safe_bind; [apply readLengthPrefixedBytes_safe|]. intros [lb r5] _.
    apply safe_bind; [apply DecodeInternalKey_edit_safe|]. intros sk _.
    apply safe_bind; [apply DecodeInternalKey_edit_safe|]. auto with beach.
  - auto with beach.
Qed.

Lemma decode_edit_loop_safe fuel r e :
  (length (rest r) < fuel)%nat -> wf_reader r -> safe edit_error (decode_edit_loop fuel r e).
Proof.
  revert r e. induction fuel as [|fuel IH]; intros r e Hl W; [lia|]. cbn [decode_edit_loop].
  destruct (_ <=? 0); [auto with beach|]. unfold truncated.
  apply safe_bind; [apply safe_map_err; [auto with beach|read_total]|]. intros [tag r1] E1%map_err_Ok.
  apply safe_bind; [apply decodeTag_safe|]. intros [e' r2] E2.
  apply decodeTag_sound in E2 as (i & _ & _ & Ew & E2).
  pose proof (consumed_tag _ _ _ _ _ E1 E2) as Hc. apply IH; [|by apply Hc].
  apply consumed_length in Hc. cbn [length] in Hc. lia.
Qed.

Lemma DecodeVersionEdit_safe data : safe edit_error (DecodeVersionEdit data).
Proof. apply decode_edit_loop_safe; [rewrite rest_new; lia|apply wf_new]. Qed.

(** ** Keys above the cap *)
Lemma decodeTag_large_key f e r t :
  is_u32 (Level f) -> is_u64 (FileID f) -> is_u64 (Size f) ->
  maxLengthPrefixedField < u32 (zlen (key_wire (SmallestKey f))) ->
  wf_reader r -> rest r = tail (item_wire (IAdd f)) ++ t ->
  decodeTag r e tagAddFile = throw manifest.ErrEditFieldTooLarge.
Proof.
  intros Hl Hi Hs Hk W H. cbn [item_wire tail] in H. rewrite <-!app_assoc in H. unfold decodeTag.
  rewrite !decide_False, decide_True by done. unfold decodeAddedFile.
  read_int H W. read_int H W. read_int H W.
  unfold readLengthPrefixedBytes. unfold key_field in H. rewrite <-!app_assoc in H.
  assert (is_u32 (u32 (zlen (key_wire (SmallestKey f))))) by apply u32_range. read_int H W.
  by rewrite (proj2 (Z.ltb_lt _ _)).
Qed.

Lemma items_of_split e fs f gs :
  AddedFiles e = fs ++ f :: gs ->
  exists its, items_of e = (its ++ (IAdd <$> fs)) ++ IAdd f :: (IAdd <$> gs) /\
    (Forall wf_item (items_of (mkVersionEdit fs (DeletedFiles e) (HasNextFileID e) (NextFileID e)
       (HasLastSequence e) (LastSequence e) (HasLogNumber e) (LogNumber e))) -> Forall wf_item (its ++ (IAdd <$> fs))).
Proof.
  intros E. unfold items_of. rewrite E, fmap_app. cbn [AddedFiles DeletedFiles HasNextFileID NextFileID
    HasLastSequence LastSequence HasLogNumber LogNumber].
  exists ((if HasNextFileID e then [INextFileID (NextFileID e)] else []) ++
    (if HasLastSequence e then [ILastSequence (LastSequence e)] else []) ++
    (if HasLogNumber e then [ILogNumber (LogNumber e)] else []) ++ (IDelete <$> DeletedFiles e)).
  rewrite <-!app_assoc. split; [done|]. by rewrite <-?app_assoc.
Qed.

(** ** Properties *)

(** C25: round trip of version edits.  Every edit whose fields are
    within their width, whose keys are at most 64 KiB encoded and whose unset
    counters are zero encodes into exactly [encodedSize] bytes, and decodes back
    to itself, additions, deletions and counters in order. *)
Theorem edit_roundtrip (e : VersionEdit) :
  wf_edit e ->
  exists data, Encode e = Ok data /\ DecodeVersionEdit data = Ok e /\
    length data = encodedSize e (map wire_keys (AddedFiles e)).
Proof.
  intros Hwf. exists (edit_wire e). split_and!.
  - apply Encode_edit_wire.
  - by apply DecodeVersionEdit_wire.
  - by rewrite encodedSize_wire.
Qed.

Definition sample_edit : VersionEdit :=
  mkVersionEdit
    [mkFileMetadata 1 7 4096 (mkInternalKey [x61] 9 InternalKeyKindPut) (mkInternalKey [x7a] 3 InternalKeyKindDelete)]
    [mkDeletedFile 0 3] true 8 true 9 false 0.

Lemma sample_edit_wf : wf_edit sample_edit.
Proof. split; [apply (bool_decide_unpack _); vm_compute; exact I|done]. Qed.

Lemma edit_roundtrip_witness :
  exists data, Encode sample_edit = Ok data /\ DecodeVersionEdit data = Ok sample_edit /\
    length data = encodedSize sample_edit (map wire_keys (AddedFiles sample_edit)).
Proof. apply (edit_roundtrip sample_edit). exact sample_edit_wf. Defined.

(** Decoding edits is total and canonical.  On every byte string
    [DecodeVersionEdit] returns one of its errors (truncated, unknown tag, field
    too large, or the wrapped [ErrCorruptInternalKey]), or an edit with all fields
    in range that is the result of applying the tagged fields the bytes consist
    of, in order, and that survives being encoded and decoded again; it never
    panics and its loop ends. *)
Theorem edit_decode_total (data : bytes) :
  (exists e, DecodeVersionEdit data = Ok e /\ wf_edit e /\
     (exists its, Forall wf_item its /\ data = items_wire its /\ e = foldl apply_item zeroEdit its) /\
     exists data', Encode e = Ok data' /\ DecodeVersionEdit data' = Ok e) \/
  (exists e, DecodeVersionEdit data = Err e /\ edit_error e).
Proof.
  destruct (DecodeVersionEdit_safe data) as [[e E]|(e & E & He)]; [left|right; by exists e].
  exists e. apply DecodeVersionEdit_sound in E as Hs. destruct Hs as [Hwf Hits].
  split_and!; [exact E|exact Hwf|exact Hits|]. exists (edit_wire e).
  split; [apply Encode_edit_wire|by apply DecodeVersionEdit_wire].
Qed.

(** [Encode] writes edits [DecodeVersionEdit] refuses.  The
    encoder has no cap on keys, the decoder has one of 64 KiB: an edit that adds
    a file whose smallest key is longer than that (a user key above 65527 bytes)
    is encoded without complaint and never decodes again. *)
Theorem edit_large_key_unreadable (e : VersionEdit) (fs gs : list FileMetadata) (f : FileMetadata) :
  AddedFiles e = fs ++ f :: gs ->
  wf_edit (mkVersionEdit fs (DeletedFiles e) (HasNextFileID e) (NextFileID e)
    (HasLastSequence e) (LastSequence e) (HasLogNumber e) (LogNumber e)) ->
  is_u32 (Level f) -> is_u64 (FileID f) -> is_u64 (Size f) ->
  maxLengthPrefixedField < u32 (zlen (key_wire (SmallestKey f))) ->
  exists data, Encode e = Ok data /\ DecodeVersionEdit data = throw manifest.ErrEditFieldTooLarge.
Proof.
  intros Ea [Hwf _] Hl Hi Hs Hk. exists (edit_wire e). split; [apply Encode_edit_wire|].
  destruct (items_of_split e fs f gs Ea) as (its & Eit & Hits). specialize (Hits Hwf).
  unfold edit_wire, DecodeVersionEdit. rewrite Eit, items_wire_app.
  set (pre := its ++ (IAdd <$> fs)) in *. set (d := items_wire pre ++ items_wire (IAdd f :: (IAdd <$> gs))).
  assert (S (length d) = length pre + S (length d - length pre))%nat as ->.
  { pose proof (length_wires item_wire item_wire_pos pre) as H. fold (items_wire pre) in H.
    unfold d. rewrite length_app. lia. }
  destruct (decode_edit_loop_prefix pre (S (length d - length pre)) (NewByteReader d) zeroEdit
    (items_wire (IAdd f :: (IAdd <$> gs))) Hits) as (r' & W' & H' & ->); [apply wf_new|apply rest_new|].
  change (items_wire (IAdd f :: (IAdd <$> gs))) with (item_wire (IAdd f) ++ items_wire (IAdd <$> gs)) in H'.
  rewrite item_wire_cons in H'. cbn [decode_edit_loop]. rewrite Remaining_pos, bool_decide_false by (done || by rewrite H').
  unfold truncated. rewrite (ReadByte_app _ _ _ H'). cbn [map_err mbind result_bind].
  eapply (wf_advance_app 1 _ [_]) in W'; [|exact H'|done].
  eapply (rest_advance_app 1 _ [_]) in H'; [|done].
  change (default x00 (head (item_wire (IAdd f)))) with tagAddFile.
  by rewrite (decodeTag_large_key f _ _ _ Hl Hi Hs Hk W' H').
Qed.

Definition long_key : InternalKey := mkInternalKey (replicate 65528 x61) 1 InternalKeyKindPut.

Lemma edit_large_key_unreadable_witness :
  exists data,
    Encode (mkVersionEdit [mkFileMetadata 0 1 70000 long_key long_key] [] true 2 true 1 false 0) = Ok data /\
    DecodeVersionEdit data = throw manifest.ErrEditFieldTooLarge.
Proof.
  apply (edit_large_key_unreadable _ [] [] (mkFileMetadata 0 1 70000 long_key long_key)).
  - reflexivity.
  - split; [apply (bool_decide_unpack _); vm_compute; exact I|done].
  - cbn. unfold is_u32. lia.
  - cbn. unfold is_u64. lia.
  - cbn. unfold is_u64. lia.
  - vm_compute. reflexivity.
Defined.
