(* ===== verification/Version.v ===== *)
(** * Versions (internal/manifest/version.go)

    A version is the set of live SSTables, level by level, and [Apply] folds an
    edit into it.  Go's [slices.SortFunc] and the iteration order over the map
    of touched levels are not determined by the language, so both are
    parameters: the first a sort with the laws of its documentation, the second
    any enumeration of the touched levels. *)
From S2P Require Import Prelude.
From S2P Require Import Errors.
From S2P Require Import Keys.
From S2P Require Import GoSort.
From S2P Require Import Edit.

Local Open Scope Z_scope.

(** ** Versions *)
Record Version := mkVersion { files : list (list FileMetadata) }.

Definition NewVersion (capacity : Z) : Version := mkVersion [].

Definition Clone (v : Version) : Version := mkVersion (files v).

Definition set_level (level : Z) (fs : list FileMetadata) (v : Version) : Version :=
  mkVersion (<[Z.to_nat level := fs]> (files v)).

(** Deleting the first file with the given ID, if any. *)
Fixpoint delete_first (fileID : Z) (fs : list FileMetadata) : list FileMetadata :=
  match fs with
  | [] => []
  | fm :: fs => if FileID fm =? fileID then fs else fm :: delete_first fileID fs
  end.

(** The body of the loop over [edit.DeletedFiles]; a level past the end is
    skipped. *)
Definition apply_deleted (v : Version) (d : DeletedFile) : Version :=
  let level := d_Level d in
  match files v !! Z.to_nat level with
  | None => v
  | Some fs => set_level level (delete_first (d_FileID d) fs) v
  end.

(** [for int(level) >= len(files) { files = append(files, nil) }]. *)
Definition grow (level : Z) (v : Version) : Version :=
  mkVersion (files v ++ replicate (S (Z.to_nat level) - length (files v)) []).

(** The body of the loop over [edit.AddedFiles]. *)
Definition apply_added (v : Version) (a : FileMetadata) : Version :=
  let v := grow (Level a) v in
  set_level (Level a) (default [] (files v !! Z.to_nat (Level a)) ++ [a]) v.

Definition touched (edit : VersionEdit) : gset Z :=
  list_to_set (d_Level <$> DeletedFiles edit) ∪ list_to_set (Level <$> AddedFiles edit).

Definition by_smallest (a b : FileMetadata) : Z := Compare (SmallestKey a) (SmallestKey b).

Definition Files (level : Z) (v : Version) : list FileMetadata :=
  default [] (files v !! Z.to_nat level).

Definition AllFiles (v : Version) : list FileMetadata := mjoin (files v).

Definition NumLevels (v : Version) : nat := length (files v).

Section Apply.
Context {slices : Slices}.

Definition sortFilesAt (level : Z) (v : Version) : Version :=
  match files v !! Z.to_nat level with
  | None => v
  | Some fs => set_level level (SortFunc fs by_smallest) v
  end.

(** The body of the loop over the touched levels. *)
Definition sort_touched (v : Version) (level : Z) : Version :=
  if level =? 0 then v else sortFilesAt level v.

Definition Apply (v : Version) (edit : VersionEdit) : Version :=
  let newVersion := Clone v in
  let newVersion := foldl apply_deleted newVersion (DeletedFiles edit) in
  let newVersion := foldl apply_added newVersion (AddedFiles edit) in
  foldl sort_touched newVersion (range_map (touched edit)).
End Apply.

(** ** The files of one level

    What each loop does to level [l], for levels in range. *)
Definition deleted_at (l : Z) (ds : list DeletedFile) : list Z :=
  d_FileID <$> filter (fun d => d_Level d = l) ds.

Definition added_at (l : Z) (fs : list FileMetadata) : list FileMetadata :=
  filter (fun f => Level f = l) fs.

Definition level_after (l : Z) (edit : VersionEdit) (fs : list FileMetadata) : list FileMetadata :=
  foldl (fun fs id => delete_first id fs) fs (deleted_at l (DeletedFiles edit)) ++ added_at l (AddedFiles edit).

Lemma Files_set_level l l' fs v :
  0 <= l -> 0 <= l' -> (Z.to_nat l' < length (files v))%nat ->
  Files l (set_level l' fs v) = if decide (l = l') then fs else Files l v.
Proof.
  intros Hl Hl' Hlt. unfold Files, set_level. cbn [files]. case_decide as E.
  - subst. by rewrite list_lookup_insert_eq by done.
  - by rewrite list_lookup_insert_ne by lia.
Qed.

Lemma Files_apply_deleted l d v :
  0 <= l -> 0 <= d_Level d ->
  Files l (apply_deleted v d) = if decide (d_Level d = l) then delete_first (d_FileID d) (Files l v) else Files l v.
Proof.
  intros Hl Hd. unfold apply_deleted. destruct (files v !! _) as [fs|] eqn:E.
  - rewrite Files_set_level by (by eauto using lookup_lt_Some). unfold Files.
    case_decide; case_decide; try congruence. subst. by rewrite E.
  - case_decide; [|done]. subst. unfold Files. by rewrite E.
Qed.

Lemma Files_grow l l' v : Files l (grow l' v) = Files l v.
Proof.
  unfold Files, grow. cbn [files]. destruct (decide (Z.to_nat l < length (files v))%nat) as [H|H].
  - by rewrite lookup_app_l by done.
  - rewrite lookup_app_r by lia. rewrite (lookup_ge_None_2 (files v)) by lia.
    destruct (_ !! _) as [x|] eqn:E; [|done]. by apply lookup_replicate in E as [-> _].
Qed.

Lemma NumLevels_grow l v : NumLevels (grow l v) = Nat.max (NumLevels v) (S (Z.to_nat l)).
Proof. unfold NumLevels, grow. cbn. rewrite length_app, length_replicate. lia. Qed.

Lemma Files_apply_added l a v :
  0 <= l -> 0 <= Level a ->
  Files l (apply_added v a) = if decide (Level a = l) then Files l v ++ [a] else Files l v.
Proof.
  intros Hl Ha. unfold apply_added.
  rewrite Files_set_level, !Files_grow;
    [|done|done|pose proof (NumLevels_grow (Level a) v); unfold NumLevels in *; lia].
  change (default [] (files (grow (Level a) v) !! Z.to_nat (Level a))) with (Files (Level a) (grow (Level a) v)).
  rewrite Files_grow. case_decide; case_decide; congruence.
Qed.

Lemma Files_delete_loop l ds v :
  0 <= l -> Forall (fun d => 0 <= d_Level d) ds ->
  Files l (foldl apply_deleted v ds) = foldl (fun fs id => delete_first id fs) (Files l v) (deleted_at l ds).
Proof.
  intros Hl. revert v. induction ds as [|d ds IH]; intros v Hd; [done|]. apply Forall_cons in Hd as [Hd Hds].
  cbn [foldl]. rewrite IH, Files_apply_deleted by done. unfold deleted_at.
  case_decide; [rewrite filter_cons_True by done|rewrite filter_cons_False by done]; done.
Qed.

Lemma Files_add_loop l fs v :
  0 <= l -> Forall (fun f => 0 <= Level f) fs ->
  Files l (foldl apply_added v fs) = Files l v ++ added_at l fs.
Proof.
  intros Hl. revert v. induction fs as [|f fs IH]; intros v Hf; [cbn; by rewrite app_nil_r|].
  apply Forall_cons in Hf as [Hf Hfs]. cbn [foldl]. rewrite IH, Files_apply_added by done. unfold added_at.
  case_decide; [rewrite filter_cons_True by done|rewrite filter_cons_False by done]; [|done].
  by rewrite <-app_assoc.
Qed.

(** Levels and IDs in the range the code's types give them. *)
Definition edit_levels (edit : VersionEdit) : Prop :=
  Forall (fun d => 0 <= d_Level d) (DeletedFiles edit) /\ Forall (fun f => 0 <= Level f) (AddedFiles edit).

#[export] Instance edit_levels_dec e : Decision (edit_levels e).
Proof. unfold edit_levels. apply _. Defined.

Section ApplyFacts.
Context {slices : Slices} {slices_laws : SlicesLaws}.

Lemma by_smallest_order : weak_order by_smallest.
Proof.
  unfold by_smallest. split.
  - intros a b. rewrite (Compare_antisym (SmallestKey a)). lia.
  - intros a b c Hab Hbc. change (kle (SmallestKey a) (SmallestKey c)).
    apply kle_not_klt. intros H. change (kle (SmallestKey b) (SmallestKey c)) in Hbc.
    rewrite kle_not_klt in Hbc. apply Hbc. by eapply klt_kle_trans.
Qed.

Lemma Files_sort_touched l k v :
  0 <= l -> 0 <= k ->
  Files l (sort_touched v k) =
    if decide (l = k /\ k <> 0) then SortFunc (Files l v) by_smallest else Files l v.
Proof using slices_laws.
  intros Hl Hk. unfold sort_touched, sortFilesAt. destruct (Z.eqb_spec k 0) as [E0|E0].
  { by rewrite decide_False by tauto. }
  destruct (files v !! Z.to_nat k) as [fs|] eqn:E.
  - rewrite Files_set_level by (by eauto using lookup_lt_Some). unfold Files.
    case_decide as E1; case_decide as E2; try tauto. subst. by rewrite E.
  - case_decide as E1; [|done]. destruct E1 as [-> _]. unfold Files. rewrite E. cbn.
    pose proof (SortFunc_perm (@nil FileMetadata) by_smallest) as Hp.
    by apply Permutation_nil_r in Hp as ->.
Qed.

Lemma Files_sort_loop l ks v :
  0 <= l -> Forall (fun k => 0 <= k) ks -> NoDup ks ->
  Files l (foldl sort_touched v ks) =
    if decide (l ∈ ks /\ l <> 0) then SortFunc (Files l v) by_smallest else Files l v.
Proof using slices_laws.
  intros Hl. revert v. induction ks as [|k ks IH]; intros v Hk Hnd.
  { rewrite decide_False; [done|]. intros [H _]. by apply not_elem_of_nil in H. }
  apply Forall_cons in Hk as [Hk Hks]. apply NoDup_cons in Hnd as [Hnk Hnd]. cbn [foldl].
  rewrite IH by done. rewrite Files_sort_touched by done.
  destruct (decide (l = k)) as [->|Hne].
  - rewrite (decide_False (P := k ∈ ks /\ _)) by tauto.
    destruct (decide (k = 0)); [by rewrite !decide_False by tauto|].
    by rewrite !decide_True by (split; [done || (by left)|done]).
  - rewrite (decide_False (P := l = k /\ _)) by tauto.
    apply decide_ext. rewrite elem_of_cons. tauto.
Qed.

Lemma elem_of_touched l edit :
  l ∈ touched edit <-> deleted_at l (DeletedFiles edit) <> [] \/ added_at l (AddedFiles edit) <> [].
Proof.
  unfold touched, deleted_at, added_at.
  rewrite elem_of_union, !elem_of_list_to_set, !list_elem_of_fmap.
  split; (intros [H|H]; [left|right]).
  - destruct H as (d & -> & Hd). intros E. apply fmap_nil_inv in E.
    assert (d ∈ filter (fun x => d_Level x = d_Level d) (DeletedFiles edit)) as Hin
      by (by apply list_elem_of_filter). rewrite E in Hin. by apply not_elem_of_nil in Hin.
  - destruct H as (d & -> & Hd). intros E.
    assert (d ∈ filter (fun x => Level x = Level d) (AddedFiles edit)) as Hin
      by (by apply list_elem_of_filter). rewrite E in Hin. by apply not_elem_of_nil in Hin.
  - destruct (filter _ _) as [|d ds] eqn:E; [done|]. exists d.
    assert (d ∈ filter (fun x => d_Level x = l) (DeletedFiles edit)) as Hin by (rewrite E; by left).
    by apply list_elem_of_filter in Hin as [<- ?].
  - destruct (filter _ _) as [|d ds] eqn:E; [done|]. exists d.
    assert (d ∈ filter (fun x => Level x = l) (AddedFiles edit)) as Hin by (rewrite E; by left).
    by apply list_elem_of_filter in Hin as [<- ?].
Qed.

Lemma touched_nonneg edit : edit_levels edit -> Forall (fun k => 0 <= k) (elements (touched edit)).
Proof.
  intros [Hd Ha]. apply Forall_forall. intros l Hl. apply elem_of_elements in Hl.
  unfold touched in Hl. rewrite elem_of_union, !elem_of_list_to_set, !list_elem_of_fmap in Hl.
  destruct Hl as [(d & -> & Hin)|(f & -> & Hin)];
    [exact (proj1 (Forall_forall _ _) Hd d Hin)|exact (proj1 (Forall_forall _ _) Ha f Hin)].
Qed.

(** The whole of [Apply], level by level. *)
Lemma Files_Apply l v edit :
  0 <= l -> edit_levels edit ->
  Files l (Apply v edit) =
    if decide (l ∈ touched edit /\ l <> 0)
    then SortFunc (level_after l edit (Files l v)) by_smallest
    else level_after l edit (Files l v).
Proof using slices_laws.
  intros Hl He. unfold Apply, Clone.
  rewrite Files_sort_loop; [|done|by rewrite range_map_perm; apply touched_nonneg
    |rewrite range_map_perm; apply NoDup_elements].
  destruct He as [Hd Ha]. rewrite Files_add_loop, Files_delete_loop by done. unfold level_after.
  change (Files l (mkVersion (files v))) with (Files l v). apply decide_ext.
  by rewrite range_map_perm, elem_of_elements.
Qed.

Lemma level_after_untouched l edit fs : l ∉ touched edit -> level_after l edit fs = fs.
Proof.
  intros H. unfold level_after.
  destruct (deleted_at l (DeletedFiles edit)) eqn:Ed; [|exfalso; apply H, elem_of_touched; left; by rewrite Ed].
  destruct (added_at l (AddedFiles edit)) eqn:Ea; [|exfalso; apply H, elem_of_touched; right; by rewrite Ea].
  by rewrite app_nil_r.
Qed.

Lemma NumLevels_sort_touched v k : NumLevels (sort_touched v k) = NumLevels v.
Proof.
  unfold sort_touched, sortFilesAt, NumLevels. destruct (k =? 0); [done|].
  destruct (files v !! _); [|done]. cbn. apply length_insert.
Qed.

Lemma NumLevels_apply_deleted v d : NumLevels (apply_deleted v d) = NumLevels v.
Proof. unfold apply_deleted, NumLevels. destruct (files v !! _); [|done]. cbn. apply length_insert. Qed.

Lemma NumLevels_apply_added v a : NumLevels (apply_added v a) = Nat.max (NumLevels v) (S (Z.to_nat (Level a))).
Proof.
  unfold apply_added. rewrite <-NumLevels_grow. unfold set_level, NumLevels. cbn [files]. apply length_insert.
Qed.

Lemma foldl_NumLevels {A} (step : Version -> A -> Version) xs v :
  (forall v x, NumLevels (step v x) = NumLevels v) -> NumLevels (foldl step v xs) = NumLevels v.
Proof. intros H. revert v. induction xs as [|x xs IH]; intros v; cbn; [done|]. by rewrite IH. Qed.

Lemma NumLevels_Apply v edit :
  NumLevels (Apply v edit) =
    foldr (fun a n => Nat.max n (S (Z.to_nat (Level a)))) (NumLevels v) (AddedFiles edit).
Proof.
  unfold Apply. rewrite foldl_NumLevels by (intros; apply NumLevels_sort_touched).
  assert (NumLevels (foldl apply_deleted (Clone v) (DeletedFiles edit)) = NumLevels v) as H
    by (rewrite foldl_NumLevels by (intros; apply NumLevels_apply_deleted); done).
  revert H. generalize (foldl apply_deleted (Clone v) (DeletedFiles edit)). intros u <-. revert u.
  induction (AddedFiles edit) as [|a fs IH]; intros u; cbn [foldl foldr]; [done|].
  rewrite IH, NumLevels_apply_added. generalize (NumLevels u). intros n. clear.
  induction fs as [|b fs IH]; cbn [foldr]; lia.
Qed.

(** ** Well-formed versions *)
Definition sorted_files (fs : list FileMetadata) : Prop := StronglySorted (fun a b => by_smallest a b <= 0) fs.

Record wf_version (v : Version) : Prop := {
  wf_levels l f : 0 <= l -> f ∈ Files l v -> Level f = l;
  wf_ids l : 0 <= l -> NoDup (FileID <$> Files l v);
  wf_sorted l : 0 < l -> sorted_files (Files l v)
}.

(** An edit that does not add a file twice, nor one that stays live. *)
Definition fresh_files (v : Version) (edit : VersionEdit) : Prop :=
  forall l, 0 <= l -> NoDup (FileID <$> added_at l (AddedFiles edit)) /\
    forall f, f ∈ added_at l (AddedFiles edit) -> FileID f ∈ FileID <$> Files l v ->
      FileID f ∈ deleted_at l (DeletedFiles edit).

Lemma delete_first_filter id fs :
  NoDup (FileID <$> fs) -> delete_first id fs = filter (fun f => FileID f <> id) fs.
Proof.
  induction fs as [|f fs IH]; cbn [delete_first fmap list_fmap]; [done|]. intros [Hn Hnd]%NoDup_cons.
  destruct (Z.eqb_spec (FileID f) id) as [E|E].
  - rewrite filter_cons_False by tauto. symmetry. apply filter_all. intros g Hg Eg. apply Hn.
    rewrite E, <-Eg. by apply list_elem_of_fmap_2.
  - rewrite filter_cons_True by done. f_equal. by apply IH.
Qed.

Lemma delete_all_filter ids fs :
  NoDup (FileID <$> fs) ->
  foldl (fun fs id => delete_first id fs) fs ids = filter (fun f => FileID f ∉ ids) fs.
Proof.
  revert fs. induction ids as [|id ids IH]; intros fs Hnd; cbn [foldl].
  { symmetry. apply filter_all. intros f _. apply not_elem_of_nil. }
  rewrite delete_first_filter by done. rewrite IH by (by apply NoDup_fmap_filter).
  rewrite list_filter_filter. apply filter_ext. intros f _. rewrite not_elem_of_cons. tauto.
Qed.

Lemma level_after_elem l v edit f :
  0 <= l -> wf_version v ->
  f ∈ level_after l edit (Files l v) <->
    f ∈ added_at l (AddedFiles edit) \/ (f ∈ Files l v /\ FileID f ∉ deleted_at l (DeletedFiles edit)).
Proof.
  intros Hl Hwf. unfold level_after. rewrite delete_all_filter by (by apply Hwf).
  rewrite elem_of_app, list_elem_of_filter. tauto.
Qed.

Lemma level_after_ids l v edit :
  0 <= l -> wf_version v -> fresh_files v edit -> NoDup (FileID <$> level_after l edit (Files l v)).
Proof.
  intros Hl Hwf Hfr. unfold level_after. rewrite delete_all_filter by (by apply Hwf).
  destruct (Hfr l Hl) as [Hnd Hin]. rewrite fmap_app. apply NoDup_app. split_and!; [| |done].
  - apply NoDup_fmap_filter, (wf_ids v Hwf l Hl).
  - intros id (f & -> & Hf)%list_elem_of_fmap (g & Eg & Hg)%list_elem_of_fmap.
    apply list_elem_of_filter in Hf as [Hf Hfv]. apply Hf. rewrite Eg. apply Hin; [done|].
    rewrite <-Eg. by apply list_elem_of_fmap_2.
Qed.

Lemma Files_Apply_perm l v edit :
  0 <= l -> edit_levels edit -> Files l (Apply v edit) ≡ₚ level_after l edit (Files l v).
Proof using slices_laws.
  intros Hl He. rewrite Files_Apply by done. case_decide; [apply SortFunc_perm|done].
Qed.

Lemma wf_NewVersion capacity : wf_version (NewVersion capacity).
Proof.
  split; unfold Files; cbn; [|constructor..]. intros l f _ H. by apply not_elem_of_nil in H.
Qed.

Lemma Apply_wf v edit :
  wf_version v -> edit_levels edit -> fresh_files v edit -> wf_version (Apply v edit).
Proof using slices_laws.
  intros Hwf He Hfr. split.
  - intros l f Hl Hf. rewrite Files_Apply_perm, level_after_elem in Hf by done.
    destruct Hf as [Hf|[Hf _]]; [by apply list_elem_of_filter in Hf as [? _]|by apply Hwf].
  - intros l Hl. rewrite (Files_Apply_perm l) by done. by apply level_after_ids.
  - intros l Hl. rewrite Files_Apply by (done || lia). case_decide as Hd.
    + apply SortFunc_sorted, by_smallest_order.
    + rewrite level_after_untouched; [by apply Hwf|]. intros Ht. apply Hd. split; [done|lia].
Qed.

(** ** Properties *)

(** The effect of [Version.Apply], level by level, on any version and any
    edit.  On level 0 the deletions take effect first, each removing the first
    file with its ID, then the added files follow in order; a level above 0 that
    the edit touches holds the same files, in ascending order of smallest key; a
    level the edit does not mention is unchanged; the number of levels grows just
    as far as the highest added file needs.  The sorting algorithm and the order in
    which the touched levels are visited do not matter. *)
Theorem version_apply_levels (v : Version) (edit : VersionEdit) :
  edit_levels edit ->
  Files 0 (Apply v edit) = level_after 0 edit (Files 0 v) /\
  (forall l, 0 < l -> l ∈ touched edit ->
     Files l (Apply v edit) ≡ₚ level_after l edit (Files l v) /\ sorted_files (Files l (Apply v edit))) /\
  (forall l, 0 <= l -> l ∉ touched edit -> Files l (Apply v edit) = Files l v) /\
  NumLevels (Apply v edit) =
    foldr (fun a n => Nat.max n (S (Z.to_nat (Level a)))) (NumLevels v) (AddedFiles edit).
Proof using slices_laws.
  intros He. split_and!.
  - rewrite Files_Apply by (done || lia). by rewrite decide_False by tauto.
  - intros l Hl Ht. split; [apply Files_Apply_perm; [lia|done]|].
    rewrite Files_Apply, decide_True by (done || lia || (split; [done|lia])).
    apply SortFunc_sorted, by_smallest_order.
  - intros l Hl Ht. rewrite Files_Apply, decide_False by (done || tauto). by apply level_after_untouched.
  - apply NumLevels_Apply.
Qed.

(** C19: versions are sets of live files.  Starting from a well-formed version
    (every file on its own level, no ID twice on a level, levels above 0 sorted),
    an edit that adds no file already live leads to a well-formed version, whose
    files are the added ones and the old ones not deleted. *)
Theorem version_apply_refines (v : Version) (edit : VersionEdit) :
  wf_version v -> edit_levels edit -> fresh_files v edit ->
  wf_version (Apply v edit) /\
  forall l f, 0 <= l ->
    f ∈ Files l (Apply v edit) <->
      f ∈ added_at l (AddedFiles edit) \/ (f ∈ Files l v /\ FileID f ∉ deleted_at l (DeletedFiles edit)).
Proof using slices_laws.
  intros Hwf He Hfr. split; [by apply Apply_wf|]. intros l f Hl.
  rewrite (Files_Apply_perm l) by done. by apply level_after_elem.
Qed.
End ApplyFacts.

Definition sample_file (level id : Z) (k : byte) : FileMetadata :=
  mkFileMetadata level id 100 (mkInternalKey [k] 5 InternalKeyKindPut) (mkInternalKey [k] 5 InternalKeyKindPut).

Definition sample_version : Version :=
  mkVersion [[sample_file 0 3 x61; sample_file 0 2 x62]; [sample_file 1 1 x63]].

Definition move_down : VersionEdit :=
  mkVersionEdit [sample_file 1 3 x61] [mkDeletedFile 0 3] false 0 false 0 false 0.

Lemma version_apply_levels_witness :
  edit_levels move_down /\
  Files 0 (Apply sample_version move_down) = [sample_file 0 2 x62] /\
  Files 1 (Apply sample_version move_down) = [sample_file 1 3 x61; sample_file 1 1 x63].
Proof.
  assert (edit_levels move_down) as He by (apply (bool_decide_unpack _); vm_compute; exact I).
  destruct (version_apply_levels sample_version move_down He) as (H0 & _).
  split; [exact He|]. split; [rewrite H0|]; vm_compute; reflexivity.
Defined.

Lemma version_apply_refines_witness :
  wf_version (NewVersion 0) /\ wf_version (Apply (NewVersion 0) (mkVersionEdit [sample_file 0 3 x61] [] true 4 true 5 false 0)).
Proof.
  split; [apply wf_NewVersion|].
  apply (version_apply_refines (NewVersion 0) (mkVersionEdit [sample_file 0 3 x61] [] true 4 true 5 false 0)).
  - apply wf_NewVersion.
  - apply (bool_decide_unpack _); vm_compute; exact I.
  - intros l Hl. split.
    + unfold added_at. cbn [AddedFiles filter list_filter Level sample_file].
      destruct (decide (0 = l)); [cbn; apply NoDup_singleton|constructor].
    + unfold Files. cbn. intros f _ Hf. by apply not_elem_of_nil in Hf.
Defined.
