(* ===== verification/Current.v ===== *)
(** * The CURRENT pointer (internal/manifest/current.go)

    Reading and atomically replacing the file that names the live manifest. *)
From S2P Require Import Prelude.
From S2P Require Import Errors.
From S2P Require Import GoIO.
From S2P Require Import Fs.

Definition currentFileName : bytes := bytes_of_string "CURRENT".
Definition currentTmpFileName : bytes := bytes_of_string "CURRENT.tmp".

(** ** strings.TrimSpace

    The UTF-8 encodings of the characters [unicode.IsSpace] accepts. *)
Definition spaces : list bytes :=
  [[x09]; [x0a]; [x0b]; [x0c]; [x0d]; [x20]; [xc2; x85]; [xc2; xa0]; [xe1; x9a; x80];
   [xe2; x80; x80]; [xe2; x80; x81]; [xe2; x80; x82]; [xe2; x80; x83]; [xe2; x80; x84];
   [xe2; x80; x85]; [xe2; x80; x86]; [xe2; x80; x87]; [xe2; x80; x88]; [xe2; x80; x89];
   [xe2; x80; x8a]; [xe2; x80; xa8]; [xe2; x80; xa9]; [xe2; x80; xaf]; [xe2; x81; x9f];
   [xe3; x80; x80]].

(** Strip the encodings [sp] from the front as long as there are any. *)
Fixpoint trim_left (sp : list bytes) (fuel : nat) (s : bytes) : bytes :=
  match fuel with
  | O => s
  | S fuel =>
      match list_find (fun e => e `prefix_of` s) sp with
      | Some (_, e) => trim_left sp fuel (drop (length e) s)
      | None => s
      end
  end.

Definition TrimSpace (s : bytes) : bytes :=
  let l := trim_left spaces (length s) s in
  reverse (trim_left (reverse <$> spaces) (length l) (reverse l)).

(** ** CURRENT *)

(** [os.PathSeparator] is ['/'] here, so the two checks of the code coincide. *)
Definition validateManifestName (name : bytes) : option error :=
  if bool_decide (name = []) then Some (Errorf "empty" manifest.ErrInvalidManifestName)
  else if bool_decide (x2f ∈ name) then Some (Errorf "contains path separator" manifest.ErrInvalidManifestName)
  else if bool_decide (x2f ∈ name) then Some (Errorf "contains '/'" manifest.ErrInvalidManifestName)
  else None.

Definition ReadCurrent : io (res bytes) :=
  data ← os_ReadFile currentFileName;
  match data with
  | Panic => panic
  | Err err =>
      if errors_Is err os_ErrNotExist then mret (throw manifest.ErrNoCurrentFile)
      else mret (throw (Errorf "beachdb/manifest: failed to read CURRENT" err))
  | Ok data =>
      let name := TrimSpace data in
      if bool_decide (name = [])
      then mret (throw (Errorf "beachdb/manifest: CURRENT is empty" manifest.ErrInvalidManifestName))
      else match validateManifestName name with
           | Some err => mret (throw err)
           | None => mret (Ok name)
           end
  end.

(** [_ = os.Remove(path)]. *)
Definition discard {A} (m : io A) : io unit := _ ← m; mret tt.

Definition WriteCurrent (manifestName : bytes) : io (option error) :=
  match validateManifestName manifestName with
  | Some err => mret (Some err)
  | None =>
  tmp ← os_Create currentTmpFileName;
  match tmp with
  | Panic => panic
  | Err err => mret (Some (Errorf "beachdb/manifest: failed to open CURRENT.tmp" err))
  | Ok tmp =>
  err ← f_write tmp (manifestName ++ [x0a]);
  match err with
  | Some err =>
      _ ← f_close tmp; _ ← os_Remove currentTmpFileName;
      mret (Some (Errorf "beachdb/manifest: failed to write CURRENT.tmp" err))
  | None =>
  err ← f_sync tmp;
  match err with
  | Some err =>
      _ ← f_close tmp; _ ← os_Remove currentTmpFileName;
      mret (Some (Errorf "beachdb/manifest: failed to sync CURRENT.tmp" err))
  | None =>
  err ← f_close tmp;
  match err with
  | Some err =>
      _ ← os_Remove currentTmpFileName;
      mret (Some (Errorf "beachdb/manifest: failed to close CURRENT.tmp" err))
  | None =>
  r ← os_Rename currentTmpFileName currentFileName;
  match r with
  | Panic => panic
  | Err err =>
      _ ← os_Remove currentTmpFileName;
      mret (Some (Errorf "beachdb/manifest: failed to rename CURRENT.tmp -> CURRENT" err))
  | Ok _ =>
  r ← SyncDir;
  match r with
  | Panic => panic
  | Err err => mret (Some (Errorf "beachdb/manifest: failed to sync parent dir after CURRENT rename" err))
  | Ok _ => mret None
  end end end end end end end.

(** ** What CURRENT says *)

(** The result of [ReadCurrent] for a given content of the file. *)
Definition parse_current (data : option bytes) : res bytes :=
  match data with
  | None => throw manifest.ErrNoCurrentFile
  | Some data =>
      let name := TrimSpace data in
      if bool_decide (name = [])
      then throw (Errorf "beachdb/manifest: CURRENT is empty" manifest.ErrInvalidManifestName)
      else match validateManifestName name with Some err => throw err | None => Ok name end
  end.

Lemma parse_not_panic data : parse_current data <> Panic.
Proof.
  unfold parse_current. destruct data; [|done]. case_bool_decide; [done|]. by destruct (validateManifestName _).
Qed.

(** [ReadCurrent] on a disk that does not fail. *)
Lemma ReadCurrent_run s :
  call_faults s = [] ->
  exists w, ReadCurrent (world s) = Some (parse_current (content_of currentFileName s), w).
Proof.
  intros Hf. unfold ReadCurrent, os_ReadFile, syscall, next_call, mbind, io_bind. cbn [w_fs world].
  rewrite Hf. unfold change. cbn [w_fs world]. unfold content_of, parse_current.
  destruct (live s !! currentFileName) as [i|] eqn:El; cbn [option_bind];
    [destruct (inodes s !! i) as [f|] eqn:Ei|]; cbn [mbind option_bind option_fmap fmap];
    rewrite ?Ei; [|by eexists..].
  change (f_content <$> Some f) with (Some (f_content f)). cbv iota beta.
  case_bool_decide; [by eexists|]. destruct (validateManifestName _); by eexists.
Qed.

(** ** Trimming what was written *)
Lemma trim_left_stop sp n s :
  (forall e, e ∈ sp -> ~ e `prefix_of` s) -> trim_left sp n s = s.
Proof.
  intros H. destruct n; cbn; [done|]. destruct (list_find _ sp) as [[i e]|] eqn:E; [|done].
  apply list_find_Some in E as (Hl & Hp & _). exfalso. by apply (H e); [eapply list_elem_of_lookup_2|].
Qed.

Lemma trim_left_length sp n s : (length (trim_left sp n s) <= length s)%nat.
Proof.
  revert s. induction n as [|n IH]; intros s; cbn; [done|].
  destruct (list_find _ sp) as [[i e]|]; [|done]. etrans; [apply IH|]. rewrite length_drop. lia.
Qed.

(** A fixed point starts with no encoding. *)
Lemma trim_left_fixed sp n s :
  Forall (fun e => e <> []) sp -> (length s <= n)%nat -> s <> [] -> trim_left sp n s = s ->
  forall e, e ∈ sp -> ~ e `prefix_of` s.
Proof.
  intros Hne Hn Hs Ht e He Hp. destruct n as [|n]; [destruct s; cbn in *; [done|lia]|].
  cbn [trim_left] in Ht. destruct (list_find _ sp) as [[i e']|] eqn:E.
  - apply list_find_Some in E as (Hl & Hp' & _). apply list_elem_of_lookup_2 in Hl.
    rewrite Forall_forall in Hne. specialize (Hne _ Hl). apply (f_equal length) in Ht.
    pose proof (trim_left_length sp n (drop (length e') s)) as Hle. rewrite Ht, length_drop in Hle.
    destruct e'; [done|]. apply prefix_length in Hp'. cbn in *. lia.
  - apply list_find_None in E. rewrite Forall_forall in E. by apply (E e).
Qed.

Lemma spaces_nonempty : Forall (fun e => e <> []) spaces.
Proof. apply (bool_decide_unpack _). vm_compute. exact I. Qed.

Lemma reverse_spaces_nonempty : Forall (fun e => e <> []) (reverse <$> spaces).
Proof. apply (bool_decide_unpack _). vm_compute. exact I. Qed.

(** The newline is in no encoding but its own. *)
Lemma spaces_newline : Forall (fun e => last e = Some x0a -> e = [x0a]) spaces.
Proof. apply (bool_decide_unpack _). vm_compute. exact I. Qed.

Lemma newline_no_space name e :
  e ∈ spaces -> name <> [] -> e `prefix_of` name ++ [x0a] -> e `prefix_of` name.
Proof.
  intros He Hn [k E]. destruct k as [|b k _] using rev_ind.
  - rewrite app_nil_r in E. pose proof spaces_newline as H. rewrite Forall_forall in H.
    specialize (H e He). rewrite <-E, last_snoc in H. specialize (H eq_refl).
    destruct name; [done|]. by destruct name.
  - rewrite app_assoc in E. apply app_inj_tail in E as [-> _]. by eexists.
Qed.

(** A name without surrounding space survives [name + "\n"]. *)
Lemma TrimSpace_newline name :
  TrimSpace name = name -> name <> [] -> TrimSpace (name ++ [x0a]) = name.
Proof.
  intros Ht Hn. unfold TrimSpace in Ht.
  set (l := trim_left spaces (length name) name) in Ht.
  assert (length name <= length l)%nat as Hl.
  { rewrite <-Ht at 1. rewrite length_reverse. etrans; [apply trim_left_length|]. by rewrite length_reverse. }
  assert (forall e, e ∈ spaces -> ~ e `prefix_of` name) as Hfront.
  { intros e He Hp. destruct name as [|b name']; [done|]. subst l. set (s := b :: name') in *.
    assert (exists i e', list_find (fun e => e `prefix_of` s) spaces = Some (i, e')) as (i & e' & E).
    { destruct (list_find _ spaces) as [[i e']|] eqn:E; [by exists i, e'|].
      apply list_find_None in E. rewrite Forall_forall in E. by destruct (E e He). }
    change (length s) with (S (length name')) in Hl at 2. cbn [trim_left] in Hl. rewrite E in Hl.
    apply list_find_Some in E as (Hl' & Hp' & _). apply list_elem_of_lookup_2 in Hl'.
    pose proof spaces_nonempty as Hne. rewrite Forall_forall in Hne. specialize (Hne _ Hl').
    pose proof (trim_left_length spaces (length name') (drop (length e') s)) as Hle.
    rewrite length_drop in Hle. apply prefix_length in Hp'. destruct e'; [done|]. cbn in *. lia. }
  assert (l = name) as El by (subst l; by apply trim_left_stop). clearbody l. subst l.
  unfold TrimSpace. rewrite (trim_left_stop spaces) by
    (intros e He Hp; by apply (Hfront e He), newline_no_space).
  rewrite reverse_app. change (reverse [x0a]) with [x0a]. rewrite length_app. cbn [length].
  replace (length name + 1)%nat with (S (length name)) by lia. cbn [trim_left app].
  assert (forall e, e ∈ reverse <$> spaces -> ~ e `prefix_of` reverse name) as Hback.
  { apply (trim_left_fixed _ (length name)); [apply reverse_spaces_nonempty|by rewrite length_reverse| |].
    - intros E. apply Hn. apply (f_equal reverse) in E. by rewrite reverse_involutive in E.
    - apply (f_equal reverse) in Ht. by rewrite reverse_involutive in Ht. }
  destruct (list_find _ _) as [[i e]|] eqn:E.
  - assert (e = [x0a]) as ->.
    { apply list_find_Some in E as (Hl' & Hp & _). apply list_elem_of_lookup_2 in Hl'.
      assert (Forall (fun e => head e = Some x0a -> e = [x0a]) (reverse <$> spaces)) as H
        by (apply (bool_decide_unpack _); vm_compute; exact I).
      rewrite Forall_forall in H. apply H; [done|]. pose proof reverse_spaces_nonempty as Hne.
      rewrite Forall_forall in Hne. specialize (Hne e Hl'). destruct e; [done|].
      apply prefix_cons_inv_1 in Hp. by subst. }
    cbn [length drop]. rewrite trim_left_stop by done. apply reverse_involutive.
  - exfalso. apply list_find_None in E. rewrite Forall_forall in E. apply (E [x0a]); [|by eexists].
    apply list_elem_of_fmap. exists [x0a]. split; [done|]. apply (bool_decide_unpack _). vm_compute. exact I.
Qed.

(** ** The protocol of WriteCurrent *)
Section Write.
Context (md : mode) (P : option bytes -> Prop) (name : bytes).

Local Abbreviation cur := currentFileName.
Local Abbreviation tmp := currentTmpFileName.

(** Either the old content of CURRENT or the new one, in full. *)
Definition old_or_new (c : option bytes) : Prop := P c \/ c = Some (name ++ [x0a]).

Definition safe_state (s : Fs) : Prop := holds cur old_or_new s.

(** What else is kept: [R] of the disk, which the steps of the protocol leave
    alone; [I] is asked of the states on the way. *)
Record frame (R I : Fs -> Prop) : Prop := {
  fr_blind : fault_blind R;
  fr_inode i f s : wf_fs s -> live s !! tmp = Some i -> unref cur i s ->
    (f_synced f <= length (f_content f))%nat -> R s -> R (set_inode i f s);
  fr_create s i s' : wf_fs s -> create tmp s = (i, s') -> R s -> R s';
  fr_remove s : R s -> R (set_live (delete tmp (live s)) s);
  fr_rename s i : live s !! tmp = Some i -> R s -> R (set_live (<[cur := i]> (delete tmp (live s))) s);
  fr_sync s : R s -> R (sync_dirs s);
  fr_safe s : wf_fs s -> safe_state s -> R s -> I s
}.

Context (R I : Fs -> Prop) (framed : frame R I).

Definition kept (s : Fs) : Prop := wf_fs s /\ R s.

Definition untouched (s : Fs) : Prop := kept s /\ holds cur P s.

Definition written (s : Fs) : Prop := kept s /\ holds cur old_or_new s.

Definition installed (s : Fs) : Prop := kept s /\ holds cur (fun c => c = Some (name ++ [x0a])) s.

(** The new content is being prepared in inode [i], which CURRENT never names. *)
Record staged (i : nat) (F : File -> Prop) (s : Fs) : Prop := {
  st_kept : kept s;
  st_cur : holds cur P s;
  st_unref : unref cur i s;
  st_tmp : live s !! tmp = Some i;
  st_file : exists f, inodes s !! i = Some f /\ F f
}.

Lemma cur_ne_tmp : cur <> tmp.
Proof. done. Qed.

Lemma holds_safe s : holds cur P s -> safe_state s.
Proof. apply holds_mono. intros c Hc. by left. Qed.

Lemma kept_safe s : kept s -> safe_state s -> I s.
Proof using framed. intros [Hw HR] Hs. by apply (fr_safe _ _ framed). Qed.

Lemma kept_blind : fault_blind kept.
Proof using framed. intros fl s [? ?]. split; [by apply wf_blind|by apply (fr_blind _ _ framed)]. Qed.

Lemma untouched_blind : fault_blind untouched.
Proof using framed. intros fl s [? ?]. split; [by apply kept_blind|done]. Qed.

Lemma staged_blind i F : fault_blind (staged i F).
Proof using framed. intros fl s [? ? ? ? ?]. split; [by apply kept_blind|done..]. Qed.

Lemma staged_untouched i F s : staged i F s -> untouched s.
Proof. by intros []. Qed.

Lemma staged_set_inode i (F F' : File -> Prop) f s :
  staged i F s -> F' f -> (f_synced f <= length (f_content f))%nat ->
  staged i F' (set_inode i f s) /\ I (set_inode i f s).
Proof using framed.
  intros [[Hw HR] Hc Hu Ht (g & Hg & _)] HF Hf. assert (holds cur P (set_inode i f s)) as Hh
    by (by apply named_set_inode).
  assert (kept (set_inode i f s)) as Hk
    by (split; [apply wf_set_inode; [done|by eexists|done]|by apply (fr_inode _ _ framed)]).
  split; [|by apply kept_safe, holds_safe].
  split; [done|done|done|done|]. exists f. cbn. by rewrite lookup_insert_eq.
Qed.

(** A method of the staged file. *)
Lemma triple_staged {A} i (F : File -> Prop) (F' : A -> File -> Prop) (g : File -> A * File) :
  (forall f, F f -> (f_synced f <= length (f_content f))%nat -> (md = Calm -> f_faults f = []) ->
     let '(a, f') := g f in
     F' a f' /\ (f_synced f' <= length (f_content f'))%nat /\ (f_faults f = [] -> f_faults f' = [])) ->
  triple md (staged i F) (on_file i g) (fun a => staged i (F' a)) I.
Proof using framed.
  intros H. apply triple_on_file. intros s Hs. destruct (st_file i F s Hs) as (f & Hf & HF).
  exists f. split; [done|]. intros Hcf. specialize (H f HF (wf_synced s (proj1 (st_kept i F s Hs)) i f Hf) Hcf).
  destruct (g f) as [a f']. destruct H as (HF' & Hle & Hff).
  destruct (staged_set_inode i F (F' a) f' s Hs HF' Hle). split_and!; [done|done|]. intros Hmd. by apply Hff, Hcf.
Qed.

Lemma triple_remove : triple md untouched (os_Remove tmp) (fun _ => untouched) I.
Proof using framed.
  apply triple_syscall; [apply untouched_blind|done|]. intros s [[Hw HR] Hc].
  destruct (live s !! tmp) eqn:E; [|split; [done|split; [by apply kept_safe, holds_safe|done]]].
  assert (holds cur P (set_live (delete tmp (live s)) s)) as Hh
    by (apply named_set_live; [by rewrite lookup_delete_ne by done|done]).
  assert (kept (set_live (delete tmp (live s)) s)) as Hk.
  { split; [|by apply (fr_remove _ _ framed)]. apply wf_set_live; [done|].
    intros nm i Hi. destruct (decide (nm = tmp)) as [->|]; [by rewrite lookup_delete_eq in Hi|].
    rewrite lookup_delete_ne in Hi by done. eapply (wf_dirs s Hw); [by left|done]. }
  split; [done|split; [by apply kept_safe, holds_safe|intros _; apply calm_set_live]].
Qed.

Lemma triple_create :
  triple md untouched (os_Create tmp)
    (fun r s => match r with
                | Ok i => staged i (fun f => f_content f = []) s
                | Err _ => md <> Calm /\ untouched s
                | Panic => False
                end)
    I.
Proof using framed.
  apply triple_syscall; [apply untouched_blind|done|]. intros s [[Hw HR] Hc].
  destruct (create tmp s) as [i s'] eqn:E.
  pose proof (named_create tmp cur _ _ s i s' Hw E cur_ne_tmp Hc) as Hh.
  assert (kept s') as Hk by (split; [by eapply wf_create|by eapply (fr_create _ _ framed)]).
  split; [|split; [by apply kept_safe, holds_safe|intros _; by eapply calm_create]].
  split; [done|done|by eapply create_fresh| |];
    injection E as <- <-; cbn; [by rewrite lookup_insert_eq|].
  eexists. by rewrite lookup_insert_eq.
Qed.

Local Abbreviation content := (name ++ [x0a]).

Lemma triple_write i :
  triple md (staged i (fun f => f_content f = [])) (f_write i content)
    (fun err => staged i (fun f => match err with None => f_content f = content | Some _ => md <> Calm end)) I.
Proof using framed.
  apply triple_staged. intros f Hc Hs Hcf. pose proof (file_Write_calm content f) as Hcalm.
  destruct (file_Write content f) as [[f' n] err] eqn:E. cbn [fst snd] in Hcalm.
  apply file_Write_spec in E as (Ec & Es & En & _). rewrite Hc in *. rewrite Ec, Es. split_and!.
  - destruct err; [intros Hmd; by destruct (Hcalm (Hcf Hmd))|]. rewrite (En eq_refl). by rewrite firstn_all.
  - rewrite length_app. cbn in *. lia.
  - intros Hf. by apply Hcalm.
Qed.

Definition durable_content (f : File) : Prop := f_content f = content /\ f_synced f = length (f_content f).

Lemma triple_sync i :
  triple md (staged i (fun f => f_content f = content)) (f_sync i)
    (fun err => staged i (fun f => match err with None => durable_content f | Some _ => md <> Calm end))
    I.
Proof using framed.
  apply triple_staged. intros f Hc Hs Hcf. pose proof (file_Sync_calm f) as Hcalm.
  destruct (file_Sync f) as [f' err] eqn:E. cbn [fst snd] in Hcalm.
  apply file_Sync_spec in E as (Ec & Eo & En & _). split_and!.
  - destruct err; [intros Hmd; by destruct (Hcalm (Hcf Hmd))|]. unfold durable_content. rewrite Ec. auto.
  - rewrite Ec. destruct err; [rewrite En by done; done|rewrite Eo by done; lia].
  - intros Hf. by apply Hcalm.
Qed.

Lemma triple_close i (F : File -> Prop) :
  (forall f f', F f -> f_content f' = f_content f -> f_synced f' = f_synced f -> F f') ->
  triple md (staged i F) (f_close i) (fun err s => staged i F s /\ (md = Calm -> err = None)) I.
Proof using framed.
  intros HF. eapply triple_post; [|apply (triple_staged i F (fun err f => F f /\ (md = Calm -> err = None)))].
  { intros err s [Hw Hc Hu Ht (f & Hf & HFf & Hn)]. split; [|done]. split; [done..|]. by exists f. }
  intros f Hf Hs Hcf. pose proof (file_Close_calm f) as Hcalm.
  destruct (file_Close f) as [f' err] eqn:E. cbn [fst snd] in Hcalm.
  apply file_Close_spec in E as (Ec & Es & _). rewrite Ec, Es. split_and!; [eauto| |done|].
  - intros Hmd. by apply Hcalm, Hcf.
  - intros H0. by apply Hcalm.
Qed.

Lemma triple_rename i :
  triple md (staged i durable_content) (os_Rename tmp cur)
    (fun r s => match r with
                | Ok _ => written s /\ content_of cur s = Some content
                | Err _ => md <> Calm /\ untouched s
                | Panic => False
                end)
    I.
Proof using framed.
  apply triple_syscall; [apply staged_blind|by intros Hmd s ?%staged_untouched|].
  intros s [[Hw HR] Hc Hu Ht (f & Hf & Hfc & Hfs)]. rewrite Ht.
  set (d := <[cur := i]> (delete tmp (live s))).
  assert (d !! cur = Some i) as Hd by (unfold d; by rewrite lookup_insert_eq).
  assert (holds cur old_or_new (set_live d s)) as Hh.
  { apply (named_link cur _ _ d i f); [done|done|split; [done|right; by rewrite Hfc]|by apply holds_safe]. }
  assert (kept (set_live d s)) as Hk.
  { split; [|by apply (fr_rename _ _ framed)]. apply wf_set_live; [done|]. intros nm j Hj. unfold d in Hj. destruct (decide (nm = cur)) as [->|].
    + rewrite lookup_insert_eq in Hj. simplify_eq. by eexists.
    + rewrite lookup_insert_ne in Hj by done. apply lookup_delete_Some in Hj as [_ Hj].
      eapply (wf_dirs s Hw); [by left|done]. }
  split; [|split; [by apply kept_safe|intros _; apply calm_set_live]]. split; [by split|].
  unfold content_of. cbn [live set_live inodes]. rewrite Hd. cbn. by rewrite Hf, <-Hfc.
Qed.

Lemma triple_syncdir :
  triple md (fun s => written s /\ content_of cur s = Some content) SyncDir
    (fun r s => match r with
                | Ok _ => installed s
                | Err _ => md <> Calm /\ written s
                | Panic => False
                end) I.
Proof using framed.
  assert (fault_blind (fun s => written s /\ content_of cur s = Some content)) as Hb.
  { intros fl s [[? ?] ?]. by split; [split; [apply kept_blind|]|]. }
  unfold SyncDir. eapply (triple_bind _ _ _ _ (fun r s =>
    match r with
    | Panic => False
    | Ok _ => written s /\ content_of cur s = Some content
    | _ => md <> Calm /\ written s
    end)).
  { apply triple_syscall; [done|by intros Hmd s [? ?]|]. intros s [Hwr Hct]. split; [by split|split; [by destruct Hwr; apply kept_safe|done]]. }
  intros [u|e|]; [|by apply triple_ret|by apply triple_false; intros ? []].
  eapply (triple_bind _ _ _ _ (fun r s =>
    match r with Ok _ => installed s | Err _ => md <> Calm /\ written s | Panic => False end)).
  { apply triple_syscall; [done|by intros Hmd s [? ?]|]. intros s [[[Hw HR] Hh] Hct].
    fold (sync_dirs s). set (s' := sync_dirs s).
    assert (kept s') as Hw'.
    { split; [|by apply (fr_sync _ _ framed)]. destruct Hw as [Hd Hn Hs]. split; [|done|done]. intros d nm i Hin Hi.
      apply list_elem_of_singleton in Hin as ->. eapply Hd; [by left|done]. }
    assert (holds cur old_or_new s') as Hh'.
    { intros d Hin. apply list_elem_of_singleton in Hin as ->. apply Hh. by left. }
    split; [|split; [by apply kept_safe|by intros _ []]]. split; [done|].
    intros d Hin. apply list_elem_of_singleton in Hin as ->. specialize (Hh (live s) ltac:(by left)).
    unfold content_of in Hct. change (live s') with (live s). change (inodes s') with (inodes s).
    destruct (live s !! cur) as [i|]; [|done]. destruct Hh as (f & Hf & Hfs & _). exists f.
    cbn in Hct. rewrite Hf in Hct. cbn in Hct. unfold synced_with. auto. }
  intros [u'|e|]; apply triple_ret; cbn; tauto.
Qed.

(** The whole of [WriteCurrent]. *)
Lemma WriteCurrent_triple :
  validateManifestName name = None ->
  triple md untouched (WriteCurrent name)
    (fun err s => match err with
                  | None => installed s
                  | Some _ => md <> Calm /\ written s
                  end) I.
Proof using framed.
  intros Hv. unfold WriteCurrent. rewrite Hv.
  assert (forall s, untouched s -> written s) as Huw.
  { intros s [Hw Hh]. split; [done|by apply holds_safe]. }
  assert (forall e : error, triple md (fun s => md <> Calm /\ untouched s) (_ ← os_Remove tmp; mret (Some e))
    (fun err s => match err with None => installed s | Some _ => md <> Calm /\ written s end) I) as Hrm.
  { intros e. apply triple_pure. intros Hmd. eapply triple_bind; [apply triple_remove|].
    intros r. apply triple_ret. auto. }
  assert (forall i, forall e : error, triple md (staged i (fun _ => md <> Calm)) (_ ← f_close i; _ ← os_Remove tmp; mret (Some e))
    (fun err s => match err with None => installed s | Some _ => md <> Calm /\ written s end) I) as Hcl.
  { intros i e. eapply triple_bind; [by apply triple_close|]. intros r.
    eapply triple_pre; [|apply Hrm].
    intros s [Hs _]. split; [|by eapply staged_untouched]. by destruct (st_file _ _ _ Hs) as (f & _ & ?). }
  eapply triple_bind; [apply triple_create|].
  intros [i|e|]; [|by apply triple_ret; intros s [? ?]; auto|by apply triple_false; intros ? []].
  eapply triple_bind; [apply triple_write|]. intros [e|]; cbv beta; [apply Hcl|].
  eapply triple_bind; [apply (triple_sync i)|]. intros [e|]; cbv beta; [apply Hcl|].
  eapply triple_bind; [apply (triple_close i durable_content)|].
  { intros f f' [? ?] Ec Es. unfold durable_content. by rewrite Ec, Es. }
  intros [e|]; cbv beta.
  { eapply triple_pre; [|apply Hrm].
    intros s [Hs Hn]. split; [|by eapply staged_untouched]. intros Hmd. by specialize (Hn Hmd). }
  eapply triple_pre; [|eapply triple_bind; [apply triple_rename|]].
  { by intros s [Hs _]. }
  intros [u|e|]; [|apply Hrm|by apply triple_false; intros ? []].
  eapply triple_bind; [apply triple_syncdir|]. intros [u'|e|]; [by apply triple_ret..|by apply triple_false; intros ? []].
Qed.
End Write.

Lemma frame_trivial P name : frame P name (fun _ => True) (safe_state P name).
Proof. by split. Qed.

(** What [ReadCurrent] returns after a crash in state [s] and a restart in [s']. *)
Definition reads_current (s' : Fs) (r : res bytes) : Prop :=
  exists w, ReadCurrent (world s') = Some (r, w).

(** ** Properties *)

(** C11: replacing CURRENT is atomic and durable.  Start from any directory in
    which, whatever a crash brings back, CURRENT is fully synced (or missing) and
    reads as [old].  [WriteCurrent name], for a valid name without surrounding
    white space and with every system call free to fail, does not panic; a crash
    in any state the disk goes through leaves a directory in which [ReadCurrent]
    returns [old] or [name]; and when [WriteCurrent] returned nil, it returns
    [name] after any later crash. *)
Theorem write_current_atomic (s : Fs) (old : res bytes) (name : bytes) :
  wf_fs s -> holds currentFileName (fun c => parse_current c = old) s ->
  validateManifestName name = None -> TrimSpace name = name ->
  exists err w, WriteCurrent name (world s) = Some (err, w) /\
    (forall s1 s2, s1 ∈ w_trace w -> crash s1 s2 -> call_faults s2 = [] ->
       exists r, reads_current s2 r /\ (r = old \/ r = Ok name)) /\
    (err = None -> forall s2, crash (w_fs w) s2 -> call_faults s2 = [] -> reads_current s2 (Ok name)).
Proof.
  intros Hw Hh Hv Ht.
  assert (name <> []) as Hne by (intros ->; done).
  assert (parse_current (Some (name ++ [x0a])) = Ok name) as Hp.
  { unfold parse_current. rewrite TrimSpace_newline by done. rewrite bool_decide_false by done. by rewrite Hv. }
  destruct (triple_run Faulty _ _ _ _ s ltac:(done) ltac:(done)
    (WriteCurrent_triple Faulty (fun c => parse_current c = old) name _ _ (frame_trivial _ _) Hv)) as (err & w & E & HQ & HI);
    [done|by apply holds_safe|].
  exists err, w. split_and!; [done| |].
  - intros s1 s2 Hin Hcr Hf. rewrite Forall_forall in HI.
    pose proof (holds_content _ _ _ (holds_crash _ _ _ _ (HI s1 Hin) Hcr)) as Hc.
    destruct (ReadCurrent_run s2 Hf) as [w2 E2]. exists (parse_current (content_of currentFileName s2)).
    split; [by exists w2|]. destruct Hc as [<-| ->]; [by left|by right].
  - intros -> s2 Hcr Hf. destruct HQ as [_ HQ].
    pose proof (holds_content _ _ _ (holds_crash _ _ _ _ HQ Hcr)) as Hc.
    destruct (ReadCurrent_run s2 Hf) as [w2 E2]. exists w2. by rewrite E2, Hc, Hp.
Qed.

(** A fresh directory, and a disk whose second call (the directory sync's open) fails. *)
Definition fresh_dir : Fs := empty_fs [NoFault; NoFault; Fail 0] (fun _ => []).

Lemma write_current_atomic_witness :
  exists err w, WriteCurrent (bytes_of_string "MANIFEST-000001") (world fresh_dir) = Some (err, w) /\
    (forall s1 s2, s1 ∈ w_trace w -> crash s1 s2 -> call_faults s2 = [] ->
       exists r, reads_current s2 r /\ (r = throw manifest.ErrNoCurrentFile \/ r = Ok (bytes_of_string "MANIFEST-000001"))) /\
    (err = None -> forall s2, crash (w_fs w) s2 -> call_faults s2 = [] ->
       reads_current s2 (Ok (bytes_of_string "MANIFEST-000001"))).
Proof.
  apply (write_current_atomic fresh_dir (throw manifest.ErrNoCurrentFile)).
  - apply wf_empty.
  - intros d Hd. cbn in Hd. apply list_elem_of_singleton in Hd as ->. reflexivity.
  - vm_compute. reflexivity.
  - vm_compute. reflexivity.
Defined.
