(* ===== verification/Manifest.v ===== *)
(** * The MANIFEST (internal/manifest/record.go, writer.go, reader.go)

    A log of version edits: unbuffered records, each synced as it is appended,
    and the reader that decodes them. *)
From S2P Require Import Prelude.
From S2P Require Import Errors.
From S2P Require Import GoIO.
From S2P Require Import Record.
From S2P Require Import RecordIO.
From S2P Require Import Edit.
From S2P Require Import Fs.
From S2P Require Import Current.

(** ** Format *)
Definition manifestMagic : string := "BEACHMAN".

Definition mustNewManifestFormat : res Format :=
  match NewFormat manifestMagic DefaultMaxPayloadSize with Ok f => Ok f | _ => Panic end.

(** The value the package variable gets. *)
Definition manifestRecordFormat : Format :=
  mkFormat (magic_array manifestMagic) DefaultMaxPayloadSize (magic_array_length manifestMagic).

Lemma mustNewManifestFormat_ok : mustNewManifestFormat = Ok manifestRecordFormat.
Proof. reflexivity. Qed.

Definition EncodeRecord (payload : bytes) : res bytes := Record.Encode manifestRecordFormat payload.

Definition DecodeRecordHeader (header : bytes) : res (Z * Z) :=
  hdr ← DecodeHeader manifestRecordFormat header; Ok (Length hdr, Checksum hdr).

Definition ValidateRecord (payload : bytes) (expectedChecksum : Z) : res unit :=
  ValidatePayload payload expectedChecksum.

(** ** Writer

    [m_file] is the open file, [None] once closed. *)
Record Writer := mkWriter { m_file : option nat; m_path : bytes }.

Definition NewWriter (path : bytes) : io (res Writer) :=
  file ← os_OpenAppend path;
  match file with
  | Panic => panic
  | Err err => mret (throw (Errorf "beachdb/manifest: failed to open file" err))
  | Ok file =>
  r ← SyncDir;
  match r with
  | Panic => panic
  | Err err =>
      _ ← f_close file;
      mret (throw (Errorf "beachdb/manifest: failed to sync parent dir" err))
  | Ok _ => mret (Ok (mkWriter (Some file) path))
  end end.

Definition Append (payload : bytes) (w : Writer) : io (option error) :=
  rec ← call (EncodeRecord payload);
  match rec with
  | Panic => panic
  | Err err => mret (Some err)
  | Ok rec =>
  match m_file w with
  | None => mret (Some (manifest_error manifest.ErrWriterClosed))
  | Some file =>
  err ← f_write file rec;
  match err with
  | Some err => mret (Some (Errorf "beachdb/manifest: failed to write record" err))
  | None =>
  err ← f_sync file;
  match err with
  | Some err => mret (Some (Errorf "beachdb/manifest: failed to sync file" err))
  | None => mret None
  end end end end.

(** [Close] of a possibly nil writer. *)
Definition Close (w : option Writer) : io (option error * option Writer) :=
  match w with
  | None => mret (Some (manifest_error manifest.ErrWriterClosed), None)
  | Some w =>
  match m_file w with
  | None => mret (Some (manifest_error manifest.ErrWriterClosed), Some w)
  | Some file =>
  e1 ← f_sync file;
  e2 ← f_close file;
  let firstErr :=
    match e1 with
    | Some e => Some (Errorf "beachdb/manifest: sync file failed during close" e)
    | None => Errorf "beachdb/manifest: close file failed" <$> e2
    end in
  mret (firstErr, Some (mkWriter None (m_path w)))
  end end.

(** ** Reader *)
Definition NewReader `{!Device} (path : bytes) : io (res Reader) :=
  file ← os_Open path;
  match file with
  | Panic => panic
  | Err err => mret (throw (Errorf "beachdb/manifest: failed to open file" err))
  | Ok file => src ← open_source file; mret (Ok (open_reader src))
  end.

Definition Next : Reader -> res bytes * Reader :=
  read_next manifestRecordFormat manifest.ErrReaderClosed.

Definition NextEdit (r : Reader) : res VersionEdit * Reader :=
  match Next r with
  | (Ok payload, r) => (DecodeVersionEdit payload, r)
  | (Err e, r) => (throw e, r)
  | (Panic, r) => (Panic, r)
  end.

Definition ValidOffset (r : option Reader) : nat :=
  match r with None => 0%nat | Some r => valid_offset r end.

Definition CloseReader (close_err : option error) (r : option Reader) : option error * option Reader :=
  match r with
  | None => (Some (manifest_error manifest.ErrReaderClosed), None)
  | Some r => let '(e, r) := close_reader manifest.ErrReaderClosed close_err r in (e, Some r)
  end.

(** ** The image of a manifest *)
Definition manifest_image (es : list VersionEdit) : bytes :=
  log_image manifestRecordFormat (edit_wire <$> es).

(** An edit the writer accepts and the reader gives back. *)
Definition edit_fits (e : VersionEdit) : Prop :=
  wf_edit e /\ fits manifestRecordFormat (edit_wire e).

Lemma manifest_image_app es es' : manifest_image (es ++ es') = manifest_image es ++ manifest_image es'.
Proof. unfold manifest_image. by rewrite fmap_app, log_image_app. Qed.

Lemma NextEdit_record e rst pos :
  edit_fits e ->
  NextEdit (mkReader true (mkSource (record_wire manifestRecordFormat (edit_wire e) ++ rst) None) pos) =
    (Ok e, mkReader true (mkSource rst None) (pos + length (record_wire manifestRecordFormat (edit_wire e)))).
Proof.
  intros [Hwf Hf]. unfold NextEdit, Next. rewrite read_next_record by done.
  by rewrite DecodeVersionEdit_wire.
Qed.

(** [Append] of an edit that fits writes its record and syncs it, unless one of
    the two calls fails. *)
Lemma manifest_EncodeRecord payload :
  fits manifestRecordFormat payload -> EncodeRecord payload = Ok (record_wire manifestRecordFormat payload).
Proof. intros [Hm Hu]. apply Encode_fits. by rewrite u32_id. Qed.
