(* ===== verification/Replay.v ===== *)
(** * Manifest replay (engine/db.go: applyEditToReplay, replayManifestStream)

    How the set of live SSTables and the counters are recovered from the
    record stream of a MANIFEST that a crash may have cut anywhere. *)
From S2P Require Import Prelude.
From S2P Require Import Errors.
From S2P Require Import Keys.
From S2P Require Import GoIO.
From S2P Require Import GoSort.
From S2P Require Import Record.
From S2P Require Import RecordIO.
From S2P Require Import Edit.
From S2P Require Import Version.
From S2P Require Import Fs.
From S2P Require Import Manifest.

Local Open Scope Z_scope.

Record manifestReplayResult := mkReplay {
  version : Version;
  nextFileID : Z;
  seqno : Z;
  logNumber : Z;
  validOffset : nat;
  tailTrimmed : bool
}.

(** The variables of the replay: the result so far, [liveFiles],
    [sawNextFileID]. *)
Record replayState := mkReplayState {
  rs_res : manifestReplayResult;
  liveFiles : gset Z;
  sawNextFileID : bool
}.

Section Replay.
Context {slices : Slices}.

(** The first loop of [applyEditToReplay]. *)
Fixpoint add_live (fms : list FileMetadata) (live : gset Z) : res (gset Z) :=
  match fms with
  | [] => Ok live
  | fm :: fms =>
      if bool_decide (FileID fm ∈ live)
      then throw (ErrorText "beachdb: manifest: duplicate AddFile for fileID")
      else add_live fms ({[FileID fm]} ∪ live)
  end.

(** The second. *)
Definition delete_live (ds : list DeletedFile) (live : gset Z) : gset Z :=
  foldl (fun live d => live ∖ {[d_FileID d]}) live ds.

Definition applyEditToReplay (edit : VersionEdit) (st : replayState) : res replayState :=
  live ← add_live (AddedFiles edit) (liveFiles st);
  let live := delete_live (DeletedFiles edit) live in
  let r := rs_res st in
  Ok (mkReplayState
    (mkReplay (Apply (version r) edit)
      (if HasNextFileID edit then NextFileID edit else nextFileID r)
      (if HasLastSequence edit then LastSequence edit else seqno r)
      (if HasLogNumber edit then LogNumber edit else logNumber r)
      (validOffset r) (tailTrimmed r))
    live
    (HasNextFileID edit || sawNextFileID st)).

Definition init_replay : replayState :=
  mkReplayState (mkReplay (NewVersion 0) 0 0 0 0 false) ∅ false.

(** The end of the stream: [res.validOffset], [res.tailTrimmed], and the check
    that a NextFileID was seen. *)
Definition end_replay (trimmed : bool) (reader : Reader) (st : replayState) : res manifestReplayResult :=
  let r := rs_res st in
  if sawNextFileID st
  then Ok (mkReplay (version r) (nextFileID r) (seqno r) (logNumber r) (ValidOffset (Some reader)) trimmed)
  else throw (ErrorText "beachdb: manifest has no NextFileID counter").

Fixpoint replay_loop (fuel : nat) (reader : Reader) (st : replayState) : res manifestReplayResult * Reader :=
  match fuel with
  | O => (Panic, reader)
  | S fuel =>
      let '(edit, reader) := NextEdit reader in
      match edit with
      | Panic => (Panic, reader)
      | Err err =>
          if errors_Is err io.EOF || errors_Is err record.ErrTruncated
          then (end_replay (errors_Is err record.ErrTruncated) reader st, reader)
          else (throw (Errorf "beachdb: replaying manifest" err), reader)
      | Ok edit =>
          match applyEditToReplay edit st with
          | Panic => (Panic, reader)
          | Err err => (throw err, reader)
          | Ok st => replay_loop fuel reader st
          end
      end
  end.

(** Every record is at least a header long, so the loop ends before the fuel. *)
Definition replayManifestStream (reader : Reader) : res manifestReplayResult * Reader :=
  replay_loop (drain_fuel reader) reader init_replay.

(** ** What a replay computes *)

(** The edits of [es] applied one after the other. *)
Fixpoint fold_edits (es : list VersionEdit) (st : replayState) : res replayState :=
  match es with
  | [] => Ok st
  | e :: es => st ← applyEditToReplay e st; fold_edits es st
  end.

Lemma fold_edits_app es es' st :
  fold_edits (es ++ es') st = (st ← fold_edits es st; fold_edits es' st).
Proof.
  revert st. induction es as [|e es IH]; intros st; cbn [app fold_edits]; [done|].
  rewrite bind_assoc. apply bind_ext. auto.
Qed.

Definition replay_result (es : list VersionEdit) (trimmed : bool) (st : replayState) : res manifestReplayResult :=
  st ← fold_edits es st;
  end_replay trimmed (mkReader true (mkSource [] None) (length (manifest_image es))) st.

Lemma end_replay_pos trimmed r r' st :
  r_pos r = r_pos r' -> end_replay trimmed r st = end_replay trimmed r' st.
Proof. unfold end_replay, ValidOffset, valid_offset. by intros ->. Qed.

(** [qs] is the longest readable prefix of [es] in [img]. *)
Definition longest (es qs : list VersionEdit) (img : bytes) : Prop :=
  qs `prefix_of` es /\ manifest_image qs `prefix_of` img /\
  forall rs, rs `prefix_of` es -> manifest_image rs `prefix_of` img -> rs `prefix_of` qs.

Lemma longest_cons e es qs img :
  longest es qs img -> longest (e :: es) (e :: qs) (record_wire manifestRecordFormat (edit_wire e) ++ img).
Proof.
  intros (Hq & Hl & Hmax). split_and!; [by apply prefix_cons|by apply prefix_app|].
  intros [|r rs] Hrs Hrl; [apply prefix_nil|].
  pose proof (prefix_cons_inv_1 _ _ _ _ Hrs) as ->. apply prefix_cons_inv_2 in Hrs.
  apply prefix_app_inv in Hrl. by apply prefix_cons, Hmax.
Qed.

Lemma longest_nil e es img :
  (length img < length (record_wire manifestRecordFormat (edit_wire e)))%nat -> longest (e :: es) [] img.
Proof.
  intros Hlt. split_and!; [apply prefix_nil|apply prefix_nil|].
  intros [|r rs] Hrs Hl; [done|]. apply prefix_cons_inv_1 in Hrs as ->. apply prefix_length in Hl.
  change (manifest_image (e :: rs)) with (record_wire manifestRecordFormat (edit_wire e) ++ manifest_image rs) in Hl.
  rewrite length_app in Hl. lia.
Qed.

(** The loop, on what is left of a manifest cut anywhere. *)
Lemma replay_loop_image es img pos fuel st :
  Forall edit_fits es -> img `prefix_of` manifest_image es -> (length img < fuel)%nat ->
  exists qs, longest es qs img /\
    (replay_loop fuel (mkReader true (mkSource img None) pos) st).1 =
      (st ← fold_edits qs st;
       end_replay (negb (bool_decide (img = manifest_image qs)))
         (mkReader true (mkSource [] None) (pos + length (manifest_image qs))) st).
Proof.
  revert img pos fuel st. induction es as [|e es IH]; intros img pos fuel st Hes Hpre Hfuel.
  { apply prefix_nil_inv in Hpre as ->. destruct fuel as [|fuel]; [lia|].
    exists []. split; [split_and!; [done|apply prefix_nil|by intros rs Hrs _]|].
    cbn [fold_edits mbind result_bind replay_loop]. unfold NextEdit, Next. rewrite read_next_eof.
    rewrite bool_decide_true by done. apply end_replay_pos. cbn. lia. }
  apply Forall_cons in Hes as [He Hes]. destruct fuel as [|fuel]; [lia|].
  change (manifest_image (e :: es)) with (record_wire manifestRecordFormat (edit_wire e) ++ manifest_image es) in Hpre.
  set (rw := record_wire manifestRecordFormat (edit_wire e)) in *.
  destruct (decide (length img < length rw)%nat) as [Hlt|Hge].
  - (* cut inside this record *)
    assert (img `prefix_of` rw) as Himg by (eapply prefix_app_short; [done|lia]).
    exists []. split; [by apply longest_nil|].
    cbn [fold_edits mbind result_bind replay_loop]. unfold NextEdit, Next.
    destruct (decide (img = [])) as [->|Hne].
    + rewrite read_next_eof. rewrite bool_decide_true by done. apply end_replay_pos. cbn. lia.
    + destruct (read_next_torn manifestRecordFormat manifest.ErrReaderClosed (edit_wire e) img pos)
        as [src ->]; [apply He|done|done|done|].
      rewrite bool_decide_false by done. apply end_replay_pos. cbn. lia.
  - (* a whole record *)
    assert (rw `prefix_of` img) as [rst ->] by (eapply prefix_app_long; [done|lia]).
    apply prefix_app_inv in Hpre. rewrite length_app in Hfuel.
    assert (0 < length rw)%nat as Hpos by (unfold rw; rewrite length_record_wire; assert (HeaderSize = 18%nat) by done; lia).
    cbn [replay_loop]. pose proof (NextEdit_record e rst pos He) as En. fold rw in En. rewrite En.
    destruct (applyEditToReplay e st) as [st'|err|] eqn:Ea.
    + destruct (IH rst (pos + length rw)%nat fuel st' Hes Hpre ltac:(lia)) as (qs & Hq & Er).
      exists (e :: qs). change (manifest_image (e :: qs)) with (rw ++ manifest_image qs).
      split; [by apply longest_cons|].
      rewrite Er. cbn [fold_edits]. rewrite Ea. cbn [mbind result_bind]. apply bind_ext. intros st2 _.
      replace (bool_decide (rw ++ rst = rw ++ manifest_image qs)) with (bool_decide (rst = manifest_image qs))
        by (apply bool_decide_ext; split; [congruence|apply app_inv_head]).
      apply end_replay_pos. cbn [r_pos]. rewrite length_app. lia.
    + (* the longest readable prefix, although the replay stops here *)
      destruct (IH rst 0%nat (S (length rst)) st Hes Hpre ltac:(lia)) as (qs & Hq & _).
      exists (e :: qs). split; [by apply longest_cons|]. cbn [fold_edits]. by rewrite Ea.
    + unfold applyEditToReplay in Ea. destruct (add_live _ _) eqn:Eal; try done.
      exfalso. clear -Eal. revert Eal. generalize (liveFiles st). induction (AddedFiles e) as [|f fs IH]; cbn [add_live]; [done|].
      intros g. case_bool_decide; [done|apply IH].
Qed.

(** The replay of a manifest cut anywhere. *)
Lemma manifest_image_replay (es : list VersionEdit) (img : bytes) :
  Forall edit_fits es -> img `prefix_of` manifest_image es ->
  exists qs, qs `prefix_of` es /\ manifest_image qs `prefix_of` img /\
    (forall rs, rs `prefix_of` es -> manifest_image rs `prefix_of` img -> rs `prefix_of` qs) /\
    (replayManifestStream (open_reader (mkSource img None))).1 =
      replay_result qs (negb (bool_decide (img = manifest_image qs))) init_replay.
Proof.
  intros Hes Hpre. unfold replayManifestStream, drain_fuel, open_reader. cbn [r_src src_bytes].
  destruct (replay_loop_image es img 0 (S (length img)) init_replay Hes Hpre ltac:(lia)) as (qs & (H1 & H2 & H3) & E).
  by exists qs.
Qed.

(** ** Properties *)

End Replay.

Definition first_edit : VersionEdit := mkVersionEdit [] [] true 1 true 0 true 0.
Definition second_edit : VersionEdit :=
  mkVersionEdit [mkFileMetadata 0 1 300 (mkInternalKey [x61] 2 x01) (mkInternalKey [x62] 1 x01)] []
    true 2 true 2 false 0.

(** The second record is cut in its last byte. *)
Definition cut_manifest : bytes :=
  take (length (manifest_image [first_edit; second_edit]) - 1) (manifest_image [first_edit; second_edit]).

