(* ===== verification/FileNames.v ===== *)
(** * File names (engine/db.go: buildSSTFileName, parseSSTFileName,
      buildManifestFileName, nextAvailableManifestID) *)
From S2P Require Import Prelude.
From S2P Require Import Errors.
From S2P Require Import Keys.
From S2P Require Import GoIO.
From S2P Require Import Fs.

Local Open Scope Z_scope.

Definition walFileName : bytes := bytes_of_string "beachdb.wal".
Definition sstableFileExt : bytes := bytes_of_string ".sst".
Definition sstableFileIDWidth : nat := 20.
Definition manifestFilePrefix : bytes := bytes_of_string "MANIFEST-".
Definition manifestFileIDWidth : nat := 6.

(** ** Decimal numbers: [fmt]'s [%0*d] and [strconv.ParseUint] *)
Definition digit (d : Z) : byte := Z_to_byte (48 + d).
Definition digit_value (b : byte) : Z := byte_to_Z b - 48.
Definition is_digit (b : byte) : bool := (48 <=? byte_to_Z b) && (byte_to_Z b <=? 57).

(** The digits of a [uint64], at most twenty. *)
Fixpoint decimal_loop (fuel : nat) (n : Z) : bytes :=
  match fuel with
  | O => []
  | S fuel => if n <? 10 then [digit n] else decimal_loop fuel (n / 10) ++ [digit (n mod 10)]
  end.
Definition decimal (n : Z) : bytes := decimal_loop 20 n.

(** [fmt.Sprintf("%0*d", width, n)]: padded, never cut. *)
Definition zero_padded (width : nat) (n : Z) : bytes :=
  replicate (width - length (decimal n)) x30 ++ decimal n.

Definition decimal_value (s : bytes) : Z := foldl (fun acc b => acc * 10 + digit_value b) 0 s.

(** [strconv.ParseUint(s, 10, 64)]. *)
Definition ParseUint (s : bytes) : option Z :=
  if bool_decide (s = []) then None
  else if negb (forallb is_digit s) then None
  else if 2 ^ 64 <=? decimal_value s then None
  else Some (decimal_value s).

(** [filepath.Ext]: from the last dot of the last path element, scanning back. *)
Fixpoint ext_loop (rev_name : bytes) (acc : bytes) : bytes :=
  match rev_name with
  | [] => []
  | b :: rest =>
      if bool_decide (b = x2f) then []
      else if bool_decide (b = x2e) then b :: acc
      else ext_loop rest (b :: acc)
  end.
Definition filepath_Ext (name : bytes) : bytes := ext_loop (reverse name) [].

Definition TrimSuffix (s suffix : bytes) : bytes :=
  if decide (suffix `suffix_of` s) then take (length s - length suffix) s else s.
Definition HasPrefix (s pre : bytes) : bool := bool_decide (pre `prefix_of` s).
Definition TrimPrefix (s pre : bytes) : bytes :=
  if HasPrefix s pre then drop (length pre) s else s.

(** ** The engine's names *)
Definition buildSSTFileName (id : Z) : bytes := zero_padded sstableFileIDWidth id ++ sstableFileExt.

Definition parseSSTFileName (name : bytes) : Z * bool :=
  if negb (bool_decide (filepath_Ext name = sstableFileExt)) then (0, false)
  else
    let idStr := TrimSuffix name sstableFileExt in
    if negb (length idStr =? sstableFileIDWidth)%nat then (0, false)
    else if negb (forallb is_digit idStr) then (0, false)
    else match ParseUint idStr with Some id => (id, true) | None => (0, false) end.

Definition buildManifestFileName (id : Z) : bytes := manifestFilePrefix ++ zero_padded manifestFileIDWidth id.

(** The loop of [nextAvailableManifestID] over the directory's names. *)
Definition max_manifest_id (names : list bytes) : Z :=
  foldl (fun maxID name =>
    if negb (HasPrefix name manifestFilePrefix) then maxID
    else match ParseUint (TrimPrefix name manifestFilePrefix) with
         | None => maxID
         | Some id => if maxID <? id then id else maxID
         end) 0 names.

Definition nextAvailableManifestID : io (res Z) :=
  entries ← os_ReadDir;
  match entries with
  | Panic => panic
  | Err err => mret (throw (Errorf "beachdb: scanning dir for MANIFEST files" err))
  | Ok names => mret (Ok (u64 (max_manifest_id names + 1)))
  end.

(** ** Fixed-width decimals *)
Fixpoint fixed (w : nat) (n : Z) : bytes :=
  match w with O => [] | S w => fixed w (n / 10) ++ [digit (n mod 10)] end.

Lemma length_fixed w n : length (fixed w n) = w.
Proof. revert n; induction w as [|w IH]; intros n; cbn; [done|]. rewrite length_app, IH. cbn. lia. Qed.

Lemma digit_value_digit d : 0 <= d < 10 -> digit_value (digit d) = d.
Proof. intros H. unfold digit_value, digit. rewrite byte_to_Z_of_Z, Z.mod_small by lia. lia. Qed.

Lemma is_digit_digit d : 0 <= d < 10 -> is_digit (digit d) = true.
Proof. intros H. unfold is_digit, digit. rewrite byte_to_Z_of_Z, Z.mod_small by lia. apply andb_true_iff. lia. Qed.

Lemma digit_digit_value b : is_digit b = true -> digit (digit_value b) = b.
Proof.
  unfold digit, digit_value. intros _. replace (48 + (byte_to_Z b - 48)) with (byte_to_Z b) by lia.
  apply Z_to_byte_to_Z.
Qed.

Lemma digit_value_range b : is_digit b = true -> 0 <= digit_value b < 10.
Proof. unfold is_digit, digit_value. intros [H1 H2]%andb_true_iff. zb. lia. Qed.

Lemma fixed_zero w : fixed w 0 = replicate w x30.
Proof.
  induction w as [|w IH]; [done|]. cbn [fixed]. rewrite Z.div_0_l, IH, Z.mod_0_l by lia.
  change [digit 0] with (replicate 1 x30). rewrite <-replicate_add. f_equal. lia.
Qed.

(** Padding a number that fits gives the fixed-width form. *)
Lemma decimal_fixed w fuel n :
  (1 <= w <= fuel)%nat -> 0 <= n < 10 ^ Z.of_nat w ->
  (length (decimal_loop fuel n) <= w)%nat /\
  replicate (w - length (decimal_loop fuel n)) x30 ++ decimal_loop fuel n = fixed w n.
Proof.
  revert fuel n. induction w as [|w IH]; intros fuel n Hw Hn; [lia|].
  destruct fuel as [|fuel]; [lia|]. cbn [decimal_loop fixed].
  destruct (Z.ltb_spec n 10) as [Hlt|Hge].
  - cbn [length]. split; [lia|]. replace (S w - 1)%nat with w by lia.
    rewrite Z.div_small, Z.mod_small by lia. by rewrite fixed_zero.
  - destruct w as [|w]; [cbn in Hn; lia|].
    destruct (IH fuel (n / 10)) as [Hl E]; [lia| |].
    { rewrite Nat2Z.inj_succ, Z.pow_succ_r in Hn by lia.
      split; [apply Z.div_pos; lia|apply Z.div_lt_upper_bound; lia]. }
    rewrite length_app. cbn [length]. split; [lia|]. rewrite <-E, app_assoc. do 3 f_equal. lia.
Qed.

Lemma zero_padded_fixed w n :
  (1 <= w <= 20)%nat -> 0 <= n < 10 ^ Z.of_nat w -> zero_padded w n = fixed w n.
Proof. intros Hw Hn. by apply (decimal_fixed w 20 n). Qed.

Lemma decimal_value_snoc s b : decimal_value (s ++ [b]) = decimal_value s * 10 + digit_value b.
Proof. unfold decimal_value. by rewrite foldl_app. Qed.

Lemma decimal_value_fixed w n : 0 <= n < 10 ^ Z.of_nat w -> decimal_value (fixed w n) = n.
Proof.
  revert n. induction w as [|w IH]; intros n Hn; [cbn in *; unfold decimal_value; cbn; lia|].
  cbn [fixed]. rewrite Nat2Z.inj_succ, Z.pow_succ_r in Hn by lia.
  rewrite decimal_value_snoc, IH, digit_value_digit by
    (try split; try apply Z.mod_pos_bound; try apply Z.div_pos; try apply Z.div_lt_upper_bound; lia).
  pose proof (Z.div_mod n 10). lia.
Qed.

Lemma fixed_decimal_value s :
  forallb is_digit s = true -> fixed (length s) (decimal_value s) = s.
Proof.
  induction s as [|b s IH] using rev_ind; [done|]. rewrite forallb_app. cbn [forallb]. intros [Hs Hb]%andb_true_iff.
  rewrite andb_true_r in Hb. rewrite length_app, Nat.add_comm. cbn [length Nat.add fixed].
  rewrite decimal_value_snoc. pose proof (digit_value_range b Hb).
  rewrite Z.div_add_l, (Z.div_small (digit_value b)), Z.add_0_r by lia.
  rewrite Z.add_comm, Z.mod_add, Z.mod_small by lia. by rewrite IH, digit_digit_value.
Qed.

Lemma forallb_fixed w n : forallb is_digit (fixed w n) = true.
Proof.
  revert n. induction w as [|w IH]; intros n; [done|]. cbn [fixed].
  rewrite forallb_app, IH. cbn. by rewrite is_digit_digit by (apply Z.mod_pos_bound; lia).
Qed.

Lemma decimal_value_range s : forallb is_digit s = true -> 0 <= decimal_value s < 10 ^ zlen s.
Proof.
  induction s as [|b s IH] using rev_ind; [unfold decimal_value, zlen; cbn; lia|]. rewrite forallb_app. cbn [forallb]. intros [Hs Hb]%andb_true_iff.
  rewrite andb_true_r in Hb. rewrite decimal_value_snoc, zlen_app. pose proof (digit_value_range b Hb).
  change (zlen [b]) with 1. rewrite Z.pow_add_r by (apply zlen_nonneg || lia). specialize (IH Hs). lia.
Qed.

(** ** Order *)
Lemma bytes_Compare_app x y u v :
  length x = length y ->
  bytes_Compare (x ++ u) (y ++ v) = if bytes_Compare x y =? 0 then bytes_Compare u v else bytes_Compare x y.
Proof.
  revert y. induction x as [|a x IH]; intros [|b y]; cbn [length app bytes_Compare]; try done.
  intros [= Hl]. destruct (_ <? _); [done|]. destruct (_ <? _); [done|]. by apply IH.
Qed.

Lemma digit_compare a b :
  0 <= a < 10 -> 0 <= b < 10 -> bytes_Compare [digit a] [digit b] = if a <? b then -1 else if b <? a then 1 else 0.
Proof.
  intros Ha Hb. cbn [bytes_Compare]. unfold digit. rewrite !byte_to_Z_of_Z, !Z.mod_small by lia.
  destruct (Z.ltb_spec a b), (Z.ltb_spec b a), (Z.ltb_spec (48 + a) (48 + b)), (Z.ltb_spec (48 + b) (48 + a)); lia.
Qed.

Lemma fixed_compare w a b :
  0 <= a < 10 ^ Z.of_nat w -> 0 <= b < 10 ^ Z.of_nat w ->
  bytes_Compare (fixed w a) (fixed w b) = if a <? b then -1 else if b <? a then 1 else 0.
Proof.
  revert a b. induction w as [|w IH]; intros a b Ha Hb.
  { cbn in *. replace a with 0 by lia. replace b with 0 by lia. done. }
  cbn [fixed]. rewrite Nat2Z.inj_succ, Z.pow_succ_r in Ha, Hb by lia.
  rewrite bytes_Compare_app by (by rewrite !length_fixed).
  rewrite IH, digit_compare by
    (try split; try apply Z.mod_pos_bound; try apply Z.div_pos; try apply Z.div_lt_upper_bound; lia).
  pose proof (Z.div_mod a 10). pose proof (Z.div_mod b 10).
  pose proof (Z.mod_pos_bound a 10). pose proof (Z.mod_pos_bound b 10).
  destruct (Z.ltb_spec (a / 10) (b / 10)); [destruct (Z.ltb_spec a b); [done|lia]|].
  destruct (Z.ltb_spec (b / 10) (a / 10)); cbn [Z.eqb].
  - destruct (Z.ltb_spec a b); [lia|]. destruct (Z.ltb_spec b a); [done|lia].
  - destruct (Z.ltb_spec (a mod 10) (b mod 10)), (Z.ltb_spec (b mod 10) (a mod 10)),
      (Z.ltb_spec a b), (Z.ltb_spec b a); lia.
Qed.

Lemma u64_width n : is_u64 n -> 0 <= n < 10 ^ Z.of_nat 20.
Proof. unfold is_u64. cbn. lia. Qed.

(** ** SSTable names *)
Lemma buildSSTFileName_fixed id : is_u64 id -> buildSSTFileName id = fixed 20 id ++ sstableFileExt.
Proof.
  intros H. unfold buildSSTFileName. f_equal. apply zero_padded_fixed; [unfold sstableFileIDWidth; lia|].
  by apply u64_width.
Qed.

Lemma filepath_Ext_sst s : filepath_Ext (s ++ sstableFileExt) = sstableFileExt.
Proof. unfold filepath_Ext. rewrite reverse_app. reflexivity. Qed.

(** A name with the extension ends with it. *)
Lemma ext_loop_suffix r acc e :
  ext_loop r acc = e -> e <> [] -> exists mid, reverse r = mid ++ take (length e - length acc) e /\ acc = drop (length e - length acc) e.
Proof.
  revert acc. induction r as [|b r IH]; intros acc H He; cbn [ext_loop] in H; [congruence|].
  case_bool_decide; [congruence|]. case_bool_decide as Hb.
  - subst e b. exists (reverse r). cbn [length]. replace (S (length acc) - length acc)%nat with 1%nat by lia.
    cbn [take drop]. by rewrite reverse_cons.
  - destruct (IH (b :: acc) H He) as (mid & Er & Ea). cbn [length] in *.
    set (k := (length e - S (length acc))%nat) in *.
    assert (length e - length acc = S k)%nat as Ek.
    { apply (f_equal length) in Ea. rewrite length_drop in Ea. cbn in Ea. lia. }
    rewrite Ek. destruct (drop k e) as [|b' rest] eqn:Ed; [done|]. injection Ea as <- ->.
    exists mid. split.
    + rewrite reverse_cons, Er, <-app_assoc. f_equal. symmetry. apply take_S_r.
      rewrite <-(Nat.add_0_r k), <-lookup_drop, Ed. done.
    + rewrite <-Nat.add_1_r, <-drop_drop, Ed. done.
Qed.

Lemma filepath_Ext_inv name : filepath_Ext name = sstableFileExt -> exists s, name = s ++ sstableFileExt.
Proof.
  intros H. apply ext_loop_suffix in H as (mid & E & _); [|done]. rewrite reverse_involutive in E.
  exists mid. exact E.
Qed.

Lemma TrimSuffix_app s suf : TrimSuffix (s ++ suf) suf = s.
Proof.
  unfold TrimSuffix. rewrite decide_True by (by eexists). rewrite length_app.
  replace (length s + length suf - length suf)%nat with (length s) by lia. apply take_app_length.
Qed.

Lemma ParseUint_digits s :
  s <> [] -> forallb is_digit s = true -> is_u64 (decimal_value s) -> ParseUint s = Some (decimal_value s).
Proof.
  intros Hn Hd Hu. unfold ParseUint. rewrite bool_decide_false by done. rewrite Hd. cbn [negb].
  rewrite (proj2 (Z.leb_gt _ _)) by apply Hu. done.
Qed.

Lemma fixed_nonempty w n : (0 < w)%nat -> fixed w n <> [].
Proof. intros Hw E. apply (f_equal length) in E. rewrite length_fixed in E. cbn in E. lia. Qed.

Lemma parse_build id : is_u64 id -> parseSSTFileName (buildSSTFileName id) = (id, true).
Proof.
  intros H. rewrite buildSSTFileName_fixed by done. unfold parseSSTFileName.
  rewrite filepath_Ext_sst, bool_decide_true by done. cbn [negb].
  rewrite TrimSuffix_app, length_fixed, forallb_fixed. cbn [Nat.eqb negb sstableFileIDWidth].
  assert (decimal_value (fixed 20 id) = id) as Ev by (by apply decimal_value_fixed, u64_width).
  rewrite ParseUint_digits; [by rewrite Ev|apply fixed_nonempty; lia|apply forallb_fixed|by rewrite Ev].
Qed.

Lemma parse_sound name id : parseSSTFileName name = (id, true) -> is_u64 id /\ name = buildSSTFileName id.
Proof.
  unfold parseSSTFileName. case_bool_decide as He; cbn [negb]; [|done].
  apply filepath_Ext_inv in He as [s ->]. rewrite TrimSuffix_app.
  destruct (Nat.eqb_spec (length s) sstableFileIDWidth) as [Hl|]; cbn [negb]; [|done].
  destruct (forallb is_digit s) eqn:Hd; cbn [negb]; [|done].
  destruct (ParseUint s) as [v|] eqn:Ep; [|done]. intros [= ->]. unfold ParseUint in Ep.
  case_bool_decide; [done|]. rewrite Hd in Ep. cbn [negb] in Ep.
  destruct (Z.leb_spec (2 ^ 64) (decimal_value s)); [done|]. injection Ep as <-.
  pose proof (decimal_value_range s Hd) as Hr.
  assert (is_u64 (decimal_value s)) as Hu by (unfold is_u64; lia). split; [done|].
  rewrite buildSSTFileName_fixed by done. rewrite <-Hl at 1. by rewrite fixed_decimal_value.
Qed.

(** ** MANIFEST names *)
Lemma decimal_value_zeros k s : decimal_value (replicate k x30 ++ s) = decimal_value s.
Proof. unfold decimal_value. rewrite foldl_app. f_equal. induction k as [|k IH]; [done|]. exact IH. Qed.

Lemma forallb_zeros k s : forallb is_digit (replicate k x30 ++ s) = forallb is_digit s.
Proof. induction k as [|k IH]; [done|]. exact IH. Qed.

Lemma zero_padded_value w n : is_u64 n -> decimal_value (zero_padded w n) = n.
Proof.
  intros H. unfold zero_padded. rewrite decimal_value_zeros.
  destruct (decimal_fixed 20 20 n) as [_ E]; [lia|by apply u64_width|].
  rewrite <-(decimal_value_zeros (20 - length (decimal_loop 20 n))). unfold decimal. rewrite E.
  by apply decimal_value_fixed, u64_width.
Qed.

Lemma zero_padded_digits w n : is_u64 n -> forallb is_digit (zero_padded w n) = true.
Proof.
  intros H. unfold zero_padded. rewrite forallb_zeros.
  destruct (decimal_fixed 20 20 n) as [_ E]; [lia|by apply u64_width|].
  rewrite <-(forallb_zeros (20 - length (decimal_loop 20 n))). unfold decimal. rewrite E. apply forallb_fixed.
Qed.

Lemma decimal_digits n : is_u64 n -> forallb is_digit (decimal n) = true /\ decimal_value (decimal n) = n.
Proof.
  intros Hn. pose proof (zero_padded_digits 0 n Hn) as H1. pose proof (zero_padded_value 0 n Hn) as H2.
  by unfold zero_padded in H1, H2.
Qed.

Lemma decimal_nonempty n : decimal n <> [].
Proof.
  unfold decimal. cbn [decimal_loop]. destruct (n <? 10); [done|].
  intros E. by apply app_nil in E as [_ ?].
Qed.

Lemma ParseUint_zero_padded w n : is_u64 n -> ParseUint (zero_padded w n) = Some n.
Proof.
  intros H. rewrite ParseUint_digits; rewrite ?zero_padded_value; try done; [|by apply zero_padded_digits].
  unfold zero_padded. intros E. apply app_nil in E as [_ E]. by apply decimal_nonempty in E.
Qed.

Lemma TrimPrefix_app pre s : TrimPrefix (pre ++ s) pre = s.
Proof. unfold TrimPrefix, HasPrefix. rewrite bool_decide_true by (by eexists). apply drop_app_length. Qed.

Lemma max_manifest_id_ge names m :
  m <= foldl (fun maxID name =>
    if negb (HasPrefix name manifestFilePrefix) then maxID
    else match ParseUint (TrimPrefix name manifestFilePrefix) with
         | None => maxID
         | Some id => if maxID <? id then id else maxID
         end) m names.
Proof.
  revert m. induction names as [|name names IH]; intros m; cbn [foldl]; [done|].
  etrans; [|apply IH]. destruct (negb _); [done|]. destruct (ParseUint _) as [id|]; [|done].
  destruct (Z.ltb_spec m id); lia.
Qed.

Lemma max_manifest_id_elem names id :
  is_u64 id -> buildManifestFileName id ∈ names -> id <= max_manifest_id names.
Proof.
  intros Hu. unfold max_manifest_id. generalize 0. induction names as [|name names IH]; intros m Hin;
    [by apply not_elem_of_nil in Hin|]. cbn [foldl]. apply elem_of_cons in Hin as [<-|Hin]; [|by apply IH].
  etrans; [|apply max_manifest_id_ge].
  replace (HasPrefix (buildManifestFileName id) manifestFilePrefix) with true
    by (symmetry; unfold HasPrefix; apply bool_decide_true; by eexists).
  cbn [negb]. unfold buildManifestFileName. rewrite TrimPrefix_app, ParseUint_zero_padded by done.
  destruct (Z.ltb_spec m id); lia.
Qed.

Lemma max_manifest_id_fresh names :
  0 <= max_manifest_id names /\ forall id, is_u64 id -> max_manifest_id names < id -> buildManifestFileName id ∉ names.
Proof.
  split; [apply max_manifest_id_ge|]. intros id Hu Hlt Hin.
  pose proof (max_manifest_id_elem names id Hu Hin). lia.
Qed.

(** ** Properties *)

(** C26: SSTable file names.  For every 64-bit ID the name parses back to the
    ID; a name that parses is the canonical one of its ID, so no other file is
    ever taken for an SSTable; and the names sort like the IDs. *)
Theorem sst_file_names :
  (forall id, is_u64 id -> parseSSTFileName (buildSSTFileName id) = (id, true)) /\
  (forall name id, parseSSTFileName name = (id, true) -> is_u64 id /\ name = buildSSTFileName id) /\
  (forall a b, is_u64 a -> is_u64 b ->
     (bytes_Compare (buildSSTFileName a) (buildSSTFileName b) < 0 <-> a < b)).
Proof.
  split; [exact parse_build|]. split; [exact parse_sound|]. intros a b Ha Hb.
  rewrite !buildSSTFileName_fixed, bytes_Compare_app by (done || by rewrite !length_fixed).
  rewrite fixed_compare, bytes_Compare_refl by (by apply u64_width).
  destruct (Z.ltb_spec a b), (Z.ltb_spec b a); cbn; lia.
Qed.

(** C36: MANIFEST file names.  The ID chosen for a new MANIFEST belongs to no
    file in the directory, as long as the 64-bit counter has not run out; but the
    six digits do not keep the names in the order of the IDs, as the comment on
    the width says they do: MANIFEST-1000000 sorts before MANIFEST-999999. *)
Theorem manifest_file_names :
  (forall names, max_manifest_id names < 2 ^ 64 - 1 ->
     buildManifestFileName (u64 (max_manifest_id names + 1)) ∉ names) /\
  bytes_Compare (buildManifestFileName 1000000) (buildManifestFileName 999999) < 0.
Proof.
  split; [|vm_compute; reflexivity]. intros names Hlt.
  destruct (max_manifest_id_fresh names) as [H0 Hf].
  assert (is_u64 (max_manifest_id names + 1)) as Hu by (unfold is_u64; lia).
  rewrite u64_id by done. apply Hf; [done|lia].
Qed.
