(* ===== verification/Engine.v ===== *)
(** * The engine (engine/db.go): state, reads, writes, flushes, close

    Every handler runs its critical sections under [db.mu]; between two of them
    (inside [cond.Wait], or while the lock is dropped for I/O) other goroutines
    run.  A handler is therefore a sequence of segments: each segment is one
    critical section, or one piece of unlocked I/O, and ends by returning or by
    parking the goroutine at the point where it will go on (see [thread]).
    EngineRun.v puts them together. *)
From Stdlib Require Import QArith_base.
From S2P Require Import Prelude.
From S2P Require Import Errors.
From S2P Require Import Keys.
From S2P Require Import GoIO.
From S2P Require Import GoSort.
From S2P Require Import Crashhook.
From S2P Require Import Fs.
From S2P Require Wal.
From S2P Require Batch.
From S2P Require Import Memtable.
From S2P Require SstWriter.
From S2P Require SstReader.
From S2P Require Import Edit.
From S2P Require Import Version.
From S2P Require Manifest.
From S2P Require Import FileNames.

Local Open Scope Z_scope.

(** ** State (type DB)

    Pointers that [Close] sets to nil are options.  [mems] counts the memtables
    created, each with a random stream of its own; [wal_file] is the inode of the
    log's file. *)
Record DB (Mem : Type) := mkDB {
  syncOnWrite : bool;
  memtableFlushSize : Z;
  sstBlockSize : Z;
  closed : bool;
  seqno : Z;
  logno : Z;
  mem : option Mem;
  immMem : option Mem;
  ssts : list SstReader.Reader;
  wal : option Wal.Writer;
  wal_file : nat;
  manifest : option Manifest.Writer;
  version : Version;
  nextSSTID : Z;
  flushDoneCh : bool;
  flushErr : option error;
  mems : nat
}.
Arguments mkDB {Mem}.
Arguments syncOnWrite {Mem}. Arguments memtableFlushSize {Mem}. Arguments sstBlockSize {Mem}.
Arguments closed {Mem}. Arguments seqno {Mem}. Arguments logno {Mem}. Arguments mem {Mem}.
Arguments immMem {Mem}. Arguments ssts {Mem}. Arguments wal {Mem}. Arguments wal_file {Mem}.
Arguments manifest {Mem}. Arguments version {Mem}. Arguments nextSSTID {Mem}.
Arguments flushDoneCh {Mem}. Arguments flushErr {Mem}. Arguments mems {Mem}.

(** The outputs of writing a memtable to an SSTable. *)
Record sstWriteResult := mkSstWriteResult {
  sr_reader : SstReader.Reader;
  sr_smallest : InternalKey;
  sr_largest : InternalKey;
  sr_size : Z
}.

(** Where a goroutine is parked. *)
Inductive thread (Mem : Type) :=
  | TWriteWait                                (* Write, waiting for the flush slot *)
  | TFlushWait                                (* Flush, waiting for the flush slot *)
  | TFlushBg                                  (* Flush, waiting for the background flush *)
  | TFlushIO (imm : Mem) (path : bytes)       (* Flush, lock dropped for I/O *)
  | TFlushPublish (r : res sstWriteResult)    (* Flush, about to take the lock again *)
  | TLoopWait                                 (* flushLoop, asleep *)
  | TLoopIO (imm : Mem) (path : bytes)        (* flushLoop, lock dropped for I/O *)
  | TLoopPublish (r : res sstWriteResult)     (* flushLoop, about to take the lock again *)
  | TCloseWait (wait_loop : bool).            (* Close, before the final cleanup *)
Arguments TWriteWait {Mem}. Arguments TFlushWait {Mem}. Arguments TFlushBg {Mem}.
Arguments TFlushIO {Mem}. Arguments TFlushPublish {Mem}. Arguments TLoopWait {Mem}.
Arguments TLoopIO {Mem}. Arguments TLoopPublish {Mem}. Arguments TCloseWait {Mem}.

(** How a segment ends. *)
Inductive next (Mem : Type) :=
  | Return (err : option error)
  | Park (t : thread Mem).
Arguments Return {Mem}. Arguments Park {Mem}.

Section Engine.
Context {Mem : Type} `{!Memtable Mem} {slices : Slices} `{!Device} (rand : nat -> nat -> Q).
Local Abbreviation DB := (DB Mem).
Local Abbreviation next := (next Mem).

(** ** Field updates *)
Definition set_flushErr (e : option error) (db : DB) : DB :=
  mkDB (syncOnWrite db) (memtableFlushSize db) (sstBlockSize db) (closed db) (seqno db) (logno db)
    (mem db) (immMem db) (ssts db) (wal db) (wal_file db) (manifest db) (version db) (nextSSTID db)
    (flushDoneCh db) e (mems db).

Definition set_wal (w : option Wal.Writer) (db : DB) : DB :=
  mkDB (syncOnWrite db) (memtableFlushSize db) (sstBlockSize db) (closed db) (seqno db) (logno db)
    (mem db) (immMem db) (ssts db) w (wal_file db) (manifest db) (version db) (nextSSTID db)
    (flushDoneCh db) (flushErr db) (mems db).

Definition set_mem (s : Z) (m : Mem) (db : DB) : DB :=
  mkDB (syncOnWrite db) (memtableFlushSize db) (sstBlockSize db) (closed db) s (logno db)
    (Some m) (immMem db) (ssts db) (wal db) (wal_file db) (manifest db) (version db) (nextSSTID db)
    (flushDoneCh db) (flushErr db) (mems db).

Definition set_imm (imm : option Mem) (db : DB) : DB :=
  mkDB (syncOnWrite db) (memtableFlushSize db) (sstBlockSize db) (closed db) (seqno db) (logno db)
    (mem db) imm (ssts db) (wal db) (wal_file db) (manifest db) (version db) (nextSSTID db)
    (flushDoneCh db) (flushErr db) (mems db).

Definition set_closed (db : DB) : DB :=
  mkDB (syncOnWrite db) (memtableFlushSize db) (sstBlockSize db) true (seqno db) (logno db)
    (mem db) (immMem db) (ssts db) (wal db) (wal_file db) (manifest db) (version db) (nextSSTID db)
    (flushDoneCh db) (flushErr db) (mems db).

Definition set_flushDoneCh (ch : bool) (db : DB) : DB :=
  mkDB (syncOnWrite db) (memtableFlushSize db) (sstBlockSize db) (closed db) (seqno db) (logno db)
    (mem db) (immMem db) (ssts db) (wal db) (wal_file db) (manifest db) (version db) (nextSSTID db)
    ch (flushErr db) (mems db).

(** [db.immMem = db.mem; db.mem = memtable.NewSkipList()]. *)
Definition rotate (db : DB) : DB :=
  mkDB (syncOnWrite db) (memtableFlushSize db) (sstBlockSize db) (closed db) (seqno db) (logno db)
    (Some (mem_new (rand (mems db)))) (mem db) (ssts db) (wal db) (wal_file db) (manifest db)
    (version db) (nextSSTID db) (flushDoneCh db) (flushErr db) (S (mems db)).

(** Dereferencing a pointer. *)
Definition deref {A} (p : option A) : res A := match p with Some a => Ok a | None => Panic end.

(** ** Reads *)

(** The scan over the SSTables, newest first. *)
Fixpoint get_ssts (readers : list SstReader.Reader) (key : bytes) (s : Z) : res bytes :=
  match readers with
  | [] => throw engine.ErrKeyNotFound
  | reader :: readers =>
      match SstReader.Get key s reader with
      | Panic => Panic
      | Ok value => Ok value
      | Err err =>
          if errors_Is err sstable.ErrKeyDeleted then throw engine.ErrKeyNotFound
          else if errors_Is err sstable.ErrKeyNotFound then get_ssts readers key s
          else throw (Errorf "beachdb: reading SSTable" err)
      end
  end.

Definition Get (ctx_err : option error) (key : bytes) (db : DB) : res bytes :=
  if closed db then throw engine.ErrDBClosed
  else match ctx_err with
  | Some err => throw (Errorf "beachdb: Get call canceled" err)
  | None =>
  m ← deref (mem db);
  '(value, found) ← mem_get key (seqno db) m;
  if (found : bool)
  then match value with None => throw engine.ErrKeyNotFound | Some v => Ok v end
  else
  '(value, found) ← match immMem db with Some imm => mem_get key (seqno db) imm | None => Ok (None, false) end;
  if (found : bool)
  then match value with None => throw engine.ErrKeyNotFound | Some v => Ok v end
  else get_ssts (reverse (ssts db)) key (seqno db)
  end.

(** ** Writes *)
Definition checkWritePreconditionsLocked (ctx_err : option error) (db : DB) : option error :=
  if closed db then Some (engine_error engine.ErrDBClosed)
  else match flushErr db with
  | Some err => Some err
  | None => Errorf "beachdb: Write call canceled" <$> ctx_err
  end.

(** The internal key kind of an operation; the zero byte for an unknown type. *)
Definition op_kind (op : Batch.operation) : byte :=
  if bool_decide (Batch.opType op = Batch.OpTypePut) then InternalKeyKindPut
  else if bool_decide (Batch.opType op = Batch.OpTypeDelete) then InternalKeyKindDelete
  else x00.

Fixpoint applyOperations (ops : list Batch.operation) (db : DB) : res DB :=
  match ops with
  | [] => Ok db
  | op :: ops =>
      let s := u64 (seqno db + 1) in
      m ← deref (mem db);
      m ← mem_put (mkInternalKey (Batch.op_key op) s (op_kind op)) (Batch.op_value op) m;
      applyOperations ops (set_mem s m db)
  end.

Definition applyBatch (b : option Batch.Batch) (db : DB) : res DB :=
  match b with None => Ok db | Some _ => applyOperations (Batch.snapshot b) db end.

(** A WAL method, on the file behind the writer. *)
Definition wal_Append (payload : bytes) (db : DB) : io (DB * option error) :=
  w ← pure (deref (wal db));
  '(w, err) ← on_file_res (wal_file db) (fun f =>
    '(w, f, err) ← Wal.Append payload w f; Ok ((w, err), f));
  mret (set_wal (Some w) db, err).

Definition wal_Sync (db : DB) : io (DB * option error) :=
  w ← pure (deref (wal db));
  '(w, err) ← on_file (wal_file db) (fun f => let '(w, f, err) := Wal.Sync w f in ((w, err), f));
  mret (set_wal (Some w) db, err).

Definition syncWALLocked (db : DB) : io (DB * option error) :=
  if negb (syncOnWrite db) then mret (db, None)
  else
  fault ← MaybeFault FaultWALSyncError;
  match fault with
  | Some err => mret (db, Some (Errorf "beachdb: syncing WAL" err))
  | None =>
  '(db, err) ← wal_Sync db;
  mret (db, Errorf "beachdb: syncing WAL" <$> err)
  end.

(** [waitForFlushSlotLocked]: at the top of the loop, and after [cond.Wait]. *)
Definition flush_slot (db : DB) : option (option error) :=
  match immMem db with
  | None => Some None
  | Some _ => match flushErr db with Some err => Some (Some err) | None => None end
  end.

Definition flush_slot_wake (db : DB) : option (option error) :=
  if closed db then Some (Some (engine_error engine.ErrDBClosed))
  else match flushErr db with Some err => Some (Some err) | None => flush_slot db end.

(** The rest of [maybeAutoFlushLocked], once the wait is over. *)
Definition auto_rotate (slot : option (option error)) (db : DB) : io (DB * next) :=
  match slot with
  | None => mret (db, Park TWriteWait)
  | Some (Some err) => mret (db, Return (Some err))
  | Some None => mret (rotate db, Return None)
  end.

Definition maybeAutoFlushLocked (db : DB) : io (DB * next) :=
  m ← pure (deref (mem db));
  if (memtableFlushSize db =? 0) || (mem_size m <? memtableFlushSize db) then mret (db, Return None)
  else auto_rotate (flush_slot db) db.

Definition write_wake (db : DB) : io (DB * next) := auto_rotate (flush_slot_wake db) db.

Definition Write (ctx_err : option error) (b : option Batch.Batch) (db : DB) : io (DB * next) :=
  match checkWritePreconditionsLocked ctx_err db with
  | Some err => mret (db, Return (Some err))
  | None =>
  if match b with None => true | Some b => Batch.Empty b end then mret (db, Return None)
  else
  let ops := Batch.snapshot b in
  encoded ← pure (Batch.encodeOperations ops);
  '(db, err) ← wal_Append encoded db;
  match err with
  | Some err => mret (db, Return (Some (Errorf "beachdb: appending to WAL" err)))
  | None =>
  '(db, err) ← syncWALLocked db;
  match err with
  | Some err => mret (db, Return (Some err))
  | None =>
  db ← pure (applyOperations ops db);
  maybeAutoFlushLocked db
  end end end.

Definition Put (ctx_err : option error) (key value : bytes) (db : DB) : io (DB * next) :=
  Write ctx_err (Some (Batch.Put key value Batch.NewBatch)) db.

Definition Delete (ctx_err : option error) (key : bytes) (db : DB) : io (DB * next) :=
  Write ctx_err (Some (Batch.Delete key Batch.NewBatch)) db.

(** ** Writing an SSTable *)

(** The loop of [writeMemtableEntries] over the entries its iterator yields:
    adds them in order, remembering the first and the last key. *)
Fixpoint add_entries (es : list entry) (first : bool) (smallest largest : InternalKey)
    (w : SstWriter.Writer) (f : File)
  : res (SstWriter.Writer * (bool * InternalKey * InternalKey * option error) * File) :=
  match es with
  | [] => Ok (w, (first, smallest, largest, None), f)
  | (key, value) :: es =>
      '(w, f, addErr) ← SstWriter.Add key value w f;
      match addErr with
      | Some err => Ok (w, (first, smallest, largest, Some (Errorf "beachdb: writing entry to SSTable" err)), f)
      | None => add_entries es false (if first then key else smallest) key w f
      end
  end.

Definition writeMemtableEntries (w : SstWriter.Writer) (m : Mem) (f : File)
  : res (SstWriter.Writer * (InternalKey * InternalKey * option error) * File) :=
  '(es, _) ← mem_scan m;
  '(w, (first, smallest, largest, err), f) ← add_entries es true zeroKey zeroKey w f;
  match err with
  | Some err => Ok (w, (smallest, largest, Some err), f)
  | None =>
      if (first : bool) then Ok (w, (smallest, largest, Some (engine_error engine.ErrFlushEmptyMemtable)), f)
      else Ok (w, (smallest, largest, None), f)
  end.

Definition writer_opts (blockSize : Z) : list SstWriter.WriterOption :=
  SstWriter.WithSync true :: (if 0 <? blockSize then [SstWriter.WithBlockSize blockSize] else []).

Definition sst_Close (w : SstWriter.Writer) (f : File) : res (option error * File) :=
  '(_, f, err) ← SstWriter.Close w f; Ok (err, f).

(** [os.Open] of a finished table. *)
Definition open_table (path : bytes) : io (res SstReader.ReadFile) :=
  file ← os_Open path;
  match file with
  | Panic => panic
  | Err err => mret (throw err)
  | Ok i => on_file i (fun f => (Ok (SstReader.mkReadFile (f_content f) (stat_fails i) (bad_read i)), f))
  end.

(** Closing a file opened for reading only. *)
Definition close_table : io (option error) :=
  r ← syscall "close" (fun s => (Ok tt, s));
  mret (match r with Err err => Some err | _ => None end).

(** The part of [writeSSTable] after the file is created; [sstFile] is closed by
    the caller's [defer]. *)
Definition fill_sstable (path : bytes) (sstFile : nat) (m : Mem) (blockSize : Z) : io (res sstWriteResult) :=
  writer ← on_file_res sstFile (fun f =>
    match SstWriter.NewWriter (Some f) (writer_opts blockSize) with
    | Ok (w, f) => Ok (Ok w, f) | Err err => Ok (throw err, f) | Panic => Panic
    end);
  match writer with
  | Panic => panic
  | Err err => _ ← os_Remove path; mret (throw (Errorf "beachdb: creating SSTable writer" err))
  | Ok writer =>
  '(writer, (smallestKey, largestKey, err)) ← on_file_res sstFile (writeMemtableEntries writer m);
  match err with
  | Some err =>
      _ ← on_file_res sstFile (sst_Close writer); _ ← os_Remove path; mret (throw err)
  | None =>
  err ← on_file_res sstFile (sst_Close writer);
  match err with
  | Some err => _ ← os_Remove path; mret (throw (Errorf "beachdb: closing SSTable writer" err))
  | None =>
  r ← SyncDir;
  match r with
  | Panic => panic
  | Err err => mret (throw (Errorf "beachdb: syncing directory after flush" err))
  | Ok _ =>
  rf ← open_table path;
  match rf with
  | Panic => panic
  | Err err => mret (throw (Errorf "beachdb: opening SSTable for reading" err))
  | Ok rf =>
  reader ← call (SstReader.OpenReader (Some rf));
  match reader with
  | Panic => panic
  | Err err => _ ← close_table; mret (throw (Errorf "beachdb: error reading newly flushed SSTable" err))
  | Ok reader =>
  let fileSize := SstReader.FileSize reader in
  if fileSize <? 0
  then _ ← close_table; mret (throw (ErrorText "beachdb: SSTable reports negative size"))
  else mret (Ok (mkSstWriteResult reader smallestKey largestKey (u64 fileSize)))
  end end end end end end.

Definition writeSSTable (path : bytes) (m : Mem) (blockSize : Z) : io (res sstWriteResult) :=
  fault ← MaybeFault FaultSSTWriteError;
  match fault with
  | Some err => mret (throw (Errorf "beachdb: writing SSTable" err))
  | None =>
  sstFile ← os_Create path;
  match sstFile with
  | Panic => panic
  | Err _ => mret (throw (Errorf "creating SSTable" engine.ErrCreatingSSTFile))
  | Ok sstFile =>
  result ← fill_sstable path sstFile m blockSize;
  _ ← f_close sstFile;
  mret result
  end end.

(** ** Flushing *)
Definition nextSSTPath (db : DB) : bytes := buildSSTFileName (nextSSTID db).

Definition flush_edit (r : sstWriteResult) (db : DB) : VersionEdit :=
  mkVersionEdit
    [mkFileMetadata 0 (nextSSTID db) (sr_size r) (sr_smallest r) (sr_largest r)]
    [] true (u64 (1 + nextSSTID db)) true (seqno db) false 0.

Definition publishFlushedSSTLocked (r : sstWriteResult) (db : DB) : io (DB * option error) :=
  fault ← MaybeFault FaultSSTPublishError;
  match fault with
  | Some err => mret (db, Some (Errorf "beachdb: publishing SSTable" err))
  | None =>
  let versionEdit := flush_edit r db in
  encoded ← pure (Edit.Encode versionEdit);
  w ← pure (deref (manifest db));
  err ← Manifest.Append encoded w;
  match err with
  | Some err => _ ← close_table; mret (db, Some (Errorf "beachdb: appending flush edit to manifest" err))
  | None =>
  mret (mkDB (syncOnWrite db) (memtableFlushSize db) (sstBlockSize db) (closed db) (seqno db) (logno db)
          (mem db) None (ssts db ++ [sr_reader r]) (wal db) (wal_file db) (manifest db)
          (Apply (version db) versionEdit) (u64 (nextSSTID db + 1)) (flushDoneCh db) None (mems db), None)
  end end.

(** Publishing the outcome of the I/O, under the lock again: in [flushMemtable]
    and in [flushLoop] alike. *)
Definition publish_outcome (r : res sstWriteResult) (db : DB) : io (DB * option error) :=
  match r with
  | Panic => panic
  | Err err => mret (set_flushErr (Some err) db, Some err)
  | Ok r =>
      '(db, err) ← publishFlushedSSTLocked r db;
      match err with
      | Some err => mret (set_flushErr (Some err) db, Some err)
      | None => mret (db, None)
      end
  end.

(** *** flushMemtable, called by Flush *)

(** Once the flush slot is free. *)
Definition flush_rotate (db : DB) : io (DB * next) :=
  if flushDoneCh db
  then mret (rotate db, Park TFlushBg)
  else
    imm ← pure (deref (mem db));
    let db := rotate db in
    mret (db, Park (TFlushIO imm (nextSSTPath db))).

Definition flush_wait (slot : option (option error)) (db : DB) : io (DB * next) :=
  match slot with
  | None => mret (db, Park TFlushWait)
  | Some (Some err) => mret (db, Return (Some err))
  | Some None => flush_rotate db
  end.

Definition Flush (db : DB) : io (DB * next) :=
  if closed db then mret (db, Return (Some (engine_error engine.ErrDBClosed)))
  else match flushErr db with
  | Some err => mret (db, Return (Some err))
  | None =>
  m ← pure (deref (mem db));
  if mem_empty m then mret (db, Return None)
  else flush_wait (flush_slot db) db
  end.

Definition flush_wake (db : DB) : io (DB * next) := flush_wait (flush_slot_wake db) db.

(** The loop waiting for the background goroutine. *)
Definition flush_bg_wake (db : DB) : io (DB * next) :=
  match flushErr db with
  | Some err => mret (db, Return (Some err))
  | None =>
      if (if immMem db then true else false) && negb (closed db) then mret (db, Park TFlushBg)
      else if closed db then mret (db, Return (Some (engine_error engine.ErrDBClosed)))
      else mret (db, Return (flushErr db))
  end.

Definition flush_publish (r : res sstWriteResult) (db : DB) : io (DB * next) :=
  '(db, err) ← publish_outcome r db; mret (db, Return err).

(** *** flushLoop *)

(** The deferred cleanup; [close(doneCh)] is the goroutine's return. *)
Definition loop_exit (db : DB) : DB := set_flushDoneCh false db.

(** From the top of the loop to the next I/O, wait or exit.  Skipping an empty
    memtable sets [immMem] to nil, so the second round always waits or exits. *)
Definition loop_top (db : DB) : io (DB * next) :=
  let go db :=
    match immMem db with
    | None => if closed db then inl (loop_exit db, Return None) else inl (db, Park TLoopWait)
    | Some imm => if closed db then inl (loop_exit db, Return None) else inr imm
    end in
  match go db with
  | inl r => mret r
  | inr imm =>
      if mem_empty imm
      then match go (set_imm None db) with inl r => mret r | inr _ => panic end
      else mret (db, Park (TLoopIO imm (nextSSTPath db)))
  end.

Definition loop_publish (r : res sstWriteResult) (db : DB) : io (DB * next) :=
  '(db, err) ← publish_outcome r db;
  match err with
  | Some err => mret (loop_exit db, Return (Some err))
  | None => loop_top db
  end.

(** ** Close *)
Definition Close (db : DB) : io (DB * next) :=
  if closed db then mret (db, Return (Some (engine_error engine.ErrDBClosed)))
  else mret (set_closed db, Park (TCloseWait (flushDoneCh db))).

Fixpoint close_readers (rs : list SstReader.Reader) (firstError : option error) : io (option error) :=
  match rs with
  | [] => mret firstError
  | r :: rs =>
      close_err ← (match SstReader.file r with Some _ => close_table | None => mret None end);
      let '(err, _) := SstReader.CloseReader close_err (Some r) in
      close_readers rs (match firstError with Some _ => firstError | None => err end)
  end.

Definition close_wal (db : DB) : io (option error) :=
  match wal db with
  | None => mret (Some (wal_error wal.ErrWriterClosed))
  | Some w => on_file (wal_file db) (fun f => let '(_, f, err) := Wal.Close w f in (err, f))
  end.

(** The final cleanup. *)
Definition close_finish (db : DB) : io (DB * next) :=
  firstError ← close_readers (ssts db) None;
  err ← close_wal db;
  let firstError := match firstError with Some _ => firstError | None => err end in
  err ← (match manifest db with
         | None => mret None
         | Some w => '(err, _) ← Manifest.Close (Some w); mret err
         end);
  let firstError := match firstError with Some _ => firstError | None => err end in
  let db := mkDB (syncOnWrite db) (memtableFlushSize db) (sstBlockSize db) (closed db) (seqno db) (logno db)
    None None [] None (wal_file db) None (version db) (nextSSTID db) (flushDoneCh db) (flushErr db) (mems db) in
  mret (db, Return (Errorf "beachdb: error closing DB" <$> firstError)).
End Engine.
