(* ===== verification/EngineRun.v ===== *)
(** * Runs of the engine

    Goroutines calling [Write], [Flush] and [Close], and the background
    [flushLoop], interleaved at every point where the lock is free; and the
    proof that reads see exactly the writes applied, whatever the interleaving
    and whatever system calls fail. *)
From Stdlib Require Import QArith_base.
From S2P Require Import Prelude.
From S2P Require Import Errors.
From S2P Require Import Keys.
From S2P Require Import GoIO.
From S2P Require Import GoSort.
From S2P Require Import Fs.
From S2P Require Wal.
From S2P Require Batch.
From S2P Require Import Memtable.
From S2P Require Block.
From S2P Require SstWriter.
From S2P Require SstReader.
From S2P Require Import Edit.
From S2P Require Import Version.
From S2P Require Manifest.
From S2P Require Import FileNames.
From S2P Require Import Engine.

Local Open Scope Z_scope.

(** ** Inverting programs *)
Lemma io_bind_inv {A B} (m : io A) (k : A -> io B) w b w2 :
  mbind k m w = Some (b, w2) -> exists a w1, m w = Some (a, w1) /\ k a w1 = Some (b, w2).
Proof. unfold mbind, io_bind. destruct (m w) as [[a w1]|]; [|done]. intros H. by exists a, w1. Qed.

Lemma io_ret_inv {A} (a b : A) w w2 : mret (M:=io) a w = Some (b, w2) -> b = a /\ w2 = w.
Proof. by intros [= -> ->]. Qed.

Lemma io_pure_inv {A} (m : res A) a w w2 : pure m w = Some (a, w2) -> m = Ok a /\ w2 = w.
Proof. unfold pure, panic. destruct m; [|done..]. by intros [-> ->]%io_ret_inv. Qed.

Lemma io_call_inv {A} (m : res A) a w w2 : call m w = Some (a, w2) -> m = a /\ m <> Panic /\ w2 = w.
Proof. unfold call, panic. destruct m; [..|done]; by intros [-> ->]%io_ret_inv. Qed.

(** [io_step H as a w E]: the first call of the program in [H] returned [a]
    in the world [w]. *)
Tactic Notation "io_step" hyp(H) "as" ident(a) ident(w) ident(E) :=
  apply io_bind_inv in H as (a & w & E & H).

(** A disk on which files and entries are the same. *)
Definition same_dir (s s' : Fs) : Prop := inodes s' = inodes s /\ live s' = live s.

#[export] Instance same_dir_preorder : PreOrder same_dir.
Proof. split; [done|]. intros s1 s2 s3 [? ?] [? ?]. split; congruence. Qed.

Lemma syscall_inv {A} what (step : Fs -> res A * Fs) w r w' :
  syscall what step w = Some (r, w') ->
  (r = throw (OsError what) /\ same_dir (w_fs w) (w_fs w')) \/
  (exists s, same_dir (w_fs w) s /\ step s = (r, w_fs w')).
Proof.
  unfold syscall. intros H. io_step H as x w1 E.
  assert (same_dir (w_fs w) (w_fs w1)) as Hs.
  { unfold next_call in E. destruct (call_faults (w_fs w)); injection E as <- <-; done. }
  destruct x as [|n]; [|apply io_ret_inv in H as [-> ->]; by left].
  unfold change in H. right. exists (w_fs w1). split; [done|]. destruct (step (w_fs w1)) as [r' s'].
  by injection H as -> <-.
Qed.

Lemma SyncDir_same w r w' : SyncDir w = Some (r, w') -> same_dir (w_fs w) (w_fs w').
Proof.
  unfold SyncDir. intros H. io_step H as x w1 E. apply syscall_inv in E as [[-> Hs]|(s & Hs & [= <- ->])].
  - by apply io_ret_inv in H as [-> ->].
  - io_step H as y w2 E. apply io_ret_inv in H as [-> ->].
    apply syscall_inv in E as [[-> Hs']|(s' & Hs' & E)]; [by etrans|].
    injection E as _ E. rewrite <-E. transitivity s'; [|done]. by etrans.
Qed.

Lemma on_file_res_inv {A} i (g : File -> res (A * File)) w a w' :
  on_file_res i g w = Some (a, w') ->
  exists f f', inodes (w_fs w) !! i = Some f /\ g f = Ok (a, f') /\ w_fs w' = set_inode i f' (w_fs w).
Proof.
  unfold on_file_res. destruct (inodes _ !! i) as [f|]; [|done].
  destruct (g f) as [[a' f']| |] eqn:E; try done. intros [= <- <-]. by exists f, f'.
Qed.

Lemma on_file_inv {A} i (g : File -> A * File) w a w' :
  on_file i g w = Some (a, w') ->
  exists f f', inodes (w_fs w) !! i = Some f /\ g f = (a, f') /\ w_fs w' = set_inode i f' (w_fs w).
Proof.
  unfold on_file. destruct (inodes _ !! i) as [f|]; [|done].
  destruct (g f) as [a' f'] eqn:E. intros [= <- <-]. by exists f, f'.
Qed.

Lemma lookup_set_inode i f s : inodes (set_inode i f s) !! i = Some f.
Proof. apply lookup_insert_eq. Qed.

(** An assumption on the devices: reading an open table, or asking for its size, does not fail. *)
Class GoodDevice {device : Device} : Prop := {
  never_stat_fails i : stat_fails i = false;
  never_bad_read i off n : bad_read i off n = false
}.

Section Run.
Context {Mem : Type} {memtable : Memtable Mem} {memtable_laws : MemtableLaws Mem}.
Context {slices : Slices} {slices_laws : SlicesLaws} {device : Device} {good_device : GoodDevice}.
Context (rand : nat -> nat -> Q).
Local Abbreviation DB := (DB Mem).

(** ** Layers

    Where the writes of a log are kept: in SSTables, in the frozen memtable and
    in the active one. *)
Definition mem_of (m : Mem) (l : list entry) : Prop := mem_inv m /\ entries m = insert_all l [].

(** A reader that answers for the entries of a table. *)
Definition represents (r : SstReader.Reader) (es : list entry) : Prop :=
  forall u s, SstReader.Get u s r = SstReader.table_get u s es.

(** *** A successful writeSSTable *)
Lemma add_entries_all es first sm lg w f w' first' sm' lg' f' :
  add_entries es first sm lg w f = Ok (w', (first', sm', lg', None), f') ->
  SstWriter.add_all es w f = Ok (w', f', None).
Proof.
  revert first sm lg w f. induction es as [|[k v] es IH]; intros first sm lg w f; cbn [add_entries SstWriter.add_all].
  { by intros [= -> _ _ _ ->]. }
  destruct (SstWriter.Add k v w f) as [[[w1 f1] [e|]]| |]; cbn [mbind result_bind]; try done. apply IH.
Qed.

Lemma writer_opts_size bs : 0 < SstWriter.blockSize (SstWriter.applyOptions (writer_opts bs)).
Proof. unfold writer_opts. destruct (Z.ltb_spec 0 bs); cbn; lia. Qed.

Definition small (l : list entry) : Prop := SstReader.log_bytes l < 2 ^ 31.

Lemma log_bytes_perm l l' : l ≡ₚ l' -> SstReader.log_bytes l = SstReader.log_bytes l'.
Proof. induction 1; cbn [SstReader.log_bytes]; lia. Qed.

Lemma insert_entry_perm e es : insert_entry e es ≡ₚ e :: es.
Proof.
  induction es as [|x es IH]; cbn; [done|]. case_decide; [|done]. rewrite IH. apply Permutation_swap.
Qed.

Lemma insert_all_perm l es : insert_all l es ≡ₚ l ++ es.
Proof.
  induction l as [|e l IH] using rev_ind; [done|]. rewrite insert_all_snoc, insert_entry_perm, IH.
  rewrite <-app_assoc. cbn. by rewrite Permutation_middle.
Qed.

(** [OpenReader] makes of a finished table a reader that answers for it. *)
Lemma open_table_ok rf blocks l :
  log_ordered l -> small l -> Forall (fun e => wf_key e.1) l ->
  mjoin blocks = insert_all l [] -> Forall (fun b => b <> []) blocks ->
  SstReader.rf_data rf = SstWriter.table_wire blocks -> SstReader.good rf ->
  exists r, SstReader.OpenReader (Some rf) = Ok r /\ represents r (insert_all l []).
Proof.
  intros Ho Hsm Hk Ej Hne Hd Hg.
  assert (SstReader.table_fits blocks) as Hfit.
  { apply SstReader.table_fits_small.
    - rewrite Ej. apply Forall_forall. intros e [He|He]%insert_all_elem; [|by apply not_elem_of_nil in He].
      rewrite Forall_forall in Hk. by apply Hk.
    - pose proof (SstReader.table_wire_bytes blocks Hne) as Hb. rewrite Ej in Hb.
      rewrite (log_bytes_perm _ (l ++ [])), app_nil_r in Hb by apply insert_all_perm.
      unfold small in Hsm. lia. }
  eexists. split; [by apply (SstReader.OpenReader_table rf blocks Hg Hd Hne Hfit)|].
  intros u s. rewrite <-Ej. apply SstReader.Get_table; try done.
  rewrite Ej. by apply strict_sorted, insert_all_strict.
Qed.

Lemma open_represents rf blocks l r :
  log_ordered l -> small l -> Forall (fun e => wf_key e.1) l ->
  mjoin blocks = insert_all l [] -> Forall (fun b => b <> []) blocks ->
  SstReader.rf_data rf = SstWriter.table_wire blocks -> SstReader.good rf ->
  SstReader.OpenReader (Some rf) = Ok r -> represents r (insert_all l []).
Proof.
  intros Ho Hsm Hk Ej Hne Hd Hg Er. destruct (open_table_ok rf blocks l Ho Hsm Hk Ej Hne Hd Hg) as (r' & Er' & Hr).
  congruence.
Qed.

(** The file a path names, with its content. *)
Definition at_path (path : bytes) (i : nat) (f : File) (s : Fs) : Prop :=
  live s !! path = Some i /\ inodes s !! i = Some f.

Lemma at_path_same path i f s s' : same_dir s s' -> at_path path i f s -> at_path path i f s'.
Proof. intros [Hi Hl] [? ?]. split; congruence. Qed.

Lemma at_path_set_inode path i f f' s : at_path path i f s -> at_path path i f' (set_inode i f' s).
Proof. intros [? ?]. split; [done|apply lookup_set_inode]. Qed.

Lemma open_table_at path i f w rf w' :
  open_table path w = Some (Ok rf, w') -> at_path path i f (w_fs w) ->
  SstReader.rf_data rf = f_content f /\ SstReader.good rf.
Proof using good_device.
  unfold open_table. intros H Hat. io_step H as x w1 E.
  apply syscall_inv in E as [[-> _]|(s & Hs & E)]; [by apply io_ret_inv in H as [? _]|].
  destruct (at_path_same _ _ _ _ _ Hs Hat) as [Hl Hi]. rewrite Hl in E. injection E as <- ->.
  apply on_file_inv in H as (g & g' & Hg & [= <- <-] & _). rewrite Hi in Hg. injection Hg as ->.
  split; [done|]. split; [apply never_stat_fails|]. intros off n. apply never_bad_read.
Qed.

(** A method of the file at the path. *)
Lemma on_file_res_at {A} path i f (g : File -> res (A * File)) w a w' :
  on_file_res i g w = Some (a, w') -> at_path path i f (w_fs w) ->
  exists f', g f = Ok (a, f') /\ at_path path i f' (w_fs w').
Proof.
  intros H Hat. apply on_file_res_inv in H as (f0 & f' & Hi & E & Es).
  rewrite (proj2 Hat) in Hi. injection Hi as <-. exists f'. split; [done|].
  rewrite Es. by apply (at_path_set_inode path i f).
Qed.

Lemma fill_sstable_success path i m bs l f w r w' :
  fill_sstable path i m bs w = Some (Ok r, w') -> at_path path i f (w_fs w) -> f_content f = [] ->
  mem_of m l -> log_ordered l -> small l -> Forall (fun e => wf_key e.1) l ->
  represents (sr_reader r) (entries m).
Proof using memtable_laws good_device.
  intros H Hat Hf [Hinv Hent] Ho Hsm Hk. unfold fill_sstable in H.
  io_step H as writer w1 E. eapply on_file_res_at in E as (f1 & Ew & Hat1); [|exact Hat].
  destruct (SstWriter.NewWriter_inv f (writer_opts bs) Hf (writer_opts_size bs)) as (sw & En & _).
  rewrite En in Ew. injection Ew as <- <-.
  io_step H as x w2 E. destruct x as [sw2 [[sm lg] err]].
  eapply on_file_res_at in E as (f2 & Ea & Hat2); [|exact Hat1].
  unfold writeMemtableEntries in Ea. rewrite mem_scan_spec in Ea by done. cbn [mbind result_bind] in Ea.
  destruct (add_entries _ _ _ _ _ _) as [[[sw3 [[[first sm'] lg'] err']] f3]| |] eqn:Eadd;
    cbn [mbind result_bind] in Ea; try done.
  assert (err' = None /\ err = None /\ sw3 = sw2 /\ f3 = f2) as (-> & -> & -> & ->).
  { destruct err' as [e'|]; [|destruct first].
    1,2: injection Ea as <- _ _ <- <-; io_step H as u w3 E; io_step H as v w4 E4; by apply io_ret_inv in H as [? _].
    by injection Ea as <- _ _ <- <-. }
  apply add_entries_all in Eadd. rewrite Hent in Eadd.
  io_step H as err w3 E. eapply on_file_res_at in E as (f4 & Ec & Hat3); [|exact Hat2]. unfold sst_Close in Ec.
  destruct (SstWriter.Close sw2 f2) as [[[sw4 f5] err6]| |] eqn:Ecl; cbn [mbind result_bind] in Ec; try done.
  injection Ec as <- <-.
  destruct err6 as [e6|]; [io_step H as u w4 E; by apply io_ret_inv in H as [? _]|].
  io_step H as x w4 E. apply SyncDir_same in E as Hsame. apply (at_path_same _ _ _ _ _ Hsame) in Hat3.
  destruct x as [u|e|]; [|by apply io_ret_inv in H as [? _]|done].
  io_step H as rf w5 E5. destruct rf as [rf|e|]; [|by apply io_ret_inv in H as [? _]|done].
  eapply open_table_at in E5 as [Erf Hgood]; [|exact Hat3].
  io_step H as rd w6 E6. apply io_call_inv in E6 as (Er & _ & ->).
  destruct rd as [rd|e|]; [|io_step H as v w7 E7; by apply io_ret_inv in H as [? _]|done].
  destruct (SstReader.FileSize rd <? 0); [io_step H as v w7 E7; by apply io_ret_inv in H as [? _]|].
  apply io_ret_inv in H as [[= ->] _]. cbn [sr_reader].
  destruct (SstWriter.write_all_success (writer_opts bs) (insert_all l []) sw sw2 sw4 f f2 f5) as
    (blocks & Hb1 & Hb2 & Hb3 & _); try done; [apply writer_opts_size|by apply insert_all_strict|].
  rewrite Hent. eapply (open_represents rf blocks); try done. congruence.
Qed.

Lemma writeSSTable_success path m bs l w r w' :
  writeSSTable path m bs w = Some (Ok r, w') ->
  mem_of m l -> log_ordered l -> small l -> Forall (fun e => wf_key e.1) l ->
  represents (sr_reader r) (entries m).
Proof using memtable_laws good_device.
  unfold writeSSTable. intros H Hm Ho Hsm Hk. io_step H as x w1 E.
  destruct x as [e|]; [by apply io_ret_inv in H as [? _]|].
  io_step H as i w2 E0. destruct i as [i|e|]; [|by apply io_ret_inv in H as [? _]|done].
  io_step H as res w3 E1. io_step H as u w4 E2. apply io_ret_inv in H as [<- ->].
  apply syscall_inv in E0 as [[? _]|(s & Hs & E0)]; [done|].
  eapply (fill_sstable_success _ _ _ _ _ (mkFile [] 0 (new_faults s (next_ino s)))); [exact E1| |done..].
  injection E0 as <- E0. rewrite <-E0. split; cbn; by rewrite lookup_insert_eq.
Qed.

(** ** The system

    A state of the database, the disk, the parked goroutines, and (ghost) the
    writes applied so far, oldest first. *)
Record Sys := mkSys { s_db : DB; s_w : World; s_threads : list (thread Mem); s_log : list entry }.

Inductive client_call := CWrite (ctx_err : option error) (b : option Batch.Batch) | CFlush | CClose.

Definition start (c : client_call) (db : DB) : io (DB * next Mem) :=
  match c with
  | CWrite ctx_err b => Write rand ctx_err b db
  | CFlush => Flush rand db
  | CClose => Close db
  end.

(** The next segment of a parked goroutine. *)
Definition resume (t : thread Mem) (db : DB) : io (DB * next Mem) :=
  match t with
  | TWriteWait => write_wake rand db
  | TFlushWait => flush_wake rand db
  | TFlushBg => flush_bg_wake db
  | TFlushIO imm path => r ← writeSSTable path imm (sstBlockSize db); mret (db, Park (TFlushPublish r))
  | TFlushPublish r => flush_publish r db
  | TLoopWait => loop_top db
  | TLoopIO imm path => r ← writeSSTable path imm (sstBlockSize db); mret (db, Park (TLoopPublish r))
  | TLoopPublish r => loop_publish r db
  | TCloseWait _ => close_finish db
  end.

Definition is_loop (t : thread Mem) : bool :=
  match t with TLoopWait | TLoopIO _ _ | TLoopPublish _ => true | _ => false end.

(** [Close] waits for [flushLoop] to return. *)
Definition enabled (t : thread Mem) (others : list (thread Mem)) : Prop :=
  match t with TCloseWait true => Forall (fun t => is_loop t = false) others | _ => True end.

Definition parked (n : next Mem) : list (thread Mem) :=
  match n with Park t => [t] | Return _ => [] end.

(** The entries a batch applied after sequence number [s] becomes. *)
Fixpoint number (s : Z) (ops : list Batch.operation) : list entry :=
  match ops with
  | [] => []
  | op :: ops => (mkInternalKey (Batch.op_key op) (s + 1) (op_kind op), Batch.op_value op) :: number (s + 1) ops
  end.

(** The writes a call applied: those of the batch, when sequence numbers were
    given out. *)
Definition writes (c : client_call) (db db' : DB) : list entry :=
  match c with
  | CWrite _ b => if bool_decide (seqno db' = seqno db) then [] else number (seqno db) (Batch.snapshot b)
  | _ => []
  end.

(** Batches hold puts and deletes only. *)
Definition proper_call (c : client_call) : Prop :=
  match c with
  | CWrite _ b => Forall (fun op => Batch.opType op = Batch.OpTypePut \/ Batch.opType op = Batch.OpTypeDelete) (Batch.snapshot b)
  | _ => True
  end.

Inductive sys_step : Sys -> Sys -> Prop :=
  | step_call c db w ts log db' n w' :
      proper_call c -> start c db w = Some ((db', n), w') ->
      sys_step (mkSys db w ts log) (mkSys db' w' (ts ++ parked n) (log ++ writes c db db'))
  | step_resume t ts1 ts2 db w log db' n w' :
      enabled t (ts1 ++ ts2) -> resume t db w = Some ((db', n), w') ->
      sys_step (mkSys db w (ts1 ++ t :: ts2) log) (mkSys db' w' (ts1 ++ ts2 ++ parked n) log).

(** ** The invariant *)
Definition imm_of (imm : option Mem) (l : list entry) : Prop :=
  match imm with None => l = [] | Some m => mem_of m l end.

(** The SSTables hold [Ls], oldest first, the frozen memtable [Li], the active
    one [Lm]. *)
Record layered (db : DB) (Ls : list (list entry)) (Li Lm : list entry) : Prop := {
  la_ssts : Forall2 (fun r l => represents r (insert_all l [])) (ssts db) Ls;
  la_imm : imm_of (immMem db) Li;
  la_mem : exists m, mem db = Some m /\ mem_of m Lm;
  la_ordered : log_ordered (mjoin Ls ++ Li ++ Lm);
  la_seqno : 0 <= seqno db /\ Forall (fun e => Seqno e.1 <= seqno db) (mjoin Ls ++ Li ++ Lm);
  la_keys : Forall (fun e => wf_key e.1) (mjoin Ls ++ Li ++ Lm)
}.

Definition view (db : DB) (log : list entry) : Prop :=
  exists Ls Li Lm, log = mjoin Ls ++ Li ++ Lm /\ layered db Ls Li Lm.

Lemma v_seqno db log : view db log -> 0 <= seqno db /\ Forall (fun e => Seqno e.1 <= seqno db) log.
Proof. intros (Ls & Li & Lm & -> & H). apply H. Qed.

Definition is_flight (t : thread Mem) : bool :=
  match t with TFlushIO _ _ | TFlushPublish _ | TLoopIO _ _ | TLoopPublish _ => true | _ => false end.

Definition count (p : thread Mem -> bool) (ts : list (thread Mem)) : nat := length (filter (fun t => p t = true) ts).

(** What a goroutine in flight knows; while the database is open nobody waits in
    [Close]. *)
Definition thread_ok (db : DB) (t : thread Mem) : Prop :=
  match t with
  | TFlushIO imm _ => flushDoneCh db = false /\ immMem db = Some imm
  | TLoopIO imm _ => immMem db = Some imm
  | TFlushPublish r => flushDoneCh db = false /\
      exists imm, immMem db = Some imm /\ forall x, r = Ok x -> represents (sr_reader x) (entries imm)
  | TLoopPublish r =>
      exists imm, immMem db = Some imm /\ forall x, r = Ok x -> represents (sr_reader x) (entries imm)
  | TCloseWait _ => closed db = true
  | _ => True
  end.

Record threads_ok (db : DB) (ts : list (thread Mem)) : Prop := {
  tk_loops : (count is_loop ts <= if flushDoneCh db then 1 else 0)%nat;
  tk_flights : (count is_flight ts <= if immMem db then 1 else 0)%nat;
  tk_each : Forall (thread_ok db) ts
}.

(** Sequence numbers start at most at [base]. *)
Definition bounded (base : Z) (log : list entry) : Prop := small log /\ base + zlen log < 2 ^ 64.

Record open_inv (base : Z) (s : Sys) : Prop := {
  oi_view : view (s_db s) (s_log s);
  oi_threads : threads_ok (s_db s) (s_threads s);
  oi_base : seqno (s_db s) <= base + zlen (s_log s)
}.

Definition sys_inv (base : Z) (s : Sys) : Prop := closed (s_db s) = true \/ open_inv base s.

(** *** Counting goroutines *)
Lemma count_app p ts1 ts2 : count p (ts1 ++ ts2) = (count p ts1 + count p ts2)%nat.
Proof. unfold count. by rewrite filter_app, length_app. Qed.

Lemma count_nil p : count p [] = 0%nat.
Proof. done. Qed.

Lemma count_cons p t ts : count p (t :: ts) = ((if p t then 1 else 0) + count p ts)%nat.
Proof.
  unfold count. destruct (p t) eqn:E; [by rewrite filter_cons_True|by rewrite filter_cons_False by (by rewrite E)].
Qed.

Lemma count_zero p ts : count p ts = 0%nat -> Forall (fun t => p t = false) ts.
Proof.
  induction ts as [|t ts IH]; [constructor|]. rewrite count_cons. destruct (p t) eqn:E; [done|].
  intros H. constructor; [done|]. by apply IH.
Qed.

Lemma no_flights_ok db db' ts :
  count is_flight ts = 0%nat -> (closed db = true -> closed db' = true) ->
  Forall (thread_ok db) ts -> Forall (thread_ok db') ts.
Proof.
  intros H%count_zero Hc Hok. rewrite Forall_forall in *. intros t Ht. specialize (H t Ht). specialize (Hok t Ht).
  destruct t; try done. by apply Hc.
Qed.

(** Only these fields matter to the invariant. *)
Record same_store (db db' : DB) : Prop := {
  ss_closed : closed db' = closed db;
  ss_seqno : seqno db' = seqno db;
  ss_mem : mem db' = mem db;
  ss_imm : immMem db' = immMem db;
  ss_ssts : ssts db' = ssts db;
  ss_done : flushDoneCh db' = flushDoneCh db;
  ss_err : flushErr db' = flushErr db;
  ss_size : memtableFlushSize db' = memtableFlushSize db;
  ss_mems : mems db' = mems db
}.

(** Nor do all of these to the layers. *)
Lemma layered_same db db' Ls Li Lm :
  seqno db' = seqno db -> mem db' = mem db -> immMem db' = immMem db -> ssts db' = ssts db ->
  layered db Ls Li Lm -> layered db' Ls Li Lm.
Proof. intros Eq Em Ei Es []. by split; rewrite ?Em, ?Ei, ?Es, ?Eq. Qed.

Lemma view_fields db db' log :
  seqno db' = seqno db -> mem db' = mem db -> immMem db' = immMem db -> ssts db' = ssts db ->
  view db log -> view db' log.
Proof. intros ? ? ? ? (Ls & Li & Lm & -> & H). exists Ls, Li, Lm. split; [done|by eapply layered_same]. Qed.

Lemma view_same db db' log : same_store db db' -> view db log -> view db' log.
Proof. intros []. by apply view_fields. Qed.

Lemma threads_same db db' ts : flushDoneCh db' = flushDoneCh db -> immMem db' = immMem db ->
  closed db' = closed db -> threads_ok db ts -> threads_ok db' ts.
Proof.
  intros Ed Ei Ec [Hl Hf He]. split; rewrite ?Ed, ?Ei; try done.
  eapply Forall_impl; [done|]. intros t. unfold thread_ok. by rewrite Ed, Ei, Ec.
Qed.

(** *** What the segments do to the layers *)

Lemma number_app s ops1 ops2 : number s (ops1 ++ ops2) = number s ops1 ++ number (s + zlen ops1) ops2.
Proof.
  revert s. induction ops1 as [|op ops1 IH]; intros s; cbn [app number]; [by rewrite Z.add_0_r|].
  rewrite IH. do 3 f_equal. unfold zlen. cbn [length]. lia.
Qed.

Lemma zlen_number s ops : zlen (number s ops) = zlen ops.
Proof. revert s. induction ops as [|op ops IH]; intros s; [done|]. unfold zlen in *. cbn [number length]. rewrite !Nat2Z.inj_succ, IH. done. Qed.

Lemma op_kind_valid op :
  Batch.opType op = Batch.OpTypePut \/ Batch.opType op = Batch.OpTypeDelete -> isValidInternalKeyKind (op_kind op) = true.
Proof. unfold op_kind. intros [-> | ->]; reflexivity. Qed.

(** Updating the active memtable keeps everything but its contents. *)
Lemma layered_put db Ls Li Lm k v m m' :
  layered db Ls Li Lm -> mem db = Some m -> Seqno k = seqno db + 1 -> wf_key k ->
  mem_put k v m = Ok m' -> layered (set_mem (seqno db + 1) m' db) Ls Li (Lm ++ [(k, v)]).
Proof using memtable_laws.
  intros [Hs Hi (m0 & Em & Hm) Ho [H0 Hq] Hk] Emem Eq Hwf Hput.
  rewrite Emem in Em. injection Em as <-. destruct Hm as [Hinv Hent].
  destruct (mem_put_spec k v m Hinv) as (m1 & E1 & Hinv1 & Hent1 & _). rewrite Hput in E1. injection E1 as <-.
  assert (mjoin Ls ++ Li ++ Lm ++ [(k, v)] = (mjoin Ls ++ Li ++ Lm) ++ [(k, v)]) as Ej by (by rewrite !app_assoc).
  split; rewrite ?Ej; try done.
  - exists m'. split; [done|]. split; [done|]. rewrite Hent1, Hent. symmetry. apply insert_all_snoc.
  - apply log_ordered_app. split_and!; [done|repeat constructor|]. intros a b Ha Hb.
    apply list_elem_of_singleton in Hb as ->. rewrite Forall_forall in Hq. specialize (Hq a Ha). cbn. lia.
  - cbn. split; [lia|]. apply Forall_app. split; [|apply Forall_singleton; cbn; lia].
    eapply Forall_impl; [exact Hq|]. cbn. intros e He. lia.
  - apply Forall_app. split; [done|]. by apply Forall_singleton.
Qed.

Lemma applyOperations_total ops (db : DB) m :
  mem db = Some m -> mem_inv m -> exists db', applyOperations ops db = Ok db'.
Proof using memtable_laws.
  revert db m. induction ops as [|op ops IH]; intros db m Em Hm; cbn [applyOperations]; [by eexists|].
  rewrite Em. cbn [deref mbind result_bind].
  destruct (mem_put_spec (mkInternalKey (Batch.op_key op) (u64 (seqno db + 1)) (op_kind op)) (Batch.op_value op) m Hm)
    as (m' & -> & Hm' & _). cbn [mbind result_bind]. by eapply IH.
Qed.

Lemma applyOperations_control ops (db db' : DB) :
  applyOperations ops db = Ok db' ->
  closed db' = closed db /\ flushErr db' = flushErr db /\ immMem db' = immMem db /\ flushDoneCh db' = flushDoneCh db /\
  memtableFlushSize db' = memtableFlushSize db /\ mems db' = mems db.
Proof using.
  revert db. induction ops as [|op ops IH]; intros db H; cbn [applyOperations] in H; [by injection H as <-|].
  simplify_res. by apply IH in H.
Qed.

Lemma layered_apply ops db db' Ls Li Lm :
  applyOperations ops db = Ok db' -> layered db Ls Li Lm ->
  Forall (fun op => Batch.opType op = Batch.OpTypePut \/ Batch.opType op = Batch.OpTypeDelete) ops ->
  seqno db + zlen ops < 2 ^ 64 ->
  layered db' Ls Li (Lm ++ number (seqno db) ops) /\ seqno db' = seqno db + zlen ops /\ closed db' = closed db /\
  immMem db' = immMem db /\ flushDoneCh db' = flushDoneCh db.
Proof using memtable_laws.
  revert db Lm. induction ops as [|op ops IH]; intros db Lm H Hv Hp Hlt; cbn [applyOperations number] in *.
  { injection H as <-. rewrite app_nil_r. unfold zlen. cbn. by rewrite Z.add_0_r. }
  apply Forall_cons in Hp as [Hop Hp]. unfold zlen in Hlt. cbn [length] in Hlt.
  pose proof (la_seqno _ _ _ _ Hv) as [H0 _].
  assert (u64 (seqno db + 1) = seqno db + 1) as Eu by (apply u64_id; unfold is_u64; lia). rewrite Eu in H.
  destruct (mem db) as [m|] eqn:Em; cbn [deref mbind result_bind] in H; [|done].
  destruct (mem_put _ _ m) as [m'| |] eqn:Eput; cbn [mbind result_bind] in H; try done.
  assert (layered (set_mem (seqno db + 1) m' db) Ls Li
    (Lm ++ [(mkInternalKey (Batch.op_key op) (seqno db + 1) (op_kind op), Batch.op_value op)])) as Hv'.
  { eapply layered_put; try done. split; [unfold is_u64; cbn; lia|by apply op_kind_valid]. }
  destruct (IH _ _ H Hv' Hp) as (Hv2 & Es & Ec & Ei & Ed); [unfold zlen; cbn [seqno set_mem]; lia|].
  cbn [seqno set_mem closed immMem flushDoneCh] in *. rewrite <-app_assoc in Hv2. split_and!; try done.
  rewrite Es. unfold zlen. cbn [length]. lia.
Qed.

Lemma view_apply ops db db' log :
  applyOperations ops db = Ok db' -> view db log ->
  Forall (fun op => Batch.opType op = Batch.OpTypePut \/ Batch.opType op = Batch.OpTypeDelete) ops ->
  seqno db + zlen ops < 2 ^ 64 ->
  view db' (log ++ number (seqno db) ops) /\ seqno db' = seqno db + zlen ops /\ closed db' = closed db /\
  immMem db' = immMem db /\ flushDoneCh db' = flushDoneCh db.
Proof using memtable_laws.
  intros H (Ls & Li & Lm & -> & Hv) Hp Hlt. destruct (layered_apply _ _ _ _ _ _ H Hv Hp Hlt) as (Hv' & Hrest).
  split; [|done]. exists Ls, Li, (Lm ++ number (seqno db) ops). by rewrite <-!app_assoc.
Qed.

Lemma layered_rotate db Ls Li Lm : immMem db = None -> layered db Ls Li Lm -> layered (rotate rand db) Ls Lm [] /\ Li = [].
Proof using memtable_laws.
  intros Ei [Hs Hi (m & Em & Hm) Ho Hq Hk]. rewrite Ei in Hi. cbn in Hi. subst Li. cbn [app] in *.
  destruct (mem_new_spec (rand (mems db))) as [Hn He]. split; [|done].
  split; rewrite ?app_nil_r; try done.
  - cbn [rotate immMem]. by rewrite Em.
  - exists (mem_new (rand (mems db))). split; [done|]. by split.
Qed.

Lemma view_rotate db log : immMem db = None -> view db log -> view (rotate rand db) log.
Proof using memtable_laws.
  intros Ei (Ls & Li & Lm & -> & Hv). destruct (layered_rotate _ _ _ _ Ei Hv) as [Hv' ->].
  exists Ls, Lm, []. split; [by rewrite app_nil_r|done].
Qed.

Lemma layered_publish db db' Ls Li Lm imm r :
  layered db Ls Li Lm -> immMem db = Some imm -> represents r (entries imm) ->
  immMem db' = None -> ssts db' = ssts db ++ [r] -> mem db' = mem db -> seqno db' = seqno db ->
  layered db' (Ls ++ [Li]) [] Lm.
Proof.
  intros [Hs Hi (m & Em & Hm) Ho Hq Hk] Ei Hr Ei' Es' Em' Eq'. rewrite Ei in Hi. destruct Hi as [_ Hent].
  assert (mjoin (Ls ++ [Li]) ++ [] ++ Lm = mjoin Ls ++ Li ++ Lm) as Ej
    by (rewrite join_app; cbn; by rewrite app_nil_r, <-app_assoc).
  split; rewrite ?Eq', ?Es', ?Ei', ?Ej; try done.
  - apply Forall2_app; [done|]. constructor; [|constructor]. by rewrite <-Hent.
  - exists m. by rewrite Em'.
Qed.

Lemma view_publish db db' log imm r :
  view db log -> immMem db = Some imm -> represents r (entries imm) ->
  immMem db' = None -> ssts db' = ssts db ++ [r] -> mem db' = mem db -> seqno db' = seqno db -> view db' log.
Proof.
  intros (Ls & Li & Lm & -> & Hv) Ei Hr Ei' Es' Em' Eq'. exists (Ls ++ [Li]), [], Lm. split.
  - rewrite join_app. cbn. by rewrite app_nil_r, <-app_assoc.
  - by eapply layered_publish.
Qed.

Lemma layered_drop_empty db Ls Li Lm imm :
  layered db Ls Li Lm -> immMem db = Some imm -> mem_empty imm = true ->
  Li = [] /\ layered (set_imm None db) Ls [] Lm.
Proof using memtable_laws.
  intros [Hs Hi Hm Ho Hq Hk] Ei Hemp. rewrite Ei in Hi. destruct Hi as [Hinv Hent].
  apply mem_empty_spec in Hemp; [|done]. rewrite Hemp in Hent. symmetry in Hent.
  apply (f_equal length) in Hent. rewrite insert_all_length in Hent. cbn in Hent.
  assert (Li = []) as -> by (destruct Li; [done|cbn in Hent; lia]). split; [done|]. by split.
Qed.

Lemma view_drop_empty db log imm :
  view db log -> immMem db = Some imm -> mem_empty imm = true -> view (set_imm None db) log.
Proof using memtable_laws.
  intros (Ls & Li & Lm & -> & Hv) Ei Hemp. destruct (layered_drop_empty _ _ _ _ _ Hv Ei Hemp) as [-> Hv'].
  by exists Ls, [], Lm.
Qed.

(** *** What they do to the goroutines *)
Lemma threads_take db ts1 t ts2 :
  threads_ok db (ts1 ++ t :: ts2) ->
  thread_ok db t /\ threads_ok db (ts1 ++ ts2) /\
  (is_flight t = true -> count is_flight (ts1 ++ ts2) = 0%nat /\ is_Some (immMem db)) /\
  (is_loop t = true -> flushDoneCh db = true /\ count is_loop (ts1 ++ ts2) = 0%nat /\ count is_flight (ts1 ++ ts2) = 0%nat).
Proof.
  intros [Hl Hf He]. apply Forall_app in He as [He1 [He He2]%Forall_cons].
  assert (Forall (thread_ok db) (ts1 ++ ts2)) as He12 by (by apply Forall_app).
  rewrite count_app, count_cons in Hl, Hf. split_and!; [done| | |].
  - split; [..|done]; rewrite count_app; [destruct (is_loop t)|destruct (is_flight t)]; lia.
  - intros Ht. rewrite Ht in Hf. rewrite count_app. destruct (immMem db); [|lia]. split; [lia|by eexists].
  - intros Ht. rewrite Ht in Hl. destruct (flushDoneCh db) eqn:Ed; [|lia].
    assert (count is_loop (ts1 ++ ts2) = 0%nat) as Hz by (rewrite count_app; lia). split_and!; [done|done|].
    apply count_zero in Hz. unfold count. rewrite filter_none; [done|].
    intros x Hx Hfl. rewrite Forall_forall in Hz, He12. specialize (Hz x Hx). specialize (He12 x Hx).
    destruct x; try done; destruct He12 as [E _]; congruence.
Qed.

Lemma threads_park db ts t :
  threads_ok db ts -> thread_ok db t ->
  (is_loop t = true -> flushDoneCh db = true /\ count is_loop ts = 0%nat) ->
  (is_flight t = true -> is_Some (immMem db) /\ count is_flight ts = 0%nat) ->
  threads_ok db (ts ++ [t]).
Proof.
  intros [Hl Hf He] Ht Hlp Hfl.
  assert (forall p, count p [t] = if p t then 1%nat else 0%nat) as H1.
  { intros p. rewrite count_cons. unfold count. cbn. lia. }
  split; rewrite ?count_app, ?H1.
  - destruct (is_loop t); [|lia]. destruct Hlp as [-> ->]; [done|lia].
  - destruct (is_flight t); [|lia]. destruct Hfl as [[m ->] ->]; [done|lia].
  - apply Forall_app. split; [done|]. by apply Forall_singleton.
Qed.

(** With nobody in flight, [immMem] may change. *)
Lemma threads_grounded db db' ts :
  threads_ok db ts -> count is_flight ts = 0%nat ->
  flushDoneCh db' = flushDoneCh db \/ count is_loop ts = 0%nat -> closed db' = closed db -> threads_ok db' ts.
Proof.
  intros [Hl Hf He] H0 Hd Hc. split.
  - destruct Hd as [Ed|Ed]; rewrite Ed; [done|lia].
  - rewrite H0. lia.
  - apply (no_flights_ok db); [done|congruence|done].
Qed.

Lemma no_imm_grounded db ts : threads_ok db ts -> immMem db = None -> count is_flight ts = 0%nat.
Proof. intros [_ Hf _] E. rewrite E in Hf. lia. Qed.

(** *** The segments keep the invariant

    [seg_ok log ts db db' n]: from [db], with the goroutines [ts] parked, a
    segment may end in [db'] with outcome [n]. *)
Record seg_ok (log : list entry) (ts : list (thread Mem)) (db db' : DB) (n : next Mem) : Prop := {
  so_view : view db' log;
  so_threads : threads_ok db' (ts ++ parked n);
  so_seqno : seqno db' = seqno db;
  so_closed : closed db' = closed db
}.

Lemma seg_return log ts db err : view db log -> threads_ok db ts -> seg_ok log ts db db (Return err).
Proof. intros Hv Ht. split; try done. cbn. by rewrite app_nil_r. Qed.

Lemma seg_park log ts db t :
  view db log -> threads_ok db ts -> is_loop t = false -> is_flight t = false -> thread_ok db t ->
  seg_ok log ts db db (Park t).
Proof. intros Hv Ht Hl Hf Hok. split; try done. apply threads_park; [done|done|congruence|congruence]. Qed.

Lemma flush_slot_free (db : DB) : flush_slot db = Some None -> immMem db = None.
Proof. unfold flush_slot. destruct (immMem db); [|done]. by destruct (flushErr db). Qed.

Lemma flush_slot_wake_free (db : DB) : flush_slot_wake db = Some None -> immMem db = None.
Proof. unfold flush_slot_wake. destruct (closed db); [done|]. destruct (flushErr db); [done|]. apply flush_slot_free. Qed.

Lemma threads_rotate db ts : threads_ok db ts -> immMem db = None -> threads_ok (rotate rand db) ts.
Proof. intros Ht Ei. eapply threads_grounded; [done|by eapply no_imm_grounded|by left|done]. Qed.

Lemma seg_auto_rotate slot db ts log w db' n w' :
  auto_rotate rand slot db w = Some ((db', n), w') -> (slot = Some None -> immMem db = None) ->
  view db log -> threads_ok db ts -> seg_ok log ts db db' n.
Proof using memtable_laws.
  intros H Hs Hv Ht. unfold auto_rotate in H.
  destruct slot as [[e|]|]; apply io_ret_inv in H as [[= -> ->] _].
  - by apply seg_return.
  - specialize (Hs eq_refl). split; [by apply view_rotate| |done|done]. cbn. rewrite app_nil_r. by apply threads_rotate.
  - by apply seg_park.
Qed.

Lemma seg_flush_wait slot db ts log w db' n w' :
  flush_wait rand slot db w = Some ((db', n), w') -> (slot = Some None -> immMem db = None) ->
  view db log -> threads_ok db ts -> seg_ok log ts db db' n.
Proof using memtable_laws.
  intros H Hs Hv Ht. unfold flush_wait, flush_rotate in H.
  destruct slot as [[e|]|].
  - apply io_ret_inv in H as [[= -> ->] _]. by apply seg_return.
  - specialize (Hs eq_refl). pose proof (threads_rotate _ _ Ht Hs) as Ht'.
    pose proof (view_rotate _ _ Hs Hv) as Hv'. destruct (flushDoneCh db) eqn:Ed.
    + apply io_ret_inv in H as [[= -> ->] _].
      destruct (seg_park log ts (rotate rand db) TFlushBg Hv' Ht' eq_refl eq_refl I). by split.
    + io_step H as imm w1 E. apply io_pure_inv in E as [Em ->]. apply io_ret_inv in H as [[= -> ->] _].
      destruct (mem db) as [m|] eqn:Emem; [|done]. injection Em as ->.
      split; [done| |done|done]. apply threads_park; [done|by split|done|].
      intros _. split; [by exists imm|exact (no_imm_grounded db ts Ht Hs)].
  - apply io_ret_inv in H as [[= -> ->] _]. by apply seg_park.
Qed.

(** Publishing a flushed table moves its layer, or leaves it frozen. *)
Lemma publish_outcome_ok r db w db' err w' imm log :
  publish_outcome r db w = Some ((db', err), w') -> immMem db = Some imm ->
  (forall x, r = Ok x -> represents (sr_reader x) (entries imm)) -> view db log ->
  view db' log /\ seqno db' = seqno db /\ closed db' = closed db /\ flushDoneCh db' = flushDoneCh db /\
  immMem db' = match err with None => None | Some _ => immMem db end.
Proof.
  intros H Ei Hr Hv.
  assert (forall e, view (set_flushErr (Some e) db) log) as Hv' by (intros e; by apply (view_fields db)).
  unfold publish_outcome in H. destruct r as [x|e|]; [|by apply io_ret_inv in H as [[= -> ->] _]|done].
  specialize (Hr x eq_refl). io_step H as y w1 E. destruct y as [db1 err1].
  unfold publishFlushedSSTLocked in E. io_step E as fault w2 E2.
  destruct fault as [e|].
  { apply io_ret_inv in E as [[= -> ->] ->]. by apply io_ret_inv in H as [[= -> ->] ->]. }
  io_step E as enc w3 E3. io_step E as mw w4 E4. io_step E as aerr w5 E5. destruct aerr as [e|].
  { io_step E as u w6 E6. apply io_ret_inv in E as [[= -> ->] ->]. by apply io_ret_inv in H as [[= -> ->] ->]. }
  apply io_ret_inv in E as [[= -> ->] ->]. apply io_ret_inv in H as [[= -> ->] ->].
  split_and!; try done. by eapply view_publish.
Qed.

Lemma seg_flush_publish r db ts log w db' n w' :
  flush_publish r db w = Some ((db', n), w') -> thread_ok db (TFlushPublish r) ->
  view db log -> threads_ok db ts -> count is_flight ts = 0%nat -> seg_ok log ts db db' n.
Proof.
  intros H (_ & imm & Ei & Hr) Hv Ht H0. unfold flush_publish in H. io_step H as y w1 E. destruct y as [db1 err].
  apply io_ret_inv in H as [[= -> ->] _].
  destruct (publish_outcome_ok _ _ _ _ _ _ _ _ E Ei Hr Hv) as (Hv' & Eq & Ec & Ed & Ei').
  split; try done. cbn. rewrite app_nil_r. eapply threads_grounded; [done|done|by left|done].
Qed.

Lemma seg_loop_exit log ts db db0 err :
  view db log -> threads_ok db ts -> count is_loop ts = 0%nat -> count is_flight ts = 0%nat ->
  seqno db = seqno db0 -> closed db = closed db0 -> seg_ok log ts db0 (loop_exit db) (Return err).
Proof.
  intros Hv Ht Hl Hf Eq Ec. split; [| |done|done].
  - by apply (view_fields db).
  - cbn. rewrite app_nil_r. eapply threads_grounded; [done|done|by right|done].
Qed.

Lemma seg_loop_top db ts log w db' n w' :
  loop_top db w = Some ((db', n), w') ->
  view db log -> threads_ok db ts -> flushDoneCh db = true -> count is_loop ts = 0%nat ->
  count is_flight ts = 0%nat -> seg_ok log ts db db' n.
Proof using memtable_laws.
  intros H Hv Ht Hd Hl Hf. unfold loop_top in H. destruct (closed db) eqn:Hc.
  { assert (db' = loop_exit db /\ n = Return None) as [-> ->]
      by (by destruct (immMem db); apply io_ret_inv in H as [[= -> ->] _]).
    by apply seg_loop_exit. }
  destruct (immMem db) as [imm|] eqn:Ei.
  - destruct (mem_empty imm) eqn:Hemp.
    + cbn [immMem set_imm closed] in H. rewrite Hc in H. apply io_ret_inv in H as [[= -> ->] _].
      split; [by eapply view_drop_empty| |done|done]. apply threads_park; [|done| |done].
      * eapply threads_grounded; [done|done|by left|done].
      * by split.
    + apply io_ret_inv in H as [[= -> ->] _]. split; [done| |done|done].
      apply threads_park; [done|done|by split|]. intros _. split; [by exists imm|done].
  - apply io_ret_inv in H as [[= -> ->] _]. split; [done| |done|done]. by apply threads_park.
Qed.

Lemma seg_loop_publish r db ts log w db' n w' :
  loop_publish r db w = Some ((db', n), w') -> thread_ok db (TLoopPublish r) ->
  view db log -> threads_ok db ts -> flushDoneCh db = true -> count is_loop ts = 0%nat ->
  count is_flight ts = 0%nat -> seg_ok log ts db db' n.
Proof using memtable_laws.
  intros H (imm & Ei & Hr) Hv Ht Hd Hl Hf. unfold loop_publish in H. io_step H as y w1 E. destruct y as [db1 err].
  destruct (publish_outcome_ok _ _ _ _ _ _ _ _ E Ei Hr Hv) as (Hv' & Eq & Ec & Ed & Ei').
  assert (threads_ok db1 ts) as Ht' by (eapply threads_grounded; [done|done|by left|done]).
  destruct err as [e|].
  - apply io_ret_inv in H as [[= -> ->] _]. by apply seg_loop_exit.
  - destruct (seg_loop_top db1 ts log _ _ _ _ H) as [? ? ? ?]; try congruence. split; congruence || done.
Qed.

Lemma seg_flush db ts log w db' n w' :
  Flush rand db w = Some ((db', n), w') -> view db log -> threads_ok db ts -> seg_ok log ts db db' n.
Proof using memtable_laws.
  intros H Hv Ht. unfold Flush in H.
  destruct (closed db); [by apply io_ret_inv in H as [[= -> ->] _]; apply seg_return|].
  destruct (flushErr db); [by apply io_ret_inv in H as [[= -> ->] _]; apply seg_return|].
  io_step H as m w1 E. apply io_pure_inv in E as [_ ->].
  destruct (mem_empty m); [by apply io_ret_inv in H as [[= -> ->] _]; apply seg_return|].
  eapply seg_flush_wait; [exact H|apply flush_slot_free|done..].
Qed.

Lemma seg_flush_bg db ts log w db' n w' :
  flush_bg_wake db w = Some ((db', n), w') -> view db log -> threads_ok db ts -> seg_ok log ts db db' n.
Proof.
  intros H Hv Ht. unfold flush_bg_wake in H.
  destruct (flushErr db); [by apply io_ret_inv in H as [[= -> ->] _]; apply seg_return|].
  destruct (_ && _); [by apply io_ret_inv in H as [[= -> ->] _]; apply seg_park|].
  destruct (closed db); apply io_ret_inv in H as [[= -> ->] _]; by apply seg_return.
Qed.

(** *** Write *)
Lemma encodeOperations_count ops e : Batch.encodeOperations ops = Ok e -> zlen ops < 2 ^ 32.
Proof.
  unfold Batch.encodeOperations. intros H. simplify_res. zb. unfold Batch.MaxUint32 in *. lia.
Qed.

Lemma applyOperations_err ops db db' : applyOperations ops db = Ok db' -> flushErr db' = flushErr db.
Proof.
  revert db. induction ops as [|op ops IH]; intros db H; cbn [applyOperations] in H; [by injection H as <-|].
  simplify_res. by apply IH in H.
Qed.

Lemma auto_flush_no_error db w db' n w' e :
  maybeAutoFlushLocked rand db w = Some ((db', n), w') -> flushErr db = None -> n <> Return (Some e).
Proof.
  unfold maybeAutoFlushLocked. intros H Hn. io_step H as m w1 E.
  destruct (_ || _); [by apply io_ret_inv in H as [[= -> ->] _]|].
  unfold auto_rotate, flush_slot in H. rewrite Hn in H.
  by destruct (immMem db); apply io_ret_inv in H as [[= -> ->] _].
Qed.

Lemma applyOperations_seqno ops db db' :
  applyOperations ops db = Ok db' -> is_u64 (seqno db) ->
  seqno db' = u64 (seqno db + zlen ops) /\ closed db' = closed db.
Proof.
  revert db. induction ops as [|op ops IH]; intros db H Hu; cbn [applyOperations] in H.
  { injection H as <-. unfold zlen. cbn. by rewrite Z.add_0_r, u64_id. }
  simplify_res. apply IH in H as [Hs Hc]; [|apply u64_range]. cbn [seqno set_mem closed] in *.
  split; [|done]. rewrite Hs, SstWriter.u64_add_l. f_equal. unfold zlen. cbn [length]. lia.
Qed.

Lemma wal_step_same (w : Wal.Writer) db : same_store db (set_wal (Some w) db).
Proof. by split. Qed.

Lemma wal_Append_same payload db w db' err w' :
  wal_Append payload db w = Some ((db', err), w') -> same_store db db'.
Proof.
  unfold wal_Append. intros H. io_step H as u w1 E. io_step H as x w2 E2. destruct x as [wr e].
  apply io_ret_inv in H as [[= -> ->] _]. apply wal_step_same.
Qed.

Lemma syncWAL_same db w db' err w' : syncWALLocked db w = Some ((db', err), w') -> same_store db db'.
Proof.
  unfold syncWALLocked. intros H. destruct (negb _); [by apply io_ret_inv in H as [[= -> ->] _]|].
  io_step H as fault w1 E. destruct fault; [by apply io_ret_inv in H as [[= -> ->] _]|].
  io_step H as x w2 E2. destruct x as [db1 e]. apply io_ret_inv in H as [[= -> ->] _].
  unfold wal_Sync in E2. io_step E2 as u w3 E3. io_step E2 as y w4 E4. destruct y as [wr e'].
  apply io_ret_inv in E2 as [[= -> ->] _]. apply wal_step_same.
Qed.

Lemma same_store_trans db1 db2 db3 : same_store db1 db2 -> same_store db2 db3 -> same_store db1 db3.
Proof. intros [] []. split; congruence. Qed.

(** The two ways a [Write] segment ends: before or after the batch is applied. *)
Definition write_refused (ctx_err : option error) (b : option Batch.Batch) (db db' : DB) (n : next Mem) : Prop :=
  same_store db db' /\ exists err, n = Return err /\ (err = None -> Batch.snapshot b = []).

Definition write_applied (b : option Batch.Batch) (db db' : DB) (n : next Mem) : Prop :=
  exists db1 db2, same_store db db1 /\ applyOperations (Batch.snapshot b) db1 = Ok db2 /\
    zlen (Batch.snapshot b) < 2 ^ 32 /\ Batch.snapshot b <> [] /\ (forall e, n <> Return (Some e)) /\
    exists w w', maybeAutoFlushLocked rand db2 w = Some ((db', n), w').

Lemma Write_cases ctx_err b db w db' n w' :
  Write rand ctx_err b db w = Some ((db', n), w') ->
  write_refused ctx_err b db db' n \/ write_applied b db db' n.
Proof.
  unfold Write. intros H. unfold write_refused.
  assert (same_store db db) as Hrefl by done.
  destruct (checkWritePreconditionsLocked ctx_err db) as [e|] eqn:Hpre.
  { apply io_ret_inv in H as [[= -> ->] _]. left. split; [done|]. by eexists. }
  destruct (match b with None => true | Some b => Batch.Empty b end) eqn:Hb.
  { apply io_ret_inv in H as [[= -> ->] _]. left. split; [done|]. eexists; split; [done|]. intros _.
    destruct b as [b|]; [|done]. unfold Batch.Empty, Batch.Count in Hb. zb. apply nil_length_inv in Hb.
    cbn. rewrite Hb. done. }
  io_step H as enc w1 E1. apply io_pure_inv in E1 as [Eenc ->].
  io_step H as x w2 E2. destruct x as [db1 err1]. apply wal_Append_same in E2 as Hs1.
  destruct err1 as [e|].
  { apply io_ret_inv in H as [[= -> ->] _]. left. split; [done|]. by eexists. }
  io_step H as x w3 E3. destruct x as [db2 err2]. apply syncWAL_same in E3 as Hs2.
  pose proof (same_store_trans _ _ _ Hs1 Hs2) as Hs. destruct err2 as [e|].
  { apply io_ret_inv in H as [[= -> ->] _]. left. split; [done|]. by eexists. }
  io_step H as db3 w4 E4. apply io_pure_inv in E4 as [Eapp ->]. right.
  assert (flushErr db3 = None) as Hne.
  { rewrite (applyOperations_err _ _ _ Eapp), (ss_err _ _ Hs). unfold checkWritePreconditionsLocked in Hpre.
    destruct (closed db); [done|]. by destruct (flushErr db). }
  exists db2, db3. split_and!; [done|done|by eapply encodeOperations_count| |by intros e; eapply auto_flush_no_error
    |by exists w3, w'].
  destruct b as [b|]; [|done]. unfold Batch.Empty, Batch.Count in Hb. zb. cbn. intros E. apply Hb.
  unfold Batch.cloneOperations in E. apply fmap_nil_inv in E. by rewrite E.
Qed.

Lemma seg_auto_flush db ts log w db' n w' :
  maybeAutoFlushLocked rand db w = Some ((db', n), w') -> view db log -> threads_ok db ts -> seg_ok log ts db db' n.
Proof using memtable_laws.
  intros H Hv Ht. unfold maybeAutoFlushLocked in H. io_step H as m w1 E. apply io_pure_inv in E as [_ ->].
  destruct (_ || _); [by apply io_ret_inv in H as [[= -> ->] _]; apply seg_return|].
  eapply seg_auto_rotate; [exact H|apply flush_slot_free|done..].
Qed.

(** What a [Write] segment does to the invariant, and what it applied. *)
Lemma seg_write base ctx_err b db ts log w db' n w' :
  Write rand ctx_err b db w = Some ((db', n), w') -> proper_call (CWrite ctx_err b) ->
  view db log -> threads_ok db ts -> seqno db <= base + zlen log ->
  bounded base (log ++ writes (CWrite ctx_err b) db db') ->
  view db' (log ++ writes (CWrite ctx_err b) db db') /\ threads_ok db' (ts ++ parked n) /\
  seqno db' <= base + zlen (log ++ writes (CWrite ctx_err b) db db') /\ closed db' = closed db /\
  writes (CWrite ctx_err b) db db' =
    match n with Return (Some _) => [] | _ => number (seqno db) (Batch.snapshot b) end.
Proof using memtable_laws.
  intros H Hp Hv Ht Hb Hbd.
  destruct (Write_cases _ _ _ _ _ _ _ H) as [(Hs & err & -> & Hemp)|(db1 & db2 & Hs & Eapp & Hlen & Hne & Hnoerr & w1 & w2 & Ha)].
  - assert (writes (CWrite ctx_err b) db db' = []) as ->.
    { unfold writes. rewrite bool_decide_true; [done|apply Hs]. }
    rewrite app_nil_r. cbn [parked]. rewrite app_nil_r. split_and!.
    + by eapply view_same.
    + eapply threads_same; [apply Hs|apply Hs|apply Hs|done].
    + rewrite (ss_seqno _ _ Hs). done.
    + apply Hs.
    + destruct err; [done|]. by rewrite Hemp.
  - pose proof (view_same _ _ _ Hs Hv) as Hv1. pose proof (v_seqno _ _ Hv) as [H0 _].
    assert (seqno db < 2 ^ 64) as Hq.
    { destruct Hbd as [_ Hbd]. rewrite zlen_app in Hbd. pose proof (zlen_nonneg (writes (CWrite ctx_err b) db db')). lia. }
    assert (is_u64 (seqno db1)) as Hu by (rewrite (ss_seqno _ _ Hs); by split).
    destruct (applyOperations_seqno _ _ _ Eapp Hu) as [Eq2 Ec2].
    assert (0 < zlen (Batch.snapshot b)) as Hpos by (destruct (Batch.snapshot b); [done|unfold zlen; cbn; lia]).
    assert (seqno db' = seqno db2) as Eq'.
    { unfold maybeAutoFlushLocked in Ha. io_step Ha as m w3 E. destruct (_ || _);
        [by apply io_ret_inv in Ha as [[= -> ->] _]|]. unfold auto_rotate in Ha.
      destruct (flush_slot db2) as [[e|]|]; by apply io_ret_inv in Ha as [[= -> ->] _]. }
    assert (writes (CWrite ctx_err b) db db' = number (seqno db) (Batch.snapshot b)) as Ew.
    { unfold writes. rewrite bool_decide_false; [done|]. rewrite Eq', Eq2, (ss_seqno _ _ Hs). unfold u64.
      intros E. apply (f_equal (fun z => z mod 2 ^ 64)) in E. rewrite Z.mod_mod in E by lia.
      destruct (decide (seqno db + zlen (Batch.snapshot b) < 2 ^ 64)).
      - rewrite !Z.mod_small in E by lia. lia.
      - rewrite (Z.mod_small (seqno db)) in E by lia.
        rewrite <-(Z.mod_add _ (-1)), Z.mod_small in E by lia. lia. }
    rewrite Ew in *. assert (seqno db1 + zlen (Batch.snapshot b) < 2 ^ 64) as Hfit.
    { destruct Hbd as [_ Hbd]. rewrite zlen_app, zlen_number in Hbd. rewrite (ss_seqno _ _ Hs). lia. }
    destruct (view_apply _ _ _ log Eapp Hv1 Hp Hfit) as (Hv2 & Es2 & Ec3 & Ei2 & Ed2).
    rewrite (ss_seqno _ _ Hs) in Hv2, Es2.
    assert (threads_ok db2 ts) as Ht2.
    { eapply threads_same; [..|exact Ht]; [by rewrite Ed2, (ss_done _ _ Hs)|by rewrite Ei2, (ss_imm _ _ Hs)|by rewrite Ec3, (ss_closed _ _ Hs)]. }
    destruct (seg_auto_flush _ _ _ _ _ _ _ Ha Hv2 Ht2) as [Hv3 Ht3 Es3 Ec4].
    split_and!; [done|done| | |].
    + rewrite Es3, Es2, zlen_app, zlen_number. lia.
    + rewrite Ec4, Ec3. apply Hs.
    + destruct n as [[e|]|t]; [by destruct (Hnoerr e)|done|done].
Qed.

(** *** Close is final *)
Lemma publish_outcome_closed r (db : DB) w db' err w' :
  publish_outcome r db w = Some ((db', err), w') -> closed db' = closed db.
Proof.
  unfold publish_outcome. intros H. destruct r as [x|e|]; [|by apply io_ret_inv in H as [[= -> ->] _]|done].
  io_step H as y w1 E. destruct y as [db1 err1].
  assert (closed db1 = closed db) as Hc.
  { unfold publishFlushedSSTLocked in E. io_step E as fault w2 E2.
    destruct fault; [by apply io_ret_inv in E as [[= -> ->] _]|].
    io_step E as enc w3 E3. io_step E as mw w4 E4. io_step E as aerr w5 E5.
    destruct aerr; [io_step E as u w6 E6|]; by apply io_ret_inv in E as [[= -> ->] _]. }
  by destruct err1; apply io_ret_inv in H as [[= -> ->] _].
Qed.

Lemma start_closed c db w db' n w' :
  start c db w = Some ((db', n), w') -> closed db = true -> closed db' = true.
Proof.
  intros H Hc. destruct c as [ctx b| |]; cbn [start] in H.
  - unfold Write, checkWritePreconditionsLocked in H. rewrite Hc in H. by apply io_ret_inv in H as [[= -> ->] _].
  - unfold Flush in H. rewrite Hc in H. by apply io_ret_inv in H as [[= -> ->] _].
  - unfold Close in H. rewrite Hc in H. by apply io_ret_inv in H as [[= -> ->] _].
Qed.

Lemma resume_closed t db w db' n w' :
  resume t db w = Some ((db', n), w') -> closed db = true -> closed db' = true.
Proof.
  intros H Hc. destruct t as [| | |imm path|r| |imm path|r|ch]; cbn [resume] in H.
  - unfold write_wake, flush_slot_wake in H. rewrite Hc in H. by apply io_ret_inv in H as [[= -> ->] _].
  - unfold flush_wake, flush_slot_wake in H. rewrite Hc in H. by apply io_ret_inv in H as [[= -> ->] _].
  - unfold flush_bg_wake in H. destruct (flushErr db); [by apply io_ret_inv in H as [[= -> ->] _]|].
    rewrite Hc, andb_false_r in H. by apply io_ret_inv in H as [[= -> ->] _].
  - io_step H as r w1 E. by apply io_ret_inv in H as [[= -> ->] _].
  - unfold flush_publish in H. io_step H as y w1 E. destruct y as [db1 err].
    apply publish_outcome_closed in E. apply io_ret_inv in H as [[= -> ->] _]. congruence.
  - unfold loop_top in H. rewrite Hc in H. by destruct (immMem db); apply io_ret_inv in H as [[= -> ->] _].
  - io_step H as r w1 E. by apply io_ret_inv in H as [[= -> ->] _].
  - unfold loop_publish in H. io_step H as y w1 E. destruct y as [db1 err].
    apply publish_outcome_closed in E. rewrite Hc in E. destruct err as [e|].
    + by apply io_ret_inv in H as [[= -> ->] _].
    + unfold loop_top in H. rewrite E in H. by destruct (immMem db1); apply io_ret_inv in H as [[= -> ->] _].
  - unfold close_finish in H. io_step H as e1 w1 E1. io_step H as e2 w2 E2. io_step H as e3 w3 E3.
    by apply io_ret_inv in H as [[= -> ->] _].
Qed.

(** *** Every step keeps the invariant *)
Lemma seg_ok_inv base log ts db db' n w' :
  seg_ok log ts db db' n -> seqno db <= base + zlen log -> sys_inv base (mkSys db' w' (ts ++ parked n) log).
Proof. intros [Hv Ht Eq Ec] Hb. right. split; cbn; [done|done|lia]. Qed.

Lemma small_parts log (Ls : list (list entry)) Li Lm : log = mjoin Ls ++ Li ++ Lm -> small log -> small Li.
Proof.
  unfold small. intros ->. rewrite !SstReader.log_bytes_app.
  pose proof (SstReader.log_bytes_nonneg (mjoin Ls)). pose proof (SstReader.log_bytes_nonneg Lm). lia.
Qed.

(** The table written from the frozen memtable answers for it. *)
Lemma flush_io_ok db log imm path w r w' bs :
  view db log -> small log -> immMem db = Some imm ->
  writeSSTable path imm bs w = Some (r, w') ->
  forall x, r = Ok x -> represents (sr_reader x) (entries imm).
Proof using memtable_laws good_device.
  intros (Ls & Li & Lm & -> & [Hs Hi Hm Ho Hq Hk]) Hsm Ei H x ->. rewrite Ei in Hi.
  eapply writeSSTable_success; [exact H|exact Hi| | |].
  - apply log_ordered_app in Ho as (_ & Ho & _). by apply log_ordered_app in Ho as (Ho & _ & _).
  - by eapply small_parts.
  - apply Forall_app in Hk as [_ Hk]. by apply Forall_app in Hk as [? _].
Qed.

Lemma resume_inv base t ts1 ts2 db w log db' n w' :
  resume t db w = Some ((db', n), w') -> closed db = false ->
  open_inv base (mkSys db w (ts1 ++ t :: ts2) log) -> bounded base log ->
  closed db' = true \/ seg_ok log (ts1 ++ ts2) db db' n.
Proof using memtable_laws good_device.
  intros H Hc [Hv Ht Hb] [Hsm _]. cbn [s_db s_threads s_log] in *.
  destruct (threads_take _ _ _ _ Ht) as (Hok & Hr & Hfl & Hlp).
  destruct t as [| | |imm path|r| |imm path|r|ch]; cbn [resume] in H.
  - right. eapply seg_auto_rotate; [exact H|apply flush_slot_wake_free|done..].
  - right. eapply seg_flush_wait; [exact H|apply flush_slot_wake_free|done..].
  - right. by eapply seg_flush_bg.
  - right. io_step H as r w1 E. apply io_ret_inv in H as [[= -> ->] _]. destruct Hok as [Hd Ei].
    destruct (Hfl eq_refl) as [H0 Hi]. split; [done| |done|done].
    apply threads_park; [done| |done|by intros _]. split; [done|]. exists imm. split; [done|]. by eapply flush_io_ok.
  - right. destruct (Hfl eq_refl) as [H0 Hi]. by eapply seg_flush_publish.
  - right. destruct (Hlp eq_refl) as (Hd & Hl0 & Hf0). by eapply seg_loop_top.
  - right. io_step H as r w1 E. apply io_ret_inv in H as [[= -> ->] _].
    destruct (Hfl eq_refl) as [H0 Hi]. destruct (Hlp eq_refl) as (Hd & Hl0 & Hf0). split; [done| |done|done].
    apply threads_park; [done| |by intros _|by intros _]. exists imm. split; [done|]. by eapply flush_io_ok.
  - right. destruct (Hlp eq_refl) as (Hd & Hl0 & Hf0). by eapply seg_loop_publish.
  - unfold thread_ok in Hok. congruence.
Qed.

Lemma bounded_prefix base log ws : bounded base (log ++ ws) -> bounded base log.
Proof.
  unfold bounded, small. rewrite SstReader.log_bytes_app, zlen_app.
  pose proof (SstReader.log_bytes_nonneg ws). pose proof (zlen_nonneg ws). lia.
Qed.

Lemma start_inv base c db w ts log db' n w' :
  start c db w = Some ((db', n), w') -> proper_call c ->
  open_inv base (mkSys db w ts log) -> bounded base (log ++ writes c db db') ->
  sys_inv base (mkSys db' w' (ts ++ parked n) (log ++ writes c db db')).
Proof using memtable_laws.
  intros H Hp [Hv Ht Hb] Hbd. cbn [s_db s_threads s_log] in *. destruct c as [ctx b| |]; cbn [start] in H.
  - destruct (seg_write base _ _ _ _ _ _ _ _ _ H Hp Hv Ht Hb Hbd) as (Hv' & Ht' & Hb' & _). by right.
  - cbn [writes]. rewrite app_nil_r. eapply seg_ok_inv; [by eapply seg_flush|done].
  - unfold Close in H. destruct (closed db) eqn:Hc; apply io_ret_inv in H as [[= -> ->] _]; by left.
Qed.

Lemma step_inv base s s' : sys_inv base s -> sys_step s s' -> bounded base (s_log s') -> sys_inv base s'.
Proof using memtable_laws good_device.
  intros Hinv Hstep. destruct Hstep as [c db w ts log db' n w' Hp H|t ts1 ts2 db w log db' n w' He H];
    cbn [s_log]; intros Hbd; destruct Hinv as [Hc|Hinv]; cbn [s_db] in *.
  - left. by eapply start_closed.
  - by eapply start_inv.
  - left. by eapply resume_closed.
  - destruct (closed db) eqn:Hc; [left; by eapply resume_closed|].
    destruct (resume_inv base t ts1 ts2 db w log db' n w' H Hc Hinv Hbd) as [?|Hseg]; [by left|].
    rewrite app_assoc. eapply seg_ok_inv; [exact Hseg|]. apply Hinv.
Qed.

Lemma step_log s s' : sys_step s s' -> exists ws, s_log s' = s_log s ++ ws.
Proof. destruct 1; cbn; [by eexists|exists []; by rewrite app_nil_r]. Qed.

Lemma run_inv base s s' :
  sys_inv base s -> rtc sys_step s s' -> bounded base (s_log s') -> sys_inv base s'.
Proof using memtable_laws good_device.
  intros Hinv Hrun. revert s' Hrun. apply (rtc_ind_r (fun s' => bounded base (s_log s') -> sys_inv base s')); [done|].
  intros s1 s2 _ Hstep IH Hbd. eapply step_inv; [apply IH|done|done].
  destruct (step_log _ _ Hstep) as [ws E]. rewrite E in Hbd. by eapply bounded_prefix.
Qed.

(** *** Reads *)

(** The result of [Get] for a value looked up in a map. *)
Definition get_result (v : option bytes) : res bytes :=
  match v with Some v => Ok v | None => throw engine.ErrKeyNotFound end.

Lemma table_get_layer r l u s :
  represents r (insert_all l []) -> log_ordered l -> Forall (fun e => Seqno e.1 <= s) l ->
  SstReader.Get u s r =
    match last_write u l with
    | None => throw sstable.ErrKeyNotFound
    | Some e => if decide (Kind e.1 = InternalKeyKindDelete) then throw sstable.ErrKeyDeleted else Ok e.2
    end.
Proof. intros Hr Ho Hs. rewrite Hr. unfold SstReader.table_get. by rewrite newest_visible_log. Qed.

Lemma get_ssts_layers rs Ls u s :
  Forall2 (fun r l => represents r (insert_all l [])) rs Ls ->
  log_ordered (mjoin Ls) -> Forall (fun e => Seqno e.1 <= s) (mjoin Ls) ->
  get_ssts (reverse rs) u s = get_result (log_map (mjoin Ls) !! u).
Proof.
  revert rs. induction Ls as [|l Ls IH] using rev_ind; intros rs Hr Ho Hs.
  { apply Forall2_nil_inv_r in Hr as ->. done. }
  apply Forall2_app_inv_r in Hr as (rs1 & rs2 & Hr1 & Hr2 & ->).
  apply Forall2_cons_inv_r in Hr2 as (r & rs3 & Hr & Hnil & ->). apply Forall2_nil_inv_r in Hnil as ->.
  rewrite join_app in Ho, Hs |- *. cbn in Ho, Hs |- *. rewrite app_nil_r in Ho, Hs |- *.
  apply log_ordered_app in Ho as (Ho1 & Ho2 & _). apply Forall_app in Hs as [Hs1 Hs2].
  rewrite reverse_snoc. cbn [get_ssts].
  rewrite (table_get_layer r l u s Hr Ho2 Hs2), log_map_lookup, last_write_app.
  destruct (last_write u l) as [e|].
  - by destruct (decide _).
  - rewrite <-log_map_lookup. by apply IH.
Qed.

Lemma mem_get_layer (m : Mem) l u s :
  mem_of m l -> log_ordered l -> Forall (fun e => Seqno e.1 <= s) l -> mem_get u s m = Ok (get_entry (last_write u l)).
Proof using memtable_laws.
  intros [Hinv Hent] Ho Hs. rewrite mem_get_spec by done. unfold entries_get. by rewrite Hent, newest_visible_log.
Qed.

Lemma Get_view db log key :
  view db log -> closed db = false -> Get None key db = get_result (log_map log !! key).
Proof using memtable_laws.
  intros (Ls & Li & Lm & -> & [Hs Hi (m & Em & Hm) Ho [H0 Hq] Hk]) Hc.
  apply log_ordered_app in Ho as (HoS & Ho & _). apply log_ordered_app in Ho as (HoI & HoM & _).
  apply Forall_app in Hq as [HqS Hq]. apply Forall_app in Hq as [HqI HqM].
  unfold Get. rewrite Hc, Em. cbn [deref mbind result_bind]. rewrite (mem_get_layer m Lm key _ Hm HoM HqM).
  cbn [mbind result_bind]. rewrite log_map_lookup, !last_write_app.
  destruct (last_write key Lm) as [e|]; cbn [get_entry]; [by destruct (decide _)|].
  destruct (immMem db) as [imm|]; cbn [imm_of] in Hi.
  - rewrite (mem_get_layer imm Li key _ Hi HoI HqI). cbn [mbind result_bind].
    destruct (last_write key Li) as [e|]; cbn [get_entry]; [by destruct (decide _)|].
    rewrite <-log_map_lookup. by apply get_ssts_layers.
  - subst Li. cbn [mbind result_bind last_write filter list_filter last]. cbn [last_write].
    rewrite <-log_map_lookup. by apply get_ssts_layers.
Qed.

(** ** Properties *)

(** A database with nothing in it, as [Open] makes it in a fresh directory: any
    options, any disk and any WAL and MANIFEST writers. *)
Definition fresh_db (sync : bool) (flushSize blkSize : Z) (wl : Wal.Writer) (wfile : nat) (mw : Manifest.Writer) : DB :=
  mkDB sync flushSize blkSize false 0 0 (Some (mem_new (rand 0))) None [] (Some wl) wfile (Some mw)
    (NewVersion 0) 1 (0 <? flushSize) None 1.

(** The background goroutine, when there is one. *)
Definition fresh_threads (db : DB) : list (thread Mem) := if flushDoneCh db then [TLoopWait] else [].

Lemma fresh_inv sync fs bs wl wf mw w :
  let db := fresh_db sync fs bs wl wf mw in sys_inv 0 (mkSys db w (fresh_threads db) []).
Proof using memtable_laws.
  intros db. right. destruct (mem_new_spec (rand 0)) as [Hn He]. split; cbn [s_db s_threads s_log]; [| |done].
  - exists [], [], []. split; [done|]. split; try done; [by exists (mem_new (rand 0))|constructor..].
  - unfold fresh_threads. destruct (flushDoneCh db) eqn:E; split; rewrite ?E; unfold count; cbn; try lia;
      repeat constructor.
Qed.

(** C5: the engine refines a map.  Let any number of goroutines call [Write],
    [Flush] and [Close] on a new database, with or without the background flusher,
    interleaved wherever the lock is free, and let any system call fail.  As long
    as the database is open, [Get] returns for every key the value of the last write
    applied, or [ErrKeyNotFound] after a delete or no write at all; rotating,
    flushing, publishing and failing flushes are invisible.  (The log of applied
    writes is below 2 GiB; reads of SSTables do not fail.) *)
Theorem engine_refines_map sync fs bs wl wf mw w s key :
  rtc sys_step (mkSys (fresh_db sync fs bs wl wf mw) w (fresh_threads (fresh_db sync fs bs wl wf mw)) []) s ->
  bounded 0 (s_log s) -> closed (s_db s) = false ->
  Get None key (s_db s) = get_result (log_map (s_log s) !! key).
Proof using memtable_laws good_device.
  intros Hrun Hbd Hc.
  destruct (run_inv 0 _ _ (fresh_inv sync fs bs wl wf mw w) Hrun Hbd) as [Hc'|[Hv _ _]]; [congruence|].
  by apply Get_view.
Qed.

(** The effect of a batch on a map. *)
Definition apply_op (m : gmap bytes bytes) (op : Batch.operation) : gmap bytes bytes :=
  if decide (Batch.opType op = Batch.OpTypeDelete) then delete (Batch.op_key op) m
  else <[Batch.op_key op := Batch.op_value op]> m.

Lemma log_map_number log s ops :
  Forall (fun op => Batch.opType op = Batch.OpTypePut \/ Batch.opType op = Batch.OpTypeDelete) ops ->
  log_map (log ++ number s ops) = foldl apply_op (log_map log) ops.
Proof.
  unfold log_map. rewrite foldl_app. generalize (foldl apply_write ∅ log). revert s.
  induction ops as [|op ops IH]; intros s m Hp; [done|]. apply Forall_cons in Hp as [Hop Hp].
  cbn [number foldl]. rewrite IH by done. f_equal. unfold apply_write, apply_op, op_kind. cbn [fst snd Kind UserKey].
  destruct Hop as [-> | ->]; reflexivity.
Qed.

(** C6: batches are atomic.  In any state reached as above, a [Write] that
    returns nil, or goes to sleep for a flush, has changed what [Get] returns for
    all keys at once, to what its operations give in order; one that returns an
    error at this point has changed nothing. *)
Theorem write_is_atomic sync fs bs wl wf mw w s ctx b db' n w' :
  rtc sys_step (mkSys (fresh_db sync fs bs wl wf mw) w (fresh_threads (fresh_db sync fs bs wl wf mw)) []) s ->
  closed (s_db s) = false -> proper_call (CWrite ctx b) ->
  Write rand ctx b (s_db s) (s_w s) = Some ((db', n), w') ->
  bounded 0 (s_log s ++ writes (CWrite ctx b) (s_db s) db') ->
  forall key, Get None key db' =
    match n with
    | Return (Some _) => Get None key (s_db s)
    | _ => get_result (foldl apply_op (log_map (s_log s)) (Batch.snapshot b) !! key)
    end.
Proof using memtable_laws good_device.
  intros Hrun Hc Hp H Hbd key.
  destruct (run_inv 0 _ _ (fresh_inv sync fs bs wl wf mw w) Hrun) as [Hc'|[Hv Ht Hb]];
    [by eapply bounded_prefix|congruence|].
  destruct (seg_write 0 _ _ _ _ _ _ _ _ _ H Hp Hv Ht Hb Hbd) as (Hv' & _ & _ & Hc2 & Ew).
  rewrite (Get_view _ _ key Hv') by congruence. rewrite Ew, (Get_view _ _ key Hv) by done.
  destruct n as [[e|]|t]; [by rewrite app_nil_r|by rewrite log_map_number..].
Qed.
End Run.
