(* ===== verification/Disk.v ===== *)
(** * What is durable

    The tables a MANIFEST lists, the batches a log holds, and the states of the
    directory from which a database can be reopened after a crash. *)
From Stdlib Require Import QArith_base.
From S2P Require Import Prelude.
From S2P Require Import Errors.
From S2P Require Import Coding.
From S2P Require Import Keys.
From S2P Require Import GoIO.
From S2P Require Import GoSort.
From S2P Require Import Record.
From S2P Require Import RecordIO.
From S2P Require Import Fs.
From S2P Require Wal.
From S2P Require Batch.
From S2P Require Import Memtable.
From S2P Require SstWriter.
From S2P Require SstReader.
From S2P Require Import Edit.
From S2P Require Import Version.
From S2P Require Import Current.
From S2P Require Import Manifest.
From S2P Require Import Replay.
From S2P Require Import FileNames.
From S2P Require Import Engine.
From S2P Require Import EngineRun.

Local Open Scope Z_scope.

(** ** Tables

    A flushed table: its entry in the MANIFEST, the writes it was made from,
    oldest first, and the sequence number recorded with it. *)
Record tbl := mkTbl { t_meta : FileMetadata; t_log : list entry; t_seq : Z }.

Definition t_id (t : tbl) : Z := FileID (t_meta t).
Definition t_name (t : tbl) : bytes := buildSSTFileName (t_id t).

Definition first_edit : VersionEdit := mkVersionEdit [] [] true 1 true 0 true 0.

Definition table_edit (t : tbl) : VersionEdit :=
  mkVersionEdit [t_meta t] [] true (u64 (1 + t_id t)) true (t_seq t) false 0.

(** The edits of a MANIFEST that lists the tables of [T]. *)
Definition edits_of (T : list tbl) : list VersionEdit := first_edit :: (table_edit <$> T).

Definition logs_of (T : list tbl) : list entry := mjoin (t_log <$> T).

(** The sequence number a MANIFEST leaves behind. *)
Definition seq_of (T : list tbl) : Z := match last T with Some t => t_seq t | None => 0 end.

(** The content of the file a log was flushed to. *)
Definition log_content (l : list entry) (c : bytes) : Prop :=
  exists blocks, c = SstWriter.table_wire blocks /\ mjoin blocks = insert_all l [] /\
    Forall (fun b => b <> []) blocks.

Definition table_content (t : tbl) (c : bytes) : Prop := log_content (t_log t) c.

(** It is all on stable storage. *)
Definition log_file (l : list entry) (f : File) : Prop :=
  f_synced f = length (f_content f) /\ log_content l (f_content f).

Definition wf_table (t : tbl) : Prop :=
  log_ordered (t_log t) /\ small (t_log t) /\ Forall (fun e => wf_key e.1) (t_log t) /\ t_log t <> [] /\
  edit_fits (table_edit t) /\ Level (t_meta t) = 0.

Lemma wf_table_id t : wf_table t -> is_u64 (t_id t).
Proof.
  intros (_ & _ & _ & _ & [[Hi _] _] & _). unfold items_of in Hi. cbn in Hi.
  rewrite !Forall_cons in Hi. by destruct Hi as (_ & _ & (_ & Hid & _) & _).
Qed.

(** An edit that adds one table fits in a record. *)
Lemma table_edit_fits t :
  Level (t_meta t) = 0 -> is_u64 (t_id t) -> is_u64 (Size (t_meta t)) -> is_u64 (t_seq t) ->
  wf_edit_key (SmallestKey (t_meta t)) -> wf_edit_key (LargestKey (t_meta t)) -> edit_fits (table_edit t).
Proof.
  intros Hl Hi Hz Hq Hs Hg. split.
  - split; [|done]. unfold items_of. cbn [table_edit HasNextFileID HasLastSequence HasLogNumber app DeletedFiles AddedFiles fmap list_fmap].
    repeat (apply Forall_cons; split); [apply u64_range|done| |constructor].
    cbn [wf_item]. rewrite Hl. by split_and!.
  - assert (zlen (edit_wire (table_edit t)) <= 2 ^ 18) as Hle.
    { rewrite edit_wire_alt. unfold zlen. rewrite !length_app, length_deleted_wire, length_added_wire.
      destruct Hs as [_ Hs], Hg as [_ Hg]. unfold zlen, maxLengthPrefixedField in Hs, Hg.
      cbn [table_edit HasNextFileID HasLastSequence HasLogNumber length AddedFiles DeletedFiles map foldr wire_keys
        smallest largest NextFileID LastSequence]. rewrite !length_be_bytes. lia. }
    split; [etrans; [exact Hle|done]|]. unfold is_u32. pose proof (zlen_nonneg (edit_wire (table_edit t))). lia.
Qed.

(** Tables numbered from 1, each later than the ones before. *)
Record tables_ok (T : list tbl) : Prop := {
  to_wf : Forall wf_table T;
  to_ids k t : T !! k = Some t -> t_id t = Z.of_nat (S k);
  to_ordered : log_ordered (logs_of T);
  to_seqs k t : T !! k = Some t -> 0 <= t_seq t /\ Forall (fun e => Seqno e.1 <= t_seq t) (logs_of (take (S k) T))
}.

Lemma logs_of_app T T' : logs_of (T ++ T') = logs_of T ++ logs_of T'.
Proof. unfold logs_of. by rewrite fmap_app, join_app. Qed.

Lemma logs_of_snoc T t : logs_of (T ++ [t]) = logs_of T ++ t_log t.
Proof. rewrite logs_of_app. unfold logs_of. cbn. by rewrite app_nil_r. Qed.

Lemma edits_of_app T T' : edits_of (T ++ T') = edits_of T ++ (table_edit <$> T').
Proof. unfold edits_of. by rewrite fmap_app. Qed.

Lemma edits_of_prefix T T' : T `prefix_of` T' -> edits_of T `prefix_of` edits_of T'.
Proof. intros [k ->]. rewrite edits_of_app. by eexists. Qed.

Lemma tables_ok_prefix T T' : T `prefix_of` T' -> tables_ok T' -> tables_ok T.
Proof.
  intros [k ->] [Hw Hi Ho Hs]. apply Forall_app in Hw as [Hw _].
  rewrite logs_of_app in Ho. apply log_ordered_app in Ho as (Ho & _). split; [done| |done|].
  - intros n t Ht. apply Hi. by apply lookup_app_l_Some.
  - intros n t Ht. destruct (Hs n t) as [H0 Hf]; [by apply lookup_app_l_Some|]. split; [done|].
    apply lookup_lt_Some in Ht. by rewrite take_app_le in Hf by lia.
Qed.

Lemma tables_seq T : tables_ok T -> 0 <= seq_of T /\ Forall (fun e => Seqno e.1 <= seq_of T) (logs_of T).
Proof.
  intros [_ _ _ Hs]. unfold seq_of. destruct (last T) as [t|] eqn:E.
  - rewrite last_lookup in E. destruct (Hs _ _ E) as [? Hf]. split; [done|].
    rewrite take_ge in Hf; [done|]. destruct T; cbn; lia.
  - apply last_None in E as ->. by split.
Qed.

Lemma tables_ok_snoc T t :
  tables_ok T -> wf_table t -> t_id t = Z.of_nat (S (length T)) -> log_ordered (logs_of T ++ t_log t) ->
  0 <= t_seq t -> Forall (fun e => Seqno e.1 <= t_seq t) (logs_of T ++ t_log t) -> tables_ok (T ++ [t]).
Proof.
  intros [Hw Hi Ho Hs] Hwt Hid Hot H0 Hst. split.
  - apply Forall_app. split; [done|by apply Forall_singleton].
  - intros k t' [Hk|[Hk E]]%lookup_app_Some; [by apply Hi|].
    apply list_lookup_singleton_Some in E as [Ek <-]. rewrite Hid. f_equal. lia.
  - by rewrite logs_of_snoc.
  - intros k t' [Hk|[Hk E]]%lookup_app_Some.
    + apply lookup_lt_Some in Hk as Hlt. rewrite take_app_le by lia. by apply Hs.
    + apply list_lookup_singleton_Some in E as [Ek <-]. rewrite take_ge by (rewrite length_app; cbn; lia).
      by rewrite logs_of_snoc.
Qed.

Lemma tables_count T : tables_ok T -> (length T <= length (logs_of T))%nat.
Proof.
  intros [Hw _ _ _]. induction Hw as [|t T (_ & _ & _ & Hne & _) _ IH]; [done|].
  change (logs_of (t :: T)) with (t_log t ++ logs_of T). rewrite length_app.
  destruct (t_log t); [done|]. cbn. lia.
Qed.

(** ** Replaying the edits of a list of tables *)
Section Replaying.
Context {slices : Slices} {slices_laws : SlicesLaws}.

Definition version_of (T : list tbl) : Version :=
  mkVersion (match T with [] => [] | _ => [t_meta <$> T] end).

Lemma AllFiles_version_of T : AllFiles (version_of T) = t_meta <$> T.
Proof. destruct T as [|t T]; [done|]. unfold AllFiles, version_of. cbn. by rewrite app_nil_r. Qed.

Lemma Apply_table T t :
  Level (t_meta t) = 0 -> Apply (version_of T) (table_edit t) = version_of (T ++ [t]).
Proof using slices_laws.
  intros Hl. unfold Apply, table_edit. cbn [DeletedFiles AddedFiles foldl].
  assert (touched (mkVersionEdit [t_meta t] [] true (u64 (1 + t_id t)) true (t_seq t) false 0) = {[0]}) as ->.
  { unfold touched. cbn. rewrite Hl. set_solver. }
  rewrite range_map_singleton. cbn [foldl]. unfold sort_touched. cbn [Z.eqb].
  unfold apply_added, grow, Clone, set_level. rewrite Hl. cbn [Z.to_nat files].
  unfold version_of. destruct T as [|t0 T]; cbn; [done|]. by rewrite fmap_app.
Qed.

Lemma Apply_first : Apply (NewVersion 0) first_edit = version_of [].
Proof using slices_laws.
  unfold Apply. assert (touched first_edit = ∅) as -> by (unfold touched; cbn; set_solver).
  by rewrite range_map_empty.
Qed.

Definition state_of (T : list tbl) : replayState :=
  mkReplayState (mkReplay (version_of T) (Z.of_nat (S (length T))) (seq_of T) 0 0 false)
    (list_to_set (t_id <$> T)) true.

Lemma fold_edits_of T :
  tables_ok T -> Z.of_nat (length T) < 2 ^ 63 -> fold_edits (edits_of T) init_replay = Ok (state_of T).
Proof using slices_laws.
  induction T as [|t T IH] using rev_ind; intros Ht Hn.
  { unfold edits_of. cbn [fmap list_fmap fold_edits]. unfold applyEditToReplay, init_replay.
    cbn [AddedFiles DeletedFiles first_edit add_live mbind result_bind rs_res Replay.version]. by rewrite Apply_first. }
  pose proof (tables_ok_prefix T _ (prefix_app_r _ _ _ ltac:(done)) Ht) as HtT.
  rewrite length_app in Hn. cbn in Hn.
  rewrite edits_of_app, fold_edits_app, IH by (done || lia). cbn [mbind result_bind fmap list_fmap fold_edits].
  assert ((T ++ [t]) !! length T = Some t) as Hlk by (by rewrite list_lookup_middle).
  pose proof (to_ids _ Ht _ _ Hlk) as Hid. pose proof (to_wf _ Ht) as Hw.
  apply Forall_app in Hw as [_ Hw]. apply Forall_singleton in Hw as (_ & _ & _ & _ & _ & Hl).
  unfold applyEditToReplay, table_edit. cbn [AddedFiles DeletedFiles add_live liveFiles state_of].
  rewrite bool_decide_false; cycle 1.
  { change (FileID (t_meta t)) with (t_id t). intros Hin%elem_of_list_to_set.
    apply list_elem_of_fmap in Hin as (t' & Eid & Hin). apply list_elem_of_lookup in Hin as [k Hk].
    rewrite Hid in Eid. rewrite (to_ids _ HtT _ _ Hk) in Eid. apply lookup_lt_Some in Hk. lia. }
  cbn [mbind result_bind delete_live foldr]. f_equal. unfold state_of. f_equal.
  - cbn [rs_res Replay.version]. f_equal.
    + change (mkVersionEdit _ _ _ _ _ _ _ _) with (table_edit t). by apply Apply_table.
    + cbn. rewrite Hid, length_app. cbn. rewrite u64_id by (unfold is_u64; lia). lia.
    + cbn. unfold seq_of. by rewrite last_snoc.
  - rewrite fmap_app, list_to_set_app_L. cbn. set_solver.
Qed.

(** The replay of a MANIFEST that holds the edits of [T], possibly followed by a
    torn record. *)
Lemma replay_result_of T trimmed :
  tables_ok T -> Z.of_nat (length T) < 2 ^ 63 ->
  replay_result (edits_of T) trimmed init_replay =
    Ok (mkReplay (version_of T) (Z.of_nat (S (length T))) (seq_of T) 0 (length (manifest_image (edits_of T))) trimmed).
Proof using slices_laws. intros Ht Hn. unfold replay_result. by rewrite fold_edits_of. Qed.
End Replaying.

(** ** Batches *)
Abbreviation batch := (list Batch.operation).

Definition wal_image (W : list batch) : bytes := log_image Wal.walRecordFormat (Batch.batch_wire <$> W).

(** What the theorems on histories assume of a batch; the code checks none of it.  Its
    parts and its encoding fit their 32-bit length fields, and the keys are short
    enough for the MANIFEST: when a table's first or last user key is longer than 65527
    bytes its edit is written and cannot be read back (Edit.edit_large_key_unreadable), and the
    database does not open again. *)
Definition key_fits (k : bytes) : Prop := zlen k + 9 <= maxLengthPrefixedField.

Record batch_ok (ops : batch) : Prop := {
  bo_wf : Batch.wf_ops ops;
  bo_wire : is_u32 (zlen (Batch.batch_wire ops));
  bo_keys : Forall (fun op => key_fits (Batch.op_key op)) ops
}.

(** The map a sequence of batches leaves. *)
Definition batches_map (bs : list batch) : gmap bytes bytes := foldl apply_op ∅ (mjoin bs).

Definition keys_of (bs : list batch) : list bytes := Batch.op_key <$> mjoin bs.

(** The space the writes take in a memtable or a table. *)
Definition batches_bytes (bs : list batch) : Z := SstReader.log_bytes (number 0 (mjoin bs)).

Lemma keys_of_app bs bs' : keys_of (bs ++ bs') = keys_of bs ++ keys_of bs'.
Proof. unfold keys_of. by rewrite join_app, fmap_app. Qed.

Lemma keys_of_sublist bs bs' k : bs `sublist_of` bs' -> k ∈ keys_of bs -> k ∈ keys_of bs'.
Proof.
  induction 1 as [|b bs bs' _ IH|b bs bs' _ IH]; [done|..]; unfold keys_of in *; cbn; rewrite !fmap_app, !elem_of_app;
    tauto.
Qed.

Lemma wal_image_app W W' : wal_image (W ++ W') = wal_image W ++ wal_image W'.
Proof. unfold wal_image. by rewrite fmap_app, log_image_app. Qed.

Lemma wal_image_prefix W W' : W `prefix_of` W' -> wal_image W `prefix_of` wal_image W'.
Proof. intros [k ->]. rewrite wal_image_app. by eexists. Qed.

Lemma log_bytes_number s s' ops : SstReader.log_bytes (number s ops) = SstReader.log_bytes (number s' ops).
Proof. revert s s'. induction ops as [|op ops IH]; intros s s'; [done|]. cbn. by rewrite (IH _ (s' + 1)). Qed.

Lemma log_bytes_count l : 64 * zlen l <= SstReader.log_bytes l.
Proof.
  unfold zlen. induction l as [|e l IH]; [done|]. cbn [SstReader.log_bytes length]. unfold SstReader.entry_bytes, zlen. lia.
Qed.

Lemma batches_bytes_app bs bs' : batches_bytes (bs ++ bs') = batches_bytes bs + batches_bytes bs'.
Proof.
  unfold batches_bytes. rewrite join_app, number_app, SstReader.log_bytes_app. f_equal. apply log_bytes_number.
Qed.

Lemma batches_bytes_nonneg bs : 0 <= batches_bytes bs.
Proof. apply SstReader.log_bytes_nonneg. Qed.

Lemma batches_bytes_sublist bs bs' : bs `sublist_of` bs' -> batches_bytes bs <= batches_bytes bs'.
Proof.
  induction 1 as [|b bs bs' _ IH|b bs bs' _ IH]; [done|..].
  - change (b :: bs) with ([b] ++ bs). change (b :: bs') with ([b] ++ bs'). rewrite !batches_bytes_app. lia.
  - change (b :: bs') with ([b] ++ bs'). rewrite batches_bytes_app. pose proof (batches_bytes_nonneg [b]). lia.
Qed.

(** ** Directory states *)
Abbreviation dirs s := (live s :: unsynced s).

(** No directory state has two names for one file. *)
Definition inj_dirs (s : Fs) : Prop :=
  forall d a b i, d ∈ dirs s -> d !! a = Some i -> d !! b = Some i -> a = b.

(** Everything is on stable storage. *)
Record settled (s : Fs) : Prop := {
  se_dirs : unsynced s = [];
  se_files i f : inodes s !! i = Some f -> f_synced f = length (f_content f)
}.

(** *** Names *)
Definition mname (id : Z) : bytes := buildManifestFileName id.

Lemma mname_head id : head (mname id) = Some x4d.
Proof. done. Qed.

Lemma tname_head id : is_u64 id -> exists b, head (buildSSTFileName id) = Some b /\ is_digit b = true.
Proof.
  intros Hu. rewrite buildSSTFileName_fixed by done. pose proof (forallb_fixed 20 id) as Hd.
  pose proof (length_fixed 20 id) as Hl. destruct (fixed 20 id) as [|b l]; [done|].
  exists b. split; [done|]. by apply andb_true_iff in Hd as [? _].
Qed.

Lemma mname_ne_current id : mname id <> currentFileName.
Proof. done. Qed.
Lemma mname_ne_tmp id : mname id <> currentTmpFileName.
Proof. done. Qed.
Lemma mname_ne_wal id : mname id <> walFileName.
Proof. done. Qed.
Lemma tmp_ne_wal : currentTmpFileName <> walFileName.
Proof. discriminate. Qed.
Lemma current_ne_wal : currentFileName <> walFileName.
Proof. discriminate. Qed.
Lemma tname_ne id nm : is_u64 id -> (forall b, head nm = Some b -> is_digit b = false) -> buildSSTFileName id <> nm.
Proof. intros Hu Hn <-. destruct (tname_head id Hu) as (b & Hb & Hd). specialize (Hn b Hb). congruence. Qed.
Lemma tname_ne_current id : is_u64 id -> buildSSTFileName id <> currentFileName.
Proof. intros Hu. apply tname_ne; [done|]. by intros b [= <-]. Qed.
Lemma tname_ne_tmp id : is_u64 id -> buildSSTFileName id <> currentTmpFileName.
Proof. intros Hu. apply tname_ne; [done|]. by intros b [= <-]. Qed.
Lemma tname_ne_wal id : is_u64 id -> buildSSTFileName id <> walFileName.
Proof. intros Hu. apply tname_ne; [done|]. by intros b [= <-]. Qed.
Lemma tname_ne_mname id id' : is_u64 id -> buildSSTFileName id <> mname id'.
Proof. intros Hu. apply tname_ne; [done|]. by intros b [= <-]. Qed.
Lemma tname_inj id id' : is_u64 id -> is_u64 id' -> buildSSTFileName id = buildSSTFileName id' -> id = id'.
Proof.
  intros Hu Hu' E. pose proof (parse_build id Hu) as P. rewrite E, parse_build in P by done. congruence.
Qed.

(** *** Files *)
Definition cur_file (name : bytes) (f : File) : Prop :=
  f_synced f = length (f_content f) /\ parse_current (Some (f_content f)) = Ok name.

(** The records up to [T] are durable; what follows is the start of the records
    of [D]. *)
Record manifest_file (T D : list tbl) (f : File) : Prop := {
  mf_content : f_content f `prefix_of` manifest_image (edits_of (T ++ D));
  mf_synced : (length (manifest_image (edits_of T)) <= f_synced f <= length (f_content f))%nat
}.

Record wal_file_ok (Wd W : list batch) (f : File) : Prop := {
  wf_content : f_content f `prefix_of` wal_image W;
  wf_durable : (length (wal_image Wd) <= f_synced f <= length (f_content f))%nat
}.

Definition table_file (t : tbl) : File -> Prop := log_file (t_log t).

(** *** Ghost state

    [acked] are the batches acknowledged so far, [issued] all batches handed to
    [Write]; [T] the tables of the MANIFEST, [D] the one whose record may be
    incomplete; [W] the batches in the log, [Wd] the durable ones among them;
    [n] the times the database was opened. *)
Record ghost_ok (acked issued : list batch) (n : Z) (T D : list tbl) (Wd W : list batch) : Prop := {
  g_tables : tables_ok (T ++ D);
  g_tail : (length D <= 1)%nat;
  g_wal : Wd `prefix_of` W;
  g_fits : Forall (fun b => batch_ok b /\ fits Wal.walRecordFormat (Batch.batch_wire b)) W;
  g_keys : Forall (fun e => UserKey e.1 ∈ keys_of Wd) (logs_of (T ++ D));
  g_acked : acked `sublist_of` Wd;
  g_issued : W `sublist_of` issued;
  g_size : SstReader.log_bytes (logs_of (T ++ D)) <= n * batches_bytes issued;
  g_seq : seq_of T <= n * batches_bytes issued /\ seq_of (T ++ D) <= n * batches_bytes issued
}.

Lemma ghost_empty issued n : 0 <= n -> ghost_ok [] issued n [] [] [] [].
Proof.
  intros Hn. pose proof (batches_bytes_nonneg issued) as Hb. assert (0 <= n * batches_bytes issued) as H0 by nia.
  split; cbn; try done; try constructor; try done; try lia; try apply sublist_nil_l.
  unfold log_ordered. constructor.
Qed.

(** *** The directory of a database that has been set up *)
Record installed (acked issued : list batch) (n : Z) (id : Z) (T D : list tbl) (Wd W : list batch) (s : Fs) : Prop := {
  in_ghost : ghost_ok acked issued n T D Wd W;
  in_cur : named currentFileName False (cur_file (mname id)) s;
  in_man : named (mname id) False (manifest_file T D) s;
  in_wal : named walFileName (Wd = []) (wal_file_ok Wd W) s;
  in_tabs : Forall (fun t => named (t_name t) False (table_file t) s) (T ++ D)
}.

(** *** The directory while it is being set up

    Until CURRENT is renamed into place there is nothing but MANIFESTs, with
    numbers up to that of attempts; after the rename CURRENT names a complete one,
    which may have been removed again. *)
Definition boot_dir (n : Z) (ino : gmap nat File) (d : dirents) : Prop :=
  d !! walFileName = None /\
  (forall nm, nm ∈ dom d -> max_manifest_id [nm] <= n) /\
  (d !! currentFileName = None \/
   exists id i f, d !! currentFileName = Some i /\ ino !! i = Some f /\ cur_file (mname id) f /\
     (d !! mname id = None \/
      exists j g, d !! mname id = Some j /\ ino !! j = Some g /\ manifest_file [] [] g)).

Definition boot (n : Z) (s : Fs) : Prop := forall d, d ∈ dirs s -> boot_dir n (inodes s) d.

(** ** The states a crash may hit *)
Record safe (acked issued : list batch) (n : Z) (s : Fs) : Prop := {
  sa_wf : wf_fs s;
  sa_inj : inj_dirs s;
  sa_case : (acked = [] /\ boot n s) \/ exists id T D Wd W, installed acked issued n id T D Wd W s
}.

Lemma crash_settled s s' : crash s s' -> settled s'.
Proof.
  intros [Hl Hu Hn Hno Hi]. split; [done|]. intros i f' E. destruct (inodes s !! i) as [f|] eqn:Ef.
  - destruct (Hi i f Ef) as (g & E' & _ & Hg). by simplify_eq.
  - rewrite Hno in E by done. done.
Qed.

Lemma inj_crash s s' : inj_dirs s -> crash s s' -> inj_dirs s'.
Proof.
  intros H [Hl Hu _ _ _] d a b i Hd. rewrite Hu in Hd. apply list_elem_of_singleton in Hd as ->. by apply H.
Qed.

Lemma manifest_file_crash T D f' : after_crash (manifest_file T D) f' -> manifest_file T D f'.
Proof. intros (f & [Hc Hs] & [Hp Hl] & E). split; [by etrans|lia]. Qed.

Lemma wal_file_crash Wd W f' : after_crash (wal_file_ok Wd W) f' -> wal_file_ok Wd W f'.
Proof. intros (f & [Hc Hs] & [Hp Hl] & E). split; [by etrans|lia]. Qed.

(** Files that are fully synced survive as they are. *)
Lemma synced_file_crash (P : bytes -> Prop) f' :
  after_crash (fun f => f_synced f = length (f_content f) /\ P (f_content f)) f' ->
  f_synced f' = length (f_content f') /\ P (f_content f').
Proof.
  intros (f & [Hs HP] & [Hp Hl] & E). apply prefix_length_eq in Hp; [|lia]. rewrite Hp. rewrite Hp in E. done.
Qed.

Lemma cur_file_crash name f' : after_crash (cur_file name) f' -> cur_file name f'.
Proof. apply (synced_file_crash (fun c => parse_current (Some c) = Ok name)). Qed.

Lemma table_file_crash t f' : after_crash (table_file t) f' -> table_file t f'.
Proof. apply (synced_file_crash (table_content t)). Qed.

Lemma named_crash_closed name N F s s' :
  (forall f, after_crash F f -> F f) -> named name N F s -> crash s s' -> named name N F s'.
Proof. intros HF H Hc. eapply named_mono; [done|exact HF|by eapply named_crash]. Qed.

Lemma installed_crash acked issued n id T D Wd W s s' :
  installed acked issued n id T D Wd W s -> crash s s' -> installed acked issued n id T D Wd W s'.
Proof.
  intros [Hg Hc Hm Hw Ht] Hcr. split; [done|..].
  - eapply named_crash_closed; [|done|done]. apply cur_file_crash.
  - eapply named_crash_closed; [apply manifest_file_crash|done|done].
  - eapply named_crash_closed; [apply wal_file_crash|done|done].
  - eapply Forall_impl; [exact Ht|]. intros t Hn.
    exact (named_crash_closed _ _ _ _ _ (table_file_crash t) Hn Hcr).
Qed.

Lemma boot_crash n s s' : boot n s -> crash s s' -> boot n s'.
Proof.
  intros H [Hl Hu _ _ Hi] d Hd. rewrite Hu in Hd. apply list_elem_of_singleton in Hd as ->.
  destruct (H _ Hl) as (Hw & Hm & Hc). split; [done|]. split; [done|].
  destruct Hc as [Hc|(id & i & f & Hc & Ef & Hf & Hman)]; [by left|right].
  destruct (Hi i f Ef) as (f' & Ef' & Himg & Hs). exists id, i, f'. split_and!; [done|done| |].
  - apply cur_file_crash. by exists f.
  - destruct Hman as [Hn|(j & g & Hj & Eg & Hg)]; [by left|right].
    destruct (Hi j g Eg) as (g' & Eg' & Himg' & Hs'). exists j, g'. split_and!; [done|done|].
    apply manifest_file_crash. by exists g.
Qed.

Lemma safe_crash acked issued n s s' : safe acked issued n s -> crash s s' -> safe acked issued n s' /\ settled s'.
Proof.
  intros [Hw Hi Hc] Hcr. split; [|by eapply crash_settled].
  split; [by eapply wf_crash|by eapply inj_crash|].
  destruct Hc as [[? Hb]|(id & T & D & Wd & W & H)]; [left|right].
  - split; [done|by eapply boot_crash].
  - exists id, T, D, Wd, W. by eapply installed_crash.
Qed.
