(* ===== verification/DiskRun.v ===== *)
(** * The disk under a running database

    Which names and inodes a running database relies on, the changes of the
    directory that leave them alone, and the safety of every state a flush or a
    write takes the disk through. *)
From Stdlib Require Import QArith_base.
From S2P Require Import Prelude.
From S2P Require Import Errors.
From S2P Require Import Keys.
From S2P Require Import GoIO.
From S2P Require Import GoSort.
From S2P Require Import Record.
From S2P Require Import RecordIO.
From S2P Require Import Fs.
From S2P Require Wal.
From S2P Require Batch.
From S2P Require Import Memtable.
From S2P Require SstWriter.
From S2P Require SstReader.
From S2P Require Import Edit.
From S2P Require Import Version.
From S2P Require Import Current.
From S2P Require Manifest.
From S2P Require Import FileNames.
From S2P Require Import Engine.
From S2P Require Import EngineRun.
From S2P Require Import Disk.

Local Open Scope Z_scope.

(** ** Pinned files

    In every state of the directory, [name] and only [name] is the file [i]. *)
Definition pin (name : bytes) (i : nat) (s : Fs) : Prop :=
  forall d, d ∈ dirs s -> d !! name = Some i /\ forall nm, d !! nm = Some i -> nm = name.

Lemma pin_unref name nm i s : pin name i s -> nm <> name -> unref nm i s.
Proof. intros H Hne d Hd E. by destruct (H d Hd) as [_ Hn]; apply Hne, Hn. Qed.

Lemma pin_named name i (N : Prop) F f s : pin name i s -> inodes s !! i = Some f -> F f -> named name N F s.
Proof. intros H E HF d Hd. destruct (H d Hd) as [-> _]. by exists f. Qed.

Lemma named_pin name i N F s : pin name i s -> named name N F s -> exists f, inodes s !! i = Some f /\ F f.
Proof. intros H Hn. specialize (Hn (live s) ltac:(by left)). destruct (H (live s) ltac:(by left)) as [E _]. by rewrite E in Hn. Qed.

Lemma pin_set_inode name i j f s : pin name i s -> pin name i (set_inode j f s).
Proof. intros H d Hd. by apply H. Qed.

Lemma pin_set_live name i d s :
  pin name i s -> d !! name = Some i -> (forall nm, d !! nm = Some i -> nm = name) -> pin name i (set_live d s).
Proof. intros H Hd Hu d' Hd'. cbn in Hd'. apply elem_of_cons in Hd' as [->|Hd']; [done|by apply H]. Qed.

Lemma inj_set_live d s :
  inj_dirs s -> (forall a b i, d !! a = Some i -> d !! b = Some i -> a = b) -> inj_dirs (set_live d s).
Proof. intros H Hd d' a b i Hd'. cbn in Hd'. apply elem_of_cons in Hd' as [->|Hd']; [apply Hd|by apply H]. Qed.

Lemma inj_create name s i s' : wf_fs s -> inj_dirs s -> create name s = (i, s') -> inj_dirs s'.
Proof.
  intros Hw H [= <- <-] d a b k Hd Ha Hb. cbn in Hd. apply elem_of_cons in Hd as [->|Hd]; [|by eapply H].
  assert (forall nm j, live s !! nm = Some j -> j <> next_ino s) as Hne.
  { intros nm j Hj ->. apply (wf_dirs s Hw _ _ _ ltac:(by left)) in Hj. apply (wf_next s Hw) in Hj. lia. }
  apply lookup_insert_Some in Ha as [[<- <-]|[Hna Ha]]; apply lookup_insert_Some in Hb as [[<- Eb]|[Hnb Hb]]; try done.
  - by destruct (Hne _ _ Hb).
  - subst. by destruct (Hne _ _ Ha).
  - eapply (H (live s)); [by left|done..].
Qed.

Lemma pin_create name nm i s j s' :
  wf_fs s -> create nm s = (j, s') -> nm <> name -> pin name i s -> pin name i s'.
Proof.
  intros Hw [= <- <-] Hne H d Hd. cbn in Hd. apply elem_of_cons in Hd as [->|Hd]; [|by apply H].
  destruct (H (live s) ltac:(by left)) as [Hl Hu]. split; [by rewrite lookup_insert_ne|].
  intros nm' E. apply lookup_insert_Some in E as [[<- Ei]|[_ E]]; [|by apply Hu].
  apply (wf_dirs s Hw _ _ _ ltac:(by left)) in Hl. apply (wf_next s Hw) in Hl. lia.
Qed.

(** A created file is pinned to its name unless the name was in use. *)
Definition private (name : bytes) (i : nat) (s : Fs) : Prop :=
  forall d nm, d ∈ dirs s -> d !! nm = Some i -> nm = name.

Lemma private_unref name nm i s : private name i s -> nm <> name -> unref nm i s.
Proof. intros H Hne d Hd E. apply Hne. by eapply H. Qed.

Lemma create_private name s i s' : wf_fs s -> create name s = (i, s') -> private name i s'.
Proof.
  intros Hw Hc d nm Hd E. destruct (decide (nm = name)) as [|Hne]; [done|].
  exfalso. eapply (create_fresh name nm s i s'); try done.
Qed.

Lemma sync_dirs_dir d s : d ∈ dirs (sync_dirs s) -> d = live s /\ d ∈ dirs s.
Proof. cbn. intros ->%list_elem_of_singleton. split; [done|by left]. Qed.

Lemma named_sync name N F s : named name N F s -> named name N F (sync_dirs s).
Proof. intros H d [-> Hd]%sync_dirs_dir. by apply (H (live s)). Qed.

Lemma pin_sync name i s : pin name i s -> pin name i (sync_dirs s).
Proof. intros H d [-> Hd]%sync_dirs_dir. by apply (H (live s)). Qed.

Lemma inj_sync s : inj_dirs s -> inj_dirs (sync_dirs s).
Proof. intros H d a b i [-> Hd]%sync_dirs_dir. by apply H. Qed.

Lemma wf_sync s : wf_fs s -> wf_fs (sync_dirs s).
Proof.
  intros [Hd Hn Hs]. split; [|done|done]. intros d name i [-> Hin]%sync_dirs_dir E. by apply (Hd (live s) name i).
Qed.

Lemma calm_sync s : calm s -> calm (sync_dirs s).
Proof. by intros []. Qed.

(** [SyncDir] on any assertion that both its calls keep. *)
Lemma triple_SyncDir md (P : Fs -> Prop) (Q : Fs -> Prop) (I : Fs -> Prop) :
  fault_blind P -> (forall s, P s -> I s) -> (forall s, P s -> Q (sync_dirs s) /\ I (sync_dirs s)) ->
  triple md P SyncDir
    (fun r s => match r with Ok _ => Q s | Err _ => md <> Calm /\ P s | Panic => False end) I.
Proof.
  intros Hb HI HQ. unfold SyncDir. eapply (triple_bind _ _ _ _ (fun r s =>
    match r with Ok _ => P s | Err _ => md <> Calm /\ P s | Panic => False end)).
  { apply triple_syscall; [done|done|]. intros s HP. split; [done|]. by split; [apply HI|]. }
  intros [u|e|]; [|by apply triple_ret|by apply triple_false; intros ? []].
  eapply (triple_bind _ _ _ _ (fun r s =>
    match r with Ok _ => Q s | Err _ => md <> Calm /\ P s | Panic => False end)).
  { apply triple_syscall; [done|done|]. intros s HP. destruct (HQ s HP) as [HQs HIs].
    split; [exact HQs|]. split; [exact HIs|intros _; apply calm_sync]. }
  intros [u'|e|]; apply triple_ret; cbn; tauto.
Qed.

(** ** The disk of a running database

    The MANIFEST and the log are pinned; [X] are tables written but not listed. *)
Record running (acked issued : list batch) (n id : Z) (im iw : nat) (fw : File) (T D : list tbl) (Wd W : list batch) (s : Fs)
  : Prop := {
  ru_wf : wf_fs s;
  ru_inj : inj_dirs s;
  ru_in : installed acked issued n id T D Wd W s;
  ru_man : pin (mname id) im s;
  ru_wal : pin walFileName iw s;
  ru_log : inodes s !! iw = Some fw
}.

Lemma running_safe acked issued n id im iw fw T D Wd W s :
  running acked issued n id im iw fw T D Wd W s -> safe acked issued n s.
Proof. intros [Hw Hi Hin _ _ _]. split; [done|done|right]. by exists id, T, D, Wd, W. Qed.

Lemma ghost_mono acked issued issued' n T D Wd W :
  issued `sublist_of` issued' -> 0 <= n -> ghost_ok acked issued n T D Wd W -> ghost_ok acked issued' n T D Wd W.
Proof.
  intros Hs Hn [? ? ? ? ? ? Hi Hz [Hq1 Hq2]]. pose proof (batches_bytes_sublist _ _ Hs) as Hb.
  split; try done; [by etrans|nia|split; nia].
Qed.

Lemma installed_ghost acked issued n id T D Wd W acked' issued' s :
  installed acked issued n id T D Wd W s -> ghost_ok acked' issued' n T D Wd W ->
  installed acked' issued' n id T D Wd W s.
Proof. intros [_ Hc Hm Hw Ht] Hg. by split. Qed.

Lemma safe_grow acked issued issued' n s :
  issued `sublist_of` issued' -> 0 <= n -> safe acked issued n s -> safe acked issued' n s.
Proof.
  intros Hs Hn [Hw Hi [?|(id & T & D & Wd & W & H)]]; split; [done|done|by left|done|done|right].
  exists id, T, D, Wd, W. eapply installed_ghost; [done|]. eapply ghost_mono; [done..|apply H].
Qed.

(** The names a database relies on. *)
Definition relies_on (id : Z) (T : list tbl) (nm : bytes) : Prop :=
  nm = currentFileName \/ nm = mname id \/ nm = walFileName \/ exists t, t ∈ T /\ nm = t_name t.

Section Frames.
Context (acked issued : list batch) (n id : Z) (im iw : nat) (fw : File) (T D : list tbl) (Wd W : list batch).
Local Abbreviation run := (running acked issued n id im iw fw T D Wd W).
Local Abbreviation relied := (relies_on id (T ++ D)).

Lemma relied_cur : relied currentFileName.
Proof. by left. Qed.
Lemma relied_man : relied (mname id).
Proof. right. by left. Qed.
Lemma relied_wal : relied walFileName.
Proof. right. right. by left. Qed.
Lemma relied_tab t : t ∈ T ++ D -> relied (t_name t).
Proof. intros Ht. right. right. right. by exists t. Qed.

(** A change that keeps every file the database relies on. *)
Lemma installed_frame s s' :
  (forall nm N F, relied nm -> named nm N F s -> named nm N F s') ->
  installed acked issued n id T D Wd W s -> installed acked issued n id T D Wd W s'.
Proof.
  intros H [Hg Hc Hm Hw Ht]. split; [done|by apply H; [apply relied_cur|]|by apply H; [apply relied_man|]
    |by apply H; [apply relied_wal|]|].
  apply Forall_forall. intros t Hin. rewrite Forall_forall in Ht. apply H; [by apply relied_tab|by apply Ht].
Qed.

Lemma running_blind : fault_blind run.
Proof.
  intros fl s [Hw Hi [Hg Hc Hm Hwl Ht] Hpm Hpw Hfw]. split; [by apply wf_blind|done|by split|done|done|done].
Qed.

Lemma running_sync s : run s -> run (sync_dirs s).
Proof.
  intros [Hw Hi Hin Hm Hl Hfw]. split; [by apply wf_sync|by apply inj_sync| |by apply pin_sync|by apply pin_sync|done].
  eapply installed_frame; [|done]. intros nm N F _. apply named_sync.
Qed.

Lemma running_set_inode j f s :
  run s -> (forall nm, relied nm -> unref nm j s) -> is_Some (inodes s !! j) ->
  (f_synced f <= length (f_content f))%nat -> run (set_inode j f s).
Proof.
  intros [Hw Hi Hin Hm Hl Hfw] Hu Hj Hf.
  split; [by apply wf_set_inode|done| |by apply pin_set_inode|by apply pin_set_inode|].
  - eapply installed_frame; [|done]. intros nm N F Hr. apply named_set_inode. by apply Hu.
  - cbn. rewrite lookup_insert_ne; [done|]. intros ->.
    eapply (Hu walFileName); [by apply relied_wal|by left|]. by apply (Hl (live s) ltac:(by left)).
Qed.

Lemma running_create nm s i s' : run s -> ~ relied nm -> create nm s = (i, s') -> run s'.
Proof.
  intros [Hw Hi Hin Hm Hl Hfw] Hn Hc. split; [by eapply wf_create|by eapply inj_create| | | |].
  - eapply installed_frame; [|done]. intros nm' N F Hr. eapply named_create; [done|done|]. by intros ->.
  - eapply pin_create; [done|done| |done]. intros ->. by apply Hn, relied_man.
  - eapply pin_create; [done|done| |done]. intros ->. by apply Hn, relied_wal.
  - injection Hc as <- <-. cbn. rewrite lookup_insert_ne; [done|]. intros E.
    pose proof (wf_next s Hw iw ltac:(by eexists)). lia.
Qed.

Lemma running_remove nm s : run s -> ~ relied nm -> run (set_live (delete nm (live s)) s).
Proof.
  intros [Hw Hi Hin Hm Hl Hfw] Hn.
  assert (forall a i, delete nm (live s) !! a = Some i -> live s !! a = Some i) as Hd
    by (intros a i [_ ?]%lookup_delete_Some; done).
  assert (forall a, relied a -> delete nm (live s) !! a = live s !! a) as Hk.
  { intros a Ha. apply lookup_delete_ne. by intros ->. }
  split.
  - apply wf_set_live; [done|]. intros a i E%Hd. eapply (wf_dirs s Hw); [by left|done].
  - apply inj_set_live; [done|]. intros a b i Ea%Hd Eb%Hd. eapply Hi; [by left|done..].
  - eapply installed_frame; [|done]. intros a N F Ha. apply named_set_live. by apply Hk.
  - destruct (Hm (live s) ltac:(by left)) as [E Hu]. apply pin_set_live; [done|by rewrite Hk by apply relied_man|].
    intros a Ea%Hd. by apply Hu.
  - destruct (Hl (live s) ltac:(by left)) as [E Hu]. apply pin_set_live; [done|by rewrite Hk by apply relied_wal|].
    intros a Ea%Hd. by apply Hu.
  - done.
Qed.
End Frames.

Lemma named_set_inode_same name N (F : File -> Prop) i f' s :
  (forall f, inodes s !! i = Some f -> F f -> F f') -> named name N F s -> named name N F (set_inode i f' s).
Proof.
  intros HF H d Hd. specialize (H d Hd). destruct (d !! name) as [j|]; [|done].
  destruct H as (g & E & Hg). cbn. destruct (decide (i = j)) as [->|Hne].
  - exists f'. rewrite lookup_insert_eq. eauto.
  - exists g. by rewrite lookup_insert_ne.
Qed.

(** *** The loop over a memtable's entries *)
Lemma add_entries_grows es first sm lg w f w' x f' :
  add_entries es first sm lg w f = Ok (w', x, f') -> file_grows f f'.
Proof.
  revert first sm lg w f. induction es as [|[k v] es IH]; intros first sm lg w f H; cbn [add_entries] in H;
    [by simplify_res|].
  apply bind_Ok in H as ([[w1 f1] e1] & E1 & H). apply SstWriter.Add_grows in E1.
  destruct e1; [by simplify_res|]. etrans; [done|by eapply IH].
Qed.

Lemma add_entries_total es first sm lg w f : exists r, add_entries es first sm lg w f = Ok r.
Proof.
  revert first sm lg w f. induction es as [|[k v] es IH]; intros first sm lg w f; cbn [add_entries]; [by eexists|].
  destruct (SstWriter.sst_Add_total k v w f) as [[[w1 f1] [e|]] ->]; cbn [mbind result_bind]; [by eexists|apply IH].
Qed.

Lemma add_entries_keys es first sm lg w f w' first' sm' lg' f' :
  add_entries es first sm lg w f = Ok (w', (first', sm', lg', None), f') -> first' = false ->
  ((first = false /\ sm' = sm) \/ exists v, (sm', v) ∈ es) /\ ((first = false /\ lg' = lg) \/ exists v, (lg', v) ∈ es).
Proof.
  revert first sm lg w f. induction es as [|[k v] es IH]; intros first sm lg w f H Hf; cbn [add_entries] in H.
  { simplify_res. by split; left. }
  apply bind_Ok in H as ([[w1 f1] e1] & E1 & H). destruct e1; [by simplify_res|].
  destruct (IH _ _ _ _ _ H Hf) as [Hs Hl]. split.
  - destruct Hs as [[_ ->]|[v' ?]]; [destruct first; [right; exists v; by left|by left]|right; exists v'; by right].
  - right. destruct Hl as [[_ ->]|[v' ?]]; [exists v; by left|exists v'; by right].
Qed.

(** ** Writing a table *)
Section WriteTable.
Context {Mem : Type} {memtable : Memtable Mem} {memtable_laws : MemtableLaws Mem}.
Context {device : Device} {good_device : GoodDevice}.
Context (acked issued : list batch) (n id : Z) (im iw : nat) (fw : File) (T D : list tbl) (Wd W : list batch).
Context (path : bytes) (path_free : ~ relies_on id (T ++ D) path).
Local Abbreviation run := (running acked issued n id im iw fw T D Wd W).
Local Abbreviation I := (safe acked issued n).

(** The file being written. *)
Record writing (i : nat) (F : File -> Prop) (s : Fs) : Prop := {
  wr_run : run s;
  wr_live : live s !! path = Some i;
  wr_private : private path i s;
  wr_file : exists f, inodes s !! i = Some f /\ F f
}.

(** The file has been written or removed. *)
Record put_away (i : nat) (s : Fs) : Prop := {
  pa_run : run s;
  pa_private : private path i s;
  pa_file : is_Some (inodes s !! i)
}.

Lemma writing_blind i F : fault_blind (writing i F).
Proof. intros fl s [Hr Hl Hp Hf]. split; [by apply running_blind|done..]. Qed.

Lemma put_away_blind i : fault_blind (put_away i).
Proof. intros fl s [Hr Hp Hf]. split; [by apply running_blind|done..]. Qed.

Lemma writing_safe i F s : writing i F s -> I s.
Proof. intros []. by eapply running_safe. Qed.

Lemma put_away_safe i s : put_away i s -> I s.
Proof. intros []. by eapply running_safe. Qed.

Lemma writing_put_away i F s : writing i F s -> put_away i s.
Proof. intros [Hr Hl Hp (f & Hf & _)]. split; [done|done|by eexists]. Qed.

Lemma writing_mono i (F F' : File -> Prop) s : (forall f, F f -> F' f) -> writing i F s -> writing i F' s.
Proof using. intros HF [Hr Hl Hp (f & Hf & ?)]. split; [done..|]. exists f. auto. Qed.

Lemma relied_private i s nm : private path i s -> relies_on id (T ++ D) nm -> unref nm i s.
Proof using path_free. intros Hp Hr. eapply private_unref; [done|]. by intros ->. Qed.

Lemma writing_set_inode i F F' f' s :
  writing i F s -> F' f' -> (f_synced f' <= length (f_content f'))%nat -> writing i F' (set_inode i f' s).
Proof using path_free.
  intros [Hr Hl Hp (f & Hf & _)] HF Hle. split; [|done|done|exists f'; split; [apply lookup_insert_eq|done]].
  apply running_set_inode; [done| |by eexists|done]. intros nm. by apply relied_private.
Qed.

Lemma triple_writing {A} i F (F' : A -> File -> Prop) (g : File -> res (A * File)) :
  (forall f, F f -> exists a f', g f = Ok (a, f')) ->
  (forall f f' a, F f -> g f = Ok (a, f') -> file_grows f f' /\ F' a f') ->
  triple Faulty (writing i F) (on_file_res i g) (fun a => writing i (F' a)) I.
Proof using path_free.
  intros Hok H. apply triple_on_file_res. intros s Hw. destruct (wr_file _ _ _ Hw) as (f & Hf & HF).
  exists f. split; [done|]. intros _. destruct (Hok f HF) as (a & f' & E). rewrite E.
  destruct (H f f' a HF E) as [Hgr HF']. pose proof (wf_synced s (ru_wf _ _ _ _ _ _ _ _ _ _ _ _ (wr_run _ _ _ Hw)) i f Hf) as Hs.
  assert (writing i (F' a) (set_inode i f' s)) as Hw'.
  { eapply writing_set_inode; [done|done|]. apply Hgr in Hs. lia. }
  split; [done|]. split; [by eapply writing_safe|done].
Qed.

Lemma triple_path_remove i (F : File -> Prop) : triple Faulty (writing i F) (os_Remove path) (fun _ => put_away i) I.
Proof using path_free.
  apply triple_syscall; [apply writing_blind|intros _; apply writing_put_away|]. intros s Hw.
  rewrite (wr_live _ _ _ Hw). destruct Hw as [Hr Hl Hp (f & Hf & _)].
  assert (put_away i (set_live (delete path (live s)) s)) as Hpa.
  { split; [by apply running_remove| |by eexists]. intros d nm Hd E. cbn in Hd.
    apply elem_of_cons in Hd as [->|Hd]; [|by eapply Hp].
    apply lookup_delete_Some in E as [_ E]. eapply Hp; [by left|done]. }
  split; [done|]. split; [by eapply put_away_safe|done].
Qed.

Lemma triple_close_table (P : Fs -> Prop) :
  fault_blind P -> (forall s, P s -> I s) -> triple Faulty P close_table (fun _ => P) I.
Proof.
  intros Hb HI. unfold close_table. eapply (triple_bind _ _ _ _ (fun _ => P)).
  - apply triple_syscall; [done|done|]. intros s HP. split; [done|]. split; [by apply HI|done].
  - intros r. by apply triple_ret.
Qed.

Context (m : Mem) (l : list entry).
Context (m_of : mem_of m l) (l_ordered : log_ordered l) (l_small : small l) (l_keys : Forall (fun e => wf_key e.1) l).

(** What a successful [writeSSTable] leaves. *)
Record written (x : sstWriteResult) (s : Fs) : Prop := {
  wt_file : named path False (log_file l) s;
  wt_reader : represents (sr_reader x) (insert_all l []);
  wt_size : is_u64 (sr_size x);
  wt_smallest : exists v, (sr_smallest x, v) ∈ l;
  wt_largest : exists v, (sr_largest x, v) ∈ l
}.

(** What its result says of the disk; it does not panic. *)
Definition outcome (r : res sstWriteResult) (s : Fs) : Prop :=
  match r with Ok x => written x s | Err _ => True | Panic => False end.

(** *** One stage after the other *)
Lemma mem_entries : entries m = insert_all l [].
Proof using m_of. apply m_of. Qed.

(** The writer [sw] was opened on an empty file. *)
Definition opened_file (bs : Z) (sw : SstWriter.Writer) (f : File) : Prop :=
  f_content f = [] /\ SstWriter.NewWriter (Some f) (writer_opts bs) = Ok (sw, f).

Definition filled_file (bs : Z) (sw : SstWriter.Writer) (sm lg : InternalKey) (f : File) : Prop :=
  (exists f0 sw0, opened_file bs sw0 f0 /\ SstWriter.add_all (entries m) sw0 f0 = Ok (sw, f, None)) /\
  (exists v, (sm, v) ∈ l) /\ (exists v, (lg, v) ∈ l).

Lemma triple_open_writer i bs :
  triple Faulty (writing i (fun f => f_content f = []))
    (on_file_res i (fun f =>
       match SstWriter.NewWriter (Some f) (writer_opts bs) with
       | Ok (w, f) => Ok (Ok w, f) | Err err => Ok (throw err, f) | Panic => Panic
       end))
    (fun r => writing i (fun f => match r with Ok sw => opened_file bs sw f | Err _ => True | Panic => False end)) I.
Proof using path_free.
  apply triple_writing.
  { intros f Hc. destruct (SstWriter.NewWriter_inv f (writer_opts bs) Hc (writer_opts_size bs)) as (sw & -> & _). by eexists _, _. }
  intros f f' a Hc H. destruct (SstWriter.NewWriter_inv f (writer_opts bs) Hc (writer_opts_size bs)) as (sw & En & _).
  rewrite En in H. injection H as <- <-. split; [done|]. by split.
Qed.

Lemma triple_fill i bs sw :
  triple Faulty (writing i (opened_file bs sw)) (on_file_res i (writeMemtableEntries sw m))
    (fun x => writing i (fun f => let '(sw', (sm, lg, err)) := x in
       match err with None => filled_file bs sw' sm lg f | Some _ => True end)) I.
Proof using path_free memtable_laws m_of.
  apply triple_writing.
  { intros f _. unfold writeMemtableEntries. rewrite mem_scan_spec by apply m_of. cbn [mbind result_bind].
    destruct (add_entries_total (entries m) true zeroKey zeroKey sw f) as [[[sw1 [[[first sm] lg] [e|]]] f1] ->];
      cbn [mbind result_bind]; [by eexists _, _|]. destruct first; by eexists _, _. }
  intros f f' [sw' [[sm lg] err]] Ho H. unfold writeMemtableEntries in H.
  rewrite mem_scan_spec in H by apply m_of. cbn [mbind result_bind] in H.
  apply bind_Ok in H as ([[sw1 [[[first sm1] lg1] err1]] f1] & E & H). pose proof (add_entries_grows _ _ _ _ _ _ _ _ _ E) as Hg.
  destruct err1 as [e|]; [by simplify_res|]. destruct first; [by simplify_res|]. simplify_res.
  split; [done|]. destruct (add_entries_keys _ _ _ _ _ _ _ _ _ _ _ E eq_refl) as [Hs Hl].
  apply add_entries_all in E. split; [by exists f, sw|].
  assert (forall k v, (k, v) ∈ entries m -> (k, v) ∈ l) as Hin.
  { intros k v. rewrite mem_entries. rewrite (insert_all_perm l []), app_nil_r. done. }
  destruct Hs as [[? _]|[v Hv]]; [done|]. destruct Hl as [[? _]|[v' Hv']]; [done|]. split; eauto.
Qed.

(** The file is complete and on stable storage. *)
Definition finished_file (sm lg : InternalKey) (f : File) : Prop :=
  log_file l f /\ (exists v, (sm, v) ∈ l) /\ (exists v, (lg, v) ∈ l).

Lemma sst_Close_total sw f : exists err f', sst_Close sw f = Ok (err, f').
Proof using. unfold sst_Close. destruct (SstWriter.Close_total sw f) as [[[w' f'] err] ->]. by eexists _, _. Qed.

Lemma triple_close_writer i bs sw sm lg :
  triple Faulty (writing i (filled_file bs sw sm lg)) (on_file_res i (sst_Close sw))
    (fun err => writing i (fun f => match err with None => finished_file sm lg f | Some _ => True end)) I.
Proof using path_free memtable_laws m_of l_ordered.
  apply triple_writing; [intros f _; apply sst_Close_total|]. intros f f' err [(f0 & sw0 & [Hc Hn] & Ha) Hk] H. unfold sst_Close in H.
  apply bind_Ok in H as ([[sw1 f1] e1] & E & H). pose proof (SstWriter.Close_grows _ _ _ _ _ E) as Hg.
  simplify_res. split; [done|]. destruct err; [done|]. rewrite mem_entries in Ha.
  destruct (SstWriter.write_all_success (writer_opts bs) (insert_all l []) sw0 sw sw1 f0 f f') as (blocks & Hb1 & Hb2 & Hb3 & Hb4);
    try done; [apply writer_opts_size|by apply insert_all_strict|].
  split; [|done]. split; [|by exists blocks]. apply Hb4. unfold writer_opts. by destruct (0 <? bs).
Qed.

(** Its name is durable too. *)
Definition synced_table (i : nat) (sm lg : InternalKey) (s : Fs) : Prop :=
  writing i (finished_file sm lg) s /\ named path False (log_file l) s.

Lemma synced_table_blind i sm lg : fault_blind (synced_table i sm lg).
Proof. intros fl s [? ?]. split; [by apply writing_blind|done]. Qed.

Lemma triple_sync_table i sm lg :
  triple Faulty (writing i (finished_file sm lg)) SyncDir
    (fun r s => match r with Ok _ => synced_table i sm lg s | Err _ => Faulty <> Calm /\ writing i (finished_file sm lg) s | Panic => False end) I.
Proof.
  apply triple_SyncDir; [apply writing_blind|apply writing_safe|]. intros s [Hr Hl Hp (f & Hf & HF)].
  assert (writing i (finished_file sm lg) (sync_dirs s)) as Hw.
  { split; [by apply running_sync|done| |by exists f]. intros d nm [-> Hd]%sync_dirs_dir. by apply Hp. }
  split; [|by eapply writing_safe]. split; [done|]. intros d [-> _]%sync_dirs_dir. rewrite Hl. exists f. by destruct HF.
Qed.

Lemma triple_open_table i sm lg :
  triple Faulty (synced_table i sm lg) (open_table path)
    (fun r s => r <> Panic /\ synced_table i sm lg s /\
       forall rf, r = Ok rf -> SstReader.good rf /\ log_content l (SstReader.rf_data rf)) I.
Proof using path_free good_device.
  unfold open_table. eapply (triple_bind _ _ _ _ (fun r s => r <> Panic /\ synced_table i sm lg s /\ forall j, r = Ok j -> j = i)).
  { apply triple_os_Open; [apply synced_table_blind|by intros s [? _]; eapply writing_safe|done|].
    intros s Hs. rewrite (wr_live _ _ _ (proj1 Hs)). split_and!; [done|done|]. by intros j [= ->]. }
  intros [j|e|]; [|by apply triple_ret; intros s (_ & ? & _)|by apply triple_false; intros s [? _]].
  apply triple_on_file. intros s (_ & [Hw Hn] & Hj). specialize (Hj j eq_refl) as ->.
  destruct Hw as [Hr Hl Hp (f & Hf & Hlf & Hks)]. exists f. split; [done|]. intros _.
  assert (synced_table i sm lg (set_inode i f s)) as Hs.
  { split; [|by apply named_set_inode_same].
    eapply (writing_set_inode i (finished_file sm lg)); [split; [done..|by exists f]|done|]. rewrite (proj1 Hlf). done. }
  split; [|split; [by destruct Hs; eapply writing_safe|done]]. split; [done|]. split; [done|]. intros rf [= <-].
  split; [|apply Hlf]. split; [apply never_stat_fails|intros; apply never_bad_read].
Qed.

(** A step whose result decides how to go on. *)
Definition flush_done (i : nat) (r : res sstWriteResult) (s : Fs) : Prop :=
  put_away i s /\ outcome r s.

Lemma triple_remove_error i (F : File -> Prop) e :
  triple Faulty (writing i F) (_ ← os_Remove path; mret (throw e)) (flush_done i) I.
Proof using path_free.
  eapply triple_bind; [apply triple_path_remove|]. intros u. apply triple_ret. intros s Hs. by split.
Qed.

Lemma flush_error i (P : Fs -> Prop) e :
  (forall s, P s -> put_away i s) -> triple Faulty P (mret (throw e)) (flush_done i) I.
Proof. intros HP. apply triple_ret. intros s Hs. split; [by apply HP|done]. Qed.

Lemma synced_put_away i sm lg s : synced_table i sm lg s -> put_away i s.
Proof. intros [? _]. by eapply writing_put_away. Qed.

(** After the table is durable: reading it back. *)
Lemma triple_reopen i sm lg :
  triple Faulty (synced_table i sm lg)
    (rf ← open_table path;
     match rf with
     | Panic => panic
     | Err err => mret (throw (Errorf "beachdb: opening SSTable for reading" err))
     | Ok rf =>
     reader ← call (SstReader.OpenReader (Some rf));
     match reader with
     | Panic => panic
     | Err err => _ ← close_table; mret (throw (Errorf "beachdb: error reading newly flushed SSTable" err))
     | Ok reader =>
     let fileSize := SstReader.FileSize reader in
     if fileSize <? 0
     then _ ← close_table; mret (throw (ErrorText "beachdb: SSTable reports negative size"))
     else mret (Ok (mkSstWriteResult reader sm lg (u64 fileSize)))
     end end) (flush_done i) I.
Proof using path_free good_device l_ordered l_small l_keys.
  assert (forall e, triple Faulty (synced_table i sm lg) (_ ← close_table; mret (throw e)) (flush_done i) I) as Hcl.
  { intros e. eapply triple_bind; [apply triple_close_table; [apply synced_table_blind|by intros s [? _]; eapply writing_safe]|].
    intros u. apply flush_error, synced_put_away. }
  eapply triple_bind; [apply triple_open_table|].
  intros [rf|e|]; [|by apply flush_error; intros s (_ & ? & _); eapply synced_put_away|by apply triple_false; intros s [? _]].
  eapply triple_pre; [|eapply (triple_pure _ _ (SstReader.good rf /\ log_content l (SstReader.rf_data rf)))].
  { intros s (_ & Hs & Hrf). split; [by apply Hrf|exact Hs]. }
  intros [Hg (blocks & Hd & Hj & Hne)].
  destruct (open_table_ok rf blocks l l_ordered l_small l_keys Hj Hne Hd Hg) as (rd & -> & Hrd).
  eapply (triple_bind _ _ _ _ (fun r s => r = Ok rd /\ synced_table i sm lg s)); [by apply triple_ret|].
  intros r. apply triple_pure. intros ->.
  cbv zeta. destruct (SstReader.FileSize rd <? 0); [by apply Hcl|].
  apply triple_ret. intros s Hs. split; [by eapply synced_put_away|].
  destruct Hs as [[_ _ _ (f & _ & _ & Hsm & Hlg)] Hn]. split; cbn; try done. apply u64_range.
Qed.

Lemma fill_sstable_disk i bs :
  triple Faulty (writing i (fun f => f_content f = [])) (fill_sstable path i m bs) (flush_done i) I.
Proof using path_free memtable_laws good_device m_of l_ordered l_small l_keys.
  unfold fill_sstable.
  eapply triple_bind; [apply triple_open_writer|]. intros [sw|e|]; [|apply triple_remove_error|by apply triple_false; intros s [_ _ _ (f & _ & [])]].
  eapply triple_bind; [apply triple_fill|]. intros [sw2 [[sm lg] [e|]]]; cbv iota beta.
  { eapply triple_bind; [|intros u; apply triple_remove_error].
    apply (triple_writing i _ (fun _ _ => True)); [intros f _; apply sst_Close_total|]. intros f f' a _ H. unfold sst_Close in H.
    apply bind_Ok in H as ([[sw1 f1] e1] & E & H). apply SstWriter.Close_grows in E. by simplify_res. }
  eapply triple_bind; [apply triple_close_writer|]. intros [e|]; cbv iota beta; [apply triple_remove_error|].
  eapply triple_bind; [apply triple_sync_table|].
  intros [u|e|]; [apply triple_reopen|by apply flush_error; intros s [_ ?]; eapply writing_put_away|by apply triple_false; intros ? []].
Qed.

(** The deferred [Close] of the file. *)
Lemma triple_close_file i r :
  triple Faulty (flush_done i r) (f_close i) (fun _ s => run s /\ outcome r s) I.
Proof using path_free.
  apply triple_on_file. intros s [Hpa Hx]. destruct (pa_file _ _ Hpa) as [f Hf]. exists f. split; [done|]. intros _.
  destruct (file_Close f) as [f' err] eqn:E. apply file_Close_spec in E as (Ec & Es & _).
  assert (run (set_inode i f' s)) as Hr.
  { destruct Hpa as [Hr Hp Hi]. apply running_set_inode; [done| |done|].
    - intros nm. by apply relied_private.
    - rewrite Es, Ec. by eapply (wf_synced s (ru_wf _ _ _ _ _ _ _ _ _ _ _ _ Hr)). }
  split; [|split; [by eapply running_safe|done]]. split; [done|].
  destruct r as [x|e|]; [|done|done]. destruct Hx as [Hn Hrd Hsz Hsm Hlg]. split; try done.
  apply named_set_inode_same; [|done]. intros g Hg [Hgs Hgc]. rewrite Hf in Hg. injection Hg as <-.
  split; [by rewrite Es, Ec|by rewrite Ec].
Qed.

Lemma triple_create_table :
  triple Faulty run (os_Create path)
    (fun r s => match r with Ok i => writing i (fun f => f_content f = []) s | Err _ => run s | Panic => False end) I.
Proof using path_free.
  apply triple_syscall; [apply running_blind|done|]. intros s Hr. destruct (create path s) as [i s'] eqn:Ec.
  assert (writing i (fun f => f_content f = []) s') as Hw.
  { split; [by eapply running_create|..].
    - injection Ec as <- <-. apply lookup_insert_eq.
    - eapply create_private; [apply Hr|done].
    - injection Ec as <- <-. eexists. split; [apply lookup_insert_eq|done]. }
  split; [exact Hw|]. split; [by eapply writing_safe|done].
Qed.

Lemma writeSSTable_disk bs :
  triple Faulty run (writeSSTable path m bs) (fun r s => run s /\ outcome r s) I.
Proof using path_free memtable_laws good_device m_of l_ordered l_small l_keys.
  unfold writeSSTable. eapply triple_bind; [apply triple_MaybeFault|].
  intros [e|]; cbv iota; [by apply triple_ret; intros s [? _]|].
  eapply triple_bind; [eapply triple_pre; [|apply triple_create_table]; by intros s [? _]|].
  intros [i|e|]; [|by apply triple_ret|by apply triple_false; intros s []].
  eapply triple_bind; [apply fill_sstable_disk|]. intros r.
  eapply triple_bind; [apply triple_close_file|]. intros u. by apply triple_ret.
Qed.
End WriteTable.
