(* ===== verification/Live.v ===== *)
(** * A running database and its disk

    What a running database knows of its disk: the tables of its MANIFEST are its
    SSTables, its log holds every batch its memtables hold.  Every segment of every
    goroutine keeps this, and leaves only safe states of the disk on its way. *)
From Stdlib Require Import QArith_base.
From S2P Require Import Prelude.
From S2P Require Import Errors.
From S2P Require Import Keys.
From S2P Require Import GoIO.
From S2P Require Import GoSort.
From S2P Require Import Record.
From S2P Require Import RecordIO.
From S2P Require Import Fs.
From S2P Require Wal.
From S2P Require Batch.
From S2P Require Import Memtable.
From S2P Require SstWriter.
From S2P Require SstReader.
From S2P Require Import Edit.
From S2P Require Import Version.
From S2P Require Import Current.
From S2P Require Import Manifest.
From S2P Require Import FileNames.
From S2P Require Import Engine.
From S2P Require Import EngineRun.
From S2P Require Import Disk.
From S2P Require Import DiskRun.

Local Open Scope Z_scope.

(** ** Changes of the log and of the MANIFEST *)
Section Files.
Context (acked issued acked' issued' : list batch) (n id : Z) (im iw : nat) (fw : File).

Lemma running_log T D Wd W Wd' W' f s :
  running acked issued n id im iw fw T D Wd W s -> ghost_ok acked' issued' n T D Wd' W' -> wal_file_ok Wd' W' f ->
  running acked' issued' n id im iw f T D Wd' W' (set_inode iw f s).
Proof.
  intros [Hw Hi [Hg Hc Hm Hl Ht] Hpm Hpw Hfw] Hg' Hf.
  destruct (Hpw (live s) ltac:(by left)) as [Elive _].
  assert (forall nm N F, nm <> walFileName -> named nm N F s -> named nm N F (set_inode iw f s)) as Hn.
  { intros nm N F Hne. apply named_set_inode. by eapply pin_unref. }
  split; [|done| |by apply pin_set_inode|by apply pin_set_inode|apply lookup_set_inode].
  - apply wf_set_inode; [done|by eapply (wf_dirs s Hw); [left|]|apply Hf].
  - split; [done|by apply Hn|apply Hn; [by apply mname_ne_wal|done]| |].
    + eapply (pin_named _ iw); [by apply pin_set_inode|apply lookup_set_inode|done].
    + rewrite Forall_forall in Ht |- *. intros t Hin. apply Hn; [|by apply Ht].
      pose proof (to_wf _ (g_tables _ _ _ _ _ _ _ Hg)) as Hwt. rewrite Forall_forall in Hwt.
      by apply tname_ne_wal, wf_table_id, Hwt.
Qed.

(** The MANIFEST grows to list the tables of [T' ++ D']. *)
Lemma running_manifest T D T' D' Wd W f s :
  running acked issued n id im iw fw T D Wd W s -> ghost_ok acked' issued' n T' D' Wd W -> manifest_file T' D' f ->
  Forall (fun t => named (t_name t) False (table_file t) s) (T' ++ D') ->
  running acked' issued' n id im iw fw T' D' Wd W (set_inode im f s).
Proof.
  intros [Hw Hi [Hg Hc Hm Hl Ht] Hpm Hpw Hfw] Hg' Hf Ht'.
  destruct (Hpm (live s) ltac:(by left)) as [Elive _].
  assert (forall nm N F, nm <> mname id -> named nm N F s -> named nm N F (set_inode im f s)) as Hn.
  { intros nm N F Hne. apply named_set_inode. by eapply pin_unref. }
  split; [|done| |by apply pin_set_inode|by apply pin_set_inode|]; cycle 2.
  { cbn. rewrite lookup_insert_ne; [done|]. intros <-. destruct (mname_ne_wal id).
    symmetry. by apply (Hpm (live s) ltac:(by left)), (Hpw (live s) ltac:(by left)). }
  - apply wf_set_inode; [done|by eapply (wf_dirs s Hw); [left|]|]. destruct Hf as [_ Hf]. lia.
  - split; [done|apply Hn; [|done]| |apply Hn; [|done]|].
    + intros E. by destruct (mname_ne_current id).
    + eapply (pin_named _ im); [by apply pin_set_inode|apply lookup_set_inode|done].
    + intros E. by destruct (mname_ne_wal id).
    + rewrite Forall_forall in Ht' |- *. intros t Hin. apply Hn; [|by apply Ht'].
      pose proof (to_wf _ (g_tables _ _ _ _ _ _ _ Hg')) as Hwt. rewrite Forall_forall in Hwt.
      by apply tname_ne_mname, wf_table_id, Hwt.
Qed.

(** Reading or closing a pinned file changes nothing. *)
Lemma log_file_ok ww f Wd W :
  Wal.log_inv (Wal.mkLog ww f (Batch.batch_wire <$> W) (Batch.batch_wire <$> Wd)) -> wal_file_ok Wd W f.
Proof. intros []. by split. Qed.

(** A MANIFEST without a torn record is exactly the edits of its tables. *)
Lemma manifest_exact T f : manifest_file T [] f -> f_content f = manifest_image (edits_of T).
Proof.
  intros [Hc Hs]. rewrite app_nil_r in Hc. apply prefix_length_eq in Hc; [done|]. lia.
Qed.
End Files.

(** A segment that leaves the disk alone. *)
Lemma triple_still {A} (m : io A) (P : Fs -> Prop) (Q : A -> Fs -> Prop) I :
  (forall w, P (w_fs w) -> exists a, m w = Some (a, w)) ->
  (forall w a w', P (w_fs w) -> m w = Some (a, w') -> w' = w /\ Q a (w_fs w)) -> triple Faulty P m Q I.
Proof.
  intros Hok H w _ HP HI. destruct (Hok w HP) as [a E]. rewrite E. destruct (H w a w HP E) as [_ HQ]. by split.
Qed.

(** ** Batches in the log and in memory *)
Lemma batch_ok_types ops :
  batch_ok ops -> Forall (fun op => Batch.opType op = Batch.OpTypePut \/ Batch.opType op = Batch.OpTypeDelete) ops.
Proof.
  intros [[Hw _] _ _]. eapply Forall_impl; [exact Hw|]. intros op [[?|[? _]] _ _]; auto.
Qed.

Lemma batches_bytes_one ops s : batches_bytes [ops] = SstReader.log_bytes (number s ops).
Proof. unfold batches_bytes. cbn. rewrite app_nil_r. apply log_bytes_number. Qed.

Lemma batches_map_snoc bs ops : batches_map (bs ++ [ops]) = foldl apply_op (batches_map bs) ops.
Proof. unfold batches_map. rewrite join_app, foldl_app. cbn. by rewrite app_nil_r. Qed.

Lemma number_keys bs ops s :
  batch_ok ops -> Forall (fun e => UserKey e.1 ∈ keys_of (bs ++ [ops]) /\ key_fits (UserKey e.1)) (number s ops).
Proof.
  intros [_ _ Hk]. rewrite keys_of_app. assert (keys_of [ops] = Batch.op_key <$> ops) as E
    by (unfold keys_of; cbn; by rewrite app_nil_r).
  rewrite E. clear E. generalize (keys_of bs) as ks. revert s. induction Hk as [|op ops Hop _ IH]; intros s ks; [constructor|].
  cbn [number]. constructor; cbn; [split; [|done]; apply elem_of_app; right; by left|].
  specialize (IH (s + 1) (ks ++ [Batch.op_key op])). by rewrite <-app_assoc in IH.
Qed.

(** The batches a call hands to the log, and those it acknowledges: a [Write] that
    parks for a flush slot has done its work. *)
Definition batch_of (c : client_call) : list batch :=
  match c with
  | CWrite _ b => match Batch.snapshot b with [] => [] | ops => [ops] end
  | _ => []
  end.

Definition acks {Mem} (c : client_call) (nx : next Mem) : list batch :=
  match nx with Return (Some _) => [] | _ => batch_of c end.

Lemma batch_of_empty ctx_err b :
  (match b with None => true | Some b => Batch.Empty b end) = true -> batch_of (CWrite ctx_err b) = [].
Proof.
  destruct b as [b|]; [|done]. unfold Batch.Empty, Batch.Count. intros H. zb. apply nil_length_inv in H.
  cbn. by rewrite H.
Qed.

Lemma batch_of_nonempty ctx_err b :
  (match b with None => true | Some b => Batch.Empty b end) = false ->
  batch_of (CWrite ctx_err b) = [Batch.snapshot b].
Proof. destruct b as [[ops]|]; [|done]. by destruct ops. Qed.

Section Live.
Context {Mem : Type} {memtable : Memtable Mem} {memtable_laws : MemtableLaws Mem}.
Context {slices : Slices} {slices_laws : SlicesLaws} {device : Device} {good_device : GoodDevice}.
Context (rand : nat -> nat -> Q).
Local Abbreviation DB := (DB Mem).

(** ** The invariant

    Ghost state: the number of the MANIFEST, the inodes of the MANIFEST and the
    log, the file behind the latter, the tables and batches on disk (see Disk.v), the batches applied, and the
    writes in the frozen and in the active memtable. *)
Record ghost := mkGhost {
  gid : Z; gim : nat; giw : nat; gfw : File;
  gT : list tbl; gD : list tbl; gWd : list batch; gW : list batch;
  geff : list batch; gLi : list entry; gLm : list entry
}.

Definition with_log (f : File) (Wd W : list batch) (G : ghost) : ghost :=
  mkGhost (gid G) (gim G) (giw G) f (gT G) (gD G) Wd W (geff G) (gLi G) (gLm G).
Definition with_mems (eff : list batch) (Li Lm : list entry) (G : ghost) : ghost :=
  mkGhost (gid G) (gim G) (giw G) (gfw G) (gT G) (gD G) (gWd G) (gW G) eff Li Lm.
Definition with_tables (T D : list tbl) (Li : list entry) (G : ghost) : ghost :=
  mkGhost (gid G) (gim G) (giw G) (gfw G) T D (gWd G) (gW G) (geff G) Li (gLm G).

(** What is in memory. *)
Record stored (acked issued : list batch) (n : Z) (G : ghost) (db : DB) : Prop := {
  st_layers : layered db (t_log <$> gT G) (gLi G) (gLm G);
  st_map : log_map (logs_of (gT G) ++ gLi G ++ gLm G) = batches_map (geff G);
  st_keys : Forall (fun e => UserKey e.1 ∈ keys_of (geff G) /\ key_fits (UserKey e.1)) (gLi G ++ gLm G);
  st_size : SstReader.log_bytes (logs_of (gT G) ++ gLi G ++ gLm G) <=
    (n - 1) * batches_bytes issued + batches_bytes (geff G);
  st_seq : seqno db <= (n - 1) * batches_bytes issued + batches_bytes (geff G);
  st_acked : acked `sublist_of` geff G;
  st_durable : geff G `sublist_of` gWd G;
  st_next : nextSSTID db = Z.of_nat (S (length (gT G)));
  st_sync : syncOnWrite db = true;
  st_manifest : manifest db = Some (mkWriter (Some (gim G)) (mname (gid G)))
}.

Definition log_open (G : ghost) (db : DB) : Prop :=
  exists ww, wal db = Some ww /\ wal_file db = giw G /\
    Wal.log_inv (Wal.mkLog ww (gfw G) (Batch.batch_wire <$> gW G) (Batch.batch_wire <$> gWd G)).

(** What a flight under way has done or will do. *)
Definition pending (G : ghost) (db : DB) (s : Fs) (t : thread Mem) : Prop :=
  match t with
  | TFlushIO _ path | TLoopIO _ path => path = nextSSTPath db
  | TFlushPublish r | TLoopPublish r => outcome (nextSSTPath db) (gLi G) r s
  | _ => True
  end.

(** When a record was left incomplete in the MANIFEST no flush will follow. *)
Definition clean (G : ghost) (db : DB) (ts : list (thread Mem)) : Prop :=
  gD G = [] \/ (is_Some (immMem db) /\ count is_flight ts = 0%nat /\ count is_loop ts = 0%nat).

Definition on_disk (acked issued : list batch) (n : Z) (G : ghost) (s : Fs) : Prop :=
  running acked issued n (gid G) (gim G) (giw G) (gfw G) (gT G) (gD G) (gWd G) (gW G) s.

Record live_db (acked issued : list batch) (n : Z) (G : ghost) (db : DB) (ts : list (thread Mem)) (s : Fs) : Prop := {
  lv_disk : on_disk acked issued n G s;
  lv_log : log_open G db;
  lv_stored : stored acked issued n G db;
  lv_threads : threads_ok db ts;
  lv_pending : Forall (pending G db s) ts;
  lv_clean : clean G db ts
}.

Lemma live_safe acked issued n G db ts s : live_db acked issued n G db ts s -> safe acked issued n s.
Proof. intros []. by eapply running_safe. Qed.

Lemma stored_view acked issued n G db :
  stored acked issued n G db -> view db (logs_of (gT G) ++ gLi G ++ gLm G).
Proof. intros []. by exists (t_log <$> gT G), (gLi G), (gLm G). Qed.

(** *** Sizes *)
Section Bounds.
Context (acked issued : list batch) (n : Z) (n_pos : 1 <= n) (in_range : n * batches_bytes issued < 2 ^ 31).

Lemma stored_bounds G db s :
  stored acked issued n G db -> on_disk acked issued n G s ->
  SstReader.log_bytes (logs_of (gT G) ++ gLi G ++ gLm G) <= n * batches_bytes issued /\
  seqno db <= n * batches_bytes issued.
Proof using n_pos in_range.
  intros Hs [_ _ [Hg _ _ _ _] _ _ _].
  assert (batches_bytes (geff G) <= batches_bytes issued) as Hb.
  { apply batches_bytes_sublist. etrans; [apply Hs|]. etrans; [|apply Hg].
    destruct (g_wal _ _ _ _ _ _ _ Hg) as [k ->]. by apply sublist_inserts_r. }
  pose proof (st_size _ _ _ _ _ Hs). pose proof (st_seq _ _ _ _ _ Hs). lia.
Qed.

Lemma stored_small G db s :
  stored acked issued n G db -> on_disk acked issued n G s -> small (logs_of (gT G) ++ gLi G ++ gLm G).
Proof using n_pos in_range. intros Hs Hd. destruct (stored_bounds G db s Hs Hd). unfold small. lia. Qed.

Lemma next_id_u64 G db s :
  stored acked issued n G db -> on_disk acked issued n G s -> 0 <= nextSSTID db < 2 ^ 31.
Proof using n_pos in_range.
  intros Hs Hd. pose proof (stored_bounds G db s Hs Hd) as [Hb _].
  destruct Hd as [_ _ [Hg _ _ _ _] _ _ _]. rewrite (st_next _ _ _ _ _ Hs).
  pose proof (tables_ok_prefix (gT G) _ (prefix_app_r _ _ _ ltac:(done)) (g_tables _ _ _ _ _ _ _ Hg)) as Ht.
  pose proof (tables_count _ Ht) as Hc.
  pose proof (log_bytes_count (logs_of (gT G) ++ gLi G ++ gLm G)) as Hl.
  unfold zlen in Hl. rewrite length_app in Hl. lia.
Qed.

(** The name of the next table is not in use. *)
Lemma next_path_free G db s :
  stored acked issued n G db -> on_disk acked issued n G s -> gD G = [] ->
  ~ relies_on (gid G) (gT G ++ gD G) (nextSSTPath db).
Proof using n_pos in_range.
  intros Hs Hd HD. pose proof (next_id_u64 G db s Hs Hd) as Hu. destruct Hd as [_ _ [Hg _ _ _ _] _ _ _].
  unfold nextSSTPath. assert (is_u64 (nextSSTID db)) as Hu' by (unfold is_u64; lia).
  intros [E|[E|[E|(t & Hin & E)]]].
  - by eapply tname_ne_current.
  - by eapply tname_ne_mname.
  - by eapply tname_ne_wal.
  - pose proof (to_wf _ (g_tables _ _ _ _ _ _ _ Hg)) as Hwt. rewrite Forall_forall in Hwt.
    apply tname_inj in E; [|done|by apply wf_table_id, Hwt].
    apply list_elem_of_lookup in Hin as [k Hk]. pose proof (to_ids _ (g_tables _ _ _ _ _ _ _ Hg) _ _ Hk) as Ei.
    rewrite (st_next _ _ _ _ _ Hs), Ei in E. apply lookup_lt_Some in Hk. rewrite HD, app_nil_r in Hk. lia.
Qed.
End Bounds.

(** *** Segments that do not touch the disk *)
Lemma stored_same acked issued n G db db' :
  seqno db' = seqno db -> mem db' = mem db -> immMem db' = immMem db -> ssts db' = ssts db ->
  nextSSTID db' = nextSSTID db -> syncOnWrite db' = syncOnWrite db -> manifest db' = manifest db ->
  stored acked issued n G db -> stored acked issued n G db'.
Proof. intros Eq Em Ei Es En Ey Ef []. split; rewrite ?Eq, ?En, ?Ey, ?Ef; try done. by eapply layered_same. Qed.

Lemma no_flights_pending G db s ts : count is_flight ts = 0%nat -> Forall (pending G db s) ts.
Proof.
  intros H%count_zero. eapply Forall_impl; [exact H|]. intros t Ht. by destruct t.
Qed.

Lemma stored_rotate acked issued n G db :
  immMem db = None -> stored acked issued n G db ->
  stored acked issued n (with_mems (geff G) (gLm G) [] G) (rotate rand db) /\ gLi G = [].
Proof using memtable_laws.
  intros Ei [Hl Hm Hk Hz Hq Ha Hd Hn Hy Hf]. destruct (layered_rotate rand _ _ _ _ Ei Hl) as [Hl' E].
  rewrite E in *. cbn [app] in *. split; [|done]. by split; cbn; rewrite ?app_nil_r.
Qed.

(** Parking, or returning, where a segment left the database as it was. *)
Lemma live_stay acked issued n G db ts s nx :
  live_db acked issued n G db ts s -> threads_ok db (ts ++ parked nx) ->
  (forall t, nx = Park t -> is_loop t = false /\ is_flight t = false) -> live_db acked issued n G db (ts ++ parked nx) s.
Proof.
  intros [Hd Hl Hs Ht Hp Hc] Ht' Hnx. split; try done.
  - apply Forall_app. split; [done|]. destruct nx as [e|t]; [constructor|]. apply Forall_singleton.
    destruct (Hnx t eq_refl) as [_ Hf]. by destruct t.
  - destruct Hc as [?|(Hi & Hf & Hlp)]; [by left|right]. rewrite !count_app, Hf, Hlp. split; [done|].
    destruct nx as [e|t]; [done|]. destruct (Hnx t eq_refl) as [El Ef]. cbn [parked].
    rewrite !count_cons, El, Ef. done.
Qed.

Lemma live_rotate acked issued n G db ts s :
  immMem db = None -> live_db acked issued n G db ts s ->
  live_db acked issued n (with_mems (geff G) (gLm G) [] G) (rotate rand db) ts s.
Proof using memtable_laws.
  intros Ei [Hd Hl Hs Ht Hp Hc]. split; try done.
  - by apply stored_rotate.
  - by apply threads_rotate.
  - by apply no_flights_pending, (no_imm_grounded db).
  - destruct Hc as [?|[[m E] _]]; [by left|congruence].
Qed.

Lemma live_fly acked issued n G db ts s t :
  live_db acked issued n G db ts s -> threads_ok db (ts ++ [t]) -> pending G db s t -> gD G = [] ->
  live_db acked issued n G db (ts ++ [t]) s.
Proof.
  intros [Hd Hl Hs Ht Hp Hc] Ht' Hpt HD. split; try done; [|by left].
  apply Forall_app. split; [done|by apply Forall_singleton].
Qed.

Lemma live_take acked issued n G db ts1 t ts2 s :
  live_db acked issued n G db (ts1 ++ t :: ts2) s ->
  live_db acked issued n G db (ts1 ++ ts2) s /\ thread_ok db t /\ pending G db s t /\
  (is_flight t = true -> count is_flight (ts1 ++ ts2) = 0%nat /\ is_Some (immMem db) /\ gD G = []) /\
  (is_loop t = true -> flushDoneCh db = true /\ count is_loop (ts1 ++ ts2) = 0%nat /\
     count is_flight (ts1 ++ ts2) = 0%nat /\ gD G = []).
Proof.
  intros [Hd Hl Hs Ht Hp Hc]. destruct (threads_take _ _ _ _ Ht) as (Hok & Ht' & Hfl & Hlp).
  apply Forall_app in Hp as [Hp1 [Hpt Hp2]%Forall_cons].
  assert (is_flight t = true \/ is_loop t = true -> gD G = []) as HD.
  { intros Hor. destruct Hc as [?|(_ & Hf & Hlo)]; [done|]. rewrite count_app, count_cons in Hf, Hlo.
    destruct Hor as [E|E]; rewrite E in *; lia. }
  split_and!; [|done|done| |].
  - split; try done; [by apply Forall_app|]. destruct Hc as [?|(Hi & Hf & Hlo)]; [by left|right].
    rewrite count_app, count_cons in Hf, Hlo. rewrite !count_app. split; [done|lia].
  - intros E. destruct (Hfl E). split_and!; auto.
  - intros E. destruct (Hlp E) as (? & ? & ?). split_and!; auto.
Qed.

(** The goroutine may be anywhere: [live_after w w' ...] says that the disk is
    untouched and the invariant holds again. *)
Definition live_after (acked issued : list batch) (n : Z) (ts : list (thread Mem)) (w w' : World) (db : DB) (nx : next Mem)
  : Prop :=
  w' = w /\ exists G, live_db acked issued n G db (ts ++ parked nx) (w_fs w).

Lemma live_free acked issued n G db ts s : live_db acked issued n G db ts s -> immMem db = None -> gD G = [].
Proof. intros [_ _ _ _ _ [?|[[m E] _]]] Ei; [done|congruence]. Qed.

Lemma live_auto_rotate acked issued n G slot db ts w db' nx w' :
  auto_rotate rand slot db w = Some ((db', nx), w') -> (slot = Some None -> immMem db = None) ->
  live_db acked issued n G db ts (w_fs w) -> live_after acked issued n ts w w' db' nx.
Proof using memtable_laws.
  intros H Hs Hl. pose proof (stored_view _ _ _ _ _ (lv_stored _ _ _ _ _ _ _ Hl)) as Hv.
  pose proof (so_threads _ _ _ _ _ (seg_auto_rotate rand _ _ _ _ _ _ _ _ H Hs Hv (lv_threads _ _ _ _ _ _ _ Hl))) as Ht.
  unfold auto_rotate in H. destruct slot as [[e|]|]; apply io_ret_inv in H as [[= -> ->] ->]; split; try done.
  - exists G. by apply live_stay.
  - exists (with_mems (geff G) (gLm G) [] G). apply live_stay; [|done|done]. apply live_rotate; auto.
  - exists G. apply live_stay; [done|done|]. by intros t [= <-].
Qed.

Lemma live_flush_wait acked issued n G slot db ts w db' nx w' :
  flush_wait rand slot db w = Some ((db', nx), w') -> (slot = Some None -> immMem db = None) ->
  live_db acked issued n G db ts (w_fs w) -> live_after acked issued n ts w w' db' nx.
Proof using memtable_laws.
  intros H Hs Hl. pose proof (stored_view _ _ _ _ _ (lv_stored _ _ _ _ _ _ _ Hl)) as Hv.
  pose proof (so_threads _ _ _ _ _ (seg_flush_wait rand _ _ _ _ _ _ _ _ H Hs Hv (lv_threads _ _ _ _ _ _ _ Hl))) as Ht.
  unfold flush_wait, flush_rotate in H. destruct slot as [[e|]|].
  - apply io_ret_inv in H as [[= -> ->] ->]. split; [done|]. exists G. by apply live_stay.
  - specialize (Hs eq_refl). pose proof (live_rotate _ _ _ _ _ _ _ Hs Hl) as Hr.
    pose proof (live_free _ _ _ _ _ _ _ Hl Hs) as HD. destruct (flushDoneCh db).
    + apply io_ret_inv in H as [[= -> ->] ->]. split; [done|]. eexists. apply live_stay; [exact Hr|done|]. by intros t [= <-].
    + io_step H as imm w1 E. apply io_pure_inv in E as [_ ->]. apply io_ret_inv in H as [[= -> ->] ->].
      split; [done|]. eexists. by apply live_fly; [exact Hr|..].
  - apply io_ret_inv in H as [[= -> ->] ->]. split; [done|]. exists G. apply live_stay; [done|done|]. by intros t [= <-].
Qed.

Lemma live_flush_bg acked issued n G db ts w db' nx w' :
  flush_bg_wake db w = Some ((db', nx), w') -> live_db acked issued n G db ts (w_fs w) ->
  live_after acked issued n ts w w' db' nx.
Proof.
  intros H Hl. pose proof (stored_view _ _ _ _ _ (lv_stored _ _ _ _ _ _ _ Hl)) as Hv.
  pose proof (so_threads _ _ _ _ _ (seg_flush_bg _ _ _ _ _ _ _ H Hv (lv_threads _ _ _ _ _ _ _ Hl))) as Ht.
  assert (db' = db /\ w' = w /\ (nx = Park TFlushBg \/ exists e, nx = Return e)) as (-> & -> & Hn).
  { unfold flush_bg_wake in H. destruct (flushErr db); [apply io_ret_inv in H as [[= -> ->] ->]; eauto|].
    destruct (_ && _); [apply io_ret_inv in H as [[= -> ->] ->]; eauto|].
    destruct (closed db); apply io_ret_inv in H as [[= -> ->] ->]; eauto. }
  split; [done|]. exists G. apply live_stay; [done|done|]. intros t ->. by destruct Hn as [[= ->]|[e ?]].
Qed.

Lemma live_Flush acked issued n G db ts w db' nx w' :
  Flush rand db w = Some ((db', nx), w') -> live_db acked issued n G db ts (w_fs w) ->
  live_after acked issued n ts w w' db' nx.
Proof using memtable_laws.
  intros H Hl. unfold Flush in H.
  assert (forall e, live_after acked issued n ts w w db (Return e)) as Hret.
  { intros e. split; [done|]. exists G. cbn. by rewrite app_nil_r. }
  destruct (closed db); [apply io_ret_inv in H as [[= -> ->] ->]; apply Hret|].
  destruct (flushErr db); [apply io_ret_inv in H as [[= -> ->] ->]; apply Hret|].
  io_step H as m w1 E. apply io_pure_inv in E as [_ ->].
  destruct (mem_empty m); [apply io_ret_inv in H as [[= -> ->] ->]; apply Hret|].
  eapply live_flush_wait; [exact H|apply flush_slot_free|done].
Qed.

(** None of these segments panics, as long as there is a memtable. *)
Lemma auto_rotate_runs slot (db : DB) w : exists r, auto_rotate rand slot db w = Some (r, w).
Proof. destruct slot as [[e|]|]; by eexists. Qed.

Lemma flush_wait_runs slot (db : DB) w : is_Some (mem db) -> exists r, flush_wait rand slot db w = Some (r, w).
Proof.
  intros [m Em]. destruct slot as [[e|]|]; [by eexists| |by eexists].
  unfold flush_wait, flush_rotate. destruct (flushDoneCh db); [by eexists|]. rewrite Em. by eexists.
Qed.

Lemma auto_flush_runs (db : DB) w : is_Some (mem db) -> exists r, maybeAutoFlushLocked rand db w = Some (r, w).
Proof.
  intros [m Em]. unfold maybeAutoFlushLocked. rewrite Em.
  unfold mbind, io_bind, pure. cbn. destruct (_ || _); [by eexists|]. apply auto_rotate_runs.
Qed.

Lemma flush_bg_runs (db : DB) w : exists r, flush_bg_wake db w = Some (r, w).
Proof.
  unfold flush_bg_wake. destruct (flushErr db); [by eexists|]. destruct (_ && _); [by eexists|].
  destruct (closed db); by eexists.
Qed.

Lemma Flush_runs (db : DB) w : is_Some (mem db) -> exists r, Flush rand db w = Some (r, w).
Proof.
  intros Hm. unfold Flush. destruct (closed db); [by eexists|]. destruct (flushErr db); [by eexists|].
  destruct Hm as [m Em]. rewrite Em. unfold mbind, io_bind, pure. cbn. destruct (mem_empty m); [by eexists|].
  apply flush_wait_runs. by eexists.
Qed.

Lemma loop_top_runs (db : DB) w : exists r, loop_top db w = Some (r, w).
Proof.
  unfold loop_top. destruct (immMem db) as [imm|]; destruct (closed db) eqn:Hc; try by eexists.
  destruct (mem_empty imm); [|by eexists]. cbn. rewrite Hc. by eexists.
Qed.

Lemma Close_runs (db : DB) w : exists r, Close db w = Some (r, w).
Proof. unfold Close. destruct (closed db); by eexists. Qed.

Lemma stored_mem acked issued n G db : stored acked issued n G db -> is_Some (mem db).
Proof. intros Hs. destruct (la_mem _ _ _ _ (st_layers _ _ _ _ _ Hs)) as (m & -> & _). by eexists. Qed.

Lemma live_db_mem acked issued n G db ts s : live_db acked issued n G db ts s -> is_Some (mem db).
Proof. intros Hl. eapply stored_mem, Hl. Qed.

(** The fields the invariant does not look at. *)
Lemma live_fields acked issued n G db db' ts s :
  seqno db' = seqno db -> mem db' = mem db -> immMem db' = immMem db -> ssts db' = ssts db ->
  nextSSTID db' = nextSSTID db -> syncOnWrite db' = syncOnWrite db -> manifest db' = manifest db ->
  wal db' = wal db -> wal_file db' = wal_file db -> threads_ok db' ts ->
  live_db acked issued n G db ts s -> live_db acked issued n G db' ts s.
Proof.
  intros Eq Em Ei Es En Ey Ef Ew Ewf Ht' [Hd Hl Hs Ht Hp Hc]. split; try done.
  - destruct Hl as (ww & H1 & H2 & H3). exists ww. by rewrite Ew, Ewf.
  - by eapply stored_same.
  - eapply Forall_impl; [exact Hp|]. intros t. destruct t; cbn; unfold nextSSTPath; by rewrite ?En.
  - unfold clean. by rewrite Ei.
Qed.

Lemma live_loop_top acked issued n G db ts w db' nx w' :
  loop_top db w = Some ((db', nx), w') -> live_db acked issued n G db ts (w_fs w) ->
  flushDoneCh db = true -> count is_loop ts = 0%nat -> count is_flight ts = 0%nat -> gD G = [] ->
  live_after acked issued n ts w w' db' nx.
Proof using memtable_laws.
  intros H Hl Hd Hl0 Hf0 HD. pose proof (stored_view _ _ _ _ _ (lv_stored _ _ _ _ _ _ _ Hl)) as Hv.
  pose proof (lv_threads _ _ _ _ _ _ _ Hl) as Ht0.
  pose proof (so_threads _ _ _ _ _ (seg_loop_top _ _ _ _ _ _ _ H Hv Ht0 Hd Hl0 Hf0)) as Ht.
  unfold loop_top in H. destruct (closed db) eqn:Hc.
  { assert (db' = loop_exit db /\ nx = Return None /\ w' = w) as (-> & -> & ->)
      by (by destruct (immMem db); apply io_ret_inv in H as [[= -> ->] ->]).
    split; [done|]. exists G. cbn [parked] in *. rewrite app_nil_r in *. by apply (live_fields _ _ _ _ db). }
  destruct (immMem db) as [imm|] eqn:Ei; [destruct (mem_empty imm) eqn:Hemp|].
  - cbn [immMem set_imm closed] in H. rewrite Hc in H. apply io_ret_inv in H as [[= -> ->] ->].
    split; [done|]. exists G. apply live_fly; [|done|done|done].
    destruct Hl as [Hdk Hlg Hst _ _ _]. split; [done|done| |eapply threads_grounded; [done|done|by left|done]
      |by apply no_flights_pending|by left].
    destruct Hst as [Hla Hm Hk Hz Hq Ha Hdu Hn Hy Hf].
    destruct (layered_drop_empty _ _ _ _ _ Hla Ei Hemp) as [E Hla']. split; try done. by rewrite E.
  - apply io_ret_inv in H as [[= -> ->] ->]. split; [done|]. exists G. by apply live_fly.
  - apply io_ret_inv in H as [[= -> ->] ->]. split; [done|]. exists G. by apply live_fly.
Qed.

Lemma threads_set_closed db ts ch : threads_ok db ts -> threads_ok (set_closed db) (ts ++ [TCloseWait ch]).
Proof.
  intros [Hl Hf He]. split; rewrite ?count_app, ?count_cons; cbn [is_loop is_flight];
    rewrite ?(eq_refl : count _ [] = 0%nat); cbn; try lia.
  apply Forall_app. split; [|by apply Forall_singleton]. eapply Forall_impl; [exact He|]. intros t. by destruct t.
Qed.

Lemma live_Close acked issued n G db ts w db' nx w' :
  Close db w = Some ((db', nx), w') -> live_db acked issued n G db ts (w_fs w) ->
  live_after acked issued n ts w w' db' nx.
Proof.
  intros H Hl. unfold Close in H. destruct (closed db) eqn:Hc.
  - apply io_ret_inv in H as [[= -> ->] ->]. split; [done|]. exists G. cbn. by rewrite app_nil_r.
  - apply io_ret_inv in H as [[= -> ->] ->]. split; [done|]. exists G. cbn [parked].
    pose proof (threads_set_closed db ts (flushDoneCh db) (lv_threads _ _ _ _ _ _ _ Hl)) as Ht.
    assert (threads_ok (set_closed db) ts) as Ht'.
    { destruct Ht as [Hl1 Hf1 He1]. rewrite count_app in Hl1, Hf1. apply Forall_app in He1 as [He1 _].
      split; [lia|lia|done]. }
    apply live_stay with (nx := Park (TCloseWait (flushDoneCh db))); [by apply (live_fields _ _ _ _ db)|done|].
    by intros t [= <-].
Qed.

(** *** Write *)
Lemma live_mono acked issued issued' n G db ts s :
  issued `sublist_of` issued' -> 1 <= n -> live_db acked issued n G db ts s -> live_db acked issued' n G db ts s.
Proof.
  intros Hi Hn [[Hw Hj Hin Hpm Hpw Hfw] Hl [? ? ? Hz Hq ? ? ? ? ?] Ht Hp Hc]. pose proof (batches_bytes_sublist _ _ Hi) as Hb.
  split; try done.
  - split; try done. eapply installed_ghost; [done|]. eapply ghost_mono; [done|lia|apply Hin].
  - split; try done; nia.
Qed.

Lemma applyOperations_frame ops (db db' : DB) :
  applyOperations ops db = Ok db' ->
  ssts db' = ssts db /\ nextSSTID db' = nextSSTID db /\ syncOnWrite db' = syncOnWrite db /\
  manifest db' = manifest db /\ wal db' = wal db /\ wal_file db' = wal_file db.
Proof.
  revert db. induction ops as [|op ops IH]; intros db H; cbn [applyOperations] in H; [by injection H as <-|].
  simplify_res. by apply IH in H.
Qed.

(** Forgetting acknowledgements. *)
Lemma live_unacked acked acked' issued n G db ts s :
  acked `prefix_of` acked' -> live_db acked' issued n G db ts s -> live_db acked issued n G db ts s.
Proof.
  intros [k ->] [[Hw Hj Hin Hpm Hpw Hfw] Hl [? ? ? ? ? Ha ? ? ? ?] Ht Hp Hc].
  assert (acked `sublist_of` acked ++ k) as Hk by (by apply sublist_inserts_r).
  split; try done.
  - split; try done. eapply installed_ghost; [done|]. destruct (in_ghost _ _ _ _ _ _ _ _ _ Hin). split; try done. by etrans.
  - split; try done. by etrans.
Qed.

Lemma publish_outcome_channel r (db : DB) w db' err w' :
  publish_outcome r db w = Some ((db', err), w') -> flushDoneCh db' = flushDoneCh db.
Proof.
  unfold publish_outcome. intros H. destruct r as [x|e|]; [|by apply io_ret_inv in H as [[= -> ->] _]|done].
  io_step H as y w1 E. destruct y as [db1 err1].
  assert (flushDoneCh db1 = flushDoneCh db) as Hc.
  { unfold publishFlushedSSTLocked in E. io_step E as fault w2 E2.
    destruct fault; [by apply io_ret_inv in E as [[= -> ->] _]|].
    io_step E as enc w3 E3. io_step E as mw w4 E4. io_step E as aerr w5 E5.
    destruct aerr; [io_step E as u w6 E6|]; by apply io_ret_inv in E as [[= -> ->] _]. }
  by destruct err1; apply io_ret_inv in H as [[= -> ->] _].
Qed.

Section Writing.
Context (acked issued : list batch) (n : Z) (n_pos : 1 <= n) (in_range : n * batches_bytes issued < 2 ^ 31).
Local Abbreviation I := (safe acked issued n).

Lemma pending_log Wd W G db s f ts :
  stored acked issued n G db -> on_disk acked issued n G s ->
  Forall (pending G db s) ts -> Forall (pending (with_log f Wd W G) db (set_inode (giw G) f s)) ts.
Proof using n_pos in_range.
  intros Hs Hd. pose proof (next_id_u64 acked issued n n_pos in_range G db s Hs Hd) as Hu.
  assert (forall r : res sstWriteResult, outcome (nextSSTPath db) (gLi G) r s -> outcome (nextSSTPath db) (gLi G) r (set_inode (giw G) f s)) as Hw.
  { intros [x|e|]; [|done|done]. intros [Hn ? ? ? ?]. split; try done.
    apply named_set_inode; [|done]. eapply pin_unref; [apply Hd|]. apply tname_ne_wal. unfold is_u64. lia. }
  intros Hp. eapply Forall_impl; [exact Hp|]. intros t Hpt. destruct t; try done; exact (Hw _ Hpt).
Qed.

(** A call on the log. *)
Lemma live_set_log Wd W ww f G db ts s :
  live_db acked issued n G db ts s -> ghost_ok acked issued n (gT G) (gD G) Wd W -> geff G `sublist_of` Wd ->
  Wal.log_inv (Wal.mkLog ww f (Batch.batch_wire <$> W) (Batch.batch_wire <$> Wd)) ->
  live_db acked issued n (with_log f Wd W G) (set_wal (Some ww) db) ts (set_inode (giw G) f s).
Proof using n_pos in_range.
  intros [Hd Hl Hs Ht Hp Hc] Hg He Hi. split; try done.
  - eapply running_log; [exact Hd|done|by eapply log_file_ok].
  - destruct Hl as (ww0 & _ & Ewf & _). by exists ww.
  - apply (stored_same _ _ _ _ db); try done. destruct Hs. by split.
  - by apply threads_same with (db := db).
  - exact (pending_log Wd W G db s f ts Hs Hd Hp).
Qed.

Lemma live_ghost G db ts s :
  live_db acked issued n G db ts s -> ghost_ok acked issued n (gT G) (gD G) (gWd G) (gW G).
Proof using. intros [[_ _ [Hg _ _ _ _] _ _ _] _ _ _ _ _]. exact Hg. Qed.

Lemma triple_wal_Append ops G db ts :
  (exists before, issued = before ++ [ops] /\ gW G `sublist_of` before) -> batch_ok ops ->
  triple Faulty (live_db acked issued n G db ts) (wal_Append (Batch.batch_wire ops) db)
    (fun r s => let '(db', err) := r in exists f W, same_store db db' /\
       live_db acked issued n (with_log f (gWd G) W G) db' ts s /\ (err = None -> W = gW G ++ [ops])) I.
Proof using n_pos in_range.
  intros (before & Eis & Hsub) Hok. unfold wal_Append.
  eapply (triple_bind _ _ _ _ (fun ww s => live_db acked issued n G db ts s /\ wal db = Some ww)).
  { apply triple_pure_call. intros s Hl. destruct (lv_log _ _ _ _ _ _ _ Hl) as (ww & -> & _). by split. }
  intros ww. eapply (triple_bind _ _ _ _ (fun r s => exists f W,
    live_db acked issued n (with_log f (gWd G) W G) (set_wal (Some r.1) db) ts s /\ (r.2 = None -> W = gW G ++ [ops]))).
  { apply triple_on_file_res. intros s [Hl Ew]. destruct (lv_log _ _ _ _ _ _ _ Hl) as (ww0 & Ew0 & Ewf & Hinv).
    rewrite Ew in Ew0. injection Ew0 as <-. rewrite Ewf.
    exists (gfw G). split; [apply (ru_log _ _ _ _ _ _ _ _ _ _ _ _ (lv_disk _ _ _ _ _ _ _ Hl))|]. intros _.
    destruct (Wal.Append_total (Batch.batch_wire ops) ww (gfw G) (bo_wire _ Hok)) as [[[w' f'] err] Ea]. rewrite Ea. cbn [mbind result_bind].
    pose proof (Wal.log_inv_append _ _ _ _ _ Hinv (bo_wire _ Hok) Ea) as Hinv'.
    cbn [Wal.l_w Wal.l_appended Wal.l_durable] in Hinv'.
    set (W := if Wal.w_file ww && bool_decide (fits Wal.walRecordFormat (Batch.batch_wire ops)) then gW G ++ [ops] else gW G).
    assert (live_db acked issued n (with_log f' (gWd G) W G) (set_wal (Some w') db) ts (set_inode (giw G) f' s)) as Hl'.
    { apply live_set_log; [done| |apply Hl|].
      - destruct (live_ghost _ _ _ _ Hl) as [? ? Hwal Hfits ? ? Hissued ? ?]. unfold W.
        destruct (Wal.w_file ww && bool_decide _) eqn:Eb; [|by split].
        apply andb_true_iff in Eb as [_ Eb]. apply bool_decide_eq_true in Eb. split; try done.
        + by apply prefix_app_r.
        + apply Forall_app. split; [done|]. by apply Forall_singleton.
        + rewrite Eis. by apply sublist_app.
      - unfold W. destruct (Wal.w_file ww && bool_decide _); [by rewrite fmap_app|done]. }
    split; [|split; [by eapply live_safe|done]]. exists f', W. split; [done|]. cbn [snd]. intros ->.
    unfold W. unfold Wal.Append in Ea. rewrite Wal.EncodeRecord_fits in Ea by apply Hok.
    case_decide as Hfits; [|done]. rewrite bool_decide_true by done.
    destruct (Wal.w_file ww); [done|]. cbn [negb] in Ea. congruence. }
  intros [w' err]. apply triple_ret. intros s (f & W & Hl & He). exists f, W. split; [by split|]. by split.
Qed.

Lemma triple_wal_Sync G db ts :
  triple Faulty (live_db acked issued n G db ts) (syncWALLocked db)
    (fun r s => let '(db', err) := r in same_store db db' /\ exists f,
       live_db acked issued n (with_log f (if decide (err = None) then gW G else gWd G) (gW G) G) db' ts s) I.
Proof using n_pos in_range.
  assert (forall db' e s, live_db acked issued n G db' ts s ->
    exists f, live_db acked issued n (with_log f (if decide (Some (e : error) = None) then gW G else gWd G) (gW G) G) db' ts s)
    as Hkeep by (intros db' e s Hl; rewrite decide_False by done; exists (gfw G); by destruct G).
  unfold syncWALLocked. destruct (negb (syncOnWrite db)) eqn:Ey.
  { apply triple_false. intros s Hl. pose proof (st_sync _ _ _ _ _ (lv_stored _ _ _ _ _ _ _ Hl)) as E. by rewrite E in Ey. }
  eapply triple_bind; [apply triple_MaybeFault|]. intros [e|]; cbv iota.
  { apply triple_ret. intros s [Hl _]. split; [done|]. by apply Hkeep. }
  eapply (triple_bind _ _ _ _ (fun r s => same_store db r.1 /\ exists f,
       live_db acked issued n (with_log f (if decide (r.2 = None) then gW G else gWd G) (gW G) G) r.1 ts s)).
  { unfold wal_Sync. eapply (triple_bind _ _ _ _ (fun ww s => live_db acked issued n G db ts s /\ wal db = Some ww)).
    { apply triple_pure_call. intros s [Hl _]. destruct (lv_log _ _ _ _ _ _ _ Hl) as (ww & -> & _). by split. }
    intros ww. eapply (triple_bind _ _ _ _ (fun r s => exists f,
      live_db acked issued n (with_log f (if decide (r.2 = None) then gW G else gWd G) (gW G) G) (set_wal (Some r.1) db) ts s)).
    { apply triple_on_file. intros s [Hl Ew]. destruct (lv_log _ _ _ _ _ _ _ Hl) as (ww0 & Ew0 & Ewf & Hinv).
      rewrite Ew in Ew0. injection Ew0 as <-. rewrite Ewf.
      exists (gfw G). split; [apply (ru_log _ _ _ _ _ _ _ _ _ _ _ _ (lv_disk _ _ _ _ _ _ _ Hl))|]. intros _.
      destruct (Wal.Sync ww (gfw G)) as [[w' f'] err] eqn:Es. pose proof (Wal.log_inv_sync _ _ _ _ Hinv Es) as Hinv'.
      cbn [Wal.l_appended Wal.l_durable] in Hinv'.
      assert (live_db acked issued n (with_log f' (if decide (err = None) then gW G else gWd G) (gW G) G) (set_wal (Some w') db) ts
        (set_inode (giw G) f' s)) as Hl'.
      { pose proof (live_ghost _ _ _ _ Hl) as Hg. pose proof (st_durable _ _ _ _ _ (lv_stored _ _ _ _ _ _ _ Hl)) as He.
        assert (gWd G `sublist_of` gW G) as Hsub
          by (destruct (g_wal _ _ _ _ _ _ _ Hg) as [k ->]; by apply sublist_inserts_r).
        apply live_set_log; [done| | |].
        - destruct Hg as [? ? ? ? Hk Ha ? ? ?]. destruct (decide (err = None)); [|by split]. split; try done; [|by etrans].
          eapply Forall_impl; [exact Hk|]. intros en Hin. by eapply keys_of_sublist.
        - destruct (decide (err = None)); [by etrans|done].
        - by destruct (decide (err = None)). }
      split; [by exists f'|]. split; [by eapply live_safe|done]. }
    intros [w' err]. apply triple_ret. intros s Hl. split; [by split|done]. }
  intros [db' err]. apply triple_ret. intros s [Hs [f Hl]]. split; [done|]. exists f. cbn [fst snd] in Hl. by destruct err.
Qed.

(** Applying a batch that is durable. *)
Lemma live_apply ops G db db' ts s :
  live_db acked issued n G db ts s -> batch_ok ops -> (exists W, gWd G = W ++ [ops] /\ geff G `sublist_of` W) ->
  applyOperations ops db = Ok db' ->
  live_db (acked ++ [ops]) issued n (with_mems (geff G ++ [ops]) (gLi G) (gLm G ++ number (seqno db) ops) G) db' ts s.
Proof using n_pos in_range memtable_laws.
  intros Hl Hok (W & EWd & Hsub) Happ. pose proof (live_ghost _ _ _ _ Hl) as Hg.
  destruct Hl as [Hd Hlg Hs Ht Hp Hc]. destruct (applyOperations_frame _ _ _ Happ) as (Es & En & Ey & Ef & Ew & Ewf).
  assert (geff G ++ [ops] `sublist_of` gWd G) as Hsub' by (rewrite EWd; by apply sublist_app).
  assert (batches_bytes (geff G ++ [ops]) <= batches_bytes issued) as Hb.
  { apply batches_bytes_sublist. etrans; [exact Hsub'|]. etrans; [|apply Hg].
    destruct (g_wal _ _ _ _ _ _ _ Hg) as [k ->]. by apply sublist_inserts_r. }
  pose proof (batches_bytes_one ops (seqno db)) as Hone. pose proof (log_bytes_count (number (seqno db) ops)) as Hcnt.
  rewrite zlen_number in Hcnt. rewrite batches_bytes_app in Hb. pose proof (zlen_nonneg ops) as Hz0.
  destruct Hs as [Hla Hm Hk Hz Hq Ha Hdu Hn Hy Hf].
  destruct (layered_apply ops db db' _ _ _ Happ Hla) as (Hla' & Eq & Ec & Ei & Ed); [by apply batch_ok_types|nia|].
  split; try done.
  - destruct Hd as [? ? Hin ? ? ?]. split; try done. eapply installed_ghost; [exact Hin|].
    destruct Hg as [? ? ? ? ? ? ? ? ?]. split; try done. etrans; [|exact Hsub']. by apply sublist_app.
  - destruct Hlg as (ww & H1 & H2 & H3). exists ww. by rewrite Ew, Ewf.
  - split; cbn [with_mems gT geff gLi gLm gWd gid gim]; try done; try congruence.
    + by rewrite !app_assoc, log_map_number, <-app_assoc, Hm, batches_map_snoc by (by apply batch_ok_types).
    + rewrite app_assoc. apply Forall_app. split; [|by apply number_keys].
      eapply Forall_impl; [exact Hk|]. intros e [He ?]. split; [|done]. rewrite keys_of_app. apply elem_of_app. by left.
    + rewrite !app_assoc, SstReader.log_bytes_app, <-app_assoc, batches_bytes_app. lia.
    + rewrite Eq, batches_bytes_app. lia.
    + by apply sublist_app.
  - by apply threads_same with (db := db).
  - eapply Forall_impl; [exact Hp|]. intros t. destruct t; cbn; unfold nextSSTPath; by rewrite ?En.
  - unfold clean. by rewrite Ei.
Qed.

Lemma triple_auto_flush acked' G db ts :
  triple Faulty (live_db acked' issued n G db ts) (maybeAutoFlushLocked rand db)
    (fun r s => exists G', live_db acked' issued n G' r.1 (ts ++ parked r.2) s) I.
Proof using memtable_laws.
  apply triple_still; [intros w Hl; by eapply auto_flush_runs, live_db_mem|].
  intros w [db' nx] w' Hl H. unfold maybeAutoFlushLocked in H. io_step H as m w1 E.
  apply io_pure_inv in E as [_ ->].
  assert (live_after acked' issued n ts w w' db' nx) as [-> HG]; [|done].
  destruct (_ || _).
  - apply io_ret_inv in H as [[= -> ->] ->]. split; [done|]. exists G. cbn. by rewrite app_nil_r.
  - eapply live_auto_rotate; [exact H|apply flush_slot_free|done].
Qed.

Lemma triple_Write ctx_err b before G db ts :
  issued = before ++ batch_of (CWrite ctx_err b) -> gW G `sublist_of` before ->
  Forall batch_ok (batch_of (CWrite ctx_err b)) ->
  triple Faulty (live_db acked issued n G db ts) (Write rand ctx_err b db)
    (fun r s => exists G', live_db (acked ++ acks (CWrite ctx_err b) r.2) issued n G' r.1 (ts ++ parked r.2) s) I.
Proof using n_pos in_range memtable_laws.
  intros Eis Hsub Hok.
  assert (forall e G' db' s, live_db acked issued n G' db' ts s ->
    exists G'', live_db (acked ++ []) issued n G'' db' (ts ++ parked (Return (Some e))) s) as Herr.
  { intros e G' db' s Hl. exists G'. cbn. by rewrite !app_nil_r. }
  unfold Write. destruct (checkWritePreconditionsLocked ctx_err db) as [e|]; [by apply triple_ret; eauto|].
  destruct (match b with None => true | Some b => Batch.Empty b end) eqn:Hb.
  { apply triple_ret. intros s Hl. exists G. cbn [fst snd acks parked].
    rewrite (batch_of_empty ctx_err b) by done. by rewrite !app_nil_r. }
  eapply triple_pre with (P' := fun s => geff G `sublist_of` gW G /\ live_db acked issued n G db ts s).
  { intros s Hl. split; [|done]. etrans; [apply Hl|].
    destruct (g_wal _ _ _ _ _ _ _ (live_ghost _ _ _ _ Hl)) as [k ->]. by apply sublist_inserts_r. }
  apply triple_pure. intros Heff.
  rewrite (batch_of_nonempty ctx_err b Hb) in *. apply Forall_cons in Hok as [Hok _]. set (ops := Batch.snapshot b) in *.
  eapply (triple_bind _ _ _ _ (fun enc s => live_db acked issued n G db ts s /\ enc = Batch.batch_wire ops)).
  { apply triple_pure_call. intros s Hl. rewrite Batch.encodeOperations_wire; [done|]. apply (bo_wf _ Hok). }
  intros enc. eapply triple_pre; [|eapply (triple_pure _ _ (enc = Batch.batch_wire ops))]; [by intros s [H1 H2]|].
  intros ->. eapply triple_bind; [apply triple_wal_Append; [by exists before|done]|].
  intros [db1 [e|]].
  { apply triple_ret. intros s (f & W & _ & Hl & _). eapply Herr, Hl. }
  eapply triple_pre with (P' := fun s => exists f, live_db acked issued n (with_log f (gWd G) (gW G ++ [ops]) G) db1 ts s).
  { intros s (f & W & H1 & H2 & H3). exists f. by rewrite H3 in H2 by done. }
  apply triple_exists. intros f1.
  eapply triple_bind; [apply triple_wal_Sync|]. intros [db2 [e|]].
  { apply triple_ret. intros s [_ [f Hl]]. eapply Herr, Hl. }
  apply triple_pure. intros Hs2. rewrite decide_True by done. apply triple_exists. intros f2.
  eapply (triple_bind _ _ _ _ (fun db3 s => exists G', live_db (acked ++ [ops]) issued n G' db3 ts s)).
  { apply triple_pure_call. intros s Hl.
    destruct (la_mem _ _ _ _ (st_layers _ _ _ _ _ (lv_stored _ _ _ _ _ _ _ Hl))) as (m & Em & Hm & _).
    destruct (applyOperations_total ops db2 m Em Hm) as [db3 Ea]. rewrite Ea.
    eexists. eapply live_apply; [exact Hl|done| |done]. by exists (gW G). }
  intros db3. apply triple_exists. intros G'.
  eapply triple_post; [|apply (triple_auto_flush (acked ++ [ops]) G' db3 ts)].
  intros [db4 nx] s [G4 H4]. exists G4. cbn [fst snd] in *. unfold acks. rewrite (batch_of_nonempty ctx_err b Hb).
  destruct nx as [[e|]|t]; [|done|done]. rewrite app_nil_r. eapply live_unacked; [|exact H4]. by eexists.
Qed.

(** *** Flushing *)
Lemma live_imm G db ts s imm :
  live_db acked issued n G db ts s -> immMem db = Some imm ->
  mem_of imm (gLi G) /\ log_ordered (gLi G) /\ small (gLi G) /\ Forall (fun e => wf_key e.1) (gLi G).
Proof using n_pos in_range.
  intros Hl Ei. pose proof (stored_small acked issued n n_pos in_range _ _ _ (lv_stored _ _ _ _ _ _ _ Hl) (lv_disk _ _ _ _ _ _ _ Hl)) as Hsm.
  destruct (st_layers _ _ _ _ _ (lv_stored _ _ _ _ _ _ _ Hl)) as [_ Hi _ Ho _ Hk]. rewrite Ei in Hi.
  apply log_ordered_app in Ho as (_ & Ho & _). apply log_ordered_app in Ho as (Ho & _ & _).
  apply Forall_app in Hk as [_ Hk]. apply Forall_app in Hk as [Hk _]. split_and!; try done.
  by eapply (small_parts _ (t_log <$> gT G) (gLi G) (gLm G)).
Qed.

(** Everything but the disk. *)
Record live_mem (G : ghost) (db : DB) (ts : list (thread Mem)) : Prop := {
  lm_log : log_open G db;
  lm_stored : stored acked issued n G db;
  lm_threads : threads_ok db ts;
  lm_idle : count is_flight ts = 0%nat;
  lm_clean : clean G db ts
}.

Lemma live_split G db ts s :
  count is_flight ts = 0%nat -> live_db acked issued n G db ts s <-> live_mem G db ts /\ on_disk acked issued n G s.
Proof using.
  intros H0. split; [by intros []|]. intros [[] Hd]. split; try done. by apply no_flights_pending.
Qed.

Lemma triple_flight G db ts imm path bs :
  immMem db = Some imm -> path = nextSSTPath db -> gD G = [] -> count is_flight ts = 0%nat ->
  triple Faulty (live_db acked issued n G db ts) (writeSSTable path imm bs)
    (fun r s => live_db acked issued n G db ts s /\ outcome (nextSSTPath db) (gLi G) r s) I.
Proof using n_pos in_range memtable_laws good_device.
  intros Ei -> HD H0.
  eapply triple_pre with (P' := fun s => (live_mem G db ts /\ ~ relies_on (gid G) (gT G ++ gD G) (nextSSTPath db) /\
    mem_of imm (gLi G) /\ log_ordered (gLi G) /\ small (gLi G) /\ Forall (fun e => wf_key e.1) (gLi G)) /\
    on_disk acked issued n G s).
  { intros s Hl. apply live_split in Hl as Hl2; [|done]. destruct Hl2 as [Hm Hd]. split; [|done]. split; [done|].
    split; [apply (next_path_free acked issued n n_pos in_range _ _ s (lm_stored _ _ _ Hm) Hd HD)|by eapply live_imm]. }
  apply triple_pure. intros (Hm & Hfree & Hof & Ho & Hsm & Hk).
  eapply triple_post; [|by apply writeSSTable_disk]. cbn. intros r s [Hd Hw]. split; [by apply live_split|done].
Qed.

(** Listing a table in the MANIFEST. *)
Lemma triple_list_table G t :
  gD G = [] -> edit_fits (table_edit t) -> ghost_ok acked issued n (gT G) [t] (gWd G) (gW G) ->
  triple Faulty (fun s => on_disk acked issued n G s /\ named (t_name t) False (table_file t) s)
    (Manifest.Append (edit_wire (table_edit t)) (mkWriter (Some (gim G)) (mname (gid G))))
    (fun (err : option error) s => on_disk acked issued n
       (with_tables (if err then gT G else gT G ++ [t]) (if err then [t] else []) (if err then gLi G else []) G) s) I.
Proof using.
  intros HD Hfit Hg. unfold Manifest.Append. rewrite manifest_EncodeRecord by apply Hfit.
  set (rec := record_wire manifestRecordFormat (edit_wire (table_edit t))). cbn [m_file].
  assert (manifest_image (edits_of (gT G ++ [t])) = manifest_image (edits_of (gT G)) ++ rec) as Eimg.
  { rewrite edits_of_app, manifest_image_app. f_equal. unfold manifest_image, rec. cbn [fmap list_fmap]. by rewrite log_image_cons, app_nil_r. }
  clearbody rec.
  assert (ghost_ok acked issued n (gT G ++ [t]) [] (gWd G) (gW G)) as Hg'.
  { destruct Hg as [Ht _ Hw Hf Hk Ha Hi Hz [_ Hq]]. split; rewrite ?app_nil_r; [exact Ht|cbn; lia|exact Hw|exact Hf|exact Hk
      |exact Ha|exact Hi|exact Hz|split; exact Hq]. }
  eapply (triple_bind _ _ _ _ (fun r s => r = Ok rec /\ on_disk acked issued n G s /\ named (t_name t) False (table_file t) s)).
  { apply triple_call. intros s Hs. split; [reflexivity|exact Hs]. }
  intros r. apply triple_pure. intros ->.
  eapply (triple_bind _ _ _ _ (fun err s => on_disk acked issued n (with_tables (gT G) [t] (gLi G) G) s /\
    (err = None -> exists f, inodes s !! gim G = Some f /\ f_content f = manifest_image (edits_of (gT G ++ [t])) /\
       named (t_name t) False (table_file t) s))).
  { apply triple_on_file. intros s [Hd Hn].
    destruct (named_pin _ _ _ _ _ (ru_man _ _ _ _ _ _ _ _ _ _ _ _ Hd) (in_man _ _ _ _ _ _ _ _ _ (ru_in _ _ _ _ _ _ _ _ _ _ _ _ Hd)))
      as (f & Hf & Hmf). exists f. split; [done|]. intros _.
    destruct (file_Write rec f) as [[f' k] err] eqn:Ew. apply file_Write_spec in Ew as (Ec & Es & Ek & _).
    rewrite HD in Hmf. pose proof (manifest_exact _ _ Hmf) as Ex. destruct Hmf as [_ Hsy].
    assert (on_disk acked issued n (with_tables (gT G) [t] (gLi G) G) (set_inode (gim G) f' s)) as Hd'.
    { eapply running_manifest; [exact Hd|exact Hg| |].
      - cbn [gT gD with_tables]. split; [rewrite Eimg, Ec, Ex; apply prefix_app, prefix_take|]. rewrite Es, Ec, length_app. lia.
      - apply Forall_app. split; [|by apply Forall_singleton]. pose proof (in_tabs _ _ _ _ _ _ _ _ _ (ru_in _ _ _ _ _ _ _ _ _ _ _ _ Hd)) as Ht.
        by rewrite HD, app_nil_r in Ht. }
    split; [|split; [by eapply running_safe|done]]. split; [done|]. intros ->. exists f'. split; [apply lookup_set_inode|].
    split; [by rewrite Ec, Ex, (Ek eq_refl), firstn_all, Eimg|].
    pose proof (in_tabs _ _ _ _ _ _ _ _ _ (ru_in _ _ _ _ _ _ _ _ _ _ _ _ Hd')) as Ht. apply Forall_app in Ht as [_ Ht].
    cbn [gD with_tables] in Ht. apply Forall_cons in Ht as [Ht _]. exact Ht. }
  intros [e|]; [by apply triple_ret; intros s [? _]|].
  eapply (triple_bind _ _ _ _ (fun (err : option error) s => on_disk acked issued n
    (with_tables (if err then gT G else gT G ++ [t]) (if err then [t] else []) (if err then gLi G else []) G) s)).
  { apply triple_on_file. intros s [Hd Hx]. destruct (Hx eq_refl) as (f & Hf & Ec & Hn). exists f. split; [done|]. intros _.
    destruct (named_pin _ _ _ _ _ (ru_man _ _ _ _ _ _ _ _ _ _ _ _ Hd) (in_man _ _ _ _ _ _ _ _ _ (ru_in _ _ _ _ _ _ _ _ _ _ _ _ Hd)))
      as (f0 & Hf0 & Hmf). change (inodes s !! gim G = Some f0) in Hf0. rewrite Hf in Hf0. injection Hf0 as <-.
    destruct (file_Sync f) as [f' err] eqn:Esy. apply file_Sync_spec in Esy as (Ec' & Eok & Eno & _).
    pose proof (in_tabs _ _ _ _ _ _ _ _ _ (ru_in _ _ _ _ _ _ _ _ _ _ _ _ Hd)) as Ht.
    assert (on_disk acked issued n (with_tables (if err then gT G else gT G ++ [t]) (if err then [t] else [])
      (if err then gLi G else []) G) (set_inode (gim G) f' s)) as Hd'.
    { destruct err as [e|].
      - eapply running_manifest; [exact Hd|exact Hg| |done]. destruct Hmf as [Hc Hs].
        split; rewrite ?Ec'; [done|]. by rewrite Eno.
      - eapply running_manifest; [exact Hd|exact Hg'| |by rewrite app_nil_r].
        cbn [gT gD with_tables]. split; rewrite Ec', ?app_nil_r, Ec; [done|]. rewrite (Eok eq_refl), Ec. split; apply le_n. }
    split; [exact Hd'|]. split; [by eapply running_safe|done]. }
  intros [e|]; by apply triple_ret.
Qed.

Definition flushed (G : ghost) (db : DB) (x : sstWriteResult) : tbl :=
  mkTbl (mkFileMetadata 0 (nextSSTID db) (sr_size x) (sr_smallest x) (sr_largest x)) (gLi G) (seqno db).

Lemma flushed_ok G db ts imm x s :
  live_mem G db ts -> on_disk acked issued n G s -> gD G = [] -> immMem db = Some imm ->
  written (nextSSTPath db) (gLi G) x s ->
  edit_fits (table_edit (flushed G db x)) /\ ghost_ok acked issued n (gT G) [flushed G db x] (gWd G) (gW G).
Proof using n_pos in_range.
  intros Hm Hd HD Ei [_ _ Hsz (v1 & Hsm) (v2 & Hlg)]. pose proof (lm_stored _ _ _ Hm) as Hs.
  pose proof (next_id_u64 acked issued n n_pos in_range _ _ _ Hs Hd) as Hid.
  destruct (stored_bounds acked issued n n_pos in_range _ _ _ Hs Hd) as [Hbytes Hseq].
  pose proof (stored_small acked issued n n_pos in_range _ _ _ Hs Hd) as Hsmall.
  destruct Hd as [_ _ [Hg _ _ _ _] _ _ _]. destruct Hs as [[_ _ _ Ho [H0 Hq] Hk] _ Hkeys _ _ _ Hdu Hn _ _].
  change (mjoin (t_log <$> gT G)) with (logs_of (gT G)) in Ho, Hq, Hk.
  assert (forall k v, (k, v) ∈ gLi G -> wf_edit_key k) as Hwk.
  { intros k v Hin. apply Forall_app in Hk as [_ Hk]. apply Forall_app in Hk as [Hk _]. apply Forall_app in Hkeys as [Hkeys _].
    rewrite Forall_forall in Hk, Hkeys. split; [exact (Hk _ Hin)|]. destruct (Hkeys _ Hin) as [_ Hfit].
    unfold key_fits, zlen in *. rewrite length_key_wire. cbn in Hfit. lia. }
  assert (edit_fits (table_edit (flushed G db x))) as Hfit.
  { apply table_edit_fits; cbn; try done; [unfold is_u64, t_id; cbn; lia|unfold is_u64; lia|by eapply Hwk|by eapply Hwk]. }
  split; [exact Hfit|].
  destruct Hg as [Ht _ Hwal Hf Hk' Ha Hi Hz [Hq' _]]. rewrite HD, app_nil_r in *.
  apply log_ordered_app in Ho as Ho'. destruct Ho' as (HoT & HoIM & _). apply log_ordered_app in HoIM as (HoI & _ & _).
  rewrite !app_assoc in Ho, Hq, Hk, Hbytes. apply log_ordered_app in Ho as (Ho & _). apply Forall_app in Hq as [Hq _].
  rewrite SstReader.log_bytes_app in Hbytes. pose proof (SstReader.log_bytes_nonneg (gLm G)) as Hnn.
  split; try done; cbn [length]; try lia.
  - apply tables_ok_snoc; try done. split_and!; try done.
    + unfold small in *. rewrite !SstReader.log_bytes_app in Hsmall.
      pose proof (SstReader.log_bytes_nonneg (logs_of (gT G))). cbn [t_log flushed]. lia.
    + apply Forall_app in Hk as [Hk _]. by apply Forall_app in Hk as [_ Hk].
    + cbn [t_log flushed]. intros E. rewrite E in Hsm. by apply not_elem_of_nil in Hsm.
  - rewrite logs_of_snoc. apply Forall_app. split; [done|]. apply Forall_app in Hkeys as [Hkeys _].
    eapply Forall_impl; [exact Hkeys|]. intros e [He _]. by eapply keys_of_sublist.
  - rewrite logs_of_snoc. cbn [t_log flushed]. lia.
  - split; [done|]. unfold seq_of. rewrite last_snoc. cbn. lia.
Qed.

Lemma on_disk_blind G : fault_blind (on_disk acked issued n G).
Proof using. apply running_blind. Qed.

(** A failed publication leaves the flush error behind, and perhaps a torn record. *)
Lemma live_publish_failed G G' db ts s e :
  live_mem G db ts -> count is_loop ts = 0%nat -> is_Some (immMem db) -> on_disk acked issued n G' s ->
  G' = G \/ (exists t, G' = with_tables (gT G) [t] (gLi G) G) ->
  live_db acked issued n G' (set_flushErr (Some e) db) ts s.
Proof using.
  intros [Hl Hs Ht H0 Hc] Hlp Hi Hd HG. apply live_split; [done|]. split; [|done].
  assert (stored acked issued n G (set_flushErr (Some e) db)) as Hs' by (by apply (stored_same _ _ _ _ db)).
  assert (threads_ok (set_flushErr (Some e) db) ts) as Ht' by (by apply (threads_same db)).
  destruct HG as [->|(t & ->)]; split; try done; [|by right]. by destruct Hs'; split.
Qed.

Lemma live_published G db db' ts s imm x :
  live_mem G db ts -> immMem db = Some imm -> represents (sr_reader x) (insert_all (gLi G) []) -> gD G = [] ->
  immMem db' = None -> ssts db' = ssts db ++ [sr_reader x] -> mem db' = mem db -> seqno db' = seqno db ->
  nextSSTID db' = u64 (nextSSTID db + 1) -> syncOnWrite db' = syncOnWrite db -> manifest db' = manifest db ->
  wal db' = wal db -> wal_file db' = wal_file db -> flushDoneCh db' = flushDoneCh db -> closed db' = closed db ->
  on_disk acked issued n (with_tables (gT G ++ [flushed G db x]) [] [] G) s -> 0 <= nextSSTID db < 2 ^ 31 ->
  live_db acked issued n (with_tables (gT G ++ [flushed G db x]) [] [] G) db' ts s.
Proof using.
  intros [(ww & Ew & Ewf & Hinv) Hs Ht H0 Hc] Ei Hrd HD Ei' Ess' Em' Eq' En' Ey' Ef' Ew' Ewf' Ed' Ec' Hd Hid.
  apply live_split; [done|]. split; [|done]. split; try done.
  - exists ww. by rewrite Ew', Ewf'.
  - destruct Hs as [Hla Hm Hk Hz Hq Ha Hdu Hn Hy Hf]. split; cbn [with_tables gT gLi gLm geff gWd gid gim];
      rewrite ?Eq', ?Ey', ?Ef'; try done.
    + rewrite fmap_app. cbn. eapply layered_publish; [exact Hla|exact Ei| |done..].
      pose proof (la_imm _ _ _ _ Hla) as Hi. rewrite Ei in Hi. destruct Hi as [_ Hent]. by rewrite Hent.
    + rewrite logs_of_snoc. cbn. by rewrite <-app_assoc.
    + cbn. by apply Forall_app in Hk as [_ Hk].
    + rewrite logs_of_snoc. cbn. by rewrite <-app_assoc.
    + rewrite En', u64_id, Hn, length_app by (unfold is_u64; lia). cbn. lia.
  - eapply threads_grounded; [exact Ht|done|by left|done].
  - by left.
Qed.

Lemma triple_publish G db ts r imm :
  immMem db = Some imm -> gD G = [] -> count is_flight ts = 0%nat -> count is_loop ts = 0%nat ->
  triple Faulty (fun s => live_db acked issued n G db ts s /\ outcome (nextSSTPath db) (gLi G) r s)
    (publish_outcome r db)
    (fun y s => exists G', live_db acked issued n G' y.1 ts s /\ (y.2 = None -> gD G' = [])) I.
Proof using n_pos in_range.
  intros Ei HD H0 Hlp.
  assert (forall e G' s, live_mem G db ts -> on_disk acked issued n G' s ->
    G' = G \/ (exists t, G' = with_tables (gT G) [t] (gLi G) G) ->
    exists G'', live_db acked issued n G'' (set_flushErr (Some e) db) ts s /\ (Some e = None -> gD G'' = [])) as Hfail.
  { intros e G' s Hm Hd HG. exists G'. split; [|done]. by eapply live_publish_failed. }
  unfold publish_outcome. destruct r as [x|e|]; [| |by apply triple_false; intros s []]; cycle 1.
  { apply triple_ret. intros s [Hl _]. apply live_split in Hl as [Hm Hd]; [|done]. apply (Hfail _ G); auto. }
  eapply (triple_bind _ _ _ _ (fun y s => exists G', match y.2 with
    | None => live_db acked issued n G' y.1 ts s /\ gD G' = []
    | Some _ => y.1 = db /\ live_mem G db ts /\ on_disk acked issued n G' s /\
        (G' = G \/ (exists t, G' = with_tables (gT G) [t] (gLi G) G))
    end)); cycle 1.
  { intros [db1 [e|]]; apply triple_ret; intros s [G' H]; cbn in H |- *.
    - destruct H as (-> & Hm & Hd & HG). by eapply Hfail.
    - exists G'. by destruct H. }
  unfold publishFlushedSSTLocked. eapply triple_bind; [apply triple_MaybeFault|]. intros [e|]; cbv iota.
  { apply triple_ret. intros s [[Hl _] _]. apply live_split in Hl as [Hm Hd]; [|done].
    exists G. cbn. split_and!; auto. }
  eapply triple_pre with (P' := fun s => (live_mem G db ts /\ 0 <= nextSSTID db < 2 ^ 31 /\
    (edit_fits (table_edit (flushed G db x)) /\ ghost_ok acked issued n (gT G) [flushed G db x] (gWd G) (gW G)) /\
    represents (sr_reader x) (insert_all (gLi G) [])) /\
    on_disk acked issued n G s /\ named (t_name (flushed G db x)) False (table_file (flushed G db x)) s).
  { intros s [[Hl Hx] _]. apply live_split in Hl as [Hm Hd]; [|done].
    pose proof (next_id_u64 acked issued n n_pos in_range _ _ _ (lm_stored _ _ _ Hm) Hd) as Hid.
    pose proof (flushed_ok _ _ _ _ _ _ Hm Hd HD Ei Hx) as [Hf Hg].
    exact (conj (conj Hm (conj Hid (conj (conj Hf Hg) (wt_reader _ _ _ _ Hx)))) (conj Hd (wt_file _ _ _ _ Hx))). }
  apply triple_pure. intros (Hm & Hid & [Hfit Hg] & Hrd).
  change (flush_edit x db) with (table_edit (flushed G db x)). cbv zeta.
  eapply (triple_bind _ _ _ _ (fun enc s => enc = edit_wire (table_edit (flushed G db x)) /\
    on_disk acked issued n G s /\ named (t_name (flushed G db x)) False (table_file (flushed G db x)) s)).
  { apply triple_pure_call. rewrite Encode_edit_wire. intros s Hs. split; [reflexivity|exact Hs]. }
  intros enc. apply triple_pure. intros ->.
  eapply (triple_bind _ _ _ _ (fun mw s => mw = mkWriter (Some (gim G)) (mname (gid G)) /\
    on_disk acked issued n G s /\ named (t_name (flushed G db x)) False (table_file (flushed G db x)) s)).
  { apply triple_pure_call. rewrite (st_manifest _ _ _ _ _ (lm_stored _ _ _ Hm)). intros s Hs. split; [reflexivity|exact Hs]. }
  intros mw. apply triple_pure. intros ->.
  eapply triple_bind; [apply triple_list_table; [exact HD|exact Hfit|exact Hg]|].
  intros [e|].
  - eapply triple_bind; [apply triple_close_table; [apply on_disk_blind|intros s; apply running_safe]|].
    intros u. apply triple_ret. intros s Hd. eexists. split; [reflexivity|]. split; [exact Hm|]. split; [exact Hd|].
    right. by eexists.
  - apply triple_ret. intros s Hd. eexists. cbn [fst snd]. split; [|shelve].
    eapply live_published; try reflexivity; [exact Hm|exact Ei|exact Hrd|exact HD|exact Hd|exact Hid].
    Unshelve. reflexivity.
Qed.

(** *** The flushing goroutines *)
Lemma live_publish_park G db ts s t r :
  live_db acked issued n G db ts s -> outcome (nextSSTPath db) (gLi G) r s ->
  t = TFlushPublish r \/ t = TLoopPublish r -> threads_ok db (ts ++ [t]) -> gD G = [] ->
  live_db acked issued n G db (ts ++ [t]) s.
Proof using. intros Hl Hw Ht Htk HD. apply live_fly; try done. by destruct Ht as [->| ->]. Qed.

Lemma live_reader G db ts s imm (r : res sstWriteResult) :
  live_db acked issued n G db ts s -> immMem db = Some imm ->
  outcome (nextSSTPath db) (gLi G) r s ->
  exists imm, immMem db = Some imm /\ forall x, r = Ok x -> represents (sr_reader x) (entries imm).
Proof using n_pos in_range.
  intros Hl Ei Hw. exists imm. split; [done|]. intros x ->. destruct (live_imm _ _ _ _ _ Hl Ei) as [[_ Hent] _].
  rewrite Hent. apply Hw.
Qed.

Lemma triple_resume_flight G db ts1 t ts2 imm path :
  t = TFlushIO imm path \/ t = TLoopIO imm path ->
  triple Faulty (live_db acked issued n G db (ts1 ++ t :: ts2)) (resume rand t db)
    (fun r s => exists G', live_db acked issued n G' r.1 (ts1 ++ ts2 ++ parked r.2) s) I.
Proof using n_pos in_range memtable_laws good_device.
  intros Ht.
  eapply triple_pre with (P' := fun s => (thread_ok db t /\ immMem db = Some imm /\ path = nextSSTPath db /\
    threads_ok db (ts1 ++ ts2) /\ count is_flight (ts1 ++ ts2) = 0%nat /\ gD G = [] /\
    (is_loop t = true -> flushDoneCh db = true /\ count is_loop (ts1 ++ ts2) = 0%nat)) /\
    live_db acked issued n G db (ts1 ++ ts2) s).
  { intros s Hl. apply live_take in Hl as (Hl & Hok & Hp & Hfl & Hlp). split; [|exact Hl].
    assert (is_flight t = true) as Ef by (by destruct Ht as [->| ->]). destruct (Hfl Ef) as (H0 & _ & HD).
    split; [done|]. split; [by destruct Ht as [->| ->]; [destruct Hok|]|].
    split; [by destruct Ht as [->| ->]|]. split; [apply Hl|]. split; [done|]. split; [done|].
    intros El. destruct (Hlp El) as (? & ? & _). by split. }
  apply triple_pure. intros (Hok & Ei & Ep & Htk & H0 & HD & Hlp).
  destruct Ht as [->| ->]; cbn [resume];
    (eapply triple_bind; [by apply (triple_flight G db (ts1 ++ ts2) imm)|]); intros r; apply triple_ret;
    intros s [Hl Hw]; exists G; cbn [fst snd parked]; rewrite app_assoc;
    pose proof (live_reader _ _ _ _ _ _ Hl Ei Hw) as Hrd.
  - eapply live_publish_park; [exact Hl|exact Hw|by left| |exact HD].
    apply threads_park; [exact Htk|split; [apply Hok|exact Hrd]|done|split; [by eexists|done]].
  - eapply live_publish_park; [exact Hl|exact Hw|by right| |exact HD].
    apply threads_park; [exact Htk|exact Hrd|exact Hlp|split; [by eexists|done]].
Qed.

Lemma triple_resume_publish G db ts1 t ts2 r :
  t = TFlushPublish r \/ t = TLoopPublish r ->
  triple Faulty (live_db acked issued n G db (ts1 ++ t :: ts2)) (resume rand t db)
    (fun r s => exists G', live_db acked issued n G' r.1 (ts1 ++ ts2 ++ parked r.2) s) I.
Proof using n_pos in_range memtable_laws.
  intros Ht.
  eapply triple_pre with (P' := fun s => ((exists imm, immMem db = Some imm) /\ count is_flight (ts1 ++ ts2) = 0%nat /\
    count is_loop (ts1 ++ ts2) = 0%nat /\ gD G = [] /\ (is_loop t = true -> flushDoneCh db = true)) /\
    live_db acked issued n G db (ts1 ++ ts2) s /\ outcome (nextSSTPath db) (gLi G) r s).
  { intros s Hl. apply live_take in Hl as (Hl & Hok & Hp & Hfl & Hlp).
    assert (is_flight t = true) as Ef by (by destruct Ht as [->| ->]). destruct (Hfl Ef) as (H0 & [imm Ei] & HD).
    split; [|split; [exact Hl|by destruct Ht as [->| ->]]]. split; [by exists imm|]. split; [done|].
    split; [|split; [done|intros El; apply (Hlp El)]].
    destruct Ht as [->| ->]; [|by apply Hlp]. destruct Hok as [Ed _].
    pose proof (tk_loops _ _ (lv_threads _ _ _ _ _ _ _ Hl)) as Hlo. rewrite Ed in Hlo. lia. }
  apply triple_pure. intros ([imm Ei] & H0 & Hlo & HD & Hch).
  assert (triple Faulty (fun s => live_db acked issued n G db (ts1 ++ ts2) s /\
      outcome (nextSSTPath db) (gLi G) r s) (publish_outcome r db)
    (fun y s => flushDoneCh y.1 = flushDoneCh db /\ exists G', live_db acked issued n G' y.1 (ts1 ++ ts2) s /\
      (y.2 = None -> gD G' = [])) I) as Hpub.
  { intros w Hc HP HI. pose proof (triple_publish G db (ts1 ++ ts2) r imm Ei HD H0 Hlo w Hc HP HI) as H.
    destruct (publish_outcome r db w) as [[[db1 err] w']|] eqn:E; [|done]. destruct H as (? & ? & ?).
    split; [done|]. split; [|done]. split; [by eapply publish_outcome_channel|done]. }
  destruct Ht as [->| ->]; cbn [resume]; unfold flush_publish, loop_publish;
    (eapply triple_bind; [exact Hpub|]); intros [db1 err]; cbn [fst snd].
  - apply triple_ret. intros s (_ & G' & Hl & _). exists G'. cbn. by rewrite app_nil_r.
  - apply triple_pure. intros Ed. rewrite Hch in Ed by done. apply triple_exists. intros G'. destruct err as [e|].
    + apply triple_ret. intros s [Hl _]. exists G'. cbn [fst snd parked]. rewrite app_nil_r.
      apply (live_fields _ _ _ _ db1); try done. eapply threads_grounded; [apply Hl|done|by right|done].
    + apply triple_still; [intros w _; apply loop_top_runs|]. intros w [db2 nx] w' [Hl HD'] H.
      destruct (live_loop_top _ _ _ _ _ _ _ _ _ _ H Hl Ed Hlo H0 (HD' eq_refl)) as [-> HG]. split; [done|].
      by rewrite <-app_assoc in HG.
Qed.

(** *** After Close

    The WAL and MANIFEST writers are gone; a flush whose I/O is still running may
    leave a table nobody refers to. *)
Definition doomed (G : ghost) (t : thread Mem) : Prop :=
  match t with
  | TFlushIO imm path | TLoopIO imm path =>
      ~ relies_on (gid G) (gT G ++ gD G) path /\
      exists l, mem_of imm l /\ log_ordered l /\ small l /\ Forall (fun e => wf_key e.1) l
  | TFlushPublish r | TLoopPublish r => r <> Panic
  | _ => True
  end.

Record dead (G : ghost) (db : DB) (ts : list (thread Mem)) (s : Fs) : Prop := {
  de_closed : closed db = true;
  de_ssts : ssts db = [];
  de_wal : wal db = None;
  de_manifest : manifest db = None;
  de_threads : Forall (doomed G) ts;
  de_disk : on_disk acked issued n G s
}.

Lemma live_doomed G db ts s : live_db acked issued n G db ts s -> Forall (doomed G) ts.
Proof using n_pos in_range.
  intros Hl. destruct (lv_clean _ _ _ _ _ _ _ Hl) as [HD|(_ & H0 & _)]; cycle 1.
  { apply count_zero in H0. eapply Forall_impl; [exact H0|]. intros t Ht. by destruct t. }
  pose proof (next_path_free acked issued n n_pos in_range _ _ _ (lv_stored _ _ _ _ _ _ _ Hl) (lv_disk _ _ _ _ _ _ _ Hl) HD) as Hfree.
  pose proof (tk_each _ _ (lv_threads _ _ _ _ _ _ _ Hl)) as Hok. pose proof (lv_pending _ _ _ _ _ _ _ Hl) as Hp.
  rewrite Forall_forall in Hok, Hp |- *. intros t Ht. specialize (Hok t Ht). specialize (Hp t Ht).
  destruct t as [| | |imm path|r| |imm path|r|ch]; try done; cbn in Hok, Hp |- *; subst.
  - split; [exact Hfree|]. exists (gLi G). eapply live_imm; [exact Hl|apply Hok].
  - by intros ->.
  - split; [exact Hfree|]. exists (gLi G). eapply live_imm; [exact Hl|exact Hok].
  - by intros ->.
Qed.

Lemma triple_close_readers (P : Fs -> Prop) rs err :
  fault_blind P -> (forall s, P s -> I s) -> triple Faulty P (close_readers rs err) (fun _ => P) I.
Proof using.
  intros Hb HI. revert err. induction rs as [|r rs IH]; intros err; [by apply triple_ret|]. cbn [close_readers].
  eapply (triple_bind _ _ _ _ (fun _ => P)); [destruct (SstReader.file r); [by apply triple_close_table|by apply triple_ret]|].
  intros ce. destruct (SstReader.CloseReader ce (Some r)) as [e ?]. apply IH.
Qed.

Lemma triple_close_wal G db :
  log_open G db ->
  triple Faulty (on_disk acked issued n G) (close_wal db)
    (fun _ s => exists f Wd W, on_disk acked issued n (with_log f Wd W G) s) I.
Proof using.
  intros (ww & Ew & Ewf & Hinv). unfold close_wal. rewrite Ew, Ewf. apply triple_on_file. intros s Hd.
  exists (gfw G). split; [apply (ru_log _ _ _ _ _ _ _ _ _ _ _ _ Hd)|]. intros _.
  destruct (Wal.Close ww (gfw G)) as [[w' f'] err] eqn:Ec. pose proof (Wal.log_inv_close _ _ _ _ Hinv Ec) as Hinv'.
  cbn [Wal.l_appended Wal.l_durable] in Hinv'.
  assert (on_disk acked issued n (with_log f' (gWd G) (gW G) G) (set_inode (giw G) f' s)) as Hd'.
  { eapply running_log; [exact Hd|apply Hd|]. destruct Hinv' as [_ _ Hc _ _ Hy Hz]. split; [exact Hc|].
    split; [|exact Hz]. cbn [Wal.l_f Wal.l_durable] in Hy. etrans; [|exact Hy].
    destruct (decide (err = None)); [|done]. destruct Hinv as [_ _ _ _ Hpre _ _]. cbn in Hpre.
    apply Wal.image_prefix in Hpre. by apply prefix_length in Hpre. }
  split; [|split; [by eapply running_safe|done]]. by eexists _, _, _.
Qed.

Lemma triple_close_manifest G :
  triple Faulty (on_disk acked issued n G) (Manifest.Close (Some (mkWriter (Some (gim G)) (mname (gid G)))))
    (fun _ => on_disk acked issued n G) I.
Proof using.
  assert (forall g : File -> File * option error, (forall f, f_content (g f).1 = f_content f /\
      (f_synced f <= length (f_content f) -> f_synced f <= f_synced (g f).1 <= length (f_content f))%nat) ->
    triple Faulty (on_disk acked issued n G) (on_file (gim G) (fun f => let '(f, err) := g f in (err, f)))
      (fun _ => on_disk acked issued n G) I) as Hcall.
  { intros g Hg. apply triple_on_file. intros s Hd.
    destruct (named_pin _ _ _ _ _ (ru_man _ _ _ _ _ _ _ _ _ _ _ _ Hd) (in_man _ _ _ _ _ _ _ _ _ (ru_in _ _ _ _ _ _ _ _ _ _ _ _ Hd)))
      as (f & Hf & Hmf). exists f. split; [done|]. intros _. destruct (Hg f) as [Hc Hs].
    destruct (g f) as [f' err]. cbn in Hc, Hs.
    assert (on_disk acked issued n G (set_inode (gim G) f' s)) as Hd'.
    { eapply running_manifest; [exact Hd|apply Hd| |apply Hd]. destruct Hmf as [Hm1 Hm2]. split; rewrite Hc; [done|lia]. }
    split; [done|]. split; [by eapply running_safe|done]. }
  unfold Manifest.Close. cbn [m_file]. eapply triple_bind; [apply (Hcall file_Sync)|].
  { intros f. destruct (file_Sync f) as [f' err] eqn:E. apply file_Sync_spec in E as (Hc & Hs & Hn & _). cbn.
    split; [done|]. destruct err; [rewrite Hn by done|rewrite Hs by done]; lia. }
  intros e1. eapply triple_bind; [apply (Hcall file_Close)|].
  { intros f. destruct (file_Close f) as [f' err] eqn:E. apply file_Close_spec in E as (Hc & Hs & _). cbn.
    rewrite Hs. split; [done|lia]. }
  intros e2. by apply triple_ret.
Qed.

Lemma triple_close_finish G db ts :
  closed db = true ->
  triple Faulty (live_db acked issued n G db ts) (close_finish db)
    (fun r s => exists G', dead G' r.1 (ts ++ parked r.2) s) I.
Proof using n_pos in_range.
  intros Hcl. eapply triple_pre with (P' := fun s => (Forall (doomed G) ts /\ log_open G db /\
    manifest db = Some (mkWriter (Some (gim G)) (mname (gid G)))) /\ on_disk acked issued n G s).
  { intros s Hl. split; [|apply Hl]. split; [by eapply live_doomed|]. split; [apply Hl|apply (lv_stored _ _ _ _ _ _ _ Hl)]. }
  apply triple_pure. intros (Hdm & Hlog & Em). unfold close_finish.
  eapply triple_bind; [apply triple_close_readers; [apply on_disk_blind|intros s; apply running_safe]|]. intros e1.
  eapply triple_bind; [by apply triple_close_wal|]. intros e2. cbv zeta.
  apply triple_exists. intros f. apply triple_exists. intros Wd. apply triple_exists. intros W.
  rewrite Em. eapply (triple_bind _ _ _ _ (fun _ => on_disk acked issued n (with_log f Wd W G))).
  { eapply triple_bind; [apply (triple_close_manifest (with_log f Wd W G))|]. intros [err mw]. by apply triple_ret. }
  intros e3. apply triple_ret. intros s Hd. exists (with_log f Wd W G). cbn [fst snd parked]. rewrite app_nil_r.
  by split.
Qed.

Lemma dead_fields G db db' ts s :
  closed db' = closed db -> ssts db' = ssts db -> wal db' = wal db -> manifest db' = manifest db ->
  dead G db ts s -> dead G db' ts s.
Proof using. intros Ec Es Ew Em []. split; congruence || done. Qed.

Lemma dead_park G db ts s nx :
  dead G db ts s -> (forall t, nx = Park t -> doomed G t) -> dead G db (ts ++ parked nx) s.
Proof using.
  intros [] Hn. split; try done. apply Forall_app. split; [done|]. destruct nx; [constructor|].
  apply Forall_singleton. by apply Hn.
Qed.

Lemma dead_take G db ts1 t ts2 s : dead G db (ts1 ++ t :: ts2) s -> doomed G t /\ dead G db (ts1 ++ ts2) s.
Proof using.
  intros [? ? ? ? Ht ?]. apply Forall_app in Ht as [? [? ?]%Forall_cons]. split; [done|].
  split; try done. by apply Forall_app.
Qed.

(** The goroutines about to publish a table that was written. *)
Definition finished (t : thread Mem) : bool :=
  match t with TFlushPublish (Ok _) | TLoopPublish (Ok _) => true | _ => false end.

(** Publishing a failed flush after [Close] records the error; publishing a table
    fails, or dereferences the nil writer. *)
Lemma dead_publish_error G db ts e :
  triple Faulty (dead G db ts) (publish_outcome (throw e) db) (fun y s => dead G y.1 ts s /\ exists e, y.2 = Some e) I.
Proof using. apply triple_ret. intros s Hd. split; [by apply (dead_fields G db)|by eexists]. Qed.

Lemma dead_publish_table G db ts x :
  triple Loose (dead G db ts) (publish_outcome (Ok x) db)
    (fun y s => dead G y.1 ts s /\ exists e, y.2 = Some e) I.
Proof using.
  unfold publish_outcome.
  eapply (triple_bind _ _ _ _ (fun y s => dead G db ts s /\ y.1 = db /\ exists e, y.2 = Some e)).
  - unfold publishFlushedSSTLocked. eapply triple_bind; [apply triple_MaybeFault|]. intros [e|]; cbv iota.
    { apply triple_ret. intros s [Hd _]. split; [exact Hd|]. split; [done|by eexists]. }
    eapply (triple_bind _ _ _ _ (fun _ => dead G db ts)).
    { apply triple_pure_call. rewrite Encode_edit_wire. by intros s [Hd _]. }
    intros enc. eapply (triple_bind _ _ _ _ (fun _ _ => False)).
    { apply triple_pure_call. intros s Hd. by rewrite (de_manifest _ _ _ _ Hd). }
    intros mw. apply triple_false. by intros s [].
  - intros [db1 [e|]]; [|apply triple_false; by intros s (_ & _ & e & ?)].
    apply triple_ret. cbn. intros s (Hd & -> & _). split; [by apply (dead_fields G db)|by exists e].
Qed.

Lemma dead_return G db ts1 ts2 e s : dead G db (ts1 ++ ts2) s -> dead G db (ts1 ++ ts2 ++ parked (Return e)) s.
Proof using. by rewrite app_nil_r. Qed.

(** The segments that publish, given what publishing does. *)
Lemma dead_resume_publish md G db ts1 ts2 r :
  triple md (dead G db (ts1 ++ ts2)) (publish_outcome r db) (fun y s => dead G y.1 (ts1 ++ ts2) s /\ exists e, y.2 = Some e) I ->
  triple md (dead G db (ts1 ++ ts2)) (flush_publish r db) (fun r s => dead G r.1 (ts1 ++ ts2 ++ parked r.2) s) I /\
  triple md (dead G db (ts1 ++ ts2)) (loop_publish r db) (fun r s => dead G r.1 (ts1 ++ ts2 ++ parked r.2) s) I.
Proof using.
  intros Hp. split; (eapply triple_bind; [exact Hp|]); intros [db1 err].
  - apply triple_ret. intros s [Hd _]. by apply dead_return.
  - destruct err as [e|]; [|apply triple_false; by intros s (_ & e & ?)].
    apply triple_ret. intros s [Hd _]. apply dead_return. by apply (dead_fields G db1).
Qed.

Lemma dead_close_finish G db ts1 ts2 :
  triple Faulty (dead G db (ts1 ++ ts2)) (close_finish db) (fun r s => dead G r.1 (ts1 ++ ts2 ++ parked r.2) s) I.
Proof using.
  eapply triple_pre with (P' := fun s => (ssts db = [] /\ wal db = None /\ manifest db = None) /\ dead G db (ts1 ++ ts2) s).
  { intros s Hd. split; [|exact Hd]. by destruct Hd. }
  apply triple_pure. intros (Es & Ew & Em). unfold close_finish, close_wal. rewrite Es, Ew, Em.
  eapply (triple_bind _ _ _ _ (fun _ => dead G db (ts1 ++ ts2))); [by apply triple_ret|]. intros e1.
  eapply (triple_bind _ _ _ _ (fun _ => dead G db (ts1 ++ ts2))); [by apply triple_ret|]. intros e2. cbv zeta.
  eapply (triple_bind _ _ _ _ (fun _ => dead G db (ts1 ++ ts2))); [by apply triple_ret|]. intros e3.
  apply triple_ret. intros s [? ? ? ? ? ?]. apply dead_return. by split.
Qed.

Lemma dead_flight G db ts1 t ts2 imm path (t' : res sstWriteResult -> thread Mem) :
  t = TFlushIO imm path \/ t = TLoopIO imm path -> doomed G t -> (forall r, r <> Panic -> doomed G (t' r)) ->
  triple Faulty (dead G db (ts1 ++ ts2)) (r ← writeSSTable path imm (sstBlockSize db); mret (db, Park (t' r)))
    (fun r s => dead G r.1 (ts1 ++ ts2 ++ parked r.2) s) I.
Proof using memtable_laws good_device.
  intros Ht Hdm Ht'. assert (~ relies_on (gid G) (gT G ++ gD G) path /\
    exists l, mem_of imm l /\ log_ordered l /\ small l /\ Forall (fun e => wf_key e.1) l) as (Hfree & l & Hm & Ho & Hs & Hk)
    by (by destruct Ht as [->| ->]).
  eapply triple_pre with (P' := fun s => (closed db = true /\ ssts db = [] /\ wal db = None /\ manifest db = None /\
    Forall (doomed G) (ts1 ++ ts2)) /\ on_disk acked issued n G s).
  { intros s [? ? ? ? ? ?]. by split_and!. }
  apply triple_pure. intros (Hc & Ess & Ew & Em & Hts).
  eapply triple_bind; [eapply writeSSTable_disk; [exact Hfree|exact Hm|exact Ho|exact Hs|exact Hk]|]. intros r.
  apply triple_ret. intros s [Hd Ho']. cbn [fst snd]. rewrite app_assoc.
  apply dead_park; [by split|]. intros t0 [= <-]. apply Ht'. by intros ->.
Qed.

(** No goroutine panics on a closed database, but one that publishes a table. *)
Lemma dead_resume G db ts1 t ts2 :
  finished t = false ->
  triple Faulty (dead G db (ts1 ++ t :: ts2)) (resume rand t db)
    (fun r s => dead G r.1 (ts1 ++ ts2 ++ parked r.2) s) I.
Proof using memtable_laws good_device.
  intros Hfin. eapply triple_pre with (P' := fun s => (closed db = true /\ doomed G t) /\ dead G db (ts1 ++ ts2) s).
  { intros s Hd. apply dead_take in Hd as [Hdm Hd]. split; [split; [apply Hd|done]|exact Hd]. }
  apply triple_pure. intros [Hc Hdm].
  destruct t as [| | |imm path|r| |imm path|r|ch]; cbn [resume].
  - unfold write_wake, flush_slot_wake. rewrite Hc. apply triple_ret. intros s. apply dead_return.
  - unfold flush_wake, flush_slot_wake. rewrite Hc. apply triple_ret. intros s. apply dead_return.
  - unfold flush_bg_wake. destruct (flushErr db); [apply triple_ret; intros s; apply dead_return|].
    rewrite Hc, andb_false_r. apply triple_ret. intros s. apply dead_return.
  - by apply (dead_flight G db ts1 (TFlushIO imm path) ts2 imm path TFlushPublish); [left| |].
  - destruct r as [x|e|]; [done| |by destruct Hdm]. apply dead_resume_publish, dead_publish_error.
  - unfold loop_top. rewrite Hc. destruct (immMem db); apply triple_ret; intros s Hd; apply dead_return; by apply (dead_fields G db).
  - by apply (dead_flight G db ts1 (TLoopIO imm path) ts2 imm path TLoopPublish); [right| |].
  - destruct r as [x|e|]; [done| |by destruct Hdm]. apply dead_resume_publish, dead_publish_error.
  - apply dead_close_finish.
Qed.

Lemma dead_resume_any G db ts1 t ts2 :
  triple Loose (dead G db (ts1 ++ t :: ts2)) (resume rand t db)
    (fun r s => dead G r.1 (ts1 ++ ts2 ++ parked r.2) s) I.
Proof using memtable_laws good_device.
  destruct (finished t) eqn:Hf; [|by apply triple_faulty, dead_resume].
  eapply triple_pre; [intros s Hd; exact (proj2 (dead_take _ _ _ _ _ _ Hd))|].
  destruct t as [| | | |[x| |]| | |[x| |]|]; try done; cbn [resume]; apply dead_resume_publish, dead_publish_table.
Qed.

(** *** Any segment *)
Lemma live_resume G db ts1 t ts2 :
  triple Faulty (live_db acked issued n G db (ts1 ++ t :: ts2)) (resume rand t db)
    (fun r s => (exists G', live_db acked issued n G' r.1 (ts1 ++ ts2 ++ parked r.2) s) \/
                (exists G', dead G' r.1 (ts1 ++ ts2 ++ parked r.2) s)) I.
Proof using n_pos in_range memtable_laws good_device.
  assert (forall m : io (DB * next Mem), (forall w db' nx w', live_db acked issued n G db (ts1 ++ t :: ts2) (w_fs w) ->
      m w = Some ((db', nx), w') -> live_after acked issued n (ts1 ++ ts2) w w' db' nx) ->
    (forall w, is_Some (mem db) -> exists r, m w = Some (r, w)) ->
    triple Faulty (live_db acked issued n G db (ts1 ++ t :: ts2)) m
      (fun r s => (exists G', live_db acked issued n G' r.1 (ts1 ++ ts2 ++ parked r.2) s) \/
                  (exists G', dead G' r.1 (ts1 ++ ts2 ++ parked r.2) s)) I) as Hstill.
  { intros m Hm Hrun. apply triple_still; [intros w Hl; by eapply Hrun, live_db_mem|].
    intros w [db' nx] w' Hl H. destruct (Hm w db' nx w' Hl H) as [-> HG].
    rewrite <-app_assoc in HG. split; [done|by left]. }
  destruct t as [| | |imm path|r| |imm path|r|ch]; cbn [resume].
  - apply Hstill; [|intros w _; apply auto_rotate_runs]. intros w db' nx w' Hl H. apply live_take in Hl as (Hl & _).
    eapply live_auto_rotate; [exact H|apply flush_slot_wake_free|exact Hl].
  - apply Hstill; [|intros w; apply flush_wait_runs]. intros w db' nx w' Hl H. apply live_take in Hl as (Hl & _).
    eapply live_flush_wait; [exact H|apply flush_slot_wake_free|exact Hl].
  - apply Hstill; [|intros w _; apply flush_bg_runs]. intros w db' nx w' Hl H.
    apply live_take in Hl as (Hl & _). eapply live_flush_bg; [exact H|exact Hl].
  - eapply triple_post; [|apply (triple_resume_flight G db ts1 (TFlushIO imm path) ts2 imm path); by left].
    intros r s Hr. by left.
  - eapply triple_post; [|apply (triple_resume_publish G db ts1 (TFlushPublish r) ts2 r); by left].
    intros r' s Hr. by left.
  - apply Hstill; [|intros w _; apply loop_top_runs]. intros w db' nx w' Hl H.
    apply live_take in Hl as (Hl & _ & _ & _ & Hlp).
    destruct (Hlp eq_refl) as (Hd & H1 & H2 & HD). eapply live_loop_top; [exact H|exact Hl|done..].
  - eapply triple_post; [|apply (triple_resume_flight G db ts1 (TLoopIO imm path) ts2 imm path); by right].
    intros r s Hr. by left.
  - eapply triple_post; [|apply (triple_resume_publish G db ts1 (TLoopPublish r) ts2 r); by right].
    intros r' s Hr. by left.
  - eapply triple_pre with (P' := fun s => closed db = true /\ live_db acked issued n G db (ts1 ++ ts2) s).
    { intros s Hl. apply live_take in Hl as (Hl & Hok & _). split; [exact Hok|exact Hl]. }
    apply triple_pure. intros Hc. eapply triple_post; [|by apply triple_close_finish].
    cbn. intros r s Hr. rewrite app_assoc. by right.
Qed.

Definition up (db : DB) (ts : list (thread Mem)) (s : Fs) : Prop :=
  (exists G, live_db acked issued n G db ts s) \/ (exists G, dead G db ts s).

Lemma up_safe db ts s : up db ts s -> I s.
Proof using. intros [[G Hl]|[G []]]; [by eapply live_safe|by eapply running_safe]. Qed.

Lemma triple_or {A} md (P1 P2 : Fs -> Prop) (m : io A) Q :
  triple md P1 m Q I -> triple md P2 m Q I -> triple md (fun s => P1 s \/ P2 s) m Q I.
Proof using. intros H1 H2 w Hc [HP|HP] HI; [by apply H1|by apply H2]. Qed.

(** A parked goroutine goes on; only one that publishes a table when [Close] is
    through can panic. *)
Lemma up_resume db ts1 t ts2 :
  triple Loose (up db (ts1 ++ t :: ts2)) (resume rand t db) (fun r => up r.1 (ts1 ++ ts2 ++ parked r.2)) I.
Proof using n_pos in_range memtable_laws good_device.
  apply triple_or; apply triple_exists; intros G; [by apply triple_faulty, live_resume|].
  eapply triple_post; [|apply dead_resume_any]. intros r s Hd. right. by exists G.
Qed.

Lemma resume_runs db ts1 t ts2 w :
  up db (ts1 ++ t :: ts2) (w_fs w) -> Forall I (w_trace w) -> resume rand t db w = None ->
  finished t = true /\ wal db = None.
Proof using n_pos in_range memtable_laws good_device.
  intros [[G Hl]|[G Hd]] HI E.
  - pose proof (live_resume G db ts1 t ts2 w ltac:(done) Hl HI) as H. by rewrite E in H.
  - split; [|apply Hd]. destruct (finished t) eqn:Hf; [done|].
    pose proof (dead_resume G db ts1 t ts2 Hf w ltac:(done) Hd HI) as H. by rewrite E in H.
Qed.
End Writing.

Lemma dead_mono acked issued issued' n G db ts s :
  issued `sublist_of` issued' -> 0 <= n -> dead acked issued n G db ts s -> dead acked issued' n G db ts s.
Proof.
  intros Hi Hn [? ? ? ? ? [Hw Hj Hin Hpm Hpw Hfw]]. split; try done. split; try done.
  eapply installed_ghost; [done|]. eapply ghost_mono; [done|done|apply Hin].
Qed.

(** A call: the batch it hands to the log is issued with it. *)
Lemma up_start acked before issued n c db ts :
  1 <= n -> issued = before ++ batch_of c -> n * batches_bytes issued < 2 ^ 31 -> Forall batch_ok (batch_of c) ->
  triple Faulty (up acked before n db ts) (start rand c db)
    (fun r => up (acked ++ acks c r.2) issued n r.1 (ts ++ parked r.2)) (safe acked issued n).
Proof using memtable_laws.
  intros Hn Eis Hr Hok. assert (before `sublist_of` issued) as Hsub by (rewrite Eis; by apply sublist_inserts_r).
  apply triple_or; apply triple_exists; intros G.
  - destruct c as [ctx b| |]; cbn [start].
    + eapply triple_pre with (P' := fun s => gW G `sublist_of` before /\ live_db acked issued n G db ts s).
      { intros s Hl. split; [|by eapply live_mono]. by apply (g_issued _ _ _ _ _ _ _ (live_ghost _ _ _ _ _ _ _ Hl)). }
      apply triple_pure. intros HW. eapply triple_post; [|by eapply triple_Write]. intros r s HG. by left.
    + cbn in Eis. rewrite app_nil_r in Eis. subst before.
      apply triple_still; [intros w Hl; by eapply Flush_runs, live_db_mem|].
      intros w [db' nx] w' Hl H. destruct (live_Flush _ _ _ _ _ _ _ _ _ _ H Hl) as [-> HG].
      split; [done|]. replace (acks CFlush (db', nx).2) with (@nil batch) by (by destruct nx as [[?|]|?]).
      rewrite app_nil_r. by left.
    + cbn in Eis. rewrite app_nil_r in Eis. subst before.
      apply triple_still; [intros w _; apply Close_runs|]. intros w [db' nx] w' Hl H. destruct (live_Close _ _ _ _ _ _ _ _ _ _ H Hl) as [-> HG].
      split; [done|]. replace (acks CClose (db', nx).2) with (@nil batch) by (by destruct nx as [[?|]|?]).
      rewrite app_nil_r. by left.
  - eapply triple_pre with (P' := fun s => closed db = true /\ dead acked before n G db ts s).
    { intros s Hd. split; [apply Hd|exact Hd]. }
    apply triple_pure. intros Hc.
    assert (exists e, start rand c db = mret (db, Return (Some e))) as [e ->].
    { destruct c as [ctx b| |]; cbn [start]; unfold Write, checkWritePreconditionsLocked, Flush, Close; rewrite Hc; by eexists. }
    apply triple_ret. intros s Hd. right. exists G. cbn. rewrite !app_nil_r. eapply dead_mono; [exact Hsub|lia|done].
Qed.

(** Reads see the batches applied. *)
Lemma up_Get acked issued n db ts s :
  up acked issued n db ts s -> closed db = false ->
  exists eff, acked `sublist_of` eff /\ eff `sublist_of` issued /\
    forall key, Get None key db = get_result (batches_map eff !! key).
Proof using memtable_laws.
  intros [[G Hl]|[G Hd]] Hc; [|by rewrite (de_closed _ _ _ _ _ _ _ Hd) in Hc].
  pose proof (lv_stored _ _ _ _ _ _ _ Hl) as Hs. exists (geff G). split; [apply Hs|]. split.
  - pose proof (live_ghost _ _ _ _ _ _ _ Hl) as Hg. etrans; [apply Hs|]. etrans; [|apply Hg].
    destruct (g_wal _ _ _ _ _ _ _ Hg) as [k ->]. by apply sublist_inserts_r.
  - intros key. rewrite (Get_view _ _ key (stored_view _ _ _ _ _ Hs) Hc). by rewrite (st_map _ _ _ _ _ Hs).
Qed.
End Live.
