(* ===== verification/Recovery.v ===== *)
(** * Opening a database (engine/db.go: Open, openManifest, replayWAL)

    Bootstrapping a fresh directory, and recovering the state of an existing one
    from CURRENT, the MANIFEST, the SSTables and the WAL. *)
From Stdlib Require Import QArith_base.
From S2P Require Import Prelude.
From S2P Require Import Errors.
From S2P Require Import Keys.
From S2P Require Import GoIO.
From S2P Require Import GoSort.
From S2P Require Import RecordIO.
From S2P Require Import Fs.
From S2P Require Wal.
From S2P Require Batch.
From S2P Require Import Memtable.
From S2P Require SstReader.
From S2P Require Import Edit.
From S2P Require Import Version.
From S2P Require Import Current.
From S2P Require Manifest.
From S2P Require Replay.
From S2P Require Import FileNames.
From S2P Require Import Engine.

Local Open Scope Z_scope.

(** ** Options (engine/options.go) *)
Record options := mkOptions { o_syncOnWrite : bool; o_memtableFlushSize : Z; o_sstBlockSize : Z }.

Definition Option : Type := options -> options.
Definition WithSync (sync : bool) : Option := fun o => mkOptions sync (o_memtableFlushSize o) (o_sstBlockSize o).
Definition WithMemtableFlushSize (size : Z) : Option := fun o => mkOptions (o_syncOnWrite o) size (o_sstBlockSize o).
Definition WithSSTBlockSize (size : Z) : Option := fun o => mkOptions (o_syncOnWrite o) (o_memtableFlushSize o) size.

Definition applyOptions (opts : list Option) : options :=
  foldl (fun cfg opt => opt cfg) (mkOptions true 0 0) opts.

Section Recovery.
Context {Mem : Type} `{!Memtable Mem} {slices : Slices} `{!Device} (rand : nat -> nat -> Q).
Local Abbreviation DB := (DB Mem).

Definition set_manifest (v : Version) (w : Manifest.Writer) (rs : list SstReader.Reader) (id s l : Z) (db : DB) : DB :=
  mkDB (syncOnWrite db) (memtableFlushSize db) (sstBlockSize db) (closed db) s l
    (mem db) (immMem db) rs (wal db) (wal_file db) (Some w) v id
    (flushDoneCh db) (flushErr db) (mems db).

(** ** The MANIFEST *)
Definition initial_edit : VersionEdit := mkVersionEdit [] [] true 1 true 0 true 0.

Definition bootstrapFreshManifest (db : DB) : io (DB * option error) :=
  manifestID ← nextAvailableManifestID;
  match manifestID with
  | Panic => panic
  | Err err => mret (db, Some err)
  | Ok manifestID =>
  let name := buildManifestFileName manifestID in
  manifestWriter ← Manifest.NewWriter name;
  match manifestWriter with
  | Panic => panic
  | Err err => mret (db, Some (Errorf "beachdb: creating initial manifest" err))
  | Ok manifestWriter =>
  encoded ← pure (Edit.Encode initial_edit);
  err ← Manifest.Append encoded manifestWriter;
  match err with
  | Some err =>
      _ ← Manifest.Close (Some manifestWriter); _ ← os_Remove name;
      mret (db, Some (Errorf "beachdb: writing initial manifest edit" err))
  | None =>
  let version := Apply (NewVersion 0) initial_edit in
  err ← WriteCurrent name;
  match err with
  | Some err =>
      _ ← Manifest.Close (Some manifestWriter); _ ← os_Remove name;
      mret (db, Some (Errorf "beachdb: installing CURRENT" err))
  | None => mret (set_manifest version manifestWriter (ssts db) 1 0 (logno db) db, None)
  end end end end.

(** The files of the version, opened in order; the readers opened so far are
    dropped on an error. *)
Fixpoint openSSTReadersForVersion (fms : list FileMetadata) (readers : list SstReader.Reader)
  : io (res (list SstReader.Reader)) :=
  match fms with
  | [] => mret (Ok readers)
  | fm :: fms =>
      rf ← open_table (buildSSTFileName (FileID fm));
      match rf with
      | Panic => panic
      | Err err => mret (throw (Errorf "beachdb: opening SSTable referenced by manifest" err))
      | Ok rf =>
      reader ← call (SstReader.OpenReader (Some rf));
      match reader with
      | Panic => panic
      | Err err => _ ← close_table; mret (throw (Errorf "beachdb: reading SSTable" err))
      | Ok reader => openSSTReadersForVersion fms (readers ++ [reader])
      end end
  end.

(** The loop over the directory's entries; a failed removal is ignored. *)
Fixpoint remove_orphans (referenced : gset Z) (names : list bytes) : io unit :=
  match names with
  | [] => mret tt
  | name :: names =>
      let '(fileID, ok) := parseSSTFileName name in
      _ ← (if (ok : bool) && negb (bool_decide (fileID ∈ referenced)) then discard (os_Remove name) else mret tt);
      remove_orphans referenced names
  end.

Definition cleanupOrphanSSTables (version : Version) : io unit :=
  let referenced := list_to_set (FileID <$> AllFiles version) in
  entries ← os_ReadDir;
  match entries with
  | Panic => panic
  | Err _ => mret tt
  | Ok names => remove_orphans referenced names
  end.

Definition replayExistingManifest (current : bytes) (db : DB) : io (DB * option error) :=
  reader ← Manifest.NewReader current;
  match reader with
  | Panic => panic
  | Err err => mret (db, Some (Errorf "beachdb: opening manifest" err))
  | Ok reader =>
  let '(result, reader) := Replay.replayManifestStream reader in
  close_err ← close_table;
  let '(closeErr, _) := Manifest.CloseReader close_err (Some reader) in
  match result with
  | Panic => panic
  | Err replayErr => mret (db, Some replayErr)
  | Ok result =>
  match closeErr with
  | Some err => mret (db, Some (Errorf "beachdb: closing manifest reader" err))
  | None =>
  err ← (if Replay.tailTrimmed result then os_Truncate current (Replay.validOffset result) else mret None);
  match err with
  | Some err => mret (db, Some (Errorf "beachdb: truncating manifest tail" err))
  | None =>
  _ ← cleanupOrphanSSTables (Replay.version result);
  ssts ← openSSTReadersForVersion (AllFiles (Replay.version result)) [];
  match ssts with
  | Panic => panic
  | Err err => mret (db, Some err)
  | Ok ssts =>
  writer ← Manifest.NewWriter current;
  match writer with
  | Panic => panic
  | Err err => mret (db, Some (Errorf "beachdb: opening manifest writer" err))
  | Ok writer =>
      mret (set_manifest (Replay.version result) writer ssts (Replay.nextFileID result)
              (Replay.seqno result) (Replay.logNumber result) db, None)
  end end end end end end.

Definition openManifest (db : DB) : io (DB * option error) :=
  name ← ReadCurrent;
  match name with
  | Panic => panic
  | Err err =>
      if errors_Is err manifest.ErrNoCurrentFile then bootstrapFreshManifest db
      else mret (db, Some (Errorf "beachdb: reading CURRENT" err))
  | Ok name => replayExistingManifest name db
  end.

(** ** The WAL *)
Fixpoint replay_wal_loop (fuel : nat) (reader : Reader) (path : bytes) (db : DB) : io (DB * option error) :=
  match fuel with
  | O => panic
  | S fuel =>
      let '(payload, reader) := Wal.Next reader in
      match payload with
      | Panic => panic
      | Err err =>
          if errors_Is err io.EOF then mret (db, None)
          else if errors_Is err record.ErrTruncated then
            terr ← os_Truncate path (Wal.ValidOffset (Some reader));
            mret (db, Errorf "beachdb: truncating WAL tail during recovery" <$> terr)
          else mret (db, Some (Errorf "beachdb: WAL recovery failed" err))
      | Ok payload =>
          batch ← call (Batch.DecodeBatch payload);
          match batch with
          | Panic => panic
          | Err err => mret (db, Some (Errorf "beachdb: WAL recovery failed decoding batch" err))
          | Ok batch =>
              db ← pure (applyOperations (Batch.ops batch) db);
              replay_wal_loop fuel reader path db
          end
      end
  end.

Definition replayWAL (path : bytes) (db : DB) : io (DB * option error) :=
  r ← os_Stat path;
  match r with
  | Panic => panic
  | Err err =>
      if errors_Is err os_ErrNotExist then mret (db, None)
      else mret (db, Some (Errorf "beachdb: failed to open WAL for recovery" err))
  | Ok _ =>
  reader ← Wal.NewReader path;
  match reader with
  | Panic => panic
  | Err err => mret (db, Some (Errorf "beachdb: failed to open WAL for recovery" err))
  | Ok reader =>
  result ← replay_wal_loop (drain_fuel reader) reader path db;
  _ ← close_table;
  mret result
  end end.

(** ** Open

    [mkdir] is the outcome of [fs.MkdirAllAndSync]. *)
Definition new_db (cfg : options) : DB :=
  mkDB (o_syncOnWrite cfg) (o_memtableFlushSize cfg) (o_sstBlockSize cfg) false 0 0
    (Some (mem_new (rand 0))) None [] None 0 None (NewVersion 0) 0 false None 1.

(** [_ = db.Close()]: no goroutine is running yet. *)
Definition abandon (db : DB) : io unit := discard (close_finish (set_closed db)).

Definition set_wal_file (w : Wal.Writer) (i : nat) (db : DB) : DB :=
  mkDB (syncOnWrite db) (memtableFlushSize db) (sstBlockSize db) (closed db) (seqno db) (logno db)
    (mem db) (immMem db) (ssts db) (Some w) i (manifest db) (version db) (nextSSTID db)
    (flushDoneCh db) (flushErr db) (mems db).

(** The database, and the goroutines started with it. *)
Definition Open (opts : list Option) (mkdir : option error) : io (res (DB * list (thread Mem))) :=
  let cfg := applyOptions opts in
  match mkdir with
  | Some err => mret (throw err)
  | None =>
  if o_memtableFlushSize cfg <? 0 then mret (throw engine.ErrInvalidMemtableFlushSize)
  else if o_sstBlockSize cfg <? 0 then mret (throw engine.ErrInvalidSSTBlockSize)
  else
  '(db, err) ← openManifest (new_db cfg);
  match err with
  | Some err => mret (throw err)
  | None =>
  '(db, err) ← replayWAL walFileName db;
  match err with
  | Some err => _ ← abandon db; mret (throw err)
  | None =>
  walWriter ← Wal.NewWriter walFileName;
  match walWriter with
  | Panic => panic
  | Err err => _ ← abandon db; mret (throw (Errorf "beachdb: creating WAL writer" err))
  | Ok (w, i) =>
  let db := set_wal_file w i db in
  if 0 <? memtableFlushSize db
  then mret (Ok (set_flushDoneCh true db, [TLoopWait]))
  else mret (Ok (db, []))
  end end end end.
End Recovery.
