(* ===== verification/Robust.v ===== *)
(** * [Open] on any directory

    [Open] does not panic, whatever is in the files, whatever the devices do when
    they are read and whichever calls fail.  Proved without any history of the
    directory: all a program needs of it is that the files it has opened exist. *)
From Stdlib Require Import QArith_base.
From S2P Require Import Prelude.
From S2P Require Import Errors.
From S2P Require Import Keys.
From S2P Require Import GoIO.
From S2P Require Import GoSort.
From S2P Require Import Record.
From S2P Require Import RecordIO.
From S2P Require Import Fs.
From S2P Require Wal.
From S2P Require Batch.
From S2P Require Import Memtable.
From S2P Require Footer.
From S2P Require Index.
From S2P Require SstReader.
From S2P Require Import Edit.
From S2P Require Import Version.
From S2P Require Import Current.
From S2P Require Manifest.
From S2P Require Replay.
From S2P Require Import FileNames.
From S2P Require Import Engine.
From S2P Require Import EngineRun.
From S2P Require Import Recovery.

Local Open Scope Z_scope.

(** ** Programs that do not panic *)

(** Every name is that of a file. *)
Definition rooted (s : Fs) : Prop := forall name i, live s !! name = Some i -> is_Some (inodes s !! i).

Lemma wf_rooted s : wf_fs s -> rooted s.
Proof. intros H name i E. eapply (wf_dirs s H); [by left|done]. Qed.

(** Files do not vanish: their contents and names may. *)
Definition grows (s s' : Fs) : Prop := forall i, is_Some (inodes s !! i) -> is_Some (inodes s' !! i).

#[export] Instance grows_preorder : PreOrder grows.
Proof. split; [by intros s i|intros s1 s2 s3 H1 H2 i Hi; auto]. Qed.

(** A file that is open. *)
Definition has (i : nat) (s : Fs) : Prop := is_Some (inodes s !! i).

(** What stays true while the program runs. *)
Class Stable (P : Fs -> Prop) : Prop := stable s s' : grows s s' -> P s -> P s'.

#[export] Instance stable_const (X : Prop) : Stable (fun _ => X).
Proof. by intros s s'. Qed.
#[export] Instance stable_has i : Stable (has i).
Proof. intros s s' Hg. apply Hg. Qed.
#[export] Instance stable_and P Q : Stable P -> Stable Q -> Stable (fun s => P s /\ Q s).
Proof. intros HP HQ s s' Hg [? ?]. split; [by eapply HP|by eapply HQ]. Qed.

(** [quiet P m Q]: in a directory satisfying [P] the program [m] does not panic, whatever fails, and
    ends with a result satisfying [Q]. *)
Definition quiet {A} (P : Fs -> Prop) (m : io A) (Q : A -> Fs -> Prop) : Prop :=
  forall w, rooted (w_fs w) -> P (w_fs w) ->
    exists a w', m w = Some (a, w') /\ rooted (w_fs w') /\ grows (w_fs w) (w_fs w') /\ Q a (w_fs w').

Lemma quiet_ret {A} (a : A) (P : Fs -> Prop) (Q : A -> Fs -> Prop) : (forall s, P s -> Q a s) -> quiet P (mret a) Q.
Proof. intros H w Hr HP. exists a, w. split_and!; [done|done|done|by apply H]. Qed.

(** What held before the first program still holds in the second. *)
Lemma quiet_bind {A B} (m : io A) (k : A -> io B) P Q R `{!Stable P} :
  quiet P m Q -> (forall a, quiet (fun s => P s /\ Q a s) (k a) R) -> quiet P (mbind k m) R.
Proof.
  intros Hm Hk w Hr HP. destruct (Hm w Hr HP) as (a & w1 & E1 & Hr1 & Hg1 & HQ).
  destruct (Hk a w1 Hr1) as (b & w2 & E2 & Hr2 & Hg2 & HR); [split; [by eapply stable|done]|].
  exists b, w2. unfold mbind, io_bind. rewrite E1. split_and!; [done|done|by etrans|done].
Qed.

Lemma quiet_conseq {A} (m : io A) (P P' : Fs -> Prop) (Q Q' : A -> Fs -> Prop) :
  (forall s, P s -> P' s) -> (forall a s, Q' a s -> Q a s) -> quiet P' m Q' -> quiet P m Q.
Proof.
  intros HP HQ H w Hr Hw. destruct (H w Hr (HP _ Hw)) as (a & w' & E & Hr' & Hg & HQ'). exists a, w'. split_and!; auto.
Qed.

Lemma quiet_pure {A} (m : io A) (X : Prop) (P : Fs -> Prop) (Q : A -> Fs -> Prop) :
  (X -> quiet P m Q) -> quiet (fun s => P s /\ X) m Q.
Proof. intros H w Hr [HP HX]. by apply H. Qed.

(** *** Calls *)
Lemma quiet_call {A} (m : res A) (P : Fs -> Prop) : m <> Panic -> quiet P (call m) (fun r _ => r = m).
Proof. intros H w Hr HP. exists m, w. by destruct m. Qed.

(** A system call whose step keeps the files, in a directory where it may fail. *)
Lemma quiet_syscall {A} what (step : Fs -> res A * Fs) P (Q : res A -> Fs -> Prop) `{!Stable P} :
  (forall s, P s -> Q (throw (OsError what)) s) ->
  (forall s, rooted s -> P s -> let '(a, s') := step s in rooted s' /\ grows s s' /\ Q a s') -> quiet P (syscall what step) Q.
Proof.
  intros He Hs w Hr HP. unfold syscall, mbind, io_bind, next_call, change.
  assert (forall w1, inodes (w_fs w1) = inodes (w_fs w) -> live (w_fs w1) = live (w_fs w) ->
    grows (w_fs w) (w_fs w1) /\ rooted (w_fs w1) /\ P (w_fs w1)) as Hsame.
  { intros w1 Hi Hl. assert (grows (w_fs w) (w_fs w1)) as Hg by (intros i; by rewrite Hi).
    split; [done|]. split; [intros name i; rewrite Hi, Hl; apply Hr|by eapply stable]. }
  assert (forall w1, grows (w_fs w) (w_fs w1) /\ rooted (w_fs w1) /\ P (w_fs w1) ->
    exists a w', (let '(a, s) := step (w_fs w1) in Some (a, set_fs s w1)) = Some (a, w') /\ rooted (w_fs w') /\
      grows (w_fs w) (w_fs w') /\ Q a (w_fs w')) as Hstep.
  { intros w1 (Hg & Hr1 & HP1). specialize (Hs _ Hr1 HP1). destruct (step (w_fs w1)) as [a s]. destruct Hs as (? & Hg' & ?).
    eexists _, _. split; [done|]. split_and!; [done|by etrans|done]. }
  destruct (call_faults (w_fs w)) as [|[|n] xs]; [by apply Hstep, Hsame..|].
  destruct (Hsame (mkWorld (with_faults xs (w_fs w)) (w_trace w) (w_fault w)) eq_refl eq_refl) as (Hg & Hr1 & HP1).
  eexists _, _. split; [done|]. split_and!; [done|done|by apply He].
Qed.

(** A system call that only looks. *)
Lemma quiet_look {A} what (f : Fs -> res A) P (Q : res A -> Fs -> Prop) `{!Stable P} :
  (forall s, P s -> Q (throw (OsError what)) s) -> (forall s, rooted s -> P s -> Q (f s) s) ->
  quiet P (syscall what (fun s => (f s, s))) Q.
Proof. intros He Hf. apply quiet_syscall; [done|done|]. intros s Hr HP. split_and!; auto. done. Qed.

Lemma quiet_on_file {A} i (g : File -> A * File) (P : Fs -> Prop) :
  (forall s, P s -> has i s) -> quiet P (on_file i g) (fun a _ => exists f, (g f).1 = a).
Proof.
  intros Hi w Hr HP. destruct (Hi _ HP) as [f Hf]. unfold on_file. rewrite Hf. destruct (g f) as [a f'] eqn:Eg.
  assert (grows (w_fs w) (set_inode i f' (w_fs w))) as Hg.
  { intros j Hj. cbn. destruct (decide (i = j)) as [->|]; [by rewrite lookup_insert_eq|by rewrite lookup_insert_ne]. }
  exists a, (set_fs (set_inode i f' (w_fs w)) w). split_and!; [done| |done|exists f; by rewrite Eg].
  intros name j Hj. apply Hg. by eapply Hr.
Qed.

(** ** What is read never makes the code panic *)
Lemma ReadFull_length n s h err s' :
  ReadFull n s = (h, err, s') ->
  (length (src_bytes s') <= length (src_bytes s))%nat /\
  (err = None -> (length (src_bytes s') + n <= length (src_bytes s))%nat).
Proof.
  unfold ReadFull. intros [= _ He <-]. cbn [src_bytes]. rewrite length_drop. split; [lia|]. intros ->.
  set (avail := match src_fail s with Some k => Nat.min k _ | None => _ end) in *.
  assert (avail <= length (src_bytes s))%nat as Ha by (unfold avail; destruct (src_fail s); lia).
  destruct (Nat.leb_spec n avail); [lia|]. by destruct (src_fail s); [case_match|].
Qed.

(** A record that is read has taken its header's bytes at least. *)
Lemma read_next_robust f closed r :
  match (read_next f closed r).1 with
  | Panic => False
  | Ok _ => (drain_fuel (read_next f closed r).2 < drain_fuel r)%nat
  | Err _ => True
  end.
Proof.
  unfold read_next, drain_fuel. destruct (r_file r); [|done]. cbn [negb].
  destruct (ReadFull HeaderSize (r_src r)) as [[h err] src] eqn:E1. apply ReadFull_length in E1 as [_ H1].
  destruct (is_err err io.EOF); [done|]. destruct (_ || _); [done|]. destruct err as [e|]; [done|]. specialize (H1 eq_refl).
  destruct (DecodeHeader_total f h) as [[hdr ->]|(e & -> & _)]; [|done].
  destruct (ReadFull (Z.to_nat (Length hdr)) src) as [[p err] src'] eqn:E2. apply ReadFull_length in E2 as [H2 _].
  destruct (_ || _); [done|]. destruct err as [e|]; [done|]. unfold ValidatePayload. destruct (negb _); [done|].
  cbn [fst snd r_src]. assert (0 < HeaderSize)%nat by (vm_compute; lia). lia.
Qed.

Section Replay.
Context {slices : Slices}.

Lemma applyEdit_robust e st : Replay.applyEditToReplay e st <> Panic.
Proof using.
  unfold Replay.applyEditToReplay. generalize (Replay.liveFiles st) as live. induction (AddedFiles e) as [|fm fms IH]; intros live; [done|].
  cbn [Replay.add_live]. case_bool_decide; [done|apply IH].
Qed.

Lemma replay_robust fuel reader st : (drain_fuel reader <= fuel)%nat -> (Replay.replay_loop fuel reader st).1 <> Panic.
Proof using.
  revert reader st. induction fuel as [|fuel IH]; intros reader st Hf; [unfold drain_fuel in Hf; lia|].
  cbn [Replay.replay_loop]. unfold Manifest.NextEdit, Manifest.Next.
  pose proof (read_next_robust Manifest.manifestRecordFormat manifest.ErrReaderClosed reader) as Hn.
  destruct (read_next _ _ reader) as [[payload|err|] reader']; cbn [fst snd] in Hn; [| |done].
  - destruct (DecodeVersionEdit_safe payload) as [[edit ->]|(e & -> & _)].
    + pose proof (applyEdit_robust edit st). destruct (Replay.applyEditToReplay edit st) as [st'|e|]; [|done|done]. apply IH. lia.
    + destruct (_ || _); [|done]. unfold Replay.end_replay. cbn [fst]. by destruct (Replay.sawNextFileID st).
  - destruct (_ || _); [|done]. unfold Replay.end_replay. cbn [fst]. by destruct (Replay.sawNextFileID st).
Qed.

End Replay.

Lemma safe_not_panic {E A} (P : E -> Prop) (m : result E A) : safe P m -> m <> Panic.
Proof. by intros [[a ->]|(e & -> & _)]. Qed.

(** Opening a table never panics, whatever it holds. *)
Lemma OpenReader_robust rf : SstReader.OpenReader rf <> Panic.
Proof.
  unfold SstReader.OpenReader. destruct rf as [rf|]; [|done]. unfold SstReader.readFooter, SstReader.Stat.
  destruct (SstReader.rf_stat_fails rf); [done|]. destruct (_ <? _); [done|].
  destruct (SstReader.ReadAt _ _ _) as [p err]. destruct (_ || _); [done|].
  pose proof (safe_not_panic _ _ (Footer.decodeFooter_safe p)) as Hf. destruct (Footer.decodeFooter p) as [ft|e|]; [|done|done].
  cbn [mbind result_bind]. unfold SstReader.readIndexEntries. destruct (SstReader.ReadAt _ _ _) as [q err2]. destruct (_ || _); [done|].
  pose proof (safe_not_panic _ _ (Index.decodeIndexBlock_safe q)) as Hi. by destruct (Index.decodeIndexBlock q).
Qed.

(** ** Calls on the directory *)
Definition no_panic {A} (r : res A) : Prop := r <> Panic.

(** A file was opened, or an error is returned. *)
Definition file_or_err (r : res nat) (s : Fs) : Prop :=
  match r with Ok i => has i s | Err _ => True | Panic => False end.

Lemma quiet_false {A} (m : io A) (P : Fs -> Prop) Q : (forall s, ~ P s) -> quiet P m Q.
Proof. intros H w _ HP. by destruct (H _ HP). Qed.

(** The cases of a result that is no panic. *)
Lemma quiet_res {A B} (r : res A) (k : res A -> io B) P Q :
  (forall a, r = Ok a -> quiet P (k (Ok a)) Q) -> (forall e, r = Err e -> quiet P (k (Err e)) Q) ->
  quiet (fun s => P s /\ no_panic r) (k r) Q.
Proof. intros H1 H2. apply quiet_pure. intros Hr. destruct r; auto. done. Qed.

Lemma quiet_opened {B} (r : res nat) (k : res nat -> io B) P Q :
  (forall i, quiet (fun s => P s /\ has i s) (k (Ok i)) Q) -> (forall e, quiet P (k (Err e)) Q) ->
  quiet (fun s => P s /\ file_or_err r s) (k r) Q.
Proof.
  intros H1 H2. destruct r as [i|e|]; cbn [file_or_err]; [apply H1| |by apply quiet_false; intros s []].
  by eapply quiet_conseq; [intros s [? _]; eassumption|done|apply H2].
Qed.

(** Nothing is kept of what a call returned. *)
Lemma quiet_weaken {A} (m : io A) (P X : Fs -> Prop) Q : quiet P m Q -> quiet (fun s => P s /\ X s) m Q.
Proof. by apply quiet_conseq; [intros s []|]. Qed.

Section Calls.
Context (P : Fs -> Prop) {P_stable : Stable P}.

Lemma quiet_os_Open name : quiet P (os_Open name) file_or_err.
Proof using P_stable.
  apply quiet_syscall; [done|done|]. intros s Hr HP. destruct (live s !! name) as [i|] eqn:E; split_and!; try done. by eapply Hr.
Qed.

Lemma create_grows name s i s' : rooted s -> create name s = (i, s') -> rooted s' /\ grows s s' /\ has i s'.
Proof using.
  intros Hr [= <- <-]. assert (forall j, is_Some (inodes s !! j) \/ j = next_ino s ->
    is_Some (<[next_ino s := mkFile [] 0 (new_faults s (next_ino s))]> (inodes s) !! j)) as Hj.
  { intros j H. destruct (decide (next_ino s = j)) as [->|Hne]; [by rewrite lookup_insert_eq|rewrite lookup_insert_ne by done].
    by destruct H as [?| ->]. }
  split; [|split; [intros j Hs; apply Hj; by left|apply Hj; by right]].
  intros nm j. cbn. destruct (decide (name = nm)) as [->|]; [rewrite lookup_insert_eq|rewrite lookup_insert_ne by done].
  - intros [= <-]. apply Hj. by right.
  - intros E. apply Hj. left. by eapply Hr.
Qed.

Lemma quiet_os_OpenAppend name : quiet P (os_OpenAppend name) file_or_err.
Proof using P_stable.
  apply quiet_syscall; [done|done|]. intros s Hr HP. destruct (live s !! name) as [i|] eqn:E; [split_and!; [done|done|by eapply Hr]|].
  destruct (create name s) as [i s'] eqn:Ec. by eapply create_grows.
Qed.

Lemma quiet_os_Create name : quiet P (os_Create name) file_or_err.
Proof using P_stable.
  apply quiet_syscall; [done|done|]. intros s Hr HP. destruct (create name s) as [i s'] eqn:Ec. by eapply create_grows.
Qed.

Lemma quiet_os_ReadFile name : quiet P (os_ReadFile name) (fun r _ => no_panic r).
Proof using P_stable.
  apply quiet_syscall; [done|done|]. intros s Hr HP. by destruct (live s !! name ≫= _).
Qed.

Lemma quiet_os_Stat name : quiet P (os_Stat name) (fun r _ => no_panic r).
Proof using P_stable. apply quiet_look; [done|done|]. intros s _ _. by destruct (live s !! name). Qed.

Lemma quiet_os_ReadDir : quiet P os_ReadDir (fun r _ => no_panic r).
Proof using P_stable. by apply quiet_look. Qed.

Lemma quiet_os_Rename from to : quiet P (os_Rename from to) (fun r _ => no_panic r).
Proof using P_stable.
  apply quiet_syscall; [done|done|]. intros s Hr HP. destruct (live s !! from) as [i|] eqn:E; [|done].
  split_and!; [|by intros ?|done]. intros nm j. cbn. destruct (decide (to = nm)) as [->|]; [rewrite lookup_insert_eq|rewrite lookup_insert_ne by done].
  - intros [= <-]. by eapply Hr.
  - intros [_ Hj]%lookup_delete_Some. by eapply Hr.
Qed.

Lemma quiet_os_Remove name : quiet P (os_Remove name) (fun r _ => no_panic r).
Proof using P_stable.
  apply quiet_syscall; [done|done|]. intros s Hr HP. destruct (live s !! name) as [i|] eqn:E; [|done].
  split_and!; [|by intros ?|done]. intros nm j. cbn. intros [_ Hj]%lookup_delete_Some. by eapply Hr.
Qed.

Lemma quiet_SyncDir : quiet P SyncDir (fun r _ => no_panic r).
Proof using P_stable.
  unfold SyncDir. eapply quiet_bind; [apply _|apply (quiet_look "open" (fun _ => Ok tt) P (fun r _ => no_panic r)); done|].
  intros [u|e|]; [apply quiet_weaken|by apply quiet_ret|by apply quiet_false; intros s []].
  eapply quiet_bind; [apply _|apply (quiet_syscall "fsync" (fun s => (Ok tt, sync_dirs s)) P (fun r _ => no_panic r));
    [done|intros s Hr _; split_and!; [exact Hr|by intros ?|done]]|].
  intros r. apply quiet_ret. intros s [_ H]. by destruct r.
Qed.

Lemma quiet_close_table : quiet P close_table (fun _ _ => True).
Proof using P_stable.
  unfold close_table. eapply quiet_bind; [apply _|apply (quiet_look "close" (fun _ => Ok tt) P (fun _ _ => True)); done|]. intros r. by apply quiet_ret.
Qed.

Lemma quiet_discard {A} (m : io A) Q : quiet P m Q -> quiet P (discard m) (fun _ _ => True).
Proof using P_stable. intros H. unfold discard. eapply quiet_bind; [apply _|exact H|]. intros a. by apply quiet_ret. Qed.
End Calls.

#[local] Instance stable_file_or_err r : Stable (file_or_err r).
Proof. destruct r; [exact (stable_has _)|exact (stable_const True)|exact (stable_const False)]. Qed.

(** ** Stepping through a program

    Facts about the directory collect in the precondition; [quiet_facts] looks them
    up there. *)
Ltac quiet_facts := intros; cbn [file_or_err] in *; unfold no_panic in *; first [tauto|discriminate].

Ltac quiet_call :=
  first
    [ apply quiet_os_Open | apply quiet_os_OpenAppend | apply quiet_os_Create | apply quiet_os_ReadFile | apply quiet_os_Stat
    | apply quiet_os_ReadDir | apply quiet_os_Rename | apply quiet_os_Remove | apply quiet_SyncDir | apply quiet_close_table
    | eapply quiet_discard; quiet_call
    | apply quiet_on_file; quiet_facts ]; try apply _.

Ltac quiet_step :=
  lazymatch goal with
  | |- quiet _ (mret _) _ => apply quiet_ret; try quiet_facts
  | |- quiet _ panic _ => apply quiet_false; intros s; unfold no_panic; cbn [file_or_err]; tauto
  | |- quiet _ (mbind _ _) _ => eapply quiet_bind; [apply _|quiet_call|intros ?; cbv beta]
  | |- quiet _ (match ?x with _ => _ end) _ => destruct x eqn:?
  end.

Ltac quiet_steps := repeat quiet_step.

Section Files.
Context (P : Fs -> Prop) {P_stable : Stable P}.

Lemma quiet_WriteCurrent name : quiet P (WriteCurrent name) (fun _ _ => True).
Proof using P_stable. unfold WriteCurrent, f_write, f_sync, f_close. quiet_steps. Qed.

Lemma quiet_ReadCurrent : quiet P ReadCurrent (fun r _ => no_panic r).
Proof using P_stable.
  unfold ReadCurrent. quiet_steps.
Qed.

Lemma quiet_nextAvailableManifestID : quiet P nextAvailableManifestID (fun r _ => no_panic r).
Proof using P_stable. unfold nextAvailableManifestID. quiet_steps. Qed.

Context {device : Device}.

Lemma quiet_open_table path : quiet P (open_table path) (fun r _ => no_panic r).
Proof using P_stable.
  unfold open_table. quiet_step. quiet_step; [|quiet_steps..].
  eapply (quiet_conseq _ _ _ _ _ (fun s H => H)); [|apply quiet_on_file; quiet_facts]. by intros r s [f <-].
Qed.

(** Readers of both logs. *)
Lemma quiet_Wal_NewReader path : quiet P (Wal.NewReader path) (fun r _ => no_panic r).
Proof using P_stable. unfold Wal.NewReader, open_source. quiet_steps. Qed.

Lemma quiet_Manifest_NewReader path : quiet P (Manifest.NewReader path) (fun r _ => no_panic r).
Proof using P_stable. unfold Manifest.NewReader, open_source. quiet_steps. Qed.

(** Their writers, and the files they hold. *)
Definition wal_or_err (r : res (Wal.Writer * nat)) (s : Fs) : Prop :=
  match r with Ok (_, i) => has i s | Err _ => True | Panic => False end.

#[export] Instance stable_wal_or_err r : Stable (wal_or_err r).
Proof using. destruct r as [[w i]| |]; [exact (stable_has i)|exact (stable_const True)|exact (stable_const False)]. Qed.

Lemma quiet_Wal_NewWriter path : quiet P (Wal.NewWriter path) wal_or_err.
Proof using P_stable. unfold Wal.NewWriter, f_close. quiet_steps; intros s; cbn [wal_or_err file_or_err]; tauto. Qed.

Definition writes_to (w : Manifest.Writer) (s : Fs) : Prop :=
  match Manifest.m_file w with Some i => has i s | None => True end.

#[export] Instance stable_writes_to w : Stable (writes_to w).
Proof using. unfold writes_to. destruct (Manifest.m_file w); apply _. Qed.

Definition manifest_or_err (r : res Manifest.Writer) (s : Fs) : Prop :=
  match r with Ok w => writes_to w s | Err _ => True | Panic => False end.

Lemma quiet_Manifest_NewWriter path : quiet P (Manifest.NewWriter path) manifest_or_err.
Proof using P_stable. unfold Manifest.NewWriter, f_close. quiet_steps; intros s; cbn [manifest_or_err file_or_err]; unfold writes_to; cbn; tauto. Qed.

Lemma quiet_Manifest_Close w : quiet (fun s => P s /\ writes_to w s) (Manifest.Close (Some w)) (fun _ _ => True).
Proof using P_stable.
  unfold Manifest.Close, f_sync, f_close, writes_to. destruct (Manifest.m_file w) as [i|]; [|quiet_steps]. quiet_steps.
Qed.

Lemma quiet_Manifest_Append payload w :
  Manifest.EncodeRecord payload <> Panic -> quiet (fun s => P s /\ writes_to w s) (Manifest.Append payload w) (fun _ _ => True).
Proof using P_stable.
  intros Hp. unfold Manifest.Append, f_write, f_sync, writes_to.
  eapply quiet_bind; [destruct (Manifest.m_file w); apply _|by apply quiet_call|]. intros r. cbv beta. apply quiet_pure. intros ->.
  destruct (Manifest.EncodeRecord payload) as [rec|e|]; [|quiet_steps|done].
  destruct (Manifest.m_file w) as [i|]; quiet_steps.
Qed.
End Files.


Section Open.
Context {Mem : Type} {memtable : Memtable Mem} {memtable_laws : MemtableLaws Mem}.
Context {slices : Slices} {device : Device}.
Local Abbreviation DB := (DB Mem).

(** A database on the way: it has a memtable, and the file of its MANIFEST exists; there is
    no log yet. *)
Definition coming (db : DB) (s : Fs) : Prop :=
  (exists m, mem db = Some m /\ mem_inv m) /\ wal db = None /\ match manifest db with Some w => writes_to w s | None => True end.

#[local] Instance stable_coming db : Stable (coming db).
Proof using. unfold coming. destruct (manifest db); apply _. Qed.

Section Steps.
Context (P : Fs -> Prop) {P_stable : Stable P}.

Lemma quiet_remove_orphans referenced names : quiet P (remove_orphans referenced names) (fun _ _ => True).
Proof using P_stable.
  induction names as [|name names IH]; cbn [remove_orphans]; [by apply quiet_ret|]. destruct (parseSSTFileName name) as [id ok].
  eapply (quiet_bind _ _ _ (fun _ _ => True)); [apply _| |intros []; apply quiet_weaken, IH]. destruct (_ && _); [|by apply quiet_ret].
  eapply quiet_discard; [apply _|]. by apply quiet_os_Remove.
Qed.

Lemma quiet_cleanup version : quiet P (cleanupOrphanSSTables version) (fun _ _ => True).
Proof using P_stable.
  unfold cleanupOrphanSSTables. quiet_step. quiet_step; [apply quiet_weaken, quiet_remove_orphans|quiet_steps..].
Qed.

Lemma quiet_openSSTReaders fms readers : quiet P (openSSTReadersForVersion fms readers) (fun r _ => no_panic r).
Proof using P_stable.
  revert readers. induction fms as [|fm fms IH]; intros readers; cbn [openSSTReadersForVersion]; [by apply quiet_ret|].
  eapply quiet_bind; [apply _|by apply quiet_open_table|]. intros [rf|e|]; [|by apply quiet_ret|by apply quiet_false; intros s []].
  apply quiet_weaken. eapply quiet_bind; [apply _|apply quiet_call, OpenReader_robust|]. intros r. cbv beta. apply quiet_pure. intros ->.
  pose proof (OpenReader_robust (Some rf)). destruct (SstReader.OpenReader (Some rf)) as [reader|e|]; [apply IH|quiet_steps|done].
Qed.

Lemma quiet_os_Truncate name n : quiet P (os_Truncate name n) (fun _ _ => True).
Proof using P_stable. unfold os_Truncate. quiet_step. quiet_step; [|quiet_steps..]. 
  eapply (quiet_conseq _ _ _ _ _ (fun s H => H)); [|apply quiet_on_file; quiet_facts]. done.
Qed.

(** [Close] of a database that is given up. *)
Lemma quiet_close_readers rs e : quiet P (close_readers rs e) (fun _ _ => True).
Proof using P_stable.
  revert e. induction rs as [|r rs IH]; intros e; cbn [close_readers]; [by apply quiet_ret|].
  eapply (quiet_bind _ _ _ (fun _ _ => True)); [apply _|destruct (SstReader.file r); [by apply quiet_close_table|by apply quiet_ret]|].
  intros ce. apply quiet_weaken. destruct (SstReader.CloseReader _ _) as [err ?]. apply IH.
Qed.

End Steps.

Lemma quiet_abandon P {P_stable : Stable P} db : quiet (fun s => P s /\ coming db s) (abandon db) (fun _ _ => True).
Proof using.
  unfold abandon. eapply (quiet_discard _ _ (fun _ _ => True)). unfold close_finish.
  eapply (quiet_bind _ _ _ (fun _ _ => True)); [apply _|apply (quiet_close_readers _)|]. intros e1. apply quiet_weaken.
  eapply (quiet_bind _ _ _ (fun _ _ => True)); [apply _| |].
  { intros w Hr (_ & _ & Hw & _). unfold close_wal. cbn. rewrite Hw. by eexists _, w. }
  intros e2. apply quiet_weaken. eapply (quiet_bind _ _ _ (fun _ _ => True)); [apply _| |intros e3; by apply quiet_ret].
  cbn [manifest set_closed]. unfold coming. destruct (manifest db) as [mw|]; [|by apply quiet_ret].
  eapply (quiet_bind _ _ _ (fun _ _ => True)); [apply _| |intros [e ?]; by apply quiet_ret].
  eapply quiet_conseq; [| |by apply (quiet_Manifest_Close P)]; [|done]. by intros s (? & _ & _ & ?).
Qed.

Ltac quiet_by L := solve [apply L; try apply _; done].

(** ** Opening the MANIFEST *)
Lemma coming_set_manifest v w rs id sq l db s :
  coming db s -> writes_to w s -> coming (set_manifest v w rs id sq l db) s.
Proof using. by intros (Hm & Hw & _) H. Qed.

Lemma initial_record : exists rec, Manifest.EncodeRecord (edit_wire initial_edit) = Ok rec.
Proof using. eexists. vm_compute. reflexivity. Qed.

Definition ready (r : DB * option error) (s : Fs) : Prop := coming r.1 s.

Lemma quiet_bootstrap db : quiet (coming db) (bootstrapFreshManifest db) ready.
Proof using.
  unfold bootstrapFreshManifest. eapply quiet_bind; [apply _|quiet_by quiet_nextAvailableManifestID|].
  intros [id|e|]; [apply quiet_weaken|by apply quiet_ret; intros s []|by apply quiet_false; intros s []].
  eapply quiet_bind; [apply _|quiet_by quiet_Manifest_NewWriter|].
  intros [mw|e|]; cbn [manifest_or_err]; [|by apply quiet_ret; intros s []|by apply quiet_false; intros s []].
  rewrite Encode_edit_wire. change (pure (Ok (edit_wire initial_edit))) with (mret (edit_wire initial_edit) : io bytes).
  eapply (quiet_bind _ _ _ (fun p _ => p = edit_wire initial_edit)); [apply _|by apply quiet_ret|]. intros p. apply quiet_pure. intros ->.
  eapply quiet_bind; [apply _|apply (quiet_Manifest_Append (coming db)); by destruct initial_record as [? ->]|].
  assert (forall err, quiet (fun s => coming db s /\ writes_to mw s)
    (_ ← Manifest.Close (Some mw); _ ← os_Remove (buildManifestFileName id); mret (db, Some err)) ready) as Hgive.
  { intros err. eapply quiet_bind; [apply _|apply (quiet_Manifest_Close (coming db))|]. intros [e ?]. apply quiet_weaken.
    eapply quiet_bind; [apply _|quiet_by quiet_os_Remove|]. intros r. by apply quiet_ret; intros s [[? _] _]. }
  intros [err|]; apply quiet_weaken; [apply Hgive|].
  eapply quiet_bind; [apply _|quiet_by quiet_WriteCurrent|]. intros [err|]; apply quiet_weaken; [apply Hgive|].
  apply quiet_ret. intros s [Hc Hw]. by apply coming_set_manifest.
Qed.

Lemma quiet_replayExistingManifest current db : quiet (coming db) (replayExistingManifest current db) ready.
Proof using.
  unfold replayExistingManifest. eapply quiet_bind; [apply _|quiet_by quiet_Manifest_NewReader|].
  intros [reader|e|]; [apply quiet_weaken|by apply quiet_ret; intros s []|by apply quiet_false; intros s []].
  pose proof (replay_robust (drain_fuel reader) reader Replay.init_replay (Nat.le_refl _)) as Hr.
  change (Replay.replay_loop _ _ _) with (Replay.replayManifestStream reader) in Hr.
  destruct (Replay.replayManifestStream reader) as [result reader']. cbn [fst] in Hr.
  eapply quiet_bind; [apply _|quiet_by quiet_close_table|]. intros ce. apply quiet_weaken.
  destruct (Manifest.CloseReader _ _) as [closeErr ?]. destruct result as [result|e|]; [|by apply quiet_ret|done].
  destruct closeErr as [e|]; [by apply quiet_ret|].
  eapply (quiet_bind _ _ _ (fun _ _ => True)); [apply _|destruct (Replay.tailTrimmed result); [quiet_by quiet_os_Truncate|by apply quiet_ret]|].
  intros [e|]; apply quiet_weaken; [by apply quiet_ret|].
  eapply quiet_bind; [apply _|quiet_by quiet_cleanup|]. intros []. apply quiet_weaken.
  eapply quiet_bind; [apply _|quiet_by quiet_openSSTReaders|].
  intros [ssts|e|]; [apply quiet_weaken|by apply quiet_ret; intros s []|by apply quiet_false; intros s []].
  eapply quiet_bind; [apply _|quiet_by quiet_Manifest_NewWriter|].
  intros [mw|e|]; cbn [manifest_or_err]; [|by apply quiet_ret; intros s []|by apply quiet_false; intros s []].
  apply quiet_ret. intros s [Hc Hw]. by apply coming_set_manifest.
Qed.

Lemma quiet_openManifest db : quiet (coming db) (openManifest db) ready.
Proof using.
  unfold openManifest. eapply quiet_bind; [apply _|quiet_by quiet_ReadCurrent|].
  intros [name|e|]; [apply quiet_weaken, quiet_replayExistingManifest| |by apply quiet_false; intros s []].
  destruct (errors_Is e _); [apply quiet_weaken, quiet_bootstrap|by apply quiet_ret; intros s []].
Qed.

(** ** The log *)
Lemma applyOperations_coming ops db m :
  mem db = Some m -> mem_inv m -> exists db', applyOperations ops db = Ok db' /\ forall s, coming db s -> coming db' s.
Proof using memtable_laws.
  revert db m. induction ops as [|op ops IH]; intros db m Em Hm; cbn [applyOperations]; [by exists db|].
  rewrite Em. cbn [deref mbind result_bind].
  destruct (mem_put_spec (mkInternalKey (Batch.op_key op) (u64 (seqno db + 1)) (op_kind op)) (Batch.op_value op) m Hm)
    as (m' & -> & Hm' & _). cbn [mbind result_bind].
  destruct (IH (set_mem (u64 (seqno db + 1)) m' db) m' eq_refl Hm') as (db' & E & Hc). exists db'. split; [done|].
  intros s (_ & Hw & Hmf). apply Hc. split_and!; [by exists m'|done|done].
Qed.

Lemma quiet_replay_wal_loop fuel reader path db :
  (drain_fuel reader <= fuel)%nat -> quiet (coming db) (replay_wal_loop fuel reader path db) ready.
Proof using memtable_laws.
  revert reader db. induction fuel as [|fuel IH]; intros reader db Hf; [unfold drain_fuel in Hf; lia|].
  cbn [replay_wal_loop]. unfold Wal.Next. pose proof (read_next_robust Wal.walRecordFormat wal.ErrReaderClosed reader) as Hn.
  destruct (read_next _ _ reader) as [[payload|err|] reader']; cbn [fst snd] in Hn; [| |done].
  - eapply quiet_bind; [apply _|apply quiet_call; apply (safe_not_panic _ _ (Batch.DecodeBatch_safe payload))|].
    intros r. cbv beta. apply quiet_pure. intros ->.
    pose proof (safe_not_panic _ _ (Batch.DecodeBatch_safe payload)) as Hb.
    destruct (Batch.DecodeBatch payload) as [batch|e|]; [|by apply quiet_ret|done].
    intros w Hr Hc. destruct Hc as (Hm & Hrest). destruct Hm as (m & Em & Hi).
    destruct (applyOperations_coming (Batch.ops batch) db m Em Hi) as (db' & E & Hdb).
    unfold mbind, io_bind. rewrite E. cbn [pure mret io_ret]. apply IH; [lia|done|]. apply Hdb. split; [by exists m|done].
  - destruct (errors_Is err io.EOF); [by apply quiet_ret|]. destruct (errors_Is err record.ErrTruncated); [|by apply quiet_ret].
    eapply quiet_bind; [apply _|quiet_by quiet_os_Truncate|]. intros terr. by apply quiet_ret; intros s [].
Qed.

Lemma quiet_replayWAL path db : quiet (coming db) (replayWAL path db) ready.
Proof using memtable_laws.
  unfold replayWAL. eapply quiet_bind; [apply _|quiet_by quiet_os_Stat|].
  intros [u|e|]; [apply quiet_weaken|destruct (errors_Is e _); by apply quiet_ret; intros s []|by apply quiet_false; intros s []].
  eapply quiet_bind; [apply _|quiet_by quiet_Wal_NewReader|].
  intros [reader|e|]; [apply quiet_weaken|by apply quiet_ret; intros s []|by apply quiet_false; intros s []].
  eapply quiet_bind; [apply _|by apply quiet_replay_wal_loop|]. intros [db' err].
  eapply quiet_bind; [apply _|quiet_by quiet_close_table|]. intros ce. apply quiet_ret. by intros s [[_ ?] _].
Qed.

(** ** Open *)
Lemma quiet_Open rand opts mkdir : quiet (fun _ => True) (Open (Mem := Mem) rand opts mkdir) (fun r _ => no_panic r).
Proof using memtable_laws.
  unfold Open. destruct mkdir as [e|]; [by apply quiet_ret|].
  destruct (_ <? _); [by apply quiet_ret|]. destruct (_ <? _); [by apply quiet_ret|].
  eapply (quiet_bind _ _ _ ready); [apply _| |].
  { eapply (quiet_conseq _ _ (coming (new_db rand (applyOptions opts))) _ ready); [|done|apply quiet_openManifest].
    intros s _. split; [|done]. eexists. split; [done|]. apply mem_new_spec. }
  intros [db [e|]]; [by apply quiet_ret|].
  eapply quiet_bind; [unfold ready; apply _| |].
  { eapply quiet_conseq; [|by intros a s H; exact H|apply quiet_replayWAL]. by intros s []. }
  intros [db' [e|]].
  - eapply (quiet_bind _ _ _ (fun _ _ => True)); [unfold ready; apply _| |intros []; by apply quiet_ret].
    eapply quiet_conseq; [|done|by apply (quiet_abandon (fun _ => True))]. by intros s [_ ?].
  - eapply quiet_bind; [unfold ready; apply _|apply quiet_Wal_NewWriter; unfold ready; apply _|].
    intros [[w i]|e|]; [|..].
    + destruct (_ <? _); by apply quiet_ret.
    + eapply (quiet_bind _ _ _ (fun _ _ => True)); [unfold ready; apply _| |intros []; by apply quiet_ret].
      eapply quiet_conseq; [|done|by apply (quiet_abandon (fun _ => True))]. by intros s [[_ ?] _].
    + by apply quiet_false; intros s [].
Qed.

(** C3: [Open] never panics.  In any directory whose names are those of
    files, whatever these files hold (the remains of any crash, damaged or foreign files),
    whatever the devices do when they are read, whichever calls fail and with any options, [Open]
    returns, with a database or an error, and leaves such a directory.  (Memory for what the
    files ask for is taken to be there: slices of up to 4 GiB, and in a damaged MANIFEST up to 2^32 levels.) *)
Theorem open_never_panics (rand : nat -> nat -> Q) opts mkdir w :
  rooted (w_fs w) -> exists r w', Open (Mem := Mem) rand opts mkdir w = Some (r, w') /\ r <> Panic /\ rooted (w_fs w').
Proof using memtable_laws.
  intros Hr. destruct (quiet_Open rand opts mkdir w Hr I) as (r & w' & E & Hr' & _ & Hn). by exists r, w'.
Qed.
End Open.
