(* ===== verification/Dump.v ===== *)
(** * The dump tools (cmd/wal_dump, cmd/manifest_dump, cmd/sst_dump)

    What they print, as the calls of [fmt.Printf] they make: a format, as it is
    written in the source, and its arguments. *)
From S2P Require Import Prelude.
From S2P Require Import Errors.
From S2P Require Import Keys.
From S2P Require Import GoIO.
From S2P Require Import GoSort.
From S2P Require Import Record.
From S2P Require Import RecordIO.
From S2P Require Import Memtable.
From S2P Require Import Fs.
From S2P Require Wal.
From S2P Require Batch.
From S2P Require Import Edit.
From S2P Require Import Version.
From S2P Require Import Current.
From S2P Require Import Manifest.
From S2P Require Import FileNames.
From S2P Require Replay.
From S2P Require Import Engine.
From S2P Require Import Recovery.
From S2P Require SstWriter.
From S2P Require SstReader.

Local Open Scope Z_scope.

Inductive arg := AInt (n : Z) | AStr (s : bytes) | AErr (e : error).

Record line := Printf { format : string; args : list arg }.

Definition Println : line := Printf "\n" [].

(** What was printed, and how the run ended. *)
Abbreviation output := (list line * res unit)%type.

Definition print (ls : list line) (o : output) : output := (ls ++ o.1, o.2).

(** ** wal_dump *)
Module wal_dump.

(** The line of a record; [decode] is the flag. *)
Definition batch_note (payload : bytes) : res (list line) :=
  match Batch.DecodeBatch payload with
  | Panic => Panic
  | Err err => Ok [Printf " [failed to decode: %v]" [AErr err]]
  | Ok batch => Ok [Printf " (batch: %d operations)" [AInt (Z.of_nat (Batch.Count batch))]]
  end.

Definition record_line (decode : bool) (recordCount : Z) (payload : bytes) : res (list line) :=
  note ← (if decode then batch_note payload else Ok []);
  Ok (Printf "Record %d: %d bytes" [AInt recordCount; AInt (zlen payload)] :: note ++ [Println]).

Definition summary (recordCount totalBytes incomplete : Z) : list line :=
  Println ::
    if 0 <? incomplete then [Printf "End of WAL (%d complete records, %d incomplete)\n" [AInt recordCount; AInt incomplete]]
    else [Printf "End of WAL (%d records, %d bytes total)\n" [AInt recordCount; AInt totalBytes]].

(** The loop, and the summary. *)
Fixpoint dump_records (decode : bool) (fuel : nat) (reader : Reader) (recordCount totalBytes : Z) : output :=
  match fuel with
  | O => ([], Panic)
  | S fuel =>
      let '(payload, reader) := Wal.Next reader in
      match payload with
      | Panic => ([], Panic)
      | Err err =>
          if errors_Is err io.EOF then (summary recordCount totalBytes 0, Ok tt)
          else if errors_Is err record.ErrTruncated then
            (Printf "Record %d: truncated (incomplete write)\n" [AInt recordCount] :: summary recordCount totalBytes 1, Ok tt)
          else if errors_Is err record.ErrChecksum then
            (Printf "Record %d: CORRUPTED (checksum mismatch)\n" [AInt recordCount] :: summary recordCount totalBytes 1, Ok tt)
          else ([], throw (Errorf "failed to read record" err))
      | Ok payload =>
          match record_line decode recordCount payload with
          | Ok ls => print ls (dump_records decode fuel reader (recordCount + 1) (totalBytes + zlen payload))
          | _ => ([], Panic)
          end
      end
  end.

Definition dumpWAL `{!Device} (decode : bool) (path : bytes) : io output :=
  let first := Printf "Reading WAL: %s\n\n" [AStr path] in
  reader ← Wal.NewReader path;
  match reader with
  | Panic => panic
  | Err err => mret ([first], throw (Errorf "failed to open WAL" err))
  | Ok reader => mret (print [first] (dump_records decode (drain_fuel reader) reader 0 0))
  end.
End wal_dump.

(** ** manifest_dump *)
Module manifest_dump.

Definition slash : bytes := bytes_of_string "/".

Definition formatInternalKey (k : InternalKey) : bytes :=
  let kind := if bool_decide (Kind k = InternalKeyKindDelete) then "Delete"%string else "Put"%string in
  UserKey k ++ slash ++ decimal (Seqno k) ++ slash ++ bytes_of_string kind.

Definition added_line (f : FileMetadata) : line :=
  Printf "  add_file:    level=%d id=%d size=%d smallest=%q largest=%q\n"
    [AInt (Level f); AInt (FileID f); AInt (Size f); AStr (formatInternalKey (SmallestKey f));
     AStr (formatInternalKey (LargestKey f))].

Definition deleted_line (d : DeletedFile) : line :=
  Printf "  delete_file: level=%d id=%d\n" [AInt (d_Level d); AInt (d_FileID d)].

Definition printEdit (idx : Z) (edit : VersionEdit) : list line :=
  Printf "Edit #%d:\n" [AInt idx] ::
  (if HasNextFileID edit then [Printf "  next_file_id:  %d\n" [AInt (NextFileID edit)]] else []) ++
  (if HasLastSequence edit then [Printf "  last_sequence: %d\n" [AInt (LastSequence edit)]] else []) ++
  (if HasLogNumber edit then [Printf "  log_number:    %d\n" [AInt (LogNumber edit)]] else []) ++
  (added_line <$> AddedFiles edit) ++ (deleted_line <$> DeletedFiles edit).

Definition print_level (version : Version) (level : nat) : list line :=
  let files := Files (Z.of_nat level) version in
  if (length files =? 0)%nat then []
  else
    let total := foldl (fun total f => u64 (total + Size f)) 0 files in
    Printf "  Level %d: %d files (%d bytes total)\n" [AInt (Z.of_nat level); AInt (zlen files); AInt total] ::
    ((fun f => Printf "    [%d] %s..%s (%d bytes)\n"
       [AInt (FileID f); AStr (UserKey (SmallestKey f)); AStr (UserKey (LargestKey f)); AInt (Size f)]) <$> files).

Definition printVersion (version : Version) : list line :=
  Printf "Current Version:\n" [] ::
  if (NumLevels version =? 0)%nat then [Printf "  (empty — no files)\n" []]
  else mjoin (print_level version <$> seq 0 (NumLevels version)).

Section Dump.
Context {slices : Slices}.

(** After the loop. *)
Definition finish (editIdx : Z) (version : Version) (corruptErr : option error) : output :=
  match corruptErr with
  | None => (printVersion version, Ok tt)
  | Some err => (printVersion version ++ [Printf "\nLast valid edit: #%d\n" [AInt (editIdx - 1)]], throw err)
  end.

Fixpoint dump_edits (fuel : nat) (reader : Reader) (editIdx : Z) (version : Version) : output :=
  match fuel with
  | O => ([], Panic)
  | S fuel =>
      let '(edit, reader) := NextEdit reader in
      match edit with
      | Panic => ([], Panic)
      | Err err =>
          if errors_Is err io.EOF then finish editIdx version None
          else if errors_Is err record.ErrTruncated then
            print [Printf "Edit #%d: incomplete trailing record (crash mid-append, recoverable)\n\n" [AInt editIdx]]
              (finish editIdx version None)
          else finish editIdx version (Some (Errorf "corrupt manifest at edit" err))
      | Ok edit => print (printEdit editIdx edit) (dump_edits fuel reader (editIdx + 1) (Apply version edit))
      end
  end.

Definition dump_reader (reader : Reader) : output := dump_edits (drain_fuel reader) reader 0 (NewVersion 0).

(** [join] is [filepath.Join(dir, _)]. *)
Definition dumpManifest `{!Device} (dir : bytes) (join : bytes -> bytes) : io output :=
  name ← ReadCurrent;
  match name with
  | Panic => panic
  | Err err =>
      if errors_Is err manifest.ErrNoCurrentFile
      then mret ([Printf "No CURRENT file in %s — fresh database, nothing to dump.\n" [AStr dir]], Ok tt)
      else mret ([], throw (Errorf "reading CURRENT" err))
  | Ok name =>
      let first := [Printf "Manifest: %s\n" [AStr name]; Printf "Path:     %s\n\n" [AStr (join name)]] in
      reader ← Manifest.NewReader name;
      match reader with
      | Panic => panic
      | Err err => mret (first, throw (Errorf "opening manifest" err))
      | Ok reader => mret (print first (dump_reader reader))
      end
  end.
End Dump.
End manifest_dump.

(** ** sst_dump *)
Module sst_dump.
Import SstReader.

Definition entry_line (idx : Z) (key : InternalKey) (val : bytes) : line :=
  let kind := if bool_decide (Kind key = InternalKeyKindDelete) then "Delete"%string else "Put   "%string in
  Printf "  [%d] %s key=%q seqno=%d value=%d bytes\n"
    [AInt idx; AStr (bytes_of_string kind); AStr (UserKey key); AInt (Seqno key); AInt (zlen val)].

(** The loop over the entries. *)
Fixpoint dump_entries (fuel : nat) (it : Iterator) (idx : Z) : output :=
  match fuel with
  | O => ([], Panic)
  | S fuel =>
      if negb (Valid it) then
        ([], match IterErr it with Some err => throw (Errorf "iterator error" err) | None => Ok tt end)
      else
        match Key it, Value it, Next it with
        | Ok key, Ok val, Ok next => print [entry_line idx key (default [] val)] (dump_entries fuel next (idx + 1))
        | _, _, _ => ([], Panic)
        end
  end.

(** The loop over the blocks, [count] of which are left, and what comes after. *)
Fixpoint dump_blocks (count i : nat) (r : Reader) (rest : output) : output :=
  match count with
  | O => rest
  | S count =>
      match BlockInfo i r with
      | Ok (lastKey, offset, size) =>
          print [Printf "  Block %d: offset=%d size=%d last_key=%q seqno=%d\n"
                   [AInt (Z.of_nat i); AInt offset; AInt size; AStr (UserKey lastKey); AInt (Seqno lastKey)]]
            (dump_blocks count (S i) r rest)
      | _ => ([], Panic)
      end
  end.

Definition header_lines (path : bytes) (r : Reader) : list line :=
  [ Printf "SSTable: %s\n" [AStr path];
    Printf "  Version: 1\n" [];
    Printf "  Entries: %d\n" [AInt (EntryCount r)];
    Printf "  Data blocks: %d\n" [AInt (DataBlockCount r)];
    Printf "  Index block: offset=%d size=%d\n" [AInt (IndexOffset r); AInt (IndexSize r)];
    Printf "\nBlocks:\n" [] ].

(** [run] on what [os.Open] returns; [fuel] bounds the entries. *)
Definition run (fuel : nat) (path : bytes) (opened : error + ReadFile) (showEntries : bool) : output :=
  match opened with
  | inl err => ([], throw (Errorf "couldn't open sstable" err))
  | inr file =>
      match OpenReader (Some file) with
      | Panic => ([], Panic)
      | Err err => ([], throw err)
      | Ok reader =>
          print (header_lines path reader)
            (dump_blocks (Z.to_nat (DataBlockCount reader)) 0 reader
               (if showEntries then
                  print [Printf "\nEntries:\n" []]
                    (match SeekToFirst (NewIterator reader) with
                     | Ok it => dump_entries fuel it 0
                     | _ => ([], Panic)
                     end)
                else ([], Ok tt)))
      end
  end.
End sst_dump.

Lemma print_app l1 l2 o : print l1 (print l2 o) = print (l1 ++ l2) o.
Proof. unfold print. cbn. by rewrite app_assoc. Qed.

(** ** What the dumps show *)

(** [reads next r xs e r']: from [r] on, [next] gives the elements of [xs] and then the
    error [e], which leaves the reader [r']. *)
Inductive reads {A} (next : Reader -> res A * Reader) : Reader -> list A -> error -> Reader -> Prop :=
  | reads_end r e r' : next r = (Err e, r') -> reads next r [] e r'
  | reads_one r x r1 xs e r' : next r = (Ok x, r1) -> reads next r1 xs e r' -> reads next r (x :: xs) e r'.

Lemma eof_not_truncated e : errors_Is e io.EOF = true -> errors_Is e record.ErrTruncated = false.
Proof.
  induction e; cbn; rewrite ?orb_true_iff, ?orb_false_iff, ?bool_decide_eq_true, ?bool_decide_eq_false; naive_solver.
Qed.

(** *** Logs *)

(** The lines of the records [ps], numbered from [n], which hold the batches [bs]. *)
Fixpoint batch_lines (decode : bool) (n : Z) (ps : list bytes) (bs : list Batch.Batch) : list line :=
  match ps, bs with
  | p :: ps, b :: bs =>
      Printf "Record %d: %d bytes" [AInt n; AInt (zlen p)] ::
      (if decode then [Printf " (batch: %d operations)" [AInt (zlen (Batch.ops b))]] else []) ++
      Println :: batch_lines decode (n + 1) ps bs
  | _, _ => []
  end.

Definition total_bytes (ps : list bytes) : Z := foldr (fun p n => zlen p + n) 0 ps.

(** The end of the dump of [n] records of [bytes] bytes, the last cut short or not. *)
Definition wal_tail (n bytes : Z) (torn : bool) : list line :=
  if torn then
    [ Printf "Record %d: truncated (incomplete write)\n" [AInt n]; Println;
      Printf "End of WAL (%d complete records, %d incomplete)\n" [AInt n; AInt 1] ]
  else [ Println; Printf "End of WAL (%d records, %d bytes total)\n" [AInt n; AInt bytes] ].

Section WalDump.
Context {Mem : Type} {memtable : Memtable Mem} (decode : bool).

Fixpoint apply_all (bs : list Batch.Batch) (db : DB Mem) : res (DB Mem) :=
  match bs with
  | [] => Ok db
  | b :: bs => db ← applyOperations (Batch.ops b) db; apply_all bs db
  end.

(** What a replay does to the file when reading ends with [e] at [r]: a torn record is
    cut off. *)
Definition tail_cut (path : bytes) (e : error) (r : Reader) (w w' : World) : Prop :=
  if errors_Is e record.ErrTruncated then os_Truncate path (Wal.ValidOffset (Some r)) w = Some (None, w')
  else errors_Is e io.EOF = true /\ w' = w.

Lemma dump_records_replay fuel reader path (db db' : DB Mem) w w' n total :
  replay_wal_loop fuel reader path db w = Some ((db', None), w') ->
  exists ps bs e r, reads Wal.Next reader ps e r /\ Forall2 (fun p b => Batch.DecodeBatch p = Ok b) ps bs /\
    apply_all bs db = Ok db' /\ tail_cut path e r w w' /\
    wal_dump.dump_records decode fuel reader n total =
      (batch_lines decode n ps bs ++ wal_tail (n + zlen ps) (total + total_bytes ps) (errors_Is e record.ErrTruncated), Ok tt).
Proof using.
  revert reader db w n total. induction fuel as [|fuel IH]; intros reader db w n total; [done|].
  cbn [replay_wal_loop wal_dump.dump_records]. destruct (Wal.Next reader) as [[payload|err|] reader'] eqn:En; [..|done].
  - unfold wal_dump.record_line, wal_dump.batch_note, call, mbind at 1, io_bind.
    destruct (Batch.DecodeBatch payload) as [batch|err|] eqn:Ed; cbn; [|done|done].
    destruct (applyOperations (Batch.ops batch) db) as [db1|e|] eqn:Ea; cbn; [|done|done]. intros H.
    destruct (IH reader' db1 w (n + 1) (total + zlen payload) H) as (ps & bs & e & r & Hr & Hd & Hall & Ht & E).
    exists (payload :: ps), (batch :: bs), e, r. split; [by eapply reads_one|]. split; [by constructor|].
    split; [by cbn; rewrite Ea|]. split; [done|].
    replace (n + zlen (payload :: ps)) with (n + 1 + zlen ps) by (unfold zlen; cbn [length]; lia).
    replace (total + total_bytes (payload :: ps)) with (total + zlen payload + total_bytes ps)
      by (unfold total_bytes; cbn [foldr]; lia).
    rewrite E. by destruct decode.
  - intros H. exists [], [], err, reader'. split; [by apply reads_end|]. split; [constructor|].
    unfold tail_cut, zlen, total_bytes. cbn [foldr length batch_lines app]. rewrite !Z.add_0_r.
    destruct (errors_Is err io.EOF) eqn:Eeof; [rewrite (eof_not_truncated err Eeof); by injection H as <- <-|].
    destruct (errors_Is err record.ErrTruncated); [|done].
    unfold mbind, io_bind in H. destruct (os_Truncate _ _ w) as [[terr w1]|]; [|done]. injection H as <- Ht <-.
    by destruct terr.
Qed.

(** C18: [wal_dump] shows what recovery replays.  Whenever the replay of a
    WAL succeeds, the dump of the same file ends without an error and lists, in order,
    exactly the records the reader gives, each with its length and, with [-decode], the
    number of operations of its batch; these batches are those the replay applies.  It
    ends with a torn record if and only if the replay cuts one off the file, and with the
    right totals. *)
Theorem wal_dump_matches_recovery reader path (db db' : DB Mem) w w' :
  replay_wal_loop (drain_fuel reader) reader path db w = Some ((db', None), w') ->
  exists ps bs e r, reads Wal.Next reader ps e r /\ Forall2 (fun p b => Batch.DecodeBatch p = Ok b) ps bs /\
    apply_all bs db = Ok db' /\ tail_cut path e r w w' /\
    wal_dump.dump_records decode (drain_fuel reader) reader 0 0 =
      (batch_lines decode 0 ps bs ++ wal_tail (zlen ps) (total_bytes ps) (errors_Is e record.ErrTruncated), Ok tt).
Proof using. apply (dump_records_replay (drain_fuel reader) reader path db db' w w' 0 0). Qed.
End WalDump.

(** *** Manifests, read back

    What a reader of a manifest dump makes of it, line by line: the edits, by the
    formats and arguments of the lines between two headings; the notes of a torn edit; and the
    levels of the version. *)

(** A key as it is shown ends with its sequence number and kind, each after a slash. *)
Fixpoint cut_slash (s : bytes) : bytes * bytes :=
  match s with
  | [] => ([], [])
  | b :: s => if bool_decide (b = x2f) then ([], s) else let '(before, after) := cut_slash s in (b :: before, after)
  end.

Definition shown_key (s : bytes) : InternalKey :=
  let '(kind, rest) := cut_slash (reverse s) in
  let '(seqno, user) := cut_slash rest in
  mkInternalKey (reverse user) (decimal_value (reverse seqno))
    (if bool_decide (reverse kind = bytes_of_string "Delete") then InternalKeyKindDelete else InternalKeyKindPut).

Definition has_format (l : line) (f : string) : bool := String.eqb (format l) f.

(** The lines below a heading, read from the last one up, make the edit [e]; a heading
    ends it. *)
Definition read_edit_line (l : line) (acc : VersionEdit * list (Z * VersionEdit)) : VersionEdit * list (Z * VersionEdit) :=
  let '(e, es) := acc in
  match args l with
  | [AInt n] =>
      if has_format l "Edit #%d:\n" then (zeroEdit, (n, e) :: es)
      else if has_format l "  next_file_id:  %d\n" then (set_NextFileID n e, es)
      else if has_format l "  last_sequence: %d\n" then (set_LastSequence n e, es)
      else if has_format l "  log_number:    %d\n" then (set_LogNumber n e, es)
      else acc
  | [AInt level; AInt id; AInt size; AStr smallest; AStr largest] =>
      if has_format l "  add_file:    level=%d id=%d size=%d smallest=%q largest=%q\n" then
        (mkVersionEdit (mkFileMetadata level id size (shown_key smallest) (shown_key largest) :: AddedFiles e) (DeletedFiles e)
           (HasNextFileID e) (NextFileID e) (HasLastSequence e) (LastSequence e) (HasLogNumber e) (LogNumber e), es)
      else acc
  | [AInt level; AInt id] =>
      if has_format l "  delete_file: level=%d id=%d\n" then
        (mkVersionEdit (AddedFiles e) (mkDeletedFile level id :: DeletedFiles e)
           (HasNextFileID e) (NextFileID e) (HasLastSequence e) (LastSequence e) (HasLogNumber e) (LogNumber e), es)
      else acc
  | _ => acc
  end.

Definition edits_shown (ls : list line) : list (Z * VersionEdit) := (foldr read_edit_line (zeroEdit, []) ls).2.

Definition torn_shown (ls : list line) : list Z :=
  omap (fun l => match args l with
    | [AInt n] => if has_format l "Edit #%d: incomplete trailing record (crash mid-append, recoverable)\n\n" then Some n else None
    | _ => None
    end) ls.

(** A file of a level: its ID, its first and last user key, its size. *)
Definition file_shown : Type := Z * bytes * bytes * Z.

(** Likewise the lines of files below the heading of a level. *)
Definition read_level_line (l : line) (acc : list file_shown * list (Z * Z * Z * list file_shown))
    : list file_shown * list (Z * Z * Z * list file_shown) :=
  let '(fs, levels) := acc in
  match args l with
  | [AInt id; AStr smallest; AStr largest; AInt size] =>
      if has_format l "    [%d] %s..%s (%d bytes)\n" then ((id, smallest, largest, size) :: fs, levels) else acc
  | [AInt level; AInt count; AInt total] =>
      if has_format l "  Level %d: %d files (%d bytes total)\n" then ([], (level, count, total, fs) :: levels) else acc
  | _ => acc
  end.

Definition levels_shown (ls : list line) : list (Z * Z * Z * list file_shown) := (foldr read_level_line ([], []) ls).2.

(** The levels of a version that hold files, as they are to be shown. *)
Definition levels_of (v : Version) : list (Z * Z * Z * list file_shown) :=
  omap (fun level => match Files (Z.of_nat level) v with
    | [] => None
    | fs => Some (Z.of_nat level, zlen fs, u64 (foldr (fun f n => Size f + n) 0 fs),
        (fun f => (FileID f, UserKey (SmallestKey f), UserKey (LargestKey f), Size f)) <$> fs)
    end) (seq 0 (NumLevels v)).

(** **** What is printed reads back *)
Lemma cut_slash_app a r : x2f ∉ a -> cut_slash (a ++ x2f :: r) = (a, r).
Proof.
  induction a as [|b a IH]; [done|]. intros [Hb Ha]%not_elem_of_cons. cbn [app cut_slash].
  rewrite bool_decide_false by congruence. by rewrite (IH Ha).
Qed.

Lemma shown_formatInternalKey k : wf_key k -> shown_key (manifest_dump.formatInternalKey k) = k.
Proof.
  intros [Hs Hk]. unfold shown_key, manifest_dump.formatInternalKey, manifest_dump.slash.
  change (bytes_of_string "/") with [x2f]. set (kind := bytes_of_string _).
  destruct (decimal_digits (Seqno k) Hs) as [Hd Hv].
  rewrite !reverse_app, <-!app_assoc. change (reverse [x2f]) with [x2f]. cbn [app].
  rewrite cut_slash_app; [|rewrite elem_of_reverse; unfold kind; case_bool_decide; by apply (bool_decide_unpack _)].
  rewrite cut_slash_app; [|rewrite elem_of_reverse; intros Hin%list_elem_of_In; eapply forallb_forall in Hd; [|exact Hin]; done].
  rewrite !reverse_involutive, Hv. unfold kind, isValidInternalKeyKind in *. destruct k as [u n kd]. cbn [UserKey Seqno Kind] in *.
  f_equal. apply orb_true_iff in Hk as [->%bool_decide_eq_true| ->%bool_decide_eq_true]; reflexivity.
Qed.

Lemma read_added es0 fs e :
  Forall (fun f => wf_key (SmallestKey f) /\ wf_key (LargestKey f)) fs ->
  foldr read_edit_line (e, es0) (manifest_dump.added_line <$> fs) =
    (mkVersionEdit (fs ++ AddedFiles e) (DeletedFiles e) (HasNextFileID e) (NextFileID e) (HasLastSequence e) (LastSequence e)
       (HasLogNumber e) (LogNumber e), es0).
Proof.
  induction 1 as [|f fs [H1 H2] _ IH]; [by destruct e|]. rewrite fmap_cons. cbn [foldr]. rewrite IH.
  unfold manifest_dump.added_line. cbn -[shown_key manifest_dump.formatInternalKey].
  rewrite !shown_formatInternalKey by done. by destruct f.
Qed.

Lemma read_deleted es0 ds e :
  foldr read_edit_line (e, es0) (manifest_dump.deleted_line <$> ds) =
    (mkVersionEdit (AddedFiles e) (ds ++ DeletedFiles e) (HasNextFileID e) (NextFileID e) (HasLastSequence e) (LastSequence e)
       (HasLogNumber e) (LogNumber e), es0).
Proof. induction ds as [|[] ds IH]; [by destruct e|]. rewrite fmap_cons. cbn [foldr]. by rewrite IH. Qed.

Lemma wf_added_keys e : wf_edit e -> Forall (fun f => wf_key (SmallestKey f) /\ wf_key (LargestKey f)) (AddedFiles e).
Proof.
  intros [H _]. unfold Edit.items_of in H. rewrite !Forall_app in H. destruct H as (_ & _ & _ & _ & H).
  rewrite Forall_fmap in H. eapply Forall_impl; [exact H|]. intros f (_ & _ & _ & [] & []). done.
Qed.

Lemma read_printEdit n e es0 :
  wf_edit e -> foldr read_edit_line (zeroEdit, es0) (manifest_dump.printEdit n e) = (zeroEdit, (n, e) :: es0).
Proof.
  intros Hwf. pose proof (wf_added_keys e Hwf) as Hk. destruct Hwf as (_ & H1 & H2 & H3).
  unfold manifest_dump.printEdit. rewrite foldr_cons, !foldr_app, read_deleted, read_added by done.
  destruct e as [fs ds h1 v1 h2 v2 h3 v3]. cbn in *. rewrite !app_nil_r.
  destruct h1, h2, h3; cbn; rewrite ?H1, ?H2, ?H3 by done; reflexivity.
Qed.

Fixpoint edit_lines (n : Z) (es : list VersionEdit) : list line :=
  match es with [] => [] | e :: es => manifest_dump.printEdit n e ++ edit_lines (n + 1) es end.

(** The elements of a list with their numbers from [n] on. *)
Fixpoint numbered {A} (n : Z) (l : list A) : list (Z * A) :=
  match l with [] => [] | x :: l => (n, x) :: numbered (n + 1) l end.

Definition torn_note (n : Z) : line :=
  Printf "Edit #%d: incomplete trailing record (crash mid-append, recoverable)\n\n" [AInt n].

(** Lines of which no edit, no torn edit, and no level is read. *)
Definition no_edit (l : line) : Prop := forall acc, read_edit_line l acc = acc.
Definition no_torn (l : line) : Prop := torn_shown [l] = [].
Definition no_level (l : line) : Prop := forall acc, read_level_line l acc = acc.

Lemma read_no_edit ls acc : Forall no_edit ls -> foldr read_edit_line acc ls = acc.
Proof. induction 1 as [|l ls H _ IH]; [done|]. cbn. by rewrite IH, H. Qed.

Lemma torn_app ls ls' : torn_shown (ls ++ ls') = torn_shown ls ++ torn_shown ls'.
Proof. apply omap_app. Qed.

Lemma torn_none ls : Forall no_torn ls -> torn_shown ls = [].
Proof.
  induction 1 as [|l ls H _ IH]; [done|]. change (l :: ls) with ([l] ++ ls). by rewrite torn_app, H, IH.
Qed.
Lemma torn_edits n es : torn_shown (edit_lines n es) = [].
Proof.
  revert n. induction es as [|e es IH]; intros n; [done|]. cbn [edit_lines]. rewrite torn_app, IH, app_nil_r.
  apply torn_none. unfold manifest_dump.printEdit. constructor; [done|]. rewrite !Forall_app, !Forall_fmap.
  split_and!; [destruct (HasNextFileID e)|destruct (HasLastSequence e)|destruct (HasLogNumber e)|..];
    first [apply Forall_true; by intros []|repeat constructor].
Qed.

Lemma read_edits n es ls :
  Forall wf_edit es -> Forall no_edit ls -> foldr read_edit_line (zeroEdit, []) (edit_lines n es ++ ls) = (zeroEdit, numbered n es).
Proof.
  intros Hwf Hl. revert n. induction Hwf as [|e es He _ IH]; intros n; cbn [edit_lines app numbered]; [by apply read_no_edit|].
  rewrite <-app_assoc, foldr_app, IH. by apply read_printEdit.
Qed.

Lemma printVersion_no_edit v : Forall (fun l => no_edit l /\ no_torn l) (manifest_dump.printVersion v).
Proof.
  unfold manifest_dump.printVersion. constructor; [by split; [intros []|]|]. case_match.
  { constructor; [by split; [intros []|]|constructor]. }
  apply Forall_join, Forall_fmap, Forall_true. intros level. cbn. unfold manifest_dump.print_level. case_match; [constructor|].
  constructor; [by split; [intros []|]|]. apply Forall_fmap, Forall_true. intros f. by split; [intros []|].
Qed.

(** *** The levels *)
Lemma sum_sizes fs total :
  foldl (fun total f => u64 (total + Size f)) (u64 total) fs = u64 (total + foldr (fun f n => Size f + n) 0 fs).
Proof.
  revert total. induction fs as [|f fs IH]; intros total; cbn [foldl foldr]; [by rewrite Z.add_0_r|].
  replace (u64 (u64 total + Size f)) with (u64 (total + Size f)) by (unfold u64; by rewrite Zplus_mod_idemp_l).
  rewrite IH. f_equal. lia.
Qed.

Lemma total_size fs : foldl (fun total f => u64 (total + Size f)) 0 fs = u64 (foldr (fun f n => Size f + n) 0 fs).
Proof. exact (sum_sizes fs 0). Qed.

Lemma read_level_files (levels : list (Z * Z * Z * list file_shown)) (fs : list FileMetadata) :
  foldr read_level_line ([], levels) ((fun f => Printf "    [%d] %s..%s (%d bytes)\n"
       [AInt (FileID f); AStr (UserKey (SmallestKey f)); AStr (UserKey (LargestKey f)); AInt (Size f)]) <$> fs) =
    ((fun f => (FileID f, UserKey (SmallestKey f), UserKey (LargestKey f), Size f)) <$> fs, levels).
Proof. induction fs as [|f fs IH]; [done|]. rewrite !fmap_cons. cbn [foldr]. by rewrite IH. Qed.

Lemma read_printVersion v : foldr read_level_line ([], []) (manifest_dump.printVersion v) = ([], levels_of v).
Proof.
  unfold manifest_dump.printVersion, levels_of. destruct (Nat.eqb_spec (NumLevels v) 0) as [->|_]; [done|]. cbn [foldr].
  transitivity (foldr read_level_line ([], []) (mjoin (manifest_dump.print_level v <$> seq 0 (NumLevels v))));
    [by destruct (foldr _ _ _)|].
  generalize (seq 0 (NumLevels v)) as ls. induction ls as [|level ls IH]; [done|]. rewrite fmap_cons. cbn [mjoin list_join omap list_omap].
  rewrite foldr_app. etrans; [exact (f_equal (fun a => foldr read_level_line a (manifest_dump.print_level v level)) IH)|].
  unfold manifest_dump.print_level. destruct (Files (Z.of_nat level) v) as [|f fs]; [done|]. cbn [length Nat.eqb].
  by rewrite foldr_cons, read_level_files, total_size.
Qed.

Lemma read_no_level ls acc : Forall no_level ls -> foldr read_level_line acc ls = acc.
Proof. induction 1 as [|l ls H _ IH]; [done|]. cbn. by rewrite IH. Qed.

Lemma edit_lines_no_level n es : Forall no_level (edit_lines n es).
Proof.
  revert n. induction es as [|e es IH]; intros n; [constructor|]. cbn [edit_lines]. apply Forall_app. split; [|apply IH].
  unfold manifest_dump.printEdit. constructor; [by intros []|]. rewrite !Forall_app, !Forall_fmap.
  split_and!; [destruct (HasNextFileID e)|destruct (HasLastSequence e)|destruct (HasLogNumber e)|..];
    first [apply Forall_true; by intros ? []|repeat constructor; by intros []].
Qed.

(** *** The dump and the replay *)
Section ManifestDump.
Context {slices : Slices}.

Definition duplicate_file : error := ErrorText "beachdb: manifest: duplicate AddFile for fileID".
Definition no_next_file_id : error := ErrorText "beachdb: manifest has no NextFileID counter".

Lemma add_live_outcome fms live :
  (exists live', Replay.add_live fms live = Ok live') \/ Replay.add_live fms live = throw duplicate_file.
Proof using.
  revert live. induction fms as [|fm fms IH]; intros live; cbn [Replay.add_live]; [left; by eexists|].
  case_bool_decide; [by right|apply IH].
Qed.

Lemma apply_edit_outcome e st :
  (exists st', Replay.applyEditToReplay e st = Ok st' /\
     Replay.version (Replay.rs_res st') = Apply (Replay.version (Replay.rs_res st)) e) \/
  Replay.applyEditToReplay e st = throw duplicate_file.
Proof using.
  unfold Replay.applyEditToReplay. destruct (add_live_outcome (AddedFiles e) (Replay.liveFiles st)) as [[live ->]| ->];
    [left; by eexists|by right].
Qed.

Lemma NextEdit_wf reader edit reader' : NextEdit reader = (Ok edit, reader') -> wf_edit edit.
Proof using.
  unfold NextEdit. destruct (Next reader) as [[payload|e|] r1]; [|done..]. intros [= E _]. by apply DecodeVersionEdit_sound in E as [? _].
Qed.

(** The edits between [reader] and the end of the stream, and what a replay makes of
    them. *)
Definition replayed_edits (reader : Reader) (st : Replay.replayState) (r : Replay.manifestReplayResult) (es : list VersionEdit) : Prop :=
  exists e reader' st', reads NextEdit reader es e reader' /\ Replay.fold_edits es st = Ok st' /\
    Replay.end_replay (errors_Is e record.ErrTruncated) reader' st' = Ok r.

Lemma dump_edits_replay fuel reader n st :
  let dump := manifest_dump.dump_edits fuel reader n (Replay.version (Replay.rs_res st)) in
  match (Replay.replay_loop fuel reader st).1 with
  | Ok r => exists es, replayed_edits reader st r es /\ Forall wf_edit es /\
      dump = (edit_lines n es ++ (if Replay.tailTrimmed r then [torn_note (n + zlen es)] else []) ++
        manifest_dump.printVersion (Replay.version r), Ok tt)
  | Err e => dump.2 = Ok tt -> e = duplicate_file \/ e = no_next_file_id
  | Panic => dump.2 = Panic
  end.
Proof using.
  cbv zeta. revert reader n st. induction fuel as [|fuel IH]; intros reader n st; [done|].
  cbn [Replay.replay_loop manifest_dump.dump_edits]. destruct (NextEdit reader) as [[edit|err|] reader'] eqn:En; [..|done].
  - destruct (apply_edit_outcome edit st) as [(st' & Ea & <-)| ->]; [|by intros _; left]. rewrite Ea.
    specialize (IH reader' (n + 1) st'). destruct (Replay.replay_loop fuel reader' st').1 as [r|e|]; [|exact IH..].
    destruct IH as (es & (e & r2 & st2 & Hr & Hf & He) & Hwf & ->). exists (edit :: es).
    split; [exists e, r2, st2; split_and!; [by eapply reads_one|cbn; by rewrite Ea|done]|].
    split; [constructor; [|done]; by eapply NextEdit_wf|].
    replace (n + zlen (edit :: es)) with (n + 1 + zlen es) by (unfold zlen; cbn [length]; lia).
    unfold print. cbn [fst snd edit_lines]. by rewrite <-app_assoc.
  - pose proof (reads_end NextEdit reader err reader' En) as Hend.
    destruct (errors_Is err io.EOF) eqn:Eeof; [pose proof (eof_not_truncated err Eeof) as Et|
      destruct (errors_Is err record.ErrTruncated) eqn:Et]; rewrite ?Et; cbn [orb fst]; [..|done];
      (destruct (Replay.end_replay _ reader' st) as [r|e|] eqn:Er;
       [|unfold Replay.end_replay in Er; destruct (Replay.sawNextFileID st); [done|]; injection Er as <-; intros _; by right|
         unfold Replay.end_replay in Er; by destruct (Replay.sawNextFileID st)]);
      exists []; (split; [exists err, reader', st; by rewrite Et|]); (split; [constructor|]);
      unfold Replay.end_replay in Er; destruct (Replay.sawNextFileID st); simplify_eq; cbn; [done|].
    unfold zlen. cbn [length]. by rewrite Z.add_0_r.
Qed.

(** C17: [manifest_dump] shows what recovery replays.  Whenever the replay of
    a MANIFEST succeeds, the dump of the same file ends without an error, and what it
    prints can be read back: line by line it gives, numbered from 0, exactly the edits
    the reader delivers, which are those the replay folds into its result, with every
    counter, file, key and deletion; a torn edit if and only if the replay trims one,
    with the number it would have had; and the levels of the version recovered, with the
    files of each and their number and total size.  If the dump ends without an error
    and the replay does not, a file was added twice or no edit carried a NextFileID. *)
Theorem manifest_dump_matches_recovery reader :
  let dump := manifest_dump.dump_reader reader in
  match (Replay.replayManifestStream reader).1 with
  | Ok r => exists es, replayed_edits reader Replay.init_replay r es /\ dump.2 = Ok tt /\
      edits_shown dump.1 = numbered 0 es /\
      torn_shown dump.1 = (if Replay.tailTrimmed r then [zlen es] else []) /\
      levels_shown dump.1 = levels_of (Replay.version r)
  | Err e => dump.2 = Ok tt -> e = duplicate_file \/ e = no_next_file_id
  | Panic => dump.2 = Panic
  end.
Proof using.
  cbv zeta. pose proof (dump_edits_replay (drain_fuel reader) reader 0 Replay.init_replay) as H. cbv zeta in H.
  unfold Replay.replayManifestStream, manifest_dump.dump_reader.
  change (NewVersion 0) with (Replay.version (Replay.rs_res Replay.init_replay)).
  destruct (Replay.replay_loop _ _ _).1 as [r|e|]; [|exact H..]. destruct H as (es & Hr & Hwf & ->). exists es.
  split; [done|]. split; [done|]. cbn [fst]. set (note := if Replay.tailTrimmed r then _ else _).
  pose proof (printVersion_no_edit (Replay.version r)) as Hv. apply Forall_and in Hv as [Hv1 Hv2]. split_and!.
  - unfold edits_shown. rewrite read_edits; [done|done|]. apply Forall_app. split; [|done].
    unfold note. case_match; [|constructor]. constructor; [by intros []|constructor].
  - rewrite !torn_app, torn_edits, (torn_none _ Hv2), app_nil_r. unfold note. by case_match.
  - unfold levels_shown. rewrite !foldr_app, read_printVersion. unfold note.
    rewrite (read_no_level note); [by rewrite (read_no_level _ _ (edit_lines_no_level 0 es))|].
    unfold note. case_match; [|constructor]. constructor; [by intros []|constructor].
Qed.
End ManifestDump.

(** *** Tables *)
Section TableDump.
Import SstReader SstWriter.

Fixpoint entry_lines (n : Z) (es : list entry) : list line :=
  match es with [] => [] | e :: es => sst_dump.entry_line n e.1 e.2 :: entry_lines (n + 1) es end.

Lemma read_loop_prefix fuel it acc es it' : read_loop fuel it acc = Ok (es, it') -> acc `prefix_of` es.
Proof using.
  revert it acc. induction fuel as [|fuel IH]; intros it acc; cbn [read_loop]; [done|].
  destruct (Valid it); [|by intros [= <- _]].
  destruct (Key it) as [k| |]; cbn; [|done..]. destruct (Value it) as [v| |]; cbn; [|done..].
  destruct (Next it) as [it1| |]; cbn; [|done..]. intros [l ->]%IH. exists ((k, default [] v) :: l). by rewrite <-app_assoc.
Qed.

(** The entries printed are those a reading loop returns. *)
Lemma dump_entries_read fuel it acc n es it' :
  read_loop fuel it acc = Ok (acc ++ es, it') -> IterErr it' = None -> sst_dump.dump_entries fuel it n = (entry_lines n es, Ok tt).
Proof using.
  intros H He. revert it acc n es H. induction fuel as [|fuel IH]; intros it acc n es; cbn [read_loop sst_dump.dump_entries]; [done|].
  destruct (Valid it); cbn [negb].
  - destruct (Key it) as [k| |]; cbn; [|done..]. destruct (Value it) as [v| |]; cbn; [|done..].
    destruct (Next it) as [it1| |]; cbn; [|done..]. intros H. pose proof (read_loop_prefix _ _ _ _ _ H) as [l El].
    rewrite <-app_assoc in El. apply app_inv_head in El as ->. change ((k, default [] v) :: l) with ([(k, default [] v)] ++ l) in H.
    rewrite app_assoc in H. by rewrite (IH _ _ (n + 1) _ H).
  - intros [= E <-]. rewrite <-(app_nil_r acc) in E at 1. apply app_inv_head in E as <-. by rewrite He.
Qed.

Lemma dump_blocks_ok count i r rest :
  (i + count <= length (r_index r))%nat -> exists ls, length ls = count /\ sst_dump.dump_blocks count i r rest = print ls rest.
Proof using.
  revert i. induction count as [|count IH]; intros i H; cbn [sst_dump.dump_blocks]; [exists []; by destruct rest|].
  destruct (IH (S i) ltac:(lia)) as (ls & Hl & ->). unfold BlockInfo, index.
  destruct (lookup_lt_is_Some_2 (r_index r) i ltac:(lia)) as [e ->]. cbn [mbind result_bind].
  eexists (_ :: ls). split; [cbn; by rewrite Hl|]. unfold print. reflexivity.
Qed.

Lemma length_index_for off bl : length (index_for off bl) = length bl.
Proof using. revert off. induction bl as [|b bl IH]; intros off; cbn [index_for length]; [done|by rewrite IH]. Qed.

(** [sst_dump -entries] lists the table.  Of a table written from the
    entries [es], in any file below 4 GiB, it prints the number of entries and of
    blocks, one line per block, and every entry, in order and numbered, and ends
    without an error. *)
Theorem sst_dump_lists_table (opts : list WriterOption) (es : list entry) (f : File) path :
  f_content f = [] -> faultless f -> 0 < blockSize (applyOptions opts) ->
  strict_entries es -> Forall (fun e => wf_key e.1) es ->
  exists w f', write_table opts es f = Ok (w, f', None) /\
    forall rf, rf_data rf = f_content f' -> good rf -> zlen (f_content f') < 2 ^ 32 ->
    exists r blocks, OpenReader (Some rf) = Ok r /\ EntryCount r = zlen es /\ zlen blocks = DataBlockCount r /\
      sst_dump.run (S (length es)) path (inr rf) true =
        (sst_dump.header_lines path r ++ blocks ++ [Printf "\nEntries:\n" []] ++ entry_lines 0 es, Ok tt).
Proof using.
  intros Hc Hf Hb Hs Hk. destruct (table_written opts es f Hc Hf Hb Hs Hk) as (w & f' & bl & E & Ej & Hne & Ec & Hfit).
  exists w, f'. split; [done|]. intros rf Hrf Hg Hsz. specialize (Hfit Hsz). rewrite Ec in Hrf.
  set (r := table_reader rf bl). assert (0 <= DataBlockCount r <= zlen bl) as Hcount.
  { unfold DataBlockCount. cbn. unfold u32. pose proof (zlen_nonneg bl). split; [apply Z.mod_pos_bound; lia|apply Z.mod_le; lia]. }
  destruct (SeekToFirst_at rf bl Hg Hrf Hne Hfit) as (it & Eit & Hit). rewrite Ej in Hit.
  destruct (read_loop_at rf bl Hg Hrf Hne Hfit it es (S (length es)) [] Hit) as (it' & Er & Hv & He); [lia|].
  destruct (dump_blocks_ok (Z.to_nat (DataBlockCount r)) 0 r
    (print [Printf "\nEntries:\n" []] (entry_lines 0 es, Ok tt))) as (ls & Hl & Els).
  { unfold r. cbn [r_index table_reader]. rewrite length_index_for. unfold zlen in Hcount. fold r. lia. }
  exists r, ls. split; [by apply OpenReader_table|]. split; [rewrite <-Ej; apply EntryCount_table; by rewrite <-Ec|].
  split; [unfold zlen; rewrite Hl; lia|].
  unfold sst_dump.run. rewrite (OpenReader_table rf bl) by done. fold r in Eit |- *. rewrite Eit.
  rewrite (dump_entries_read (S (length es)) it [] 0 es it') by done. rewrite Els. unfold print. cbn [fst snd]. done.
Qed.
End TableDump.

Lemma sst_dump_lists_table_witness :
  exists w f', SstWriter.write_table [SstWriter.WithBlockSize 30; SstWriter.WithSync false] SstReader.sst_entries (mkFile [] 0 []) = Ok (w, f', None) /\
    forall rf, SstReader.rf_data rf = f_content f' -> SstReader.good rf -> zlen (f_content f') < 2 ^ 32 ->
    exists r blocks, SstReader.OpenReader (Some rf) = Ok r /\ SstReader.EntryCount r = zlen SstReader.sst_entries /\
      zlen blocks = SstReader.DataBlockCount r /\
      sst_dump.run 4 [x74] (inr rf) true =
        (sst_dump.header_lines [x74] r ++ blocks ++ [Printf "\nEntries:\n" []] ++ entry_lines 0 SstReader.sst_entries, Ok tt).
Proof.
  apply (sst_dump_lists_table [SstWriter.WithBlockSize 30; SstWriter.WithSync false] SstReader.sst_entries (mkFile [] 0 []) [x74]).
  - reflexivity.
  - constructor.
  - cbn. lia.
  - repeat constructor; vm_compute; reflexivity.
  - repeat constructor; vm_compute; (reflexivity || discriminate).
Defined.
