(* ===== verification/Boot.v ===== *)
(** * Setting up a database directory

    [bootstrapFreshManifest]: whatever call fails and wherever a crash hits, the
    directory stays one from which the database can be set up, or is set up. *)
From Stdlib Require Import QArith_base.
From S2P Require Import Prelude.
From S2P Require Import Errors.
From S2P Require Import Keys.
From S2P Require Import GoIO.
From S2P Require Import GoSort.
From S2P Require Import Record.
From S2P Require Import RecordIO.
From S2P Require Import Fs.
From S2P Require Wal.
From S2P Require Import Memtable.
From S2P Require SstReader.
From S2P Require Import Edit.
From S2P Require Import Version.
From S2P Require Import Current.
From S2P Require Import Manifest.
From S2P Require Import FileNames.
From S2P Require Import Engine.
From S2P Require Import EngineRun.
From S2P Require Import Disk.
From S2P Require Import DiskRun.
From S2P Require Import Live.
From S2P Require Import Recovery.

Local Open Scope Z_scope.

(** ** Numbers of MANIFESTs *)
Lemma max_manifest_id_le names N :
  0 <= N -> (forall nm, nm ∈ names -> max_manifest_id [nm] <= N) -> max_manifest_id names <= N.
Proof.
  intros HN H. unfold max_manifest_id. revert HN. generalize 0 as m. induction names as [|nm names IH]; intros m Hm; cbn [foldl]; [done|].
  assert (max_manifest_id [nm] <= N) as H1 by (apply H; by left).
  apply IH; [intros nm' Hin; apply H; by right|]. unfold max_manifest_id in H1. cbn [foldl] in H1.
  destruct (negb _); [done|]. destruct (ParseUint _) as [i|]; [|done].
  destruct (Z.ltb_spec m i); [|done]. destruct (Z.ltb_spec 0 i); lia.
Qed.

Lemma max_manifest_id_mname id : is_u64 id -> max_manifest_id [mname id] = id.
Proof.
  intros Hu. unfold max_manifest_id, mname. cbn [foldl].
  replace (HasPrefix (buildManifestFileName id) manifestFilePrefix) with true
    by (symmetry; unfold HasPrefix; apply bool_decide_true; by eexists).
  cbn [negb]. unfold buildManifestFileName. rewrite TrimPrefix_app, ParseUint_zero_padded by done.
  unfold is_u64 in Hu. destruct (Z.ltb_spec 0 id); lia.
Qed.

(** ** The name in CURRENT *)
Lemma mname_digits id :
  is_u64 id -> mname id = manifestFilePrefix ++ zero_padded 6 id /\ zero_padded 6 id <> [] /\
    Forall (fun b => is_digit b = true) (zero_padded 6 id).
Proof.
  intros Hu. split; [done|]. split.
  - unfold zero_padded. intros E. apply app_nil in E as [_ E]. by apply decimal_nonempty in E.
  - pose proof (zero_padded_digits 6 id Hu) as H. apply Forall_forall. intros b Hb.
    apply (proj1 (forallb_forall _ _) H). by apply list_elem_of_In.
Qed.

(** Strings that start with none of the encodings are left alone. *)
Lemma trim_left_head sp n b s :
  Forall (fun e => head e <> None /\ head e <> Some b) sp -> trim_left sp n (b :: s) = b :: s.
Proof.
  intros H. apply trim_left_stop. intros e He Hp. rewrite Forall_forall in H. destruct (H e He) as [H1 H2].
  destruct e as [|c e]; [done|]. apply prefix_cons_inv_1 in Hp as ->. done.
Qed.

Lemma reversed_spaces_heads b :
  is_digit b = true -> Forall (fun e => head e <> None /\ head e <> Some b) (reverse <$> spaces).
Proof.
  intros Hb. assert (Forall (fun e => head e <> None /\ (forall c, head e = Some c -> is_digit c = false)) (reverse <$> spaces)) as H.
  { unfold spaces. cbn. repeat (apply Forall_cons; split; [split; [done|by intros c [= <-]]|]). constructor. }
  eapply Forall_impl; [exact H|]. intros e [H1 H2]. split; [done|]. intros E. specialize (H2 b E). congruence.
Qed.

Lemma TrimSpace_mname id : is_u64 id -> TrimSpace (mname id) = mname id.
Proof.
  intros Hu. destruct (mname_digits id Hu) as (E & Hne & Hd). unfold TrimSpace.
  assert (trim_left spaces (length (mname id)) (mname id) = mname id) as ->.
  { rewrite E at 2. change (manifestFilePrefix ++ ?t) with (x4d :: (drop 1 manifestFilePrefix ++ t)).
    rewrite trim_left_head; [done|]. unfold spaces. repeat (apply Forall_cons; split; [done|]). constructor. }
  destruct (zero_padded 6 id) as [|b ds _] eqn:Ez using rev_ind; [done|].
  rewrite E, app_assoc, reverse_snoc, trim_left_head.
  - by rewrite <-reverse_snoc, reverse_involutive.
  - apply reversed_spaces_heads. apply Forall_app in Hd as [_ Hd]. by apply Forall_cons in Hd as [Hd _].
Qed.

Lemma validate_mname id : is_u64 id -> validateManifestName (mname id) = None.
Proof.
  intros Hu. destruct (mname_digits id Hu) as (E & Hne & Hd). unfold validateManifestName.
  rewrite bool_decide_false by done. rewrite bool_decide_false; [done|].
  rewrite E. intros [Hin|Hin]%elem_of_app.
  - revert Hin. by apply (bool_decide_unpack _).
  - rewrite Forall_forall in Hd. by specialize (Hd _ Hin).
Qed.

Lemma parse_mname id : is_u64 id -> parse_current (Some (mname id ++ [x0a])) = Ok (mname id).
Proof.
  intros Hu. unfold parse_current. rewrite TrimSpace_newline by (done || by apply TrimSpace_mname).
  rewrite bool_decide_false by done. by rewrite validate_mname.
Qed.

(** ** States of the directory *)
Definition entries_ok (N : Z) (d : dirents) : Prop :=
  d !! walFileName = None /\ forall nm, nm ∈ dom d -> max_manifest_id [nm] <= N.

(** Nothing but MANIFESTs, with numbers up to [N], and CURRENT. *)
Record base (N : Z) (s : Fs) : Prop := {
  ba_wf : wf_fs s;
  ba_inj : inj_dirs s;
  ba_dirs d : d ∈ dirs s -> entries_ok N d
}.

Lemma base_blind N : fault_blind (base N).
Proof. intros fl s [Hw Hi Hd]. split; [by apply wf_blind|done|done]. Qed.

Lemma base_set_inode N i f s :
  base N s -> is_Some (inodes s !! i) -> (f_synced f <= length (f_content f))%nat -> base N (set_inode i f s).
Proof. intros [Hw Hi Hd] Hs Hf. split; [by apply wf_set_inode|done|done]. Qed.

Lemma base_create N nm s i s' :
  base N s -> nm <> walFileName -> max_manifest_id [nm] <= N -> create nm s = (i, s') -> base N s'.
Proof.
  intros [Hw Hi Hd] Hne Hm Hc. split; [by eapply wf_create|by eapply inj_create|].
  injection Hc as <- <-. cbn. intros d [->|Hin]%elem_of_cons; [|by apply Hd].
  destruct (Hd (live s) ltac:(by left)) as [H1 H2]. split; [by rewrite lookup_insert_ne|].
  intros nm' Hin. rewrite dom_insert in Hin. apply elem_of_union in Hin as [->%elem_of_singleton|Hin]; [done|by apply H2].
Qed.

Lemma base_set_live N d s :
  base N s -> wf_fs (set_live d s) -> inj_dirs (set_live d s) -> entries_ok N d -> base N (set_live d s).
Proof. intros [_ _ Hd] Hw Hi He. split; [done|done|]. cbn. intros d' [->|Hin]%elem_of_cons; [done|by apply Hd]. Qed.

Lemma base_remove N nm s : base N s -> base N (set_live (delete nm (live s)) s).
Proof.
  intros Hb. pose proof Hb as [Hw Hi Hd]. destruct (Hd (live s) ltac:(by left)) as [H1 H2].
  assert (forall a i, delete nm (live s) !! a = Some i -> live s !! a = Some i) as Hdel
    by (intros a i [_ ?]%lookup_delete_Some; done).
  apply base_set_live; [done| | |].
  - apply wf_set_live; [done|]. intros a i E%Hdel. eapply (wf_dirs s Hw); [by left|done].
  - apply inj_set_live; [done|]. intros a b i Ea%Hdel Eb%Hdel. eapply Hi; [by left|done..].
  - split; [|intros a Ha; apply H2; set_solver].
    destruct (delete nm (live s) !! walFileName) eqn:E; [|done]. apply Hdel in E. congruence.
Qed.

Lemma base_rename N a b s i :
  base N s -> live s !! a = Some i -> b <> walFileName -> max_manifest_id [b] <= N ->
  base N (set_live (<[b := i]> (delete a (live s))) s).
Proof.
  intros Hb Ha Hne Hm. pose proof Hb as [Hw Hi Hd]. destruct (Hd (live s) ltac:(by left)) as [H1 H2].
  assert (forall nm j, <[b := i]> (delete a (live s)) !! nm = Some j ->
    (nm = b /\ j = i) \/ (nm <> a /\ nm <> b /\ live s !! nm = Some j)) as Hlk.
  { intros nm j [[<- <-]|[Hn E]]%lookup_insert_Some; [by left|right].
    apply lookup_delete_Some in E as [? E]. split_and!; congruence. }
  apply base_set_live; [done| | |].
  - apply wf_set_live; [done|]. intros nm j [[-> ->]|(_ & _ & E)]%Hlk; eapply (wf_dirs s Hw); by (left || done).
  - apply inj_set_live; [done|]. intros x y j [[-> ->]|(Hx1 & Hx2 & Ex)]%Hlk [[-> Ej]|(Hy1 & Hy2 & Ey)]%Hlk; try done.
    + destruct Hy1. eapply Hi; [by left|done..].
    + subst j. destruct Hx1. eapply Hi; [by left|done..].
    + eapply Hi; [by left|done..].
  - split.
    + rewrite lookup_insert_ne by done. destruct (delete a (live s) !! walFileName) eqn:E; [|done].
      apply lookup_delete_Some in E as [_ E]. congruence.
    + intros nm Hnm. apply elem_of_dom in Hnm as [j E]. apply Hlk in E as [[-> _]|(_ & _ & E)]; [done|].
      apply H2, elem_of_dom. by eexists.
Qed.

Lemma base_sync N s : base N s -> base N (sync_dirs s).
Proof.
  intros [Hw Hi Hd]. split; [by apply wf_sync|by apply inj_sync|]. intros d [-> Hin]%sync_dirs_dir. by apply Hd.
Qed.

Lemma base_mono N N' s : N <= N' -> base N s -> base N' s.
Proof. intros HN [Hw Hi Hd]. split; [done|done|]. intros d Hin. destruct (Hd d Hin) as [? H]. split; [done|]. intros nm ?. etrans; [by apply H|done]. Qed.

(** No CURRENT yet. *)
Record fresh (N : Z) (s : Fs) : Prop := {
  fr_base : base N s;
  fr_cur d : d ∈ dirs s -> d !! currentFileName = None
}.

Lemma fresh_boot N s : fresh N s -> boot N s.
Proof. intros [[_ _ Hd] Hc] d Hin. destruct (Hd d Hin). split; [done|]. split; [done|]. left. by apply Hc. Qed.

Lemma fresh_safe issued N s : fresh N s -> safe [] issued N s.
Proof. intros Hf. split; [apply Hf|apply Hf|left]. split; [done|by apply fresh_boot]. Qed.

Lemma fresh_blind N : fault_blind (fresh N).
Proof. intros fl s [Hb Hc]. split; [by apply base_blind|done]. Qed.

Lemma fresh_set_inode N i f s :
  fresh N s -> is_Some (inodes s !! i) -> (f_synced f <= length (f_content f))%nat -> fresh N (set_inode i f s).
Proof. intros [Hb Hc] Hs Hf. split; [by apply base_set_inode|done]. Qed.

Lemma fresh_create N nm s i s' :
  fresh N s -> nm <> walFileName -> nm <> currentFileName -> max_manifest_id [nm] <= N -> create nm s = (i, s') -> fresh N s'.
Proof.
  intros [Hb Hc] Hw Hne Hm E. split; [by eapply base_create|]. injection E as <- <-. cbn.
  intros d [->|Hin]%elem_of_cons; [|by apply Hc]. rewrite lookup_insert_ne by done. apply Hc. by left.
Qed.

Lemma fresh_remove N nm s : fresh N s -> fresh N (set_live (delete nm (live s)) s).
Proof.
  intros [Hb Hc]. split; [by apply base_remove|]. cbn. intros d [->|Hin]%elem_of_cons; [|by apply Hc].
  specialize (Hc (live s) ltac:(by left)). destruct (delete nm (live s) !! currentFileName) eqn:E; [|done].
  apply lookup_delete_Some in E as [_ E]. congruence.
Qed.

Lemma fresh_sync N s : fresh N s -> fresh N (sync_dirs s).
Proof. intros [Hb Hc]. split; [by apply base_sync|]. intros d [-> Hin]%sync_dirs_dir. by apply Hc. Qed.

Lemma fresh_mono N N' s : N <= N' -> fresh N s -> fresh N' s.
Proof. intros HN [Hb Hc]. split; [by eapply base_mono|done]. Qed.

(** The MANIFEST [id] is complete, and so is its name. *)
Record laid (N id : Z) (im : nat) (s : Fs) : Prop := {
  la_base : base N s;
  la_pin : pin (mname id) im s;
  la_file : exists f, inodes s !! im = Some f /\ manifest_file [] [] f
}.

Lemma laid_blind N id im : fault_blind (laid N id im).
Proof. intros fl s [Hb Hp Hf]. split; [by apply base_blind|done|done]. Qed.

(** The file of the MANIFEST, synced or closed once more. *)
Lemma laid_set_inode N id im f f' s :
  laid N id im s -> inodes s !! im = Some f -> f_content f' = f_content f ->
  (f_synced f <= f_synced f' <= length (f_content f'))%nat -> laid N id im (set_inode im f' s).
Proof.
  intros [Hb Hp (g & Hg & Hc & Hs)] Hf Ec Hs'. rewrite Hf in Hg. injection Hg as <-. split.
  - apply base_set_inode; [done|by eexists|lia].
  - by apply pin_set_inode.
  - exists f'. split; [apply lookup_set_inode|]. split; [by rewrite Ec|]. lia.
Qed.

Section Boot.
Context {slices : Slices} {slices_laws : SlicesLaws}.
Context (md : mode) (issued : list batch) (N : Z) (N_range : 1 <= N < 2 ^ 63).
Local Abbreviation I := (safe [] issued N).

(** Without CURRENT, or with a CURRENT that names [id]. *)
Definition points (id : Z) (s : Fs) : Prop :=
  holds currentFileName (fun c => c = None \/ c = Some (mname id ++ [x0a])) s.

Lemma cur_file_mname id f :
  is_u64 id -> f_synced f = length (f_content f) -> f_content f = mname id ++ [x0a] -> cur_file (mname id) f.
Proof. intros Hu Hs Hc. split; [done|]. rewrite Hc. by apply parse_mname. Qed.

Lemma laid_boot id im s : is_u64 id -> laid N id im s -> points id s -> boot N s.
Proof using.
  intros Hu [Hb Hp (f & Hf & Hm)] Hc d Hd. destruct (ba_dirs _ _ Hb d Hd) as [H1 H2]. split; [done|]. split; [done|].
  specialize (Hc d Hd). destruct (d !! currentFileName) as [i|] eqn:E; [right|by left].
  destruct Hc as (g & Hg & Hgs & [Hgc|Hgc]); [done|]. injection Hgc as Hgc.
  exists id, i, g. split_and!; [done|done|by apply cur_file_mname|]. right. exists im, f. destruct (Hp d Hd) as [? _]. by split_and!.
Qed.

Lemma laid_safe id im s : is_u64 id -> laid N id im s -> points id s -> I s.
Proof using. intros Hu Hl Hc. split; [apply Hl|apply Hl|left]. split; [done|by eapply laid_boot]. Qed.

(** *** Choosing a number *)
Lemma triple_next_id :
  triple md (fresh (N - 1)) nextAvailableManifestID
    (fun r s => match r with
       | Ok id => (1 <= id <= N /\ live s !! mname id = None) /\ fresh N s
       | Err _ => md <> Calm /\ fresh N s
       | Panic => False end) I.
Proof using N_range.
  unfold nextAvailableManifestID.
  eapply (triple_bind _ _ _ _ (fun r s => match r with
    | Ok names => names ≡ₚ elements (dom (live s)) /\ fresh (N - 1) s
    | Err _ => md <> Calm /\ fresh N s | Panic => False end)).
  - apply triple_syscall; [apply fresh_blind|intros Hmd s Hf; split; [done|by eapply fresh_mono; [|done]; lia]|].
    intros s Hf. split; [split; [apply insertion_sort_perm|done]|]. split; [|done].
    apply fresh_safe. eapply fresh_mono; [|done]. lia.
  - intros [names|e|]; [|by apply triple_ret|by apply triple_false; intros ? []].
    apply triple_ret. intros s [Hn Hf].
    assert (forall x, x ∈ names <-> x ∈ dom (live s)) as Hin by (intros x; by rewrite Hn, elem_of_elements).
    assert (max_manifest_id names <= N - 1) as Hle.
    { apply max_manifest_id_le; [lia|]. intros nm Hnm%Hin.
      by apply (ba_dirs _ _ (fr_base _ _ Hf) (live s) ltac:(by left)). }
    destruct (max_manifest_id_fresh names) as [H0 Hfr]. rewrite u64_id by (unfold is_u64; lia).
    split; [|eapply fresh_mono; [|done]; lia]. split; [lia|].
    destruct (live s !! mname (max_manifest_id names + 1)) eqn:E; [|done]. exfalso.
    eapply (Hfr (max_manifest_id names + 1)); [unfold is_u64; lia|lia|]. apply Hin. by eapply elem_of_dom_2.
Qed.

(** *** Creating the MANIFEST *)
Record laying (id : Z) (im : nat) (F : File -> Prop) (s : Fs) : Prop := {
  ly_fresh : fresh N s;
  ly_pin : pin (mname id) im s;
  ly_file : exists f, inodes s !! im = Some f /\ F f
}.

Lemma mname_N id : 1 <= id <= N -> max_manifest_id [mname id] <= N.
Proof using N_range. intros Hid. rewrite max_manifest_id_mname by (unfold is_u64; lia). lia. Qed.

Lemma laying_set_inode id im F F' f f' s :
  laying id im F s -> inodes s !! im = Some f -> F' f' -> (f_synced f' <= length (f_content f'))%nat ->
  laying id im F' (set_inode im f' s).
Proof using.
  intros [Hf Hp _] Hi HF Hl. split; [by apply fresh_set_inode|by apply pin_set_inode|]. exists f'. by split; [apply lookup_set_inode|].
Qed.

Lemma triple_new_manifest id :
  1 <= id <= N ->
  triple md (fun s => live s !! mname id = None /\ fresh N s) (Manifest.NewWriter (mname id))
    (fun r s => match r with
       | Ok w => exists im, w = mkWriter (Some im) (mname id) /\ laying id im (fun f => f_content f = []) s
       | Err _ => md <> Calm /\ fresh N s
       | Panic => False end) I.
Proof using N_range.
  intros Hid. unfold Manifest.NewWriter.
  eapply (triple_bind _ _ _ _ (fun r s => match r with
    | Ok im => fresh N s /\ live s !! mname id = Some im /\ private (mname id) im s /\
        exists f, inodes s !! im = Some f /\ f_content f = [] /\ f_synced f = 0%nat
    | Err _ => md <> Calm /\ fresh N s | Panic => False end)).
  { apply triple_syscall.
    - intros fl s [Hn Hf]. split; [done|by apply fresh_blind].
    - intros Hmd s [_ Hf]. by split.
    - intros s [Hn Hf]. rewrite Hn. destruct (create (mname id) s) as [i s'] eqn:E.
      assert (fresh N s') as Hf'.
      { eapply fresh_create; [exact Hf|by apply mname_ne_wal|by apply mname_ne_current|by apply mname_N|exact E]. }
      split; [|split; [by apply fresh_safe|intros _; by eapply calm_create]]. split; [done|].
      split; [injection E as <- <-; apply lookup_insert_eq|].
      split; [eapply create_private; [apply Hf|done]|]. injection E as <- <-. eexists. split; [apply lookup_insert_eq|done]. }
  intros [im|e|]; [|by apply triple_ret|by apply triple_false; intros ? []].
  eapply (triple_bind _ _ _ _ (fun r s => match r with
    | Ok _ => laying id im (fun f => f_content f = []) s
    | Err _ => md <> Calm /\ fresh N s /\ is_Some (inodes s !! im) | Panic => False end)).
  { eapply triple_post; [|apply (triple_SyncDir md (fun s => fresh N s /\ live s !! mname id = Some im /\ private (mname id) im s /\
        exists f, inodes s !! im = Some f /\ f_content f = [] /\ f_synced f = 0%nat)
      (laying id im (fun f => f_content f = [])))].
    - intros [u|e|] s H; [done| |done]. destruct H as (Hmd & Hf & _ & _ & f & Hi & _). split_and!; [done|done|by eexists].
    - intros fl s (Hf & Hl & Hp & Hx). split_and!; [by apply fresh_blind|done|done|done].
    - intros s (Hf & _). by apply fresh_safe.
    - intros s (Hf & Hl & Hp & f & Hi & Hc & _). pose proof (fresh_sync _ _ Hf) as Hf'.
      split; [|by apply fresh_safe]. split; [done| |by exists f]. intros d [-> Hd]%sync_dirs_dir.
      split; [done|]. intros nm E. by eapply Hp. }
  intros [u|e|]; [apply triple_ret; intros s Hl; by exists im| |by apply triple_false; intros ? []].
  apply triple_pure. intros Hmd.
  eapply (triple_bind _ _ _ _ (fun _ => fresh N)); [|intros u; by apply triple_ret].
  apply triple_on_file. intros s [Hf [f Hi]]. exists f. split; [done|]. intros _.
  destruct (file_Close f) as [f' err] eqn:E. apply file_Close_spec in E as (Ec & Es & _).
  assert (fresh N (set_inode im f' s)) as Hf'.
  { apply fresh_set_inode; [done|by eexists|]. rewrite Ec, Es. by eapply (wf_synced s (ba_wf _ _ (fr_base _ _ Hf))). }
  split; [done|]. split; [by apply fresh_safe|done].
Qed.

(** *** The first record *)
Lemma first_edit_fits : edit_fits first_edit.
Proof using.
  split; [split; [apply (bool_decide_unpack _); vm_compute; exact Logic.I|done]|apply (bool_decide_unpack _); vm_compute; exact Logic.I].
Qed.

Lemma triple_first_record id im :
  triple md (laying id im (fun f => f_content f = [])) (Manifest.Append (edit_wire first_edit) (mkWriter (Some im) (mname id)))
    (fun err s => match err with
       | None => fresh N s /\ laid N id im s
       | Some _ => md <> Calm /\ laying id im (fun _ => True) s end) I.
Proof using.
  unfold Manifest.Append. rewrite manifest_EncodeRecord by apply first_edit_fits.
  set (rec := record_wire manifestRecordFormat (edit_wire first_edit)). cbn [m_file].
  assert (manifest_image (edits_of ([] ++ [])) = rec) as Eimg.
  { unfold manifest_image, edits_of, rec. cbn [app fmap list_fmap]. by rewrite log_image_cons, app_nil_r. }
  clearbody rec.
  eapply (triple_bind _ _ _ _ (fun r s => r = Ok rec /\ laying id im (fun f => f_content f = []) s)).
  { apply triple_call. intros s Hs. split; [reflexivity|exact Hs]. }
  intros r. apply triple_pure. intros ->.
  eapply (triple_bind _ _ _ _ (fun err s => (md = Calm -> err = None) /\
    laying id im (fun f => err = None -> f_content f = rec) s)).
  { apply triple_on_file. intros s Hl. destruct (ly_file _ _ _ _ Hl) as (f & Hf & Hc). exists f. split; [done|]. intros Hcf.
    pose proof (file_Write_calm rec f) as Hcalm. destruct (file_Write rec f) as [[f' k] err] eqn:Ew. cbn [fst snd] in Hcalm.
    apply file_Write_spec in Ew as (Ec & Es & Ek & _).
    pose proof (wf_synced s (ba_wf _ _ (fr_base _ _ (ly_fresh _ _ _ _ Hl))) im f Hf) as Hsy.
    assert (laying id im (fun f => err = None -> f_content f = rec) (set_inode im f' s)) as Hl'.
    { eapply laying_set_inode; [exact Hl|exact Hf| |rewrite Ec, Es, length_app; lia].
      intros He. by rewrite Ec, Hc, (Ek He), firstn_all. }
    split; [split; [|exact Hl']; intros Hmd; by apply Hcalm, Hcf|].
    split; [by apply fresh_safe; destruct Hl'|]. intros Hmd. by apply Hcalm, Hcf. }
  intros [e|].
  { apply triple_ret. intros s [Hmd [Hf Hp (f & Hi & _)]]. split; [intros E; by specialize (Hmd E)|].
    split; [done|done|by exists f]. }
  eapply (triple_bind _ _ _ _ (fun err s => (md = Calm -> err = None) /\
    laying id im (fun f => err = None -> manifest_file [] [] f) s)).
  { apply triple_on_file. intros s [_ Hl]. destruct (ly_file _ _ _ _ Hl) as (f & Hf & Hc). exists f. split; [done|]. intros Hcf.
    pose proof (file_Sync_calm f) as Hcalm. destruct (file_Sync f) as [f' err] eqn:Esy. cbn [fst snd] in Hcalm.
    apply file_Sync_spec in Esy as (Ec & Eok & Eno & _).
    pose proof (wf_synced s (ba_wf _ _ (fr_base _ _ (ly_fresh _ _ _ _ Hl))) im f Hf) as Hsy.
    assert (laying id im (fun f => err = None -> manifest_file [] [] f) (set_inode im f' s)) as Hl'.
    { eapply laying_set_inode; [exact Hl|exact Hf| |].
      - intros He. split; [by rewrite Ec, (Hc eq_refl), Eimg|]. rewrite (Eok He), Ec, (Hc eq_refl), <-Eimg. by split.
      - rewrite Ec. destruct err; [by rewrite Eno|by rewrite Eok]. }
    split; [split; [|exact Hl']; intros Hmd; by apply Hcalm, Hcf|].
    split; [by apply fresh_safe; destruct Hl'|]. intros Hmd. by apply Hcalm, Hcf. }
  intros [e|]; apply triple_ret; intros s [Hmd [Hf Hp (f & Hi & HF)]].
  - split; [intros E; by specialize (Hmd E)|]. split; [done|done|by exists f].
  - split; [done|]. split; [apply Hf|done|]. exists f. auto.
Qed.

(** *** Installing CURRENT *)
Lemma laid_frame id im :
  is_u64 id -> frame (fun c => c = None) (mname id) (laid N id im) I.
Proof using N_range.
  intros Hu. assert (max_manifest_id [currentTmpFileName] <= N /\ max_manifest_id [currentFileName] <= N) as [Hmt Hmc]
    by (split; (etrans; [|apply N_range]); done).
  split.
  - apply laid_blind.
  - intros i f s Hw Ht Hur Hle [Hb Hp (g & Hg & Hm)].
    assert (i <> im) as Hne.
    { intros ->. destruct (Hp (live s) ltac:(by left)) as [_ Hpu]. by apply Hpu in Ht. }
    split; [apply base_set_inode; [done|by eapply (wf_dirs s Hw); [left|]|done]|by apply pin_set_inode|].
    exists g. cbn. by rewrite lookup_insert_ne.
  - intros s i s' Hw Hc [Hb Hp (g & Hg & Hm)]. split; [eapply base_create; [exact Hb|exact tmp_ne_wal|exact Hmt|exact Hc]
      |eapply pin_create; [exact Hw|exact Hc| |exact Hp]; intros E; by apply (mname_ne_tmp id)|].
    exists g. injection Hc as <- <-. split; [|done]. cbn. rewrite lookup_insert_ne; [done|]. intros E.
    pose proof (wf_next s Hw im ltac:(by eexists)). lia.
  - intros s [Hb Hp (g & Hg & Hm)]. destruct (Hp (live s) ltac:(by left)) as [El Hu'].
    split; [by apply base_remove| |by exists g]. apply pin_set_live; [done|by rewrite lookup_delete_ne|].
    intros nm [_ E]%lookup_delete_Some. by apply Hu'.
  - intros s i Ht [Hb Hp (g & Hg & Hm)]. destruct (Hp (live s) ltac:(by left)) as [El Hu'].
    split; [by apply base_rename| |by exists g]. apply pin_set_live; [done|by rewrite lookup_insert_ne, lookup_delete_ne|].
    intros nm [[<- ->]|[_ [_ E]%lookup_delete_Some]]%lookup_insert_Some; [|by apply Hu'].
    by apply Hu' in Ht.
  - intros s [Hb Hp (g & Hg & Hm)]. split; [by apply base_sync|by apply pin_sync|by exists g].
  - intros s Hw Hs Hl. by eapply laid_safe.
Qed.

(** *** Giving up *)
Lemma laid_close id im :
  is_u64 id ->
  triple md (fun s => laid N id im s /\ points id s) (Manifest.Close (Some (mkWriter (Some im) (mname id))))
    (fun _ s => laid N id im s /\ points id s) I.
Proof using N_range.
  intros Hu.
  assert (forall g : File -> File * option error, (forall f, f_content (g f).1 = f_content f /\
      (f_synced f <= length (f_content f) -> f_synced f <= f_synced (g f).1 <= length (f_content f))%nat /\
      (f_faults f = [] -> f_faults (g f).1 = [])) ->
    triple md (fun s => laid N id im s /\ points id s) (on_file im (fun f => let '(f, err) := g f in (err, f)))
      (fun _ s => laid N id im s /\ points id s) I) as Hcall.
  { intros g Hg. apply triple_on_file. intros s [Hl Hc]. destruct (la_file _ _ _ _ Hl) as (f & Hf & Hm).
    exists f. split; [done|]. intros Hcf. destruct (Hg f) as (Ec & Es & Ef). destruct (g f) as [f' err]. cbn in Ec, Es, Ef.
    pose proof (wf_synced s (ba_wf _ _ (la_base _ _ _ _ Hl)) im f Hf) as Hsy.
    assert (laid N id im (set_inode im f' s)) as Hl' by (eapply laid_set_inode; [done|done|done|rewrite Ec; auto]).
    assert (points id (set_inode im f' s)) as Hc'.
    { apply named_set_inode; [|done]. eapply pin_unref; [apply Hl|]. intros E. by apply (mname_ne_current id). }
    split; [by split|]. split; [by eapply laid_safe|]. auto. }
  unfold Manifest.Close. cbn [m_file]. eapply triple_bind; [apply (Hcall file_Sync)|].
  { intros f. pose proof (file_Sync_calm f) as Hcalm. destruct (file_Sync f) as [f' err] eqn:E. cbn [fst snd] in *.
    apply file_Sync_spec in E as (Hc & Hs & Hn & _).
    split_and!; [done|destruct err; [rewrite Hn by done|rewrite Hs by done]; lia|]. intros Hf. by apply Hcalm. }
  intros e1. eapply triple_bind; [apply (Hcall file_Close)|].
  { intros f. pose proof (file_Close_calm f) as Hcalm. destruct (file_Close f) as [f' err] eqn:E. cbn [fst snd] in *.
    apply file_Close_spec in E as (Hc & Hs & _). rewrite Hs. split_and!; [done|lia|]. intros Hf. by apply Hcalm. }
  intros e2. by apply triple_ret.
Qed.

(** The MANIFEST is removed even when CURRENT already names it. *)
Lemma laid_remove id im :
  is_u64 id -> md <> Calm ->
  triple md (fun s => laid N id im s /\ points id s) (os_Remove (mname id)) (fun _ => I) I.
Proof using N_range.
  intros Hu Hmd. apply triple_syscall.
  - intros fl s [Hl Hc]. split; [by apply laid_blind|done].
  - intros _ s [Hl Hc]. by eapply laid_safe.
  - intros s [Hl Hc]. pose proof Hl as [Hb Hp (f & Hf & Hm)].
    destruct (Hp (live s) ltac:(by left)) as [-> _].
    assert (I (set_live (delete (mname id) (live s)) s)) as Hs; [|by split_and!].
    destruct (base_remove _ (mname id) _ Hb) as [Hw' Hi' Hd']. split; [done|done|left]. split; [done|].
    intros d Hd. destruct (Hd' d Hd) as [H1 H2]. split; [done|]. split; [done|].
    cbn in Hd. apply elem_of_cons in Hd as [->|Hd].
    + specialize (Hc (live s) ltac:(by left)). rewrite lookup_delete_ne by (by apply mname_ne_current).
      destruct (live s !! currentFileName) as [i|]; [right|by left].
      destruct Hc as (g & Hg & Hgs & [Hgc|Hgc]); [done|]. injection Hgc as Hgc.
      exists id, i, g. split_and!; [done|done|by apply cur_file_mname|]. left. apply lookup_delete_eq.
    + by apply (laid_boot id im s Hu Hl Hc d Hd).
Qed.

Lemma fresh_points id s : fresh N s -> points id s.
Proof using. intros [_ Hc] d Hd. rewrite (Hc d Hd). by left. Qed.

Lemma laying_close id im (F : File -> Prop) :
  triple md (laying id im F) (Manifest.Close (Some (mkWriter (Some im) (mname id)))) (fun _ => laying id im (fun _ => True)) I.
Proof using.
  assert (forall (F : File -> Prop) (g : File -> File * option error), (forall f,
      (f_synced f <= length (f_content f) -> f_synced (g f).1 <= length (f_content (g f).1))%nat /\
      (f_faults f = [] -> f_faults (g f).1 = [])) ->
    triple md (laying id im F) (on_file im (fun f => let '(f, err) := g f in (err, f))) (fun _ => laying id im (fun _ => True)) I) as Hcall.
  { intros F' g Hg. apply triple_on_file. intros s Hl. destruct (ly_file _ _ _ _ Hl) as (f & Hf & Hm).
    exists f. split; [done|]. intros Hcf. destruct (Hg f) as (Es & Ef). destruct (g f) as [f' err]. cbn in Es, Ef.
    pose proof (wf_synced s (ba_wf _ _ (fr_base _ _ (ly_fresh _ _ _ _ Hl))) im f Hf) as Hsy.
    assert (laying id im (fun _ => True) (set_inode im f' s)) as Hl' by (eapply laying_set_inode; [done|done|done|auto]).
    split; [done|]. split; [apply fresh_safe, Hl'|]. auto. }
  unfold Manifest.Close. cbn [m_file]. eapply triple_bind; [apply (Hcall _ file_Sync)|].
  { intros f. pose proof (file_Sync_calm f) as Hcalm. destruct (file_Sync f) as [f' err] eqn:E. cbn [fst snd] in *.
    apply file_Sync_spec in E as (Hc & Hs & Hn & _). rewrite Hc.
    split; [destruct err; [rewrite Hn by done|rewrite Hs by done]; lia|]. intros Hf. by apply Hcalm. }
  intros e1. eapply triple_bind; [apply (Hcall _ file_Close)|].
  { intros f. pose proof (file_Close_calm f) as Hcalm. destruct (file_Close f) as [f' err] eqn:E. cbn [fst snd] in *.
    apply file_Close_spec in E as (Hc & Hs & _). rewrite Hs, Hc. split; [lia|]. intros Hf. by apply Hcalm. }
  intros e2. by apply triple_ret.
Qed.

Lemma fresh_remove_triple id : triple md (fresh N) (os_Remove (mname id)) (fun _ => fresh N) I.
Proof using.
  apply triple_syscall; [apply fresh_blind|done|]. intros s Hf.
  destruct (live s !! mname id); [|by split_and!; [|apply fresh_safe|]].
  pose proof (fresh_remove N (mname id) s Hf) as Hf'. split; [done|]. split; [by apply fresh_safe|intros _; apply calm_set_live].
Qed.
End Boot.

(** ** The directory once the MANIFEST is open

    The log, if there is one, is on stable storage and will be opened last. *)
Definition log_found (s : Fs) : Prop :=
  (forall d, d ∈ dirs s -> d !! walFileName = None) \/
  exists iw f, pin walFileName iw s /\ inodes s !! iw = Some f /\ f_synced f = length (f_content f).

Record core (acked issued : list batch) (N id : Z) (im : nat) (T D : list tbl) (Wd W : list batch) (s : Fs) : Prop := {
  op_wf : wf_fs s;
  op_inj : inj_dirs s;
  op_in : installed acked issued N id T D Wd W s;
  op_pin : pin (mname id) im s
}.

Record opened (acked issued : list batch) (N id : Z) (im : nat) (T D : list tbl) (Wd W : list batch) (s : Fs) : Prop := {
  op_core : core acked issued N id im T D Wd W s;
  op_log : log_found s
}.

Lemma core_safe acked issued N id im T D Wd W s : core acked issued N id im T D Wd W s -> safe acked issued N s.
Proof. intros [Hw Hi Hin _]. split; [done|done|right]. by exists id, T, D, Wd, W. Qed.

Lemma opened_safe acked issued N id im T D Wd W s : opened acked issued N id im T D Wd W s -> safe acked issued N s.
Proof. intros [Hc _]. by eapply core_safe. Qed.

Section Bootstrap.
Context {slices : Slices} {slices_laws : SlicesLaws} {Mem : Type}.
Context (md : mode) (issued : list batch) (N : Z) (N_range : 1 <= N < 2 ^ 63).
Local Abbreviation I := (safe [] issued N).

Lemma boot_installed id im s :
  is_u64 id -> laid N id im s -> holds currentFileName (fun c => c = Some (mname id ++ [x0a])) s ->
  opened [] issued N id im [] [] [] [] s.
Proof using N_range.
  intros Hu [[Hw Hi Hd] Hp (f & Hf & Hm)] Hc.
  split; [|left; intros d Hin; by destruct (Hd d Hin)]. split; [done|done| |done]. split.
  - apply ghost_empty. lia.
  - eapply named_mono; [|..|exact Hc]; [done|]. intros g [Hgs Hgc]. injection Hgc as Hgc. by apply cur_file_mname.
  - by eapply pin_named.
  - intros d Hin. by destruct (Hd d Hin) as [-> _].
  - constructor.
Qed.

Lemma bootstrap_triple (db : DB Mem) :
  triple md (fresh (N - 1)) (bootstrapFreshManifest db)
    (fun r s => match r.2 with
       | None => exists id im, r.1 = set_manifest (version r.1) (mkWriter (Some im) (mname id)) (ssts db) 1 0 (logno db) db /\
           opened [] issued N id im [] [] [] [] s
       | Some _ => md <> Calm /\ I s
       end) I.
Proof using N_range.
  unfold bootstrapFreshManifest.
  eapply triple_bind; [by apply triple_next_id|].
  intros [id|e|]; [|by apply triple_ret; intros s [? ?]; split; [|apply fresh_safe]|by apply triple_false; intros ? []].
  eapply triple_pre with (P' := fun s => 1 <= id <= N /\ live s !! mname id = None /\ fresh N s);
    [by intros s [[? ?] ?]|]. apply triple_pure. intros Hid.
  assert (is_u64 id) as Hu by (unfold is_u64; lia).
  eapply triple_bind; [by apply triple_new_manifest|].
  intros [mw|e|]; [|by apply triple_ret; intros s [? ?]; split; [|apply fresh_safe]|by apply triple_false; intros ? []].
  apply triple_exists. intros im. apply triple_pure. intros ->.
  eapply (triple_bind _ _ _ _ (fun enc s => enc = edit_wire first_edit /\ laying N id im (fun f => f_content f = []) s)).
  { apply triple_pure_call. rewrite Encode_edit_wire. intros s Hs. split; [reflexivity|exact Hs]. }
  intros enc. apply triple_pure. intros ->.
  eapply triple_bind; [by apply triple_first_record|]. intros [e|].
  - apply triple_pure. intros Hmd.
    eapply triple_bind; [by apply laying_close|]. intros [e1 mw1].
    eapply triple_bind; [eapply triple_pre; [|by apply fresh_remove_triple]; by intros s []|]. intros u.
    apply triple_ret. intros s Hf. split; [done|by apply fresh_safe].
  - cbv zeta. eapply triple_bind.
    { eapply triple_pre; [|apply (WriteCurrent_triple md (fun c => c = None) (mname id) _ _ (laid_frame issued N N_range id im Hu))].
      - intros s [Hf Hl]. split; [split; [apply Hl|exact Hl]|]. intros d Hd. by rewrite (fr_cur _ _ Hf d Hd).
      - by apply validate_mname. }
    intros [e|].
    + apply triple_pure. intros Hmd.
      eapply triple_bind; [eapply triple_pre; [|by apply laid_close]; by intros s [[_ ?] ?]|]. intros [e1 mw1].
      eapply triple_bind; [by apply laid_remove|]. intros u. by apply triple_ret.
    + apply triple_ret. intros s [[_ Hl] Hc]. exists id, im. split; [done|]. by apply boot_installed.
Qed.
End Bootstrap.
