(* ===== verification/Reopen.v ===== *)
(** * Opening an existing database

    [replayExistingManifest] and [replayWAL] on a directory that a crash has left:
    the tables and the batches found are those the last processes made durable,
    and perhaps some that were still on their way. *)
From Stdlib Require Import QArith_base.
From S2P Require Import Prelude.
From S2P Require Import Errors.
From S2P Require Import Keys.
From S2P Require Import GoIO.
From S2P Require Import GoSort.
From S2P Require Import Record.
From S2P Require Import RecordIO.
From S2P Require Import Fs.
From S2P Require Wal.
From S2P Require Batch.
From S2P Require Import Memtable.
From S2P Require SstWriter.
From S2P Require SstReader.
From S2P Require Import Edit.
From S2P Require Import Version.
From S2P Require Import Current.
From S2P Require Import Manifest.
From S2P Require Replay.
From S2P Require Import FileNames.
From S2P Require Import Engine.
From S2P Require Import EngineRun.
From S2P Require Import Disk.
From S2P Require Import DiskRun.
From S2P Require Import Live.
From S2P Require Import Recovery.
From S2P Require Import Boot.

Local Open Scope Z_scope.

(** An assumption on the devices: a log that is being read is read to its end.  What an
    error does there is RecordIO.reader_hides_device_error. *)
Class Streams {device : Device} : Prop := never_stream_fails i : stream_fails i = None.

Lemma set_inode_id i f s : inodes s !! i = Some f -> set_inode i f s = s.
Proof. intros H. unfold set_inode. rewrite insert_id by done. by destruct s. Qed.

(** ** Readers stay open *)
Lemma read_next_open f closed r : r_file r = true -> r_file (read_next f closed r).2 = true.
Proof.
  intros Hr. unfold read_next. rewrite Hr. cbn [negb].
  destruct (ReadFull _ _) as [[hdr err] src]. destruct (is_err err io.EOF); [done|].
  destruct (_ || _); [done|]. destruct err; [done|]. destruct (DecodeHeader f hdr) as [h|e|]; [|done|done].
  destruct (ReadFull _ _) as [[p err] src']. destruct (_ || _); [done|]. destruct err; [done|].
  by destruct (ValidatePayload _ _).
Qed.

Lemma NextEdit_open r : r_file r = true -> r_file (NextEdit r).2 = true.
Proof.
  intros Hr. pose proof (read_next_open manifestRecordFormat manifest.ErrReaderClosed r Hr) as H.
  unfold NextEdit, Manifest.Next in *. by destruct (read_next _ _ r) as [[p|e|] r'].
Qed.

Lemma replay_loop_open `{Slices} fuel r st : r_file r = true -> r_file (Replay.replay_loop fuel r st).2 = true.
Proof.
  revert r st. induction fuel as [|fuel IH]; intros r st Hr; [done|]. cbn [Replay.replay_loop].
  pose proof (NextEdit_open r Hr) as Hn. destruct (NextEdit r) as [[e|e|] r']; [|by destruct (_ || _)|done].
  destruct (Replay.applyEditToReplay e st); [by apply IH|done|done].
Qed.

(** ** Batches applied one after the other *)
Section Apply.
Context {Mem : Type} {memtable : Memtable Mem} {memtable_laws : MemtableLaws Mem}.
Local Abbreviation DB := (DB Mem).

Lemma applyOperations_app ops1 ops2 (db : DB) :
  applyOperations (ops1 ++ ops2) db = (db ← applyOperations ops1 db; applyOperations ops2 db).
Proof.
  revert db. induction ops1 as [|op ops1 IH]; intros db; cbn [app applyOperations]; [done|].
  rewrite bind_assoc. apply bind_ext. intros m _. rewrite bind_assoc. apply bind_ext. intros m' _. apply IH.
Qed.

(** The end of the replay of the log. *)
Definition wal_end (e : error) (reader : Reader) (path : bytes) (db : DB) : io (DB * option error) :=
  if errors_Is e io.EOF then mret (db, None)
  else if errors_Is e record.ErrTruncated then
    terr ← os_Truncate path (Wal.ValidOffset (Some reader));
    mret (db, Errorf "beachdb: truncating WAL tail during recovery" <$> terr)
  else mret (db, Some (Errorf "beachdb: WAL recovery failed" e)).

Lemma replay_wal_loop_all path W fuel r r' e (db db' : DB) w :
  read_all Wal.walRecordFormat wal.ErrReaderClosed fuel r = (Batch.batch_wire <$> W, throw e, r') ->
  Forall batch_ok W -> applyOperations (mjoin W) db = Ok db' ->
  replay_wal_loop fuel r path db w = wal_end e r' path db' w.
Proof using.
  revert fuel r db. induction W as [|ops W IH]; intros fuel r db Hr Hok Happ; (destruct fuel as [|fuel]; [done|]);
    cbn [read_all replay_wal_loop fmap list_fmap] in *; unfold Wal.Next;
    destruct (read_next Wal.walRecordFormat wal.ErrReaderClosed r) as [[p|e0|] r1] eqn:Er; try done.
  - by destruct (read_all _ _ fuel r1) as [[ps x] r2].
  - injection Hr as <- <-. cbn in Happ. by injection Happ as <-.
  - destruct (read_all _ _ fuel r1) as [[ps x] r2] eqn:Ea. injection Hr as -> -> -> ->.
    apply Forall_cons in Hok as [Ho Hok]. rewrite (Batch.DecodeBatch_wire ops (bo_wf _ Ho)).
    change (mjoin (ops :: W)) with (ops ++ mjoin W) in Happ. rewrite applyOperations_app in Happ.
    apply bind_Ok in Happ as (db1 & E1 & E2).
    transitivity ((db ← pure (Ok db1); replay_wal_loop fuel r1 path db) w).
    + unfold call, mbind, io_bind, mret, io_ret. cbn [Batch.ops]. by rewrite E1.
    + unfold mbind, io_bind. cbn [pure mret io_ret]. by eapply IH.
Qed.
End Apply.

(** ** What the log says about the keys it mentions *)
Lemma foldl_apply_op_lookup ops m k :
  (k ∈ Batch.op_key <$> ops -> foldl apply_op m ops !! k = foldl apply_op ∅ ops !! k) /\
  (k ∉ Batch.op_key <$> ops -> foldl apply_op m ops !! k = m !! k).
Proof.
  induction ops as [|op ops [IH1 IH2]] using rev_ind; [split; [by intros ?%not_elem_of_nil|done]|].
  rewrite fmap_app, !foldl_app. cbn [foldl fmap list_fmap]. unfold apply_op at 1 3 5. split.
  - intros Hin. destruct (decide (Batch.op_key op = k)) as [->|Hne].
    + by destruct (decide _); rewrite ?lookup_delete_eq, ?lookup_insert_eq.
    + assert (k ∈ Batch.op_key <$> ops) as Hin'.
      { apply elem_of_app in Hin as [?|Hin]; [done|]. by apply list_elem_of_singleton in Hin. }
      by destruct (decide _); rewrite ?lookup_delete_ne, ?lookup_insert_ne by done; apply IH1.
  - intros Hn. apply not_elem_of_app in Hn as [Hn1 Hn2]. assert (Batch.op_key op <> k) by (intros E; apply Hn2; rewrite E; by left).
    destruct (decide _); rewrite ?lookup_delete_ne, ?lookup_insert_ne by done; by apply IH2.
Qed.

Lemma log_map_keys l k : is_Some (log_map l !! k) -> exists e, e ∈ l /\ UserKey e.1 = k.
Proof.
  unfold log_map. intros H. induction l as [|e l IH] using rev_ind; [by destruct H|].
  rewrite foldl_app in H. cbn in H. unfold apply_write in H at 1.
  destruct (decide (UserKey e.1 = k)) as [<-|Hne]; [exists e; split; [apply elem_of_app; right; by left|done]|].
  destruct IH as (e' & ? & ?); [|exists e'; split; [apply elem_of_app; by left|done]].
  by destruct (decide _); rewrite ?lookup_delete_ne, ?lookup_insert_ne in H.
Qed.

(** Replaying the whole log over tables made from it gives what the log says. *)
Lemma replay_map l s W :
  Forall (fun e => UserKey e.1 ∈ keys_of W) l -> Forall batch_ok W -> log_map (l ++ number s (mjoin W)) = batches_map W.
Proof.
  intros Hl Hok. rewrite log_map_number.
  - apply map_eq. intros k. destruct (decide (k ∈ keys_of W)) as [Hk|Hk].
    + by apply foldl_apply_op_lookup.
    + unfold batches_map. destruct (foldl_apply_op_lookup (mjoin W) (log_map l) k) as [_ ->]; [|done].
      destruct (foldl_apply_op_lookup (mjoin W) ∅ k) as [_ ->]; [|done].
      rewrite lookup_empty. destruct (log_map l !! k) eqn:E; [|done]. exfalso. destruct (log_map_keys l k) as (e & He & <-); [by eexists|].
      rewrite Forall_forall in Hl. by apply Hk, Hl.
  - clear Hl. induction Hok as [|ops W Ho _ IH]; [constructor|]. change (mjoin (ops :: W)) with (ops ++ mjoin W). apply Forall_app. split; [by apply batch_ok_types|done].
Qed.

(** ** The directory of an open database *)
Lemma edits_between T D qs :
  (length D <= 1)%nat -> edits_of T `prefix_of` qs -> qs `prefix_of` edits_of (T ++ D) ->
  exists T', qs = edits_of T' /\ (T' = T \/ T' = T ++ D).
Proof.
  intros Hl [k ->] Hq. rewrite edits_of_app in Hq. apply prefix_app_inv in Hq.
  destruct D as [|t [|]]; [|..|cbn in Hl; lia].
  - apply prefix_nil_inv in Hq as ->. exists T. rewrite app_nil_r. auto.
  - destruct k as [|e k]; [exists T; rewrite app_nil_r; auto|].
    pose proof (prefix_cons_inv_1 _ _ _ _ Hq) as ->. apply prefix_cons_inv_2, prefix_nil_inv in Hq as ->.
    exists (T ++ [t]). rewrite edits_of_app. auto.
Qed.

Lemma ghost_tables acked issued N T D T' Wd W :
  ghost_ok acked issued N T D Wd W -> T' = T \/ T' = T ++ D -> ghost_ok acked issued N T' [] Wd W.
Proof.
  intros [Ht Hl Hw Hf Hk Ha Hi Hz [Hq1 Hq2]] HT.
  assert (T' `prefix_of` T ++ D) as [D' E] by (destruct HT as [->| ->]; [by apply prefix_app_r|done]).
  rewrite E, logs_of_app in Hk, Hz. rewrite SstReader.log_bytes_app in Hz. apply Forall_app in Hk as [Hk _].
  pose proof (SstReader.log_bytes_nonneg (logs_of D')).
  split; rewrite ?app_nil_r; try done; cbn; try lia.
  - eapply tables_ok_prefix; [|exact Ht]. rewrite E. by apply prefix_app_r.
  - destruct HT as [->| ->]; by split.
Qed.

Section Opened.
Context (acked issued : list batch) (N id : Z) (im : nat) (Wd W : list batch).
Local Abbreviation cor T D := (core acked issued N id im T D Wd W).
Local Abbreviation opn T D := (opened acked issued N id im T D Wd W).

Lemma core_blind T D : fault_blind (cor T D).
Proof. intros fl s [Hw Hi [Hg Hc Hm Hwl Ht] Hp]. split; [by apply wf_blind|done|by split|done]. Qed.

Lemma opened_blind T D : fault_blind (opn T D).
Proof. intros fl s [Hc Hl]. split; [by apply core_blind|done]. Qed.

Lemma log_found_sync s : log_found s -> log_found (sync_dirs s).
Proof using.
  intros [H|(iw & f & Hp & Hf & Hs)]; [left; intros d [-> Hd]%sync_dirs_dir; by apply H|right].
  exists iw, f. split_and!; [by apply pin_sync|done|done].
Qed.

Lemma core_sync T D s : cor T D s -> cor T D (sync_dirs s).
Proof.
  intros [Hw Hi Hin Hp]. split; [by apply wf_sync|by apply inj_sync| |by apply pin_sync].
  eapply installed_frame; [|done]. intros nm F' F _. apply named_sync.
Qed.

Lemma opened_sync T D s : opn T D s -> opn T D (sync_dirs s).
Proof. intros [Hc Hl]. split; [by apply core_sync|by apply log_found_sync]. Qed.

Lemma opened_remove T D nm s :
  opn T D s -> ~ relies_on id (T ++ D) nm -> opn T D (set_live (delete nm (live s)) s).
Proof.
  intros [[Hw Hi Hin Hp] Hl] Hn.
  assert (forall a i, delete nm (live s) !! a = Some i -> live s !! a = Some i) as Hd
    by (intros a i [_ ?]%lookup_delete_Some; done).
  assert (forall a, relies_on id (T ++ D) a -> delete nm (live s) !! a = live s !! a) as Hk.
  { intros a Ha. apply lookup_delete_ne. by intros ->. }
  split; [split|].
  - apply wf_set_live; [done|]. intros a i E%Hd. eapply (wf_dirs s Hw); [by left|done].
  - apply inj_set_live; [done|]. intros a b i Ea%Hd Eb%Hd. eapply Hi; [by left|done..].
  - eapply installed_frame; [|done]. intros a F' F Ha. apply named_set_live. by apply Hk.
  - destruct (Hp (live s) ltac:(by left)) as [E Hu]. apply pin_set_live; [done|by rewrite Hk by apply relied_man|].
    intros a Ea%Hd. by apply Hu.
  - destruct Hl as [H|(iw & f & Hpw & Hf & Hs)]; [left|right].
    + cbn. intros d [->|Hin']%elem_of_cons; [|by apply H]. rewrite Hk by apply relied_wal. apply H. by left.
    + exists iw, f. split_and!; [|done|done]. destruct (Hpw (live s) ltac:(by left)) as [E Hu].
      apply pin_set_live; [done|by rewrite Hk by apply relied_wal|]. intros a Ea%Hd. by apply Hu.
Qed.

(** The MANIFEST is rewritten to list the tables of [T' ++ D']. *)
Lemma core_manifest T D T' D' f s :
  cor T D s -> ghost_ok acked issued N T' D' Wd W -> manifest_file T' D' f ->
  Forall (fun t => named (t_name t) False (table_file t) s) (T' ++ D') -> cor T' D' (set_inode im f s).
Proof.
  intros [Hw Hi [Hg Hc Hm Hl Ht] Hpm] Hg' Hf Ht'.
  destruct (Hpm (live s) ltac:(by left)) as [Elive Hu].
  assert (forall nm F' F, nm <> mname id -> named nm F' F s -> named nm F' F (set_inode im f s)) as Hn.
  { intros nm F' F Hne. apply named_set_inode. by eapply pin_unref. }
  split; [|done| |by apply pin_set_inode].
  - apply wf_set_inode; [done|by eapply (wf_dirs s Hw); [left|]|]. destruct Hf as [_ Hf]. lia.
  - split; [done|apply Hn; [|done]| |apply Hn; [|done]|].
    + intros E. by destruct (mname_ne_current id).
    + eapply (pin_named _ im); [by apply pin_set_inode|apply lookup_set_inode|done].
    + intros E. by destruct (mname_ne_wal id).
    + rewrite Forall_forall in Ht' |- *. intros t Hin. apply Hn; [|by apply Ht'].
      pose proof (to_wf _ (g_tables _ _ _ _ _ _ _ Hg')) as Hwt. rewrite Forall_forall in Hwt.
      by apply tname_ne_mname, wf_table_id, Hwt.
Qed.

Lemma opened_manifest T D T' D' f s :
  opn T D s -> ghost_ok acked issued N T' D' Wd W -> manifest_file T' D' f ->
  Forall (fun t => named (t_name t) False (table_file t) s) (T' ++ D') -> opn T' D' (set_inode im f s).
Proof.
  intros [Hc Hlog] Hg' Hf Ht'. split; [by eapply core_manifest|].
  destruct Hlog as [H|(iw & g & Hpw & Hfw & Hs)]; [by left|right]. exists iw, g.
  split_and!; [by apply pin_set_inode| |done]. cbn. rewrite lookup_insert_ne; [done|]. intros <-.
  destruct (mname_ne_wal id). symmetry. destruct (op_pin _ _ _ _ _ _ _ _ _ _ Hc (live s) ltac:(by left)) as [_ Hu].
  by apply Hu, (Hpw (live s) ltac:(by left)).
Qed.
End Opened.

(** ** Reading the directory *)
Section Reading.
Context {Mem : Type} {memtable : Memtable Mem} {memtable_laws : MemtableLaws Mem}.
Context {slices : Slices} {slices_laws : SlicesLaws} {device : Device} {good_device : GoodDevice} {streams : Streams}.
Context (md : mode) (acked issued : list batch) (N id : Z) (im : nat) (Wd W : list batch).
Local Abbreviation opn T D := (opened acked issued N id im T D Wd W).
Local Abbreviation I := (safe acked issued N).

Lemma triple_open_source P i c :
  (forall s, P s -> I s) -> (forall s, P s -> exists f, inodes s !! i = Some f /\ f_content f = c) ->
  triple md P (open_source i) (fun src s => P s /\ src = mkSource c None) I.
Proof using streams.
  intros HI Hf. apply triple_on_file. intros s HP. destruct (Hf s HP) as (f & Ef & Ec). exists f. split; [done|].
  intros Hc. rewrite set_inode_id, never_stream_fails, Ec by done. split_and!; auto.
Qed.

Lemma triple_find P name i :
  fault_blind P -> (forall s, P s -> I s) -> (forall s, P s -> live s !! name = Some i) ->
  triple md P (os_Open name) (fun r s => P s /\ match r with Ok j => j = i | Err _ => md <> Calm | Panic => False end) I.
Proof using.
  intros Hb HI Hl. apply triple_os_Open; [done|done|by intros|]. intros s HP. by rewrite (Hl s HP).
Qed.

(** A reader on a file that is there: [NewReader] of both packages, which differ in
    the text around an error. *)
Lemma triple_new_reader (wrap : error -> error) P name i c :
  fault_blind P -> (forall s, P s -> I s) -> (forall s, P s -> live s !! name = Some i) ->
  (forall s, P s -> exists f, inodes s !! i = Some f /\ f_content f = c) ->
  triple md P
    (file ← os_Open name;
     match file with
     | Panic => panic
     | Err err => mret (throw (wrap err))
     | Ok file => src ← open_source file; mret (Ok (open_reader src))
     end)
    (fun r s => P s /\ match r with
       | Ok rd => rd = open_reader (mkSource c None) | Err _ => md <> Calm | Panic => False end) I.
Proof using streams.
  intros Hb HI Hl Hf. eapply triple_bind; [by apply (triple_find P name i)|].
  intros [j|e|]; [|by apply triple_ret|apply triple_false; by intros s [_ ?]].
  eapply triple_pre with (P' := fun s => j = i /\ P s); [by intros s [? ?]|]. apply triple_pure. intros ->.
  eapply triple_bind; [by apply (triple_open_source _ i c)|].
  intros src. apply triple_ret. intros s [Hs ->]. by split.
Qed.

(** *** Orphans *)
Lemma not_referenced T nm fid :
  tables_ok T -> parseSSTFileName nm = (fid, true) ->
  fid ∉ (list_to_set (FileID <$> (t_meta <$> T)) : gset Z) -> ~ relies_on id (T ++ []) nm.
Proof using.
  intros Ht Hp Hn. rewrite app_nil_r. apply parse_sound in Hp as [Hu ->]. intros [E|[E|[E|(t & Hin & E)]]].
  - by eapply tname_ne_current.
  - by eapply tname_ne_mname.
  - by eapply tname_ne_wal.
  - pose proof (to_wf _ Ht) as Hw. rewrite Forall_forall in Hw.
    apply tname_inj in E as ->; [|done|by apply wf_table_id, Hw]. apply Hn.
    apply elem_of_list_to_set, list_elem_of_fmap. exists (t_meta t). split; [done|]. apply list_elem_of_fmap. by exists t.
Qed.

Lemma triple_remove_orphan T nm :
  ~ relies_on id (T ++ []) nm -> triple md (opn T []) (os_Remove nm) (fun _ => opn T []) I.
Proof using.
  intros Hn. apply triple_syscall; [apply opened_blind|done|]. intros s Ho.
  destruct (live s !! nm); [|split; [done|split; [by eapply opened_safe|done]]].
  pose proof (opened_remove _ _ _ _ _ _ _ _ _ nm s Ho Hn) as Ho'.
  split; [done|]. split; [by eapply opened_safe|intros _; apply calm_set_live].
Qed.

Lemma triple_remove_orphans T names :
  tables_ok T ->
  triple md (opn T []) (remove_orphans (list_to_set (FileID <$> (t_meta <$> T))) names) (fun _ => opn T []) I.
Proof using.
  intros Ht. induction names as [|nm names IH]; cbn [remove_orphans]; [by apply triple_ret|].
  destruct (parseSSTFileName nm) as [fid ok] eqn:Ep. eapply triple_bind; [|intros u; exact IH].
  destruct (ok && negb (bool_decide _)) eqn:E; [|by apply triple_ret].
  apply andb_true_iff in E as [-> E]. apply negb_true_iff, bool_decide_eq_false in E.
  unfold discard. eapply triple_bind; [apply triple_remove_orphan; by eapply not_referenced|]. intros u. by apply triple_ret.
Qed.

Lemma triple_cleanup T :
  tables_ok T -> triple md (opn T []) (cleanupOrphanSSTables (version_of T)) (fun _ => opn T []) I.
Proof using.
  intros Ht. unfold cleanupOrphanSSTables. rewrite AllFiles_version_of. cbv zeta.
  eapply (triple_bind _ _ _ _ (fun r s => opn T [] s /\ r <> Panic)).
  { apply triple_syscall; [apply opened_blind|by intros _ s Ho|]. intros s Ho. split; [done|].
    split; [by eapply opened_safe|done]. }
  intros [names|e|]; [|apply triple_ret; by intros s [? _]|apply triple_false; by intros s [_ ?]].
  eapply triple_pre; [|by apply triple_remove_orphans]. by intros s [? _].
Qed.

(** *** Tables *)
Lemma triple_open_existing T t :
  t ∈ T ->
  triple md (opn T []) (open_table (t_name t))
    (fun r s => opn T [] s /\ match r with
       | Ok rf => SstReader.good rf /\ log_content (t_log t) (SstReader.rf_data rf)
       | Err _ => md <> Calm
       | Panic => False end) I.
Proof using good_device.
  intros Hin. unfold open_table.
  assert (forall s, opn T [] s -> exists i f, live s !! t_name t = Some i /\ inodes s !! i = Some f /\ table_file t f) as Hnamed.
  { intros s Ho. pose proof (in_tabs _ _ _ _ _ _ _ _ _ (op_in _ _ _ _ _ _ _ _ _ _ (op_core _ _ _ _ _ _ _ _ _ _ Ho))) as Ht.
    rewrite app_nil_r, Forall_forall in Ht. specialize (Ht t Hin (live s) ltac:(by left)).
    destruct (live s !! t_name t) as [i|]; [|done]. destruct Ht as (f & Hf & HF). by exists i, f. }
  eapply (triple_bind _ _ _ _ (fun r s => opn T [] s /\ match r with
    | Ok i => exists f, inodes s !! i = Some f /\ table_file t f | Err _ => md <> Calm | Panic => False end)).
  { apply triple_os_Open; [apply opened_blind|intros s; apply opened_safe|by intros Hmd s Ho|].
    intros s Ho. destruct (Hnamed s Ho) as (i & f & -> & Hf & HF). split; [done|]. by exists f. }
  intros [i|e|]; [|by apply triple_ret|apply triple_false; by intros s [_ ?]].
  apply triple_on_file. intros s [Ho (f & Hf & Hs & Hc)]. exists f. split; [done|]. intros Hcf.
  rewrite set_inode_id by done. split; [|split; [by eapply opened_safe|done]]. split; [done|].
  split; [|done]. split; [apply never_stat_fails|intros; apply never_bad_read].
Qed.

Lemma triple_open_readers T Ts readers :
  tables_ok T -> Forall (fun t => t ∈ T) Ts ->
  triple md (opn T []) (openSSTReadersForVersion (t_meta <$> Ts) readers)
    (fun r s => opn T [] s /\ match r with
       | Ok rs => exists rs', rs = readers ++ rs' /\ Forall2 (fun r l => represents r (insert_all l [])) rs' (t_log <$> Ts)
       | Err _ => md <> Calm
       | Panic => False end) I.
Proof using good_device.
  intros Ht. revert readers. induction Ts as [|t Ts IH]; intros readers HTs; cbn [fmap list_fmap openSSTReadersForVersion].
  { apply triple_ret. intros s Ho. split; [done|]. exists []. by rewrite app_nil_r. }
  apply Forall_cons in HTs as [Hin HTs].
  eapply triple_bind; [by apply (triple_open_existing T t)|].
  intros [rf|e|]; [|by apply triple_ret|apply triple_false; by intros s [_ ?]].
  eapply triple_pre with (P' := fun s => (SstReader.good rf /\ log_content (t_log t) (SstReader.rf_data rf)) /\ opn T [] s);
    [by intros s [? ?]|]. apply triple_pure. intros [Hg (blocks & Hd & Hj & Hne)].
  pose proof (to_wf _ Ht) as Hw. rewrite Forall_forall in Hw. destruct (Hw t Hin) as (Ho & Hsm & Hk & _).
  destruct (open_table_ok rf blocks (t_log t) Ho Hsm Hk Hj Hne Hd Hg) as (rd & Er & Hrd).
  eapply (triple_bind _ _ _ _ (fun r s => r = Ok rd /\ opn T [] s)).
  { apply triple_call. rewrite Er. intros s Hs. by split. }
  intros r. apply triple_pure. intros ->. eapply triple_post; [|by apply IH].
  intros [rs|e|] s [Hs H]; [|by split|done]. split; [done|]. destruct H as (rs' & -> & Hf).
  exists (rd :: rs'). rewrite <-app_assoc. split; [done|]. by constructor.
Qed.

(** *** The MANIFEST *)

(** What the replay makes of the MANIFEST: the tables recorded in full. *)
Lemma replay_found T D f :
  tables_ok (T ++ D) -> (length D <= 1)%nat -> Z.of_nat (length (T ++ D)) < 2 ^ 63 ->
  manifest_file T D f -> f_synced f = length (f_content f) ->
  exists T' trimmed, (T' = T \/ T' = T ++ D) /\
    (Replay.replayManifestStream (open_reader (mkSource (f_content f) None))).1 =
      Ok (Replay.mkReplay (version_of T') (Z.of_nat (S (length T'))) (seq_of T') 0
            (length (manifest_image (edits_of T'))) trimmed) /\
    manifest_image (edits_of T') `prefix_of` f_content f /\
    (trimmed = false -> f_content f = manifest_image (edits_of T')).
Proof using slices_laws.
  intros Ht HD Hn [Hc Hs] Hsy.
  assert (Forall edit_fits (edits_of (T ++ D))) as Hfits.
  { unfold edits_of. constructor; [apply first_edit_fits|]. apply Forall_fmap. eapply Forall_impl; [apply (to_wf _ Ht)|].
    intros t (_ & _ & _ & _ & He & _). exact He. }
  destruct (Replay.manifest_image_replay (edits_of (T ++ D)) (f_content f) Hfits Hc) as (qs & Hq & Hqi & Hmax & E).
  destruct (edits_between T D qs) as (T' & -> & HT); [done| |done|].
  { apply Hmax; [by apply edits_of_prefix, prefix_app_r|].
    assert (manifest_image (edits_of T) `prefix_of` manifest_image (edits_of (T ++ D))) as Hp.
    { rewrite edits_of_app, manifest_image_app. by apply prefix_app_r. }
    destruct (prefix_weak_total _ _ _ Hp Hc) as [?|Hp2]; [done|].
    apply prefix_length_eq in Hp2; [by rewrite Hp2|]. apply prefix_length in Hp2. lia. }
  assert (T' `prefix_of` T ++ D) as HT' by (destruct HT as [->| ->]; [by apply prefix_app_r|done]).
  exists T', (negb (bool_decide (f_content f = manifest_image (edits_of T')))). split; [done|].
  rewrite E, replay_result_of; [| |].
  - split; [done|]. split; [done|]. intros Hb%negb_false_iff. by apply bool_decide_eq_true in Hb.
  - by eapply tables_ok_prefix.
  - apply prefix_length in HT'. lia.
Qed.

Definition man_settled (f : File) (s : Fs) : Prop := inodes s !! im = Some f.

Lemma triple_truncate_manifest T D T' f (trimmed : bool) :
  T' = T \/ T' = T ++ D -> manifest_file T D f -> f_synced f = length (f_content f) ->
  manifest_image (edits_of T') `prefix_of` f_content f ->
  (trimmed = false -> f_content f = manifest_image (edits_of T')) ->
  triple md (fun s => opn T D s /\ man_settled f s)
    (if trimmed then os_Truncate (mname id) (length (manifest_image (edits_of T'))) else mret None)
    (fun err s => match err with None => opn T' [] s | Some _ => md <> Calm /\ I s end) I.
Proof using.
  intros HT Hm Hsy Hp Htr.
  assert (forall s f', opn T D s -> f_content f' = manifest_image (edits_of T') -> f_synced f' = length (f_content f') ->
    opn T' [] (set_inode im f' s)) as Hset.
  { intros s f' Ho Hc Hs. pose proof (op_in _ _ _ _ _ _ _ _ _ _ (op_core _ _ _ _ _ _ _ _ _ _ Ho)) as [Hg _ _ _ Htabs].
    eapply opened_manifest; [exact Ho|by eapply ghost_tables| |].
    - split; rewrite ?app_nil_r, ?Hs, Hc; [done|lia].
    - rewrite app_nil_r. destruct HT as [->| ->]; [by apply Forall_app in Htabs as [? _]|done]. }
  assert (fault_blind (fun s => opn T D s /\ man_settled f s)) as Hb.
  { intros fl s [Ho Hf]. split; [by apply opened_blind|done]. }
  destruct trimmed.
  - unfold os_Truncate. eapply triple_bind.
    { apply (triple_find _ (mname id) im); [exact Hb|intros s [Ho _]; by eapply opened_safe|].
      intros s [Ho _]. apply (op_pin _ _ _ _ _ _ _ _ _ _ (op_core _ _ _ _ _ _ _ _ _ _ Ho) (live s) ltac:(by left)). }
    intros [i|e|]; [|by apply triple_ret; intros s [[Ho _] ?]; split; [|by eapply opened_safe]
      |apply triple_false; by intros s [_ ?]].
    apply triple_on_file. intros s [[Ho Hf] ->]. exists f. split; [done|]. intros Hcf.
    pose proof (file_Truncate_calm (length (manifest_image (edits_of T'))) f) as Hcalm.
    unfold file_Truncate in *. destruct (next_fault f) as [x g] eqn:En. apply next_fault_content in En as [Ec Es].
    destruct x as [|k]; cbn [fst snd] in Hcalm |- *.
    + destruct Hp as [rst Hp].
      assert (opn T' [] (set_inode im (mkFile (take (length (manifest_image (edits_of T'))) (f_content g))
        (Nat.min (length (manifest_image (edits_of T'))) (f_synced g)) (f_faults g)) s)) as Ho'.
      { apply Hset; [done|cbn [f_content]; by rewrite Ec, Hp, take_app_length|]. cbn [f_content f_synced].
        rewrite Ec, Es, Hsy, Hp, take_app_length, length_app. lia. }
      split; [exact Ho'|]. split; [by eapply opened_safe|]. intros Hmd. by apply Hcalm, Hcf.
    + assert (opn T D (set_inode im g s)) as Ho'.
      { pose proof (op_in _ _ _ _ _ _ _ _ _ _ (op_core _ _ _ _ _ _ _ _ _ _ Ho)) as [Hg _ _ _ Htabs].
        eapply opened_manifest; [exact Ho|exact Hg| |exact Htabs]. destruct Hm as [Hm1 Hm2]. split; rewrite ?Ec, ?Es; done. }
      split; [|split; [by eapply opened_safe|]; intros Hmd; by destruct (Hcalm (Hcf Hmd))].
      split; [intros Hmd; by destruct (Hcalm (Hcf Hmd))|by eapply opened_safe].
  - apply triple_ret. intros s [Ho Hf]. specialize (Htr eq_refl). specialize (Hset s f Ho Htr Hsy).
    by rewrite set_inode_id in Hset.
Qed.

(** *** Opening the MANIFEST for appending *)
Lemma triple_reopen_manifest T :
  triple md (opn T []) (Manifest.NewWriter (mname id))
    (fun r s => match r with
       | Ok w => w = mkWriter (Some im) (mname id) /\ opn T [] s
       | Err _ => md <> Calm /\ I s
       | Panic => False end) I.
Proof using.
  unfold Manifest.NewWriter.
  eapply (triple_bind _ _ _ _ (fun r s => match r with
    | Ok i => i = im /\ opn T [] s | Err _ => md <> Calm /\ I s | Panic => False end)).
  { apply triple_syscall; [apply opened_blind|intros Hmd s Ho; split; [done|by eapply opened_safe]|].
    intros s Ho. destruct (op_pin _ _ _ _ _ _ _ _ _ _ (op_core _ _ _ _ _ _ _ _ _ _ Ho) (live s) ltac:(by left)) as [-> _].
    split; [done|]. split; [by eapply opened_safe|done]. }
  intros [i|e|]; [|by apply triple_ret|by apply triple_false; intros ? []].
  apply triple_pure. intros ->.
  eapply triple_bind.
  { apply (triple_SyncDir md (opn T []) (opn T [])); [apply opened_blind|intros s; apply opened_safe|].
    intros s Ho. pose proof (opened_sync _ _ _ _ _ _ _ _ _ _ Ho) as Ho'. split; [done|by eapply opened_safe]. }
  intros [u|e|]; [by apply triple_ret| |by apply triple_false; intros ? []].
  apply triple_pure. intros Hmd. eapply (triple_bind _ _ _ _ (fun _ => opn T [])).
  - apply triple_on_file. intros s Ho. pose proof (op_in _ _ _ _ _ _ _ _ _ _ (op_core _ _ _ _ _ _ _ _ _ _ Ho)) as [Hg _ Hm _ Ht].
    destruct (named_pin _ _ _ _ _ (op_pin _ _ _ _ _ _ _ _ _ _ (op_core _ _ _ _ _ _ _ _ _ _ Ho)) Hm) as (f & Hf & Hmf). exists f. split; [done|]. intros _.
    destruct (file_Close f) as [f' err] eqn:E. apply file_Close_spec in E as (Ec & Es & _).
    assert (opn T [] (set_inode im f' s)) as Ho'.
    { eapply opened_manifest; [exact Ho|exact Hg| |exact Ht]. destruct Hmf as [Hm1 Hm2]. split; rewrite ?Ec, ?Es; done. }
    split; [done|]. split; [by eapply opened_safe|done].
  - intros u. apply triple_ret. intros s Ho. split; [done|by eapply opened_safe].
Qed.

Lemma triple_close_reading P :
  fault_blind P -> (forall s, P s -> I s) -> triple md P close_table (fun r s => P s /\ (md = Calm -> r = None)) I.
Proof using.
  intros Hb HI. unfold close_table.
  eapply (triple_bind _ _ _ _ (fun r s => P s /\ (md = Calm -> r = Ok tt))).
  - apply triple_syscall; [done|by intros Hmd s HP|]. intros s HP. split; [by split|]. split; [by apply HI|done].
  - intros r. apply triple_ret. intros s [HP Hr]. split; [done|]. intros Hmd. by rewrite (Hr Hmd).
Qed.

(** *** All of it *)
Lemma triple_replay_manifest T D (db : DB Mem) :
  tables_ok (T ++ D) -> (length D <= 1)%nat -> Z.of_nat (length (T ++ D)) < 2 ^ 63 ->
  triple md (fun s => opn T D s /\ exists f, inodes s !! im = Some f /\ f_synced f = length (f_content f))
    (replayExistingManifest (mname id) db)
    (fun r s => match r.2 with
       | None => exists T' rs, (T' = T \/ T' = T ++ D) /\
           Forall2 (fun r l => represents r (insert_all l [])) rs (t_log <$> T') /\
           r.1 = set_manifest (version_of T') (mkWriter (Some im) (mname id)) rs (Z.of_nat (S (length T'))) (seq_of T') 0 db /\
           opn T' [] s
       | Some _ => md <> Calm /\ I s
       end) I.
Proof using slices_laws good_device streams.
  intros Ht HD Hn.
  eapply triple_pre with (P' := fun s => exists f, (manifest_file T D f /\ f_synced f = length (f_content f)) /\
    opn T D s /\ man_settled f s).
  { intros s [Ho (f & Hf & Hs)]. exists f. split; [|done]. split; [|done].
    destruct (named_pin _ _ _ _ _ (op_pin _ _ _ _ _ _ _ _ _ _ (op_core _ _ _ _ _ _ _ _ _ _ Ho)) (in_man _ _ _ _ _ _ _ _ _ (op_in _ _ _ _ _ _ _ _ _ _ (op_core _ _ _ _ _ _ _ _ _ _ Ho))))
      as (f' & Hf' & Hm). congruence. }
  apply triple_exists. intros f. apply triple_pure. intros [Hm Hsy].
  destruct (replay_found T D f Ht HD Hn Hm Hsy) as (T' & trimmed & HT & Er & Hp & Htr).
  assert (tables_ok T') as HtT' by (destruct HT as [->| ->]; [by eapply tables_ok_prefix, Ht; apply prefix_app_r|done]).
  assert (fault_blind (fun s => opn T D s /\ man_settled f s)) as Hb.
  { intros fl s [Ho Hf]. split; [by apply opened_blind|done]. }
  assert (forall s, opn T D s /\ man_settled f s -> I s) as HI by (intros s [Ho _]; by eapply opened_safe).
  assert (forall (P : Fs -> Prop), (forall s, P s -> md <> Calm /\ (opn T D s /\ man_settled f s)) ->
    forall (e : error) db', triple md P (mret (db', Some e)) (fun r s => match r.2 with
       | None => exists T' rs, (T' = T \/ T' = T ++ D) /\
           Forall2 (fun r l => represents r (insert_all l [])) rs (t_log <$> T') /\
           r.1 = set_manifest (version_of T') (mkWriter (Some im) (mname id)) rs (Z.of_nat (S (length T'))) (seq_of T') 0 db /\
           opn T' [] s
       | Some _ => md <> Calm /\ I s end) I) as Herr.
  { intros P HP e db'. apply triple_ret. intros s Hs. destruct (HP s Hs) as [Hmd H]. cbn. split; [done|by apply HI]. }
  unfold replayExistingManifest.
  eapply (triple_bind _ _ _ _ (fun r s => (opn T D s /\ man_settled f s) /\ match r with
    | Ok rd => rd = open_reader (mkSource (f_content f) None) | Err _ => md <> Calm | Panic => False end)).
  { apply (triple_new_reader (Errorf "beachdb/manifest: failed to open file") _ (mname id) im); [exact Hb|exact HI|..].
    - intros s [Ho _]. apply (op_pin _ _ _ _ _ _ _ _ _ _ (op_core _ _ _ _ _ _ _ _ _ _ Ho) (live s) ltac:(by left)).
    - intros s [_ Hf]. by exists f. }
  intros [rd|e|]; [|apply Herr; by intros s [? ?]|apply triple_false; by intros s [_ ?]].
  eapply triple_pre with (P' := fun s => rd = open_reader (mkSource (f_content f) None) /\ (opn T D s /\ man_settled f s));
    [by intros s [? ?]|]. apply triple_pure. intros ->.
  pose proof (replay_loop_open (drain_fuel (open_reader (mkSource (f_content f) None)))
    (open_reader (mkSource (f_content f) None)) Replay.init_replay eq_refl) as Hopen.
  change (Replay.replay_loop _ _ Replay.init_replay) with
    (Replay.replayManifestStream (open_reader (mkSource (f_content f) None))) in Hopen.
  destruct (Replay.replayManifestStream _) as [result rd]. cbn [fst snd] in Er, Hopen. subst result.
  eapply triple_bind; [apply (triple_close_reading _ Hb HI)|]. intros close_err.
  unfold Manifest.CloseReader, close_reader. rewrite Hopen. cbn [negb].
  eapply triple_pre with (P' := fun s => (md = Calm -> close_err = None) /\ (opn T D s /\ man_settled f s));
    [by intros s [? ?]|]. apply triple_pure. intros Hce.
  destruct close_err as [e|]; cbn [fmap option_fmap option_map].
  { apply Herr. intros s Hs. split; [|done]. intros Hmd. by specialize (Hce Hmd). }
  cbn [Replay.tailTrimmed Replay.validOffset Replay.version].
  eapply triple_bind; [by apply triple_truncate_manifest|]. intros [e|]; [by apply triple_ret|].
  eapply triple_bind; [by apply triple_cleanup|]. intros u. rewrite AllFiles_version_of.
  eapply triple_bind; [apply (triple_open_readers T' T' []); [done|by apply Forall_forall]|].
  intros [rs|e|]; [|by apply triple_ret; intros s [Ho Hmd]; split; [|by eapply opened_safe]
    |apply triple_false; by intros s [_ ?]].
  eapply triple_pre with (P' := fun s => Forall2 (fun r l => represents r (insert_all l [])) rs (t_log <$> T') /\ opn T' [] s).
  { intros s [Ho (rs' & -> & Hf)]. by split. }
  apply triple_pure. intros Hrs. eapply triple_bind; [apply triple_reopen_manifest|].
  intros [mw|e|]; [|by apply triple_ret|by apply triple_false; intros ? []].
  apply triple_ret. intros s [-> Ho]. exists T', rs. by split_and!.
Qed.
End Reading.

(** ** The log *)
Lemma prefix_fmap_inv {A B} (g : A -> B) l qs :
  qs `prefix_of` g <$> l -> exists l', qs = g <$> l' /\ l' `prefix_of` l.
Proof.
  revert qs. induction l as [|a l IH]; intros qs Hq.
  - apply prefix_nil_inv in Hq as ->. by exists [].
  - destruct qs as [|q qs]; [exists []; split; [done|apply prefix_nil]|]. cbn in Hq.
    pose proof (prefix_cons_inv_1 _ _ _ _ Hq) as ->. apply prefix_cons_inv_2 in Hq.
    destruct (IH qs Hq) as (l' & -> & Hl). exists (a :: l'). split; [done|by apply prefix_cons].
Qed.

Lemma triple_or' {A} md (P1 P2 : Fs -> Prop) (m : io A) Q I :
  triple md P1 m Q I -> triple md P2 m Q I -> triple md (fun s => P1 s \/ P2 s) m Q I.
Proof. intros H1 H2 w Hc [HP|HP] HI; [by apply H1|by apply H2]. Qed.

Lemma triple_ext {A} md P (m m' : io A) Q I : (forall w, m w = m' w) -> triple md P m' Q I -> triple md P m Q I.
Proof. intros E H w Hc HP HI. rewrite E. by apply H. Qed.

Lemma ghost_log acked issued N T Wd W W' :
  ghost_ok acked issued N T [] Wd W -> Wd `prefix_of` W' -> W' `prefix_of` W -> ghost_ok acked issued N T [] W' W'.
Proof.
  intros [Ht Hl Hw Hf Hk Ha Hi Hz Hq] H1 H2.
  assert (Wd `sublist_of` W') as Hs1 by (destruct H1 as [k ->]; by apply sublist_inserts_r).
  assert (W' `sublist_of` W) as Hs2 by (destruct H2 as [k ->]; by apply sublist_inserts_r).
  split; try done; [|eapply Forall_impl; [exact Hk|]; intros e He; by eapply keys_of_sublist|by etrans|by etrans].
  destruct H2 as [k ->]. by apply Forall_app in Hf as [? _].
Qed.

Section Log.
Context {Mem : Type} {memtable : Memtable Mem} {memtable_laws : MemtableLaws Mem}.
Context {slices : Slices} {slices_laws : SlicesLaws} {device : Device} {good_device : GoodDevice} {streams : Streams}.
Context (md : mode) (acked issued : list batch) (N id : Z) (im : nat) (T : list tbl) (Wd W : list batch).
Local Abbreviation opn Wd W := (opened acked issued N id im T [] Wd W).
Local Abbreviation I := (safe acked issued N).

(** The log holds the batches of [W'] and nothing else. *)
Record logged (W' : list batch) (s : Fs) : Prop := {
  lg_opened : opn W' W' s;
  lg_content : ((forall d, d ∈ dirs s -> d !! walFileName = None) /\ W' = []) \/
    exists iw f, pin walFileName iw s /\ inodes s !! iw = Some f /\
      f_content f = wal_image W' /\ f_synced f = length (f_content f)
}.

Lemma core_log iw f Wd' W' s :
  core acked issued N id im T [] Wd W s -> pin walFileName iw s -> ghost_ok acked issued N T [] Wd' W' ->
  wal_file_ok Wd' W' f -> core acked issued N id im T [] Wd' W' (set_inode iw f s).
Proof using.
  intros [Hw Hi [Hg Hc Hm Hl Ht] Hpm] Hpw Hg' Hf.
  destruct (Hpw (live s) ltac:(by left)) as [Elive _].
  assert (forall nm F' F, nm <> walFileName -> named nm F' F s -> named nm F' F (set_inode iw f s)) as Hn.
  { intros nm F' F Hne. apply named_set_inode. by eapply pin_unref. }
  split; [|done| |by apply pin_set_inode].
  - apply wf_set_inode; [done|by eapply (wf_dirs s Hw); [left|]|apply Hf].
  - split; [done|by apply Hn|apply Hn; [by apply mname_ne_wal|done]| |].
    + eapply (pin_named _ iw); [by apply pin_set_inode|apply lookup_set_inode|done].
    + rewrite Forall_forall in Ht |- *. intros t Hin. apply Hn; [|by apply Ht].
      pose proof (to_wf _ (g_tables _ _ _ _ _ _ _ Hg)) as Hwt. rewrite Forall_forall in Hwt.
      by apply tname_ne_wal, wf_table_id, Hwt.
Qed.

(** What is in the log: the batches read back. *)
Lemma log_contents f :
  Wd `prefix_of` W -> wal_file_ok Wd W f -> f_synced f = length (f_content f) ->
  Forall (fun b => batch_ok b /\ fits Wal.walRecordFormat (Batch.batch_wire b)) W ->
  exists W' e src, Wd `prefix_of` W' /\ W' `prefix_of` W /\ Forall batch_ok W' /\
    read_all Wal.walRecordFormat wal.ErrReaderClosed (S (length (f_content f))) (open_reader (mkSource (f_content f) None)) =
      (Batch.batch_wire <$> W', throw e, mkReader true src (length (wal_image W'))) /\
    wal_image W' `prefix_of` f_content f /\
    ((e = io.EOF /\ f_content f = wal_image W') \/ e = record.ErrTruncated).
Proof using.
  intros Hpre [Hc Hd] Hsy Hok. rewrite Hsy in Hd.
  destruct (read_all_prefix Wal.walRecordFormat wal.ErrReaderClosed (Batch.batch_wire <$> W) (f_content f) 0
    (S (length (f_content f)))) as (qs & e & src & E & Hq & Hqi & Hcase & Hmax); [|exact Hc|lia|].
  { apply Forall_fmap. eapply Forall_impl; [exact Hok|]. by intros b []. }
  destruct (prefix_fmap_inv _ _ _ Hq) as (W' & -> & HW').
  assert (Wd `prefix_of` W') as Hdur.
  { destruct (prefix_weak_total _ _ _ Hpre HW') as [?|Hp]; [done|].
    assert (Batch.batch_wire <$> Wd `prefix_of` Batch.batch_wire <$> W') as Hm.
    { apply Hmax; [destruct Hpre as [k ->]; rewrite fmap_app; by apply prefix_app_r|].
      destruct (prefix_weak_total _ _ _ (wal_image_prefix _ _ Hpre) Hc) as [?|Hp2]; [done|].
      apply prefix_length_eq in Hp2; [by rewrite Hp2|lia]. }
    apply prefix_length in Hm. rewrite !length_fmap in Hm. apply prefix_length_eq in Hp; [by rewrite Hp|lia]. }
  exists W', e, src. split_and!; [done|done| |exact E|exact Hqi|].
  - destruct HW' as [k ->]. apply Forall_app in Hok as [Hok _]. eapply Forall_impl; [exact Hok|]. by intros b [].
  - destruct Hcase as [[-> ?]|[-> ?]]; auto.
Qed.

Lemma opened_ghost Wd0 W0 s : opn Wd0 W0 s -> ghost_ok acked issued N T [] Wd0 W0.
Proof using. intros Ho. apply Ho. Qed.

(** Recovery ends at the end of the log, or cuts a torn record off. *)
Lemma triple_wal_end iw f W' (e : error) (src : Source) (db : DB Mem) :
  Wd `prefix_of` W' -> W' `prefix_of` W -> wal_image W' `prefix_of` f_content f -> f_synced f = length (f_content f) ->
  (e = io.EOF /\ f_content f = wal_image W') \/ e = record.ErrTruncated ->
  triple md (fun s => opn Wd W s /\ pin walFileName iw s /\ inodes s !! iw = Some f)
    (wal_end e (mkReader true src (length (wal_image W'))) walFileName db)
    (fun r s => r.1 = db /\ match r.2 with
       | None => logged W' s
       | Some _ => md <> Calm /\ opn Wd W s end) I.
Proof using.
  intros H1 H2 Hp Hsy Hcase.
  assert (forall s f', opn Wd W s -> pin walFileName iw s -> f_content f' = wal_image W' ->
    f_synced f' = length (f_content f') -> logged W' (set_inode iw f' s)) as Hset.
  { intros s f' Ho Hpw Hc Hs. split.
    - split; [|right; exists iw, f'; split_and!; [by apply pin_set_inode|apply lookup_set_inode|done]].
      eapply core_log; [apply Ho|done|exact (ghost_log _ _ _ _ _ _ _ (opened_ghost _ _ _ Ho) H1 H2)|].
      split; [by rewrite Hc|]. rewrite Hs, Hc. lia.
    - right. exists iw, f'. split_and!; [by apply pin_set_inode|apply lookup_set_inode|done|done]. }
  unfold wal_end. destruct Hcase as [[-> Hc]| ->]; cbn [errors_Is].
  - apply triple_ret. intros s (Ho & Hpw & Hf). split; [done|].
    specialize (Hset s f Ho Hpw Hc Hsy). by rewrite set_inode_id in Hset.
  - replace (errors_Is record.ErrTruncated io.EOF) with false by reflexivity.
    replace (errors_Is record.ErrTruncated record.ErrTruncated) with true by reflexivity.
    eapply (triple_bind _ _ _ _ (fun err s => match err with
      | None => logged W' s | Some _ => md <> Calm /\ opn Wd W s end)); cycle 1.
    { intros [e|]; apply triple_ret; intros s Hs; by split. }
    unfold os_Truncate. eapply triple_bind.
    { apply (triple_find _ _ _ _ _ walFileName iw).
      - intros fl s (Ho & Hpw & Hf). split_and!; [by apply opened_blind|done|done].
      - intros s (Ho & _). by eapply opened_safe.
      - intros s (_ & Hpw & _). apply (Hpw (live s) ltac:(by left)). }
    intros [i|e|]; [|by apply triple_ret; intros s [[Ho _] ?]|apply triple_false; by intros s [_ ?]].
    apply triple_on_file. intros s [(Ho & Hpw & Hf) ->]. exists f. split; [done|]. intros Hcf.
    unfold Wal.ValidOffset, valid_offset. cbn [r_pos].
    pose proof (file_Truncate_calm (length (wal_image W')) f) as Hcalm.
    unfold file_Truncate in *. destruct (next_fault f) as [x g] eqn:En. apply next_fault_content in En as [Ec Es].
    destruct x as [|k]; cbn [fst snd] in Hcalm |- *.
    + destruct Hp as [rst Hp].
      assert (logged W' (set_inode iw (mkFile (take (length (wal_image W')) (f_content g))
        (Nat.min (length (wal_image W')) (f_synced g)) (f_faults g)) s)) as Hl.
      { apply Hset; [done|done|cbn [f_content]; by rewrite Ec, Hp, take_app_length|]. cbn [f_content f_synced].
        rewrite Ec, Es, Hsy, Hp, take_app_length, length_app. lia. }
      split; [exact Hl|]. split; [eapply opened_safe, Hl|]. intros Hmd. by apply Hcalm, Hcf.
    + assert (opn Wd W (set_inode iw g s)) as Ho'.
      { pose proof (opened_ghost _ _ _ Ho) as Hg. destruct Ho as [Hc Hl].
        pose proof (in_wal _ _ _ _ _ _ _ _ _ (op_in _ _ _ _ _ _ _ _ _ _ Hc)) as Hn.
        destruct (named_pin _ _ _ _ _ Hpw Hn) as (f0 & Hf0 & [Hw1 Hw2]). rewrite Hf in Hf0. injection Hf0 as <-.
        split; [eapply core_log; [exact Hc|exact Hpw|exact Hg|split; rewrite ?Ec, ?Es; done]|].
        right. exists iw, g. split_and!; [by apply pin_set_inode|apply lookup_set_inode|by rewrite Ec, Es]. }
      split; [|split; [by eapply opened_safe|]; intros Hmd; by destruct (Hcalm (Hcf Hmd))].
      split; [intros Hmd; by destruct (Hcalm (Hcf Hmd))|done].
Qed.

(** The look at the log: it is there, or nothing was ever in it. *)
Definition log_found iw f (s : Fs) : Prop := opn Wd W s /\ pin walFileName iw s /\ inodes s !! iw = Some f.

Lemma log_found_blind iw f : fault_blind (log_found iw f).
Proof using. intros fl s (Ho & Hpw & Hf). split_and!; [by apply opened_blind|done|done]. Qed.

Lemma log_found_safe iw f s : log_found iw f s -> I s.
Proof using. intros (Ho & _). by eapply opened_safe. Qed.

Lemma opened_log s :
  opn Wd W s ->
  match live s !! walFileName with
  | Some iw => exists f, Wd `prefix_of` W /\ wal_file_ok Wd W f /\ f_synced f = length (f_content f) /\
      Forall (fun b => batch_ok b /\ fits Wal.walRecordFormat (Batch.batch_wire b)) W /\ log_found iw f s
  | None => logged [] s /\ Wd = []
  end.
Proof using.
  intros Ho. pose proof (in_wal _ _ _ _ _ _ _ _ _ (op_in _ _ _ _ _ _ _ _ _ _ (op_core _ _ _ _ _ _ _ _ _ _ Ho))) as Hn.
  pose proof (opened_ghost _ _ _ Ho) as Hg. destruct (op_log _ _ _ _ _ _ _ _ _ _ Ho) as [Habs|(iw & f & Hpw & Hf & Hsy)].
  - rewrite (Habs (live s) ltac:(by left)).
    assert (Wd = []) as HWd by (specialize (Hn (live s) ltac:(by left)); by rewrite (Habs (live s) ltac:(by left)) in Hn).
    split; [|done]. split; [|by left]. split; [|by left]. destruct Ho as [[Hw Hi Hin Hp] _]. split; [done|done| |done].
    destruct Hin as [_ Hc Hma _ Ht]. split; [|done|done| |done].
    + eapply ghost_log; [exact Hg|by rewrite HWd|apply prefix_nil].
    + intros d Hd. by rewrite (Habs d Hd).
  - destruct (Hpw (live s) ltac:(by left)) as [El _]. rewrite El. exists f.
    destruct (named_pin _ _ _ _ _ Hpw Hn) as (f0 & Hf0 & Hwf). rewrite Hf in Hf0. injection Hf0 as <-.
    split_and!; [apply Hg|done|done|apply Hg|done].
Qed.

Lemma triple_replay_log (db : DB Mem) m :
  mem db = Some m -> mem_inv m ->
  triple md (opn Wd W) (replayWAL walFileName db)
    (fun r s => match r.2 with
       | None => exists W', (Wd `prefix_of` W' /\ W' `prefix_of` W /\ Forall batch_ok W' /\
           applyOperations (mjoin W') db = Ok r.1) /\ logged W' s
       | Some _ => md <> Calm /\ (exists W', applyOperations (mjoin W') db = Ok r.1) /\ opn Wd W s
       end) I.
Proof using memtable_laws good_device streams.
  intros Em Hm. unfold replayWAL.
  assert (forall e s, opn Wd W s -> md <> Calm -> md <> Calm /\
    (exists W', applyOperations (mjoin W') db = Ok (db, Some e : option error).1) /\ opn Wd W s) as Herr.
  { intros e s Ho Hmd. split; [done|]. split; [by exists []|done]. }
  eapply (triple_bind _ _ _ _ (fun r s => match r with
    | Ok _ => exists iw f, (Wd `prefix_of` W /\ wal_file_ok Wd W f /\ f_synced f = length (f_content f) /\
        Forall (fun b => batch_ok b /\ fits Wal.walRecordFormat (Batch.batch_wire b)) W) /\ log_found iw f s
    | Err e => (e = os_ErrNotExist /\ logged [] s /\ Wd = []) \/ (errors_Is e os_ErrNotExist = false /\ md <> Calm /\ opn Wd W s)
    | Panic => False end)).
  { apply triple_syscall; [apply opened_blind|intros Hmd s Ho; by right|]. intros s Ho.
    split; [|split; [by eapply opened_safe|done]]. pose proof (opened_log s Ho) as Hl.
    destruct (live s !! walFileName) as [iw|]; [|by left].
    destruct Hl as (f & Hpre & Hwf & Hsy & Hok & Hlf). by exists iw, f. }
  intros [u|e|]; [|apply triple_or'; [|]|by apply triple_false; intros ? []]; cycle 1.
  { apply triple_pure. intros ->. replace (errors_Is os_ErrNotExist os_ErrNotExist) with true by reflexivity.
    apply triple_ret. intros s [Hl HWd]. exists []. split; [|done]. rewrite HWd. split; [done|]. split; [apply prefix_nil|].
    split; [constructor|done]. }
  { apply triple_pure. intros He. rewrite He. apply triple_ret. intros s [Hmd Ho]. by apply Herr. }
  apply triple_exists. intros iw. apply triple_exists. intros f. apply triple_pure. intros (Hpre & Hwf & Hsy & Hok).
  destruct (log_contents f Hpre Hwf Hsy Hok) as (W' & e & src & H1 & H2 & Hok' & Er & Hp & Hcase).
  destruct (applyOperations_total (mjoin W') db m Em Hm) as [db' Happ].
  eapply (triple_bind _ _ _ _ (fun r s => log_found iw f s /\ match r with
    | Ok rd => rd = open_reader (mkSource (f_content f) None) | Err _ => md <> Calm | Panic => False end)).
  { apply (triple_new_reader _ _ _ _ (Errorf "wal: failed to open file") _ walFileName iw); [apply log_found_blind|apply log_found_safe|..].
    - intros s (_ & Hpw & _). apply (Hpw (live s) ltac:(by left)).
    - intros s (_ & _ & Hf). by exists f. }
  intros [rd|e'|]; [|apply triple_ret; intros s [[Ho _] Hmd]; by apply Herr|apply triple_false; by intros s [_ ?]].
  eapply triple_pre with (P' := fun s => rd = open_reader (mkSource (f_content f) None) /\ log_found iw f s); [by intros s [? ?]|].
  apply triple_pure. intros ->.
  eapply triple_bind.
  { eapply triple_ext; [intros w; by apply (replay_wal_loop_all walFileName W' _ _ _ e db db' w Er Hok' Happ)|].
    by apply triple_wal_end. }
  intros [db1 err]. cbn [fst snd]. apply triple_pure. intros ->.
  eapply (triple_bind _ _ _ _ (fun _ s => match err with None => logged W' s | Some _ => md <> Calm /\ opn Wd W s end)).
  { eapply triple_post; [|apply triple_close_reading].
    - by intros u' s [? _].
    - intros fl s. destruct err; [intros [? Ho]; split; [done|by apply opened_blind]|].
      intros [Ho Hl]. split; [by apply opened_blind|done].
    - intros s. destruct err; [intros [_ Ho]; by eapply opened_safe|intros [Ho _]; by eapply opened_safe]. }
  intros u'. apply triple_ret. intros s Hs. cbn [fst snd]. destruct err as [e'|].
  - destruct Hs as [Hmd Ho]. split; [done|]. split; [by exists W'|done].
  - exists W'. by split.
Qed.
End Log.
