(* ===== verification/Opening.v ===== *)
(** * Open

    The end of [Open] after the MANIFEST and the log have been read, its error
    paths, and what it makes of every directory a crash can leave. *)
From Stdlib Require Import QArith_base.
From S2P Require Import Prelude.
From S2P Require Import Errors.
From S2P Require Import Keys.
From S2P Require Import GoIO.
From S2P Require Import GoSort.
From S2P Require Import Record.
From S2P Require Import RecordIO.
From S2P Require Import Fs.
From S2P Require Wal.
From S2P Require Batch.
From S2P Require Import Memtable.
From S2P Require SstWriter.
From S2P Require SstReader.
From S2P Require Import Edit.
From S2P Require Import Version.
From S2P Require Import Current.
From S2P Require Import Manifest.
From S2P Require Replay.
From S2P Require Import FileNames.
From S2P Require Import Engine.
From S2P Require Import EngineRun.
From S2P Require Import Disk.
From S2P Require Import DiskRun.
From S2P Require Import Live.
From S2P Require Import Recovery.
From S2P Require Import Boot.

From S2P Require Import Reopen.

Local Open Scope Z_scope.

(** ** Closing a file changes nothing that matters *)
Definition same_file (f f' : File) : Prop := f_content f' = f_content f /\ f_synced f' = f_synced f.

Lemma named_touch nm N (F : File -> Prop) i f f' s :
  (forall g g', same_file g g' -> F g -> F g') -> inodes s !! i = Some f -> same_file f f' ->
  named nm N F s -> named nm N F (set_inode i f' s).
Proof.
  intros HF Hf Hs Hn d Hd. specialize (Hn d Hd). destruct (d !! nm) as [j|]; [|done].
  destruct Hn as (g & Hg & HFg). destruct (decide (i = j)) as [<-|Hne].
  - exists f'. split; [apply lookup_set_inode|]. rewrite Hf in Hg. injection Hg as <-. by eapply HF.
  - exists g. cbn. by rewrite lookup_insert_ne.
Qed.

Lemma core_touch acked issued N id im T D Wd W i f f' s :
  core acked issued N id im T D Wd W s -> inodes s !! i = Some f -> same_file f f' ->
  core acked issued N id im T D Wd W (set_inode i f' s).
Proof.
  intros [Hw Hi [Hg Hc Hm Hl Ht] Hp] Hf Hs.
  split; [|done| |by apply pin_set_inode].
  - apply wf_set_inode; [done|by eexists|]. destruct Hs as [-> ->]. by eapply (wf_synced s Hw).
  - split; [done|..].
    + eapply named_touch; [|done..]. intros g g' [Ec Es] [H1 H2]. split; by rewrite ?Es, ?Ec.
    + eapply named_touch; [|done..]. intros g g' [Ec Es] [H1 H2]. split; by rewrite ?Es, ?Ec.
    + eapply named_touch; [|done..]. intros g g' [Ec Es] [H1 H2]. split; by rewrite ?Es, ?Ec.
    + eapply Forall_impl; [exact Ht|]. intros t Hn. eapply named_touch; [|done..].
      intros g g' [Ec Es] [H1 H2]. split; by rewrite ?Es, ?Ec.
Qed.

Section Opening.
Context {Mem : Type} {memtable : Memtable Mem} {memtable_laws : MemtableLaws Mem}.
Context {slices : Slices} {slices_laws : SlicesLaws} {device : Device} {good_device : GoodDevice} {streams : Streams}.
Context (md : mode) (acked issued : list batch) (N : Z).
Local Abbreviation I := (safe acked issued N).

(** ** The log is opened for appending *)
Section NewLog.
Context (id : Z) (im : nat) (T : list tbl) (W : list batch).
Local Abbreviation cor := (core acked issued N id im T [] W W).

Record wal_made (i : nat) (s : Fs) : Prop := {
  wm_core : cor s;
  wm_live : live s !! walFileName = Some i;
  wm_file : exists f, inodes s !! i = Some f /\ f_content f = wal_image W /\ f_synced f = length (f_content f)
}.

Lemma wal_made_blind i : fault_blind (wal_made i).
Proof using. intros fl s [Hc Hl Hf]. split; [by apply core_blind|done|done]. Qed.

Lemma wal_made_safe i s : wal_made i s -> I s.
Proof using. intros [Hc _ _]. by eapply core_safe. Qed.

Lemma core_create_wal s i s' :
  W = [] -> cor s -> (forall d, d ∈ dirs s -> d !! walFileName = None) -> create walFileName s = (i, s') ->
  wal_made i s'.
Proof using.
  intros EW [Hw Hi Hin Hp] Habs Hc. pose proof Hc as Hcr. injection Hc as <- Es.
  assert (inodes s' !! next_ino s = Some (mkFile [] 0 (new_faults s (next_ino s)))) as Hino
    by (rewrite <-Es; cbn; by rewrite lookup_insert_eq).
  assert (live s' !! walFileName = Some (next_ino s)) as Hlive by (rewrite <-Es; cbn; by rewrite lookup_insert_eq).
  split; [|done|].
  - split; [by eapply wf_create|by eapply inj_create| |eapply pin_create; [done|done| |done]; intros E; by destruct (mname_ne_wal id)].
    destruct Hin as [Hg Hcu Hm _ Ht]. split; [done|..].
    + eapply named_create; [done|done|exact current_ne_wal|done].
    + eapply named_create; [done|done|apply mname_ne_wal|done].
    + intros d Hd. rewrite <-Es in Hd. cbn in Hd. apply elem_of_cons in Hd as [->|Hd].
      * rewrite lookup_insert_eq. eexists. split; [exact Hino|]. rewrite EW. split; [apply prefix_nil|by split].
      * by rewrite (Habs d Hd).
    + rewrite Forall_forall in Ht |- *. intros t Hin. eapply named_create; [done|done| |by apply Ht].
      pose proof (to_wf _ (g_tables _ _ _ _ _ _ _ Hg)) as Hwt. rewrite Forall_forall in Hwt.
      by apply tname_ne_wal, wf_table_id, Hwt.
  - eexists. split; [exact Hino|]. by rewrite EW.
Qed.

Lemma triple_open_wal :
  triple md (logged acked issued N id im T W) (os_OpenAppend walFileName)
    (fun r s => match r with
       | Ok i => wal_made i s | Err _ => md <> Calm /\ cor s | Panic => False end) I.
Proof using.
  apply triple_syscall.
  - intros fl s [Ho Hl]. split; [by apply opened_blind|done].
  - intros Hmd s [[Hc _] _]. by split.
  - intros s [[Hc Hlog] Hl]. destruct Hl as [[Habs EW]|(iw & f & Hpw & Hf & Hcf & Hsf)].
    + rewrite (Habs (live s) ltac:(by left)). destruct (create walFileName s) as [i s'] eqn:Ecr.
      assert (wal_made i s') as Hwm by (by eapply core_create_wal).
      split; [done|]. split; [by eapply wal_made_safe|]. intros _. by eapply calm_create.
    + destruct (Hpw (live s) ltac:(by left)) as [El _]. rewrite El.
      assert (wal_made iw s) as Hwm by (split; [done|done|by exists f]).
      split; [done|]. split; [by eapply wal_made_safe|done].
Qed.

Lemma triple_wal_writer :
  triple md (logged acked issued N id im T W) (Wal.NewWriter walFileName)
    (fun r s => match r with
       | Ok (w, i) => exists f, (w = Wal.mkWriter true bufio_NewWriter /\ f_content f = wal_image W /\
           f_synced f = length (f_content f)) /\ running acked issued N id im i f T [] W W s
       | Err _ => md <> Calm /\ cor s
       | Panic => False end) I.
Proof using.
  unfold Wal.NewWriter. eapply triple_bind; [apply triple_open_wal|].
  intros [i|e|]; [|by apply triple_ret|by apply triple_false; intros ? []].
  eapply triple_bind.
  { apply (triple_SyncDir md (wal_made i) (fun s => wal_made i s /\ unsynced s = []));
      [apply wal_made_blind|intros s; apply wal_made_safe|].
    intros s [Hc Hl Hf]. assert (wal_made i (sync_dirs s)) as Hwm by (split; [by apply core_sync|done|done]).
    split; [done|by eapply wal_made_safe]. }
  intros [u|e|]; [| |by apply triple_false; intros ? []].
  - apply triple_ret. intros s [[[Hw Hi Hin Hp] Hl (f & Hf & Hcf & Hsf)] Hu]. exists f. split; [done|].
    split; try done. intros d Hd. rewrite Hu in Hd. apply list_elem_of_singleton in Hd as ->. split; [done|].
    intros nm E. eapply Hi; [by left|done..].
  - apply triple_pure. intros Hmd. eapply (triple_bind _ _ _ _ (fun _ => wal_made i)).
    + apply triple_on_file. intros s [Hc Hl (f & Hf & Hcf & Hsf)]. exists f. split; [done|]. intros _.
      destruct (file_Close f) as [f' err] eqn:E. apply file_Close_spec in E as (Ec & Es & _).
      assert (wal_made i (set_inode i f' s)) as Hwm; [|split; [done|split; [by eapply wal_made_safe|done]]].
      split; [by eapply core_touch|done|]. exists f'. split; [apply lookup_set_inode|]. by rewrite Ec, Es.
    + intros u. apply triple_ret. intros s [Hc _ _]. by split.
Qed.
End NewLog.

(** ** Giving up

    [Close] on the half-open database: no log yet, no goroutine. *)
Section Abandon.
Context (id : Z) (im : nat) (T : list tbl) (Wd W : list batch).
Local Abbreviation cor := (core acked issued N id im T [] Wd W).

Lemma triple_reopened_readers rs err : triple md cor (close_readers rs err) (fun _ => cor) I.
Proof using.
  revert err. induction rs as [|r rs IH]; intros err; [by apply triple_ret|]. cbn [close_readers].
  eapply (triple_bind _ _ _ _ (fun _ => cor)); [|intros ce; by destruct (SstReader.CloseReader ce (Some r))].
  destruct (SstReader.file r); [|by apply triple_ret].
  eapply triple_post; [|apply triple_close_reading; [apply core_blind|intros s; apply core_safe]]. by intros u s [? _].
Qed.

Lemma triple_reopened_manifest :
  triple md cor (Manifest.Close (Some (mkWriter (Some im) (mname id)))) (fun _ => cor) I.
Proof using.
  assert (forall g : File -> File * option error, (forall f, f_content (g f).1 = f_content f /\
      (f_synced f <= length (f_content f) -> f_synced f <= f_synced (g f).1 <= length (f_content f))%nat /\
      (f_faults f = [] -> f_faults (g f).1 = [])) ->
    triple md cor (on_file im (fun f => let '(f, err) := g f in (err, f))) (fun _ => cor) I) as Hcall.
  { intros g Hg. apply triple_on_file. intros s Hc. pose proof (op_in _ _ _ _ _ _ _ _ _ _ Hc) as Hin.
    destruct (named_pin _ _ _ _ _ (op_pin _ _ _ _ _ _ _ _ _ _ Hc) (in_man _ _ _ _ _ _ _ _ _ Hin)) as (f & Hf & Hm1 & Hm2).
    exists f. split; [done|]. intros Hcf. destruct (Hg f) as (Ec & Es & Ef). destruct (g f) as [f' err]. cbn in Ec, Es, Ef.
    assert (cor (set_inode im f' s)) as Hc'.
    { eapply core_manifest; [exact Hc|apply Hin| |apply Hin]. split; [by rewrite Ec|]. rewrite Ec. lia. }
    split; [done|]. split; [by eapply core_safe|]. auto. }
  unfold Manifest.Close. cbn [m_file]. eapply triple_bind; [apply (Hcall file_Sync)|].
  { intros f. pose proof (file_Sync_calm f) as Hcalm. destruct (file_Sync f) as [f' err] eqn:E. cbn [fst snd] in *.
    apply file_Sync_spec in E as (Hc & Hs & Hn & _).
    split_and!; [done|destruct err; [rewrite Hn by done|rewrite Hs by done]; lia|]. intros Hf. by apply Hcalm. }
  intros e1. eapply triple_bind; [apply (Hcall file_Close)|].
  { intros f. pose proof (file_Close_calm f) as Hcalm. destruct (file_Close f) as [f' err] eqn:E. cbn [fst snd] in *.
    apply file_Close_spec in E as (Hc & Hs & _). rewrite Hs. split_and!; [done|lia|]. intros Hf. by apply Hcalm. }
  intros e2. by apply triple_ret.
Qed.

Lemma triple_abandon (db : DB Mem) :
  wal db = None -> manifest db = Some (mkWriter (Some im) (mname id)) ->
  triple md cor (abandon db) (fun _ => I) I.
Proof using.
  intros Ew Em. unfold abandon, discard, close_finish, close_wal. cbn [ssts wal manifest set_closed]. rewrite Ew, Em.
  eapply (triple_bind _ _ _ _ (fun _ => cor)); [|intros x; apply triple_ret; intros s; apply core_safe].
  eapply triple_bind; [apply triple_reopened_readers|]. intros e1. cbv zeta.
  eapply (triple_bind _ _ _ _ (fun _ => cor)); [by apply triple_ret|]. intros e2.
  eapply (triple_bind _ _ _ _ (fun _ => cor)); [|intros e3; by apply triple_ret].
  eapply triple_bind; [apply triple_reopened_manifest|]. intros [err mw]. by apply triple_ret.
Qed.
End Abandon.

(** ** The database that has been opened *)
Section Opened.
Context (rand : nat -> nat -> Q) (cfg : options) (synced_writes : o_syncOnWrite cfg = true).
Context (in_range : N * batches_bytes issued < 2 ^ 31).
Context (id : Z) (im : nat) (T : list tbl) (W : list batch).

Lemma number_all_keys s :
  Forall batch_ok W -> Forall (fun e => UserKey e.1 ∈ keys_of W /\ key_fits (UserKey e.1)) (number s (mjoin W)).
Proof using.
  intros Hok. assert (Forall (fun op => key_fits (Batch.op_key op)) (mjoin W)) as Hk.
  { clear -Hok. induction Hok as [|ops l [_ _ Hk] _ IH]; [constructor|].
    change (mjoin (ops :: l)) with (ops ++ mjoin l). by apply Forall_app. }
  unfold keys_of. clear Hok. revert s Hk. generalize (mjoin W) as ops. intros ops s Hk. revert s.
  induction Hk as [|op ops Hop _ IH]; intros s; cbn [number]; [constructor|].
  constructor; [cbn; split; [by left|done]|]. eapply Forall_impl; [apply IH|]. intros e [He ?]. split; [by right|done].
Qed.

Definition manifest_read (v : Version) (l : Z) (rs : list SstReader.Reader) : DB Mem :=
  set_manifest v (mkWriter (Some im) (mname id)) rs (Z.of_nat (S (length T))) (seq_of T) l (new_db rand cfg).

Lemma layered_read v l rs :
  tables_ok T -> Forall2 (fun r l => represents r (insert_all l [])) rs (t_log <$> T) ->
  Forall (fun e => wf_key e.1) (logs_of T) -> layered (manifest_read v l rs) (t_log <$> T) [] [].
Proof using memtable_laws.
  intros Ht Hrs Hk. destruct (mem_new_spec (rand 0)) as [Hn He].
  assert (mjoin (t_log <$> T) ++ [] ++ [] = logs_of T) as E by (cbn; by rewrite app_nil_r).
  split; rewrite ?E; try done.
  - exists (mem_new (rand 0)). by split.
  - apply Ht.
  - by apply tables_seq.
Qed.

Lemma tables_wf_keys : tables_ok T -> Forall (fun e => wf_key e.1) (logs_of T).
Proof using.
  intros [Hw _ _ _]. induction Hw as [|t l (_ & _ & Hk & _) _ IH]; [constructor|].
  change (logs_of (t :: l)) with (t_log t ++ logs_of l). by apply Forall_app.
Qed.

Lemma live_opened v l rs (db : DB Mem) i f s ch ts :
  ghost_ok acked issued N T [] W W -> SstReader.log_bytes (logs_of T) <= (N - 1) * batches_bytes issued ->
  seq_of T <= (N - 1) * batches_bytes issued -> Forall batch_ok W ->
  Forall2 (fun r l => represents r (insert_all l [])) rs (t_log <$> T) ->
  applyOperations (mjoin W) (manifest_read v l rs) = Ok db ->
  f_content f = wal_image W -> f_synced f = length (f_content f) ->
  running acked issued N id im i f T [] W W s ->
  (ch = false /\ ts = []) \/ (ch = true /\ ts = [TLoopWait]) ->
  live_db acked issued N (mkGhost id im i f T [] W W W [] (number (seq_of T) (mjoin W)))
    (set_flushDoneCh ch (set_wal_file (Wal.mkWriter true bufio_NewWriter) i db)) ts s.
Proof using memtable_laws synced_writes in_range.
  intros Hg Hz Hq Hok Hrs Happ Hc Hs Hrun Hts.
  pose proof (g_tables _ _ _ _ _ _ _ Hg) as Ht. rewrite app_nil_r in Ht.
  pose proof (layered_read v l rs Ht Hrs (tables_wf_keys Ht)) as Hla.
  assert (batches_bytes W <= batches_bytes issued) as Hb by (apply batches_bytes_sublist, Hg).
  assert (batches_bytes W = SstReader.log_bytes (number (seq_of T) (mjoin W))) as Eb by apply log_bytes_number.
  pose proof (log_bytes_count (number (seq_of T) (mjoin W))) as Hcnt. rewrite zlen_number in Hcnt.
  pose proof (zlen_nonneg (mjoin W)) as Hz0.
  assert (Forall (fun op => Batch.opType op = Batch.OpTypePut \/ Batch.opType op = Batch.OpTypeDelete) (mjoin W)) as Hty.
  { clear -Hok. induction Hok as [|ops W0 Ho _ IH]; [constructor|]. change (mjoin (ops :: W0)) with (ops ++ mjoin W0).
    apply Forall_app. split; [by apply batch_ok_types|done]. }
  destruct (layered_apply (mjoin W) _ db _ _ _ Happ Hla Hty) as (Hla' & Eq & Ec & Ei & Ed).
  { change (seqno (manifest_read v l rs)) with (seq_of T). nia. }
  change (seqno (manifest_read v l rs)) with (seq_of T) in *. change (immMem (manifest_read v l rs)) with (@None Mem) in Ei.
  change (closed (manifest_read v l rs)) with false in Ec.
  destruct (applyOperations_frame _ _ _ Happ) as (Es & En & Ey & Ef & Ew & Ewf).
  split.
  - exact Hrun.
  - exists (Wal.mkWriter true bufio_NewWriter). split; [done|]. split; [done|]. cbn [gfw gW gWd].
    assert (Forall (fits Wal.walRecordFormat) (Batch.batch_wire <$> W)) as Hf.
    { apply Forall_fmap. eapply Forall_impl; [apply (g_fits _ _ _ _ _ _ _ Hg)|]. by intros b []. }
    split; cbn [Wal.l_w Wal.l_f Wal.l_appended Wal.l_durable Wal.w_file Wal.w_buf]; try done.
    + unfold wf_buf. cbn. lia.
    + by rewrite Hc.
    + intros _ _. unfold stream. cbn. by rewrite app_nil_r.
    + change (log_image Wal.walRecordFormat (Batch.batch_wire <$> W)) with (wal_image W). rewrite Hs, Hc. lia.
    + rewrite Hs. lia.
  - split; cbn [gT gD gLi gLm geff gWd gid gim]; try done.
    + eapply layered_same; [..|exact Hla']; done.
    + apply replay_map; [|done]. pose proof (g_keys _ _ _ _ _ _ _ Hg) as Hk. by rewrite app_nil_r in Hk.
    + by apply number_all_keys.
    + cbn [app]. rewrite SstReader.log_bytes_app, <-Eb. lia.
    + change (seqno (set_flushDoneCh ch (set_wal_file _ i db))) with (seqno db). rewrite Eq. lia.
    + apply Hg.
    + change (syncOnWrite (set_flushDoneCh ch (set_wal_file _ i db))) with (syncOnWrite db). by rewrite Ey.
  - destruct Hts as [[-> ->]|[-> ->]]; split;
      cbn [set_flushDoneCh set_wal_file flushDoneCh immMem]; rewrite ?Ei; (by repeat constructor) || (cbn; lia).
  - destruct Hts as [[-> ->]|[-> ->]]; repeat constructor.
  - by left.
Qed.

End Opened.

(** No flush is under way; the flusher runs when there is a flush size. *)
Record just_opened (db : DB Mem) (ts : list (thread Mem)) : Prop := {
  jo_closed : closed db = false;
  jo_err : flushErr db = None;
  jo_imm : immMem db = None;
  jo_loop : flushDoneCh db = negb (memtableFlushSize db =? 0);
  jo_threads : ts = if flushDoneCh db then [TLoopWait] else []
}.

(** The outcome of [Open]. *)
Definition opened_up (r : res (DB Mem * list (thread Mem))) (s : Fs) : Prop :=
  match r with
  | Ok (db, ts) => just_opened db ts /\ up acked issued N db ts s
  | Err _ => md <> Calm /\ I s
  | Panic => False
  end.

(** [Open] once the MANIFEST is there. *)
Definition open_log (db : DB Mem) : io (res (DB Mem * list (thread Mem))) :=
  '(db, err) ← replayWAL walFileName db;
  match err with
  | Some err => _ ← abandon db; mret (throw err)
  | None =>
  walWriter ← Wal.NewWriter walFileName;
  match walWriter with
  | Panic => panic
  | Err err => _ ← abandon db; mret (throw (Errorf "beachdb: creating WAL writer" err))
  | Ok (w, i) =>
  let db := set_wal_file w i db in
  if 0 <? memtableFlushSize db
  then mret (Ok (set_flushDoneCh true db, [TLoopWait]))
  else mret (Ok (db, []))
  end end.

Lemma no_flusher (db : DB Mem) : flushDoneCh db = false -> set_flushDoneCh false db = db.
Proof using. destruct db. cbn. by intros ->. Qed.

Lemma triple_open_log (rand : nat -> nat -> Q) cfg id im T Wd W v l rs :
  o_syncOnWrite cfg = true -> 0 <= o_memtableFlushSize cfg -> N * batches_bytes issued < 2 ^ 31 ->
  SstReader.log_bytes (logs_of T) <= (N - 1) * batches_bytes issued -> seq_of T <= (N - 1) * batches_bytes issued ->
  Forall2 (fun r l => represents r (insert_all l [])) rs (t_log <$> T) ->
  triple md (opened acked issued N id im T [] Wd W) (open_log (manifest_read rand cfg id im T v l rs)) opened_up I.
Proof using memtable_laws good_device streams.
  intros Hsync Hpos Hr Hz Hq Hrs. unfold open_log. destruct (mem_new_spec (rand 0%nat)) as [Hn _].
  assert (forall W' db e, applyOperations (mjoin W') (manifest_read rand cfg id im T v l rs) = Ok db -> forall Wd0 W0,
    triple md (fun s => md <> Calm /\ core acked issued N id im T [] Wd0 W0 s) (_ ← abandon db; mret (throw e)) opened_up I) as Hab.
  { intros W' db e Happ Wd0 W0. destruct (applyOperations_frame _ _ _ Happ) as (_ & _ & _ & Ef & Ew & _).
    apply triple_pure. intros Hmd. eapply triple_bind; [apply (triple_abandon id im T Wd0 W0); [by rewrite Ew|by rewrite Ef]|].
    intros u. by apply triple_ret. }
  eapply triple_bind; [by apply (triple_replay_log md acked issued N id im T Wd W (manifest_read rand cfg id im T v l rs) (mem_new (rand 0%nat)))|].
  intros [db [e|]]; cbn [fst snd].
  - apply triple_pure. intros Hmd. apply triple_pure. intros [W' Happ]. eapply triple_pre; [|by eapply Hab].
    intros s [Ho _]. split; [done|exact Ho].
  - apply triple_exists. intros W'. apply triple_pure. intros (_ & _ & Hok & Happ).
    eapply triple_bind; [apply triple_wal_writer|]. intros [[w i]|e|]; [|by eapply Hab|by apply triple_false; intros ? []].
    apply triple_exists. intros f. apply triple_pure. intros (-> & Hc & Hs). cbv zeta.
    destruct (applyOperations_control _ _ _ Happ) as (Ecl & Eer & Eim & Ech & Efs & _).
    change (memtableFlushSize db = o_memtableFlushSize cfg) in Efs.
    assert (forall ch, ch = (0 <? memtableFlushSize db) -> forall s, running acked issued N id im i f T [] W' W' s ->
      opened_up (Ok (set_flushDoneCh ch (set_wal_file (Wal.mkWriter true bufio_NewWriter) i db), if ch then [TLoopWait] else [])) s) as Hup.
    { intros ch Hch s Hrun. pose proof (in_ghost _ _ _ _ _ _ _ _ _ (ru_in _ _ _ _ _ _ _ _ _ _ _ _ Hrun)) as Hg.
      split; [|left].
      { split; cbn [set_flushDoneCh set_wal_file closed flushErr immMem flushDoneCh memtableFlushSize]; try done.
        rewrite Hch. destruct (Z.eqb_spec (memtableFlushSize db) 0), (Z.ltb_spec 0 (memtableFlushSize db)); (done || lia). }
      eexists. eapply (live_opened rand cfg); try done. destruct ch; auto. }
    change (memtableFlushSize (set_wal_file _ _ db)) with (memtableFlushSize db).
    destruct (0 <? memtableFlushSize db); apply triple_ret; intros s Hrun.
    + by apply (Hup true).
    + specialize (Hup false eq_refl s Hrun). by rewrite no_flusher in Hup.
Qed.

(** ** CURRENT is read *)
Lemma triple_ReadCurrent P c :
  fault_blind P -> (forall s, P s -> I s) -> (forall s, P s -> content_of currentFileName s = c) ->
  triple md P ReadCurrent
    (fun r s => P s /\ (r = parse_current c \/ md <> Calm /\ exists e, r = throw e /\ errors_Is e manifest.ErrNoCurrentFile = false)) I.
Proof using.
  intros Hb HI Hc. unfold ReadCurrent.
  eapply (triple_bind _ _ _ _ (fun r s => P s /\ (r = match c with Some x => Ok x | None => throw os_ErrNotExist end \/
    md <> Calm /\ r = throw (OsError "read")))).
  { apply triple_syscall; [done|intros Hmd s HP; auto|]. intros s HP. specialize (Hc s HP). unfold content_of in Hc.
    destruct (live s !! currentFileName) as [i|]; cbn in Hc |- *; [destruct (inodes s !! i); cbn in Hc |- *|]; subst c; auto. }
  intros r. eapply (triple_ext _ _ _ (match r with
    | Ok x => mret (parse_current (Some x))
    | Err e => if errors_Is e os_ErrNotExist then mret (parse_current None)
               else mret (throw (Errorf "beachdb/manifest: failed to read CURRENT" e))
    | Panic => panic end : io (res bytes))).
  { intros w. destruct r as [x|e|]; [|done|done]. unfold parse_current. case_bool_decide; [done|].
    by destruct (validateManifestName _). }
  eapply triple_pre with (P' := fun s => (r = match c with Some x => Ok x | None => throw os_ErrNotExist end \/
    md <> Calm /\ r = throw (OsError "read")) /\ P s); [by intros s []|].
  apply triple_pure. intros [->|[Hmd ->]].
  - destruct c as [x|]; [by apply triple_ret; auto|]. by apply triple_ret; auto.
  - apply triple_ret. intros s HP. split; [done|]. right. split; [done|]. by eexists.
Qed.

(** ** Open on what a crash left *)
Section Open.
Context (rand : nat -> nat -> Q) (opts : list Option) (n : Z) (next_open : N = n + 1) (N_range : 1 <= N < 2 ^ 63).
Context (in_range : N * batches_bytes issued < 2 ^ 31) (opts_sync : o_syncOnWrite (applyOptions opts) = true).
Context (opts_valid : 0 <= o_memtableFlushSize (applyOptions opts) /\ 0 <= o_sstBlockSize (applyOptions opts)).
Local Abbreviation cfg := (applyOptions opts).

Lemma Open_valid :
  Open rand opts None =
    ('(db, err) ← openManifest (new_db rand cfg); match err with Some err => mret (throw err) | None => open_log db end).
Proof using opts_valid.
  unfold Open. destruct (Z.ltb_spec (o_memtableFlushSize cfg) 0); [lia|]. by destruct (Z.ltb_spec (o_sstBlockSize cfg) 0); [lia|].
Qed.

Lemma ghost_next T D Wd W : ghost_ok acked issued n T D Wd W -> ghost_ok acked issued N T D Wd W.
Proof using next_open N_range.
  intros [? ? ? ? ? ? ? Hz [Hq1 Hq2]]. pose proof (batches_bytes_nonneg issued). rewrite next_open. split; try done; [nia|]. split; nia.
Qed.

(** The live directory of a disk after a crash is the only one. *)
Lemma settled_pin nm i s : settled s -> inj_dirs s -> live s !! nm = Some i -> pin nm i s.
Proof using.
  intros [Hu _] Hi Hl d Hd. rewrite Hu in Hd. apply list_elem_of_singleton in Hd as ->. split; [done|].
  intros nm' E. eapply Hi; [by left|done..].
Qed.

Lemma settled_opened id im T D Wd W s :
  wf_fs s -> inj_dirs s -> settled s -> installed acked issued n id T D Wd W s -> live s !! mname id = Some im ->
  opened acked issued N id im T D Wd W s.
Proof using next_open N_range.
  intros Hw Hi Hse Hin Hl. split.
  - split; [done|done| |by apply settled_pin]. destruct Hin as [Hg ? ? ? ?]. split; try done. by apply ghost_next.
  - pose proof (in_wal _ _ _ _ _ _ _ _ _ Hin (live s) ltac:(by left)) as Hwal.
    destruct (live s !! walFileName) as [iw|] eqn:E; [right|left].
    + destruct Hwal as (f & Hf & _). exists iw, f. split_and!; [by apply settled_pin|done|by eapply (se_files s Hse)].
    + intros d Hd. rewrite (se_dirs s Hse) in Hd. by apply list_elem_of_singleton in Hd as ->.
Qed.

Lemma triple_open_installed id T D Wd W :
  triple md (fun s => wf_fs s /\ inj_dirs s /\ settled s /\ installed acked issued n id T D Wd W s)
    (Open rand opts None) opened_up I.
Proof using memtable_laws slices_laws good_device streams next_open N_range in_range opts_sync opts_valid.
  set (P im c s := opened acked issued N id im T D Wd W s /\ (exists f, inodes s !! im = Some f /\ f_synced f = length (f_content f)) /\
    content_of currentFileName s = Some c).
  eapply triple_pre with (P' := fun s => exists im c, (parse_current (Some c) = Ok (mname id) /\ ghost_ok acked issued n T D Wd W) /\ P im c s).
  { intros s (Hw & Hi & Hse & Hin). pose proof (in_man _ _ _ _ _ _ _ _ _ Hin (live s) ltac:(by left)) as Hm.
    destruct (live s !! mname id) as [im|] eqn:Em; [|done]. destruct Hm as (f & Hf & _).
    pose proof (in_cur _ _ _ _ _ _ _ _ _ Hin (live s) ltac:(by left)) as Hc.
    destruct (live s !! currentFileName) as [ic|] eqn:Ec; [|done]. destruct Hc as (fc & Hfc & _ & Hp).
    exists im, (f_content fc). split; [split; [done|apply Hin]|]. split; [by eapply settled_opened|].
    split; [exists f; split; [done|by eapply (se_files s Hse)]|]. unfold content_of. by rewrite Ec; cbn; rewrite Hfc. }
  apply triple_exists. intros im. apply triple_exists. intros c. apply triple_pure. intros [Hp Hg].
  assert (fault_blind (P im c)) as Hb by (intros fl s (Ho & Hf & Hc); split; [by apply opened_blind|done]).
  assert (forall s, P im c s -> I s) as HI by (intros s [Ho _]; by eapply opened_safe).
  rewrite Open_valid. eapply (triple_bind _ _ _ _ (fun r s => match r.2 with
       | None => exists T' rs, ((T' = T \/ T' = T ++ D) /\
           Forall2 (fun r l => represents r (insert_all l [])) rs (t_log <$> T') /\
           r.1 = manifest_read rand cfg id im T' (version_of T') 0 rs) /\ opened acked issued N id im T' [] Wd W s
       | Some _ => md <> Calm /\ I s end)).
  - unfold openManifest. eapply triple_bind; [by apply (triple_ReadCurrent (P im c) (Some c)); [..|by intros s (_ & _ & ?)]|].
    intros r. eapply triple_pre with (P' := fun s => (r = parse_current (Some c) \/ md <> Calm /\ exists e, r = throw e /\
      errors_Is e manifest.ErrNoCurrentFile = false) /\ P im c s); [by intros s []|]. apply triple_pure.
    intros [->|(Hmd & e & -> & He)].
    + rewrite Hp. pose proof Hg as [Ht Hl _ _ _ _ _ Hz _].
      eapply triple_conseq; [..|apply (triple_replay_manifest md acked issued N id im Wd W T D); [done|done|]].
      * intros s (Ho & Hf & _). by split.
      * intros [db [e|]] s; cbn [fst snd]; [done|]. intros (T' & rs & HT & Hrs & Edb & Ho). exists T', rs. by split_and!.
      * pose proof (tables_count _ Ht). pose proof (log_bytes_count (logs_of (T ++ D))). pose proof (batches_bytes_nonneg issued).
        unfold zlen in *. nia.
    + rewrite He. apply triple_ret. intros s HP. split; [done|by apply HI].
  - intros [db [e|]]; cbn [fst snd]; [by apply triple_ret|].
    apply triple_exists. intros T'. apply triple_exists. intros rs. apply triple_pure. intros (HT & Hrs & ->).
    pose proof Hg as [_ _ _ _ _ _ _ Hz [Hq1 Hq2]].
    apply triple_open_log; [done|apply opts_valid|done| | |done].
    + destruct HT as [->| ->]; [|by rewrite next_open; nia]. rewrite logs_of_app, SstReader.log_bytes_app in Hz.
      pose proof (SstReader.log_bytes_nonneg (logs_of D)). rewrite next_open. nia.
    + rewrite next_open. destruct HT as [->| ->]; nia.
Qed.

Lemma safe_blind : fault_blind I.
Proof using.
  intros fl s [Hw Hi Hc]. split; [by apply wf_blind|done|]. destruct Hc as [?|(id & T & D & Wd & W & [])]; [by left|right].
  exists id, T, D, Wd, W. by split.
Qed.

Lemma safe_next s : safe acked issued n s -> I s.
Proof using next_open N_range.
  intros [Hw Hi [[? Hb]|(id & T & D & Wd & W & [Hg ? ? ? ?])]]; (split; [done|done|]).
  - left. split; [done|]. intros d Hd. destruct (Hb d Hd) as (H1 & H2 & H3). split; [done|]. split; [|done].
    intros nm Hnm. etrans; [by apply H2|lia].
  - right. exists id, T, D, Wd, W. split; try done. by apply ghost_next.
Qed.

(** An empty directory, or one in which setting up was cut short. *)
Lemma triple_open_fresh : acked = [] -> triple md (fresh n) (Open rand opts None) opened_up I.
Proof using memtable_laws slices_laws good_device streams next_open N_range in_range opts_sync opts_valid.
  intros Ea. rewrite Open_valid.
  assert (forall s, fresh n s -> I s) as HI.
  { intros s Hf. rewrite Ea. apply fresh_safe. eapply fresh_mono; [|exact Hf]. lia. }
  eapply (triple_bind _ _ _ _ (fun r s => match r.2 with
       | None => exists id im, r.1 = manifest_read rand cfg id im [] (version r.1) 0 [] /\
           opened acked issued N id im [] [] [] [] s
       | Some _ => md <> Calm /\ I s end)).
  - unfold openManifest. eapply triple_bind; [apply (triple_ReadCurrent (fresh n) None); [apply fresh_blind|done|]|].
    { intros s Hf. unfold content_of. by rewrite (fr_cur _ _ Hf (live s) ltac:(by left)). }
    intros r. eapply triple_pre with (P' := fun s => (r = parse_current None \/ md <> Calm /\ exists e, r = throw e /\
      errors_Is e manifest.ErrNoCurrentFile = false) /\ fresh n s); [by intros s []|]. apply triple_pure.
    intros [->|(Hmd & e & -> & He)].
    + cbn [parse_current]. replace (errors_Is manifest.ErrNoCurrentFile manifest.ErrNoCurrentFile) with true by reflexivity.
      rewrite Ea. replace n with (N - 1) by lia. by eapply triple_post; [|apply bootstrap_triple].
    + rewrite He. apply triple_ret. intros s HP. split; [done|by apply HI].
  - intros [db [e|]]; cbn [fst snd]; [by apply triple_ret|].
    apply triple_exists. intros id. apply triple_exists. intros im. apply triple_pure. intros Edb. rewrite Edb.
    pose proof (batches_bytes_nonneg issued).
    apply triple_open_log; [done|apply opts_valid|done| | |constructor]; cbn; nia.
Qed.

(** CURRENT names a MANIFEST that was removed again. *)
Lemma triple_open_missing id : md <> Calm ->
  triple md (fun s => I s /\ (exists c, content_of currentFileName s = Some c /\ parse_current (Some c) = Ok (mname id)) /\
      live s !! mname id = None)
    (Open rand opts None) opened_up I.
Proof using opts_valid.
  intros Hmd. rewrite Open_valid.
  eapply triple_pre with (P' := fun s => exists c, parse_current (Some c) = Ok (mname id) /\ (I s /\
    content_of currentFileName s = Some c /\ live s !! mname id = None)).
  { intros s (Hs & (c & Hc & Hp) & Hl). by exists c. }
  apply triple_exists. intros c. apply triple_pure. intros Hp.
  assert (fault_blind (fun s => I s /\ content_of currentFileName s = Some c /\ live s !! mname id = None)) as Hb.
  { intros fl s (Hs & ? & ?). split; [by apply safe_blind|done]. }
  eapply (triple_bind _ _ _ _ (fun r s => r.2 <> None /\ I s)); cycle 1.
  { intros [db [e|]]; cbn [fst snd]; [|by apply triple_false; intros ? []]. apply triple_ret. by intros s [_ ?]. }
  unfold openManifest. eapply triple_bind; [apply (triple_ReadCurrent _ (Some c) Hb); [by intros s []|by intros s (_ & ? & _)]|].
  intros r. eapply triple_pre with (P' := fun s => (r = parse_current (Some c) \/ md <> Calm /\ exists e, r = throw e /\
    errors_Is e manifest.ErrNoCurrentFile = false) /\ (I s /\ content_of currentFileName s = Some c /\ live s !! mname id = None));
    [by intros s []|]. apply triple_pure. intros [->|(_ & e & -> & He)]; cycle 1.
  { rewrite He. apply triple_ret. by intros s [Hs _]. }
  rewrite Hp. unfold replayExistingManifest, Manifest.NewReader.
  eapply (triple_bind _ _ _ _ (fun r s => (exists e, r = throw e) /\ I s)).
  - eapply (triple_bind _ _ _ _ (fun r s => (exists e, r = throw e) /\ I s)).
    + apply triple_os_Open; [exact Hb|by intros s []|by intros _ s [Hs _]; split; [eexists|]|].
      intros s (Hs & _ & ->). split; [by eexists|done].
    + intros r. apply triple_pure. intros [e ->]. apply triple_ret. intros s Hs. split; [by eexists|done].
  - intros r. apply triple_pure. intros [e ->]. by apply triple_ret.
Qed.

(** The MANIFEST that CURRENT names, if any, is there. *)
Definition current_found (s : Fs) : Prop :=
  forall name, parse_current (content_of currentFileName s) = Ok name -> is_Some (live s !! name).

(** Whatever a crash left, [Open] either brings up a database with all that was
    acknowledged, or fails and leaves a directory as good as before. *)
Lemma triple_Open :
  triple md (fun s => safe acked issued n s /\ settled s /\ (md = Calm -> current_found s)) (Open rand opts None) opened_up I.
Proof using memtable_laws slices_laws good_device streams next_open N_range in_range opts_sync opts_valid.
  intros w Hc (Hsafe & Hse & Hcf) HI. pose proof (safe_next _ Hsafe) as Hnext.
  destruct Hsafe as [Hw Hi [[Ea Hb]|(id & T & D & Wd & W & Hin)]]; cycle 1.
  { by apply (triple_open_installed id T D Wd W). }
  assert (forall d, d ∈ dirs (w_fs w) -> d = live (w_fs w)) as Hd.
  { intros d Hd. rewrite (se_dirs _ Hse) in Hd. by apply list_elem_of_singleton in Hd. }
  destruct (Hb (live (w_fs w)) ltac:(by left)) as (H1 & H2 & [H3|(id & i & f & H3 & Hf & Hcur & Hman)]).
  { apply (triple_open_fresh Ea); [done| |done]. split; [split; [done|done|]|]; intros d ->%Hd; [by split|done]. }
  assert (content_of currentFileName (w_fs w) = Some (f_content f)) as Ec.
  { unfold content_of. rewrite H3. cbn. by rewrite Hf. }
  destruct Hman as [Hno|(j & g & Hj & Hg & Hgm)].
  - apply (triple_open_missing id); [|done| |done].
    + intros Hmd. specialize (Hcf Hmd (mname id)). rewrite Ec, Hno in Hcf. by destruct (Hcf (proj2 Hcur)).
    + split; [done|]. split; [|done]. exists (f_content f). by split; [|apply Hcur].
  - apply (triple_open_installed id [] [] [] []); [done| |done]. split_and!; [done..|]. rewrite Ea. split.
    + apply ghost_empty. lia.
    + intros d ->%Hd. rewrite H3. by exists f.
    + intros d ->%Hd. rewrite Hj. by exists g.
    + intros d ->%Hd. by rewrite H1.
    + constructor.
Qed.
End Open.
End Opening.
