(* ===== verification/History.v ===== *)
(** * Crashes and restarts

    The life of a database directory: processes open it, call into it, and die; the
    machine may crash between any two changes of the disk, also while [Open] or a
    call is under way, and any call to the operating system may fail.  What is read
    is always some of the batches written, in order, with all the acknowledged ones
    among them. *)
From Stdlib Require Import QArith_base.
From S2P Require Import Prelude.
From S2P Require Import Errors.
From S2P Require Import Keys.
From S2P Require Import GoIO.
From S2P Require Import GoSort.
From S2P Require Import Record.
From S2P Require Import RecordIO.
From S2P Require Import Fs.
From S2P Require Wal.
From S2P Require Batch.
From S2P Require Import Memtable.
From S2P Require SstWriter.
From S2P Require SstReader.
From S2P Require Import Edit.
From S2P Require Import Version.
From S2P Require Import Current.
From S2P Require Import Manifest.
From S2P Require Replay.
From S2P Require Import FileNames.
From S2P Require Import Engine.
From S2P Require Import EngineRun.
From S2P Require Import Disk.
From S2P Require Import DiskRun.
From S2P Require Import Live.
From S2P Require Import Recovery.
From S2P Require Import Boot.
From S2P Require Import Reopen.
From S2P Require Import Opening.

Local Open Scope Z_scope.

Section History.
Context {Mem : Type} {memtable : Memtable Mem} {slices : Slices} {device : Device}.

(** A process has the database open, with its random numbers and its parked
    goroutines; or there is only the disk. *)
Inductive phase :=
  | Running (rand : nat -> nat -> Q) (db : DB Mem) (w : World) (ts : list (thread Mem))
  | Down (s : Fs).

(** [acked] are the batches whose [Write] has reported success, [issued] all those
    handed to [Write], [opens] how often [Open] was called. *)
Record State := mkState { st_phase : phase; st_acked : list batch; st_issued : list batch; st_opens : Z }.

(** The trace starts anew with every step. *)
Definition now (w : World) : World := mkWorld (w_fs w) [w_fs w] (w_fault w).

Inductive hstep : State -> State -> Prop :=
  | h_call c rand db w ts acked issued n db' nx w' :
      Forall batch_ok (batch_of c) -> start rand c db (now w) = Some ((db', nx), w') ->
      hstep (mkState (Running rand db w ts) acked issued n)
        (mkState (Running rand db' w' (ts ++ parked nx)) (acked ++ acks c nx) (issued ++ batch_of c) n)
  | h_call_crash c rand db w ts acked issued n r w' s s' :
      Forall batch_ok (batch_of c) -> start rand c db (now w) = Some (r, w') -> s ∈ w_trace w' -> crash s s' ->
      hstep (mkState (Running rand db w ts) acked issued n) (mkState (Down s') acked (issued ++ batch_of c) n)
  | h_resume t ts1 ts2 rand db w acked issued n db' nx w' :
      enabled t (ts1 ++ ts2) -> resume rand t db (now w) = Some ((db', nx), w') ->
      hstep (mkState (Running rand db w (ts1 ++ t :: ts2)) acked issued n)
        (mkState (Running rand db' w' (ts1 ++ ts2 ++ parked nx)) acked issued n)
  | h_resume_crash t ts1 ts2 rand db w acked issued n r w' s s' :
      enabled t (ts1 ++ ts2) -> resume rand t db (now w) = Some (r, w') -> s ∈ w_trace w' -> crash s s' ->
      hstep (mkState (Running rand db w (ts1 ++ t :: ts2)) acked issued n) (mkState (Down s') acked issued n)
  | h_crash rand db w ts acked issued n s' :
      crash (w_fs w) s' -> hstep (mkState (Running rand db w ts) acked issued n) (mkState (Down s') acked issued n)
  | h_open rand opts mkdir fault s acked issued n db ts w' :
      o_syncOnWrite (applyOptions opts) = true ->
      Open rand opts mkdir (mkWorld s [s] fault) = Some (Ok (db, ts), w') ->
      hstep (mkState (Down s) acked issued n) (mkState (Running rand db w' ts) acked issued (n + 1))
  | h_open_crash rand opts mkdir fault s acked issued n r w' s1 s' :
      o_syncOnWrite (applyOptions opts) = true ->
      Open rand opts mkdir (mkWorld s [s] fault) = Some (r, w') -> s1 ∈ w_trace w' -> crash s1 s' ->
      hstep (mkState (Down s) acked issued n) (mkState (Down s') acked issued (n + 1)).

(** From an empty directory. *)
Definition blank (faults : list fault) (nf : nat -> list fault) : State := mkState (Down (empty_fs faults nf)) [] [] 0.

End History.

Section Durability.
Context {Mem : Type} {memtable : Memtable Mem} {memtable_laws : MemtableLaws Mem}.
Context {slices : Slices} {slices_laws : SlicesLaws} {device : Device} {good_device : GoodDevice} {streams : Streams}.
Local Abbreviation State := (State (Mem := Mem)).

(** The 2 GiB that the writes of all processes together may take, and the number
    of files. *)
Definition fits (st : State) : Prop :=
  st_opens st * batches_bytes (st_issued st) < 2 ^ 31 /\ st_opens st < 2 ^ 63.

Definition hinv (st : State) : Prop :=
  let '(mkState p acked issued n) := st in 0 <= n /\
  match p with
  | Running _ db w ts => 1 <= n /\ up acked issued n db ts (w_fs w)
  | Down s => safe acked issued n s /\ settled s
  end.

Lemma hinv_blank faults nf : hinv (blank faults nf : State).
Proof using.
  split; [done|]. split; [|split; [done|by intros i f Hf]].
  split; [apply wf_empty|by intros d a b i ->%list_elem_of_singleton|left]. split; [done|].
  intros d ->%list_elem_of_singleton. split; [done|]. split; [by intros nm [j Hj]%elem_of_dom|by left].
Qed.

Lemma hstep_fits st st' : hstep st st' -> 0 <= st_opens st -> fits st' -> fits st.
Proof using.
  intros Hs Hn [H1 H2]. assert (st_opens st <= st_opens st' /\ batches_bytes (st_issued st) <= batches_bytes (st_issued st')) as [Ho Hb].
  { destruct Hs; cbn [st_opens st_issued]; split; try lia; apply batches_bytes_sublist; by apply sublist_inserts_r. }
  pose proof (batches_bytes_nonneg (st_issued st)). split; [nia|lia].
Qed.

(** What a triple says of the states on the way. *)
Lemma triple_trace {A} md (m : io A) P Q I w a w' s :
  md <> Calm -> triple md P m Q I -> P (w_fs w) -> I (w_fs w) -> m (now w) = Some (a, w') ->
  Q a (w_fs w') /\ (s ∈ w_trace w' -> I s).
Proof using.
  intros Hmd H HP HI E. specialize (H (now w)). rewrite E in H. destruct H as (_ & HQ & HT); [done|done|by apply Forall_singleton|].
  split; [done|]. rewrite Forall_forall in HT. apply HT.
Qed.

Lemma up_crash acked issued n s s' (Q : Fs -> Prop) :
  (forall s, Q s -> safe acked issued n s) -> Q s -> crash s s' -> safe acked issued n s' /\ settled s'.
Proof using. intros HQ Hs Hc. eapply safe_crash; [by apply HQ|done]. Qed.

(** [Open] with options it refuses, or in a directory that cannot be made, does
    nothing. *)
Lemma Open_refused (rand : nat -> nat -> Q) opts mkdir w :
  (mkdir = None /\ 0 <= o_memtableFlushSize (applyOptions opts) /\ 0 <= o_sstBlockSize (applyOptions opts)) \/
  exists e : error, Open (Mem := Mem) rand opts mkdir w = Some (throw e, w).
Proof using.
  unfold Open. destruct mkdir as [e|]; [right; by eexists|].
  destruct (Z.ltb_spec (o_memtableFlushSize (applyOptions opts)) 0); [right; by eexists|].
  destruct (Z.ltb_spec (o_sstBlockSize (applyOptions opts)) 0); [right; by eexists|]. by left.
Qed.

(** What [Open] does to a disk that a crash has left. *)
Lemma open_run (rand : nat -> nat -> Q) opts mkdir fault s acked issued n (r : res (DB Mem * list (thread Mem))) w' :
  o_syncOnWrite (applyOptions opts) = true -> 0 <= n -> n + 1 < 2 ^ 63 -> (n + 1) * batches_bytes issued < 2 ^ 31 ->
  safe acked issued n s -> settled s -> Open rand opts mkdir (mkWorld s [s] fault) = Some (r, w') ->
  Forall (safe acked issued (n + 1)) (w_trace w') /\
  match r with
  | Ok (db, ts) => just_opened db ts /\ up acked issued (n + 1) db ts (w_fs w')
  | Err _ => True
  | Panic => False
  end.
Proof using memtable_laws slices_laws good_device streams.
  intros Hsync Hn Hlt Hr Hs Hse E.
  assert (safe acked issued (n + 1) s) as Hs' by (by apply (safe_next acked issued (n + 1) n eq_refl ltac:(lia))).
  destruct (Open_refused rand opts mkdir (mkWorld s [s] fault)) as [(-> & Hv)|[e Ee]]; cycle 1.
  { rewrite Ee in E. injection E as <- <-. split; [by apply Forall_singleton|done]. }
  pose proof (triple_Open Loose acked issued (n + 1) rand opts n eq_refl ltac:(lia) Hr Hsync Hv (mkWorld s [s] fault)) as H.
  rewrite E in H. destruct H as (_ & HQ & HT); [done|by split_and!|by apply Forall_singleton|]. split; [done|].
  destruct r as [[db ts]|e|]; [done|done|done].
Qed.

Lemma hinv_step st st' : hstep st st' -> fits st' -> hinv st -> hinv st'.
Proof using memtable_laws slices_laws good_device streams.
  intros Hs Hf Hinv. destruct Hs as [c rand db w ts acked issued n db' nx w' Hb E|c rand db w ts acked issued n r w' s s' Hb E Hin Hc
    |t ts1 ts2 rand db w acked issued n db' nx w' He E|t ts1 ts2 rand db w acked issued n r w' s s' He E Hin Hc
    |rand db w ts acked issued n s' Hc|rand opts mkdir fault s acked issued n db ts w' Hsync E
    |rand opts mkdir fault s acked issued n r w' s1 s' Hsync E Hin Hc];
    destruct Hf as [Hf1 Hf2]; cbn [st_opens st_issued] in Hf1, Hf2; cbn [hinv] in Hinv |- *.
  - destruct Hinv as (H0 & Hn & Hup). split; [done|]. split; [done|].
    apply (triple_trace Faulty _ _ _ _ _ _ _ (w_fs w') ltac:(done) (up_start rand acked issued _ n c db ts Hn eq_refl Hf1 Hb) Hup) in E as [HQ _]; [done|].
    eapply safe_grow; [by apply sublist_inserts_r|done|]. by eapply up_safe.
  - destruct Hinv as (H0 & Hn & Hup). split; [done|].
    apply (triple_trace Faulty _ _ _ _ _ _ _ s ltac:(done) (up_start rand acked issued _ n c db ts Hn eq_refl Hf1 Hb) Hup) in E as [_ HI].
    + eapply safe_crash; [by apply HI|done].
    + eapply safe_grow; [by apply sublist_inserts_r|done|]. by eapply up_safe.
  - destruct Hinv as (H0 & Hn & Hup). split; [done|]. split; [done|].
    apply (triple_trace Loose _ _ _ _ _ _ _ (w_fs w') ltac:(done) (up_resume rand acked issued n Hn Hf1 db ts1 t ts2) Hup) in E as [HQ _]; [done|].
    by eapply up_safe.
  - destruct Hinv as (H0 & Hn & Hup). split; [done|].
    apply (triple_trace Loose _ _ _ _ _ _ _ s ltac:(done) (up_resume rand acked issued n Hn Hf1 db ts1 t ts2) Hup) in E as [_ HI].
    + eapply safe_crash; [by apply HI|done].
    + by eapply up_safe.
  - destruct Hinv as (H0 & Hn & Hup). split; [done|]. eapply safe_crash; [by eapply up_safe|done].
  - destruct Hinv as (H0 & Hs & Hse). split; [lia|]. split; [lia|].
    by destruct (open_run _ _ _ _ _ _ _ _ _ _ Hsync H0 Hf2 Hf1 Hs Hse E) as [_ [_ ?]].
  - destruct Hinv as (H0 & Hs & Hse). split; [lia|].
    destruct (open_run _ _ _ _ _ _ _ _ _ _ Hsync H0 Hf2 Hf1 Hs Hse E) as [HT _].
    rewrite Forall_forall in HT. eapply safe_crash; [by apply HT|done].
Qed.

Lemma hinv_opens st : hinv st -> 0 <= st_opens st.
Proof using. destruct st. by intros [? _]. Qed.

Lemma opens_nonneg faults nf (st : State) : rtc hstep (blank faults nf) st -> 0 <= st_opens st.
Proof using.
  apply (rtc_ind_r (fun st : State => 0 <= st_opens st)); [done|]. intros st1 st2 _ Hs IH. destruct Hs; cbn in *; lia.
Qed.

Lemma hinv_reachable faults nf st : rtc hstep (blank faults nf) st -> fits st -> hinv st.
Proof using memtable_laws slices_laws good_device streams.
  apply (rtc_ind_r (fun st => fits st -> hinv st)); [intros _; apply hinv_blank|]. intros st1 st2 Hr Hs IH Hf.
  eapply hinv_step; [done|done|]. apply IH. eapply hstep_fits; [done|by eapply opens_nonneg|done].
Qed.

(** Once a write has been acknowledged CURRENT names a MANIFEST that is there. *)
Lemma acked_current_found acked issued n s : safe acked issued n s -> acked <> [] -> current_found s.
Proof using.
  intros [_ _ [[? _]|(id & T & D & Wd & W & [_ Hc Hm _ _])]] Ha; [done|]. intros name Hp.
  specialize (Hc (live s) ltac:(by left)). specialize (Hm (live s) ltac:(by left)). unfold content_of in Hp.
  destruct (live s !! currentFileName) as [i|]; [|done]. destruct Hc as (f & Hf & _ & Hp'). cbn in Hp. rewrite Hf in Hp.
  change (parse_current (Some (f_content f)) = Ok name) in Hp. rewrite Hp' in Hp. injection Hp as <-.
  by destruct (live s !! mname id).
Qed.

(** C1: durability.  Take any history of a directory that starts empty: processes
    open it with fsync per write, call [Write], [Flush] and [Close] from any number
    of goroutines, whose critical sections and I/O interleave with those of the
    background flusher in any order; any call to the operating system but the reading of
    an open file may fail; the machine crashes, any number of times and between any two
    changes of the disk.  Then what an open database reads is the effect of some of
    the batches issued so far, in the order in which they were issued, each of them
    whole, and among them are all the batches whose [Write] reported success.
    Assumed are: that reading an open file, or asking for its size, does not fail (a device error inside
    a log is taken for its end, and recovery then cuts off acknowledged writes); that
    no user key is longer than 65527 bytes, which [Write] does not check (the MANIFEST entry of a longer one cannot be
    decoded), and that the parts of a batch fit their length fields; that the
    number of calls to [Open] times the bytes of all batches is below 2 GiB, and [Open] is
    called less than 2^63 times. *)
Theorem durable_linearizable faults nf rand (db : DB Mem) w ts acked issued n :
  rtc hstep (blank faults nf) (mkState (Running rand db w ts) acked issued n) ->
  n * batches_bytes issued < 2 ^ 31 -> n < 2 ^ 63 -> closed db = false ->
  exists eff, acked `sublist_of` eff /\ eff `sublist_of` issued /\
    forall key, Get None key db = get_result (batches_map eff !! key).
Proof using memtable_laws slices_laws good_device streams.
  intros H H1 H2 Hc. apply hinv_reachable in H as (_ & _ & Hup); [|done]. by eapply up_Get.
Qed.

(** What [Open] makes of a disk that no longer fails. *)
Lemma recovered faults nf (rand : nat -> nat -> Q) opts s acked issued n :
  rtc hstep (blank faults nf) (mkState (Down s) acked issued n : State) ->
  (n + 1) * batches_bytes issued < 2 ^ 31 -> n + 1 < 2 ^ 63 -> calm s -> acked <> [] \/ current_found s ->
  o_syncOnWrite (applyOptions opts) = true ->
  0 <= o_memtableFlushSize (applyOptions opts) -> 0 <= o_sstBlockSize (applyOptions opts) ->
  exists db ts w, Open rand opts None (world s) = Some (Ok (db, ts), w) /\
    closed db = false /\ up acked issued (n + 1) db ts (w_fs w).
Proof using memtable_laws slices_laws good_device streams.
  intros H H1 H2 Hcalm Hcf Hsync Hv1 Hv2. pose proof (batches_bytes_nonneg issued) as Hb.
  pose proof (opens_nonneg _ _ _ H) as Hn. cbn [st_opens] in Hn.
  apply hinv_reachable in H as (_ & Hs & Hse); [|split; cbn [st_opens st_issued]; lia].
  assert (current_found s) as Hcf' by (destruct Hcf; [by eapply acked_current_found|done]).
  destruct (triple_run Calm (Open (Mem := Mem) rand opts None) _ (opened_up Calm acked issued (n + 1)) _ s ltac:(done) ltac:(done)
    (triple_Open Calm acked issued (n + 1) rand opts n eq_refl ltac:(lia) H1 Hsync (conj Hv1 Hv2))) as (r & w & E & HQ & _);
    [by split_and!|by apply (safe_next acked issued (n + 1) n eq_refl ltac:(lia))|].
  destruct r as [[db ts]|e|]; [|by destruct HQ|done]. exists db, ts, w. split; [done|]. by destruct HQ as [[]].
Qed.

(** C2: recovery succeeds.  After any history of the kind of
    [durable_linearizable], with what is assumed there -- no failing reads of open files, user
    keys of at most 65527 bytes, calls to [Open] times bytes written below 2 GiB, less than 2^63
    calls to [Open], fsync per write -- with options [Open] accepts, and on a disk whose calls do not fail any more, [Open] succeeds, and
    the database it returns reads all that was acknowledged, provided anything was,
    or CURRENT does not name a MANIFEST that is not there (what a failed set-up may
    leave).  A longer key that is flushed does leave a MANIFEST that cannot be read back. *)
Theorem recovery_succeeds faults nf (rand : nat -> nat -> Q) opts s acked issued n :
  rtc hstep (blank faults nf) (mkState (Down s) acked issued n : State) ->
  (n + 1) * batches_bytes issued < 2 ^ 31 -> n + 1 < 2 ^ 63 -> calm s -> acked <> [] \/ current_found s ->
  o_syncOnWrite (applyOptions opts) = true ->
  0 <= o_memtableFlushSize (applyOptions opts) -> 0 <= o_sstBlockSize (applyOptions opts) ->
  exists db ts w, Open rand opts None (world s) = Some (Ok (db, ts), w) /\
    exists eff, acked `sublist_of` eff /\ eff `sublist_of` issued /\
      forall key, Get None key db = get_result (batches_map eff !! key).
Proof using memtable_laws slices_laws good_device streams.
  intros. edestruct recovered as (db & ts & w & E & Hc & Hup); [done..|].
  exists db, ts, w. split; [exact E|]. by eapply up_Get.
Qed.

(** C4: the engine does not panic.  In any state of any such history, a
    call of [Write], [Flush] or [Close] runs to its first wait or to its end, and so
    does every goroutine that goes on -- but for one case, the race between [Close]
    and a flush: [Close] has finished, the log and the MANIFEST are gone, and a
    goroutine that was writing a table comes back to publish it.  The bounds and
    assumptions are those of [durable_linearizable]. *)
Theorem handlers_never_panic faults nf rand (db : DB Mem) w ts acked issued n :
  rtc hstep (blank faults nf) (mkState (Running rand db w ts) acked issued n) ->
  n * batches_bytes issued < 2 ^ 31 -> n < 2 ^ 63 ->
  (forall c, Forall batch_ok (batch_of c) -> n * batches_bytes (issued ++ batch_of c) < 2 ^ 31 ->
    exists r, start rand c db (now w) = Some r) /\
  (forall ts1 t ts2, ts = ts1 ++ t :: ts2 -> ~ (finished t = true /\ wal db = None) ->
    exists r, resume rand t db (now w) = Some r).
Proof using memtable_laws slices_laws good_device streams.
  intros H H1 H2. apply hinv_reachable in H as (_ & Hn & Hup); [|done]. split.
  - intros c Hb Hr. destruct (start rand c db (now w)) as [r|] eqn:E; [by exists r|].
    pose proof (up_start rand acked issued _ n c db ts Hn eq_refl Hr Hb (now w)) as Ht.
    rewrite E in Ht. discriminate Ht; [done|exact Hup|]. apply Forall_singleton.
    eapply safe_grow; [by apply sublist_inserts_r|lia|]. by eapply up_safe.
  - intros ts1 t ts2 -> Ht. destruct (resume rand t db (now w)) as [r|] eqn:E; [by exists r|].
    destruct Ht. eapply (resume_runs rand acked issued n Hn H1 db ts1 t ts2 (now w)); [exact Hup|apply Forall_singleton; eapply up_safe; exact Hup|exact E].
Qed.
End Durability.
