(* ===== verification/Wakeups.v ===== *)
(** * Sleeping and waking: [db.cond] (engine/db.go)

    [Write], [Flush] and [flushLoop] sleep on one condition variable.  Here the
    goroutines of a running database (see Engine.v) are divided into those that
    sleep and those that are on their way, a segment wakes whom its [Signal] and
    [Broadcast] wake, and nobody else wakes up.  No wake-up is lost: whoever sleeps
    has reason to, and somebody is on the way who will wake it; when no more calls
    are made all of them return. *)
From Stdlib Require Import QArith_base.
From S2P Require Import Prelude.
From S2P Require Import Errors.
From S2P Require Import GoIO.
From S2P Require Import GoSort.
From S2P Require Import RecordIO.
From S2P Require Import Fs.
From S2P Require Import Memtable.
From S2P Require SstWriter.
From S2P Require Import Engine.
From S2P Require Import EngineRun.
From S2P Require Import Disk.
From S2P Require Import DiskRun.
From S2P Require Import Live.
From S2P Require Import Recovery.
From S2P Require Import Reopen.
From S2P Require Import Opening.
From S2P Require Import History.

Section Wakeups.
Context {Mem : Type} {memtable : Memtable Mem} {slices : Slices} {device : Device} (rand : nat -> nat -> Q).
Local Abbreviation DB := (DB Mem).
Local Abbreviation thread := (thread Mem).
Local Abbreviation next := (next Mem).

(** ** The condition variable *)

(** Where a goroutine is in [db.cond.Wait()]. *)
Definition waits (t : thread) : bool :=
  match t with TWriteWait | TFlushWait | TFlushBg | TLoopWait => true | _ => false end.

Definition sleeping (nx : next) : list thread := match nx with Park t => if waits t then [t] else [] | Return _ => [] end.
Definition going (nx : next) : list thread := match nx with Park t => if waits t then [] else [t] | Return _ => [] end.

(** What a segment does to [db.cond]. *)
Inductive wakes := NoWake | Signal | Broadcast.

(** [sync.Cond]: of the goroutines asleep, which go on sleeping and which wake up.
    [Signal] wakes one of them, if there is one, [Broadcast] all. *)
Inductive notify : wakes -> list thread -> list thread -> list thread -> Prop :=
  | notify_none asl : notify NoWake asl asl []
  | notify_nobody : notify Signal [] [] []
  | notify_one asl1 t asl2 : notify Signal (asl1 ++ t :: asl2) (asl1 ++ asl2) [t]
  | notify_all asl : notify Broadcast asl [] asl.

(** A memtable was frozen: rotation is where memtables are created. *)
Definition rotated (db db' : DB) : bool := negb (mems db' =? mems db)%nat.

(** [maybeAutoFlushLocked] signals once it has rotated, [flushMemtable] when it
    leaves the memtable to the flusher; [Close] broadcasts. *)
Definition call_wakes (c : client_call) (db db' : DB) : wakes :=
  match c with
  | CWrite _ _ => if rotated db db' then Signal else NoWake
  | CFlush => if rotated db db' && flushDoneCh db then Signal else NoWake
  | CClose => if closed db then NoWake else Broadcast
  end.

(** A published flush is broadcast, whatever its outcome, and so is an empty
    memtable that [flushLoop] skipped. *)
Definition resume_wakes (t : thread) (db db' : DB) : wakes :=
  match t with
  | TWriteWait => if rotated db db' then Signal else NoWake
  | TFlushWait => if rotated db db' && flushDoneCh db then Signal else NoWake
  | TFlushPublish _ | TLoopPublish _ => Broadcast
  | TLoopWait => match immMem db, immMem db' with Some _, None => Broadcast | _, _ => NoWake end
  | _ => NoWake
  end.

(** A running database: its goroutines asleep and awake, and the batches
    acknowledged and issued (see History.v). *)
Record Run := mkRun {
  r_db : DB; r_w : World; r_asleep : list thread; r_awake : list thread; r_acked : list batch; r_issued : list batch
}.

(** A call begins. *)
Inductive call_step : Run -> Run -> Prop :=
  | calls c db w asl awk acked issued db' nx w' asl' woken :
      Forall batch_ok (batch_of c) -> start rand c db (now w) = Some ((db', nx), w') ->
      notify (call_wakes c db db') asl asl' woken ->
      call_step (mkRun db w asl awk acked issued)
        (mkRun db' w' (asl' ++ sleeping nx) (awk ++ woken ++ going nx) (acked ++ acks c nx) (issued ++ batch_of c)).

(** A goroutine that is awake goes on. *)
Inductive go_step : Run -> Run -> Prop :=
  | goes_on t awk1 awk2 db w asl acked issued db' nx w' asl' woken :
      enabled t (asl ++ awk1 ++ awk2) -> resume rand t db (now w) = Some ((db', nx), w') ->
      notify (resume_wakes t db db') asl asl' woken ->
      go_step (mkRun db w asl (awk1 ++ t :: awk2) acked issued)
        (mkRun db' w' (asl' ++ sleeping nx) ((awk1 ++ awk2) ++ woken ++ going nx) acked issued).

Definition run_step (st st' : Run) : Prop := call_step st st' \/ go_step st st'.

(** What [Open] leaves: nobody sleeps yet. *)
Definition launched (db : DB) (ts : list thread) (w : World) (acked issued : list batch) : Run :=
  mkRun db w [] ts acked issued.

(** ** The protocol

    What the segments do, as far as sleeping and waking go: the database is reduced
    to whether it is closed, whether a flush failed, whether a memtable is frozen,
    whether the flusher runs, and whether [Write] starts flushes. *)
Record ctl := mkCtl { c_closed : bool; c_err : bool; c_imm : bool; c_loop : bool; c_auto : bool }.

Definition ctl_of (db : DB) : ctl :=
  mkCtl (closed db) (if flushErr db then true else false) (if immMem db then true else false) (flushDoneCh db)
    (negb (memtableFlushSize db =? 0)%Z).

(** A segment of a call ([None]) or of a goroutine. *)
Inductive seg : option thread -> ctl -> ctl -> wakes -> next -> Prop :=
  | s_return who c e : who ∈ [None; Some TWriteWait; Some TFlushWait; Some TFlushBg] -> seg who c c NoWake (Return e)
  | s_write_waits who lo au : (who = None /\ au = true) \/ who = Some TWriteWait ->
      seg who (mkCtl false false true lo au) (mkCtl false false true lo au) NoWake (Park TWriteWait)
  | s_flush_waits who lo au : who ∈ [None; Some TFlushWait] ->
      seg who (mkCtl false false true lo au) (mkCtl false false true lo au) NoWake (Park TFlushWait)
  | s_bg_waits lo au :
      seg (Some TFlushBg) (mkCtl false false true lo au) (mkCtl false false true lo au) NoWake (Park TFlushBg)
  | s_write_rotates who lo au : (who = None /\ au = true) \/ who = Some TWriteWait ->
      seg who (mkCtl false false false lo au) (mkCtl false false true lo au) Signal (Return None)
  | s_flush_rotates who au : who ∈ [None; Some TFlushWait] ->
      seg who (mkCtl false false false true au) (mkCtl false false true true au) Signal (Park TFlushBg)
  | s_flush_begins who au imm path : who ∈ [None; Some TFlushWait] ->
      seg who (mkCtl false false false false au) (mkCtl false false true false au) NoWake (Park (TFlushIO imm path))
  | s_close er im lo au : seg None (mkCtl false er im lo au) (mkCtl true er im lo au) Broadcast (Park (TCloseWait lo))
  | s_flush_io imm path r c : seg (Some (TFlushIO imm path)) c c NoWake (Park (TFlushPublish r))
  | s_flush_fails r cl er im lo au e :
      seg (Some (TFlushPublish r)) (mkCtl cl er im lo au) (mkCtl cl true im lo au) Broadcast (Return (Some e))
  | s_flush_done r cl er im lo au :
      seg (Some (TFlushPublish r)) (mkCtl cl er im lo au) (mkCtl cl false false lo au) Broadcast (Return None)
  | s_loop_exits er im lo au :
      seg (Some TLoopWait) (mkCtl true er im lo au) (mkCtl true er im false au) NoWake (Return None)
  | s_loop_sleeps er lo au :
      seg (Some TLoopWait) (mkCtl false er false lo au) (mkCtl false er false lo au) NoWake (Park TLoopWait)
  | s_loop_skips er lo au :
      seg (Some TLoopWait) (mkCtl false er true lo au) (mkCtl false er false lo au) Broadcast (Park TLoopWait)
  | s_loop_flies er lo au imm path :
      seg (Some TLoopWait) (mkCtl false er true lo au) (mkCtl false er true lo au) NoWake (Park (TLoopIO imm path))
  | s_loop_io imm path r c : seg (Some (TLoopIO imm path)) c c NoWake (Park (TLoopPublish r))
  | s_loop_fails r cl er im lo au e :
      seg (Some (TLoopPublish r)) (mkCtl cl er im lo au) (mkCtl cl true im false au) Broadcast (Return (Some e))
  | s_loop_done r er lo au :
      seg (Some (TLoopPublish r)) (mkCtl false er true lo au) (mkCtl false false false lo au) Broadcast (Park TLoopWait)
  | s_loop_last r er im lo au :
      seg (Some (TLoopPublish r)) (mkCtl true er im lo au) (mkCtl true false false false au) Broadcast (Return None)
  | s_close_finish ch er im lo au e :
      seg (Some (TCloseWait ch)) (mkCtl true er im lo au) (mkCtl true er false lo au) NoWake (Return e).

(** ** The segments follow the protocol *)
Lemma ctl_same db db' :
  closed db' = closed db -> flushErr db' = flushErr db -> immMem db' = immMem db -> flushDoneCh db' = flushDoneCh db ->
  memtableFlushSize db' = memtableFlushSize db -> ctl_of db' = ctl_of db.
Proof. unfold ctl_of. by intros -> -> -> -> ->. Qed.

Lemma rotated_no db db' : mems db' = mems db -> rotated db db' = false.
Proof. unfold rotated. intros ->. by rewrite Nat.eqb_refl. Qed.

Lemma rotated_yes db db' : mems db' = mems db -> rotated db (rotate rand db') = true.
Proof. unfold rotated. cbn [rotate mems]. intros ->. destruct (Nat.eqb_spec (S (mems db)) (mems db)); [lia|done]. Qed.

(** [ctl_of db], with its fields at hand. *)
Lemma ctl_cases db cl er im lo :
  closed db = cl -> (if flushErr db then true else false) = er -> (if immMem db then true else false) = im ->
  flushDoneCh db = lo -> ctl_of db = mkCtl cl er im lo (negb (memtableFlushSize db =? 0)%Z).
Proof. unfold ctl_of. by intros -> -> -> ->. Qed.

Lemma ctl_rotate db m : mem db = Some m -> ctl_of (rotate rand db) =
  mkCtl (closed db) (if flushErr db then true else false) true (flushDoneCh db) (negb (memtableFlushSize db =? 0)%Z).
Proof. intros Em. unfold ctl_of. cbn [rotate closed flushErr immMem flushDoneCh memtableFlushSize]. by rewrite Em. Qed.

(** Whether the slot was free, taken, or never to be free again. *)
Lemma slot_cases (wake : bool) (db : DB) :
  (wake = false -> closed db = false /\ flushErr db = None) ->
  match (if wake then flush_slot_wake db else flush_slot db) with
  | None => closed db = false /\ flushErr db = None /\ is_Some (immMem db)
  | Some None => closed db = false /\ flushErr db = None /\ immMem db = None
  | Some (Some _) => True
  end.
Proof.
  intros H. destruct wake; unfold flush_slot_wake, flush_slot.
  - destruct (closed db), (flushErr db), (immMem db); split_and?; done || by eexists.
  - destruct (H eq_refl) as [-> ->]. destruct (immMem db); split_and?; done || by eexists.
Qed.

Definition waker (wake : bool) (t : thread) : option thread := if wake then Some t else None.

(** Waiting for the flush slot, in [Write]: at first, and after waking up. *)
Lemma seg_auto_rotate_ctl (wake : bool) (db0 db : DB) w db' nx w' :
  auto_rotate rand (if wake then flush_slot_wake db else flush_slot db) db w = Some ((db', nx), w') ->
  (wake = false -> closed db = false /\ flushErr db = None /\ memtableFlushSize db <> 0%Z) ->
  (closed db = false -> is_Some (mem db)) -> mems db = mems db0 ->
  seg (waker wake TWriteWait) (ctl_of db) (ctl_of db') (if rotated db0 db' then Signal else NoWake) nx.
Proof.
  intros H Hfirst Hm Hn. pose proof (slot_cases wake db) as Hs. specialize (Hs (fun E => conj (proj1 (Hfirst E)) (proj1 (proj2 (Hfirst E))))).
  assert ((waker wake TWriteWait = None /\ negb (memtableFlushSize db =? 0)%Z = true) \/ waker wake TWriteWait = Some TWriteWait) as Hwho.
  { destruct wake; [by right|left]. destruct (Hfirst eq_refl) as (_ & _ & Hz). split; [done|].
    by destruct (Z.eqb_spec (memtableFlushSize db) 0). }
  unfold auto_rotate in H. destruct (if wake then _ else _) as [[e|]|]; apply io_ret_inv in H as [[= -> ->] _].
  - rewrite rotated_no by done. apply s_return. destruct Hwho as [[-> _]| ->]; set_solver.
  - destruct Hs as (Hc & He & Hi). destruct (Hm Hc) as [m Em]. rewrite rotated_yes by done.
    rewrite (ctl_rotate _ _ Em), (ctl_cases db _ _ _ _ Hc eq_refl eq_refl eq_refl), Hc, He, Hi. by apply s_write_rotates.
  - destruct Hs as (Hc & He & im & Hi). rewrite rotated_no by done.
    rewrite (ctl_cases db _ _ _ _ Hc eq_refl eq_refl eq_refl), He, Hi. by apply s_write_waits.
Qed.

Lemma waker_flush wake : waker wake TFlushWait ∈ [None; Some TFlushWait].
Proof. destruct wake; set_solver. Qed.

(** The same in [flushMemtable]. *)
Lemma seg_flush_wait_ctl (wake : bool) (db : DB) w db' nx w' :
  flush_wait rand (if wake then flush_slot_wake db else flush_slot db) db w = Some ((db', nx), w') ->
  (wake = false -> closed db = false /\ flushErr db = None) -> (closed db = false -> is_Some (mem db)) ->
  seg (waker wake TFlushWait) (ctl_of db) (ctl_of db') (if rotated db db' && flushDoneCh db then Signal else NoWake) nx.
Proof.
  intros H Hfirst Hm. pose proof (slot_cases wake db Hfirst) as Hs. pose proof (waker_flush wake) as Hwho.
  unfold flush_wait, flush_rotate in H. destruct (if wake then _ else _) as [[e|]|].
  - apply io_ret_inv in H as [[= -> ->] _]. rewrite rotated_no by done. apply s_return. set_solver.
  - destruct Hs as (Hc & He & Hi). destruct (Hm Hc) as [m Em]. destruct (flushDoneCh db) eqn:Ed.
    + apply io_ret_inv in H as [[= -> ->] _]. rewrite rotated_yes by done.
      rewrite (ctl_rotate _ _ Em), (ctl_cases db _ _ _ _ Hc eq_refl eq_refl eq_refl), Hc, He, Hi, Ed. by apply s_flush_rotates.
    + io_step H as imm w1 E. apply io_ret_inv in H as [[= -> ->] _]. rewrite andb_false_r.
      rewrite (ctl_rotate _ _ Em), (ctl_cases db _ _ _ _ Hc eq_refl eq_refl eq_refl), Hc, He, Hi, Ed. by apply s_flush_begins.
  - destruct Hs as (Hc & He & im & Hi). apply io_ret_inv in H as [[= -> ->] _]. rewrite rotated_no by done.
    rewrite (ctl_cases db _ _ _ _ Hc eq_refl eq_refl eq_refl), He, Hi. by apply s_flush_waits.
Qed.

Lemma seg_Write_ctl ctx_err b (db : DB) w db' nx w' :
  Write rand ctx_err b db w = Some ((db', nx), w') ->
  seg None (ctl_of db) (ctl_of db') (if rotated db db' then Signal else NoWake) nx.
Proof.
  intros H. assert (forall e, seg None (ctl_of db) (ctl_of db) NoWake (Return e)) as Hret by (intros e; apply s_return; set_solver).
  destruct (checkWritePreconditionsLocked ctx_err db) as [e|] eqn:Hpre.
  { unfold Write in H. rewrite Hpre in H. apply io_ret_inv in H as [[= -> ->] _]. by rewrite rotated_no. }
  assert (closed db = false /\ flushErr db = None) as [Hc He]
    by (unfold checkWritePreconditionsLocked in Hpre; by destruct (closed db), (flushErr db)).
  destruct (Write_cases rand _ _ _ _ _ _ _ H) as [(Hs & err & -> & _)|(db1 & db2 & Hs & Eapp & _ & _ & _ & w1 & w2 & Ha)].
  { rewrite rotated_no, (ctl_same db db') by apply Hs. apply Hret. }
  destruct (applyOperations_control _ _ _ Eapp) as (E1 & E2 & E3 & E4 & E5 & E6).
  rewrite (ss_closed _ _ Hs) in E1. rewrite (ss_err _ _ Hs) in E2. rewrite (ss_imm _ _ Hs) in E3.
  rewrite (ss_done _ _ Hs) in E4. rewrite (ss_size _ _ Hs) in E5. rewrite (ss_mems _ _ Hs) in E6.
  rewrite <-(ctl_same db db2) by done. unfold maybeAutoFlushLocked in Ha. io_step Ha as m w3 Em.
  apply io_pure_inv in Em as [Em ->]. destruct (_ || _) eqn:Hz.
  { apply io_ret_inv in Ha as [[= -> ->] _]. rewrite rotated_no by done. apply s_return. set_solver. }
  apply orb_false_iff in Hz as [Hz _]. apply Z.eqb_neq in Hz.
  eapply (seg_auto_rotate_ctl false db db2); [exact Ha|by rewrite E1, E2|intros _|done].
  destruct (mem db2); [by eexists|done].
Qed.

Lemma seg_start c (db : DB) w db' nx w' :
  start rand c db w = Some ((db', nx), w') -> (closed db = false -> is_Some (mem db)) ->
  seg None (ctl_of db) (ctl_of db') (call_wakes c db db') nx.
Proof.
  assert (forall e, seg None (ctl_of db) (ctl_of db) NoWake (Return e)) as Hret by (intros e; apply s_return; set_solver).
  intros H Hm. destruct c as [ctx b| |]; cbn [start call_wakes] in *; [by eapply seg_Write_ctl|..].
  - unfold Flush in H. destruct (closed db) eqn:Hc.
    { apply io_ret_inv in H as [[= -> ->] _]. by rewrite rotated_no. }
    destruct (flushErr db) eqn:He; [apply io_ret_inv in H as [[= -> ->] _]; by rewrite rotated_no|].
    io_step H as m w1 E. apply io_pure_inv in E as [_ ->]. destruct (mem_empty m).
    { apply io_ret_inv in H as [[= -> ->] _]. by rewrite rotated_no. }
    eapply (seg_flush_wait_ctl false); [exact H|done|auto].
  - unfold Close in H. destruct (closed db) eqn:Hc; apply io_ret_inv in H as [[= -> ->] _]; [done|].
    rewrite (ctl_cases db _ _ _ _ Hc eq_refl eq_refl eq_refl). unfold ctl_of. cbn. apply s_close.
Qed.

(** Publishing. *)
Lemma publish_ctl r (db : DB) w db' err w' :
  publish_outcome r db w = Some ((db', err), w') ->
  ctl_of db' = mkCtl (closed db) (if err then true else false) (if err then c_imm (ctl_of db) else false) (flushDoneCh db)
    (c_auto (ctl_of db)).
Proof.
  unfold publish_outcome. intros H. destruct r as [x|e|]; [|by apply io_ret_inv in H as [[= -> ->] _]|done].
  io_step H as y w1 E. destruct y as [db1 err1].
  assert (match err1 with
    | Some _ => db1 = db
    | None => closed db1 = closed db /\ flushErr db1 = None /\ immMem db1 = None /\ flushDoneCh db1 = flushDoneCh db /\
        memtableFlushSize db1 = memtableFlushSize db
    end) as Hc.
  { unfold publishFlushedSSTLocked in E. io_step E as fault w2 E2.
    destruct fault; [by apply io_ret_inv in E as [[= -> ->] _]|].
    io_step E as enc w3 E3. io_step E as mw w4 E4. io_step E as aerr w5 E5.
    destruct aerr; [io_step E as u w6 E6|]; by apply io_ret_inv in E as [[= -> ->] _]. }
  destruct err1 as [e|]; apply io_ret_inv in H as [[= -> ->] _]; [by rewrite Hc|].
  destruct Hc as (H1 & H2 & H3 & H4 & H5). unfold ctl_of. cbn [c_imm c_auto]. by rewrite H1, H2, H3, H4, H5.
Qed.

Lemma seg_bg_ctl (db : DB) w db' nx w' :
  flush_bg_wake db w = Some ((db', nx), w') -> seg (Some TFlushBg) (ctl_of db) (ctl_of db') NoWake nx.
Proof.
  intros H. assert (forall e, seg (Some TFlushBg) (ctl_of db) (ctl_of db) NoWake (Return e)) as Hret by (intros e; apply s_return; set_solver).
  unfold flush_bg_wake in H. destruct (flushErr db) eqn:He; [by apply io_ret_inv in H as [[= -> ->] _]|].
  destruct (immMem db) eqn:Hi, (closed db) eqn:Hc; cbn in H; apply io_ret_inv in H as [[= -> ->] _]; try done.
  rewrite (ctl_cases db _ _ _ _ Hc eq_refl eq_refl eq_refl), He, Hi. apply s_bg_waits.
Qed.

Lemma seg_loop_ctl (db : DB) w db' nx w' :
  loop_top db w = Some ((db', nx), w') -> seg (Some TLoopWait) (ctl_of db) (ctl_of db') (resume_wakes TLoopWait db db') nx.
Proof.
  intros H. unfold loop_top in H. cbn [resume_wakes].
  destruct (closed db) eqn:Hc.
  { assert (db' = loop_exit db /\ nx = Return None) as [-> ->]
      by (by destruct (immMem db); apply io_ret_inv in H as [[= -> ->] _]).
    rewrite (ctl_cases db _ _ _ _ Hc eq_refl eq_refl eq_refl). cbn [immMem loop_exit set_flushDoneCh].
    replace (match immMem db with Some _ => _ | None => _ end) with NoWake by (by destruct (immMem db)).
    unfold ctl_of. cbn. rewrite Hc. apply s_loop_exits. }
  rewrite (ctl_cases db _ _ _ _ Hc eq_refl eq_refl eq_refl).
  destruct (immMem db) as [imm|] eqn:Ei; [destruct (mem_empty imm) eqn:Hemp|].
  - cbn [immMem set_imm closed] in H. rewrite Hc in H. apply io_ret_inv in H as [[= -> ->] _].
    unfold ctl_of. cbn. rewrite Hc. apply s_loop_skips.
  - apply io_ret_inv in H as [[= -> ->] _]. rewrite (ctl_cases db _ _ _ _ Hc eq_refl eq_refl eq_refl), Ei. apply s_loop_flies.
  - apply io_ret_inv in H as [[= -> ->] _]. rewrite (ctl_cases db _ _ _ _ Hc eq_refl eq_refl eq_refl), Ei. apply s_loop_sleeps.
Qed.

Lemma seg_loop_publish_ctl r (db : DB) w db' nx w' :
  loop_publish r db w = Some ((db', nx), w') -> (closed db = false -> is_Some (immMem db)) ->
  seg (Some (TLoopPublish r)) (ctl_of db) (ctl_of db') Broadcast nx.
Proof.
  intros H Hi. unfold loop_publish in H. io_step H as y w1 E. destruct y as [db1 err]. apply publish_ctl in E.
  destruct (ctl_of db) as [cl er im lo au] eqn:Ec. cbn [c_imm c_auto] in E.
  assert (closed db = cl /\ flushDoneCh db = lo /\ (if immMem db then true else false) = im) as (Ecl & Elo & Eim) by (by injection Ec).
  rewrite Ecl, Elo in E. injection E as E1 E2 E3 E4 E5. destruct err as [e|].
  - apply io_ret_inv in H as [[= -> ->] _]. unfold ctl_of. cbn [loop_exit set_flushDoneCh closed flushErr immMem flushDoneCh memtableFlushSize].
    rewrite E1, E2, E3, E5. apply s_loop_fails.
  - unfold loop_top in H. destruct (immMem db1) eqn:Ei1; [done|]. rewrite E1 in H. destruct cl; apply io_ret_inv in H as [[= -> ->] _];
      unfold ctl_of; cbn [loop_exit set_flushDoneCh closed flushErr immMem flushDoneCh memtableFlushSize];
      rewrite E1, E2, ?E4, E5, Ei1.
    + apply s_loop_last.
    + destruct (Hi Ecl) as [m Em]. rewrite Em in Eim. subst im. apply s_loop_done.
Qed.

Lemma seg_resume t (db : DB) w db' nx w' :
  resume rand t db w = Some ((db', nx), w') -> (closed db = false -> is_Some (mem db) /\ thread_ok db t) ->
  seg (Some t) (ctl_of db) (ctl_of db') (resume_wakes t db db') nx.
Proof.
  intros H Hok. destruct t as [| | |imm path|r| |imm path|r|ch]; cbn [resume resume_wakes] in *.
  - eapply (seg_auto_rotate_ctl true db db); [exact H|done|intros Hc; by destruct (Hok Hc)|done].
  - eapply (seg_flush_wait_ctl true); [exact H|done|intros Hc; by destruct (Hok Hc)].
  - by eapply seg_bg_ctl.
  - io_step H as r w1 E. apply io_ret_inv in H as [[= -> ->] _]. apply s_flush_io.
  - unfold flush_publish in H. io_step H as y w1 E. destruct y as [db1 err]. apply io_ret_inv in H as [[= -> ->] _].
    apply publish_ctl in E. rewrite E. destruct err; [apply s_flush_fails|apply s_flush_done].
  - by eapply seg_loop_ctl.
  - io_step H as r w1 E. apply io_ret_inv in H as [[= -> ->] _]. apply s_loop_io.
  - eapply seg_loop_publish_ctl; [exact H|]. intros [_ (imm & -> & _)]%Hok. by eexists.
  - assert (closed db = true) as Hc by (destruct (closed db) eqn:E; [done|destruct (Hok eq_refl) as [_ Hcl]; by rewrite <-E, Hcl]).
    rewrite (ctl_cases db _ _ _ _ Hc eq_refl eq_refl eq_refl). unfold close_finish in H.
    io_step H as e1 w1 E1. io_step H as e2 w2 E2. cbv zeta in H. io_step H as e3 w3 E3.
    apply io_ret_inv in H as [[= -> ->] _]. unfold ctl_of. cbn. rewrite Hc. apply s_close_finish.
Qed.

(** ** No wake-up is lost *)

(** Why a goroutine may sleep: the flusher because there is nothing to flush, the
    others because a flush is not over; nobody once the database is closed. *)
Definition stalled (c : ctl) (t : thread) : Prop :=
  c_closed c = false /\
  match t with TLoopWait => c_imm c = false | _ => c_imm c = true /\ c_err c = false end.

(** Who flushes in its own goroutine, and who only where [Write] starts flushes. *)
Definition is_sync (t : thread) : bool := match t with TFlushIO _ _ | TFlushPublish _ => true | _ => false end.

Definition suits (c : ctl) (t : thread) : Prop :=
  match t with
  | TWriteWait => c_auto c = true
  | TFlushIO _ _ | TFlushPublish _ => c_auto c = false
  | TCloseWait _ => c_closed c = true
  | _ => True
  end.

Record awake_inv (c : ctl) (asl awk : list thread) : Prop := {
  ai_waits : Forall (fun t => waits t = true) asl;
  ai_stalled : Forall (stalled c) asl;
  ai_loop : count is_loop (asl ++ awk) = (if c_loop c then 1 else 0)%nat;
  ai_auto : c_loop c = true -> c_auto c = true;
  ai_stopped : c_auto c = true -> c_loop c = false -> c_closed c = true \/ c_err c = true;
  ai_suits : Forall (suits c) (asl ++ awk);
  ai_flush : c_closed c = false -> c_imm c = true -> c_err c = false -> c_loop c = false ->
    (1 <= count is_sync awk)%nat
}.

Lemma count_perm p (ts ts' : list thread) : ts ≡ₚ ts' -> count p ts = count p ts'.
Proof. intros H. unfold count. by rewrite H. Qed.

Lemma awake_inv_perm c asl awk awk' : awk ≡ₚ awk' -> awake_inv c asl awk -> awake_inv c asl awk'.
Proof.
  intros Hp [? ? ? ? ? ? Hf]. split; try done.
  - by rewrite <-(count_perm _ _ _ (Permutation_app_head asl Hp)).
  - by rewrite <-Hp.
  - intros. rewrite <-(count_perm _ _ _ Hp). by apply Hf.
Qed.

Lemma asleep_loops c asl awk :
  awake_inv c asl awk -> c_imm c = false -> (length asl <= if c_loop c then 1 else 0)%nat.
Proof.
  intros [_ Hs Hl _ _ _ _] Hi. rewrite count_app in Hl.
  assert (count is_loop asl = length asl) as E; [|lia]. clear Hl. induction Hs as [|t asl [_ Ht] _ IH]; [done|].
  rewrite count_cons, IH. destruct t; cbn; try done; destruct Ht; congruence.
Qed.

(** The conditions of the sleepers only change when all of them are woken, or when
    the flusher, asleep alone, is handed a memtable. *)
Lemma notify_perm wk asl asl' woken : notify wk asl asl' woken -> asl ≡ₚ asl' ++ woken.
Proof. destruct 1; [by rewrite app_nil_r|done|solve_Permutation|done]. Qed.

Lemma notify_stalled who c c' wk nx asl awk asl' woken :
  seg who c c' wk nx -> awake_inv c asl awk -> notify wk asl asl' woken ->
  Forall (stalled c') asl' /\ Forall (stalled c') (sleeping nx).
Proof.
  intros Hs Ha Hn. pose proof (ai_stalled _ _ _ Ha) as Hst. pose proof (asleep_loops _ _ _ Ha) as Hlen.
  split; [|by destruct Hs; repeat constructor].
  destruct Hn as [asl| |asl1 t asl2|asl]; [|done| |done].
  - inversion Hs; subst; cbn in Hlen; try (exact Hst);
      try (specialize (Hlen eq_refl); destruct asl; [done|cbn in Hlen; lia]);
      (eapply Forall_impl; [exact Hst|]); intros t [Hc _]; cbn in Hc; try done.
  - inversion Hs; subst; cbn in Hlen; specialize (Hlen eq_refl); rewrite length_app in Hlen; cbn in Hlen;
      (replace (asl1 ++ asl2) with (@nil thread); [done|]); destruct asl1, asl2; try done; cbn in Hlen; repeat case_match; lia.
Qed.

(** All goroutines after a segment. *)
Lemma after_perm wk asl asl' woken rest nx :
  notify wk asl asl' woken -> (asl' ++ sleeping nx) ++ rest ++ woken ++ going nx ≡ₚ asl ++ rest ++ parked nx.
Proof.
  intros ->%notify_perm. assert (parked nx ≡ₚ sleeping nx ++ going nx) as ->
    by (destruct nx as [|t]; [done|]; cbn; by destruct (waits t)).
  solve_Permutation.
Qed.

(** The flush mode never changes, and a closed database stays closed. *)
Lemma suits_step who c c' wk nx t : seg who c c' wk nx -> suits c t -> suits c' t.
Proof. intros Hs. destruct Hs, t; cbn; done. Qed.

Lemma suits_parked who c c' wk nx :
  seg who c c' wk nx -> Forall (suits c) (option_list who) -> (c_auto c = true -> c_loop c = false -> c_closed c = true \/ c_err c = true) ->
  Forall (suits c') (parked nx).
Proof.
  intros Hs Hw Hst. destruct Hs as [| |? ? ? ?| | | |? au ? ? ?| | | | | | | | | | | | |]; cbn in *; repeat constructor; try done.
  - destruct H as [[_ ->]| ->]; [done|]. by inversion Hw.
  - destruct au; [|done]. by destruct (Hst eq_refl eq_refl).
  - by inversion Hw.
Qed.

(** The segments of calls and of those who wait for others are neither the flusher's
    nor flushes. *)
Lemma bystanders (who : option thread) :
  who ∈ [None; Some TWriteWait; Some TFlushWait; Some TFlushBg] ->
  count is_loop (option_list who) = 0%nat /\ count is_sync (option_list who) = 0%nat.
Proof.
  rewrite !elem_of_cons. by intros [->|[->|[->|[->|?%elem_of_nil]]]].
Qed.

Lemma writers (who : option thread) (au : bool) :
  (who = None /\ au = true) \/ who = Some TWriteWait -> who ∈ [None; Some TWriteWait; Some TFlushWait; Some TFlushBg].
Proof. intros [[-> _]| ->]; set_solver. Qed.

Lemma flushers (who : option thread) :
  who ∈ [None; Some TFlushWait] -> who ∈ [None; Some TWriteWait; Some TFlushWait; Some TFlushBg].
Proof. set_solver. Qed.

Lemma seg_bystander who c c' wk nx :
  seg who c c' wk nx ->
  (count is_loop (option_list who) = 0%nat /\ count is_sync (option_list who) = 0%nat) \/
  exists t, who = Some t /\ (is_loop t = true \/ is_sync t = true).
Proof.
  intros Hs. destruct Hs; try (left; apply bystanders; by eauto using writers, flushers); try (left; split; reflexivity);
    right; eexists; split; [reflexivity|cbn; auto..].
Qed.

#[local] Arguments count : simpl never.

Ltac counts := cbn in *; rewrite ?count_app, ?count_cons, ?count_nil in *; cbn in *.

(** The flusher is one before and after. *)
Lemma seg_loops who c c' wk nx (asl rest : list thread) :
  seg who c c' wk nx ->
  (count is_loop asl + (count is_loop (option_list who) + count is_loop rest) = if c_loop c then 1 else 0)%nat ->
  (count is_loop asl + (count is_loop rest + count is_loop (parked nx)) = if c_loop c' then 1 else 0)%nat.
Proof.
  intros Hs Hl. destruct Hs as [who c e H|who lo au H|who lo au H|lo au|who lo au H|who au H|who au imm path H| | | | | | | | | | | | |];
    try apply writers in H; try apply flushers in H; try apply bystanders in H as [H _]; counts; repeat case_match; lia.
Qed.

Lemma seg_stopped who c c' wk nx :
  seg who c c' wk nx -> (c_auto c = true -> c_loop c = false -> c_closed c = true \/ c_err c = true) ->
  Forall (suits c) (option_list who) -> (forall r, who = Some (TLoopPublish r) -> c_loop c = true) ->
  c_auto c' = true -> c_loop c' = false -> c_closed c' = true \/ c_err c' = true.
Proof.
  intros Hs Hsp Hsu Hr. destruct Hs; cbn in *; intros E1 E2; try done; auto.
  - apply Forall_cons in Hsu as [Hsu _]. cbn in Hsu. congruence.
  - by rewrite (Hr r eq_refl) in E2.
Qed.

(** A frozen memtable, and no flusher: then somebody flushes who did before, or who
    starts now. *)
Lemma seg_flushes who c c' wk nx :
  seg who c c' wk nx -> (c_auto c = true -> c_loop c = false -> c_closed c = true \/ c_err c = true) ->
  Forall (suits c) (option_list who) ->
  c_closed c' = false -> c_imm c' = true -> c_err c' = false -> c_loop c' = false ->
  (1 <= count is_sync (going nx))%nat \/
  (c_closed c = false /\ c_imm c = true /\ c_err c = false /\ c_loop c = false /\ count is_sync (option_list who) = 0%nat).
Proof.
  intros Hs Hsp Hsu E1 E2 E3 E4.
  destruct Hs as [who c e H|who lo au H|who lo au H|lo au|who lo au H|who au H|who au imm path H| | | | | | | | | | | | |];
    cbn in E1, E2, E3, E4; subst; try done; try (by left; counts; lia).
  - right. apply bystanders in H as [_ H]. by split_and!.
  - right. apply writers, bystanders in H as [_ H]. by split_and!.
  - right. apply flushers, bystanders in H as [_ H]. by split_and!.
  - by right.
  - cbn in Hsp. assert (au = true) as -> by (destruct H as [[_ ?]| ->]; [done|by apply Forall_cons in Hsu as [? _]]).
    by destruct (Hsp eq_refl eq_refl).
  - by right.
  - by right.
Qed.

Lemma awake_inv_step who c c' wk nx asl rest asl' woken :
  seg who c c' wk nx -> awake_inv c asl (option_list who ++ rest) -> notify wk asl asl' woken ->
  awake_inv c' (asl' ++ sleeping nx) (rest ++ woken ++ going nx).
Proof.
  intros Hs Ha Hn. destruct (notify_stalled _ _ _ _ _ _ _ _ _ Hs Ha Hn) as [Hst1 Hst2].
  pose proof (after_perm _ _ _ _ rest nx Hn) as Hp. pose proof (notify_perm _ _ _ _ Hn) as Hpn.
  destruct Ha as [Hw _ Hl Hau Hsp Hsu Hf]. rewrite !count_app in Hl. rewrite count_app in Hf.
  apply Forall_app in Hsu as [Hs1 [Hs2 Hs3]%Forall_app]. split.
  - rewrite Hpn in Hw. apply Forall_app in Hw as [Hw _]. apply Forall_app. split; [done|].
    destruct nx as [|t]; [constructor|]. cbn. destruct (waits t) eqn:E; repeat constructor. by rewrite E.
  - by apply Forall_app.
  - rewrite (count_perm _ _ _ Hp), !count_app. clear -Hs Hl. by eapply seg_loops.
  - destruct Hs; cbn in *; intros E; by apply Hau.
  - eapply seg_stopped; [exact Hs|exact Hsp|exact Hs2|]. intros r ->. clear -Hl. counts. by destruct (c_loop c); lia || done.
  - rewrite Hp. apply Forall_app. split; [|apply Forall_app; split].
    + eapply Forall_impl; [exact Hs1|]. intros t. by eapply suits_step.
    + eapply Forall_impl; [exact Hs3|]. intros t. by eapply suits_step.
    + by eapply suits_parked.
  - rewrite !count_app. pose proof (seg_flushes _ _ _ _ _ Hs Hsp Hs2) as Hfl. intros E1 E2 E3 E4.
    specialize (Hfl E1 E2 E3 E4). destruct Hfl as [?|(? & ? & ? & ? & ?)]; [lia|]. specialize (Hf ltac:(done) ltac:(done) ltac:(done) ltac:(done)). lia.
Qed.

(** What a wake-up takes: nobody loses the reason to sleep without waking up, and
    while somebody waits for a flush, somebody who flushes is awake. *)
Lemma somebody_flushes c asl awk :
  awake_inv c asl awk -> (exists t, t ∈ asl /\ is_loop t = false) -> exists t, t ∈ awk /\ (is_loop t = true \/ is_sync t = true).
Proof.
  intros [Hw Hst Hl _ _ _ Hf] (t & Hin & Ht). rewrite Forall_forall in Hw, Hst.
  assert (forall p, (1 <= count p awk)%nat -> exists t, t ∈ awk /\ p t = true) as Hex.
  { intros p. clear. induction awk as [|t awk IH]; [rewrite count_nil; lia|]. rewrite count_cons. destruct (p t) eqn:E.
    - intros _. exists t. split; [by left|done].
    - intros (t' & ? & ?)%IH. exists t'. split; [by right|done]. }
  destruct (Hst t Hin) as [Hc Ht']. assert (c_imm c = true /\ c_err c = false) as [Hi He].
  { specialize (Hw t Hin). by destruct t. }
  destruct (c_loop c) eqn:Elo.
  - destruct (Hex is_loop) as (t' & ? & ?); [|by eauto]. rewrite count_app in Hl.
    assert (count is_loop asl = 0%nat) as E0; [|lia]. clear Hl Hex Hin Ht Ht'.
    induction asl as [|t' asl IH]; [done|]. rewrite count_cons.
    destruct (Hst t' ltac:(by left)) as [_ Hr]. rewrite IH by (intros; (apply Hw || apply Hst); by right).
    pose proof (Hw t' ltac:(by left)) as Hwt. destruct t'; try done; congruence.
  - destruct (Hex is_sync) as (t' & ? & ?); [by apply Hf|by eauto].
Qed.

(** ** Every call returns

    The steps that are left to the goroutines, when no more calls are made: a step
    either brings somebody nearer to the end, or ends in another wait. *)
Definition weight (t : thread) : nat :=
  match t with
  | TWriteWait => 4 | TFlushWait => 6 | TFlushBg => 1 | TFlushIO _ _ => 2 | TFlushPublish _ => 1
  | TLoopWait => 3 | TLoopIO _ _ => 2 | TLoopPublish _ => 1 | TCloseWait _ => 1
  end.

Definition weights (ts : list thread) : nat := sum_list_with weight ts.

Definition tasks (c : ctl) (ts : list thread) : nat := (if c_imm c then 3 else 0) + weights ts.

Definition work (st : Run) : nat :=
  tasks (ctl_of (r_db st)) (r_asleep st ++ r_awake st) * S (length (r_asleep st ++ r_awake st)) + count waits (r_awake st).

Lemma weights_app ts1 ts2 : weights (ts1 ++ ts2) = (weights ts1 + weights ts2)%nat.
Proof. apply sum_list_with_app. Qed.

Lemma weights_perm ts ts' : ts ≡ₚ ts' -> weights ts = weights ts'.
Proof. intros H. unfold weights. by rewrite H. Qed.

Lemma writer_some (t : thread) (au : bool) :
  (Some t = None /\ au = true) \/ Some t = Some TWriteWait -> t = TWriteWait.
Proof. by intros [[? _]|[= ->]]. Qed.

Lemma flusher_some (t : thread) : Some t ∈ [None; Some TFlushWait] -> t = TFlushWait.
Proof. rewrite !elem_of_cons. by intros [?|[[= ->]|?%elem_of_nil]]. Qed.

Lemma seg_tasks t c c' wk nx :
  seg (Some t) c c' wk nx ->
  (tasks c' (parked nx) < tasks c [t])%nat \/ (c' = c /\ wk = NoWake /\ nx = Park t /\ waits t = true).
Proof.
  intros Hs. unfold tasks. inversion Hs as [? ? ? H|? ? ? H|? ? ? H| |? ? ? H|? ? H|? ? ? ? H| | | | | | | | | | | | |];
    subst; try (apply writer_some in H; subst); try (apply flusher_some in H; subst); cbn;
    try (left; repeat case_match; lia); try (by right).
  left. destruct t; cbn; lia.
Qed.

(** The number of goroutines does not grow. *)
Lemma parked_length (nx : next) : (length (parked nx) <= 1)%nat.
Proof. destruct nx; cbn; lia. Qed.

Lemma count_length p (ts : list thread) : (count p ts <= length ts)%nat.
Proof. apply length_filter. Qed.

Lemma work_less (T T' L L' w w' : nat) : (T' < T -> L' <= L -> w' <= L' -> T' * S L' + w' < T * S L + w)%nat.
Proof. nia. Qed.

(** The work left shrinks with every step. *)
Lemma go_work t c c' wk nx asl awk1 awk2 asl' woken :
  seg (Some t) c c' wk nx -> notify wk asl asl' woken ->
  (tasks c' ((asl' ++ sleeping nx) ++ (awk1 ++ awk2) ++ woken ++ going nx) *
     S (length ((asl' ++ sleeping nx) ++ (awk1 ++ awk2) ++ woken ++ going nx)) +
     count waits ((awk1 ++ awk2) ++ woken ++ going nx) <
   tasks c (asl ++ awk1 ++ t :: awk2) * S (length (asl ++ awk1 ++ t :: awk2)) + count waits (awk1 ++ t :: awk2))%nat.
Proof.
  intros Hs Hn. pose proof (after_perm _ _ _ _ (awk1 ++ awk2) nx Hn) as Hp.
  pose proof (count_length waits ((awk1 ++ awk2) ++ woken ++ going nx)) as Hc.
  assert (length ((awk1 ++ awk2) ++ woken ++ going nx) <= length (asl ++ (awk1 ++ awk2) ++ parked nx))%nat as Hlen.
  { rewrite <-Hp, (length_app (asl' ++ _)). lia. }
  unfold tasks. rewrite (weights_perm _ _ Hp), (Permutation_length Hp). rewrite !length_app in Hlen. rewrite !length_app in Hc. rewrite !length_app.
  rewrite !weights_app. change (weights (t :: awk2)) with (weight t + weights awk2)%nat. cbn [length].
  pose proof (parked_length nx). destruct (seg_tasks _ _ _ _ _ Hs) as [Ht|(-> & -> & -> & Hw)].
  - unfold tasks in Ht. change (weights [t]) with (weight t + 0)%nat in Ht. apply work_less; lia.
  - inversion Hn; subst. cbn [parked sleeping going length app] in *. rewrite Hw in *.
    change (weights [t]) with (weight t + 0)%nat. rewrite !app_nil_r, !count_app, !count_cons, Hw.
    match goal with |- (?T' * S ?L' + _ < ?T * S ?L + _)%nat => replace T' with T by lia; replace L' with L by lia end. lia.
Qed.
End Wakeups.

(** ** Runs of a database *)
Section Runs.
Context {Mem : Type} {memtable : Memtable Mem} {memtable_laws : MemtableLaws Mem}.
Context {slices : Slices} {slices_laws : SlicesLaws} {device : Device} {good_device : GoodDevice} {streams : Streams}.
Context (rand : nat -> nat -> Q).
Local Abbreviation Run := (Run (Mem := Mem)).
Local Abbreviation run_step := (run_step (Mem := Mem) rand).
Local Abbreviation go_step := (go_step (Mem := Mem) rand).

Lemma live_db_perm acked issued n G (db : DB Mem) ts ts' s :
  ts ≡ₚ ts' -> live_db acked issued n G db ts s -> live_db acked issued n G db ts' s.
Proof.
  intros Hp [Hd Hl Hs [H1 H2 H3] Hpd Hc]. split; try done.
  - split; by rewrite <-?(count_perm _ _ _ Hp), <-?Hp.
  - by rewrite <-Hp.
  - destruct Hc as [?|(? & ? & ?)]; [by left|right]. by rewrite <-!(count_perm _ _ _ Hp).
Qed.

Lemma up_perm acked issued n (db : DB Mem) ts ts' s :
  ts ≡ₚ ts' -> up acked issued n db ts s -> up acked issued n db ts' s.
Proof.
  intros Hp [[G Hl]|[G [? ? ? ? Ht ?]]]; [left|right]; exists G; [by eapply live_db_perm|]. split; try done. by rewrite <-Hp.
Qed.

Lemma up_threads acked issued n (db : DB Mem) ts s t :
  up acked issued n db ts s -> t ∈ ts -> closed db = false -> is_Some (mem db) /\ thread_ok db t.
Proof.
  intros [[G Hl]|[G Hd]] Hin Hc; [|by rewrite (de_closed _ _ _ _ _ _ _ Hd) in Hc].
  split; [by eapply live_db_mem|]. pose proof (tk_each _ _ (lv_threads _ _ _ _ _ _ _ Hl)) as Ht.
  rewrite Forall_forall in Ht. by apply Ht.
Qed.

Lemma up_mem acked issued n (db : DB Mem) ts s : up acked issued n db ts s -> closed db = false -> is_Some (mem db).
Proof. intros [[G Hl]|[G Hd]] Hc; [by eapply live_db_mem|by rewrite (de_closed _ _ _ _ _ _ _ Hd) in Hc]. Qed.

(** What is known of a running database: see Live.v for its data and its disk. *)
Definition run_ok (n : Z) (st : Run) : Prop :=
  (1 <= n)%Z /\ up (r_acked st) (r_issued st) n (r_db st) (r_asleep st ++ r_awake st) (w_fs (r_w st)) /\
  awake_inv (ctl_of (r_db st)) (r_asleep st) (r_awake st).

Definition in_bounds (n : Z) (st : Run) : Prop := (n * batches_bytes (r_issued st) < 2 ^ 31)%Z.

Lemma opened_run_ok acked issued n (db : DB Mem) ts w :
  (1 <= n)%Z -> just_opened db ts -> up acked issued n db ts (w_fs w) -> run_ok n (launched db ts w acked issued).
Proof.
  intros Hn [Hc He Hi Hl ->] Hup. split; [done|]. split; [done|]. unfold launched. cbn [r_db r_asleep r_awake].
  unfold ctl_of. rewrite Hc, He, Hi. split; cbn [c_closed c_err c_imm c_loop c_auto app]; try done.
  - by destruct (flushDoneCh db).
  - by rewrite Hl.
  - rewrite Hl. by intros ->.
  - by destruct (flushDoneCh db); repeat constructor.
Qed.

Lemma call_run_ok n st st' : call_step rand st st' -> in_bounds n st' -> run_ok n st -> run_ok n st'.
Proof using memtable_laws.
  intros Hs Hb (Hn & Hup & Ha). destruct Hs as [c db w asl awk acked issued db' nx w' asl' woken Hok E Hnt].
  cbn [r_db r_w r_asleep r_awake r_acked r_issued] in *. split; [done|]. split.
  - eapply up_perm; [symmetry; exact (after_perm _ _ _ _ awk nx Hnt)|].
    apply (triple_trace Faulty _ _ _ _ _ _ _ (w_fs w') ltac:(done) (up_start rand acked issued _ n c db (asl ++ awk) Hn eq_refl Hb Hok) Hup)
      in E as [HQ _];
      [by rewrite <-app_assoc in HQ|]. eapply safe_grow; [by apply sublist_inserts_r|lia|]. by eapply up_safe.
  - eapply (awake_inv_step None); [eapply seg_start; [exact E|by eapply up_mem]|exact Ha|exact Hnt].
Qed.

Lemma go_run_ok n st st' : go_step st st' -> in_bounds n st' -> run_ok n st -> run_ok n st' /\ (work st' < work st)%nat.
Proof using memtable_laws slices_laws good_device streams.
  intros Hs Hb (Hn & Hup & Ha). destruct Hs as [t awk1 awk2 db w asl acked issued db' nx w' asl' woken He E Hnt].
  cbn [r_db r_w r_asleep r_awake r_acked r_issued] in *.
  assert (seg (Some t) (ctl_of db) (ctl_of db') (resume_wakes t db db') nx) as Hseg.
  { eapply seg_resume; [exact E|]. intros Hc. eapply up_threads; [exact Hup| |exact Hc].
    rewrite !elem_of_app, elem_of_cons. auto. }
  split; [split; [done|split]|].
  - eapply up_perm; [symmetry; exact (after_perm _ _ _ _ (awk1 ++ awk2) nx Hnt)|]. rewrite app_assoc in Hup.
    apply (triple_trace Loose _ _ _ _ _ _ _ (w_fs w') ltac:(done) (up_resume rand acked issued n Hn Hb db (asl ++ awk1) t awk2) Hup)
      in E as [HQ _]; [|by eapply up_safe]. rewrite <-!app_assoc in HQ. by rewrite <-!app_assoc.
  - eapply (awake_inv_step (Some t)); [exact Hseg| |exact Hnt]. eapply awake_inv_perm; [|exact Ha]. solve_Permutation.
  - by eapply go_work.
Qed.

Lemma run_step_issued n st st' : run_step st st' -> (0 <= n)%Z -> in_bounds n st' -> in_bounds n st.
Proof using.
  intros [Hs|Hs] Hn; [|by destruct Hs]. destruct Hs. unfold in_bounds. cbn [r_issued]. rewrite batches_bytes_app.
  pose proof (batches_bytes_nonneg (batch_of c)). nia.
Qed.

Lemma run_ok_steps n st st' : rtc run_step st st' -> in_bounds n st' -> run_ok n st -> run_ok n st'.
Proof using memtable_laws slices_laws good_device streams.
  intros H. induction H as [|st1 st2 st3 H12 H23 IH]; [done|]. intros Hb Hok. apply IH; [done|].
  assert (in_bounds n st2) as Hb2.
  { destruct Hok as [Hn _]. clear -H23 Hb Hn. induction H23; [done|]. eapply run_step_issued; [done|lia|auto]. }
  destruct H12 as [Hc|Hg]; [by eapply call_run_ok|by eapply go_run_ok].
Qed.

Lemma go_steps_issued st st' : rtc go_step st st' -> r_issued st' = r_issued st.
Proof using. induction 1 as [|st1 st2 st3 H _ IH]; [done|]. rewrite IH. by destruct H. Qed.

(** A goroutine that is awake and can go on. *)
Lemma somebody_enabled c asl (awk : list (thread Mem)) :
  awake_inv c asl awk -> awk <> [] -> exists t awk1 awk2, awk = awk1 ++ t :: awk2 /\ enabled t (asl ++ awk1 ++ awk2).
Proof using.
  intros Ha Hne. destruct (decide (Forall (fun t => is_loop t = false) awk)) as [Hno|Hex]; cycle 1.
  { apply (not_Forall_Exists (fun t => is_loop t = false)), Exists_exists in Hex as (t & Hin & Ht). apply list_elem_of_split in Hin as (awk1 & awk2 & ->). exists t, awk1, awk2. split; [done|].
    destruct t as [| | | | | | | |[|]]; try done. by destruct Ht. }
  destruct awk as [|t awk]; [done|]. exists t, [], awk. split; [done|]. destruct t as [| | | | | | | |[|]]; try done.
  assert (asl = []) as ->; [|by apply Forall_cons in Hno as [_ ?]].
  pose proof (ai_suits _ _ _ Ha) as Hsu. apply Forall_app in Hsu as [_ [Hc _]%Forall_cons]. cbn in Hc.
  pose proof (ai_stalled _ _ _ Ha) as Hst. destruct asl as [|t asl]; [done|].
  apply Forall_cons in Hst as [[Hcl _] _]. congruence.
Qed.

(** A step can be made as long as a goroutine is awake, unless it panics. *)
Lemma stuck n (st : Run) :
  run_ok n st -> in_bounds n st -> (forall st', ~ go_step st st') ->
  r_awake st = [] \/
  exists t, t ∈ r_awake st /\ resume rand t (r_db st) (now (r_w st)) = None /\ finished t = true /\ wal (r_db st) = None.
Proof using memtable_laws slices_laws good_device streams.
  destruct st as [db w asl awk acked issued]. intros (Hn & Hup & Ha) Hb Hstuck.
  cbn [r_db r_w r_asleep r_awake r_acked r_issued] in *. destruct (decide (awk = [])) as [->|Hne]; [by left|right].
  destruct (somebody_enabled _ _ _ Ha Hne) as (t & awk1 & awk2 & -> & He). exists t. split; [set_solver|].
  destruct (resume rand t db (now w)) as [[[db' nx] w']|] eqn:E.
  - exfalso. destruct (resume_wakes t db db') eqn:Ew.
    + eapply Hstuck, goes_on; [exact He|exact E|rewrite Ew; apply notify_none].
    + destruct asl as [|t' asl].
      * eapply Hstuck, goes_on; [exact He|exact E|rewrite Ew; apply notify_nobody].
      * eapply Hstuck, goes_on; [exact He|exact E|rewrite Ew; apply (notify_one [])].
    + eapply Hstuck, goes_on; [exact He|exact E|rewrite Ew; apply notify_all].
  - split; [done|]. rewrite app_assoc in Hup.
    eapply (resume_runs rand acked issued n Hn Hb db (asl ++ awk1) t awk2 (now w)); [exact Hup| |exact E].
    apply Forall_singleton. by eapply up_safe.
Qed.

(** Nobody left but the flusher. *)
Lemma only_the_flusher c (asl : list (thread Mem)) :
  awake_inv c asl [] -> asl = [] \/ (asl = [TLoopWait] /\ c_closed c = false).
Proof using.
  intros Ha. assert (Forall (fun t => is_loop t = true) asl) as Hl.
  { apply Forall_forall. intros t Hin. destruct (is_loop t) eqn:E; [done|].
    destruct (somebody_flushes _ _ _ Ha) as (t' & []%elem_of_nil & _). by exists t. }
  pose proof (ai_loop _ _ _ Ha) as Hc. rewrite app_nil_r in Hc. pose proof (ai_waits _ _ _ Ha) as Hw.
  destruct asl as [|t [|t' asl]]; [by left|right|]; apply Forall_cons in Hl as [Ht Hl]; apply Forall_cons in Hw as [Hwt _].
  - pose proof (ai_stalled _ _ _ Ha) as [[Hcl _] _]%Forall_cons. by destruct t.
  - apply Forall_cons in Hl as [Ht' _]. rewrite !count_cons, Ht, Ht' in Hc. destruct (c_loop c); lia.
Qed.

(** The runs of a database that [Open] has opened, in the middle of any history. *)
Section Opened.
Context (faults : list fault) (nf : nat -> list fault) (opts : list Option) (mkdir : option error).
Context (fault : option string) (s : Fs) (acked issued : list batch) (n : Z).
Context (db : DB Mem) (ts : list (thread Mem)) (w : World).
Context (history : rtc hstep (blank faults nf) (mkState (Down s) acked issued n : State)).
Context (synced_writes : o_syncOnWrite (applyOptions opts) = true).
Context (opened : Open rand opts mkdir (mkWorld s [s] fault) = Some (Ok (db, ts), w)).
Context (opens_fit : (n + 1 < 2 ^ 63)%Z).

Lemma run_ok_reachable st :
  rtc run_step (launched db ts w acked issued) st -> in_bounds (n + 1) st -> run_ok (n + 1) st.
Proof using All.
  intros Hr Hb. pose proof (opens_nonneg _ _ _ history) as Hn. cbn [st_opens] in Hn.
  assert (in_bounds (n + 1) (launched db ts w acked issued)) as Hb0.
  { clear -Hr Hb Hn. induction Hr as [|st1 st2 st3 H12 _ IH]; [done|]. eapply run_step_issued; [done|lia|auto]. }
  apply (run_ok_steps (n + 1) _ _ Hr Hb). unfold in_bounds in Hb0. cbn [launched r_issued] in Hb0.
  pose proof (batches_bytes_nonneg issued). apply hinv_reachable in history as (_ & Hs & Hse); [|split; cbn [st_opens st_issued]; lia].
  destruct (open_run _ _ _ _ _ _ _ _ _ _ synced_writes Hn opens_fit Hb0 Hs Hse opened) as (_ & Hj & Hup).
  apply opened_run_ok; [lia|done|done].
Qed.

(** C7: no wake-up is lost.  Take a database that was opened, in any
    history of its directory, and let any number of goroutines call [Write], [Flush]
    and [Close]; a goroutine that waits on the condition variable goes on only when a
    [Signal] or a [Broadcast] wakes it, and a [Signal] wakes an arbitrary one.  Then
    at any time everybody asleep has reason to be: the database is open, and there is
    nothing to flush for the flusher, a frozen memtable and no failed flush for the
    others; and while a call sleeps somebody is awake who flushes and will wake it.
    The bounds and assumptions are those of [durable_linearizable]. *)
Theorem no_lost_wakeup st :
  rtc run_step (launched db ts w acked issued) st -> in_bounds (n + 1) st ->
  Forall (stalled (ctl_of (r_db st))) (r_asleep st) /\
  ((exists t, t ∈ r_asleep st /\ is_loop t = false) ->
   exists t, t ∈ r_awake st /\ (is_loop t = true \/ is_sync t = true)).
Proof using All.
  intros Hr Hb. destruct (run_ok_reachable st Hr Hb) as (_ & _ & Ha). split; [apply Ha|by eapply somebody_flushes].
Qed.

(** C8: every call returns.  In any such run, once no more calls are made,
    the goroutines take a bounded number of steps, in whatever order they are
    scheduled and whomever a [Signal] wakes; and when none of them can take a step
    any more all calls have returned, with at most the flusher of an open database
    asleep -- or the process has died of the race between [Close] and a flush.
    The bounds and assumptions are those of [durable_linearizable]. *)
Theorem calls_return st :
  rtc run_step (launched db ts w acked issued) st -> in_bounds (n + 1) st ->
  (forall k st', nsteps go_step k st st' -> (k <= work st)%nat) /\
  (forall st', rtc go_step st st' -> (forall st'', ~ go_step st' st'') ->
    (r_awake st' = [] /\ (r_asleep st' = [] \/ (r_asleep st' = [TLoopWait] /\ closed (r_db st') = false))) \/
    (exists t, t ∈ r_awake st' /\ resume rand t (r_db st') (now (r_w st')) = None /\
       finished t = true /\ wal (r_db st') = None)).
Proof using All.
  intros Hr Hb. pose proof (run_ok_reachable st Hr Hb) as Hok. split.
  - clear Hr. intros k. revert st Hb Hok. induction k as [|k IH]; intros st Hb Hok st' Hk; [lia|].
    inversion Hk as [|? ? st1 ? H1 H2]; subst. assert (in_bounds (n + 1) st1) as Hb1 by (by destruct H1).
    destruct (go_run_ok _ _ _ H1 Hb1 Hok) as [Hok1 Hw]. specialize (IH st1 Hb1 Hok1 st' H2). lia.
  - intros st' Hg Hstuck. assert (in_bounds (n + 1) st') as Hb'.
    { unfold in_bounds. by rewrite (go_steps_issued _ _ Hg). }
    assert (run_ok (n + 1) st') as Hok'.
    { apply run_ok_reachable; [|done]. etrans; [exact Hr|]. eapply rtc_subrel; [|exact Hg]. intros ? ? ?. by right. }
    destruct (stuck _ _ Hok' Hb' Hstuck) as [E|?]; [left|by right]. split; [done|].
    destruct Hok' as (_ & _ & Ha). rewrite E in Ha. by apply only_the_flusher in Ha.
Qed.
End Opened.
End Runs.
