(* ===== verification/Flags.v ===== *)
(** * Command-line flags: what the programs use of [flag], and of [strconv]

    The parser of package [flag] with [ContinueOnError], over flags that set a field
    of a configuration, and the numbers and truth values it reads. *)
From S2P Require Import Prelude.
From S2P Require Import Errors.
From S2P Require Import FileNames.

Local Open Scope Z_scope.

(** ** strconv *)
Module strconv.

Definition ErrSyntax : error := ErrorText "invalid syntax".
Definition ErrRange : error := ErrorText "value out of range".

(** [c | ('x' - 'X')]. *)
Definition lower (c : byte) : byte := Z_to_byte (Z.lor (byte_to_Z c) 32).

Definition is_letter (c : byte) : bool := (97 <=? byte_to_Z (lower c)) && (byte_to_Z (lower c) <=? 122).

Definition digit_of (c : byte) : option Z :=
  if is_digit c then Some (digit_value c)
  else if is_letter c then Some (byte_to_Z (lower c) - 97 + 10)
  else None.

(** The loop of [ParseUint] with base 0: underscores are skipped. *)
Fixpoint digits_loop (base : Z) (s : bytes) (n : Z) : res Z :=
  match s with
  | [] => Ok n
  | c :: s =>
      if bool_decide (c = x5f) then digits_loop base s n
      else match digit_of c with
      | None => throw ErrSyntax
      | Some d =>
          if base <=? d then throw ErrSyntax
          else if 2 ^ 64 <=? n * base + d then throw ErrRange
          else digits_loop base s (n * base + d)
      end
  end.

(** The base and the digits that its prefix leaves. *)
Definition split_base (s : bytes) : Z * bytes :=
  match s with
  | x30 :: c :: rest =>
      if bool_decide (lower c = x62) && negb (bool_decide (rest = [])) then (2, rest)
      else if bool_decide (lower c = x6f) && negb (bool_decide (rest = [])) then (8, rest)
      else if bool_decide (lower c = x78) && negb (bool_decide (rest = [])) then (16, rest)
      else (8, c :: rest)
  | x30 :: rest => (8, rest)
  | _ => (10, s)
  end.

(** [underscoreOK], after the sign and the prefix; [saw] is what was seen last. *)
Inductive seen := Start | Digit | Underscore | Other.

Fixpoint underscore_loop (hex : bool) (s : bytes) (saw : seen) : bool :=
  match s with
  | [] => match saw with Underscore => false | _ => true end
  | c :: s =>
      if is_digit c || (hex && (97 <=? byte_to_Z (lower c)) && (byte_to_Z (lower c) <=? 102))
      then underscore_loop hex s Digit
      else if bool_decide (c = x5f) then match saw with Digit => underscore_loop hex s Underscore | _ => false end
      else match saw with Underscore => false | _ => underscore_loop hex s Other end
  end.

Definition underscoreOK (s : bytes) : bool :=
  let s := match s with c :: rest => if bool_decide (c = x2d) || bool_decide (c = x2b) then rest else s | [] => s end in
  match s with
  | x30 :: c :: rest =>
      if bool_decide (lower c = x62) || bool_decide (lower c = x6f) || bool_decide (lower c = x78)
      then underscore_loop (bool_decide (lower c = x78)) rest Digit
      else underscore_loop false s Start
  | _ => underscore_loop false s Start
  end.

(** [ParseUint(s, 0, 64)]. *)
Definition ParseUint (s : bytes) : res Z :=
  match s with
  | [] => throw ErrSyntax
  | _ =>
      let '(base, digits) := split_base s in
      n ← digits_loop base digits 0;
      if existsb (fun c => bool_decide (c = x5f)) digits && negb (underscoreOK s) then throw ErrSyntax else Ok n
  end.

(** [ParseInt(s, 0, 64)]. *)
Definition ParseInt (s : bytes) : res Z :=
  match s with
  | [] => throw ErrSyntax
  | c :: rest =>
      let neg := bool_decide (c = x2d) in
      let digits := if neg || bool_decide (c = x2b) then rest else s in
      un ← ParseUint digits;
      if negb neg && (2 ^ 63 <=? un) then throw ErrRange
      else if neg && (2 ^ 63 <? un) then throw ErrRange
      else Ok (if neg then - un else un)
  end.

Definition ParseBool (s : bytes) : res bool :=
  if existsb (fun t => bool_decide (s = bytes_of_string t)) ["1"; "t"; "T"; "true"; "TRUE"; "True"]%string then Ok true
  else if existsb (fun t => bool_decide (s = bytes_of_string t)) ["0"; "f"; "F"; "false"; "FALSE"; "False"]%string then Ok false
  else throw ErrSyntax.

(** *** Numbers as they are printed are read back *)
Lemma decimal_loop_head fuel n :
  0 < n < 10 ^ Z.of_nat fuel -> exists c rest, decimal_loop fuel n = c :: rest /\ is_digit c = true /\ c <> x30.
Proof.
  revert n. induction fuel as [|fuel IH]; intros n Hn; [cbn in Hn; lia|]. cbn [decimal_loop].
  destruct (Z.ltb_spec n 10) as [Hlt|Hge].
  - exists (digit n), []. split; [done|]. split; [apply is_digit_digit; lia|].
    intros E. apply (f_equal digit_value) in E. rewrite digit_value_digit in E by lia. unfold digit_value in E. cbn in E. lia.
  - destruct (IH (n / 10)) as (c & rest & -> & Hc).
    + rewrite Nat2Z.inj_succ, Z.pow_succ_r in Hn by lia. split; [apply Z.div_str_pos; lia|]. apply Z.div_lt_upper_bound; lia.
    + by exists c, (rest ++ [digit (n mod 10)]).
Qed.

Lemma digit_not_underscore c : is_digit c = true -> c <> x5f.
Proof. by intros H ->. Qed.

Lemma digits_loop_decimal s n :
  forallb is_digit s = true -> 0 <= n -> foldl (fun acc b => acc * 10 + digit_value b) n s < 2 ^ 64 ->
  digits_loop 10 s n = Ok (foldl (fun acc b => acc * 10 + digit_value b) n s).
Proof.
  revert n. induction s as [|c s IH]; intros n Hd Hn Hlt; [done|]. cbn [forallb] in Hd.
  apply andb_true_iff in Hd as [Hc Hd]. cbn [digits_loop foldl] in *. pose proof (digit_value_range c Hc) as Hr.
  rewrite bool_decide_false by (by apply digit_not_underscore). unfold digit_of. rewrite Hc.
  assert (n * 10 + digit_value c <= foldl (fun acc b => acc * 10 + digit_value b) (n * 10 + digit_value c) s) as Hle.
  { assert (0 <= n * 10 + digit_value c) as H0 by lia. clear -Hd H0. revert H0. generalize (n * 10 + digit_value c) as m.
    induction s as [|c' s IH]; intros m Hm; [done|]. cbn [forallb foldl] in *. apply andb_true_iff in Hd as [Hc' Hd].
    pose proof (digit_value_range c' Hc'). etrans; [|apply IH; [done|lia]]. lia. }
  destruct (Z.leb_spec 10 (digit_value c)); [lia|]. destruct (Z.leb_spec (2 ^ 64) (n * 10 + digit_value c)); [lia|].
  apply IH; [done|lia|done].
Qed.

Lemma no_underscores s : forallb is_digit s = true -> existsb (fun c => bool_decide (c = x5f)) s = false.
Proof.
  induction s as [|c s IH]; [done|]. cbn [forallb existsb]. intros [Hc Hs]%andb_true_iff.
  rewrite bool_decide_false by (by apply digit_not_underscore). by apply IH.
Qed.

Lemma ParseUint_decimal n : is_u64 n -> ParseUint (decimal n) = Ok n.
Proof.
  intros Hn. destruct (decide (n = 0)) as [->|Hne]; [by vm_compute|]. destruct (decimal_digits n Hn) as [Hd Hv].
  destruct (decimal_loop_head 20 n) as (c & rest & E & Hc & H0); [unfold is_u64 in Hn; lia|].
  change (decimal n = c :: rest) in E. unfold ParseUint. rewrite E.
  assert (split_base (c :: rest) = (10, c :: rest)) as -> by (by destruct c).
  rewrite <-E, digits_loop_decimal; [|done|lia|unfold is_u64 in Hn; fold (decimal_value (decimal n)); lia].
  fold (decimal_value (decimal n)). rewrite Hv. cbn [mbind result_bind]. by rewrite no_underscores.
Qed.

(** [strconv.Itoa]. *)
Definition Itoa (n : Z) : bytes := if n <? 0 then x2d :: decimal (- n) else decimal n.

Lemma ParseInt_Itoa n : - 2 ^ 63 <= n < 2 ^ 63 -> ParseInt (Itoa n) = Ok n.
Proof.
  intros Hn. unfold Itoa. destruct (Z.ltb_spec n 0) as [Hneg|Hpos].
  - cbn [ParseInt]. rewrite bool_decide_true by done. cbn [orb]. rewrite ParseUint_decimal by (unfold is_u64; lia).
    cbn [mbind result_bind negb andb]. destruct (Z.ltb_spec (2 ^ 63) (- n)); [lia|]. f_equal. lia.
  - destruct (decimal n) as [|c rest] eqn:E; [by apply decimal_nonempty in E|].
    destruct (decimal_digits n) as [Hd _]; [unfold is_u64; lia|]. rewrite E in Hd. cbn [forallb] in Hd.
    apply andb_true_iff in Hd as [Hc _]. unfold ParseInt. rewrite !bool_decide_false by (by intros ->). cbn [orb].
    rewrite <-E, ParseUint_decimal by (unfold is_u64; lia). cbn [mbind result_bind negb andb].
    by destruct (Z.leb_spec (2 ^ 63) n); [lia|].
Qed.
End strconv.

(** ** flag *)
Module flag.

(** A flag of a flag set that fills in a [C]: [f_Set] is its [Value.Set]. *)
Record Flag (C : Type) := mkFlag { f_name : bytes; f_isBool : bool; f_Set : bytes -> C -> res C }.
Arguments mkFlag {C}. Arguments f_name {C}. Arguments f_isBool {C}. Arguments f_Set {C}.

Section Flags.
Context {C : Type}.
Local Abbreviation Flag := (Flag C).

Definition StringVar (set : bytes -> C -> C) (name : string) : Flag :=
  mkFlag (bytes_of_string name) false (fun s c => Ok (set s c)).

(** The types [int] and [int64] are the same. *)
Definition IntVar (set : Z -> C -> C) (name : string) : Flag :=
  mkFlag (bytes_of_string name) false (fun s c => n ← strconv.ParseInt s; Ok (set n c)).

Definition Uint64Var (set : Z -> C -> C) (name : string) : Flag :=
  mkFlag (bytes_of_string name) false (fun s c => n ← strconv.ParseUint s; Ok (set n c)).

Definition BoolVar (set : bool -> C -> C) (name : string) : Flag :=
  mkFlag (bytes_of_string name) true (fun s c => b ← strconv.ParseBool s; Ok (set b c)).

(** The name and the value on either side of the first [=] but the first byte. *)
Fixpoint split_value (name : bytes) : bytes * option bytes :=
  match name with
  | [] => ([], None)
  | c :: rest =>
      if bool_decide (c = x3d) then ([], Some rest)
      else let '(name, value) := split_value rest in (c :: name, value)
  end.

(** What [parseOne] makes of an argument. *)
Inductive shape := Positional | Terminator | BadSyntax | Named (name : bytes) (value : option bytes).

Definition shape_of (s : bytes) : shape :=
  match s with
  | x2d :: x2d :: [] => Terminator
  | x2d :: x2d :: c :: rest | x2d :: c :: rest =>
      if bool_decide (c = x2d) || bool_decide (c = x3d) then BadSyntax
      else let '(name, value) := split_value rest in Named (c :: name) value
  | _ => Positional
  end.

Definition lookup (formal : list Flag) (name : bytes) : option Flag :=
  snd <$> list_find (fun f => f_name f = name) formal.

Definition ErrHelp : error := ErrorText "flag: help requested".
Definition bad_value : error := ErrorText "invalid value".

Definition set_value (f : Flag) (value : bytes) (c : C) : res C :=
  match f_Set f value c with Err _ => throw bad_value | r => r end.

(** [FlagSet.Parse]: the configuration, and the arguments that are left. *)
Fixpoint Parse (formal : list Flag) (args : list bytes) (c : C) : res (C * list bytes) :=
  match args with
  | [] => Ok (c, [])
  | s :: rest =>
      match shape_of s with
      | Positional => Ok (c, args)
      | Terminator => Ok (c, rest)
      | BadSyntax => throw (ErrorText "bad flag syntax")
      | Named name value =>
          match lookup formal name with
          | None =>
              if bool_decide (name = bytes_of_string "help") || bool_decide (name = bytes_of_string "h") then throw ErrHelp
              else throw (ErrorText "flag provided but not defined")
          | Some f =>
              if f_isBool f then
                c ← set_value f (default (bytes_of_string "true") value) c; Parse formal rest c
              else
                match value, rest with
                | Some value, _ => c ← set_value f value c; Parse formal rest c
                | None, value :: rest => c ← set_value f value c; Parse formal rest c
                | None, [] => throw (ErrorText "flag needs an argument")
                end
          end
      end
  end.

(** *** A flag as it is written: [--name=value] *)
Definition written (name : string) (value : bytes) : bytes :=
  bytes_of_string "--" ++ bytes_of_string name ++ x3d :: value.

Definition plain_name (name : bytes) : bool :=
  match name with
  | [] => false
  | c :: _ => negb (bool_decide (c = x2d)) && negb (existsb (fun c => bool_decide (c = x3d)) name)
  end.

Lemma split_value_eq name value :
  existsb (fun c => bool_decide (c = x3d)) name = false -> split_value (name ++ x3d :: value) = (name, Some value).
Proof using.
  induction name as [|c name IH]; [done|]. cbn [existsb app split_value].
  intros [Hc Hn]%orb_false_iff. rewrite Hc, IH by done. done.
Qed.

Lemma shape_written name value :
  plain_name (bytes_of_string name) = true -> shape_of (written name value) = Named (bytes_of_string name) (Some value).
Proof using.
  unfold written. destruct (bytes_of_string name) as [|c n]; [done|]. unfold plain_name. cbn [existsb].
  intros [Hd [He Hn]%negb_true_iff%orb_false_iff]%andb_true_iff. apply negb_true_iff in Hd.
  change (bytes_of_string "--" ++ (c :: n) ++ x3d :: value) with (x2d :: x2d :: c :: (n ++ x3d :: value)).
  cbn [shape_of]. by rewrite Hd, He, split_value_eq.
Qed.

Lemma Parse_written formal name value f rest c :
  plain_name (bytes_of_string name) = true -> lookup formal (bytes_of_string name) = Some f ->
  Parse formal (written name value :: rest) c = (c ← set_value f value c; Parse formal rest c).
Proof using.
  intros Hn Hf. cbn [Parse]. rewrite shape_written, Hf by done. by destruct (f_isBool f).
Qed.
End Flags.
End flag.
