(* ===== verification/Protocol.v ===== *)
(** * The crash harness: operations and their wire form (cmd/crash/protocol.go)

    What the controller sends to its worker: the operations of the workload, and
    the messages they become, with binary keys and values in base64.  The JSON
    around the messages is [encoding/json]'s.  A Go slice that may be nil is an
    option. *)
From S2P Require Import Prelude.
From S2P Require Import Errors.

Local Open Scope Z_scope.

(** The bytes of a slice, and [string(b)]. *)
Definition contents (b : option bytes) : bytes := default [] b.

(** ** encoding/base64 (StdEncoding) *)
Module base64.

Definition alphabet : bytes :=
  bytes_of_string "ABCDEFGHIJKLMNOPQRSTUVWXYZabcdefghijklmnopqrstuvwxyz0123456789+/".
Definition pad : byte := x3d.

Definition char (n : Z) : byte := nth (Z.to_nat n) alphabet x00.

Definition digit (b : byte) : option Z :=
  (fun p : nat * byte => Z.of_nat p.1) <$> list_find (fun c => c = b) alphabet.

Definition word (a b c : byte) : Z := byte_to_Z a * 65536 + byte_to_Z b * 256 + byte_to_Z c.

Fixpoint EncodeToString (src : bytes) : bytes :=
  match src with
  | [] => []
  | [a] => let v := word a x00 x00 in [char (v / 262144); char (v / 4096 mod 64); pad; pad]
  | [a; b] => let v := word a b x00 in [char (v / 262144); char (v / 4096 mod 64); char (v / 64 mod 64); pad]
  | a :: b :: c :: src =>
      let v := word a b c in
      char (v / 262144) :: char (v / 4096 mod 64) :: char (v / 64 mod 64) :: char (v mod 64) :: EncodeToString src
  end.

Definition CorruptInputError : error := ErrorText "illegal base64 data".

Definition byte_at (v shift : Z) : byte := Z_to_byte (v / shift).

(** Groups of four characters; the last may be padded.  The bits a padded group
    does not use are ignored. *)
Fixpoint decode_groups (src : bytes) : res bytes :=
  match src with
  | [] => Ok []
  | c0 :: c1 :: c2 :: c3 :: src =>
      match digit c0, digit c1 with
      | Some d0, Some d1 =>
          let v := d0 * 262144 + d1 * 4096 in
          match digit c2, digit c3 with
          | Some d2, Some d3 =>
              let v := v + d2 * 64 + d3 in
              rest ← decode_groups src;
              Ok (byte_at v 65536 :: byte_at v 256 :: byte_at v 1 :: rest)
          | Some d2, None =>
              if bool_decide (c3 = pad) && bool_decide (src = [])
              then Ok [byte_at v 65536; byte_at (v + d2 * 64) 256] else throw CorruptInputError
          | None, _ =>
              if bool_decide (c2 = pad) && bool_decide (c3 = pad) && bool_decide (src = [])
              then Ok [byte_at v 65536] else throw CorruptInputError
          end
      | _, _ => throw CorruptInputError
      end
  | _ => throw CorruptInputError
  end.

(** Line breaks are skipped. *)
Definition DecodeString (s : bytes) : res bytes :=
  decode_groups (filter (fun c => c <> x0a /\ c <> x0d) s).

(** *** What is encoded comes back *)
Lemma digit_char n : 0 <= n < 64 -> digit (char n) = Some n.
Proof.
  intros Hn. assert (forallb (fun k => bool_decide (digit (char (Z.of_nat k)) = Some (Z.of_nat k))) (seq 0 64) = true) as H
    by (vm_compute; reflexivity).
  rewrite forallb_forall in H. specialize (H (Z.to_nat n)). rewrite Z2Nat.id in H by lia.
  apply bool_decide_eq_true in H; [done|]. apply in_seq. lia.
Qed.

Lemma digit_pad : digit pad = None.
Proof. reflexivity. Qed.

Lemma char_no_break n : 0 <= n < 64 -> char n <> x0a /\ char n <> x0d.
Proof.
  intros Hn. split; intros E; pose proof (digit_char n Hn) as H; rewrite E in H; done.
Qed.

Lemma word_range a b c : 0 <= word a b c < 16777216.
Proof. unfold word. pose proof (byte_to_Z_range a). pose proof (byte_to_Z_range b). pose proof (byte_to_Z_range c). lia. Qed.

Lemma word_bytes a b c :
  byte_at (word a b c) 65536 = a /\ byte_at (word a b c) 256 = b /\ byte_at (word a b c) 1 = c.
Proof.
  pose proof (byte_to_Z_range a). pose proof (byte_to_Z_range b). pose proof (byte_to_Z_range c). unfold word.
  split_and!; apply byte_to_Z_inj; unfold byte_at; rewrite byte_to_Z_of_Z; Z.to_euclidean_division_equations; lia.
Qed.

Lemma word_digits v : 0 <= v < 16777216 ->
  v / 262144 * 262144 + v / 4096 mod 64 * 4096 + v / 64 mod 64 * 64 + v mod 64 = v /\
  0 <= v / 262144 < 64 /\ 0 <= v / 4096 mod 64 < 64 /\ 0 <= v / 64 mod 64 < 64 /\ 0 <= v mod 64 < 64.
Proof. intros H. Z.to_euclidean_division_equations. lia. Qed.

(** Induction three bytes at a time. *)
Lemma triples_ind (P : bytes -> Prop) :
  P [] -> (forall a, P [a]) -> (forall a b, P [a; b]) -> (forall a b c l, P l -> P (a :: b :: c :: l)) -> forall l, P l.
Proof.
  intros H0 H1 H2 H3. fix IH 1. intros [|a [|b [|c l]]]; [apply H0|apply H1|apply H2|apply H3, IH].
Qed.

Lemma encode_no_breaks src : filter (fun c => c <> x0a /\ c <> x0d) (EncodeToString src) = EncodeToString src.
Proof.
  induction src as [|a|a b|a b c src IH] using triples_ind; cbn [EncodeToString]; [done|..];
    [destruct (word_digits (word a x00 x00) (word_range a x00 x00)) as (_ & Q0 & Q1 & Q2 & Q3)
    |destruct (word_digits (word a b x00) (word_range a b x00)) as (_ & Q0 & Q1 & Q2 & Q3)
    |destruct (word_digits (word a b c) (word_range a b c)) as (_ & Q0 & Q1 & Q2 & Q3)];
    rewrite !filter_cons_True by (done || by apply char_no_break); congruence || done.
Qed.

(** The digits a padded group leaves out are zero. *)
Lemma word_short a b :
  word a x00 x00 / 64 mod 64 = 0 /\ word a x00 x00 mod 64 = 0 /\ word a b x00 mod 64 = 0.
Proof.
  unfold word. change (byte_to_Z x00) with 0. split_and!; Z.to_euclidean_division_equations; lia.
Qed.

(** The last digit does not reach the first byte. *)
Lemma drop_low d0 d1 d2 v :
  d0 * 262144 + d1 * 4096 + d2 * 64 = v /\ 0 <= d0 /\ 0 <= d1 < 64 /\ 0 <= d2 < 64 ->
  byte_at (d0 * 262144 + d1 * 4096) 65536 = byte_at v 65536.
Proof. intros (<- & ? & ? & ?). unfold byte_at. f_equal. Z.to_euclidean_division_equations. lia. Qed.

Lemma decode_groups_encode src : decode_groups (EncodeToString src) = Ok src.
Proof.
  induction src as [|a|a b|a b c src IH] using triples_ind; cbn [EncodeToString decode_groups]; [done|..].
  - destruct (word_digits (word a x00 x00) (word_range a x00 x00)) as (E & Q0 & Q1 & _ & _).
    destruct (word_bytes a x00 x00) as (Ba & _). destruct (word_short a x00) as (Z1 & Z2 & _).
    rewrite !digit_char, digit_pad, !bool_decide_true by done. cbn [andb].
    by replace (_ + _) with (word a x00 x00) by lia; rewrite Ba.
  - destruct (word_digits (word a b x00) (word_range a b x00)) as (E & Q0 & Q1 & Q2 & _).
    destruct (word_bytes a b x00) as (Ba & Bb & _). destruct (word_short a b) as (_ & _ & Z3).
    rewrite !digit_char, digit_pad, !bool_decide_true by done. cbn [andb].
    f_equal. f_equal; [|f_equal].
    + transitivity (byte_at (word a b x00) 65536); [|exact Ba]. apply (drop_low _ _ (word a b x00 / 64 mod 64)). lia.
    + by replace (_ + _) with (word a b x00) by lia; rewrite Bb.
  - destruct (word_digits (word a b c) (word_range a b c)) as (E & Q0 & Q1 & Q2 & Q3).
    destruct (word_bytes a b c) as (Ba & Bb & Bc). rewrite !digit_char by done. cbv zeta. rewrite E, IH.
    cbn [mbind result_bind]. by rewrite Ba, Bb, Bc.
Qed.

Lemma DecodeString_EncodeToString src : DecodeString (EncodeToString src) = Ok src.
Proof. unfold DecodeString. by rewrite encode_no_breaks, decode_groups_encode. Qed.

Lemma EncodeToString_nil src : EncodeToString src = [] <-> src = [].
Proof. split; [|by intros ->]. by destruct src as [|a [|b [|c src]]]. Qed.
End base64.

(** ** Operations *)
Definition opPut : string := "put".
Definition opDelete : string := "delete".
Definition opBatch : string := "batch".

Record batchItem := mkBatchItem { item_Kind : string; item_Key : option bytes; item_Value : option bytes }.

Record operation := mkOperation {
  op_ID : Z;
  op_Kind : string;
  op_Key : option bytes;
  op_Value : option bytes;
  op_Batch : list batchItem
}.

(** What the worker reports.  [Error] is the text of an error, here the error;
    nothing sets [Point]. *)
Definition eventReady : string := "ready".
Definition eventStart : string := "start".
Definition eventAck : string := "ack".
Definition eventFail : string := "fail".

Record eventMessage := mkEventMessage { ev_Kind : string; ev_OpID : Z; ev_Error : option error; ev_Point : string }.

(** Messages hold strings, here the bytes of their base64 text. *)
Record batchItemMessage := mkBatchItemMessage { im_Kind : string; im_KeyB64 : bytes; im_ValueB64 : bytes }.

Record operationMessage := mkOperationMessage {
  om_Kind : string;
  om_OpID : Z;
  om_KeyB64 : bytes;
  om_ValueB64 : bytes;
  om_Batch : list batchItemMessage
}.

#[export] Instance batchItem_eq_dec : EqDecision batchItem.
Proof. solve_decision. Defined.
#[export] Instance operation_eq_dec : EqDecision operation.
Proof. solve_decision. Defined.

Definition cloneBytes (src : option bytes) : option bytes := match src with None => None | Some b => Some b end.

Definition encodeB64 (data : option bytes) : bytes :=
  if (length (contents data) =? 0)%nat then [] else base64.EncodeToString (contents data).

Definition decodeB64 (value : bytes) : res (option bytes) :=
  if bool_decide (value = []) then Ok None else data ← base64.DecodeString value; Ok (Some data).

Definition item_message (item : batchItem) : batchItemMessage :=
  mkBatchItemMessage (item_Kind item) (encodeB64 (item_Key item)) (encodeB64 (item_Value item)).

Definition toMessage (op : operation) : operationMessage :=
  if bool_decide (op_Kind op = opPut) then
    mkOperationMessage (op_Kind op) (op_ID op) (encodeB64 (op_Key op)) (encodeB64 (op_Value op)) []
  else if bool_decide (op_Kind op = opDelete) then
    mkOperationMessage (op_Kind op) (op_ID op) (encodeB64 (op_Key op)) [] []
  else if bool_decide (op_Kind op = opBatch) then
    mkOperationMessage (op_Kind op) (op_ID op) [] [] (item_message <$> op_Batch op)
  else mkOperationMessage (op_Kind op) (op_ID op) [] [] [].

Fixpoint decode_items (msgs : list batchItemMessage) : res (list batchItem) :=
  match msgs with
  | [] => Ok []
  | item :: msgs =>
      key ← map_err (Errorf "decoding batch key") (decodeB64 (im_KeyB64 item));
      value ← map_err (Errorf "decoding batch value") (decodeB64 (im_ValueB64 item));
      items ← decode_items msgs;
      Ok (mkBatchItem (im_Kind item) key value :: items)
  end.

Definition toOperation (msg : operationMessage) : res operation :=
  if bool_decide (om_Kind msg = opPut) then
    key ← map_err (Errorf "decoding put key") (decodeB64 (om_KeyB64 msg));
    value ← map_err (Errorf "decoding put value") (decodeB64 (om_ValueB64 msg));
    Ok (mkOperation (om_OpID msg) (om_Kind msg) key value [])
  else if bool_decide (om_Kind msg = opDelete) then
    key ← map_err (Errorf "decoding delete key") (decodeB64 (om_KeyB64 msg));
    Ok (mkOperation (om_OpID msg) (om_Kind msg) key None [])
  else if bool_decide (om_Kind msg = opBatch) then
    items ← decode_items (om_Batch msg);
    Ok (mkOperation (om_OpID msg) (om_Kind msg) None None items)
  else throw (ErrorText "unsupported operation kind").

(** ** Round trip *)

(** The wire does not tell nil from empty. *)
Definition nil_if_empty (b : option bytes) : option bytes :=
  if (length (contents b) =? 0)%nat then None else b.

Definition item_received (item : batchItem) : batchItem :=
  mkBatchItem (item_Kind item) (nil_if_empty (item_Key item)) (nil_if_empty (item_Value item)).

(** Fields that do not belong to the kind are not sent. *)
Definition received (op : operation) : operation :=
  if bool_decide (op_Kind op = opPut) then
    mkOperation (op_ID op) (op_Kind op) (nil_if_empty (op_Key op)) (nil_if_empty (op_Value op)) []
  else if bool_decide (op_Kind op = opDelete) then
    mkOperation (op_ID op) (op_Kind op) (nil_if_empty (op_Key op)) None []
  else mkOperation (op_ID op) (op_Kind op) None None (item_received <$> op_Batch op).

Definition supported (op : operation) : Prop :=
  op_Kind op = opPut \/ op_Kind op = opDelete \/ op_Kind op = opBatch.

#[export] Instance supported_dec op : Decision (supported op).
Proof. unfold supported. apply _. Defined.

Lemma decodeB64_encodeB64 b : decodeB64 (encodeB64 b) = Ok (nil_if_empty b).
Proof.
  unfold encodeB64, nil_if_empty, decodeB64. destruct (Nat.eqb_spec (length (contents b)) 0) as [E|E]; [done|].
  rewrite bool_decide_false by (rewrite base64.EncodeToString_nil; intros E'; by rewrite E' in E).
  rewrite base64.DecodeString_EncodeToString. cbn. by destruct b.
Qed.

Lemma decode_items_messages items : decode_items (item_message <$> items) = Ok (item_received <$> items).
Proof.
  induction items as [|item items IH]; [done|]. cbn. rewrite !decodeB64_encodeB64. cbn. by rewrite IH.
Qed.

Lemma toOperation_toMessage op :
  toOperation (toMessage op) =
    if bool_decide (supported op) then Ok (received op) else throw (ErrorText "unsupported operation kind").
Proof.
  unfold toMessage, toOperation, received.
  destruct (decide (op_Kind op = opPut)) as [H1|H1].
  { rewrite (bool_decide_true (op_Kind op = opPut) H1). cbn [om_Kind om_KeyB64 om_ValueB64 om_OpID om_Batch].
    rewrite (bool_decide_true (op_Kind op = opPut) H1), (bool_decide_true (supported op)) by by left.
    by rewrite !decodeB64_encodeB64. }
  rewrite (bool_decide_false (op_Kind op = opPut) H1). destruct (decide (op_Kind op = opDelete)) as [H2|H2].
  { rewrite (bool_decide_true (op_Kind op = opDelete) H2). cbn [om_Kind om_KeyB64 om_ValueB64 om_OpID om_Batch].
    rewrite (bool_decide_false (op_Kind op = opPut) H1), (bool_decide_true (op_Kind op = opDelete) H2).
    rewrite (bool_decide_true (supported op)) by (right; by left). by rewrite !decodeB64_encodeB64. }
  rewrite (bool_decide_false (op_Kind op = opDelete) H2). destruct (decide (op_Kind op = opBatch)) as [H3|H3].
  - rewrite (bool_decide_true (op_Kind op = opBatch) H3). cbn [om_Kind om_KeyB64 om_ValueB64 om_OpID om_Batch].
    rewrite (bool_decide_false (op_Kind op = opPut) H1), (bool_decide_false (op_Kind op = opDelete) H2).
    rewrite (bool_decide_true (op_Kind op = opBatch) H3), (bool_decide_true (supported op)) by (right; by right).
    by rewrite decode_items_messages.
  - rewrite (bool_decide_false (op_Kind op = opBatch) H3). cbn [om_Kind].
    rewrite (bool_decide_false (op_Kind op = opPut) H1), (bool_decide_false (op_Kind op = opDelete) H2).
    rewrite (bool_decide_false (op_Kind op = opBatch) H3), (bool_decide_false (supported op)); [done|]. by intros [?|[?|?]].
Qed.

(** C35: the harness' wire format is faithful.  The worker receives what
    the controller sent -- keys and values byte for byte, nil and empty ones as
    nil -- for every operation of a kind it knows, and refuses all others. *)
Theorem operation_roundtrip op :
  toOperation (toMessage op) =
    if bool_decide (supported op) then Ok (received op) else throw (ErrorText "unsupported operation kind").
Proof. apply toOperation_toMessage. Qed.
