(* ===== verification/Oracle.v ===== *)
(** * The crash harness: the oracle (cmd/crash/oracle.go, worker.go)

    The expected state of the database after the operations the worker has
    acknowledged, the verifier that reopens the database and compares, and the call
    the worker makes for an operation. *)
From Stdlib Require Import QArith_base.
From S2P Require Import Prelude.
From S2P Require Import Errors.
From S2P Require Import Keys.
From S2P Require Import GoIO.
From S2P Require Import GoSort.
From S2P Require Import Record.
From S2P Require Import RecordIO.
From S2P Require Import Fs.
From S2P Require Wal.
From S2P Require Batch.
From S2P Require Import Memtable.
From S2P Require SstWriter.
From S2P Require SstReader.
From S2P Require Import Edit.
From S2P Require Import Version.
From S2P Require Import Current.
From S2P Require Import Manifest.
From S2P Require Replay.
From S2P Require Import FileNames.
From S2P Require Import Engine.
From S2P Require Import EngineRun.
From S2P Require Import Disk.
From S2P Require Import DiskRun.
From S2P Require Import Live.
From S2P Require Import Recovery.
From S2P Require Import Boot.

From S2P Require Import Reopen.

From S2P Require Import Opening.

From S2P Require Import History.
From S2P Require Import Protocol.

Local Open Scope Z_scope.

(** The values of a Go map, in the order [range] happens to visit them. *)
Class MapOrder := { map_values {A} : gmap bytes A -> list A }.

Class MapOrderLaws {order : MapOrder} : Prop := {
  map_values_perm {A} (m : gmap bytes A) : map_values m ≡ₚ (map_to_list m).*2
}.

(** ** State *)
Record oracleEntry := mkOracleEntry { oe_Key : option bytes; oe_Value : option bytes; oe_Deleted : bool }.

Record oracle := mkOracle { state : gmap bytes oracleEntry; touched : gmap bytes (option bytes) }.

Definition newOracle : oracle := mkOracle ∅ ∅.

Definition clone (o : oracle) : oracle :=
  mkOracle
    ((fun entry => mkOracleEntry (cloneBytes (oe_Key entry)) (cloneBytes (oe_Value entry)) (oe_Deleted entry)) <$> state o)
    (cloneBytes <$> touched o).

Definition applyPut (key value : option bytes) (o : oracle) : oracle :=
  let keyCopy := cloneBytes key in
  mkOracle (<[contents keyCopy := mkOracleEntry keyCopy (cloneBytes value) false]> (state o))
    (<[contents keyCopy := keyCopy]> (touched o)).

Definition applyDelete (key : option bytes) (o : oracle) : oracle :=
  let keyCopy := cloneBytes key in
  mkOracle (<[contents keyCopy := mkOracleEntry keyCopy None true]> (state o))
    (<[contents keyCopy := keyCopy]> (touched o)).

Definition apply_item (o : oracle) (item : batchItem) : oracle :=
  if bool_decide (item_Kind item = opPut) then applyPut (item_Key item) (item_Value item) o
  else applyDelete (item_Key item) o.

Definition apply (op : operation) (o : oracle) : oracle :=
  if bool_decide (op_Kind op = opPut) then applyPut (op_Key op) (op_Value op) o
  else if bool_decide (op_Kind op = opDelete) then applyDelete (op_Key op) o
  else if bool_decide (op_Kind op = opBatch) then foldl apply_item o (op_Batch op)
  else o.

Definition touch (o : oracle) (key : option bytes) : oracle :=
  mkOracle (state o) (<[contents key := cloneBytes key]> (touched o)).

Definition mergeTouchedFromOperation (op : operation) (o : oracle) : oracle :=
  if bool_decide (op_Kind op = opPut) || bool_decide (op_Kind op = opDelete) then
    match op_Key op with None => o | Some key => touch o (Some key) end
  else if bool_decide (op_Kind op = opBatch) then foldl (fun o item => touch o (item_Key item)) o (op_Batch op)
  else o.

(** ** Verification *)
Record verificationResult := mkVerificationResult { CheckedKeys : nat; Allowed : list Z }.

Record verificationFailure := mkVerificationFailure {
  vf_Cycle : Z;
  vf_OpID : Z;
  vf_KeyB64 : bytes;
  vf_ExpectedB64 : bytes;
  vf_ActualB64 : bytes;
  vf_Expected : string;
  vf_Actual : string;
  vf_Message : bytes
}.

(** What [Get] returned: [(got, gotErr)]. *)
Definition not_found (r : res bytes) : bool :=
  match r with Err e => errors_Is e engine.ErrKeyNotFound | _ => false end.

Fixpoint matchesAllowedState (key : option bytes) (got : res bytes) (allowed : list oracle) : bool :=
  match allowed with
  | [] => false
  | candidate :: allowed =>
      match state candidate !! contents key with
      | Some entry =>
          if oe_Deleted entry then not_found got || matchesAllowedState key got allowed
          else bool_decide (got = Ok (contents (oe_Value entry))) || matchesAllowedState key got allowed
      | None => not_found got || matchesAllowedState key got allowed
      end
  end.

Definition expectedStateDescription (key : option bytes) (model : oracle) : string * bytes :=
  match state model !! contents key with
  | Some entry => if oe_Deleted entry then ("missing"%string, []) else ("present"%string, encodeB64 (oe_Value entry))
  | None => ("missing"%string, [])
  end.

(** [fmt]'s [%x]. *)
Definition hex_digit (d : Z) : byte := Z_to_byte (if d <? 10 then 48 + d else 87 + d).

Definition hex (b : bytes) : bytes := b ≫= fun c => [hex_digit (byte_to_Z c / 16); hex_digit (byte_to_Z c mod 16)].

Definition mismatch_message (key : bytes) : bytes :=
  bytes_of_string "state for key " ++ hex key ++ bytes_of_string " did not match any allowed post-crash outcome".

(** The failure reported for a key. *)
Definition failure_at (key : option bytes) (got : res bytes) (base : oracle) (pending : option operation) : verificationFailure :=
  let '(expected, expectedB64) := expectedStateDescription key base in
  mkVerificationFailure 0 (match pending with Some op => op_ID op | None => 0 end) (encodeB64 key) expectedB64
    (match got with Ok v => encodeB64 (Some v) | _ => [] end) expected (if not_found got then "missing" else "present")
    (mismatch_message (contents key)).

(** The loop over the keys. *)
Fixpoint check_keys (get : bytes -> res bytes) (allowed : list oracle) (base : oracle) (pending : option operation)
    (keys : list (option bytes)) : res (option verificationFailure) :=
  match keys with
  | [] => Ok None
  | key :: keys =>
      let got := get (contents key) in
      match got with
      | Panic => Panic
      | Err err =>
          if negb (errors_Is err engine.ErrKeyNotFound) then throw (Errorf "verifying key" err)
          else if matchesAllowedState key got allowed then check_keys get allowed base pending keys
          else Ok (Some (failure_at key got base pending))
      | Ok _ =>
          if matchesAllowedState key got allowed then check_keys get allowed base pending keys
          else Ok (Some (failure_at key got base pending))
      end
  end.

Definition allowed_states (base : oracle) (pending : option operation) : list oracle :=
  match pending with None => [base] | Some op => [base; apply op (clone base)] end.

Definition checked_keys `{!MapOrder} (base : oracle) (pending : option operation) : list (option bytes) :=
  match pending with
  | None => map_values (touched base)
  | Some op => map_values (touched (mergeTouchedFromOperation op (clone base)))
  end.

Section Verify.
Context {Mem : Type} {memtable : Memtable Mem} {slices : Slices} {device : Device} {order : MapOrder}.
Context (rand : nat -> nat -> Q).

(** [db.Close()] of a database without a background flusher. *)
Definition close_db (db : DB Mem) : io unit :=
  '(db, n) ← Close db;
  match n with Park _ => discard (close_finish db) | Return _ => mret tt end.

Definition verifyDatabaseState (base : oracle) (pending : option operation)
  : io (res (verificationResult * option verificationFailure)) :=
  db ← Open (Mem := Mem) rand [] None;
  match db with
  | Panic => panic
  | Err err => mret (throw (Errorf "opening db for verification" err))
  | Ok (db, _) =>
      let keys := checked_keys base pending in
      let failure := check_keys (fun key => Get None key db) (allowed_states base pending) base pending keys in
      _ ← close_db db;
      match failure with
      | Panic => panic
      | Err err => mret (throw err)
      | Ok (Some failure) => mret (Ok (mkVerificationResult 0 [], Some failure))
      | Ok None =>
          mret (Ok (mkVerificationResult (length keys) (match pending with Some op => [op_ID op] | None => [] end), None))
      end
  end.
End Verify.

(** ** The worker

    [executeOperation]: the call it makes. *)
Definition item_op (b : Batch.Batch) (item : batchItem) : Batch.Batch :=
  if bool_decide (item_Kind item = opPut) then Batch.Put (contents (item_Key item)) (contents (item_Value item)) b
  else Batch.Delete (contents (item_Key item)) b.

Definition executeOperation (op : operation) : res client_call :=
  if bool_decide (op_Kind op = opPut) then
    Ok (CWrite None (Some (Batch.Put (contents (op_Key op)) (contents (op_Value op)) Batch.NewBatch)))
  else if bool_decide (op_Kind op = opDelete) then Ok (CWrite None (Some (Batch.Delete (contents (op_Key op)) Batch.NewBatch)))
  else if bool_decide (op_Kind op = opBatch) then Ok (CWrite None (Some (foldl item_op Batch.NewBatch (op_Batch op))))
  else throw (ErrorText "unsupported operation kind").

(** The writes of an operation. *)
Definition writes_of (op : operation) : list Batch.operation :=
  match executeOperation op with Ok (CWrite _ b) => Batch.snapshot b | _ => [] end.

(** ** The oracle is a map *)
Definition value_of (e : oracleEntry) : option bytes := if oe_Deleted e then None else Some (contents (oe_Value e)).

Definition oracle_map (o : oracle) : gmap bytes bytes := omap value_of (state o).

Definition oracle_of (ops : list operation) : oracle := foldl (fun o op => apply op o) newOracle ops.

Lemma cloneBytes_id b : cloneBytes b = b.
Proof. by destruct b. Qed.

Lemma clone_id o : clone o = o.
Proof.
  destruct o as [st tch]. unfold clone. cbn [state touched]. f_equal.
  - rewrite <-(map_fmap_id st) at 2. apply map_fmap_ext. intros k e _. rewrite !cloneBytes_id. by destruct e.
  - rewrite <-(map_fmap_id tch) at 2. apply map_fmap_ext. intros k b _. apply cloneBytes_id.
Qed.

Lemma oracle_map_put key value o : oracle_map (applyPut key value o) = <[contents key := contents value]> (oracle_map o).
Proof. unfold oracle_map, applyPut. cbn [state]. rewrite !cloneBytes_id. by rewrite (omap_insert_Some _ _ _ _ (contents value)). Qed.

Lemma oracle_map_delete key o : oracle_map (applyDelete key o) = delete (contents key) (oracle_map o).
Proof. unfold oracle_map, applyDelete. cbn [state]. rewrite !cloneBytes_id. by rewrite omap_insert_None. Qed.

Definition item_write (item : batchItem) : Batch.operation :=
  if bool_decide (item_Kind item = opPut)
  then Batch.mkOperation Batch.OpTypePut (contents (item_Key item)) (contents (item_Value item))
  else Batch.mkOperation Batch.OpTypeDelete (contents (item_Key item)) [].

Lemma oracle_map_item o item : oracle_map (apply_item o item) = apply_op (oracle_map o) (item_write item).
Proof.
  unfold apply_item, item_write. destruct (bool_decide _); [apply oracle_map_put|apply oracle_map_delete].
Qed.

Lemma oracle_map_items items o : oracle_map (foldl apply_item o items) = foldl apply_op (oracle_map o) (item_write <$> items).
Proof. revert o. induction items as [|item items IH]; intros o; [done|]. cbn. by rewrite IH, oracle_map_item. Qed.

Lemma item_ops_writes items b : Batch.ops (foldl item_op b items) = Batch.ops b ++ (item_write <$> items).
Proof.
  revert b. induction items as [|item items IH]; intros b; cbn [foldl fmap list_fmap]; [by rewrite app_nil_r|].
  rewrite IH. unfold item_op, item_write. destruct (bool_decide _); cbn; by rewrite <-app_assoc.
Qed.

Lemma cloneOperations_id ops : Batch.cloneOperations ops = ops.
Proof. unfold Batch.cloneOperations, Batch.cloneBytes. rewrite <-(list_fmap_id ops) at 2. apply list_fmap_ext. by intros i []. Qed.

Lemma writes_of_batch op : op_Kind op = opBatch -> writes_of op = item_write <$> op_Batch op.
Proof.
  intros E. unfold writes_of, executeOperation. rewrite E, !bool_decide_false by done.
  rewrite bool_decide_true by done. unfold Batch.snapshot. by rewrite cloneOperations_id, item_ops_writes.
Qed.

Lemma oracle_map_apply op o : supported op -> oracle_map (apply op o) = foldl apply_op (oracle_map o) (writes_of op).
Proof.
  intros [E|[E|E]]; [| |rewrite writes_of_batch by done]; unfold apply, writes_of, executeOperation; rewrite E; cbn.
  - apply oracle_map_put.
  - apply oracle_map_delete.
  - apply oracle_map_items.
Qed.

Lemma oracle_of_map ops : Forall supported ops -> oracle_map (oracle_of ops) = batches_map (writes_of <$> ops).
Proof.
  intros Hs. unfold oracle_of, batches_map. rewrite <-(omap_empty value_of). change (omap value_of ∅) with (oracle_map newOracle).
  generalize newOracle as o. induction Hs as [|op ops Hop _ IH]; intros o; [done|]. cbn [foldl fmap list_fmap].
  rewrite IH, oracle_map_apply by done. change (mjoin (writes_of op :: ?l)) with (writes_of op ++ mjoin l). by rewrite foldl_app.
Qed.

(** ** The verdict *)
Lemma not_found_result v : not_found (get_result v) = bool_decide (v = None).
Proof. by destruct v. Qed.

Lemma matches_exact key v allowed :
  matchesAllowedState key (get_result v) allowed = true <-> exists o, o ∈ allowed /\ oracle_map o !! contents key = v.
Proof.
  induction allowed as [|o allowed IH]; cbn [matchesAllowedState]; [split; [done|]; by intros (o & ?%not_elem_of_nil & _)|].
  rewrite not_found_result. assert (oracle_map o !! contents key = (state o !! contents key ≫= value_of)) as Eo by apply lookup_omap.
  transitivity (oracle_map o !! contents key = v \/ exists o, o ∈ allowed /\ oracle_map o !! contents key = v).
  - rewrite <-IH, Eo. destruct (state o !! contents key) as [e|]; cbn [mbind option_bind].
    + unfold value_of. destruct (oe_Deleted e); rewrite orb_true_iff, bool_decide_eq_true.
      * split; intros [?|?]; auto.
      * destruct v as [v|]; cbn [get_result]; split; intros [H|?]; auto; left; congruence.
    + rewrite orb_true_iff, bool_decide_eq_true. split; intros [?|?]; auto.
  - split.
    + intros [H|(o' & Hin & H)]; [exists o; split; [by left|done]|exists o'; split; [by right|done]].
    + intros (o' & Hin & H). apply elem_of_cons in Hin as [->|Hin]; [by left|right; by exists o'].
Qed.

(** A key reads as one of the allowed states says. *)
Definition agrees (m : gmap bytes bytes) (allowed : list oracle) (key : option bytes) : Prop :=
  exists o, o ∈ allowed /\ oracle_map o !! contents key = m !! contents key.

Lemma check_keys_exact get m allowed base pending keys :
  (forall key, get key = get_result (m !! key)) ->
  exists failure, check_keys get allowed base pending keys = Ok failure /\ (failure = None <-> Forall (agrees m allowed) keys).
Proof.
  intros Hget. induction keys as [|key keys (failure & E & IH)]; cbn [check_keys]; [by exists None|].
  rewrite Hget. assert (matchesAllowedState key (get_result (m !! contents key)) allowed = true <-> agrees m allowed key) as Hm by apply matches_exact.
  assert (exists failure, (if matchesAllowedState key (get_result (m !! contents key)) allowed
      then check_keys get allowed base pending keys
      else Ok (Some (failure_at key (get_result (m !! contents key)) base pending))) = Ok failure /\
    (failure = None <-> Forall (agrees m allowed) (key :: keys))) as Hgoal.
  { destruct (matchesAllowedState _ _ _).
    - exists failure. split; [done|]. rewrite Forall_cons, IH. intuition.
    - eexists. split; [done|]. rewrite Forall_cons. split; [done|]. intros [Ha _]. by apply Hm in Ha. }
  destruct (m !! contents key) as [v|]; cbn [get_result] in *; [done|].
  by replace (errors_Is engine.ErrKeyNotFound engine.ErrKeyNotFound) with true by reflexivity.
Qed.

(** ** Retries

    After a crash the controller sends the operation in flight again; batches are
    idempotent, so it makes no difference how often one was carried out. *)
#[local] Existing Instance Batch.operation_eq_dec.

Definition add_run (b : batch) (l : list batch) : list batch :=
  match l with c :: _ => if decide (b = c) then l else b :: l | [] => [b] end.

Definition squash (l : list batch) : list batch := foldr add_run [] l.

Lemma squash_cons b l :
  (exists l', squash l = b :: l' /\ squash (b :: l) = squash l) \/ (head (squash l) <> Some b /\ squash (b :: l) = b :: squash l).
Proof.
  change (squash (b :: l)) with (add_run b (squash l)). destruct (squash l) as [|c l']; [by right|]. cbn.
  destruct (decide (b = c)) as [->|Hne]; [left; by eexists|right]. split; [|done]. congruence.
Qed.

Lemma squash_sublist l l' : l `sublist_of` l' -> squash l `sublist_of` squash l'.
Proof.
  induction 1 as [|b l l' H IH|b l l' H IH]; [done|..].
  - destruct (squash_cons b l) as [(k & E & ->)|[Hh ->]], (squash_cons b l') as [(k' & E' & ->)|[Hh' ->]]; [done|by apply sublist_cons|..].
    + rewrite E' in IH |- *. apply sublist_cons_r in IH as [IH|(k & E & IH)]; [by apply sublist_skip|]. by rewrite E in Hh.
    + by apply sublist_skip.
  - destruct (squash_cons b l') as [(k' & _ & ->)|[_ ->]]; [done|by apply sublist_cons].
Qed.

(** Applying a batch twice in a row. *)
Lemma apply_op_twice ops m : foldl apply_op (foldl apply_op m ops) ops = foldl apply_op m ops.
Proof.
  apply map_eq. intros k. destruct (decide (k ∈ Batch.op_key <$> ops)) as [Hk|Hk].
  - destruct (foldl_apply_op_lookup ops (foldl apply_op m ops) k) as [-> _]; [|done].
    by destruct (foldl_apply_op_lookup ops m k) as [-> _].
  - by destruct (foldl_apply_op_lookup ops (foldl apply_op m ops) k) as [_ ->].
Qed.

Lemma batches_map_squash l : batches_map (squash l) = batches_map l.
Proof.
  unfold batches_map. generalize (∅ : gmap bytes bytes) as m.
  induction l as [|b l IH]; intros m; [done|]. change (mjoin (b :: l)) with (b ++ mjoin l). rewrite foldl_app, <-IH.
  destruct (squash_cons b l) as [(l' & E & ->)|[_ ->]].
  - rewrite E. change (mjoin (b :: l')) with (b ++ mjoin l'). by rewrite !foldl_app, apply_op_twice.
  - change (mjoin (b :: squash l)) with (b ++ mjoin (squash l)). by rewrite foldl_app.
Qed.

Lemma squash_snoc l b : squash (l ++ [b]) = squash l \/ squash (l ++ [b]) = squash l ++ [b].
Proof.
  induction l as [|a l IH]; cbn [app]; [by right|].
  destruct (squash_cons a l) as [(l' & E & ->)|[Hh ->]], (squash_cons a (l ++ [b])) as [(k & E' & ->)|[Hh' ->]]; [done|..].
  - destruct IH as [IH|IH]; rewrite IH, E in Hh'; done.
  - destruct IH as [IH|IH]; rewrite IH in E' |- *; [by rewrite E' in Hh|].
    destruct (squash l) as [|c l0]; [|by injection E' as -> _].
    cbn in E'. injection E' as -> <-. by left.
  - destruct IH as [->| ->]; auto.
Qed.

Lemma add_run_twice b l : add_run b (add_run b l) = add_run b l.
Proof. destruct l as [|c l]; cbn; [by rewrite decide_True|]. destruct (decide (b = c)) as [->|]; cbn; by rewrite decide_True. Qed.

Lemma squash_app l k : squash (l ++ k) = squash (squash l ++ k).
Proof.
  induction l as [|a l IH]; [done|]. change (squash ((a :: l) ++ k)) with (add_run a (squash (l ++ k))). rewrite IH.
  destruct (squash_cons a l) as [(l' & E & ->)|[_ ->]]; [|done]. rewrite E.
  change (squash ((a :: l') ++ k)) with (add_run a (squash (l' ++ k))). apply add_run_twice.
Qed.

Lemma squash_twice l b : squash ((l ++ [b]) ++ [b]) = squash (l ++ [b]).
Proof.
  induction l as [|a l IH]; cbn [app]; [cbn; by rewrite decide_True|].
  change (squash (a :: ?x)) with (add_run a (squash x)). by rewrite IH.
Qed.

Lemma squash_more l l' b : squash l = squash l' -> squash (l ++ [b]) = squash (l' ++ [b]).
Proof. intros E. by rewrite squash_app, E, <-squash_app. Qed.

(** The runs of the harness without injected faults: the operations acknowledged,
    those started, and the one in flight. *)
Inductive harness : list operation -> list operation -> option operation -> Prop :=
  | harness_begin : harness [] [] None
  | harness_start acked started op :
      supported op -> writes_of op <> [] ->
      harness acked started None -> harness acked (started ++ [op]) (Some op)
  | harness_retry acked started op :
      harness acked started (Some op) -> harness acked (started ++ [op]) (Some op)
  | harness_ack acked started op :
      harness acked started (Some op) -> harness (acked ++ [op]) started None.

Definition in_flight (pending : option operation) : list operation := match pending with Some op => [op] | None => [] end.

Lemma harness_supported acked started pending :
  harness acked started pending -> Forall supported acked /\ Forall supported (in_flight pending).
Proof.
  induction 1 as [|acked started op Hs _ _ [IH _]|acked started op _ IH|acked started op _ [IH1 IH2]]; [by split|split; [done|by apply Forall_singleton]|done|].
  split; [by apply Forall_app|constructor].
Qed.

Lemma harness_squash acked started pending :
  harness acked started pending ->
  squash (writes_of <$> started) = squash (writes_of <$> (acked ++ in_flight pending)).
Proof.
  induction 1 as [|acked started op _ _ _ IH|acked started op H IH|acked started op _ IH]; cbn [in_flight] in *; rewrite ?app_nil_r in *; [done|..].
  - rewrite !fmap_app. cbn. by apply squash_more.
  - rewrite !fmap_app in *. cbn in *. rewrite (squash_more _ _ _ IH). apply squash_twice.
  - done.
Qed.

Lemma sublist_full {A} (l k : list A) : l `sublist_of` k -> (length k <= length l)%nat -> l = k.
Proof.
  induction 1 as [|x l k H IH|x l k H IH]; cbn; intros Hl; [done|f_equal; apply IH; lia|]. apply sublist_length in H. lia.
Qed.

Lemma sublist_between {A} (l k : list A) x : l `sublist_of` k -> k `sublist_of` l ++ [x] -> k = l \/ k = l ++ [x].
Proof.
  intros H1 H2. pose proof (sublist_length _ _ H1) as L1. pose proof (sublist_length _ _ H2) as L2.
  rewrite length_app in L2. cbn in L2. destruct (decide (length k = length l)) as [E|E].
  - left. symmetry. apply sublist_full; [done|lia].
  - right. apply sublist_full; [done|]. rewrite length_app. cbn. lia.
Qed.

(** What may be read is what the oracle expects, with or without the operation in
    flight. *)
Lemma harness_reads acked started pending eff :
  harness acked started pending ->
  (writes_of <$> acked) `sublist_of` eff -> eff `sublist_of` (writes_of <$> started) ->
  exists o, o ∈ allowed_states (oracle_of acked) pending /\ oracle_map o = batches_map eff.
Proof.
  intros H H1 H2. destruct (harness_supported _ _ _ H) as [Ha Hp].
  apply squash_sublist in H1, H2. rewrite (harness_squash _ _ _ H) in H2.
  assert (squash eff = squash (writes_of <$> acked) \/ squash eff = squash (writes_of <$> (acked ++ in_flight pending))) as Hc.
  { destruct pending as [op|]; cbn [in_flight] in *; [|rewrite app_nil_r in *; left; by apply (anti_symm sublist)].
    rewrite fmap_app in *. cbn in *. destruct (squash_snoc (writes_of <$> acked) (writes_of op)) as [E|E]; rewrite E in H2 |- *;
      [left; by apply (anti_symm sublist)|]. by eapply sublist_between. }
  rewrite <-(batches_map_squash eff). destruct Hc as [->| ->]; rewrite batches_map_squash.
  - exists (oracle_of acked). split; [destruct pending; by left|]. by apply oracle_of_map.
  - destruct pending as [op|]; cbn [in_flight] in *; [|rewrite app_nil_r; exists (oracle_of acked); split; [by left|by apply oracle_of_map]].
    exists (apply op (clone (oracle_of acked))). split; [right; by left|]. rewrite clone_id.
    rewrite <-oracle_of_map by (by apply Forall_app). unfold oracle_of. by rewrite foldl_app.
Qed.

(** ** The verifier on a recovered database *)
Section Verdict.
Context {Mem : Type} {memtable : Memtable Mem} {memtable_laws : MemtableLaws Mem}.
Context {slices : Slices} {slices_laws : SlicesLaws} {device : Device} {good_device : GoodDevice} {streams : Streams}.
Context {order : MapOrder} (rand : nat -> nat -> Q).

(** Closing never panics. *)
Definition files_there (iw im : nat) (s : Fs) : Prop := is_Some (inodes s !! iw) /\ is_Some (inodes s !! im).

Lemma files_there_blind iw im : fault_blind (files_there iw im).
Proof using. by intros fl s [? ?]. Qed.

Lemma files_there_set iw im i f s : files_there iw im s -> files_there iw im (set_inode i f s).
Proof using.
  intros [H1 H2]. split; cbn; rewrite lookup_insert_is_Some; destruct (decide (i = iw)), (decide (i = im)); auto.
Qed.

Lemma triple_close_total iw im ww name (db : DB Mem) :
  wal db = Some ww -> wal_file db = iw -> manifest db = Some (mkWriter (Some im) name) -> closed db = false ->
  triple Faulty (files_there iw im) (close_db db) (fun _ _ => True) (fun _ => True).
Proof using.
  intros Ew Ewf Em Ec. assert (forall {A} i (g : File -> A * File), i = iw \/ i = im ->
    triple Faulty (files_there iw im) (on_file i g) (fun _ => files_there iw im) (fun _ => True)) as Hfile.
  { intros A i g Hi. apply triple_on_file. intros s Hs.
    assert (is_Some (inodes s !! i)) as [f Hf] by (destruct Hs; by destruct Hi as [->| ->]).
    exists f. split; [done|]. intros _. destruct (g f). split; [by apply files_there_set|done]. }
  assert (forall rs e, triple Faulty (files_there iw im) (close_readers rs e) (fun _ => files_there iw im) (fun _ => True)) as Hrs.
  { induction rs as [|r rs IH]; intros e; [by apply triple_ret|]. cbn [close_readers].
    eapply (triple_bind _ _ _ _ (fun _ => files_there iw im)); [|intros ce; by destruct (SstReader.CloseReader ce (Some r))].
    destruct (SstReader.file r); [|by apply triple_ret]. unfold close_table.
    eapply (triple_bind _ _ _ _ (fun _ => files_there iw im)); [|intros x; by apply triple_ret].
    apply triple_syscall; [apply files_there_blind|done|done]. }
  unfold close_db, Close. rewrite Ec.
  eapply (triple_bind _ _ _ _ (fun r s => r = (set_closed db, Park (TCloseWait (flushDoneCh db))) /\ files_there iw im s));
    [by apply triple_ret|]. intros r. apply triple_pure. intros ->.
  unfold discard, close_finish, close_wal. cbn [ssts wal wal_file manifest set_closed]. rewrite Ew, Ewf, Em.
  eapply (triple_bind _ _ _ _ (fun _ => files_there iw im)); [|intros u; by apply triple_ret].
  eapply triple_bind; [apply Hrs|]. intros e1. eapply triple_bind; [apply Hfile; by left|]. intros e2. cbv zeta.
  eapply (triple_bind _ _ _ _ (fun _ => files_there iw im)); [|intros e3; by apply triple_ret].
  eapply (triple_bind _ _ _ _ (fun _ => files_there iw im)); [|intros [e ?]; by apply triple_ret].
  unfold Manifest.Close. cbn [m_file]. eapply triple_bind; [apply Hfile; by right|]. intros e3.
  eapply triple_bind; [apply Hfile; by right|]. intros e4. by apply triple_ret.
Qed.

Lemma up_close acked issued n (db : DB Mem) ts w :
  up acked issued n db ts (w_fs w) -> closed db = false -> exists w', close_db db w = Some (tt, w').
Proof using.
  intros [[G Hl]|[G Hd]] Hc; [|by rewrite (de_closed _ _ _ _ _ _ _ Hd) in Hc].
  destruct (lv_log _ _ _ _ _ _ _ Hl) as (ww & Ew & Ewf & _). pose proof (lv_disk _ _ _ _ _ _ _ Hl) as Hd.
  destruct (named_pin _ _ _ _ _ (ru_man _ _ _ _ _ _ _ _ _ _ _ _ Hd) (in_man _ _ _ _ _ _ _ _ _ (ru_in _ _ _ _ _ _ _ _ _ _ _ _ Hd)))
    as (f & Hf & _).
  pose proof (triple_close_total (giw G) (gim G) ww _ db Ew Ewf (st_manifest _ _ _ _ _ (lv_stored _ _ _ _ _ _ _ Hl)) Hc w) as H.
  destruct (close_db db w) as [[[] w']|]; [by eexists|]. discriminate H; [done|..].
  - split; [eexists; apply (ru_log _ _ _ _ _ _ _ _ _ _ _ _ Hd)|by eexists].
  - by apply Forall_forall.
Qed.

(** The verdict is exact: there is a state the database may be in after the
    history, and no failure is reported if and only if every key looked at reads in
    it as in one of the allowed states. *)
Lemma verdict faults nf s acked issued n base pending :
  rtc hstep (blank faults nf) (mkState (Down s : phase (Mem := Mem)) acked issued n) ->
  (n + 1) * batches_bytes issued < 2 ^ 31 -> n + 1 < 2 ^ 63 -> calm s -> acked <> [] \/ current_found s ->
  exists eff r w, acked `sublist_of` eff /\ eff `sublist_of` issued /\
    verifyDatabaseState (Mem := Mem) rand base pending (world s) = Some (Ok r, w) /\
    (r.2 = None <-> Forall (agrees (batches_map eff) (allowed_states base pending)) (checked_keys base pending)) /\
    (r.2 = None -> r.1 = mkVerificationResult (length (checked_keys base pending))
       (match pending with Some op => [op_ID op] | None => [] end)).
Proof using memtable_laws slices_laws good_device streams.
  intros H H1 H2 Hcalm Hcf.
  destruct (recovered faults nf rand [] s acked issued n H H1 H2 Hcalm Hcf) as (db & ts & w & E & Hc & Hup); [done..|].
  destruct (up_Get _ _ _ _ _ _ Hup Hc) as (eff & Ha & Hi & Hg).
  destruct (check_keys_exact (fun key => Get None key db) (batches_map eff) (allowed_states base pending) base pending
    (checked_keys base pending) Hg) as (failure & Ef & Hf).
  destruct (up_close _ _ _ _ _ _ Hup Hc) as [w' Ec]. exists eff.
  exists (match failure with Some f => (mkVerificationResult 0 [], Some f)
    | None => (mkVerificationResult (length (checked_keys base pending)) (match pending with Some op => [op_ID op] | None => [] end), None) end), w'.
  split; [done|]. split; [done|]. split.
  - unfold verifyDatabaseState, mbind, io_bind. rewrite E, Ef, Ec. by destruct failure.
  - rewrite <-Hf. by destruct failure.
Qed.

(** The harness raises no false alarm: after any of these runs every key looked at
    is in one of the allowed states. *)
Lemma harness_no_false_alarm faults nf s acked started pending db_acked db_issued n :
  harness acked started pending ->
  (writes_of <$> acked) `sublist_of` db_acked -> db_issued `sublist_of` (writes_of <$> started) ->
  rtc hstep (blank faults nf) (mkState (Down s : phase (Mem := Mem)) db_acked db_issued n) ->
  (n + 1) * batches_bytes db_issued < 2 ^ 31 -> n + 1 < 2 ^ 63 -> calm s -> db_acked <> [] \/ current_found s ->
  exists w, verifyDatabaseState (Mem := Mem) rand (oracle_of acked) pending (world s) =
    Some (Ok (mkVerificationResult (length (checked_keys (oracle_of acked) pending)) (op_ID <$> in_flight pending), None), w).
Proof using memtable_laws slices_laws good_device streams.
  intros Hh Hsa Hsi H H1 H2 Hcalm Hcf.
  destruct (verdict faults nf s _ _ n (oracle_of acked) pending H H1 H2 Hcalm Hcf)
    as (eff & [res failure] & w & Ha & Hi & E & Hv & Hres).
  destruct (harness_reads acked started pending eff Hh) as (o & Ho & Eo); [by etrans|by etrans|].
  assert (failure = None) as ->.
  { apply Hv, Forall_forall. intros key _. exists o. by rewrite Eo. }
  exists w. rewrite E. specialize (Hres eq_refl). cbn in Hres. rewrite Hres. by destruct pending.
Qed.
End Verdict.

(** The verifier accepts half a batch.  It compares key by key with
    the states before and after the operation in flight, so a state in which one key
    of a batch is new and the other old passes, although it is neither. *)
Theorem verifier_accepts_torn_batch :
  exists (op : operation) (m : gmap bytes bytes), supported op /\
    m <> oracle_map newOracle /\ m <> oracle_map (apply op (clone newOracle)) /\
    forall (order : MapOrder) get, (forall key, get key = get_result (m !! key)) ->
      check_keys get (allowed_states newOracle (Some op)) newOracle (Some op) (checked_keys newOracle (Some op)) = Ok None.
Proof.
  set (op := mkOperation 0 opBatch None None
    [mkBatchItem opPut (Some [x61]) (Some [x01]); mkBatchItem opPut (Some [x62]) (Some [x02])]).
  set (m := {[ [x61] := [x01] ]} : gmap bytes bytes).
  exists op, m. split; [by right; right|]. split; [discriminate|]. split; [discriminate|]. intros order get Hget.
  destruct (check_keys_exact get m (allowed_states newOracle (Some op)) newOracle (Some op) (checked_keys newOracle (Some op)) Hget)
    as (failure & -> & Hf). f_equal. apply Hf, Forall_forall. intros key _. unfold m.
  destruct (decide (contents key = [x61])) as [E|Hne].
  - exists (apply op (clone newOracle)). split; [by right; left|]. rewrite E. by vm_compute.
  - exists newOracle. split; [by left|]. by rewrite lookup_singleton_ne.
Qed.
