(* ===== verification/Config.v ===== *)
(** * The crash harness: configuration (cmd/crash/config.go)

    Profiles and the checks a run configuration goes through before a workload is
    generated from it.  What the calls to the operating system return is given. *)
From S2P Require Import Prelude.
From S2P Require Import Errors.
From S2P Require Import Crashhook.
From S2P Require Import Fs.

Local Open Scope Z_scope.

Definition profileCI : string := "ci".
Definition profileFull : string := "full".

Record runConfig := mkRunConfig {
  DBDir : bytes;
  ArtifactDir : bytes;
  Cycles : Z;
  MinDelayMS : Z;
  MaxDelayMS : Z;
  Seed : Z;
  Ops : Z;
  PutRatio : Z;
  DeleteRatio : Z;
  BatchRatio : Z;
  MaxKeyLen : Z;
  MaxValueLen : Z;
  HotKeyRatio : Z;
  KeepDBOnFail : bool;
  VerifyEveryCycle : bool;
  Profile : string;
  CrashPoint : string;
  FaultPoint : string
}.

Definition defaultRunConfig : runConfig :=
  mkRunConfig [] [] 50 10 100 424242 100 60 20 20 32 128 30 false true profileFull "" "".

Definition applyProfileDefaults (cfg : runConfig) : res runConfig :=
  if bool_decide (Profile cfg = profileFull) then Ok cfg
  else if bool_decide (Profile cfg = profileCI) then
    Ok (mkRunConfig (DBDir cfg) (ArtifactDir cfg) 6 8 20 777 24 60 20 20 16 64 35 (KeepDBOnFail cfg) true
          (Profile cfg) (CrashPoint cfg) (FaultPoint cfg))
  else throw (ErrorText "unsupported profile").

Definition out_of_percent (v : Z) : bool := (v <? 0) || (100 <? v).

Definition validateRatios (putRatio deleteRatio batchRatio : Z) : option error :=
  if out_of_percent putRatio || out_of_percent deleteRatio || out_of_percent batchRatio
  then Some (ErrorText "must be between 0 and 100")
  else if negb (putRatio + deleteRatio + batchRatio =? 100)
  then Some (ErrorText "operation ratios must sum to 100")
  else None.

Definition validateCore (cfg : runConfig) : option error :=
  if bool_decide (DBDir cfg = []) then Some (ErrorText "--dbdir is required")
  else if bool_decide (ArtifactDir cfg = []) then Some (ErrorText "--artifact-dir is required")
  else if Cycles cfg <=? 0 then Some (ErrorText "--cycles must be > 0")
  else if Ops cfg <=? 0 then Some (ErrorText "--ops must be > 0")
  else if MinDelayMS cfg <? 0 then Some (ErrorText "--min-delay-ms must be >= 0")
  else if MaxDelayMS cfg <=? 0 then Some (ErrorText "--max-delay-ms must be > 0")
  else if MaxDelayMS cfg <? MinDelayMS cfg then Some (ErrorText "--max-delay-ms must be >= --min-delay-ms")
  else if MaxKeyLen cfg <=? 0 then Some (ErrorText "--max-key-len must be > 0")
  else if MaxValueLen cfg <? 0 then Some (ErrorText "--max-value-len must be >= 0")
  else match validateRatios (PutRatio cfg) (DeleteRatio cfg) (BatchRatio cfg) with
  | Some err => Some err
  | None =>
      if out_of_percent (HotKeyRatio cfg) then Some (ErrorText "--hot-key-ratio must be between 0 and 100") else None
  end.

Definition validateHooks (cfg : runConfig) : option error :=
  if negb (bool_decide (CrashPoint cfg = EmptyString)) && negb (bool_decide (FaultPoint cfg = EmptyString))
  then Some (ErrorText "--crash-point and --fault-point are mutually exclusive")
  else if negb (IsCrashPoint (CrashPoint cfg)) then Some (ErrorText "unsupported --crash-point")
  else if negb (IsFaultPoint (FaultPoint cfg)) then Some (ErrorText "unsupported --fault-point")
  else None.

(** [entries] is what [os.ReadDir] returns, [mkdir] what [os.MkdirAll] does. *)
Definition ensureDBDirEmpty (entries : error + list bytes) (mkdir : option error) : option error :=
  match entries with
  | inl err =>
      if errors_Is err os_ErrNotExist then Errorf "creating db dir" <$> mkdir
      else Some (Errorf "reading db dir" err)
  | inr entries => if negb (length entries =? 0)%nat then Some (ErrorText "--dbdir must be empty") else None
  end.

Definition preparePaths (entries : error + list bytes) (mkdir mkdirArtifact : option error) : option error :=
  match ensureDBDirEmpty entries mkdir with
  | Some err => Some err
  | None => Errorf "creating artifact dir" <$> mkdirArtifact
  end.

(** [validate]; [prepared] is the outcome of [preparePaths]. *)
Definition validate (prepared : option error) (cfg : runConfig) : res runConfig :=
  cfg ← applyProfileDefaults cfg;
  match validateCore cfg with
  | Some err => throw err
  | None =>
      match validateHooks cfg with
      | Some err => throw err
      | None => match prepared with Some err => throw err | None => Ok cfg end
      end
  end.

Record replayConfig := mkReplayConfig { rc_ArtifactPath : bytes; rc_DBDir : bytes }.
Record workerConfig := mkWorkerConfig { wc_DBDir : bytes }.

Definition validateReplay (ready : option error) (cfg : replayConfig) : option error :=
  if bool_decide (rc_ArtifactPath cfg = []) then Some (ErrorText "--artifact is required")
  else if bool_decide (rc_DBDir cfg = []) then Some (ErrorText "--dbdir is required")
  else ready.

Definition validateWorker (cfg : workerConfig) : option error :=
  if bool_decide (wc_DBDir cfg = []) then Some (ErrorText "--dbdir is required") else None.

(** What a configuration that passed satisfies. *)
Record valid_config (cfg : runConfig) : Prop := {
  vc_cycles : 0 < Cycles cfg;
  vc_ops : 0 < Ops cfg;
  vc_delays : 0 <= MinDelayMS cfg <= MaxDelayMS cfg /\ 0 < MaxDelayMS cfg;
  vc_key : 0 < MaxKeyLen cfg;
  vc_value : 0 <= MaxValueLen cfg;
  vc_put : 0 <= PutRatio cfg;
  vc_delete : 0 <= DeleteRatio cfg;
  vc_batch : 0 <= BatchRatio cfg;
  vc_sum : PutRatio cfg + DeleteRatio cfg + BatchRatio cfg = 100;
  vc_hot : 0 <= HotKeyRatio cfg <= 100
}.

Lemma validateCore_ok cfg : validateCore cfg = None -> valid_config cfg.
Proof.
  unfold validateCore. intros H.
  repeat match type of H with (if ?b then Some _ else _) = None => destruct b eqn:?; [discriminate H|] end.
  unfold validateRatios in H. destruct (_ || _) eqn:Hr; [discriminate|]. destruct (negb _) eqn:Hs; [discriminate|].
  destruct (out_of_percent (HotKeyRatio cfg)) eqn:Hh; [discriminate|].
  rewrite !orb_false_iff in Hr. unfold out_of_percent in *. rewrite ?orb_false_iff in *. rewrite negb_false_iff in Hs.
  split; lia.
Qed.
