(* ===== verification/Artifact.v ===== *)
(** * The crash harness: artifacts (cmd/crash/artifact.go, replayCommand)

    The record a run leaves behind, and the configuration and operations a replay
    takes from it, and the file it is saved in.  Its JSON is [encoding/json]'s, and an
    argument here. *)
From S2P Require Import Prelude.
From S2P Require Import Errors.
From S2P Require Import GoIO.
From S2P Require Import Fs.
From S2P Require Import Protocol.
From S2P Require Import Oracle.
From S2P Require Import Config.

Local Open Scope Z_scope.

Definition artifactVersion : Z := 1.

Record artifactConfig := mkArtifactConfig {
  ac_DBDir : bytes;
  ac_Cycles : Z;
  ac_MinDelayMS : Z;
  ac_MaxDelayMS : Z;
  ac_Ops : Z;
  ac_PutRatio : Z;
  ac_DeleteRatio : Z;
  ac_BatchRatio : Z;
  ac_MaxKeyLen : Z;
  ac_MaxValueLen : Z;
  ac_HotKeyRatio : Z;
  ac_VerifyEveryCycle : bool;
  ac_Profile : string;
  ac_CrashPoint : string;
  ac_FaultPoint : string
}.

Record artifactVerification := mkArtifactVerification { av_CheckedKeys : nat; av_Allowed : list Z }.

Record artifactEventRef := mkArtifactEventRef { er_Kind : string; er_OpID : Z }.

Record artifactCycle := mkArtifactCycle {
  cy_Index : Z;
  cy_WorkerPID : Z;
  cy_PlannedKillDelayMS : Z;
  cy_ActualEndUnixMilli : Z;
  cy_ExitCode : Z;
  cy_LastEvent : option artifactEventRef;
  cy_Verification : artifactVerification;
  cy_CrashPoint : string;
  cy_FaultPoint : string
}.

Record artifactEvent := mkArtifactEvent { ae_Cycle : Z; ae_Time : Z; ae_Event : eventMessage }.

Record artifact := mkArtifact {
  art_Version : Z;
  art_Config : artifactConfig;
  art_Seed : Z;
  art_Ops : list operationMessage;
  art_Cycles : list artifactCycle;
  art_Events : list artifactEvent;
  art_LastAckedOpID : Z;
  art_Failure : option verificationFailure
}.

Definition newArtifact (cfg : runConfig) (ops : list operation) : artifact :=
  mkArtifact artifactVersion
    (mkArtifactConfig (DBDir cfg) (Cycles cfg) (MinDelayMS cfg) (MaxDelayMS cfg) (Ops cfg) (PutRatio cfg) (DeleteRatio cfg)
       (BatchRatio cfg) (MaxKeyLen cfg) (MaxValueLen cfg) (HotKeyRatio cfg) (VerifyEveryCycle cfg) (Profile cfg)
       (CrashPoint cfg) (FaultPoint cfg))
    (Seed cfg) (toMessage <$> ops) [] [] 0 None.

(** The loop over [art.Ops]. *)
Fixpoint decode_ops (msgs : list operationMessage) : res (list operation) :=
  match msgs with
  | [] => Ok []
  | msg :: msgs =>
      op ← map_err (Errorf "decoding artifact operation") (toOperation msg);
      ops ← decode_ops msgs;
      Ok (op :: ops)
  end.

(** [loadArtifact]; [read] is what [os.ReadFile] and [json.Unmarshal] return. *)
Definition loadArtifact (read : res artifact) : res (artifact * list operation) :=
  art ← read;
  if negb (art_Version art =? artifactVersion) then throw (ErrorText "unsupported artifact version")
  else ops ← decode_ops (art_Ops art); Ok (art, ops).

(** [os.WriteFile]: the file is closed even if it could not be written. *)
Definition os_WriteFile (name data : bytes) : io (option error) :=
  file ← os_Create name;
  match file with
  | Panic => panic
  | Err err => mret (Some err)
  | Ok file =>
      err ← f_write file data;
      closed ← f_close file;
      mret (match err with Some err => Some err | None => closed end)
  end.

Definition tmp_path (path : bytes) : bytes := path ++ bytes_of_string ".tmp".

(** [saveArtifact]; [encode] is [json.MarshalIndent]. *)
Definition saveArtifact (encode : artifact -> res bytes) (path : bytes) (art : artifact) : io (option error) :=
  data ← call (encode art);
  match data with
  | Panic => panic
  | Err err => mret (Some (Errorf "encoding artifact" err))
  | Ok data =>
      let tmpPath := tmp_path path in
      err ← os_WriteFile tmpPath (data ++ [x0a]);
      match err with
      | Some err => mret (Some (Errorf "writing artifact temp file" err))
      | None =>
          r ← os_Rename tmpPath path;
          match r with
          | Panic => panic
          | Err err => mret (Some (Errorf "renaming artifact temp file" err))
          | Ok _ => mret None
          end
      end
  end.

(** The configuration of a replay in [replayCommand]. *)
Definition replay_config (dbDir artifactDir : bytes) (art : artifact) : runConfig :=
  let c := art_Config art in
  mkRunConfig dbDir artifactDir (ac_Cycles c) (ac_MinDelayMS c) (ac_MaxDelayMS c) (art_Seed art) (ac_Ops c) (ac_PutRatio c)
    (ac_DeleteRatio c) (ac_BatchRatio c) (ac_MaxKeyLen c) (ac_MaxValueLen c) (ac_HotKeyRatio c) true (ac_VerifyEveryCycle c)
    (ac_Profile c) (ac_CrashPoint c) (ac_FaultPoint c).

(** ** What a replay runs *)
Lemma decode_ops_messages ops : Forall supported ops -> decode_ops (toMessage <$> ops) = Ok (received <$> ops).
Proof.
  induction 1 as [|op ops Hs _ IH]; [done|]. cbn [fmap list_fmap decode_ops].
  rewrite toOperation_toMessage, bool_decide_true by done. cbn. by rewrite IH.
Qed.

(** The fields of a configuration a replay may change. *)
Definition relocated (cfg : runConfig) (dbDir artifactDir : bytes) : runConfig :=
  mkRunConfig dbDir artifactDir (Cycles cfg) (MinDelayMS cfg) (MaxDelayMS cfg) (Seed cfg) (Ops cfg) (PutRatio cfg)
    (DeleteRatio cfg) (BatchRatio cfg) (MaxKeyLen cfg) (MaxValueLen cfg) (HotKeyRatio cfg) true (VerifyEveryCycle cfg)
    (Profile cfg) (CrashPoint cfg) (FaultPoint cfg).

(** A replay runs what was recorded.  From the artifact of a run, at
    any stage of it -- whatever cycles, events and failure it has gathered -- the
    replay takes the same configuration but for the directories, and the same
    operations as the worker of the run received. *)
Theorem replay_same_run cfg ops cycles events last failure dbDir artifactDir :
  Forall supported ops ->
  let art := newArtifact cfg ops in
  let saved := mkArtifact (art_Version art) (art_Config art) (art_Seed art) (art_Ops art) cycles events last failure in
  loadArtifact (Ok saved) = Ok (saved, received <$> ops) /\
  replay_config dbDir artifactDir saved = relocated cfg dbDir artifactDir.
Proof.
  intros Hs art saved. split; [|done]. unfold loadArtifact. cbn -[artifactVersion]. by rewrite decode_ops_messages.
Qed.

(** ** The file *)
Section Save.
Context (path : bytes) (old : option bytes) (content : bytes).
Local Abbreviation tmp := (tmp_path path).

Lemma path_ne_tmp : tmp <> path.
Proof using. intros E. apply (f_equal length) in E. unfold tmp_path in E. rewrite length_app in E. cbn in E. lia. Qed.

(** The file is the one before, or the new one in full. *)
Definition whole (s : Fs) : Prop := content_of path s = old \/ content_of path s = Some content.

Definition before (s : Fs) : Prop := wf_fs s /\ content_of path s = old.

(** The new content is gathered in a file of its own. *)
Record saving (i : nat) (F : bytes -> Prop) (s : Fs) : Prop := {
  sv_before : before s;
  sv_tmp : live s !! tmp = Some i;
  sv_path : live s !! path <> Some i;
  sv_file : exists f, inodes s !! i = Some f /\ F (f_content f)
}.

Lemma before_whole s : before s -> whole s.
Proof using. intros [_ H]. by left. Qed.

Lemma triple_saving {A} i (F : bytes -> Prop) (G : A -> bytes -> Prop) (g : File -> A * File) :
  (forall f, F (f_content f) -> (f_synced f <= length (f_content f))%nat ->
     G (g f).1 (f_content (g f).2) /\ (f_synced (g f).2 <= length (f_content (g f).2))%nat) ->
  triple Faulty (saving i F) (on_file i g) (fun a => saving i (G a)) whole.
Proof using.
  intros H. apply triple_on_file. intros s [[Hw Hc] Ht Hp (f & Hf & HF)]. exists f. split; [done|]. intros _.
  destruct (H f HF (wf_synced s Hw i f Hf)) as [HG Hle]. destruct (g f) as [a f']. cbn in HG, Hle.
  assert (content_of path (set_inode i f' s) = old) as Hc'.
  { rewrite <-Hc. unfold content_of. cbn. destruct (live s !! path) as [j|]; cbn; [|done].
    by rewrite lookup_insert_ne by congruence. }
  split; [|split; [by left|done]]. split; [split; [apply wf_set_inode; [done|by eexists|done]|done]|done|done|].
  exists f'. split; [apply lookup_insert_eq|done].
Qed.

Lemma triple_write_tmp :
  triple Faulty before (os_WriteFile tmp content)
    (fun err s => match err with None => exists i, saving i (eq content) s | Some _ => before s end) whole.
Proof using.
  unfold os_WriteFile. eapply (triple_bind _ _ _ _ (fun r s => match r with
    | Ok i => saving i (eq []) s | Err _ => before s | Panic => False end)).
  - apply triple_syscall; [|done|].
    { intros fl s [Hw Hc]. split; [by apply wf_blind|done]. }
    intros s [Hw Hc]. destruct (create tmp s) as [i s'] eqn:E.
    assert (before s') as Hb.
    { split; [by eapply wf_create|]. rewrite <-Hc. injection E as _ <-. unfold content_of. cbn.
      rewrite lookup_insert_ne by apply path_ne_tmp. destruct (live s !! path) as [j|] eqn:Ej; cbn; [|done].
      rewrite lookup_insert_ne; [done|]. intros <-. apply (wf_dirs s Hw _ _ _ ltac:(by left)), (wf_next s Hw) in Ej. lia. }
    split; [|split; [by apply before_whole|done]]. split; [done| | |].
    + injection E as <- <-. cbn. by rewrite lookup_insert_eq.
    + eapply create_fresh; [done|done|apply not_eq_sym, path_ne_tmp|by left].
    + injection E as <- <-. eexists. cbn. by rewrite lookup_insert_eq.
  - intros [i|e|]; [|apply triple_ret; by intros s Hs|apply triple_false; by intros s Hs].
    eapply (triple_bind _ _ _ _ (fun err s => saving i (fun c => err = None -> c = content) s)).
    { apply triple_saving. intros f Hf Hs. destruct (file_Write content f) as [[f' n] err] eqn:E.
      apply file_Write_spec in E as (Ec & Es & En & _). rewrite <-Hf in Ec, Hs. cbn in *. rewrite Ec, Es. split; [|lia].
      intros Hn. by rewrite (En Hn), firstn_all. }
    intros err. eapply triple_bind; [apply (triple_saving i _ (fun _ c => err = None -> c = content))|].
    { intros f Hc Hs. destruct (file_Close f) as [f' e] eqn:E. apply file_Close_spec in E as (Ec & Es & _). cbn. by rewrite Ec, Es. }
    intros closed. apply triple_ret. intros s [Hb Ht Hp (f & Hf & Hc)].
    destruct err; [done|]. destruct closed; [done|]. exists i. split; [done..|]. exists f. split; [done|by rewrite Hc].
Qed.

Lemma triple_rename_tmp i :
  triple Faulty (saving i (eq content)) (os_Rename tmp path)
    (fun r s => match r with Ok _ => content_of path s = Some content | Err _ => before s | Panic => False end) whole.
Proof using.
  apply triple_syscall.
  - intros fl s [[Hw Hc] Ht Hp Hf]. split; [split; [by apply wf_blind|done]|done..].
  - by intros _ s [].
  - intros s [[Hw Hc] Ht Hp (f & Hf & HF)]. rewrite Ht.
    assert (content_of path (set_live (<[path := i]> (delete tmp (live s))) s) = Some content) as E.
    { unfold content_of. cbn. rewrite lookup_insert_eq. cbn. rewrite Hf. by rewrite HF. }
    split; [done|]. split; [by right|done].
Qed.
End Save.

(** An artifact is saved in one piece, as long as the machine keeps running.  If any
    call fails, and whenever the process dies, the file is the one before or the new
    one in full; when [saveArtifact] returns nil it is the new one. *)
Theorem save_artifact_whole encode path art data s :
  wf_fs s -> encode art = Ok data ->
  exists err w, saveArtifact encode path art (world s) = Some (err, w) /\
    Forall (whole path (content_of path s) (data ++ [x0a])) (w_trace w) /\
    (err = None -> content_of path (w_fs w) = Some (data ++ [x0a])).
Proof.
  intros Hw He.
  destruct (triple_run Faulty (saveArtifact encode path art) (before path (content_of path s))
    (fun err s' => err = None -> content_of path s' = Some (data ++ [x0a]))
    (whole path (content_of path s) (data ++ [x0a])) s ltac:(done) ltac:(done)) as (err & w & E & HQ & HT);
    [|by split|by left|by exists err, w].
  unfold saveArtifact. rewrite He.
  eapply (triple_bind _ _ _ _ (fun r s' => r = Ok data /\ before path (content_of path s) s')); [by apply triple_ret|].
  intros r. apply triple_pure. intros ->.
  eapply triple_bind; [apply triple_write_tmp|].
  intros [e|]; [by apply triple_ret|]. apply triple_exists. intros i.
  eapply triple_bind; [apply triple_rename_tmp|]. intros [u|e|]; [|by apply triple_ret|apply triple_false; by intros s' Hs'].
  by apply triple_ret.
Qed.

(** What there is on the disk after a run. *)
Definition saved_disk (r : option (option error * World)) : option (option error * list (nat * File) * list (bytes * nat) * nat) :=
  match r with
  | Some (err, w) => Some (err, map_to_list (inodes (w_fs w)), map_to_list (live (w_fs w)), next_ino (w_fs w))
  | None => None
  end.

(** But nothing is synced: after a power failure an artifact that was saved may be
    empty, its name on the disk before its content. *)
Theorem save_artifact_not_durable :
  let path := bytes_of_string "a" in
  exists w s', saveArtifact (fun _ => Ok [x7b; x7d]) path (newArtifact defaultRunConfig []) (world (empty_fs [] (fun _ => []))) =
      Some (None, w) /\ crash (w_fs w) s' /\ content_of path s' = Some [].
Proof.
  intros path.
  assert (saved_disk (saveArtifact (fun _ => Ok [x7b; x7d]) path (newArtifact defaultRunConfig []) (world (empty_fs [] (fun _ => [])))) =
    Some (None, [(0%nat, mkFile [x7b; x7d; x0a] 0 [])], [(path, 0%nat)], 1%nat)) as H by (vm_compute; reflexivity).
  destruct (saveArtifact _ _ _ _) as [[err w]|]; [|discriminate H]. injection H as -> Ei El En.
  apply (f_equal (list_to_map (M := gmap nat File))) in Ei. apply (f_equal (list_to_map (M := gmap bytes nat))) in El.
  rewrite list_to_map_to_list, list_to_map_cons, list_to_map_nil, insert_empty in Ei.
  rewrite list_to_map_to_list, list_to_map_cons, list_to_map_nil, insert_empty in El.
  exists w, (mkFs {[ 0%nat := mkFile [] 0 [] ]} {[ path := 0%nat ]} [] 1 [] (fun _ => [])).
  split; [exact eq_refl|]. split.
  - split; cbn [live unsynced next_ino inodes]; [rewrite El; by left|done|by rewrite En|..].
    + intros i. rewrite Ei, !lookup_singleton_None. done.
    + intros i f. rewrite Ei, lookup_singleton_Some. intros [<- <-]. eexists. split; [apply lookup_singleton_eq|].
      split; [|done]. split; [apply prefix_nil|cbn; lia].
  - unfold content_of. cbn [live inodes]. rewrite lookup_singleton_eq. cbn [mbind option_bind]. by rewrite lookup_singleton_eq.
Qed.
