(* ===== verification/Controller.v ===== *)
(** * The crash harness: controller and worker (cmd/crash/controller.go, worker.go)

    The controller starts a worker process, sends it one operation at a time through
    a pipe, reads its events from another, kills it when a timer fires, and books
    what was acknowledged.  Handlers are functions on the state of the controller;
    [sys_step] is one step of either process, in any order. *)
From Stdlib Require Import QArith_base.
From S2P Require Import Prelude.
From S2P Require Import Errors.
From S2P Require Import Crashhook.
From S2P Require Import Keys.
From S2P Require Import GoIO.
From S2P Require Import GoSort.
From S2P Require Import Fs.
From S2P Require Batch.
From S2P Require Import Memtable.
From S2P Require Import Engine.
From S2P Require Import EngineRun.
From S2P Require Import Disk.
From S2P Require Import DiskRun.
From S2P Require Import Live.
From S2P Require Import Recovery.
From S2P Require Import Boot.
From S2P Require Import Reopen.
From S2P Require Import Opening.
From S2P Require Import History.
From S2P Require Import Protocol.
From S2P Require Import Oracle.
From S2P Require Import Config.
From S2P Require Import Artifact.

Local Open Scope Z_scope.

Definition opStatusPlanned : string := "planned".
Definition opStatusStarted : string := "started".
Definition opStatusAcked : string := "acked".
Definition opStatusFailed : string := "failed".

Record controller := mkController {
  c_cfg : runConfig;
  c_artifact : artifact;
  c_ops : list operation;
  c_statuses : list string;
  c_queueIndex : Z;
  c_retryIndex : Z;
  c_lastAckedID : Z;
  c_oracle : oracle
}.

(** The controller [runCommand] and [replayCommand] build. *)
Definition newController (cfg : runConfig) (ops : list operation) : controller :=
  mkController cfg (newArtifact cfg ops) ops (replicate (length ops) opStatusPlanned) 0 (-1) (-1) newOracle.

(** ** Assignments to fields *)
Definition set_artifact (a : artifact) (c : controller) : controller :=
  mkController (c_cfg c) a (c_ops c) (c_statuses c) (c_queueIndex c) (c_retryIndex c) (c_lastAckedID c) (c_oracle c).
Definition set_retryIndex (i : Z) (c : controller) : controller :=
  mkController (c_cfg c) (c_artifact c) (c_ops c) (c_statuses c) (c_queueIndex c) i (c_lastAckedID c) (c_oracle c).
Definition set_queueIndex (i : Z) (c : controller) : controller :=
  mkController (c_cfg c) (c_artifact c) (c_ops c) (c_statuses c) i (c_retryIndex c) (c_lastAckedID c) (c_oracle c).
Definition set_acked (id : Z) (o : oracle) (c : controller) : controller :=
  let a := c_artifact c in
  mkController (c_cfg c)
    (mkArtifact (art_Version a) (art_Config a) (art_Seed a) (art_Ops a) (art_Cycles a) (art_Events a) id (art_Failure a))
    (c_ops c) (c_statuses c) (c_queueIndex c) (-1) id o.

(** An index expression: [None] is a panic. *)
Definition index {A} (l : list A) (i : Z) : option A := if i <? 0 then None else l !! Z.to_nat i.

(** [c.statuses[id] = status]. *)
Definition set_status (id : Z) (status : string) (c : controller) : res controller :=
  match index (c_statuses c) id with
  | None => Panic
  | Some _ =>
      Ok (mkController (c_cfg c) (c_artifact c) (c_ops c) (<[Z.to_nat id := status]> (c_statuses c)) (c_queueIndex c)
            (c_retryIndex c) (c_lastAckedID c) (c_oracle c))
  end.

(** ** Operations *)
Definition armedCrashPoint (cfg : runConfig) (cycle : Z) : string := if cycle =? 0 then CrashPoint cfg else EmptyString.
Definition armedFaultPoint (cfg : runConfig) (cycle : Z) : string := if cycle =? 0 then FaultPoint cfg else EmptyString.

(** Pairs for [name=value]. *)
Definition workerEnv (cycle : Z) (c : controller) : list (string * string) :=
  let env (name point : string) := if bool_decide (point = EmptyString) then [] else [(name, point)] in
  env EnvCrashPoint (armedCrashPoint (c_cfg c) cycle) ++ env EnvFaultPoint (armedFaultPoint (c_cfg c) cycle).

Definition nextOperation (c : controller) : res (option operation * controller) :=
  if 0 <=? c_retryIndex c then
    match index (c_ops c) (c_retryIndex c) with None => Panic | Some op => Ok (Some op, c) end
  else if zlen (c_ops c) <=? c_queueIndex c then Ok (None, c)
  else match index (c_ops c) (c_queueIndex c) with
  | None => Panic
  | Some op => Ok (Some op, set_queueIndex (c_queueIndex c + 1) c)
  end.

Definition pendingOperation (c : controller) : res (option operation) :=
  if c_retryIndex c <? 0 then Ok None
  else match index (c_statuses c) (c_retryIndex c) with
  | None => Panic
  | Some status =>
      if negb (bool_decide (status = opStatusStarted)) then Ok None
      else match index (c_ops c) (c_retryIndex c) with None => Panic | Some op => Ok (Some op) end
  end.

Definition recordEvent (cycle now : Z) (event : eventMessage) (c : controller) : controller :=
  let a := c_artifact c in
  set_artifact (mkArtifact (art_Version a) (art_Config a) (art_Seed a) (art_Ops a) (art_Cycles a)
    (art_Events a ++ [mkArtifactEvent cycle now event]) (art_LastAckedOpID a) (art_Failure a)) c.

(** What both loops of [runCycle] do with an event; [true] if it ends the wait for
    the operation. *)
Definition on_event (cycle now : Z) (event : eventMessage) (c : controller) : res (controller * bool) :=
  let c := recordEvent cycle now event c in
  if bool_decide (ev_Kind event = eventStart) then
    c ← set_status (ev_OpID event) opStatusStarted c; Ok (c, false)
  else if bool_decide (ev_Kind event = eventAck) then
    c ← set_status (ev_OpID event) opStatusAcked c;
    match index (c_ops c) (ev_OpID event) with
    | None => Panic
    | Some op => Ok (set_acked (ev_OpID event) (apply op (c_oracle c)) c, true)
    end
  else if bool_decide (ev_Kind event = eventFail) then
    c ← set_status (ev_OpID event) opStatusFailed c;
    let c := set_retryIndex (-1) c in
    if bool_decide (armedFaultPoint (c_cfg c) cycle = EmptyString) then throw (ErrorText "worker reported failure")
    else Ok (c, true)
  else Ok (c, false).

(** [waitForReady] on what the channel delivers, [None] if it is closed. *)
Definition waitForReady (received : option eventMessage) : res eventMessage :=
  match received with
  | None => throw (ErrorText "worker exited before sending ready event")
  | Some event =>
      if bool_decide (ev_Kind event = eventReady) then Ok event else throw (ErrorText "expected ready event")
  end.

(** The record of a cycle, appended by [run]; [pid], [now] and [code] are those of
    the process that ended. *)
Definition end_cycle (cycle delayMS pid now code : Z) (lastEvent : option artifactEventRef) (c : controller) : controller :=
  let a := c_artifact c in
  let record := mkArtifactCycle cycle pid delayMS now code lastEvent (mkArtifactVerification 0 [])
    (armedCrashPoint (c_cfg c) cycle) (armedFaultPoint (c_cfg c) cycle) in
  set_artifact (mkArtifact (art_Version a) (art_Config a) (art_Seed a) (art_Ops a) (art_Cycles a ++ [record])
    (art_Events a) (art_LastAckedOpID a) (art_Failure a)) c.

(** The condition on which [run] leaves its loop early. *)
Definition all_sent (c : controller) : bool := (c_retryIndex c <? 0) && (zlen (c_ops c) <=? c_queueIndex c).

(** ** The two processes

    The worker waits for the database to open, for an operation, or for the call of
    one to return. *)
Inductive worker :=
  | WOpening
  | WIdle
  | WStarted (op : operation)
  | WCalling (op : operation)
  | WReturned (op : operation) (err : option error)
  | WDead.

(** Where the controller is in [runCycle]: waiting for the ready event, about to
    send, waiting for an operation to end, or draining; and between cycles. *)
Inductive phase := PReady | PSend | PWait | PDrain | PVerify.

Record system := mkSystem {
  s_ctl : controller;
  s_phase : phase;
  s_cycle : Z;
  s_delay : Z;
  s_last : option artifactEventRef;
  s_worker : worker;
  s_stdin : list operationMessage;    (* the pipe to the worker *)
  s_stdout : list eventMessage;       (* the pipe back, with the channel behind it *)
  s_executed : list operation;        (* calls made on the database, in all cycles *)
  s_succeeded : list operation        (* those that returned without an error *)
}.

Definition ready_event : eventMessage := mkEventMessage eventReady 0 None EmptyString.
Definition start_event (op : operation) : eventMessage := mkEventMessage eventStart (op_ID op) None EmptyString.
Definition end_event (op : operation) (err : option error) : eventMessage :=
  match err with
  | None => mkEventMessage eventAck (op_ID op) None EmptyString
  | Some e => mkEventMessage eventFail (op_ID op) (Some e) EmptyString
  end.

Definition event_ref (event : eventMessage) : option artifactEventRef := Some (mkArtifactEventRef (ev_Kind event) (ev_OpID event)).

(** The first cycle of [run]. *)
Definition sys_start (cfg : runConfig) (ops : list operation) (delay : Z) : system :=
  mkSystem (newController cfg ops) PReady 0 delay None WOpening [] [] [] [].

(** A step of the worker: [runWorker], and the end of the process at any point. *)
Inductive worker_step : system -> system -> Prop :=
  | step_open c ph cy d l i o ex ok :
      worker_step (mkSystem c ph cy d l WOpening i o ex ok) (mkSystem c ph cy d l WIdle i (o ++ [ready_event]) ex ok)
  | step_read c ph cy d l msg i o ex ok op :
      toOperation msg = Ok op ->
      worker_step (mkSystem c ph cy d l WIdle (msg :: i) o ex ok)
        (mkSystem c ph cy d l (WStarted op) i (o ++ [start_event op]) ex ok)
  | step_call c ph cy d l op i o ex ok call :
      executeOperation op = Ok call ->
      worker_step (mkSystem c ph cy d l (WStarted op) i o ex ok) (mkSystem c ph cy d l (WCalling op) i o (ex ++ [op]) ok)
  | step_refuse c ph cy d l op i o ex ok e :
      executeOperation op = throw e ->
      worker_step (mkSystem c ph cy d l (WStarted op) i o ex ok) (mkSystem c ph cy d l (WReturned op (Some e)) i o ex ok)
  | step_return c ph cy d l op err i o ex ok :
      worker_step (mkSystem c ph cy d l (WCalling op) i o ex ok)
        (mkSystem c ph cy d l (WReturned op err) i o ex (match err with None => ok ++ [op] | Some _ => ok end))
  | step_report c ph cy d l op err i o ex ok :
      worker_step (mkSystem c ph cy d l (WReturned op err) i o ex ok)
        (mkSystem c ph cy d l WIdle i (o ++ [end_event op err]) ex ok)
  | step_die c ph cy d l w i o ex ok :
      worker_step (mkSystem c ph cy d l w i o ex ok) (mkSystem c ph cy d l WDead i o ex ok).

(** A step of the controller: [runCycle] and the loop of [run].  Steps that end the
    run with an error have no successor. *)
Inductive controller_step : system -> system -> Prop :=
  | step_ready c cy d l w i event o ex ok now :
      waitForReady (Some event) = Ok event ->
      controller_step (mkSystem c PReady cy d l w i (event :: o) ex ok)
        (mkSystem (recordEvent cy now event c) PSend cy d (Some (mkArtifactEventRef (ev_Kind event) 0)) w i o ex ok)
  | step_none c c' cy d l w i o ex ok :
      nextOperation c = Ok (None, c') ->
      controller_step (mkSystem c PSend cy d l w i o ex ok) (mkSystem c' PDrain cy d l w i o ex ok)
  | step_send c c' op cy d l w i o ex ok :
      nextOperation c = Ok (Some op, c') ->
      controller_step (mkSystem c PSend cy d l w i o ex ok)
        (mkSystem (set_retryIndex (op_ID op) c') PWait cy d l w (i ++ [toMessage op]) o ex ok)
  | step_send_fails c c' op cy d l w i o ex ok :
      nextOperation c = Ok (Some op, c') ->
      controller_step (mkSystem c PSend cy d l w i o ex ok) (mkSystem c' PDrain cy d l w i o ex ok)
  | step_event c c' done cy d l w i event o ex ok now :
      on_event cy now event c = Ok (c', done) ->
      controller_step (mkSystem c PWait cy d l w i (event :: o) ex ok)
        (mkSystem c' (if done then PSend else PWait) cy d (event_ref event) w i o ex ok)
  | step_closed c cy d l i ex ok :
      controller_step (mkSystem c PWait cy d l WDead i [] ex ok) (mkSystem c PDrain cy d l WDead i [] ex ok)
  | step_kill c cy d l w i o ex ok :
      controller_step (mkSystem c PWait cy d l w i o ex ok) (mkSystem c PDrain cy d l WDead i o ex ok)
  | step_drain c c' done cy d l i event o ex ok now :
      on_event cy now event c = Ok (c', done) ->
      controller_step (mkSystem c PDrain cy d l WDead i (event :: o) ex ok)
        (mkSystem c' PDrain cy d (event_ref event) WDead i o ex ok)
  | step_over c cy d l i ex ok pid now code :
      controller_step (mkSystem c PDrain cy d l WDead i [] ex ok)
        (mkSystem (end_cycle cy d pid now code l c) PVerify cy d l WDead i [] ex ok)
  | step_next c cy d d' l w i o ex ok :
      all_sent c = false -> cy + 1 < Cycles (c_cfg c) ->
      controller_step (mkSystem c PVerify cy d l w i o ex ok) (mkSystem c PReady (cy + 1) d' None WOpening [] [] ex ok).

Inductive sys_step : system -> system -> Prop :=
  | by_worker s s' : worker_step s s' -> sys_step s s'
  | by_controller s s' : controller_step s s' -> sys_step s s'.

(** [verifyCycle] and [verifyFinalState] on what [verifyDatabaseState] and
    [saveArtifact] return. *)
Definition set_verification (v : artifactVerification) (cycles : list artifactCycle) : list artifactCycle :=
  match last cycles with
  | None => []
  | Some r =>
      take (pred (length cycles)) cycles ++
        [mkArtifactCycle (cy_Index r) (cy_WorkerPID r) (cy_PlannedKillDelayMS r) (cy_ActualEndUnixMilli r) (cy_ExitCode r)
          (cy_LastEvent r) v (cy_CrashPoint r) (cy_FaultPoint r)]
  end.

Definition fail_with (cycle : Z) (f : verificationFailure) : verificationFailure :=
  mkVerificationFailure cycle (vf_OpID f) (vf_KeyB64 f) (vf_ExpectedB64 f) (vf_ActualB64 f) (vf_Expected f) (vf_Actual f)
    (vf_Message f).

Definition note_verdict (cycle : Z) (v : verificationResult) (failure : option verificationFailure) (c : controller) : controller :=
  let a := c_artifact c in
  set_artifact (mkArtifact (art_Version a) (art_Config a) (art_Seed a) (art_Ops a)
    (set_verification (mkArtifactVerification (CheckedKeys v) (Allowed v)) (art_Cycles a)) (art_Events a) (art_LastAckedOpID a)
    (match failure with None => art_Failure a | Some f => Some (fail_with cycle f) end)) c.

Definition save_verdict (cycle : Z) (message : string) (verdict : res (verificationResult * option verificationFailure))
    (saved : option error) (c : controller) : res controller :=
  '(v, failure) ← verdict;
  let c := note_verdict cycle v failure c in
  match saved with
  | Some err => throw err
  | None => match failure with None => Ok c | Some _ => throw (ErrorText message) end
  end.

Definition verifyCycle (cycle : Z) (verdict : res (verificationResult * option verificationFailure)) (saved : option error)
    (c : controller) : res controller :=
  if negb (VerifyEveryCycle (c_cfg c)) then Ok c
  else
    '(v, _) ← verdict;
    if (length (art_Cycles (c_artifact c)) =? 0)%nat then Panic
    else save_verdict cycle "verification failed in cycle" verdict saved c.

Definition verifyFinalState (verdict : res (verificationResult * option verificationFailure)) (saved : option error)
    (c : controller) : res controller :=
  save_verdict (zlen (art_Cycles (c_artifact c))) "final verification failed" verdict saved c.

(** ** What the runs do

    The operations of a workload are numbered from 0, and none is empty. *)
Definition well_numbered (ops : list operation) : Prop :=
  op_ID <$> ops = seqZ 0 (zlen ops) /\ Forall (fun op => supported op /\ writes_of op <> []) ops.

Lemma index_nat {A} (l : list A) (i : nat) : index l (Z.of_nat i) = l !! i.
Proof. unfold index. destruct (Z.ltb_spec (Z.of_nat i) 0); [lia|]. by rewrite Nat2Z.id. Qed.

Lemma well_numbered_lookup ops i op :
  well_numbered ops -> ops !! i = Some op -> op_ID op = Z.of_nat i /\ supported op /\ writes_of op <> [].
Proof.
  intros [Hid Hs] Hi. split.
  - assert ((op_ID <$> ops) !! i = Some (op_ID op)) as E by by rewrite list_lookup_fmap, Hi.
    rewrite Hid in E. apply lookup_seqZ in E. lia.
  - rewrite Forall_lookup in Hs. eauto.
Qed.

(** The worker makes of an operation what the controller means by it. *)
Lemma contents_nil_if_empty b : contents (nil_if_empty b) = contents b.
Proof. unfold nil_if_empty. by destruct b as [[|x b]|]. Qed.

Lemma received_shape op : supported op -> op_ID (received op) = op_ID op /\ supported (received op).
Proof.
  intros Hs. unfold received. case_bool_decide as H1; [split; [done|by left]|].
  case_bool_decide as H2; [split; [done|by right; left]|]. split; [done|]. right. right. cbn. by destruct Hs as [?|[?|?]].
Qed.

Lemma item_write_received item : item_write (item_received item) = item_write item.
Proof. unfold item_write, item_received. cbn. by rewrite !contents_nil_if_empty. Qed.

Lemma writes_of_put op :
  op_Kind op = opPut -> writes_of op = [Batch.mkOperation Batch.OpTypePut (contents (op_Key op)) (contents (op_Value op))].
Proof. intros E. unfold writes_of, executeOperation. by rewrite E. Qed.

Lemma writes_of_delete op : op_Kind op = opDelete -> writes_of op = [Batch.mkOperation Batch.OpTypeDelete (contents (op_Key op)) []].
Proof. intros E. unfold writes_of, executeOperation. by rewrite E. Qed.

Lemma writes_of_received op : supported op -> writes_of (received op) = writes_of op.
Proof.
  intros [E|[E|E]]; unfold received; rewrite E.
  - rewrite bool_decide_true by done. rewrite !writes_of_put by done. cbn [op_Key op_Value]. by rewrite !contents_nil_if_empty.
  - rewrite bool_decide_false, bool_decide_true by done. rewrite !writes_of_delete by done. cbn [op_Key op_Value]. by rewrite !contents_nil_if_empty.
  - rewrite !bool_decide_false by done. rewrite !writes_of_batch by done. cbn. rewrite <-list_fmap_compose. apply list_fmap_ext. intros i item _. apply item_write_received.
Qed.

(** *** The operation in flight *)
Definition settled (w : worker) : Prop := w = WIdle \/ w = WDead.

Definition clean (err : option error) : bool := match err with None => true | Some _ => false end.

(** The worker has read the operation; [true] if its call has succeeded. *)
Inductive running (op : operation) : bool -> worker -> Prop :=
  | running_started : running op false (WStarted (received op))
  | running_calling : running op false (WCalling (received op))
  | running_returned err : running op (clean err) (WReturned (received op) err)
  | running_dead b : running op b WDead.

(** The state of worker and pipes with an operation in flight: whether it was ever
    started, and whether it has succeeded in this cycle. *)
Inductive carry (op : operation) : option operation -> bool -> worker -> list operationMessage -> list eventMessage -> Prop :=
  | carry_rest p w : settled w -> carry op p false w [] []
  | carry_sent p w : settled w -> carry op p false w [toMessage op] []
  | carry_run b w o : running op b w -> o = [] \/ o = [start_event op] -> carry op (Some op) b w [] o
  | carry_told err w o : settled w -> o = [] \/ o = [start_event op] ->
      carry op (Some op) (clean err) w [] (o ++ [end_event op err]).

(** A worker that starts. *)
Definition booting (w : worker) (i : list operationMessage) (o : list eventMessage) : Prop :=
  i = [] /\ ((w = WOpening \/ w = WDead) /\ o = [] \/ settled w /\ o = [ready_event]).

Definition owed (w : worker) : list operation := match w with WStarted op => [op] | _ => [] end.

Section Runs.
Context (cfg : runConfig) (ops : list operation) (numbered : well_numbered ops) (no_fault : FaultPoint cfg = EmptyString).

(** What holds of the controller at every step. *)
Record steady (c : controller) : Prop := {
  sd_cfg : c_cfg c = cfg;
  sd_ops : c_ops c = ops;
  sd_len : length (c_statuses c) = length ops;
  sd_queue : 0 <= c_queueIndex c;
  sd_fresh k : c_queueIndex c <= Z.of_nat k -> c_statuses c !! k <> Some opStatusStarted
}.

(** The operation in flight as the controller sees it. *)
Inductive flight (c : controller) : option operation -> bool -> worker -> list operationMessage -> list eventMessage -> Prop :=
  | flight_none w : c_retryIndex c = -1 -> settled w -> flight c None false w [] []
  | flight_op k op p b w i o :
      c_retryIndex c = Z.of_nat k -> Z.of_nat k < c_queueIndex c -> ops !! k = Some op -> p = None \/ p = Some op ->
      (c_statuses c !! k = Some opStatusStarted -> p = Some op) ->
      (p = Some op -> c_statuses c !! k = Some opStatusStarted \/ start_event op ∈ o) ->
      carry op p b w i o -> flight c p b w i o.

Definition place (c : controller) (ph : phase) (p : option operation) (b : bool) (w : worker) (i : list operationMessage)
    (o : list eventMessage) : Prop :=
  match ph with
  | PReady => booting w i o /\ b = false /\ flight c p b WDead [] []
  | PSend => settled w /\ i = [] /\ o = [] /\ b = false /\ flight c p b w i o
  | PWait => 0 <= c_retryIndex c /\ flight c p b w i o
  | PDrain => flight c p b w i o
  | PVerify => w = WDead /\ o = [] /\ flight c p b w i o
  end.

(** The books: [acked] and [started] are a run of the harness, the oracle holds
    the first, and the calls on the database agree with them. *)
Record booked (s : system) (acked started : list operation) (p : option operation) (b : bool) : Prop := {
  bk_harness : harness acked started p;
  bk_oracle : c_oracle (s_ctl s) = oracle_of acked;
  bk_started : writes_of <$> (s_executed s ++ owed (s_worker s)) `sublist_of` writes_of <$> started;
  bk_acked : writes_of <$> (acked ++ (if b then in_flight p else [])) `sublist_of` writes_of <$> s_succeeded s;
  bk_place : place (s_ctl s) (s_phase s) p b (s_worker s) (s_stdin s) (s_stdout s)
}.

Definition sys_inv (s : system) : Prop := steady (s_ctl s) /\ exists acked started p b, booked s acked started p b.

Lemma sys_inv_start delay : sys_inv (sys_start cfg ops delay).
Proof using.
  split.
  - split; cbn; [done|done|by rewrite length_replicate|lia|]. intros k _ H. apply lookup_replicate in H as [H _]. discriminate.
  - exists [], [], None, false. split; cbn; [constructor|done|done|done|]. split_and!; [split; [done|left; split; [by left|done]]|done|].
    constructor; [done|by right].
Qed.

(** *** Handlers *)
Lemma set_status_ok k status c c' :
  set_status (Z.of_nat k) status c = Ok c' ->
  c' = mkController (c_cfg c) (c_artifact c) (c_ops c) (<[k := status]> (c_statuses c)) (c_queueIndex c)
         (c_retryIndex c) (c_lastAckedID c) (c_oracle c).
Proof using. unfold set_status. rewrite index_nat, Nat2Z.id. destruct (_ !! k); [|done]. by intros [= <-]. Qed.

Lemma steady_status c k status :
  steady c -> status <> opStatusStarted \/ Z.of_nat k < c_queueIndex c -> forall o r l a,
  steady (mkController (c_cfg c) a (c_ops c) (<[k := status]> (c_statuses c)) (c_queueIndex c) r l o).
Proof using.
  intros [H1 H2 H3 H4 H5] Hk o r l a. split; cbn; [done|done|by rewrite length_insert|done|]. intros j Hj.
  destruct (decide (j = k)) as [->|Hne]; [|rewrite list_lookup_insert_ne by done; by apply H5].
  destruct Hk as [Hs|Hk]; [|lia]. intros E. apply list_lookup_insert_Some in E as [(_ & ? & _)|[? _]]; done.
Qed.

Lemma on_start cy now op c c' done k :
  op_ID op = Z.of_nat k -> on_event cy now (start_event op) c = Ok (c', done) ->
  done = false /\ exists a, c' = mkController (c_cfg c) a (c_ops c) (<[k := opStatusStarted]> (c_statuses c)) (c_queueIndex c)
    (c_retryIndex c) (c_lastAckedID c) (c_oracle c).
Proof using.
  intros Hid. unfold on_event, start_event. cbn [ev_Kind ev_OpID]. rewrite bool_decide_true, Hid by done.
  destruct (set_status _ _ _) as [c1| |] eqn:E; [|done..]. intros [= <- <-]. apply set_status_ok in E as ->. split; [done|]. by eexists.
Qed.

Lemma on_ack cy now op c c' done k :
  op_ID op = Z.of_nat k -> c_ops c !! k = Some op -> on_event cy now (end_event op None) c = Ok (c', done) ->
  done = true /\ exists a, c' = mkController (c_cfg c) a (c_ops c) (<[k := opStatusAcked]> (c_statuses c)) (c_queueIndex c)
    (-1) (op_ID op) (apply op (c_oracle c)).
Proof using.
  intros Hid Hk. unfold on_event, end_event. cbn [ev_Kind ev_OpID]. rewrite bool_decide_false, bool_decide_true, Hid by done.
  destruct (set_status _ _ _) as [c1| |] eqn:E; [|done..]. apply set_status_ok in E as ->. cbn [mbind result_bind c_ops].
  rewrite index_nat. cbn. rewrite Hk. intros [= <- <-]. split; [done|]. by eexists.
Qed.

Lemma on_fail cy now op e c c' done : c_cfg c = cfg -> on_event cy now (end_event op (Some e)) c <> Ok (c', done).
Proof using no_fault.
  intros Hc. unfold on_event, end_event. cbn [ev_Kind ev_OpID]. rewrite !bool_decide_false, bool_decide_true by done.
  destruct (set_status _ _ _) as [c1| |] eqn:E; [|done..]. cbn [mbind result_bind]. rewrite bool_decide_true; [done|].
  assert (c_cfg c1 = cfg) as E1.
  { unfold set_status in E. destruct (index _ _); [|done]. injection E as <-. by cbn. }
  unfold armedFaultPoint. cbn. rewrite E1. by destruct (cy =? 0).
Qed.
(** *** The worker *)
Lemma received_events op : supported op ->
  start_event (received op) = start_event op /\ forall err, end_event (received op) err = end_event op err.
Proof using.
  intros Hs. destruct (received_shape op Hs) as [E _]. unfold start_event. split; [by rewrite E|].
  intros [e|]; unfold end_event; by rewrite E.
Qed.

Lemma settled_idle : settled WIdle.
Proof using. by left. Qed.

Lemma settled_dead : settled WDead.
Proof using. by right. Qed.

Hint Resolve settled_idle settled_dead : core.
Hint Constructors carry running : core.

(** With nothing left to read, any worker may take over. *)
Lemma flight_rest c p b w w' i : settled w' -> flight c p b w i [] -> flight c p false w' [] [].
Proof using.
  intros Hw H. inversion H; subst; [by constructor|]. eapply flight_op; eauto.
Qed.

Lemma flight_die c p b w i o : flight c p b w i o -> flight c p b WDead i o.
Proof using.
  intros H. inversion H as [|k op ? ? ? ? ? H1 H2 H3 H4 H5 H6 Hc]; subst; [by constructor|].
  eapply flight_op; [done..|]. inversion Hc; subst; eauto.
Qed.

Lemma flight_read c p b msg i o op' :
  flight c p b WIdle (msg :: i) o -> toOperation msg = Ok op' ->
  exists op, op' = received op /\ supported op /\ writes_of op <> [] /\ b = false /\ (p = None \/ p = Some op) /\
    flight c (Some op) false (WStarted op') i (o ++ [start_event op']).
Proof using numbered.
  intros H Hm. inversion H as [|k op ? ? ? ? ? H1 H2 H3 H4 H5 H6 Hc]; subst.
  destruct (well_numbered_lookup _ _ _ numbered H3) as (Hid & Hs & Hne). inversion Hc; subst.
  rewrite toOperation_toMessage, bool_decide_true in Hm by done. injection Hm as <-. exists op. split_and!; try done.
  destruct (received_events op Hs) as [-> _]. eapply flight_op; [done..|by right|auto| |].
  - intros _. right. by left.
  - apply carry_run; [constructor|by right].
Qed.

Lemma flight_call c p b op' i o :
  flight c p b (WStarted op') i o ->
  exists op, p = Some op /\ supported op /\ op' = received op /\ b = false /\ flight c p false (WCalling op') i o.
Proof using numbered.
  intros H. inversion H as [? ? Hw|k op ? ? ? ? ? H1 H2 H3 H4 H5 H6 Hc]; subst; [by destruct Hw|].
  destruct (well_numbered_lookup _ _ _ numbered H3) as (Hid & Hs & Hne).
  inversion Hc as [? ? Hw|? ? Hw|? ? ? Hr|? ? ? Hw]; subst; try by destruct Hw.
  inversion Hr; subst. exists op. split_and!; try done. eapply flight_op; eauto.
Qed.

Lemma flight_return c p b op' i o err :
  flight c p b (WCalling op') i o ->
  exists op, p = Some op /\ supported op /\ op' = received op /\ b = false /\ flight c p (clean err) (WReturned op' err) i o.
Proof using numbered.
  intros H. inversion H as [? ? Hw|k op ? ? ? ? ? H1 H2 H3 H4 H5 H6 Hc]; subst; [by destruct Hw|].
  destruct (well_numbered_lookup _ _ _ numbered H3) as (Hid & Hs & Hne).
  inversion Hc as [? ? Hw|? ? Hw|? ? ? Hr|? ? ? Hw]; subst; try by destruct Hw.
  inversion Hr; subst. exists op. split_and!; try done. eapply flight_op; eauto.
Qed.

Lemma flight_report c p b op' err i o :
  flight c p b (WReturned op' err) i o -> flight c p b WIdle i (o ++ [end_event op' err]).
Proof using numbered.
  intros H. inversion H as [? ? Hw|k op ? ? ? ? ? H1 H2 H3 H4 H5 H6 Hc]; subst; [by destruct Hw|].
  destruct (well_numbered_lookup _ _ _ numbered H3) as (Hid & Hs & Hne).
  inversion Hc as [? ? Hw|? ? Hw|? ? ? Hr Ho|? ? ? Hw]; subst; try by destruct Hw.
  inversion Hr; subst. destruct (received_events op Hs) as [_ ->]. eapply flight_op; [done..|by right|auto| |].
  - intros _. destruct (H6 eq_refl) as [?|Hin]; [by left|right]. apply elem_of_app. by left.
  - by apply carry_told.
Qed.
Lemma flight_not_opening c p b i o : ~ flight c p b WOpening i o.
Proof using.
  intros H. inversion H as [? ? [?|?]|? ? ? ? ? ? ? _ _ _ _ _ _ Hca]; subst; [done..|].
  inversion Hca as [? ? [?|?]|? ? [?|?]|? ? ? Hr|? ? ? [?|?]]; subst; try done. inversion Hr.
Qed.

(** While the worker works on an operation, the place is that of its story. *)
Lemma placed_busy c ph p b w i o :
  place c ph p b w i o -> ~ settled w -> w <> WOpening ->
  flight c p b w i o /\ forall p' b' w' i' o', flight c p' b' w' i' o' -> place c ph p' b' w' i' o'.
Proof using.
  destruct ph; cbn.
  - intros [(_ & [[[?|?] _]|[? _]]) _] Hs Ho; subst; by exfalso; auto.
  - intros (? & _) Hs. done.
  - intros [? ?] _ _. split; [done|]. by intros.
  - intros ? _ _. done.
  - intros (-> & _) Hs. by exfalso; auto.
Qed.

Lemma placed_mail c ph p b msg i o :
  place c ph p b WIdle (msg :: i) o ->
  flight c p b WIdle (msg :: i) o /\ forall p' b' w' i' o', flight c p' b' w' i' o' -> place c ph p' b' w' i' o'.
Proof using.
  destruct ph; cbn; [by intros [[? _] _]|by intros (_ & ? & _)| |done|by intros [? _]].
  intros [? ?]. split; [done|]. by intros.
Qed.

Lemma placed_open c ph p b i o : place c ph p b WOpening i o -> place c ph p b WIdle i (o ++ [ready_event]).
Proof using.
  destruct ph; cbn.
  - intros ((-> & [[_ ->]|[[?|?] _]]) & -> & Hf); [|done..]. split_and!; [split; [done|by right]|done|done].
  - by intros ([?|?] & _).
  - by intros [_ ?%flight_not_opening].
  - by intros ?%flight_not_opening.
  - by intros [? _].
Qed.

Lemma placed_die c ph p b w i o : place c ph p b w i o -> place c ph p b WDead i o.
Proof using.
  destruct ph; cbn.
  - intros ((-> & [[_ ->]|[_ ->]]) & Hr); (split; [split; [done|]|done]); [left; split; [by right|done]|by right].
  - intros (_ & ? & ? & ? & ?). split_and!; [by right|done..|by eapply flight_die].
  - intros [? ?]. split; [done|by eapply flight_die].
  - intros ?. by eapply flight_die.
  - intros (_ & ? & ?). split_and!; [done..|by eapply flight_die].
Qed.

Ltac unsettled := by intros [?|?].

Lemma worker_inv s s' : worker_step s s' -> sys_inv s -> sys_inv s'.
Proof using numbered.
  intros Hstep [Hc (acked & started & p & b & [Hh Ho Hst Hac Hp])]. split; [by destruct Hstep|].
  destruct Hstep as [c ph cy d l i o ex ok|c ph cy d l msg i o ex ok op' Hm|c ph cy d l op' i o ex ok call Hcall
    |c ph cy d l op' i o ex ok e Hcall|c ph cy d l op' err i o ex ok|c ph cy d l op' err i o ex ok|c ph cy d l w i o ex ok];
    cbn in *.
  - exists acked, started, p, b. split; try done. by apply placed_open.
  - destruct (placed_mail _ _ _ _ _ _ _ Hp) as [Hf Hnext].
    destruct (flight_read _ _ _ _ _ _ _ Hf Hm) as (op & -> & Hs & Hne & -> & Hpe & Hf').
    exists acked, (started ++ [op]), (Some op), false. split; cbn; [|done| |done|by apply Hnext].
    + destruct Hpe as [->| ->]; [by apply harness_start|by apply harness_retry].
    + cbn in Hst. rewrite app_nil_r in Hst. rewrite !fmap_app. cbn. rewrite writes_of_received by done. by apply sublist_app.
  - destruct (placed_busy _ _ _ _ _ _ _ Hp) as [Hf Hnext]; [unsettled|done|].
    destruct (flight_call _ _ _ _ _ _ Hf) as (op & -> & Hs & -> & -> & Hf').
    exists acked, started, (Some op), false. split; cbn; [done|done|by rewrite app_nil_r|done|by apply Hnext].
  - exfalso. destruct (placed_busy _ _ _ _ _ _ _ Hp) as [Hf _]; [unsettled|done|].
    destruct (flight_call _ _ _ _ _ _ Hf) as (op & -> & Hs & -> & _). destruct (received_shape op Hs) as [_ [E|[E|E]]];
      unfold executeOperation in Hcall; rewrite E in Hcall; by cbn in Hcall.
  - destruct (placed_busy _ _ _ _ _ _ _ Hp) as [Hf Hnext]; [unsettled|done|].
    destruct (flight_return _ _ _ _ _ _ err Hf) as (op & -> & Hs & -> & -> & Hf').
    exists acked, started, (Some op), (clean err). split; cbn; [done|done|done| |by apply Hnext].
    destruct err; cbn in *; [done|]. rewrite app_nil_r in Hac. rewrite !fmap_app. cbn. rewrite writes_of_received by done.
    by apply sublist_app.
  - destruct (placed_busy _ _ _ _ _ _ _ Hp) as [Hf Hnext]; [unsettled|done|].
    exists acked, started, p, b. split; try done. cbn. apply Hnext. by apply flight_report.
  - exists acked, started, p, b. split; cbn; try done; [|by eapply placed_die].
    rewrite app_nil_r. etrans; [|done]. rewrite fmap_app. by apply sublist_inserts_r.
Qed.

(** *** The controller *)
Lemma steady_event c a : steady c -> steady (set_artifact a c).
Proof using. intros [? ? ? ? ?]. by split. Qed.

Lemma flight_same c c' p b w i o :
  c_retryIndex c' = c_retryIndex c -> c_queueIndex c' = c_queueIndex c -> c_statuses c' = c_statuses c ->
  flight c p b w i o -> flight c' p b w i o.
Proof using.
  intros Er Eq Es H. inversion H as [|k op ? ? ? ? ? H1 H2 H3 H4 H5 H6 Hc]; subst; [constructor; congruence|].
  rewrite <-Er in H1. rewrite <-Eq in H2. rewrite <-Es in H5, H6. by eapply flight_op.
Qed.

Lemma carry_event op p b w i event o :
  carry op p b w i (event :: o) ->
  p = Some op /\ (event = start_event op /\ carry op p b w i o \/
    exists err, event = end_event op err /\ b = clean err /\ settled w /\ i = [] /\ o = []).
Proof using.
  intros H. inversion H as [| |? ? ? Hr Ho|err ? o0 Hw Ho]; subst.
  - destruct Ho as [?|[= -> ->]]; [done|]. split; [done|]. left. split; [done|]. apply carry_run; [done|by left].
  - split; [done|]. match goal with E : _ ++ _ = _ |- _ => rename E into Eo end.
    destruct Ho as [->| ->]; injection Eo as <- <-; [right; by exists err|].
    left. split; [done|]. apply (carry_told op err w []); [done|by left].
Qed.

(** An event moves the story on, or ends it. *)
Lemma flight_event c c' done p b w i event o cy now :
  steady c -> flight c p b w i (event :: o) -> on_event cy now event c = Ok (c', done) ->
  steady c' /\
  (done = false /\ flight c' p b w i o /\ c_oracle c' = c_oracle c /\ c_retryIndex c' = c_retryIndex c \/
   done = true /\ exists op, p = Some op /\ b = true /\ settled w /\ i = [] /\ o = [] /\
     c_oracle c' = apply op (c_oracle c) /\ flight c' None false w [] []).
Proof using numbered no_fault.
  intros Hc Hf He. inversion Hf as [|k op ? ? ? ? ? H1 H2 H3 H4 H5 H6 Hca]; subst.
  destruct (well_numbered_lookup _ _ _ numbered H3) as (Hid & Hs & Hne).
  pose proof (lookup_lt_Some _ _ _ H3) as Hlt. rewrite <-(sd_len c Hc) in Hlt.
  apply carry_event in Hca as (-> & [[-> Hca]|([e|] & -> & -> & Hw & -> & ->)]).
  - destruct (on_start _ _ _ _ _ _ _ Hid He) as (-> & a & ->). split; [apply steady_status; auto|]. left. split_and!; [done| |done|done].
    eapply flight_op; [done..|by right|done| |done]. intros _. left. by apply list_lookup_insert_eq.
  - by apply on_fail in He; [|apply Hc].
  - destruct (on_ack cy now op c c' done k Hid) as (-> & a & ->); [by rewrite (sd_ops c Hc)|done|].
    split; [apply steady_status; [done|by left]|]. right. split; [done|]. exists op. split_and!; try done. by constructor.
Qed.

(** The next operation is that in flight, or a new one. *)
Lemma next_operation c c' next p b w i o :
  steady c -> flight c p b w i o -> nextOperation c = Ok (next, c') ->
  steady c' /\ c_oracle c' = c_oracle c /\ flight c' p b w i o /\
  forall op, next = Some op -> exists k, op_ID op = Z.of_nat k /\ ops !! k = Some op /\ (p = None \/ p = Some op) /\
    Z.of_nat k < c_queueIndex c' /\ (c_statuses c' !! k = Some opStatusStarted -> p = Some op) /\
    (p = Some op -> c_statuses c' !! k = Some opStatusStarted \/ start_event op ∈ o).
Proof using numbered.
  intros Hc Hf. unfold nextOperation. rewrite (sd_ops c Hc). inversion Hf as [? Hr Hw|k op ? ? ? ? ? H1 H2 H3 H4 H5 H6 Hca]; subst.
  - rewrite Hr. cbn [Z.leb Z.compare]. destruct (Z.leb_spec (zlen ops) (c_queueIndex c)) as [Hq|Hq].
    { by intros [= <- <-]. }
    pose proof (sd_queue c Hc) as H0. rewrite <-(Z2Nat.id (c_queueIndex c)) at 1 by done. rewrite index_nat.
    destruct (ops !! Z.to_nat (c_queueIndex c)) as [op|] eqn:E; [|done]. intros [= <- <-].
    destruct (well_numbered_lookup _ _ _ numbered E) as (Hid & _). split_and!; [|done|by constructor|].
    + destruct Hc. split; cbn; [done..|lia|]. intros j Hj. apply sd_fresh0. lia.
    + intros ? [= <-]. eexists. split_and!; [done|done|by left|cbn; lia| |done].
      cbn. intros Hst. exfalso. eapply (sd_fresh c Hc); [|done]. lia.
  - rewrite H1. destruct (Z.leb_spec 0 (Z.of_nat k)); [|lia]. rewrite index_nat, H3. intros [= <- <-].
    destruct (well_numbered_lookup _ _ _ numbered H3) as (Hid & _). split_and!; [done..|]. intros ? [= <-].
    exists k. by split_and!.
Qed.

(** The books after an event. *)
Lemma event_books c c' done p b w i event o cy now acked started ok :
  steady c -> flight c p b w i (event :: o) -> on_event cy now event c = Ok (c', done) ->
  harness acked started p -> c_oracle c = oracle_of acked ->
  writes_of <$> (acked ++ (if b then in_flight p else [])) `sublist_of` writes_of <$> ok ->
  steady c' /\ exists acked' p' (b' : bool), harness acked' started p' /\ c_oracle c' = oracle_of acked' /\
    writes_of <$> (acked' ++ (if b' then in_flight p' else [])) `sublist_of` writes_of <$> ok /\ flight c' p' b' w i o /\
    (if done then settled w /\ i = [] /\ o = [] /\ b' = false else c_retryIndex c' = c_retryIndex c).
Proof using numbered no_fault.
  intros Hc Hf He Hh Ho Hac. destruct (flight_event _ _ _ _ _ _ _ _ _ _ _ Hc Hf He) as [Hc' Hcase]. split; [done|].
  destruct Hcase as [(-> & Hf' & Eo & Er)|(-> & op & -> & -> & Hw & -> & -> & Eo & Hf')].
  - exists acked, p, b. split_and!; try done. congruence.
  - exists (acked ++ [op]), None, false. split_and!; try done.
    + by apply harness_ack.
    + unfold oracle_of. rewrite foldl_app. cbn. by rewrite Eo, Ho.
    + by rewrite app_nil_r.
Qed.

Lemma controller_inv s s' : controller_step s s' -> sys_inv s -> sys_inv s'.
Proof using numbered no_fault.
  intros Hstep [Hc (acked & started & p & b & [Hh Ho Hst Hac Hp])].
  destruct Hstep as [c cy d l w i event o ex ok now Hw|c c' cy d l w i o ex ok Hn|c c' op cy d l w i o ex ok Hn
    |c c' op cy d l w i o ex ok Hn|c c' done cy d l w i event o ex ok now He|c cy d l i ex ok|c cy d l w i o ex ok
    |c c' done cy d l i event o ex ok now He|c cy d l i ex ok pid now code|c cy d d' l w i o ex ok Hs Hcy]; cbn in *.
  - split; [by apply steady_event|]. exists acked, started, p, b. split; cbn; try done.
    destruct Hp as ((-> & [[_ ?]|[Hset [= -> ->]]]) & -> & Hf); [done|]. split_and!; [done..|].
    eapply flight_rest; [done|]. by eapply flight_same; [..|exact Hf].
  - destruct Hp as (Hset & -> & -> & -> & Hf). destruct (next_operation _ _ _ _ _ _ _ _ Hc Hf Hn) as (Hc' & Eo & Hf' & _).
    split; [done|]. exists acked, started, p, false. split; cbn; [done|congruence|done..].
  - destruct Hp as (Hset & -> & -> & -> & Hf). destruct (next_operation _ _ _ _ _ _ _ _ Hc Hf Hn) as (Hc' & Eo & Hf' & Hop).
    destruct (Hop op eq_refl) as (k & Hid & Hk & Hpe & Hq & Hst1 & Hst2).
    split; [destruct Hc'; by split|]. exists acked, started, p, false. split; cbn; [done|congruence|done|done|].
    split; [rewrite Hid; lia|]. by apply (flight_op _ k op); cbn; auto.
  - destruct Hp as (Hset & -> & -> & -> & Hf). destruct (next_operation _ _ _ _ _ _ _ _ Hc Hf Hn) as (Hc' & Eo & Hf' & _).
    split; [done|]. exists acked, started, p, false. split; cbn; [done|congruence|done..].
  - destruct Hp as [Hr Hf]. destruct (event_books _ _ _ _ _ _ _ _ _ _ _ _ _ _ Hc Hf He Hh Ho Hac) as (Hc' & acked' & p' & b' & ? & ? & ? & Hf' & Hd).
    split; [done|]. exists acked', started, p', b'. split; cbn; try done. destruct done; cbn; [|by rewrite Hd].
    by destruct Hd as (? & ? & ? & ?).
  - destruct Hp as [_ Hf]. split; [done|]. by exists acked, started, p, b.
  - destruct Hp as [_ Hf]. split; [done|]. exists acked, started, p, b. split; cbn; try done; [|by eapply flight_die].
    rewrite app_nil_r. etrans; [|done]. rewrite fmap_app. by apply sublist_inserts_r.
  - destruct (event_books _ _ _ _ _ _ _ _ _ _ _ _ _ _ Hc Hp He Hh Ho Hac) as (Hc' & acked' & p' & b' & ? & ? & ? & Hf' & _).
    split; [done|]. by exists acked', started, p', b'.
  - split; [by apply steady_event|]. exists acked, started, p, b. split; cbn; try done. split_and!; [done..|].
    by eapply flight_same; [..|exact Hp].
  - destruct Hp as (-> & -> & Hf). split; [done|]. exists acked, started, p, false. split; cbn; try done.
    + etrans; [|exact Hac]. rewrite !fmap_app. apply sublist_app; [done|apply sublist_nil_l].
    + split_and!; [split; [done|left; split; [by left|done]]|done|]. by eapply flight_rest.
Qed.
Lemma sys_inv_reachable delay s : rtc sys_step (sys_start cfg ops delay) s -> sys_inv s.
Proof using numbered no_fault.
  intros H. pose proof (sys_inv_start delay) as H0. induction H as [|s s' s'' Hs _ IH]; [done|]. apply IH.
  destruct Hs; [by eapply worker_inv|by eapply controller_inv].
Qed.

(** Between cycles the operation in flight is the one the controller allows for. *)
Lemma pending_known c p b i : steady c -> flight c p b WDead i [] -> pendingOperation c = Ok p.
Proof using numbered.
  intros Hc H. unfold pendingOperation. inversion H as [? Hr|k op ? ? ? ? ? H1 H2 H3 H4 H5 H6 _]; subst; [by rewrite Hr|].
  rewrite H1. destruct (Z.ltb_spec (Z.of_nat k) 0); [lia|]. rewrite !index_nat, (sd_ops c Hc), H3.
  destruct (c_statuses c !! k) as [status|] eqn:E.
  - case_bool_decide as Est; cbn [negb]; [subst; by rewrite (H5 eq_refl)|]. destruct H4 as [->| ->]; [done|].
    exfalso. destruct (H6 eq_refl) as [[= ?]|Hin]; [done|by apply not_elem_of_nil in Hin].
  - apply lookup_ge_None in E. apply lookup_lt_Some in H3. rewrite (sd_len c Hc) in E. lia.
Qed.
End Runs.

Section Verdict.
Context {Mem : Type} {memtable : Memtable Mem} {memtable_laws : MemtableLaws Mem}.
Context {slices : Slices} {slices_laws : SlicesLaws} {device : Device} {good_device : GoodDevice} {streams : Streams}.
Context {order : MapOrder} (rand : nat -> nat -> Q).

(** C9: the crash harness raises no false alarm.  Let controller and
    worker run without an injected fault, in any interleaving, the worker dying
    anywhere and as often as there are cycles; let the database have gone through a
    history of the kind of [durable_linearizable], with its bounds and assumptions, with the calls the
    workers made.  When the controller verifies, no call on the disk fails any more, and
    some operation has been acknowledged or CURRENT does not name a MANIFEST that is
    not there, it knows which operation may be in flight, and the verifier reopens the
    database, finds every key it looks at in one of the two states it allows, and reports
    no failure.  (Where a failed set-up has left such a CURRENT behind the database does not
    open, and the verifier cannot but fail.) *)
Theorem controller_no_false_alarm cfg ops delay sys faults nf s n :
  well_numbered ops -> FaultPoint cfg = EmptyString ->
  rtc sys_step (sys_start cfg ops delay) sys -> s_phase sys = PVerify ->
  rtc hstep (blank faults nf)
    (mkState (Down s : History.phase (Mem := Mem)) (writes_of <$> s_succeeded sys) (writes_of <$> s_executed sys) n) ->
  (n + 1) * batches_bytes (writes_of <$> s_executed sys) < 2 ^ 31 -> n + 1 < 2 ^ 63 ->
  calm s -> s_succeeded sys <> [] \/ current_found s ->
  exists pending w, pendingOperation (s_ctl sys) = Ok pending /\
    verifyDatabaseState (Mem := Mem) rand (c_oracle (s_ctl sys)) pending (world s) =
      Some (Ok (mkVerificationResult (length (checked_keys (c_oracle (s_ctl sys)) pending)) (op_ID <$> in_flight pending), None), w).
Proof using memtable_laws slices_laws good_device streams.
  intros Hn Hf Hsys Hph H H1 H2 Hcalm Hcf.
  destruct (sys_inv_reachable cfg ops Hn Hf delay sys Hsys) as (Hc & acked & started & p & b & [Hh Ho Hst Hac Hp]).
  rewrite Hph in Hp. destruct Hp as (Ew & Eo & Hfl). rewrite Ew, Eo in *.
  destruct (harness_no_false_alarm rand faults nf s acked started p (writes_of <$> s_succeeded sys) (writes_of <$> s_executed sys) n)
    as [w Hv]; try done.
  - etrans; [|exact Hac]. rewrite fmap_app. by apply sublist_inserts_r.
  - cbn in Hst. by rewrite app_nil_r in Hst.
  - destruct Hcf as [Hne|?]; [left|by right]. by destruct (s_succeeded sys).
  - exists p, w. split; [by eapply pending_known|]. by rewrite Ho.
Qed.
End Verdict.
