(* ===== verification/Workload.v ===== *)
(** * The crash harness: the workload (cmd/crash/workload.go, internal/testutil/randkv.go)

    Random operations from a configuration.  The generator of [math/rand/v2] is a
    parameter, of which only the range of its numbers is used. *)
From S2P Require Import Prelude.
From S2P Require Import Errors.
From S2P Require Import Protocol.
From S2P Require Import Config.
From S2P Require Import Oracle.
From S2P Require Import Artifact.
From S2P Require Import Controller.

Local Open Scope Z_scope.

(** ** The generator *)
Class Rng := {
  rng : Type;
  rng_new : Z -> Z -> rng;            (* rand.New(rand.NewPCG(seed1, seed2)) *)
  rng_IntN : Z -> rng -> Z * rng;     (* for n > 0 *)
  rng_Uint64 : rng -> Z * rng
}.

Class RngLaws {r : Rng} : Prop := {
  IntN_range n s : 0 < n -> 0 <= (rng_IntN n s).1 < n
}.

(** Code that draws from it, and may panic. *)
Definition gen `{!Rng} (A : Type) : Type := rng -> res (A * rng).

Definition gen_panic `{!Rng} {A} : gen A := fun _ => Panic.

#[export] Instance gen_ret `{!Rng} : MRet gen := fun A a s => Ok (a, s).
#[export] Instance gen_bind `{!Rng} : MBind gen := fun A B k m s => '(a, s) ← m s; k a s.

Section Workload.
Context {random : Rng}.

(** [make([]T, n)] and [make([]T, 0, n)] panic when [n] is negative or the array is
    larger than the address space, here that of a 64-bit system; [elem] is the size
    of a [T].  Whether there is memory for what is allowed is not modelled. *)
Definition maxAlloc : Z := 2 ^ 48.

Definition make_slice (elem n : Z) : gen unit :=
  if (n <? 0) || (maxAlloc <? elem * n) then gen_panic else mret tt.

(** A word, two words and three words. *)
Definition sizeof_int : Z := 8.
Definition sizeof_string : Z := 16.
Definition sizeof_slice : Z := 24.
Definition sizeof_operation : Z := sizeof_int + sizeof_string + 3 * sizeof_slice.

(** [rng.IntN(n)] panics unless [n > 0]. *)
Definition IntN (n : Z) : gen Z := fun s => if n <=? 0 then Panic else Ok (rng_IntN n s).
Definition Uint64 : gen Z := fun s => Ok (rng_Uint64 s).

(** ** internal/testutil/randkv.go *)
Definition le_bytes (n : nat) (val : Z) : bytes := (fun i => Z_to_byte (Z.shiftr val (8 * Z.of_nat i))) <$> seq 0 n.

Fixpoint fill_words (words : nat) : gen bytes :=
  match words with
  | O => mret []
  | S words => val ← Uint64; rest ← fill_words words; mret (le_bytes 8 val ++ rest)
  end.

(** A slice of length [n], filled. *)
Definition fillRandomBytes (n : nat) : gen bytes :=
  p ← fill_words (n / 8);
  let remaining := (n mod 8)%nat in
  if (0 <? remaining)%nat then val ← Uint64; mret (p ++ le_bytes remaining val) else mret p.

Definition RandKey (maxLen : Z) : gen bytes :=
  i ← IntN maxLen;
  let n := 1 + i in
  _ ← make_slice 1 n; fillRandomBytes (Z.to_nat n).

Definition RandValue (maxLen : Z) : gen bytes :=
  n ← IntN (int64 (maxLen + 1));
  _ ← make_slice 1 n; fillRandomBytes (Z.to_nat n).

(** ** cmd/crash/workload.go *)
Fixpoint pick_choice (choices : list (string * Z)) (pick : Z) : string :=
  match choices with
  | [] => opPut
  | (kind, weight) :: choices => if pick <? weight then kind else pick_choice choices (pick - weight)
  end.

Definition chooseKind (putRatio deleteRatio batchRatio : Z) (allowDelete : bool) : gen string :=
  let choices := [(opPut, putRatio); (opBatch, batchRatio)] ++ (if allowDelete then [(opDelete, deleteRatio)] else []) in
  let total := foldl (fun (total : Z) (choice : string * Z) => total + choice.2) 0 choices in
  pick ← IntN total; mret (pick_choice choices pick).

(** [knownKeys[rng.IntN(len(knownKeys))]]. *)
Definition known_key (knownKeys : list bytes) : gen bytes :=
  i ← IntN (zlen knownKeys);
  match knownKeys !! Z.to_nat i with Some key => mret key | None => gen_panic end.

Definition chooseKey (cfg : runConfig) (knownKeys : list bytes) : gen bytes :=
  match knownKeys with
  | [] => RandKey (MaxKeyLen cfg)
  | _ =>
      n ← IntN 100;
      if n <? HotKeyRatio cfg then known_key knownKeys else RandKey (MaxKeyLen cfg)
  end.

Definition appendIfNewKey (knownKeys : list bytes) (key : bytes) : list bytes :=
  if existsb (fun candidate => bool_decide (candidate = key)) knownKeys then knownKeys else knownKeys ++ [key].

Definition some_known (knownKeys : list bytes) : bool := negb (length knownKeys =? 0)%nat.

(** The items of a batch. *)
Fixpoint gen_items (cfg : runConfig) (n : nat) (knownKeys : list bytes) : gen (list batchItem * list bytes) :=
  match n with
  | O => mret ([], knownKeys)
  | S n =>
      kind ← chooseKind (PutRatio cfg) (DeleteRatio cfg) 0 (some_known knownKeys);
      '(item, knownKeys) ←
        (if bool_decide (kind = opPut) then
           key ← chooseKey cfg knownKeys;
           value ← RandValue (MaxValueLen cfg);
           mret (mkBatchItem opPut (Some key) (Some value), appendIfNewKey knownKeys key)
         else if bool_decide (kind = opDelete) then
           key ← known_key knownKeys; mret (mkBatchItem opDelete (Some key) None, knownKeys)
         else gen_panic);
      '(items, knownKeys) ← gen_items cfg n knownKeys;
      mret (item :: items, knownKeys)
  end.

(** One operation. *)
Definition gen_op (cfg : runConfig) (opID : Z) (knownKeys : list bytes) : gen (operation * list bytes) :=
  kind ← chooseKind (PutRatio cfg) (DeleteRatio cfg) (BatchRatio cfg) (some_known knownKeys);
  if bool_decide (kind = opPut) then
    key ← chooseKey cfg knownKeys;
    value ← RandValue (MaxValueLen cfg);
    mret (mkOperation opID opPut (Some key) (Some value) [], appendIfNewKey knownKeys key)
  else if bool_decide (kind = opDelete) then
    key ← known_key knownKeys; mret (mkOperation opID opDelete (Some key) None [], knownKeys)
  else if bool_decide (kind = opBatch) then
    extra ← IntN 3;
    '(items, knownKeys) ← gen_items cfg (Z.to_nat (2 + extra)) knownKeys;
    mret (mkOperation opID opBatch None None items, knownKeys)
  else gen_panic.

Fixpoint gen_ops (cfg : runConfig) (n : nat) (opID : Z) (knownKeys : list bytes) : gen (list operation) :=
  match n with
  | O => mret []
  | S n =>
      '(op, knownKeys) ← gen_op cfg opID knownKeys;
      ops ← gen_ops cfg n (opID + 1) knownKeys;
      mret (op :: ops)
  end.

Definition generateWorkload (cfg : runConfig) : res (list operation) :=
  '(ops, _) ←
    (_ ← make_slice sizeof_operation (Ops cfg);
     _ ← make_slice sizeof_slice (Ops cfg);
     gen_ops cfg (Z.to_nat (Ops cfg)) 0 []) (rng_new (Seed cfg) (Z.lxor (Seed cfg) 0x5eed));
  Ok ops.
End Workload.

(** ** What is generated *)
Section Shape.
Context {random : Rng} {random_laws : RngLaws}.

(** The code does not panic, and its result satisfies [Q]. *)
Definition gen_ok {A} (m : gen A) (Q : A -> Prop) : Prop := forall s, exists a s', m s = Ok (a, s') /\ Q a.

Lemma gen_ok_ret {A} (a : A) (Q : A -> Prop) : Q a -> gen_ok (mret a) Q.
Proof using. intros H s. by exists a, s. Qed.

Lemma gen_ok_bind {A B} (m : gen A) (k : A -> gen B) (P : A -> Prop) (Q : B -> Prop) :
  gen_ok m P -> (forall a, P a -> gen_ok (k a) Q) -> gen_ok (mbind k m) Q.
Proof using.
  intros Hm Hk s. destruct (Hm s) as (a & s1 & E & HP). destruct (Hk a HP s1) as (b & s2 & E2 & HQ).
  exists b, s2. split; [|done]. unfold mbind, gen_bind. by rewrite E.
Qed.

Lemma gen_ok_mono {A} (m : gen A) (P Q : A -> Prop) : (forall a, P a -> Q a) -> gen_ok m P -> gen_ok m Q.
Proof using. intros H Hm s. destruct (Hm s) as (a & s' & E & HP). exists a, s'. auto. Qed.

Lemma gen_ok_IntN n : 0 < n -> gen_ok (IntN n) (fun i => 0 <= i < n).
Proof using random_laws.
  intros Hn s. unfold IntN. destruct (Z.leb_spec n 0); [lia|]. pose proof (IntN_range n s Hn) as Hr.
  destruct (rng_IntN n s) as [i s']. by exists i, s'.
Qed.

Lemma gen_ok_Uint64 : gen_ok Uint64 (fun _ => True).
Proof using. intros s. unfold Uint64. destruct (rng_Uint64 s) as [v s']. by exists v, s'. Qed.

Lemma length_le_bytes n v : length (le_bytes n v) = n.
Proof using. unfold le_bytes. by rewrite length_fmap, length_seq. Qed.

Lemma gen_ok_fill_words n : gen_ok (fill_words n) (fun p => length p = (8 * n)%nat).
Proof using.
  induction n as [|n IH]; cbn [fill_words]; [by apply gen_ok_ret|].
  eapply gen_ok_bind; [apply gen_ok_Uint64|]. intros v _. eapply gen_ok_bind; [exact IH|]. intros p Hp.
  apply gen_ok_ret. cbv beta in *. rewrite length_app, length_le_bytes. lia.
Qed.

(** The whole slice is filled. *)
Lemma gen_ok_fill n : gen_ok (fillRandomBytes n) (fun p => length p = n).
Proof using.
  unfold fillRandomBytes. pose proof (Nat.div_mod_eq n 8) as En. eapply gen_ok_bind; [apply gen_ok_fill_words|]. intros p Hp. cbv zeta.
  destruct (Nat.ltb_spec 0 (n mod 8)) as [H|H].
  - eapply gen_ok_bind; [apply gen_ok_Uint64|]. intros v _. apply gen_ok_ret. cbv beta in *. rewrite length_app, length_le_bytes. lia.
  - apply gen_ok_ret. cbv beta in *. lia.
Qed.

Lemma gen_ok_make elem n : 0 <= n -> elem * n <= maxAlloc -> gen_ok (make_slice elem n) (fun _ => True).
Proof using.
  intros H1 H2. unfold make_slice. destruct (Z.ltb_spec n 0); [lia|]. destruct (Z.ltb_spec maxAlloc (elem * n)); [lia|].
  by apply gen_ok_ret.
Qed.

(** A slice of bytes, made and filled. *)
Lemma gen_ok_make_fill n : 0 <= n <= maxAlloc -> gen_ok (_ ← make_slice 1 n; fillRandomBytes (Z.to_nat n)) (fun p => zlen p = n).
Proof using.
  intros H. eapply gen_ok_bind; [apply gen_ok_make; lia|]. intros _ _. eapply gen_ok_mono; [|apply gen_ok_fill].
  intros p Hp. cbv beta in *. unfold zlen. rewrite Hp. lia.
Qed.

Lemma gen_ok_RandKey maxLen : 0 < maxLen <= maxAlloc -> gen_ok (RandKey maxLen) (fun key => 1 <= zlen key <= maxLen).
Proof using random_laws.
  intros H. eapply gen_ok_bind; [apply gen_ok_IntN; lia|]. intros n Hn. eapply gen_ok_mono; [|apply gen_ok_make_fill; cbv beta in Hn; lia].
  intros key Hk. cbv beta in *. lia.
Qed.

Lemma gen_ok_RandValue maxLen : 0 <= maxLen <= maxAlloc -> gen_ok (RandValue maxLen) (fun value => zlen value <= maxLen).
Proof using random_laws.
  intros H. unfold RandValue. rewrite int64_id by (unfold maxAlloc in H; lia). eapply gen_ok_bind; [apply gen_ok_IntN; lia|].
  intros n Hn. eapply gen_ok_mono; [|apply gen_ok_make_fill; cbv beta in Hn; lia]. intros v Hv. cbv beta in *. lia.
Qed.

Lemma gen_ok_chooseKind p d b allow :
  0 < p -> 0 <= d -> 0 <= b ->
  gen_ok (chooseKind p d b allow) (fun kind => kind = opPut \/ (kind = opBatch /\ 0 < b) \/ (kind = opDelete /\ allow = true)).
Proof using random_laws.
  intros Hp Hd Hb. unfold chooseKind. cbv zeta. eapply gen_ok_bind; [apply gen_ok_IntN; destruct allow; cbn; lia|].
  intros pick Hpick. apply gen_ok_ret. cbv beta in *. destruct allow; cbn in Hpick |- *;
    destruct (Z.ltb_spec pick p); auto; destruct (Z.ltb_spec (pick - p) b); auto;
    [right; left; split; [done|lia]| |right; left; split; [done|lia]].
  destruct (Z.ltb_spec (pick - p - b) d); auto.
Qed.

(** The slices [generateWorkload] may ask for fit the address space. *)
Record allocatable (cfg : runConfig) : Prop := {
  al_ops : sizeof_operation * Ops cfg <= maxAlloc;
  al_keys : MaxKeyLen cfg <= maxAlloc;
  al_values : MaxValueLen cfg <= maxAlloc
}.

Context (cfg : runConfig) (cfg_ok : valid_config cfg).

Definition key_ok (key : bytes) : Prop := 1 <= zlen key <= MaxKeyLen cfg.

Lemma gen_ok_known_key knownKeys :
  knownKeys <> [] -> gen_ok (known_key knownKeys) (fun key => key ∈ knownKeys).
Proof using random_laws.
  intros Hne. unfold known_key. assert (0 < zlen knownKeys) as H0 by (destruct knownKeys; [done|unfold zlen; cbn; lia]).
  eapply gen_ok_bind; [by apply gen_ok_IntN|]. intros i Hi. cbv beta in Hi. destruct (knownKeys !! Z.to_nat i) as [key|] eqn:E.
  - apply gen_ok_ret. by eapply list_elem_of_lookup_2.
  - apply lookup_ge_None in E. unfold zlen in Hi. lia.
Qed.

Context (room : allocatable cfg).

Lemma gen_ok_chooseKey knownKeys : Forall key_ok knownKeys -> gen_ok (chooseKey cfg knownKeys) key_ok.
Proof using random_laws cfg_ok room.
  intros Hk. unfold chooseKey.
  assert (gen_ok (RandKey (MaxKeyLen cfg)) key_ok) as Hr by (apply gen_ok_RandKey; split; [apply cfg_ok|apply room]).
  destruct knownKeys as [|key knownKeys]; [done|]. eapply gen_ok_bind; [by apply gen_ok_IntN|]. intros n _.
  destruct (n <? HotKeyRatio cfg); [|done]. eapply gen_ok_mono; [|by apply gen_ok_known_key]. intros k Hin.
  rewrite Forall_forall in Hk. by apply Hk.
Qed.

Lemma appendIfNewKey_spec knownKeys key :
  list_to_set (appendIfNewKey knownKeys key) =@{gset bytes} {[key]} ∪ list_to_set knownKeys /\
  (Forall key_ok knownKeys -> key_ok key -> Forall key_ok (appendIfNewKey knownKeys key)).
Proof using.
  clear room cfg_ok random_laws. unfold appendIfNewKey. destruct (existsb _ knownKeys) eqn:E.
  - split; [|done]. apply existsb_exists in E as (k & Hin & Ek). apply bool_decide_eq_true in Ek as ->.
    apply list_elem_of_In in Hin. set_solver.
  - split; [rewrite list_to_set_app_L; set_solver|]. intros Hk Hkey. apply Forall_app. split; [done|by apply Forall_singleton].
Qed.

(** Writes that are valid when the keys [K] have been put before, and the keys put
    when they are done: sizes are in bounds, and only keys put before are deleted. *)
Inductive items_ok : gset bytes -> list batchItem -> gset bytes -> Prop :=
  | items_nil K : items_ok K [] K
  | items_put K key value items K' :
      key_ok key -> zlen value <= MaxValueLen cfg -> items_ok ({[key]} ∪ K) items K' ->
      items_ok K (mkBatchItem opPut (Some key) (Some value) :: items) K'
  | items_delete K key items K' :
      key ∈ K -> items_ok K items K' -> items_ok K (mkBatchItem opDelete (Some key) None :: items) K'.

Lemma items_ok_app K K1 K2 l1 l2 : items_ok K l1 K1 -> items_ok K1 l2 K2 -> items_ok K (l1 ++ l2) K2.
Proof using. induction 1; cbn; [done|constructor; auto..]. Qed.

Definition known_set (knownKeys : list bytes) : gset bytes := list_to_set knownKeys.

Definition items_result (K : gset bytes) (n : nat) (r : list batchItem * list bytes) : Prop :=
  length r.1 = n /\ Forall key_ok r.2 /\ items_ok K r.1 (known_set r.2).

Lemma some_known_true knownKeys : some_known knownKeys = true -> knownKeys <> [].
Proof using. by destruct knownKeys. Qed.

Context (some_puts : 0 < PutRatio cfg).

Lemma gen_ok_items n knownKeys :
  Forall key_ok knownKeys -> gen_ok (gen_items cfg n knownKeys) (items_result (known_set knownKeys) n).
Proof using random_laws cfg_ok room some_puts.
  revert knownKeys. induction n as [|n IH]; intros knownKeys Hk; cbn [gen_items].
  { apply gen_ok_ret. split_and!; [done|done|constructor]. }
  eapply gen_ok_bind; [apply gen_ok_chooseKind; [done|apply cfg_ok|done]|]. intros kind Hkind.
  eapply (gen_ok_bind _ _ (fun r => Forall key_ok r.2 /\ forall items K', items_ok (known_set r.2) items K' ->
    items_ok (known_set knownKeys) (r.1 :: items) K')).
  - destruct Hkind as [->|[[_ ?]|[-> Hkn]]]; [|lia|].
    + rewrite bool_decide_true by done. eapply gen_ok_bind; [by apply gen_ok_chooseKey|]. intros key Hkey.
      eapply gen_ok_bind; [apply gen_ok_RandValue; split; [apply cfg_ok|apply room]|]. intros value Hv. apply gen_ok_ret. cbn.
      destruct (appendIfNewKey_spec knownKeys key) as [Es Hf]. split; [by apply Hf|]. intros items K' Hi.
      constructor; [done|done|]. unfold known_set in *. by rewrite Es in Hi.
    + rewrite bool_decide_false, bool_decide_true by done. eapply gen_ok_bind; [by apply gen_ok_known_key, some_known_true|].
      intros key Hkey. apply gen_ok_ret. cbn. split; [done|]. intros items K' Hi. constructor; [|done].
      unfold known_set. by apply elem_of_list_to_set.
  - intros [item known] [Hk1 Hi1]. cbn in Hk1, Hi1. eapply gen_ok_bind; [by apply IH|].
    intros [items known2] (Hl & Hk2 & Hi2). apply gen_ok_ret. cbn in *. split_and!; [cbn; by rewrite Hl|done|by apply Hi1].
Qed.

(** The writes of an operation, one by one. *)
Definition items_of (op : operation) : list batchItem :=
  if bool_decide (op_Kind op = opPut) then [mkBatchItem opPut (op_Key op) (op_Value op)]
  else if bool_decide (op_Kind op = opDelete) then [mkBatchItem opDelete (op_Key op) None]
  else op_Batch op.

(** A put or a delete, or a batch of two to four of them. *)
Definition op_shape (op : operation) : Prop :=
  supported op /\ (op_Kind op = opBatch -> (2 <= length (op_Batch op) <= 4)%nat).

Lemma gen_ok_op opID knownKeys :
  Forall key_ok knownKeys ->
  gen_ok (gen_op cfg opID knownKeys) (fun r => op_ID r.1 = opID /\ op_shape r.1 /\ Forall key_ok r.2 /\
    items_ok (known_set knownKeys) (items_of r.1) (known_set r.2)).
Proof using random_laws cfg_ok room some_puts.
  intros Hk. unfold gen_op.
  eapply gen_ok_bind; [apply gen_ok_chooseKind; [done|apply cfg_ok|apply cfg_ok]|]. intros kind Hkind.
  destruct Hkind as [->|[[-> _]|[-> Hkn]]].
  - rewrite bool_decide_true by done. eapply gen_ok_bind; [by apply gen_ok_chooseKey|]. intros key Hkey.
    eapply gen_ok_bind; [apply gen_ok_RandValue; split; [apply cfg_ok|apply room]|]. intros value Hv. apply gen_ok_ret. cbn [fst snd].
    destruct (appendIfNewKey_spec knownKeys key) as [Es Hf]. split_and!; [done|split; [by left|done]|by apply Hf|].
    unfold known_set. rewrite Es. constructor; [done|done|constructor].
  - rewrite !bool_decide_false, bool_decide_true by done. eapply gen_ok_bind; [by apply gen_ok_IntN|]. intros extra He.
    eapply gen_ok_bind; [by apply gen_ok_items|]. intros [items known] (Hl & Hk2 & Hi). apply gen_ok_ret. cbn in *.
    split_and!; [done|split; [by right; right|cbn; lia]|done|done].
  - rewrite bool_decide_false, bool_decide_true by done. eapply gen_ok_bind; [by apply gen_ok_known_key, some_known_true|].
    intros key Hkey. apply gen_ok_ret. cbn [fst snd]. split_and!; [done|split; [by right; left|done]|done|].
    constructor; [by apply elem_of_list_to_set|constructor].
Qed.

Lemma gen_ok_ops n opID knownKeys :
  Forall key_ok knownKeys ->
  gen_ok (gen_ops cfg n opID knownKeys) (fun ops => op_ID <$> ops = seqZ opID (Z.of_nat n) /\ Forall op_shape ops /\
    exists K, items_ok (known_set knownKeys) (mjoin (items_of <$> ops)) K).
Proof using random_laws cfg_ok room some_puts.
  revert opID knownKeys. induction n as [|n IH]; intros opID knownKeys Hk; cbn [gen_ops].
  { apply gen_ok_ret. split_and!; [done|constructor|]. eexists. constructor. }
  eapply gen_ok_bind; [by apply gen_ok_op|]. intros [op known] (Hid & Hsh & Hk1 & Hi). cbn in Hid, Hsh, Hk1, Hi.
  eapply gen_ok_bind; [by apply IH|]. intros ops (Hids & Hshs & K & Hi2). apply gen_ok_ret. split_and!.
  - cbn. rewrite Hid, Hids, Nat2Z.inj_succ. rewrite (seqZ_cons opID (Z.succ _)) by lia. by rewrite Z.pred_succ, Z.add_1_r.
  - by constructor.
  - exists K. by eapply items_ok_app.
Qed.
End Shape.

(** A generated workload is one the controller's theorem speaks of. *)
Lemma writes_of_shape op : op_shape op -> supported op /\ writes_of op <> [].
Proof.
  intros [Hs Hb]. split; [done|]. destruct Hs as [E|[E|E]].
  - by rewrite writes_of_put.
  - by rewrite writes_of_delete.
  - rewrite writes_of_batch by done. specialize (Hb E). destruct (op_Batch op); cbn in *; [lia|done].
Qed.

Lemma workload_well_numbered ops n : 0 <= n -> op_ID <$> ops = seqZ 0 n -> Forall op_shape ops -> well_numbered ops.
Proof.
  intros Hn Hid Hs. split.
  - rewrite Hid. f_equal. unfold zlen. rewrite <-(length_fmap op_ID), Hid, length_seqZ. lia.
  - eapply Forall_impl; [exact Hs|]. intros op. apply writes_of_shape.
Qed.

Lemma workload_ok {random : Rng} {random_laws : RngLaws} cfg :
  validateCore cfg = None -> allocatable cfg -> 0 < PutRatio cfg ->
  exists ops K, generateWorkload cfg = Ok ops /\ op_ID <$> ops = seqZ 0 (Ops cfg) /\ Forall op_shape ops /\
    items_ok cfg ∅ (mjoin (items_of <$> ops)) K /\ well_numbered ops.
Proof.
  intros Hc Hv Hp. apply validateCore_ok in Hc. pose proof (vc_ops _ Hc) as Hn. pose proof (al_ops _ Hv) as Ha.
  unfold generateWorkload. match goal with |- context [mbind _ (?m ?s)] => pose (g := m); change (m s) with (g s) end.
  assert (gen_ok g (fun ops => op_ID <$> ops = seqZ 0 (Ops cfg) /\ Forall op_shape ops /\
    exists K, items_ok cfg ∅ (mjoin (items_of <$> ops)) K)) as Hg.
  { unfold g. eapply gen_ok_bind; [apply gen_ok_make; [lia|exact Ha]|]. intros _ _.
    eapply gen_ok_bind; [apply gen_ok_make; [lia|unfold sizeof_operation, sizeof_int, sizeof_string, sizeof_slice in *; lia]|]. intros _ _.
    eapply gen_ok_mono; [|by apply gen_ok_ops]. cbv beta. by rewrite Z2Nat.id by lia. }
  destruct (Hg (rng_new (Seed cfg) (Z.lxor (Seed cfg) 0x5eed))) as (ops & s & E & Hid & Hsh & K & Hi).
  exists ops, K. rewrite E. split_and!; try done. eapply workload_well_numbered; [|done|done]. lia.
Qed.

(** C33: the workload is well formed.  For every configuration that passes
    validation, has some puts in the mix and asks for no slice larger than the address
    space ([Ops] operations, keys and values of the greatest length), whatever the random
    numbers, generation ends without a panic with exactly [Ops] operations numbered
    from 0; each is a put, a delete or a batch of two to four of these; keys and values
    keep to their size limits; only keys put before are deleted; and the operations are
    numbered and shaped as the controller's theorems need them.  That there is memory
    for what fits the address space is assumed. *)
Theorem workload_wellformed {random : Rng} {random_laws : RngLaws} cfg :
  validateCore cfg = None -> allocatable cfg -> 0 < PutRatio cfg ->
  exists ops K, generateWorkload cfg = Ok ops /\ op_ID <$> ops = seqZ 0 (Ops cfg) /\ Forall op_shape ops /\
    items_ok cfg ∅ (mjoin (items_of <$> ops)) K /\ well_numbered ops.
Proof. apply workload_ok. Qed.

(** Running a computation that panics, or ends, before the rest. *)
Lemma gen_run_panic {random : Rng} {A B} (m : gen A) (k : A -> gen B) s : m s = Panic -> mbind k m s = Panic.
Proof. intros E. unfold mbind, gen_bind. by rewrite E. Qed.

Lemma gen_run_ok {random : Rng} {A B} (m : gen A) (k : A -> gen B) s a s' : m s = Ok (a, s') -> mbind k m s = k a s'.
Proof. intros E. unfold mbind, gen_bind. by rewrite E. Qed.

Lemma run_make {random : Rng} {B} elem n (k : unit -> gen B) s :
  mbind k (make_slice elem n) s = if (n <? 0) || (maxAlloc <? elem * n) then Panic else k tt s.
Proof. unfold make_slice, mbind, gen_bind. by destruct (_ || _). Qed.

(** Without puts, and with nothing to delete, no item can be chosen. *)
Lemma no_items {random : Rng} cfg n s : PutRatio cfg = 0 -> gen_items cfg (S n) [] s = Panic.
Proof. intros Hp. cbn [gen_items]. apply gen_run_panic. by rewrite Hp. Qed.

Lemma only_batches {random : Rng} {random_laws : RngLaws} d b s :
  0 < b -> exists s', chooseKind 0 d b false s = Ok (opBatch, s').
Proof.
  intros Hb. destruct (gen_ok_IntN b Hb s) as (pick & s' & E & Hr). exists s'. unfold chooseKind. cbv zeta.
  rewrite (gen_run_ok _ _ s pick s') by exact E. cbn. rewrite Z.sub_0_r.
  destruct (Z.ltb_spec pick 0); [lia|]. by destruct (Z.ltb_spec pick b); [|lia].
Qed.

(** Nothing in [validate] bounds the number of operations: above the address space
    generation panics. *)
Lemma workload_too_large {random : Rng} cfg : maxAlloc < sizeof_operation * Ops cfg -> generateWorkload cfg = Panic.
Proof.
  intros H. unfold generateWorkload. rewrite run_make. apply Z.ltb_lt in H as ->. by rewrite orb_true_r.
Qed.

(** C34: a valid configuration can crash the harness.  A mix without puts
    passes validation, and generating its workload always panics: before the first
    put nothing can be deleted, and the weights left over sum to zero. *)
Theorem workload_needs_puts {random : Rng} {random_laws : RngLaws} cfg :
  validateCore cfg = None -> PutRatio cfg = 0 -> generateWorkload cfg = Panic.
Proof.
  intros Hc Hp. apply validateCore_ok in Hc. unfold generateWorkload.
  pose proof (vc_ops _ Hc). pose proof (vc_batch _ Hc). destruct (Z.to_nat (Ops cfg)) as [|n] eqn:En; [lia|].
  generalize (rng_new (Seed cfg) (Z.lxor (Seed cfg) 0x5eed)) as s. intros s.
  rewrite !run_make. destruct (_ || _); [done|]. destruct (_ || _); [done|].
  cbn [gen_ops]. rewrite (gen_run_panic (gen_op cfg 0 [])); [done|]. unfold gen_op. rewrite Hp. change (some_known []) with false.
  destruct (decide (BatchRatio cfg = 0)) as [->|Hb]; [by apply gen_run_panic|].
  destruct (only_batches (DeleteRatio cfg) (BatchRatio cfg) s ltac:(lia)) as [s' E]. rewrite (gen_run_ok _ _ _ _ _ E).
  rewrite !bool_decide_false, bool_decide_true by done.
  destruct (gen_ok_IntN 3 ltac:(lia) s') as (extra & s2 & E2 & He). rewrite (gen_run_ok _ _ _ _ _ E2).
  apply gen_run_panic. destruct (Z.to_nat (2 + extra)) as [|m] eqn:Em; [lia|]. by apply no_items.
Qed.

(** ** The commands (cmd/crash/controller.go)

    The controllers [runCommand] and [replayCommand] start from: what comes before
    their [run].  [artifactDir] is [filepathDir] of the artifact's path. *)
Definition runCommand_controller {random : Rng} (prepared : option error) (cfg : runConfig) : res controller :=
  cfg ← validate prepared cfg;
  ops ← generateWorkload cfg;
  Ok (newController cfg ops).

Definition replayCommand_controller (ready : option error) (cfg : replayConfig) (read : res artifact) (artifactDir : bytes)
    : res controller :=
  match validateReplay ready cfg with
  | Some err => throw err
  | None =>
      '(art, ops) ← loadArtifact read;
      Ok (newController (replay_config (rc_DBDir cfg) artifactDir art) ops)
  end.

(** What passes [validate] has passed [validateCore]. *)
Lemma validate_core prepared cfg cfg' : validate prepared cfg = Ok cfg' -> validateCore cfg' = None.
Proof.
  unfold validate. destruct (applyProfileDefaults cfg) as [c| |]; cbn; [|done..].
  destruct (validateCore c) eqn:E; [done|]. destruct (validateHooks c); [done|]. destruct prepared; [done|]. by intros [= <-].
Qed.

(** The controller of a run keeps to well-numbered operations. *)
Lemma runCommand_well_numbered {random : Rng} {random_laws : RngLaws} prepared cfg c :
  runCommand_controller prepared cfg = Ok c -> allocatable (c_cfg c) -> 0 < PutRatio (c_cfg c) -> well_numbered (c_ops c).
Proof.
  unfold runCommand_controller. destruct (validate prepared cfg) as [cfg'| |] eqn:Ev; cbn; [|done..].
  destruct (generateWorkload cfg') as [ops| |] eqn:Eg; cbn; [|done..]. intros [= <-] Hv Hp. cbn in *.
  destruct (workload_ok cfg' (validate_core _ _ _ Ev) Hv Hp) as (ops' & K & Eg' & _ & _ & _ & Hw). by rewrite Eg in Eg'; injection Eg' as ->.
Qed.
