(* ===== verification/Commands.v ===== *)
(** * The command lines of the programs (cmd/crash/main.go, the mains of the dump tools)

    What the arguments of a program make of it: which of its commands runs, with which
    configuration, and what the process prints on its standard error and exits
    with.  The commands' own work is given. *)
From S2P Require Import Prelude.
From S2P Require Import Errors.
From S2P Require Import FileNames.
From S2P Require Import Flags.
From S2P Require Import Dump.
From S2P Require Import Protocol.
From S2P Require Import Config.
From S2P Require Import Oracle.
From S2P Require Import Artifact.
From S2P Require Import Controller.
From S2P Require Import Workload.

Local Open Scope Z_scope.

Definition string_of_bytes (s : bytes) : string := String.string_of_list_byte s.

(** ** Flags *)
Definition set_DBDir (v : bytes) (c : runConfig) : runConfig :=
  mkRunConfig v (ArtifactDir c) (Cycles c) (MinDelayMS c) (MaxDelayMS c) (Seed c) (Ops c) (PutRatio c) (DeleteRatio c)
    (BatchRatio c) (MaxKeyLen c) (MaxValueLen c) (HotKeyRatio c) (KeepDBOnFail c) (VerifyEveryCycle c)
    (Profile c) (CrashPoint c) (FaultPoint c).
Definition set_ArtifactDir (v : bytes) (c : runConfig) : runConfig :=
  mkRunConfig (DBDir c) v (Cycles c) (MinDelayMS c) (MaxDelayMS c) (Seed c) (Ops c) (PutRatio c) (DeleteRatio c)
    (BatchRatio c) (MaxKeyLen c) (MaxValueLen c) (HotKeyRatio c) (KeepDBOnFail c) (VerifyEveryCycle c)
    (Profile c) (CrashPoint c) (FaultPoint c).
Definition set_Cycles (v : Z) (c : runConfig) : runConfig :=
  mkRunConfig (DBDir c) (ArtifactDir c) v (MinDelayMS c) (MaxDelayMS c) (Seed c) (Ops c) (PutRatio c) (DeleteRatio c)
    (BatchRatio c) (MaxKeyLen c) (MaxValueLen c) (HotKeyRatio c) (KeepDBOnFail c) (VerifyEveryCycle c)
    (Profile c) (CrashPoint c) (FaultPoint c).
Definition set_MinDelayMS (v : Z) (c : runConfig) : runConfig :=
  mkRunConfig (DBDir c) (ArtifactDir c) (Cycles c) v (MaxDelayMS c) (Seed c) (Ops c) (PutRatio c) (DeleteRatio c)
    (BatchRatio c) (MaxKeyLen c) (MaxValueLen c) (HotKeyRatio c) (KeepDBOnFail c) (VerifyEveryCycle c)
    (Profile c) (CrashPoint c) (FaultPoint c).
Definition set_MaxDelayMS (v : Z) (c : runConfig) : runConfig :=
  mkRunConfig (DBDir c) (ArtifactDir c) (Cycles c) (MinDelayMS c) v (Seed c) (Ops c) (PutRatio c) (DeleteRatio c)
    (BatchRatio c) (MaxKeyLen c) (MaxValueLen c) (HotKeyRatio c) (KeepDBOnFail c) (VerifyEveryCycle c)
    (Profile c) (CrashPoint c) (FaultPoint c).
Definition set_Seed (v : Z) (c : runConfig) : runConfig :=
  mkRunConfig (DBDir c) (ArtifactDir c) (Cycles c) (MinDelayMS c) (MaxDelayMS c) v (Ops c) (PutRatio c) (DeleteRatio c)
    (BatchRatio c) (MaxKeyLen c) (MaxValueLen c) (HotKeyRatio c) (KeepDBOnFail c) (VerifyEveryCycle c)
    (Profile c) (CrashPoint c) (FaultPoint c).
Definition set_Ops (v : Z) (c : runConfig) : runConfig :=
  mkRunConfig (DBDir c) (ArtifactDir c) (Cycles c) (MinDelayMS c) (MaxDelayMS c) (Seed c) v (PutRatio c) (DeleteRatio c)
    (BatchRatio c) (MaxKeyLen c) (MaxValueLen c) (HotKeyRatio c) (KeepDBOnFail c) (VerifyEveryCycle c)
    (Profile c) (CrashPoint c) (FaultPoint c).
Definition set_PutRatio (v : Z) (c : runConfig) : runConfig :=
  mkRunConfig (DBDir c) (ArtifactDir c) (Cycles c) (MinDelayMS c) (MaxDelayMS c) (Seed c) (Ops c) v (DeleteRatio c)
    (BatchRatio c) (MaxKeyLen c) (MaxValueLen c) (HotKeyRatio c) (KeepDBOnFail c) (VerifyEveryCycle c)
    (Profile c) (CrashPoint c) (FaultPoint c).
Definition set_DeleteRatio (v : Z) (c : runConfig) : runConfig :=
  mkRunConfig (DBDir c) (ArtifactDir c) (Cycles c) (MinDelayMS c) (MaxDelayMS c) (Seed c) (Ops c) (PutRatio c) v
    (BatchRatio c) (MaxKeyLen c) (MaxValueLen c) (HotKeyRatio c) (KeepDBOnFail c) (VerifyEveryCycle c)
    (Profile c) (CrashPoint c) (FaultPoint c).
Definition set_BatchRatio (v : Z) (c : runConfig) : runConfig :=
  mkRunConfig (DBDir c) (ArtifactDir c) (Cycles c) (MinDelayMS c) (MaxDelayMS c) (Seed c) (Ops c) (PutRatio c)
    (DeleteRatio c) v (MaxKeyLen c) (MaxValueLen c) (HotKeyRatio c) (KeepDBOnFail c) (VerifyEveryCycle c)
    (Profile c) (CrashPoint c) (FaultPoint c).
Definition set_MaxKeyLen (v : Z) (c : runConfig) : runConfig :=
  mkRunConfig (DBDir c) (ArtifactDir c) (Cycles c) (MinDelayMS c) (MaxDelayMS c) (Seed c) (Ops c) (PutRatio c)
    (DeleteRatio c) (BatchRatio c) v (MaxValueLen c) (HotKeyRatio c) (KeepDBOnFail c) (VerifyEveryCycle c)
    (Profile c) (CrashPoint c) (FaultPoint c).
Definition set_MaxValueLen (v : Z) (c : runConfig) : runConfig :=
  mkRunConfig (DBDir c) (ArtifactDir c) (Cycles c) (MinDelayMS c) (MaxDelayMS c) (Seed c) (Ops c) (PutRatio c)
    (DeleteRatio c) (BatchRatio c) (MaxKeyLen c) v (HotKeyRatio c) (KeepDBOnFail c) (VerifyEveryCycle c)
    (Profile c) (CrashPoint c) (FaultPoint c).
Definition set_HotKeyRatio (v : Z) (c : runConfig) : runConfig :=
  mkRunConfig (DBDir c) (ArtifactDir c) (Cycles c) (MinDelayMS c) (MaxDelayMS c) (Seed c) (Ops c) (PutRatio c)
    (DeleteRatio c) (BatchRatio c) (MaxKeyLen c) (MaxValueLen c) v (KeepDBOnFail c) (VerifyEveryCycle c)
    (Profile c) (CrashPoint c) (FaultPoint c).
Definition set_KeepDBOnFail (v : bool) (c : runConfig) : runConfig :=
  mkRunConfig (DBDir c) (ArtifactDir c) (Cycles c) (MinDelayMS c) (MaxDelayMS c) (Seed c) (Ops c) (PutRatio c)
    (DeleteRatio c) (BatchRatio c) (MaxKeyLen c) (MaxValueLen c) (HotKeyRatio c) v (VerifyEveryCycle c)
    (Profile c) (CrashPoint c) (FaultPoint c).
Definition set_VerifyEveryCycle (v : bool) (c : runConfig) : runConfig :=
  mkRunConfig (DBDir c) (ArtifactDir c) (Cycles c) (MinDelayMS c) (MaxDelayMS c) (Seed c) (Ops c) (PutRatio c)
    (DeleteRatio c) (BatchRatio c) (MaxKeyLen c) (MaxValueLen c) (HotKeyRatio c) (KeepDBOnFail c) v (Profile c)
    (CrashPoint c) (FaultPoint c).
Definition set_Profile (v : string) (c : runConfig) : runConfig :=
  mkRunConfig (DBDir c) (ArtifactDir c) (Cycles c) (MinDelayMS c) (MaxDelayMS c) (Seed c) (Ops c) (PutRatio c)
    (DeleteRatio c) (BatchRatio c) (MaxKeyLen c) (MaxValueLen c) (HotKeyRatio c) (KeepDBOnFail c)
    (VerifyEveryCycle c) v (CrashPoint c) (FaultPoint c).
Definition set_CrashPoint (v : string) (c : runConfig) : runConfig :=
  mkRunConfig (DBDir c) (ArtifactDir c) (Cycles c) (MinDelayMS c) (MaxDelayMS c) (Seed c) (Ops c) (PutRatio c)
    (DeleteRatio c) (BatchRatio c) (MaxKeyLen c) (MaxValueLen c) (HotKeyRatio c) (KeepDBOnFail c)
    (VerifyEveryCycle c) (Profile c) v (FaultPoint c).
Definition set_FaultPoint (v : string) (c : runConfig) : runConfig :=
  mkRunConfig (DBDir c) (ArtifactDir c) (Cycles c) (MinDelayMS c) (MaxDelayMS c) (Seed c) (Ops c) (PutRatio c)
    (DeleteRatio c) (BatchRatio c) (MaxKeyLen c) (MaxValueLen c) (HotKeyRatio c) (KeepDBOnFail c)
    (VerifyEveryCycle c) (Profile c) (CrashPoint c) v.

(** The flags [runCommand] defines; their defaults are those of [defaultRunConfig]. *)
Definition run_flags : list (flag.Flag runConfig) :=
  [ flag.StringVar set_DBDir "dbdir";
    flag.StringVar set_ArtifactDir "artifact-dir";
    flag.IntVar set_Cycles "cycles";
    flag.IntVar set_MinDelayMS "min-delay-ms";
    flag.IntVar set_MaxDelayMS "max-delay-ms";
    flag.Uint64Var set_Seed "seed";
    flag.IntVar set_Ops "ops";
    flag.IntVar set_PutRatio "put-ratio";
    flag.IntVar set_DeleteRatio "delete-ratio";
    flag.IntVar set_BatchRatio "batch-ratio";
    flag.IntVar set_MaxKeyLen "max-key-len";
    flag.IntVar set_MaxValueLen "max-value-len";
    flag.IntVar set_HotKeyRatio "hot-key-ratio";
    flag.BoolVar set_KeepDBOnFail "keep-db-on-fail";
    flag.BoolVar set_VerifyEveryCycle "verify-every-cycle";
    flag.StringVar (fun s => set_Profile (string_of_bytes s)) "profile";
    flag.StringVar (fun s => set_CrashPoint (string_of_bytes s)) "crash-point";
    flag.StringVar (fun s => set_FaultPoint (string_of_bytes s)) "fault-point" ].

Definition replay_flags : list (flag.Flag replayConfig) :=
  [ flag.StringVar (fun s c => mkReplayConfig s (rc_DBDir c)) "artifact";
    flag.StringVar (fun s c => mkReplayConfig (rc_ArtifactPath c) s) "dbdir" ].

Definition worker_flags : list (flag.Flag workerConfig) := [ flag.StringVar (fun s _ => mkWorkerConfig s) "dbdir" ].

(** ** The crash harness *)

(** [filepathDir]; [dir] is [filepath.Dir]. *)
Definition filepathDir (dir : bytes -> bytes) (path : bytes) : bytes :=
  if bool_decide (path = []) then bytes_of_string "." else dir path.

(** The process ends: its exit code and what it wrote to the standard error. *)
Definition exit : Type := Z * list line.

Definition printUsage : list line :=
  [ Printf "Usage:\n" []; Printf "  crash run [flags]\n" []; Printf "  crash replay --artifact=FILE [--dbdir=DIR]\n" [];
    Printf "  crash worker --dbdir=DIR\n" []; Println; Printf "Subcommands:\n" [];
    Printf "  run     Execute a controller-driven crash harness run\n" [];
    Printf "  replay  Replay a recorded artifact deterministically\n" [];
    Printf "  worker  Internal worker subprocess used by run/replay\n" [] ].

Section Crash.
Context {random : Rng} (dir : bytes -> bytes).

(** What comes of the calls: [preparePaths] and [ensureDBDirEmpty] (Config),
    [saveArtifact] and reading an artifact (Artifact), [run] (Controller),
    [os.RemoveAll] and [runWorker]. *)
Context (prepare : bytes -> bytes -> option error) (ready : bytes -> option error) (save run : controller -> option error).
Context (load : bytes -> res artifact) (removeAll : bytes -> option error) (runWorker : workerConfig -> option error).

(** The end of both commands. *)
Definition run_and_remove (what : string) (c : controller) : res unit :=
  match run c with
  | Some err => throw err
  | None => match removeAll (DBDir (c_cfg c)) with Some err => throw (Errorf what err) | None => Ok tt end
  end.

Definition runCommand (args : list bytes) : res unit :=
  '(cfg, _) ← flag.Parse run_flags args defaultRunConfig;
  c ← runCommand_controller (prepare (DBDir cfg) (ArtifactDir cfg)) cfg;
  match save c with Some err => throw err | None => run_and_remove "removing successful run dbdir" c end.

Definition replayCommand (args : list bytes) : res unit :=
  '(cfg, _) ← flag.Parse replay_flags args (mkReplayConfig [] []);
  c ← replayCommand_controller (ready (rc_DBDir cfg)) cfg (load (rc_ArtifactPath cfg)) (filepathDir dir (rc_ArtifactPath cfg));
  run_and_remove "removing successful replay dbdir" c.

Definition workerCommand (args : list bytes) : res unit :=
  '(cfg, _) ← flag.Parse worker_flags args (mkWorkerConfig []);
  match validateWorker cfg with
  | Some err => throw err
  | None => match runWorker cfg with Some err => throw err | None => Ok tt end
  end.

Definition report (r : res unit) : res exit :=
  match r with
  | Ok _ => Ok (0, [])
  | Err err => Ok (1, [Printf "Error: %v\n" [AErr err]])
  | Panic => Panic
  end.

(** [main]; [os_Args] begins with the name of the program. *)
Definition main (os_Args : list bytes) : res exit :=
  match os_Args with
  | _ :: command :: args =>
      if bool_decide (command = bytes_of_string "run") then report (runCommand args)
      else if bool_decide (command = bytes_of_string "replay") then report (replayCommand args)
      else if bool_decide (command = bytes_of_string "worker") then report (workerCommand args)
      else Ok (1, Printf "Error: unknown subcommand %q\n\n" [AStr command] :: printUsage)
  | _ => Ok (1, printUsage)
  end.

(** The arguments with which [runCycle] starts its worker. *)
Definition worker_args (cfg : runConfig) : list bytes :=
  [bytes_of_string "worker"; bytes_of_string "--dbdir=" ++ DBDir cfg].

(** The worker of a run works on the directory of the run, whatever its name; the
    configuration has passed [validateCore]. *)
Theorem worker_gets_dbdir prog cfg :
  validateCore cfg = None ->
  main (prog :: worker_args cfg) =
    match runWorker (mkWorkerConfig (DBDir cfg)) with
    | Some err => Ok (1, [Printf "Error: %v\n" [AErr err]])
    | None => Ok (0, [])
    end.
Proof using.
  intros Hv. assert (DBDir cfg <> []) as Hne.
  { intros E. unfold validateCore in Hv. by rewrite bool_decide_true in Hv. }
  unfold worker_args, main. change (bytes_of_string "--dbdir=" ++ DBDir cfg) with (flag.written "dbdir" (DBDir cfg)).
  rewrite !bool_decide_false by done. rewrite bool_decide_true by done. unfold workerCommand.
  rewrite (flag.Parse_written worker_flags "dbdir" (DBDir cfg) (flag.StringVar (fun s _ => mkWorkerConfig s) "dbdir")) by done.
  cbn [flag.set_value flag.StringVar flag.f_Set mbind result_bind flag.Parse]. unfold validateWorker. cbn [wc_DBDir].
  rewrite bool_decide_false by done. by destruct (runWorker _).
Qed.
End Crash.

(** *** Every setting can be given on the command line *)
Definition FormatBool (b : bool) : bytes := bytes_of_string (if b then "true" else "false").

Definition command_line (cfg : runConfig) : list bytes :=
  [ flag.written "dbdir" (DBDir cfg);
    flag.written "artifact-dir" (ArtifactDir cfg);
    flag.written "cycles" (strconv.Itoa (Cycles cfg));
    flag.written "min-delay-ms" (strconv.Itoa (MinDelayMS cfg));
    flag.written "max-delay-ms" (strconv.Itoa (MaxDelayMS cfg));
    flag.written "seed" (decimal (Seed cfg));
    flag.written "ops" (strconv.Itoa (Ops cfg));
    flag.written "put-ratio" (strconv.Itoa (PutRatio cfg));
    flag.written "delete-ratio" (strconv.Itoa (DeleteRatio cfg));
    flag.written "batch-ratio" (strconv.Itoa (BatchRatio cfg));
    flag.written "max-key-len" (strconv.Itoa (MaxKeyLen cfg));
    flag.written "max-value-len" (strconv.Itoa (MaxValueLen cfg));
    flag.written "hot-key-ratio" (strconv.Itoa (HotKeyRatio cfg));
    flag.written "keep-db-on-fail" (FormatBool (KeepDBOnFail cfg));
    flag.written "verify-every-cycle" (FormatBool (VerifyEveryCycle cfg));
    flag.written "profile" (bytes_of_string (Profile cfg));
    flag.written "crash-point" (bytes_of_string (CrashPoint cfg));
    flag.written "fault-point" (bytes_of_string (FaultPoint cfg)) ].

Definition int64_range (n : Z) : Prop := - 2 ^ 63 <= n < 2 ^ 63.

(** The widths of the fields. *)
Definition in_range (cfg : runConfig) : Prop :=
  Forall int64_range [Cycles cfg; MinDelayMS cfg; MaxDelayMS cfg; Ops cfg; PutRatio cfg; DeleteRatio cfg; BatchRatio cfg;
    MaxKeyLen cfg; MaxValueLen cfg; HotKeyRatio cfg] /\ is_u64 (Seed cfg).

Section CommandLine.
Context {C : Type} (formal : list (flag.Flag C)) (name : string) (rest : list bytes) (c : C).
Context (plain : flag.plain_name (bytes_of_string name) = true).

Lemma Parse_string set v :
  flag.lookup formal (bytes_of_string name) = Some (flag.StringVar set name) ->
  flag.Parse formal (flag.written name v :: rest) c = flag.Parse formal rest (set v c).
Proof using plain. intros H. by rewrite (flag.Parse_written _ _ _ _ _ _ plain H). Qed.

Lemma Parse_int set n :
  int64_range n -> flag.lookup formal (bytes_of_string name) = Some (flag.IntVar set name) ->
  flag.Parse formal (flag.written name (strconv.Itoa n) :: rest) c = flag.Parse formal rest (set n c).
Proof using plain.
  intros Hn H. rewrite (flag.Parse_written _ _ _ _ _ _ plain H). unfold flag.set_value, flag.IntVar, flag.f_Set.
  by rewrite strconv.ParseInt_Itoa.
Qed.

Lemma Parse_uint set n :
  is_u64 n -> flag.lookup formal (bytes_of_string name) = Some (flag.Uint64Var set name) ->
  flag.Parse formal (flag.written name (decimal n) :: rest) c = flag.Parse formal rest (set n c).
Proof using plain.
  intros Hn H. rewrite (flag.Parse_written _ _ _ _ _ _ plain H). unfold flag.set_value, flag.Uint64Var, flag.f_Set.
  by rewrite strconv.ParseUint_decimal.
Qed.

Lemma Parse_bool set b :
  flag.lookup formal (bytes_of_string name) = Some (flag.BoolVar set name) ->
  flag.Parse formal (flag.written name (FormatBool b) :: rest) c = flag.Parse formal rest (set b c).
Proof using plain. intros H. rewrite (flag.Parse_written _ _ _ _ _ _ plain H). by destruct b. Qed.
End CommandLine.

Lemma string_of_bytes_of_string s : string_of_bytes (bytes_of_string s) = s.
Proof. apply String.string_of_list_byte_of_string. Qed.

(** Every field of a configuration has a flag, which sets it and nothing else: written
    out in full a configuration is read back as it was, seeds and negative numbers
    included. *)
Theorem run_flags_roundtrip cfg : in_range cfg -> flag.Parse run_flags (command_line cfg) defaultRunConfig = Ok (cfg, []).
Proof.
  intros [Hi Hs]. rewrite !Forall_cons in Hi. destruct Hi as (? & ? & ? & ? & ? & ? & ? & ? & ? & ? & _). unfold command_line.
  rewrite (Parse_string _ "dbdir" _ _ eq_refl set_DBDir) by done.
  rewrite (Parse_string _ "artifact-dir" _ _ eq_refl set_ArtifactDir) by done.
  rewrite (Parse_int _ "cycles" _ _ eq_refl set_Cycles) by done.
  rewrite (Parse_int _ "min-delay-ms" _ _ eq_refl set_MinDelayMS) by done.
  rewrite (Parse_int _ "max-delay-ms" _ _ eq_refl set_MaxDelayMS) by done.
  rewrite (Parse_uint _ "seed" _ _ eq_refl set_Seed) by done.
  rewrite (Parse_int _ "ops" _ _ eq_refl set_Ops) by done.
  rewrite (Parse_int _ "put-ratio" _ _ eq_refl set_PutRatio) by done.
  rewrite (Parse_int _ "delete-ratio" _ _ eq_refl set_DeleteRatio) by done.
  rewrite (Parse_int _ "batch-ratio" _ _ eq_refl set_BatchRatio) by done.
  rewrite (Parse_int _ "max-key-len" _ _ eq_refl set_MaxKeyLen) by done.
  rewrite (Parse_int _ "max-value-len" _ _ eq_refl set_MaxValueLen) by done.
  rewrite (Parse_int _ "hot-key-ratio" _ _ eq_refl set_HotKeyRatio) by done.
  rewrite (Parse_bool _ "keep-db-on-fail" _ _ eq_refl set_KeepDBOnFail) by done.
  rewrite (Parse_bool _ "verify-every-cycle" _ _ eq_refl set_VerifyEveryCycle) by done.
  rewrite (Parse_string _ "profile" _ _ eq_refl (fun s => set_Profile (string_of_bytes s))) by done.
  rewrite (Parse_string _ "crash-point" _ _ eq_refl (fun s => set_CrashPoint (string_of_bytes s))) by done.
  rewrite (Parse_string _ "fault-point" _ _ eq_refl (fun s => set_FaultPoint (string_of_bytes s))) by done.
  rewrite !string_of_bytes_of_string. by destruct cfg.
Qed.

(** But with the profile for CI what was given for the workload is overwritten. *)
Lemma profile_ci_overrides cfg cfg' :
  Profile cfg = profileCI -> applyProfileDefaults cfg = Ok cfg' ->
  Seed cfg' = 777 /\ Cycles cfg' = 6 /\ Ops cfg' = 24 /\ VerifyEveryCycle cfg' = true.
Proof.
  unfold applyProfileDefaults. intros ->. rewrite bool_decide_false by done. rewrite bool_decide_true by done. by intros [= <-].
Qed.

(** ** The dump tools

    [flag.Parse] of the command line of a process: an error ends it with code 2, a
    request for help with 0.  What the flag package prints is left out. *)
Definition parsed {C} (formal : list (flag.Flag C)) (args : list bytes) (c : C) (k : C -> list bytes -> res exit) : res exit :=
  match flag.Parse formal args c with
  | Ok (c, rest) => k c rest
  | Err err => Ok (if bool_decide (err = flag.ErrHelp) then 0 else 2, [])
  | Panic => Panic
  end.

(** The path is the first argument; further ones are ignored. *)
Definition wal_dump_main (dumpWAL : bool -> bytes -> res unit) (prog : bytes) (args : list bytes) : res exit :=
  parsed [flag.BoolVar (fun b _ => b) "decode"] args false (fun decode rest =>
    match rest with
    | [] => Ok (1, [Printf "Usage: %s [-decode] <wal-file-path>\n" [AStr prog]])
    | path :: _ => report (dumpWAL decode path)
    end).

Definition manifest_dump_main (dumpManifest : bytes -> res unit) (args : list bytes) : res exit :=
  parsed [] args tt (fun _ rest =>
    match rest with
    | [dir] => report (dumpManifest dir)
    | _ => Ok (1, [Printf "Usage: manifest_dump <db-dir>\n" []])
    end).

Definition sst_dump_main (run : bytes -> bool -> res unit) (args : list bytes) : res exit :=
  parsed [flag.BoolVar (fun b _ => b) "entries"] args false (fun entries rest =>
    match rest with
    | [path] =>
        match run path entries with
        | Ok _ => Ok (0, [])
        | Err err => Ok (1, [Printf "error: %v\n" [AErr err]])
        | Panic => Panic
        end
    | _ => Ok (1, [Printf "usage: sst_dump [-entries] <path>\n" []])
    end).

(** They succeed only if the dump does. *)
Lemma sst_dump_exit run args out : sst_dump_main run args = Ok (0, out) ->
  (exists path entries, run path entries = Ok tt) \/ flag.Parse [flag.BoolVar (fun b _ => b) "entries"] args false = throw flag.ErrHelp.
Proof.
  unfold sst_dump_main, parsed. destruct (flag.Parse _ _ _) as [[entries rest]|e|]; [|case_bool_decide as E; [|done]; subst; by right|done].
  destruct rest as [|path [|]]; [done| |done]. destruct (run path entries) as [[]|e|] eqn:E; [|done..]. left. by exists path, entries.
Qed.
