(* ===== verification/Scenarios.v ===== *)
(** * Runs that go wrong

    Executable schedules of the engine on a disk where no call fails, from a
    directory that starts empty, and the states they reach. *)
From Stdlib Require Import QArith_base.
From S2P Require Import Prelude.
From S2P Require Import Errors.
From S2P Require Import Keys.
From S2P Require Import GoIO.
From S2P Require Import GoSort.
From S2P Require Import RecordIO.
From S2P Require Import Fs.
From S2P Require Wal.
From S2P Require Batch.
From S2P Require Import Memtable.
From S2P Require Import SkipList.
From S2P Require RefModel.
From S2P Require Import Version.
From S2P Require Import FileNames.
From S2P Require Import Engine.
From S2P Require Manifest.
From S2P Require SstReader.
From S2P Require Import EngineRun.
From S2P Require Import Current.
From S2P Require Import Recovery.
From S2P Require Import Robust.
From S2P Require Dump.
From S2P Require Import Disk.
From S2P Require Import Live.
From S2P Require Import Reopen.
From S2P Require Import Opening.
From S2P Require Import History.
From S2P Require Import Wakeups.

Local Open Scope Z_scope.

(** ** Schedules *)
Section Schedules.
Context {Mem : Type} {memtable : Memtable Mem} {slices : Slices} {device : Device} (rand : nat -> nat -> Q).

Inductive action :=
  | ACall (c : client_call)      (* a goroutine calls into the database *)
  | AResume (i : nat).           (* the i-th parked goroutine goes on *)

Definition enabled_bool (t : thread Mem) (others : list (thread Mem)) : bool :=
  match t with TCloseWait true => forallb (fun t => negb (is_loop t)) others | _ => true end.

Definition act (a : action) (s : Sys) : option Sys :=
  match a with
  | ACall c =>
      match start rand c (s_db s) (s_w s) with
      | Some ((db, n), w) => Some (mkSys db w (s_threads s ++ parked n) (s_log s ++ writes c (s_db s) db))
      | None => None
      end
  | AResume i =>
      match s_threads s !! i with
      | Some t =>
          let others := take i (s_threads s) ++ drop (S i) (s_threads s) in
          if enabled_bool t others then
            match resume rand t (s_db s) (s_w s) with
            | Some ((db, n), w) => Some (mkSys db w (others ++ parked n) (s_log s))
            | None => None
            end
          else None
      | None => None
      end
  end.

Fixpoint acts (l : list action) (s : Sys) : option Sys :=
  match l with [] => Some s | a :: l => s ← act a s; acts l s end.

Definition proper_action (a : action) : Prop :=
  match a with ACall c => proper_call c | AResume _ => True end.

Lemma enabled_bool_ok t others : enabled_bool t others = true -> enabled t others.
Proof.
  unfold enabled_bool, enabled. destruct t as [| | | | | | | |[|]]; try done.
  induction others as [|t others IH]; cbn; [constructor|]. intros [Ht%negb_true_iff H]%andb_true_iff.
  constructor; [done|by apply IH].
Qed.

Lemma act_sound a s s' : proper_action a -> act a s = Some s' -> sys_step rand s s'.
Proof.
  intros Hp H. destruct s as [db w ts log]. destruct a as [c|i]; cbn [act s_db s_w s_threads s_log] in H.
  - destruct (start rand c db w) as [[[db' n] w']|] eqn:E; [|done]. injection H as <-. by apply step_call.
  - destruct (ts !! i) as [t|] eqn:Et; [|done]. destruct (enabled_bool _ _) eqn:Een; [|done].
    destruct (resume rand t db w) as [[[db' n] w']|] eqn:E; [|done]. injection H as <-.
    rewrite <-app_assoc. rewrite <-(take_drop_middle ts i t Et) at 1.
    apply step_resume; [by apply enabled_bool_ok|done].
Qed.

Lemma acts_sound l s s' : Forall proper_action l -> acts l s = Some s' -> rtc (sys_step rand) s s'.
Proof.
  revert s. induction l as [|a l IH]; intros s Hp H; cbn in H; [by injection H as ->|].
  apply Forall_cons in Hp as [Ha Hp]. destruct (act a s) as [s1|] eqn:E; [|done]. cbn in H.
  eapply rtc_l; [by eapply act_sound|by apply IH].
Qed.
End Schedules.

(** ** The setting: skip lists, a disk without faults *)
#[export] Instance perfect_device : Device := {
  stream_fails _ := None; stat_fails _ := false; bad_read _ _ _ := false
}.

#[export] Instance perfect_device_good : GoodDevice.
Proof. by split. Qed.

#[export] Instance perfect_device_streams : Streams.
Proof. done. Qed.

Definition half (_ _ : nat) : Q := (1 # 2)%Q.

(** [Open] in a directory. *)
Definition opened (opts : list Option) (s : Fs) : option (Sys (Mem := SkipList)) :=
  match Open (Mem := SkipList) half opts None (world s) with
  | Some (Ok (db, ts), w) => Some (mkSys db w ts [])
  | _ => None
  end.

Definition empty_dir : Fs := empty_fs [] (fun _ => []).

Definition put (k v : bytes) : action := ACall (CWrite None (Some (Batch.Put k v Batch.NewBatch))).

Definition run (opts : list Option) (s : Fs) (l : list action) : option (Sys (Mem := SkipList)) :=
  s ← opened opts s; acts half l s.

(** A run from [Open], as a sequence of steps. *)
Definition reaches (opts : list Option) (d : Fs) (s : Sys (Mem := SkipList)) : Prop :=
  exists s0, opened opts d = Some s0 /\ rtc (sys_step half) s0 s.

Lemma run_reaches opts d l s : Forall proper_action l -> run opts d l = Some s -> reaches opts d s.
Proof.
  unfold run. intros Hp H. destruct (opened opts d) as [s0|] eqn:E; [|done].
  exists s0. split; [done|]. by eapply acts_sound.
Qed.

(** The process dies; everything written to a file is still there. *)
Definition killed (s : Fs) : Fs :=
  mkFs ((fun f => mkFile (f_content f) (length (f_content f)) []) <$> inodes s) (live s) [] (next_ino s) [] (fun _ => []).

Lemma killed_crash s :
  map_Forall (fun _ f => (f_synced f <= length (f_content f))%nat) (inodes s) -> crash s (killed s).
Proof.
  intros Hs. split; cbn; [by left|done|done| |].
  - intros i Hi. by rewrite lookup_fmap, Hi.
  - intros i f Hi. rewrite lookup_fmap, Hi. eexists. split; [done|]. split; [|done]. cbn. split; [done|by eapply Hs].
Qed.

Lemma killed_calm s : calm (killed s).
Proof.
  split; [done| |done]. intros i f. cbn. rewrite lookup_fmap. by destruct (inodes s !! i); intros [= <-].
Qed.

(** *** Two waiting Flush calls

    Goroutine A flushes; while it writes the table, B and C call [Flush] with new
    writes in the memtable and wait.  A publishes; B freezes the memtable, writes
    and publishes it; C then freezes the empty memtable that B left. *)
Definition flush_race : list action :=
  [ put [x61] [x01]; ACall CFlush;            (* A: threads [A] *)
    put [x62] [x02]; ACall CFlush; ACall CFlush;   (* threads [A; B; C] *)
    AResume 0; AResume 2;                     (* A writes its table ([B; C; A]) and publishes *)
    AResume 0; AResume 1; AResume 1;          (* B freezes, writes ([C; B]), publishes *)
    AResume 0; AResume 0; AResume 0 ].        (* C freezes the empty memtable, fails, reports it *)

Lemma flush_race_proper : Forall proper_action flush_race.
Proof. repeat constructor. Qed.

(** No call failed and none will. *)
Definition faultless_disk (s : Sys (Mem := SkipList)) : Prop :=
  call_faults (w_fs (s_w s)) = [] /\ w_fault (s_w s) = None /\
  map_Forall (fun _ f => f_faults f = []) (inodes (w_fs (s_w s))).

#[local] Instance faultless_disk_dec s : Decision (faultless_disk s).
Proof. unfold faultless_disk. apply _. Defined.

(** A run that exists and whose final state passes a test. *)
Lemma run_test (test : Sys (Mem := SkipList) -> bool) opts d l :
  Forall proper_action l -> match run opts d l with Some s => test s | None => false end = true ->
  exists s, reaches opts d s /\ test s = true.
Proof.
  intros Hp Ht. destruct (run opts d l) as [s|] eqn:E; [|done].
  exists s. split; [by eapply run_reaches|done].
Qed.

(** ** Properties *)

(** C27: concurrent flushes poison the database.  With automatic flushing off
    and a disk on which nothing fails, three overlapping [Flush] calls can leave the
    database open with [ErrFlushEmptyMemtable] as its sticky flush error: every
    later write is refused.  The background flusher skips empty memtables, the
    synchronous path tests for one only before it waits. *)
Theorem flush_race_poisons :
  exists s, reaches [] empty_dir s /\ closed (s_db s) = false /\ s_threads s = [] /\ faultless_disk s /\
    forall b ctx w, Write half ctx b (s_db s) w =
      Some ((s_db s, Return (Some (engine_error engine.ErrFlushEmptyMemtable))), w).
Proof.
  destruct (run_test (fun s => negb (closed (s_db s)) && (length (s_threads s) =? 0)%nat && bool_decide (faultless_disk s) &&
    bool_decide (flushErr (s_db s) = Some (engine_error engine.ErrFlushEmptyMemtable)))
    [] empty_dir flush_race flush_race_proper) as (s & Hr & Ht); [vm_compute; reflexivity|].
  rewrite !andb_true_iff, negb_true_iff, !bool_decide_eq_true in Ht. destruct Ht as [[[Hc Ht] Hd] He]. zb.
  exists s. split_and!; try done; [by apply nil_length_inv|].
  intros b ctx w. unfold Write, checkWritePreconditionsLocked. by rewrite Hc, He.
Qed.

(** *** Close during Flush *)
Definition close_race : list action :=
  [ put [x61] [x01]; ACall CFlush; AResume 0; (* Flush: the table is written, the lock not yet taken *)
    ACall CClose; AResume 1 ].                (* Close runs to its end *)

(** C30: closing during a synchronous flush crashes the process.  [Close] waits
    for the background flusher only; when a [Flush] without one is between writing
    its table and publishing it, [Close] completes and sets the MANIFEST writer to
    nil, and the publication then dereferences it. *)
Theorem close_during_flush_panics :
  exists s r, reaches [] empty_dir s /\ faultless_disk s /\ s_threads s = [TFlushPublish r] /\
    resume half (TFlushPublish r) (s_db s) (s_w s) = None.
Proof.
  destruct (run_test (fun s => bool_decide (faultless_disk s) &&
    match s_threads s with
    | [TFlushPublish r] => if resume half (TFlushPublish r) (s_db s) (s_w s) then false else true
    | _ => false
    end) [] empty_dir close_race) as (s & Hr & Ht); [repeat constructor|vm_compute; reflexivity|].
  rewrite andb_true_iff, bool_decide_eq_true in Ht. destruct Ht as [Hd Ht].
  destruct (s_threads s) as [|t [|]] eqn:E; try done; destruct t as [| | | |r| | | |]; try done.
  exists s, r. split_and!; try done. by destruct (resume half (TFlushPublish r) (s_db s) (s_w s)).
Qed.

(** *** A write that failed, and comes back *)

(** A disk on which the first fsync of the third file created (the WAL) fails. *)
Definition bad_sync_dir : Fs := empty_fs [] (fun i => if (i =? 2)%nat then [NoFault; Fail 0] else []).

Definition get (k : bytes) (db : DB SkipList) : option bytes :=
  match Get None k db with Ok v => Some v | _ => None end.

(** What a database opened after the process died returns for a key. *)
Definition get_after_restart (opts : list Option) (s : Fs) (k : bytes) : option (option bytes) :=
  s' ← opened opts (killed s); Some (get k (s_db s')).

Definition synced_prefixes (s : Fs) : Prop :=
  map_Forall (fun _ f => (f_synced f <= length (f_content f))%nat) (inodes s).

#[export] Instance synced_prefixes_dec s : Decision (synced_prefixes s).
Proof. unfold synced_prefixes. apply _. Defined.

(** Reopening after a crash. *)
Definition reopened (opts : list Option) (s : Fs) (db : DB SkipList) : Prop :=
  exists s' s1, crash s s' /\ opened opts s' = Some s1 /\ s_db s1 = db.

Lemma reopened_killed opts s k v :
  synced_prefixes s -> get_after_restart opts s k = Some (Some v) ->
  exists db, reopened opts s db /\ Get None k db = Ok v.
Proof.
  intros Hs H. unfold get_after_restart in H. destruct (opened opts (killed s)) as [s1|] eqn:E; [|done].
  cbn in H. injection H as H. exists (s_db s1). split.
  - exists (killed s), s1. split_and!; [by apply killed_crash|done|done].
  - unfold get in H. by destruct (Get None k (s_db s1)); simplify_eq.
Qed.

Definition failed_put : Batch.Batch := Batch.Put [x61] [x01] Batch.NewBatch.

(** C29: a failed write can come back.  When the fsync of the WAL fails,
    [Write] returns an error and the value is not readable; but its record stays in
    the log, and after a restart the value is there. *)
Theorem failed_write_comes_back :
  exists s db1 e w1 db2, opened [] bad_sync_dir = Some s /\
    Write half None (Some failed_put) (s_db s) (s_w s) = Some ((db1, Return (Some e)), w1) /\
    Get None [x61] db1 = throw engine.ErrKeyNotFound /\
    reopened [] (w_fs w1) db2 /\ Get None [x61] db2 = Ok [x01].
Proof.
  assert (match opened [] bad_sync_dir with
    | Some s => match Write half None (Some failed_put) (s_db s) (s_w s) with
        | Some ((db1, Return (Some e)), w1) =>
            bool_decide (Get None [x61] db1 = throw engine.ErrKeyNotFound) &&
            bool_decide (synced_prefixes (w_fs w1)) &&
            bool_decide (get_after_restart [] (w_fs w1) [x61] = Some (Some [x01]))
        | _ => false
        end
    | None => false
    end = true) as H by (vm_compute; reflexivity).
  destruct (opened [] bad_sync_dir) as [s|]; [|done].
  destruct (Write half None (Some failed_put) (s_db s) (s_w s)) as [[[db1 [[e|]|t]] w1]|] eqn:Ew; try done.
  rewrite !andb_true_iff, !bool_decide_eq_true in H. destruct H as [[Hg Hs] Hr].
  destruct (reopened_killed _ _ _ _ Hs Hr) as (db2 & Ho & Hg2).
  by exists s, db1, e, w1, db2.
Qed.

(** *** A flushed write that is lost again

    Without fsync per write: the first value of a key is larger than the WAL's
    buffer and reaches the file, the second stays in the buffer; both are in the
    table that [Flush] makes durable. *)
Definition old_value : bytes := replicate 5000 x6f.

Definition resurrection : list action :=
  [ put [x61] old_value; put [x61] [x6e]; ACall CFlush; AResume 0 ].

(** What the only table of a database says of a key. *)
Definition table_value (k : bytes) (db : DB SkipList) : option bytes :=
  match ssts db with
  | [t] => match SstReader.Get k (2 ^ 64 - 1) t with Ok v => Some v | _ => None end
  | _ => None
  end.

(** A run up to a [Flush] about to publish its table: the goroutine that publishes it
    gets to return nil. *)
Definition flush_returns (s s' : Sys (Mem := SkipList)) : Prop :=
  exists r, s_threads s = [TFlushPublish r] /\ s_threads s' = [] /\
    resume half (TFlushPublish r) (s_db s) (s_w s) = Some ((s_db s', Return None), s_w s').

(** The last step of [Flush], as the test of a run. *)
Definition flush_publishes (test : Sys (Mem := SkipList) -> bool) (s : Sys (Mem := SkipList)) : bool :=
  match s_threads s with
  | [TFlushPublish r] =>
      match resume half (TFlushPublish r) (s_db s) (s_w s) with
      | Some ((db, Return None), w) => test (mkSys db w [] (s_log s))
      | _ => false
      end
  | _ => false
  end.

Lemma flush_publishes_sound test s : flush_publishes test s = true -> exists s', flush_returns s s' /\ test s' = true.
Proof.
  unfold flush_publishes, flush_returns. destruct (s_threads s) as [|[| | | |r| | | |] [|]] eqn:Et; try done.
  destruct (resume _ _ _ _) as [[[db [[e|]|t]] w]|] eqn:E; try done. intros H.
  exists (mkSys db w [] (s_log s)). split; [|done]. by exists r.
Qed.

(** C28: after a flush, a crash can bring an older value back.  With
    [WithSync(false)], a key is put twice and [Flush] returns nil: the memtable is
    empty, and the table it has written, the only one, holds the new value.  The
    process dies, and everything it had written to its files is kept: the table is
    there and still holds the new value.  But of the two puts the WAL holds one, the first; replay
    numbers it 3, after the table's 1 and 2, and [Get] returns the old value.
    No call to the operating system fails. *)
Theorem flushed_value_reverts :
  exists s s' s2, reaches [WithSync false] empty_dir s /\ faultless_disk s' /\ flush_returns s s' /\
    (exists m, mem (s_db s') = Some m /\ mem_empty m = true) /\ immMem (s_db s') = None /\
    table_value [x61] (s_db s') = Some [x6e] /\ Get None [x61] (s_db s') = Ok [x6e] /\
    crash (w_fs (s_w s')) (killed (w_fs (s_w s'))) /\ opened [WithSync false] (killed (w_fs (s_w s'))) = Some s2 /\
    seqno (s_db s') = 2 /\ seqno (s_db s2) = 3 /\
    table_value [x61] (s_db s2) = Some [x6e] /\ Get None [x61] (s_db s2) = Ok old_value.
Proof.
  destruct (run_test (flush_publishes (fun s => bool_decide (faultless_disk s) && (seqno (s_db s) =? 2) &&
    match mem (s_db s) with Some m => mem_empty m | None => false end && (if immMem (s_db s) then false else true) &&
    bool_decide (table_value [x61] (s_db s) = Some [x6e]) && bool_decide (Get None [x61] (s_db s) = Ok [x6e]) &&
    bool_decide (synced_prefixes (w_fs (s_w s))) &&
    match opened [WithSync false] (killed (w_fs (s_w s))) with
    | Some s2 => (seqno (s_db s2) =? 3) && bool_decide (table_value [x61] (s_db s2) = Some [x6e]) && bool_decide (Get None [x61] (s_db s2) = Ok old_value)
    | None => false
    end)) [WithSync false] empty_dir resurrection) as (s & Hr & Ht); [repeat constructor|vm_compute; reflexivity|].
  apply flush_publishes_sound in Ht as (s' & Hf & Ht). rewrite !andb_true_iff, !bool_decide_eq_true in Ht.
  destruct Ht as [[[[[[[Hd Hq] Hm] Hi] Hv] Hg] Hs] Ho]. destruct (opened _ _) as [s2|] eqn:E; [|done].
  rewrite !andb_true_iff, !bool_decide_eq_true in Ho. destruct Ho as [[Hq2 Hv2] Hg2]. zb.
  exists s, s', s2. split_and!; try done.
  - destruct (mem (s_db s')) as [m|]; [|done]. by exists m.
  - by destruct (immMem (s_db s')).
  - by apply killed_crash.
Qed.

(** *** An Open that fails for good *)

(** A disk on which the ninth call on the directory fails: the fsync after CURRENT
    was renamed into place. *)
Definition bad_setup_dir : Fs := empty_fs (replicate 8 NoFault ++ [Fail 0]) (fun _ => []).

(** CURRENT is on the disk and names a MANIFEST that is not. *)
Definition dangling (s : Fs) : Prop :=
  match parse_current (content_of currentFileName s) with Ok name => live s !! name = None | _ => False end.

#[local] Instance dangling_dec s : Decision (dangling s).
Proof. unfold dangling. destruct (parse_current _); apply _. Defined.

Lemma ReadCurrent_dangling s :
  call_faults s = [] -> dangling s ->
  exists name, ReadCurrent (world s) = Some (Ok name, mkWorld s [s; s] None) /\ live s !! name = None.
Proof.
  intros Hf Hd. unfold dangling, parse_current, content_of in Hd. unfold ReadCurrent, os_ReadFile, syscall, next_call, mbind, io_bind.
  cbn [w_fs world]. rewrite Hf. unfold change. cbn [w_fs world].
  destruct (live s !! currentFileName) as [i|]; cbn in Hd |- *; [|done].
  destruct (inodes s !! i) as [f|]; cbn in Hd |- *; [|done].
  case_bool_decide; [done|]. destruct (validateManifestName _); [done|]. by eexists.
Qed.

(** No [Open] gets past it, and none repairs it. *)
Lemma open_dangling rand opts s :
  call_faults s = [] -> dangling s ->
  exists e w, Open (Mem := SkipList) rand opts None (world s) = Some (throw e, w) /\ w_fs w = s.
Proof.
  intros Hf Hd. unfold Open. destruct (_ <? 0); [by eexists _, _|]. destruct (_ <? 0); [by eexists _, _|].
  unfold openManifest. destruct (ReadCurrent_dangling s Hf Hd) as (name & E & Hn).
  unfold mbind, io_bind. rewrite E. unfold replayExistingManifest, Manifest.NewReader, os_Open, syscall, next_call, mbind, io_bind.
  cbn [w_fs]. rewrite Hf. unfold change. cbn [w_fs]. rewrite Hn. by eexists _, _.
Qed.

(** C31: a set-up that failed once may fail for good.  When the directory
    cannot be synced after CURRENT has been renamed into place,
    [bootstrapFreshManifest] removes the MANIFEST again, which CURRENT by then
    names; the process dies, and from then on, on a disk where nothing fails,
    [Open] with any options returns an error and leaves the directory as it was. *)
Theorem failed_setup_is_final :
  exists e w1 s', Open (Mem := SkipList) half [] None (world bad_setup_dir) = Some (throw e, w1) /\
    crash (w_fs w1) s' /\ calm s' /\
    forall rand opts, exists e' w', Open (Mem := SkipList) rand opts None (world s') = Some (throw e', w') /\ w_fs w' = s'.
Proof.
  assert (match Open (Mem := SkipList) half [] None (world bad_setup_dir) with
    | Some (Err e, w1) => bool_decide (synced_prefixes (w_fs w1)) && bool_decide (dangling (killed (w_fs w1)))
    | _ => false end = true) as H by (vm_compute; reflexivity).
  destruct (Open half [] None (world bad_setup_dir)) as [[[x|e|] w1]|]; [done| |done|done].
  rewrite andb_true_iff, !bool_decide_eq_true in H. destruct H as [Hs Hd].
  exists e, w1, (killed (w_fs w1)). split; [done|]. split; [by apply killed_crash|]. split; [apply killed_calm|].
  intros rand opts. by apply open_dangling.
Qed.

(** *** Ordinary runs

    A database on two empty files; one key is written, flushed and deleted. *)
Definition demo_start : Sys (Mem := SkipList) :=
  let db := fresh_db half true 0 0 (Wal.mkWriter true bufio_NewWriter) 0 (Manifest.mkWriter (Some 1%nat) []) in
  let file := mkFile [] 0 [] in
  mkSys db (world (mkFs {[0%nat := file; 1%nat := file]} ∅ [] 2 [] (fun _ => []))) (fresh_threads db) [].

Definition demo : list action :=
  [ put [x61] [x01]; put [x62] [x02]; ACall CFlush; AResume 0; AResume 0;
    ACall (CWrite None (Some (Batch.Delete [x61] Batch.NewBatch))) ].

Lemma demo_proper : Forall proper_action demo.
Proof.
  unfold demo, put. repeat first [by apply Forall_nil | apply Forall_cons_2 | exact I | by left | by right].
Qed.

Definition bounded_bool (log : list entry) : bool :=
  (SstReader.log_bytes log <? 2 ^ 31) && (zlen log <? 2 ^ 64).

Lemma bounded_bool_ok log : bounded_bool log = true -> bounded 0 log.
Proof. unfold bounded_bool, bounded, small. intros H. zb. lia. Qed.

Lemma engine_refines_map_witness :
  exists s, rtc (sys_step half) demo_start s /\ length (ssts (s_db s)) = 1%nat /\
    Get None [x61] (s_db s) = get_result (log_map (s_log s) !! [x61]) /\
    get_result (log_map (s_log s) !! [x61]) = throw engine.ErrKeyNotFound /\
    Get None [x62] (s_db s) = get_result (log_map (s_log s) !! [x62]) /\
    get_result (log_map (s_log s) !! [x62]) = Ok [x02].
Proof.
  assert (match acts half demo demo_start with
    | Some s => negb (closed (s_db s)) && bounded_bool (s_log s) && (length (ssts (s_db s)) =? 1)%nat &&
        bool_decide (log_map (s_log s) !! [x61] = None) && bool_decide (log_map (s_log s) !! [x62] = Some [x02])
    | None => false end = true) as H by (vm_compute; reflexivity).
  destruct (acts half demo demo_start) as [s|] eqn:E; [|done].
  rewrite !andb_true_iff, !bool_decide_eq_true, negb_true_iff in H. destruct H as [[[[Hc Hb] Hl] H1] H2]. zb.
  apply acts_sound in E; [|exact demo_proper]. exists s. split; [exact E|split; [done|split_and!]].
  - apply (engine_refines_map half true 0 0 _ _ _ _ s [x61] E (bounded_bool_ok _ Hb) Hc).
  - by rewrite H1.
  - apply (engine_refines_map half true 0 0 _ _ _ _ s [x62] E (bounded_bool_ok _ Hb) Hc).
  - by rewrite H2.
Defined.

Lemma write_is_atomic_witness :
  exists s db' w', rtc (sys_step half) demo_start s /\
    Write half None (Some failed_put) (s_db s) (s_w s) = Some ((db', Return None), w') /\
    forall key, Get None key db' =
      get_result (foldl apply_op (log_map (s_log s)) (Batch.snapshot (Some failed_put)) !! key).
Proof.
  assert (match acts half demo demo_start with
    | Some s => match Write half None (Some failed_put) (s_db s) (s_w s) with
        | Some ((db', Return None), w') => negb (closed (s_db s)) &&
            bounded_bool (s_log s ++ writes (CWrite None (Some failed_put)) (s_db s) db')
        | _ => false end
    | None => false end = true) as H by (vm_compute; reflexivity).
  destruct (acts half demo demo_start) as [s|] eqn:E; [|done].
  destruct (Write half None (Some failed_put) (s_db s) (s_w s)) as [[[db' [[e|]|t]] w']|] eqn:Ew; [discriminate| |discriminate|discriminate].
  rewrite andb_true_iff, negb_true_iff in H. destruct H as [Hc Hb].
  apply acts_sound in E; [|exact demo_proper]. exists s, db', w'. split; [exact E|split; [exact Ew|]].
  assert (proper_call (CWrite None (Some failed_put))) as Hp by (repeat constructor).
  apply (write_is_atomic half true 0 0 _ _ _ _ s None (Some failed_put) db' (Return None) w' E Hc Hp Ew
    (bounded_bool_ok _ Hb)).
Defined.

(** ** A history

    One key is written; the machine crashes and everything that was not synced is
    lost; the database is opened again. *)
Definition harsh (s : Fs) : Fs :=
  mkFs ((fun f => mkFile (take (f_synced f) (f_content f)) (f_synced f) []) <$> inodes s)
    (List.last (live s :: unsynced s) ∅) [] (next_ino s) [] (fun _ => []).

Lemma harsh_crash s : synced_prefixes s -> crash s (harsh s).
Proof.
  intros Hs. split; cbn [harsh live unsynced next_ino inodes]; [|done|done| |].
  - apply list_elem_of_In. destruct (exists_last (l := live s :: unsynced s)) as (l & d & ->); [done|].
    rewrite last_last. apply in_or_app. right. by left.
  - intros i Hi. by rewrite lookup_fmap, Hi.
  - intros i f Hi. rewrite lookup_fmap, Hi. eexists. split; [done|]. assert (f_synced f <= length (f_content f))%nat as Hle by apply (Hs i f Hi). cbn [f_content f_synced].
    assert (length (take (f_synced f) (f_content f)) = f_synced f) as El by (rewrite length_take; lia).
    split; [|done]. split; [exists (drop (f_synced f) (f_content f)); by rewrite take_drop|]. by rewrite El.
Qed.

Lemma harsh_calm s : calm (harsh s).
Proof.
  split; [done| |done]. intros i f. cbn. rewrite lookup_fmap. by destruct (inodes s !! i); intros [= <-].
Qed.

Definition one_put : batch := Batch.snapshot (Some failed_put).

Lemma one_put_ok : batch_ok one_put.
Proof.
  split.
  - apply (@bool_decide_unpack _ (Batch.wf_ops_dec _)). vm_compute. exact I.
  - vm_compute. split; [discriminate|reflexivity].
  - apply Forall_singleton. vm_compute. discriminate.
Qed.

(** The state in which the machine comes back. *)
Definition put_and_crash : option (Sys (Mem := SkipList) * DB SkipList * World) :=
  match opened [] empty_dir with
  | Some s => match start half (CWrite None (Some failed_put)) (s_db s) (now (s_w s)) with
      | Some ((db, Return None), w) => Some (s, db, w)
      | _ => None end
  | None => None
  end.

Lemma opened_run opts d s :
  opened opts d = Some s -> Open (Mem := SkipList) half opts None (mkWorld d [d] None) = Some (Ok (s_db s, s_threads s), s_w s).
Proof.
  unfold opened, world. destruct (Open half opts None _) as [[[[db ts]|e|] w]|]; [|done..]. by intros [= <-].
Qed.

Lemma put_and_crash_history s db w :
  put_and_crash = Some (s, db, w) -> synced_prefixes (w_fs w) ->
  rtc hstep (blank [] (fun _ => [])) (mkState (Down (harsh (w_fs w)) : phase (Mem := SkipList)) [one_put] [one_put] 1).
Proof.
  unfold put_and_crash. intros H Hs. destruct (opened [] empty_dir) as [s0|] eqn:Eo; [|done].
  destruct (start half _ (s_db s0) (now (s_w s0))) as [[[db1 [[e|]|t]] w1]|] eqn:Es; [discriminate| |discriminate|discriminate].
  injection H as <- <- <-.
  apply opened_run in Eo. change (blank [] (fun _ => [])) with (mkState (Down empty_dir : phase (Mem := SkipList)) [] [] 0).
  eapply rtc_l; [exact (h_open half [] None None empty_dir [] [] 0 _ _ _ eq_refl Eo)|].
  eapply rtc_l; [eapply (h_call (CWrite None (Some failed_put))); [|exact Es]; apply Forall_cons; split; [exact one_put_ok|constructor]|].
  eapply rtc_l; [by apply h_crash, harsh_crash|]. apply rtc_refl.
Qed.

Lemma put_and_crash_run : exists s db w, put_and_crash = Some (s, db, w) /\ synced_prefixes (w_fs w) /\
  match opened [] (harsh (w_fs w)) with Some s' => closed (s_db s') = false | None => False end.
Proof.
  assert (match put_and_crash with
    | Some (s, db, w) => bool_decide (synced_prefixes (w_fs w)) &&
        match opened [] (harsh (w_fs w)) with Some s' => negb (closed (s_db s')) | None => false end
    | None => false end = true) as H by (vm_compute; reflexivity).
  destruct put_and_crash as [[[s db] w]|]; [|done]. rewrite andb_true_iff, bool_decide_eq_true in H. destruct H as [Hs Ho].
  exists s, db, w. split; [done|]. split; [done|]. destruct (opened [] (harsh (w_fs w))); [|done]. by apply negb_true_iff in Ho.
Qed.

Lemma one_put_map eff : [one_put] `sublist_of` eff -> eff `sublist_of` [one_put] ->
  get_result (batches_map eff !! [x61]) = Ok [x01].
Proof.
  intros H1 H2. assert (eff = [one_put]) as ->; [|vm_compute; reflexivity].
  by apply (anti_symm sublist).
Qed.

Lemma durable_linearizable_witness :
  exists rand (db : DB SkipList) w ts n,
    rtc hstep (blank [] (fun _ => [])) (mkState (Running rand db w ts) [one_put] [one_put] n) /\
    closed db = false /\ Get None [x61] db = Ok [x01].
Proof.
  destruct put_and_crash_run as (s & db & w & E & Hs & Ho).
  destruct (opened [] (harsh (w_fs w))) as [s'|] eqn:Eo; [|destruct Ho]. apply opened_run in Eo.
  assert (rtc hstep (blank [] (fun _ => [])) (mkState (Running half (s_db s') (s_w s') (s_threads s')) [one_put] [one_put] 2)) as H.
  { eapply rtc_r; [by eapply put_and_crash_history|]. exact (h_open half [] None None _ _ _ 1 _ _ _ eq_refl Eo). }
  exists half, (s_db s'), (s_w s'), (s_threads s'), 2. split; [exact H|]. split; [exact Ho|].
  destruct (durable_linearizable [] (fun _ => []) half (s_db s') (s_w s') (s_threads s') [one_put] [one_put] 2 H) as (eff & H1 & H2 & Hg);
    [vm_compute; reflexivity|reflexivity|exact Ho|].
  rewrite Hg. by apply one_put_map.
Defined.

Lemma recovery_succeeds_witness :
  exists s db ts w, rtc hstep (blank [] (fun _ => [])) (mkState (Down s : phase (Mem := SkipList)) [one_put] [one_put] 1) /\
    Open (Mem := SkipList) half [] None (world s) = Some (Ok (db, ts), w) /\ Get None [x61] db = Ok [x01].
Proof.
  destruct put_and_crash_run as (s & db & w & E & Hs & _). pose proof (put_and_crash_history s db w E Hs) as H.
  destruct (recovery_succeeds [] (fun _ => []) half [] (harsh (w_fs w)) [one_put] [one_put] 1 H) as (db' & ts & w' & Eo & eff & H1 & H2 & Hg);
    [vm_compute; reflexivity|reflexivity|apply harsh_calm|left; discriminate|reflexivity|discriminate|discriminate|].
  exists (harsh (w_fs w)), db', ts, w'. split; [exact H|]. split; [exact Eo|]. rewrite Hg. by apply one_put_map.
Defined.

(** A directory with a damaged MANIFEST and a damaged log, on devices that fail as they
    are read and calls of which some fail too. *)
Definition garbage_dir : Fs :=
  let file data := mkFile data 0 [Fail 3; NoFault] in
  mkFs {[0%nat := file (bytes_of_string "MANIFEST-000001"); 1%nat := file (replicate 30 x42); 2%nat := file (replicate 50 xff)]}
    {[currentFileName := 0%nat; bytes_of_string "MANIFEST-000001" := 1%nat; walFileName := 2%nat]} [] 3 [NoFault; NoFault; Fail 0] (fun _ => [Fail 0]).

Definition failing_device : Device := {| stream_fails _ := Some 7%nat; stat_fails _ := true; bad_read _ _ _ := true |}.

Lemma open_never_panics_witness :
  exists r w, Open (Mem := SkipList) (H := failing_device) half [] None (world garbage_dir) = Some (r, w) /\ r <> Panic.
Proof.
  destruct (open_never_panics (Mem := SkipList) (device := failing_device) half [] None (world garbage_dir)) as (r & w & E & H & _).
  - intros name i Hi. cbn in Hi. rewrite !lookup_insert_Some in Hi. rewrite lookup_empty in Hi.
    destruct Hi as [[_ <-]|[_ [[_ <-]|[_ [[_ <-]|[_ Hi]]]]]]; [eexists; reflexivity..|discriminate Hi].
  - exists r, w. split; [exact E|exact H].
Defined.

(** *** Writers that wait for the flusher

    With a flush size of one byte the first [Write] freezes its memtable, and the
    second one sleeps until that is flushed. *)
Definition tiny : list Option := [WithMemtableFlushSize 1].

Definition a_put : client_call := CWrite None (Some failed_put).

Lemma a_put_ok : Forall batch_ok (batch_of a_put).
Proof. apply Forall_cons. split; [exact one_put_ok|constructor]. Qed.

(** [Signal] wakes the first. *)
Definition wake_first {Mem} (wk : wakes) (asl : list (thread Mem)) : list (thread Mem) * list (thread Mem) :=
  match wk, asl with
  | NoWake, _ => (asl, [])
  | Signal, [] => ([], [])
  | Signal, t :: asl => (asl, [t])
  | Broadcast, _ => ([], asl)
  end.

Lemma wake_first_ok {Mem} wk (asl : list (thread Mem)) : notify wk asl (wake_first wk asl).1 (wake_first wk asl).2.
Proof. destruct wk, asl; cbn; try constructor. apply (notify_one []). Qed.

Definition run_call (c : client_call) (st : Run (Mem := SkipList)) : option Run :=
  match start half c (r_db st) (now (r_w st)) with
  | Some ((db, nx), w) =>
      let '(asl, woken) := wake_first (call_wakes c (r_db st) db) (r_asleep st) in
      Some (mkRun db w (asl ++ sleeping nx) (r_awake st ++ woken ++ going nx)
        (r_acked st ++ acks c nx) (r_issued st ++ batch_of c))
  | None => None
  end.

Lemma run_call_sound c st st' : Forall batch_ok (batch_of c) -> run_call c st = Some st' -> run_step half st st'.
Proof.
  unfold run_call. intros Hok H. destruct (start half c _ _) as [[[db nx] w]|] eqn:E; [|done].
  pose proof (wake_first_ok (call_wakes c (r_db st) db) (r_asleep st)) as Hn.
  destruct (wake_first _ _) as [asl woken]. injection H as <-. left. destruct st. by apply (calls half c).
Qed.

Definition two_writers : option (Sys (Mem := SkipList) * Run (Mem := SkipList) * Run (Mem := SkipList)) :=
  s ← opened tiny empty_dir; st1 ← run_call a_put (launched (s_db s) (s_threads s) (s_w s) [] []);
  st2 ← run_call a_put st1; Some (s, st1, st2).

Lemma two_writers_run : exists s st1 st2, two_writers = Some (s, st1, st2) /\
  r_asleep st2 = [TWriteWait] /\ r_awake st2 = [TLoopWait] /\ s_threads s = [TLoopWait] /\
  batches_bytes (r_issued st2) < 2 ^ 31 /\ work st2 = 31%nat.
Proof.
  assert (match two_writers with
    | Some (s, st1, st2) =>
        match r_asleep st2, r_awake st2, s_threads s with [TWriteWait], [TLoopWait], [TLoopWait] => true | _, _, _ => false end &&
        (batches_bytes (r_issued st2) <? 2 ^ 31) && (work st2 =? 31)%nat
    | None => false end = true) as H by (vm_compute; reflexivity).
  destruct two_writers as [[[s st1] st2]|]; [|done]. exists s, st1, st2. rewrite !andb_true_iff, Nat.eqb_eq, Z.ltb_lt in H.
  destruct H as [[H Hb] Hw]. destruct (r_asleep st2) as [|[] []]; try done. destruct (r_awake st2) as [|[] []]; try done.
  by destruct (s_threads s) as [|[] []].
Qed.

Lemma two_writers_opened s st1 st2 : two_writers = Some (s, st1, st2) ->
  Open (Mem := SkipList) half tiny None (mkWorld empty_dir [empty_dir] None) = Some (Ok (s_db s, s_threads s), s_w s) /\
  rtc (run_step half) (launched (s_db s) (s_threads s) (s_w s) [] []) st2.
Proof.
  unfold two_writers. intros H. destruct (opened tiny empty_dir) as [s0|] eqn:Eo; [|done]. cbn [mbind option_bind] in H.
  destruct (run_call a_put (launched _ _ _ _ _)) as [st1'|] eqn:E1; [|done]. cbn [mbind option_bind] in H.
  destruct (run_call a_put st1') as [st2'|] eqn:E2; [|done]. cbn [mbind option_bind] in H. injection H as <- <- <-.
  split; [by apply opened_run|]. eapply rtc_l; [eapply run_call_sound; [exact a_put_ok|exact E1]|].
  apply rtc_once. eapply run_call_sound; [exact a_put_ok|exact E2].
Qed.

Lemma no_lost_wakeup_witness :
  exists (db : DB SkipList) ts w st, rtc (run_step half) (launched db ts w [] []) st /\
    TWriteWait ∈ r_asleep st /\ exists t, t ∈ r_awake st /\ (is_loop t = true \/ is_sync t = true).
Proof.
  destruct two_writers_run as (s & st1 & st & E & Ha & _ & _ & Hb & _). destruct (two_writers_opened s st1 st E) as [Ho Hr].
  exists (s_db s), (s_threads s), (s_w s), st. split; [exact Hr|]. rewrite Ha. split; [by left|].
  destruct (no_lost_wakeup half [] (fun _ => []) tiny None None empty_dir [] [] 0 (s_db s) (s_threads s) (s_w s)
    ltac:(apply rtc_refl) eq_refl Ho eq_refl st Hr) as [_ Hex].
  - unfold in_bounds. lia.
  - apply Hex. exists TWriteWait. rewrite Ha. split; [by left|done].
Defined.

Lemma calls_return_witness :
  exists (db : DB SkipList) ts w st, rtc (run_step half) (launched db ts w [] []) st /\ r_asleep st = [TWriteWait] /\
    (forall k st', nsteps (go_step half) k st st' -> (k <= 31)%nat).
Proof.
  destruct two_writers_run as (s & st1 & st & E & Ha & _ & _ & Hb & Hw). destruct (two_writers_opened s st1 st E) as [Ho Hr].
  exists (s_db s), (s_threads s), (s_w s), st. split; [exact Hr|]. split; [exact Ha|].
  destruct (calls_return half [] (fun _ => []) tiny None None empty_dir [] [] 0 (s_db s) (s_threads s) (s_w s)
    ltac:(apply rtc_refl) eq_refl Ho eq_refl st Hr) as [Hk _].
  - unfold in_bounds. lia.
  - rewrite Hw in Hk. exact Hk.
Defined.

(** The flusher of the database that was opened, and another call. *)
Lemma handlers_never_panic_witness :
  exists (db : DB SkipList) w,
    rtc hstep (blank [] (fun _ => [])) (mkState (Running half db w [TLoopWait]) [] [] 1) /\
    (exists r, start half a_put db (now w) = Some r) /\ (exists r, resume half TLoopWait db (now w) = Some r).
Proof.
  destruct two_writers_run as (s & st1 & st & E & _ & _ & Ht & _). destruct (two_writers_opened s st1 st E) as [Ho _].
  rewrite Ht in Ho.
  assert (rtc hstep (blank [] (fun _ => [])) (mkState (Running half (s_db s) (s_w s) [TLoopWait]) [] [] 1)) as H.
  { apply rtc_once. exact (h_open half tiny None None empty_dir [] [] 0 _ _ _ eq_refl Ho). }
  exists (s_db s), (s_w s). split; [exact H|].
  destruct (handlers_never_panic [] (fun _ => []) half (s_db s) (s_w s) [TLoopWait] [] [] 1 H) as [H1 H2];
    [vm_compute; reflexivity|reflexivity|].
  split; [apply H1; [exact a_put_ok|vm_compute; reflexivity]|].
  apply (H2 [] TLoopWait []); [reflexivity|]. intros [Hf _]. discriminate Hf.
Defined.

(** *** The memtable beside the reference model *)
Definition versions : list RefModel.write :=
  [ RefModel.WPut [x61] [x01] 5; RefModel.WDelete [x61] 9; RefModel.WPut [x61] [x02] 7; RefModel.WPut [x61] [x03] 7;
    RefModel.WPut [x62] [] 6 ].

Lemma memtable_matches_model_witness :
  exists m : SkipList, RefModel.to_memtable versions (Memtable.mem_new (half 0%nat)) = Ok m /\ mem_len m = 5%nat /\
    mem_get [x61] 8 m = Ok (Some [x03], true) /\ mem_get [x61] 9 m = Ok (None, true) /\
    mem_get [x61] 4 m = Ok (None, false) /\ mem_get [x62] 6 m = Ok (Some [], true).
Proof.
  destruct (RefModel.memtable_matches_model (Mem := SkipList) (half 0%nat) versions) as (m & E & El & Hg).
  exists m. split; [exact E|]. split; [exact El|]. rewrite !Hg. split_and!; reflexivity.
Defined.

(** *** A log of two batches, dumped and replayed *)
Definition encoded (ops : list Batch.operation) : bytes := match Batch.encodeOperations ops with Ok p => p | _ => [] end.

Definition two_batches : list bytes :=
  [encoded (Batch.snapshot (Some failed_put)); encoded [Batch.mkOperation Batch.OpTypeDelete [x61] []]].

Definition two_batches_log : Reader := open_reader (mkSource (log_image Wal.walRecordFormat two_batches) None).

Definition replay_two_batches : option ((DB SkipList * option error) * World) :=
  replay_wal_loop (drain_fuel two_batches_log) two_batches_log walFileName (new_db half (applyOptions [])) (world empty_dir).

Lemma wal_dump_matches_recovery_witness :
  exists db w ps bs e r, replay_two_batches = Some ((db, None), w) /\ seqno db = 2 /\
    Dump.reads Wal.Next two_batches_log ps e r /\ Dump.tail_cut walFileName e r (world empty_dir) w /\
    Dump.wal_dump.dump_records true (drain_fuel two_batches_log) two_batches_log 0 0 =
      (Dump.batch_lines true 0 ps bs ++
         Dump.wal_tail (zlen ps) (Dump.total_bytes ps) (errors_Is e record.ErrTruncated), Ok tt).
Proof.
  assert (match replay_two_batches with Some ((db, None), _) => seqno db =? 2 | _ => false end = true) as H by (vm_compute; reflexivity).
  destruct replay_two_batches as [[[db [e|]] w]|] eqn:E; [discriminate H| |discriminate H]. apply Z.eqb_eq in H.
  pose proof E as E2. unfold replay_two_batches in E2.
  destruct (Dump.wal_dump_matches_recovery true two_batches_log walFileName (new_db half (applyOptions [])) db _ w E2)
    as (ps & bs & e & r & Hr & Hd & Ha & Ht & El). exists db, w, ps, bs, e, r.
  split; [reflexivity|]. split; [exact H|]. split; [exact Hr|]. split; [exact Ht|exact El].
Defined.
