(* ===== verification/HarnessRuns.v ===== *)
(** * Runs of the crash harness

    Workloads, a run of controller and worker, and its artifact, on the database
    history of Scenarios.v in which one put is written before a crash. *)
From Stdlib Require Import QArith_base.
From S2P Require Import Prelude.
From S2P Require Import Errors.
From S2P Require Import Keys.
From S2P Require Import Crashhook.
From S2P Require Import GoIO.
From S2P Require Import GoSort.
From S2P Require Import RecordIO.
From S2P Require Import Fs.
From S2P Require Wal.
From S2P Require Batch.
From S2P Require Import Memtable.
From S2P Require Import SkipList.
From S2P Require Import Version.
From S2P Require Import FileNames.
From S2P Require Import Engine.
From S2P Require Manifest.
From S2P Require SstReader.
From S2P Require Import EngineRun.
From S2P Require Import Current.
From S2P Require Import Recovery.
From S2P Require Import Disk.
From S2P Require Import Live.
From S2P Require Import Reopen.
From S2P Require Import Opening.
From S2P Require Import History.
From S2P Require Import Scenarios.
From S2P Require Import Protocol.
From S2P Require Import Oracle.
From S2P Require Import Config.
From S2P Require Import Artifact.
From S2P Require Import Controller.
From S2P Require Import Workload.

Local Open Scope Z_scope.

#[local] Instance key_order : MapOrder := { map_values A m := (map_to_list m).*2 }.

Definition put_op : operation := mkOperation 0 opPut (Some [x61]) (Some [x01]) [].

(** ** Workloads from a generator of small numbers *)
#[local] Instance counter : Rng := {
  rng := Z;
  rng_new seed1 seed2 := seed1;
  rng_IntN n s := (Z.modulo s n, s + 37);
  rng_Uint64 s := (Z.modulo s (2 ^ 64), s + 37)
}.

#[local] Instance counter_laws : RngLaws.
Proof. constructor. intros n s Hn. cbn. by apply Z.mod_pos_bound. Qed.

(** The default mix, and one of batches only. *)
Definition small_run (put delete batch : Z) : runConfig :=
  mkRunConfig [x64] [x61] 50 10 100 7 6 put delete batch 4 4 30 false true profileFull "" "".

Lemma workload_wellformed_witness :
  exists ops, generateWorkload (small_run 60 20 20) = Ok ops /\ op_ID <$> ops = seqZ 0 6.
Proof.
  destruct (workload_wellformed (small_run 60 20 20) ltac:(reflexivity) ltac:(split; vm_compute; discriminate) ltac:(reflexivity)) as (ops & K & E & Hid & _).
  exists ops. split; [exact E|exact Hid].
Defined.

Lemma workload_needs_puts_witness : generateWorkload (small_run 0 0 100) = Panic.
Proof. apply (workload_needs_puts (small_run 0 0 100)); reflexivity. Defined.

(** The operations of the default mix. *)
Example small_run_kinds :
  match generateWorkload (small_run 60 20 20) with Ok ops => op_Kind <$> ops | _ => [] end =
  [opPut; opDelete; opBatch; opPut; opPut; opPut].
Proof. vm_compute. reflexivity. Qed.

(** ** The harness on the history of one put

    The worker dies after the call has returned and before it has said so; the
    controller has seen the start of the operation. *)

(** The controller after an event, and after an operation was sent. *)
Definition told (event : eventMessage) (c : controller) : controller :=
  match on_event 0 0 event c with Ok (c, _) => c | _ => c end.

Definition sent (op : operation) (c : controller) : controller :=
  match nextOperation c with Ok (_, c) => set_retryIndex (op_ID op) c | _ => c end.

Lemma told_step done c event d l w i o ex ok :
  match on_event 0 0 event c with Ok (_, b) => b = done | _ => False end ->
  sys_step (mkSystem c PWait 0 d l w i (event :: o) ex ok)
    (mkSystem (told event c) (if done then PSend else PWait) 0 d (event_ref event) w i o ex ok).
Proof.
  intros H. apply by_controller, (step_event _ _ _ _ _ _ _ _ _ _ _ _ 0). unfold told. by destruct (on_event 0 0 event c) as [[c' b]| |]; subst.
Qed.

Lemma sent_step op c d l w i o ex ok :
  match nextOperation c with Ok (Some op', _) => op' = op | _ => False end ->
  sys_step (mkSystem c PSend 0 d l w i o ex ok) (mkSystem (sent op c) PWait 0 d l w (i ++ [toMessage op]) o ex ok).
Proof.
  intros H. unfold sent. destruct (nextOperation c) as [[[op'|] c']| |] eqn:E; subst; try done. by apply by_controller, step_send.
Qed.

(** The worker's side of an operation, up to its call; and a call that returns. *)
Lemma read_steps op c ph d l o ex ok :
  toOperation (toMessage op) = Ok op ->
  rtc sys_step (mkSystem c ph 0 d l WIdle [toMessage op] o ex ok) (mkSystem c ph 0 d l (WStarted op) [] (o ++ [start_event op]) ex ok).
Proof. intros H. apply rtc_once, by_worker. by apply step_read. Qed.

Lemma call_steps op err c ph d l i o ex ok call :
  executeOperation op = Ok call ->
  rtc sys_step (mkSystem c ph 0 d l (WStarted op) i o ex ok)
    (mkSystem c ph 0 d l (WReturned op err) i o (ex ++ [op]) (match err with None => ok ++ [op] | Some _ => ok end)).
Proof. intros H. eapply rtc_l; [by eapply by_worker, step_call|]. apply rtc_once, by_worker, step_return. Qed.

(** A whole operation. *)
Lemma operation_steps op err c d l ex ok call :
  match nextOperation c with Ok (Some op', _) => op' = op | _ => False end ->
  toOperation (toMessage op) = Ok op -> executeOperation op = Ok call ->
  match on_event 0 0 (start_event op) (sent op c) with Ok (_, b) => b = false | _ => False end ->
  match on_event 0 0 (end_event op err) (told (start_event op) (sent op c)) with Ok (_, b) => b = true | _ => False end ->
  rtc sys_step (mkSystem c PSend 0 d l WIdle [] [] ex ok)
    (mkSystem (told (end_event op err) (told (start_event op) (sent op c))) PSend 0 d (event_ref (end_event op err)) WIdle [] []
      (ex ++ [op]) (match err with None => ok ++ [op] | Some _ => ok end)).
Proof.
  intros Hn Hr Hc Hs He. eapply rtc_l; [by apply (sent_step op)|]. etrans; [by apply read_steps|].
  etrans; [by eapply (call_steps op err)|]. eapply rtc_l; [apply by_worker, step_report|]. cbn [app].
  eapply rtc_l; [by apply (told_step false)|]. apply rtc_once. by apply (told_step true).
Qed.

(** The start of the worker, and its end while the controller waits. *)
Lemma ready_steps c d l ex ok :
  rtc sys_step (mkSystem c PReady 0 d l WOpening [] [] ex ok)
    (mkSystem (recordEvent 0 0 ready_event c) PSend 0 d (event_ref ready_event) WIdle [] [] ex ok).
Proof. eapply rtc_l; [apply by_worker, step_open|]. apply rtc_once. by apply by_controller, (step_ready _ _ _ _ _ _ _ _ _ _ 0). Qed.

Lemma death_steps c d l w i ex ok :
  rtc sys_step (mkSystem c PWait 0 d l w i [] ex ok) (mkSystem (end_cycle 0 d 0 0 0 l c) PVerify 0 d l WDead i [] ex ok).
Proof.
  eapply rtc_l; [apply by_worker, step_die|]. eapply rtc_l; [apply by_controller, step_closed|].
  apply rtc_once. apply by_controller, (step_over _ _ _ _ _ _ _ 0 0 0).
Qed.

Definition one_op_run : system :=
  let c := recordEvent 0 0 ready_event (newController (small_run 60 20 20) [put_op]) in
  let l := event_ref (start_event put_op) in
  mkSystem (end_cycle 0 10 0 0 0 l (told (start_event put_op) (sent put_op c))) PVerify 0 10 l
    WDead [] [] [put_op] [put_op].

Lemma one_op_run_reached : rtc sys_step (sys_start (small_run 60 20 20) [put_op] 10) one_op_run.
Proof.
  etrans; [apply ready_steps|]. eapply rtc_l; [by apply (sent_step put_op)|].
  etrans; [by apply read_steps|]. etrans; [by eapply (call_steps put_op None)|].
  eapply rtc_l; [by apply (told_step false); vm_compute|]. apply death_steps.
Qed.

Lemma controller_no_false_alarm_witness :
  exists s w, rtc hstep (blank [] (fun _ => [])) (mkState (Down s : History.phase (Mem := SkipList)) [one_put] [one_put] 1) /\
    verifyDatabaseState (Mem := SkipList) half newOracle (Some put_op) (world s) =
      Some (Ok (mkVerificationResult 1 [0], None), w).
Proof.
  destruct put_and_crash_run as (s & db & w & E & Hs & _). pose proof (put_and_crash_history s db w E Hs) as H.
  destruct (controller_no_false_alarm half (small_run 60 20 20) [put_op] 10 one_op_run [] (fun _ => []) (harsh (w_fs w)) 1)
    as (pending & w' & Ep & Ev);
    [by split; [|apply Forall_singleton; split; [left|]]|done|apply one_op_run_reached|done|exact H|vm_compute; reflexivity|reflexivity
    |apply harsh_calm|by left|].
  injection Ep as <-. exists (harsh (w_fs w)), w'. split; [exact H|]. exact Ev.
Defined.

Lemma replay_same_run_witness :
  loadArtifact (Ok (newArtifact (small_run 60 20 20) [put_op])) = Ok (newArtifact (small_run 60 20 20) [put_op], [put_op]).
Proof.
  apply (replay_same_run (small_run 60 20 20) [put_op] [] [] 0 None [] []). apply Forall_singleton. by left.
Defined.

(** ** A run with an injected fault

    The fsync of the first put fails, by the fault point; the second put, on another
    key, succeeds; and the worker dies before the call of the third, on the first
    key. *)
Definition fault_run_config : runConfig :=
  mkRunConfig [x64] [x61] 50 10 100 7 3 60 20 20 4 4 30 false true profileFull "" FaultWALSyncError.

Definition second_put : Batch.Batch := Batch.Put [x62] [x01] Batch.NewBatch.

Definition second_op : operation := mkOperation 1 opPut (Some [x62]) (Some [x01]) [].
Definition third_op : operation := mkOperation 2 opPut (Some [x61]) (Some [x02]) [].

Definition sync_error : error := Errorf "beachdb: syncing WAL" (crashhook_error crashhook.ErrInjectedWALSync).

(** The controller when the third operation starts. *)
Definition fault_controller : controller :=
  let c := recordEvent 0 0 ready_event (newController fault_run_config [put_op; second_op; third_op]) in
  let c := told (end_event put_op (Some sync_error)) (told (start_event put_op) (sent put_op c)) in
  let c := told (end_event second_op None) (told (start_event second_op) (sent second_op c)) in
  told (start_event third_op) (sent third_op c).

Definition fault_run : system :=
  let l := event_ref (start_event third_op) in
  mkSystem (end_cycle 0 10 0 0 0 l fault_controller) PVerify 0 10 l WDead [] [] [put_op; second_op] [second_op].

Lemma fault_run_reached : rtc sys_step (sys_start fault_run_config [put_op; second_op; third_op] 10) fault_run.
Proof.
  etrans; [apply ready_steps|].
  etrans; [by eapply (operation_steps put_op (Some sync_error)); vm_compute|].
  etrans; [by eapply (operation_steps second_op None); vm_compute|].
  eapply rtc_l; [by apply (sent_step third_op); vm_compute|]. etrans; [by apply read_steps|].
  eapply rtc_l; [by apply (told_step false); vm_compute|]. apply death_steps.
Qed.

Lemma fault_run_pending : pendingOperation (s_ctl fault_run) = Ok (Some third_op).
Proof. vm_compute. reflexivity. Qed.

(** The database meanwhile, and the verdict after the crash. *)
Definition fault_verdict (w : World) : option (res (verificationResult * option verificationFailure) * World) :=
  verifyDatabaseState (Mem := SkipList) half (c_oracle (s_ctl fault_run)) (Some third_op) (world (killed (w_fs w))).

Definition fault_open := Open (Mem := SkipList) half [] None (mkWorld empty_dir [empty_dir] (Some FaultWALSyncError)).

Definition fault_calls : option World :=
  match fault_open with
  | Some (Ok (db, _), w1) =>
      match start half (CWrite None (Some failed_put)) db w1 with
      | Some ((db, Return (Some _)), w2) =>
          match start half (CWrite None (Some second_put)) db w2 with
          | Some ((_, Return None), w3) => Some w3
          | _ => None
          end
      | _ => None
      end
  | _ => None
  end.

(** C32: with a fault point the harness can raise a false alarm.  The
    controller takes an operation that failed for one that had no effect.  When the
    fsync of a put fails, its record stays in the writer's buffer, and the sync of
    the next put carries it to the disk; if a third operation, on the key of the
    first, is in flight when the worker dies, the verifier finds the refused value
    and reports a failure. *)
Theorem fault_point_false_alarm :
  exists sys db ts w1 db2 e w2 db3 w3 v failure w4,
    rtc sys_step (sys_start fault_run_config [put_op; second_op; third_op] 10) sys /\ s_phase sys = PVerify /\
    s_executed sys = [put_op; second_op] /\ s_succeeded sys = [second_op] /\
    pendingOperation (s_ctl sys) = Ok (Some third_op) /\
    Open (Mem := SkipList) half [] None (mkWorld empty_dir [empty_dir] (Some FaultWALSyncError)) = Some (Ok (db, ts), w1) /\
    start half (CWrite None (Some failed_put)) db w1 = Some ((db2, Return (Some e)), w2) /\
    start half (CWrite None (Some second_put)) db2 w2 = Some ((db3, Return None), w3) /\
    crash (w_fs w3) (killed (w_fs w3)) /\
    verifyDatabaseState (Mem := SkipList) half (c_oracle (s_ctl sys)) (Some third_op) (world (killed (w_fs w3))) =
      Some (Ok (v, Some failure), w4).
Proof.
  assert (match fault_calls with
    | Some w3 => bool_decide (synced_prefixes (w_fs w3)) &&
        match fault_verdict w3 with Some (Ok (_, Some _), _) => true | _ => false end
    | None => false end = true) as H by (vm_compute; reflexivity).
  unfold fault_calls in H. destruct fault_open as [[[[db ts]|e|] w1]|] eqn:Eo; [|discriminate H..].
  destruct (start half (CWrite None (Some failed_put)) db w1) as [[[db2 [[e|]|t]] w2]|] eqn:Es; [|discriminate H..].
  destruct (start half (CWrite None (Some second_put)) db2 w2) as [[[db3 [[e'|]|t]] w3]|] eqn:Es2; [discriminate H| |discriminate H..].
  apply andb_true_iff in H as [Hs H]. apply bool_decide_eq_true in Hs. destruct (fault_verdict w3) as [[[[v [f|]]|e'|] w4]|] eqn:Ev; [|discriminate H..].
  exists fault_run, db, ts, w1, db2, e, w2, db3, w3, v, f, w4.
  split; [exact fault_run_reached|]. do 3 (split; [reflexivity|]). split; [exact fault_run_pending|].
  split; [exact Eo|]. split; [exact Es|]. split; [exact Es2|]. split; [by apply killed_crash|exact Ev].
Qed.
